(* ===== verification/_CoqProject ===== *)
-Q . S2P
Prelude.v
SliceOps.v
Bytes.v
Errors.v
Hlc.v
Temporal.v
Ids.v
CommitClock.v
Lsn.v
Interning.v
Vectors.v
Property.v
PropMap.v
Namespaces.v
Delta.v
Provenance.v
History.v
Slices.v
HistoryFacts.v
Chains.v
Beliefs.v
HistoryWitness.v
Wal.v
WalRead.v
WalFields.v
WalReplay.v
WalCrypt.v
WalSegment.v
WalRecovery.v
WalWitness.v
TxFrames.v
TemporalIndex.v
Timelines.v
TimelineLaws.v
Csr.v
Adjacency.v
Compaction.v
AdjacencyRaces.v
CurrentIndex.v
CurrentLaws.v
CurrentStore.v
IndexedHistory.v
IndexedLaws.v
Transactions.v
Commit.v
CommitLaws.v
CommitEffect.v
CommitSafety.v
CommitHeads.v
CommitBuffers.v
CommitRaces.v
CommitRuns.v
Constraint.v
ConstraintLaws.v
ConstraintSafety.v
ConstraintSchema.v
ConstraintRuns.v
Replay.v
Renaming.v
HistoryHeads.v
ReplayIds.v
ReplayLive.v
ReplaySteps.v
ReplaySound.v
ReplayLaws.v
ReplayAgain.v
ReplayRuns.v
