(* ===== verification/Prelude.v ===== *)
(** * AletheiaDB: a verification library

    AletheiaDB is an embedded bi-temporal graph database.  Every version of a node
    or an edge carries the valid time of the fact and the transaction time during
    which the database believed it; commits are stamped by a hybrid logical clock,
    written to a striped write-ahead log and replayed from it after a crash.  The
    library models the core of the crate (paths are relative to the [src/] of the
    repository, so [src/core/hlc.rs] is [src/src/core/hlc.rs]) and proves what its
    parts promise each other.

    ** How the parts fit together

    A write transaction takes a snapshot, collects its writes in a buffer and reads
    through it.  Its commit checks the writes, then, under the commit lock, checks them
    again against what was committed meanwhile, takes a timestamp above every earlier
    one, logs one framed batch under one LSN allocation, and applies the writes to the
    live graph and to the historical store, which appends versions, closes the ones they
    supersede and keeps its temporal index.  Snapshots read the clock without a lock.
    Recovery scans the log directory to seed the LSN allocator, re-reads every
    segment, keeps the operations of the committed frames, applies them to empty stores or
    to what a snapshot gave, and seeds the id generators.  Names and property keys travel as interned ids, in memory, and as
    strings, in the log.

    ** Files

    - [SliceOps]: the slice operations of the standard library the indexes use
      (binary partition points, insertion into sorted lists, sorting with their laws).
    - [Prelude]: outcomes of Rust functions ([res]: value, error, panic), fallible
      code over a shared store ([SM]), machine integers, tactics ([mlia],
      [bool_to_prop], [case_goal]) and lemmas the other files share.
    - [Bytes], [Errors]: byte buffers, little-endian integers and UTF-8; the error
      values of [core/error.rs] with the data the code attaches.
    - [Hlc] ([core/hlc.rs]): timestamps, their order, send, receive, the skew
      policy and the encoding.  [Temporal] ([core/temporal.rs]): half-open ranges
      and bi-temporal intervals.
    - [CommitClock] ([core/commit_clock.rs]): the packed 128-bit frontier word and,
      in module [Protocol], the atomic steps of any number of readers and committers
      as a step relation.
    - [Ids] ([core/id.rs] and its two seeding sites), [Lsn]
      ([storage/wal/lsn_allocator.rs]): the atomic generators as sequences of atomic
      steps.
    - [Interning] ([core/interning.rs]): the interner, the class [Interner] that the
      codecs are proved against, its instance, and module [InternRace], the
      concurrent protocol.
    - [Vectors] ([core/vector/]), [Property], [PropMap] ([core/property/]),
      [Provenance] ([core/provenance.rs]): the stored data and its codecs.
    - [Namespaces] ([core/namespace.rs]): names, scopes, their interner, and the
      reserved property that carries the namespace of an entity.
    - [Delta] ([core/version.rs]): property deltas and vector deltas.
    - [History], [Slices] ([storage/historical/mod.rs], [slices.rs],
      [snapshot_policy.rs]): the version store of one kind of entity: appends,
      closing, reconstruction through two caches, lookup, update plans and their
      execution.  [HistoryFacts], [Chains], [Beliefs] hold its theory, and
      [HistoryWitness] the concrete runs.
    - [Wal] ([storage/wal/entry.rs], [serialization.rs]), [WalRead], [WalSegment]
      ([segment_reader.rs], and the bytes [flush_coordinator.rs] writes), [WalCrypt]
      ([encryption/wal_encryption.rs], [cipher.rs]): the log.  [WalFields],
      [WalReplay], [WalRecovery] prove its round trips and its recovery, and
      [WalWitness] evaluates them.
    - [TxFrames] ([api/transaction/write_buffer.rs], [api/transaction/write/wal.rs],
      [storage/wal/concurrent.rs], [storage/recovery.rs]): the write buffer, the
      framed batch of a commit, the resolution of frames at recovery.
    - [Csr] ([index/adjacency.rs]): the compressed adjacency, its build, reads and
      persistence.  [Adjacency] ([index/incremental_adjacency.rs]): the CSR with its
      delta buffer and tombstones, module [Incr] sequentially, module [Interleaved]
      as the atomic accesses of writers, readers and the compaction.  [Compaction]
      proves the first and [AdjacencyRaces] the second.
    - [TemporalIndex] ([index/temporal/mod.rs]): the timelines of every entity on both
      axes, [Timelines] and [TimelineLaws] their theory against a map of ranges.
    - [CurrentIndex] ([index/current.rs], [index/property_index.rs], the entities of
      [core/graph.rs]): the live graph with its derived indexes; [CurrentLaws] its
      refinement of two plain maps (module [GraphSpec]); [CurrentStore]
      ([storage/current/mod.rs]): the operations over it, lookups and pages.
    - [IndexedHistory] (the parts of [storage/historical/] that keep the temporal
      index): the operations of [History] and [Slices] over the store and its index;
      [IndexedLaws] shows that the store behaves as without one.
    - [Transactions] ([api/transaction/visibility.rs], [write/mod.rs], [write/cas.rs],
      [read_tx.rs]): snapshots, the operations that fill the buffer, the reads of both
      kinds of transaction, and [Db], the state transactions share.  [Commit]
      ([write/validation.rs], [conflict.rs], [cas.rs], [apply.rs], [wal.rs]): the commit.
      [CommitLaws], [CommitEffect], [CommitSafety], [CommitHeads] hold its theory;
      [CommitBuffers] says what a buffering operation leaves in a buffer (class
      [Buffering]); [CommitRaces] interleaves the transactions; [CommitRuns] evaluates
      concrete ones.
    - [Constraint] ([core/constraint.rs], [write/constraint.rs], [db/ops.rs]): the registry
      of unique and schema constraints, the check of a transaction with its guard, and
      a commit with a registry; [ConstraintSchema] ([db/schema_constraint.rs]): the stored
      form of the schema.  [ConstraintLaws] says what a check reserves,
      [ConstraintSafety] interleaves the transactions, [ConstraintRuns] evaluates concrete
      ones.
    - [Replay] ([storage/recovery.rs]): the resolved operations applied to the stores.
      [Renaming] (every operation of [History] and [Slices] commutes with a renaming of the
      versions), [HistoryHeads] (what it leaves at the head of an entity), [ReplayIds] (the
      version ids of a replay), [ReplayLive] (a live write as the operations it makes),
      [ReplaySound] (what live writes keep), [ReplaySteps] (a step of the replay on a renamed
      history) carry [ReplayLaws]: replay against the live database, one write, one
      transaction and one run at a time.  [ReplayAgain] replays an operation over its own
      effect; [ReplayRuns] evaluates concrete logs.

    ** What the theorems show

    - Durability: [log_recovery], [torn_log_recovery], [crash_keeps_committed],
      [commit_logs_band], [wal_entry_roundtrip]: what was written to any number of
      plain or encrypted segments is read back in LSN order; a crash that tears the
      log keeps exactly the transactions whose commit record is complete.
    - Robustness: [recovery_total], [parse_entry_untrusted], [deserialize_untrusted],
      [map_deserialize_untrusted]: arbitrary bytes never panic a decoder nor make it
      run on.
    - Isolation: [snapshot_isolation], [snapshot_sees_published],
      [commits_above_reservations]: for every interleaving of atomic steps.
    - Commit: [write_ahead] (nothing changes before the frame is logged),
      [commit_effect] (what a successful commit does to the live graph),
      [reads_own_writes], [no_write_skew], and [cas_exclusive] over every interleaving of
      the steps of the transactions.
    - Constraints: [unique_values] (no two live nodes hold a unique value, over every
      interleaving of transactions that write different nodes), [restart_covers],
      [schema_enforced], [schema_reload], [reservation_rollback]; [unconstrained_commit]: without
      constraints a commit is the one of [Commit].
    - Recovery: [replay_rebuilds]: replaying the log of a run of commits rebuilds the
      database up to a renaming of the versions, provided the replay gives no two versions
      the same id, which the log alone decides ([renumber]); with [crash_keeps_committed], what a
      crash leaves of the log rebuilds the commits it kept.  [replay_boundary_idempotent]:
      an operation replayed again at once changes nothing; a longer stretch of the log
      replayed again can fail ([replay_twice_fails]).
    - Bi-temporal history: [history_immutable] (no later write changes what an earlier
      transaction time shows), [update_supersedes] (the detailed store refines the
      belief an update promises, over valid and transaction time),
      [create_reads_back], [delete_ends_beliefs]; [delta_roundtrip] and
      [materialize_same] for the compressed versions.
    - Graph reads: [csr_build_reads], [csr_persist_roundtrip], [import_untrusted];
      [adjacency_refines] (the three layers refine a set of live edges) and
      [concurrent_reads] (what a read may return in every interleaving).
    - Derived indexes answer what the data they are derived from says:
      [temporal_index_refines] and [extent_is_fold] for the temporal index,
      [current_index_refines], [find_by_property_exact] and [pages_enumerate] for the
      live graph, [scope_resolution] and [namespace_immutable] for namespaces.
    - Identity: ids, LSNs and interned ids are not issued twice, and the seeds
      computed at start-up cover what replay returns.
    - Where the code does not do this, the failing run is a theorem too:
      [torn_tail_blocks_later_recovery], [rotation_under_seeds],
      [eviction_changes_vector], [stale_read_resurrects], [rejected_batch_loses_version],
      [reinserted_edge_hidden], [lost_update], [failed_commit_is_logged],
      [replay_drops_update], [replay_erases_creation], [replay_twice_fails],
      [backfill_frees_value], [shared_reservation_lost], [enabling_races], [blocked_values],
      [search_finds_deleted], [read_not_repeatable], [write_read_not_repeatable],
      [exhausted_generator_reissues], [index_seed_structural_reissues],
      [rollback_reissues_id] and [raise_to_loses_reservation].

    ** Conventions

    Machine integers are [Z] with the wrapping, checked or saturating operation
    written out; [usize] has 64 bits.  Floats are their bit patterns.  A failed
    index, [unwrap] or [assert!] is the outcome [Panic], so its absence is provable.
    A mutable object is a record passed along; [SM] keeps the changes a failed call
    made.  Concurrency is a step relation over the atomic accesses, or a sequence of
    operations where each is one atomic access; the accesses are sequentially
    consistent (weaker orderings of the hardware are not modelled).  In [CommitRaces]
    a step is one call of a transaction, except that a commit is two: its checks before
    the lock, and what it does under the lock.  In [ConstraintSafety] a commit is three:
    its check of the registry, what it does under the lock, and the release of its guard.

    ** Bounds and fuel

    Loops over a buffer take its length plus one as fuel: each round consumes a
    byte, and [recovery_total], [deserialize_untrusted] show that the result is never
    the exhausted one.  The equality loops of [Property] take a fuel computed from
    the two values, and [semantic_equality], [partial_eq_recursive] show it is enough.
    The walk of [find_version_at_time] takes the bound the code has (the number of
    versions plus two), which [find_spec] shows to cover every chain; the walk of
    [reconstruct_iterative] is cut by the code itself.  [CommitRaces] assumes that the
    version generator stays below 2^62, where its ids are valid and not structural.
    [renumber] fails at 2^62, where a synthesized id would be structural.  A run of
    commits reads one interner throughout: the interner only grows, and a commit reads
    of it what was interned before.

    ** Parameters

    The CRC-32 function and the AEAD primitive of third-party crates (their laws are
    hypotheses: a ciphertext decrypts under its key), [Arc::ptr_eq] (where true the
    contents are equal), the unstable parallel sort of a CSR build (class [RowSort]:
    any sorted permutation), the pre-anchor hooks registered by the embedding program,
    and the wall clock, an argument of every operation that reads it.  Caches are
    maps whose entries may be evicted by a step of their own.

    ** Not modelled

    Vector indexes, the import of a persisted adjacency into the live graph, the cold
    tiers over redb, the stripes and threads of group commit and the wait for
    durability, the query languages and executors,
    semantic search, backup, key management, and the servers: the first ones are next in
    the plan, the others bind third-party code or only orchestrate what is modelled
    here.  A commit is modelled without replication roles, change feeds, sealing and the
    temporal adjacency index, and its constraints apart from the rest ([Commit] has no
    registry, [Constraint] adds one); the historical store with its hot tier only and
    without observers and statistics. *)

From stdpp Require Export base gmap list strings sorting.
From coqutil Require Export Byte Word.LittleEndianList.
From Stdlib Require Export ZArith Lia.

Open Scope Z_scope.

(** ** Outcomes of Rust functions

    A Rust function returns [Ok], returns [Err], or panics (a failed slice
    index, an [unwrap]/[expect] on [None], a failed [assert!]).  All three are
    values here, so that the absence of panics is a provable property. *)
Inductive res (E A : Type) : Type :=
  | Ok (a : A)
  | Err (e : E)
  | Panic.
Arguments Ok {E A} a.
Arguments Err {E A} e.
Arguments Panic {E A}.

#[global] Instance res_ret {E} : MRet (res E) := fun A a => Ok a.
#[global] Instance res_bind {E} : MBind (res E) := fun A B f r =>
  match r with Ok a => f a | Err e => Err e | Panic => Panic end.

#[global] Instance res_eq_dec {E A} `{EqDecision E, EqDecision A} :
  EqDecision (res E A).
Proof. solve_decision. Defined.

(** [Result::map_err] *)
Definition map_err {E F A} (f : E -> F) (r : res E A) : res F A :=
  match r with Ok a => Ok a | Err e => Err (f e) | Panic => Panic end.

(** [Option::ok_or] *)
Definition ok_or {E A} (o : option A) (e : E) : res E A :=
  match o with Some a => Ok a | None => Err e end.

(** [Option::expect] / [Option::unwrap] / slice indexing *)
Definition expect {E A} (o : option A) : res E A :=
  match o with Some a => Ok a | None => Panic end.

(** An early [return Err(e)] taken when the guard holds. *)
Definition guard_err {E} (bad : bool) (e : E) : res E unit :=
  if bad then Err e else Ok tt.

Definition is_ok {E A} (r : res E A) : bool :=
  match r with Ok _ => true | _ => false end.

Definition is_panic {E A} (r : res E A) : bool :=
  match r with Panic => true | _ => false end.

(** [safe r P]: the call does not panic, and a successful result satisfies [P]. *)
Definition safe {E A} (r : res E A) (P : A -> Prop) : Prop :=
  match r with Ok a => P a | Err _ => True | Panic => False end.

Section ResLemmas.
Context {E A B : Type}.
Implicit Types (r : res E A) (f : A -> res E B).

Lemma bind_ok r f b :
  (r ≫= f) = Ok b <-> exists a, r = Ok a /\ f a = Ok b.
Proof. destruct r; simpl; naive_solver. Qed.

Lemma safe_bind r f (P : A -> Prop) (Q : B -> Prop) :
  safe r P -> (forall a, r = Ok a -> P a -> safe (f a) Q) -> safe (r ≫= f) Q.
Proof. destruct r; simpl; naive_solver. Qed.

Lemma safe_mono r (P Q : A -> Prop) :
  safe r P -> (forall a, P a -> Q a) -> safe r Q.
Proof. destruct r; simpl; naive_solver. Qed.

Lemma safe_not_panic r P : safe r P -> is_panic r = false.
Proof. by destruct r. Qed.

Lemma safe_map_err {F} (g : E -> F) r P : safe (map_err g r) P <-> safe r P.
Proof. by destruct r. Qed.

Lemma map_err_ok {F} (g : E -> F) r a : map_err g r = Ok a <-> r = Ok a.
Proof. destruct r; naive_solver. Qed.

Lemma safe_ok r P a : safe r P -> r = Ok a -> P a.
Proof. intros H ->. exact H. Qed.
End ResLemmas.

(** ** Fallible code over a shared store

    A computation that also updates a store (the global string interner): the
    store keeps its updates when the computation fails. *)
Definition SM (S E A : Type) : Type := S -> S * res E A.

#[global] Instance sm_ret {S E} : MRet (SM S E) := fun A a s => (s, Ok a).
#[global] Instance sm_bind {S E} : MBind (SM S E) := fun A B f m s =>
  match m s with
  | (s', Ok a) => f a s'
  | (s', Err e) => (s', Err e)
  | (s', Panic) => (s', Panic)
  end.

Definition lift {S E A} (r : res E A) : SM S E A := fun s => (s, r).

Section StoreLemmas.
Context {S E A B : Type} (R : S -> S -> Prop).

(** From [s], the computation moves the store along [R], does not panic, and a
    successful result satisfies [P]. *)
Definition sm_safe (m : SM S E A) (s : S) (P : S -> A -> Prop) : Prop :=
  R s (m s).1 /\ match (m s).2 with Ok a => P (m s).1 a | Err _ => True | Panic => False end.
End StoreLemmas.

Lemma sm_safe_bind {S E A B} (R : S -> S -> Prop) `{!Transitive R} (m : SM S E A)
    (f : A -> SM S E B) s (P : S -> A -> Prop) (Q : S -> B -> Prop) :
  sm_safe R m s P ->
  (forall s' a, R s s' -> P s' a -> sm_safe R (f a) s' Q) -> sm_safe R (m ≫= f) s Q.
Proof.
  unfold sm_safe, mbind, sm_bind. destruct (m s) as [s' [a|e|]]; simpl; intros [HR HP] Hf; try done.
  destruct (Hf s' a HR HP) as [HR' HQ]. split; [by etrans|done].
Qed.

Section StoreEquations.
Context {S E A B C : Type}.
Implicit Types (m : SM S E A) (f : A -> SM S E B) (g : B -> SM S E C).

Lemma sm_bind_lift (a : A) f s : (lift (Ok a) ≫= f) s = f a s.
Proof. done. Qed.
Lemma sm_bind_ok m f s s' a : m s = (s', Ok a) -> (m ≫= f) s = f a s'.
Proof. intros H. unfold mbind, sm_bind. by rewrite H. Qed.
Lemma sm_bind_err m f s s' e : m s = (s', Err e) -> (m ≫= f) s = (s', Err e).
Proof. intros H. unfold mbind, sm_bind. by rewrite H. Qed.
Lemma sm_bind_panic m f s s' : m s = (s', Panic) -> (m ≫= f) s = (s', Panic).
Proof. intros H. unfold mbind, sm_bind. by rewrite H. Qed.
Lemma sm_bind_assoc m f g s : ((m ≫= f) ≫= g) s = (m ≫= fun a => f a ≫= g) s.
Proof. unfold mbind, sm_bind. by destruct (m s) as [s' [a|e|]]. Qed.
End StoreEquations.

Lemma sm_safe_lift {S E A} (R : S -> S -> Prop) `{!Reflexive R} (r : res E A) s
    (P : A -> Prop) :
  safe r P -> sm_safe R (lift r) s (fun _ a => P a).
Proof. intros H. split; [done|]. simpl. by destruct r. Qed.

Lemma sm_safe_mono {S E A} (R : S -> S -> Prop) (m : SM S E A) s (P Q : S -> A -> Prop) :
  sm_safe R m s P -> (forall s' a, R s s' -> P s' a -> Q s' a) -> sm_safe R m s Q.
Proof. unfold sm_safe. destruct (m s) as [s' [a|e|]]; simpl; naive_solver. Qed.

(** ** Fixed-width integers

    A [w]-bit machine integer is a [Z] in the range of its type; the wrapping,
    checked and saturating operations of the Rust integer types are written
    out. *)
Definition u8_max : Z := 255.
Definition u32_max : Z := 4294967295.
Definition u64_max : Z := 18446744073709551615.
Definition i64_max : Z := 9223372036854775807.
Definition i64_min : Z := -9223372036854775808.
(** Targets of the crate are 64-bit: [usize] is [u64], [isize] is [i64]. *)
Definition usize_max : Z := u64_max.
Definition isize_max : Z := i64_max.

Definition in_u8 (z : Z) : Prop := 0 <= z <= u8_max.
Definition in_u32 (z : Z) : Prop := 0 <= z <= u32_max.
Definition in_u64 (z : Z) : Prop := 0 <= z <= u64_max.
Definition in_i64 (z : Z) : Prop := i64_min <= z <= i64_max.
Definition in_usize (z : Z) : Prop := 0 <= z <= usize_max.

Definition checked (lo hi z : Z) : option Z :=
  if (lo <=? z) && (z <=? hi) then Some z else None.
Definition saturate (lo hi z : Z) : Z := Z.max lo (Z.min hi z).

Definition u32_checked_add (a b : Z) : option Z := checked 0 u32_max (a + b).
Definition i64_checked_add (a b : Z) : option Z := checked i64_min i64_max (a + b).
Definition i64_checked_sub (a b : Z) : option Z := checked i64_min i64_max (a - b).
Definition i64_saturating_sub (a b : Z) : Z := saturate i64_min i64_max (a - b).
Definition u64_wrapping_add (a b : Z) : Z := (a + b) mod 2 ^ 64.
Definition u64_saturating_sub (a b : Z) : Z := saturate 0 u64_max (a - b).
Definition usize_checked_add (a b : Z) : option Z := checked 0 usize_max (a + b).
Definition usize_checked_mul (a b : Z) : option Z := checked 0 usize_max (a * b).
Definition usize_saturating_add (a b : Z) : Z := saturate 0 usize_max (a + b).
Definition usize_saturating_sub (a b : Z) : Z := saturate 0 usize_max (a - b).
Definition usize_saturating_mul (a b : Z) : Z := saturate 0 usize_max (a * b).

Create HintDb machine.
#[export] Hint Unfold u8_max u32_max u64_max i64_max i64_min usize_max isize_max
  in_u8 in_u32 in_u64 in_i64 in_usize checked saturate
  u32_checked_add i64_checked_add i64_checked_sub i64_saturating_sub
  u64_wrapping_add u64_saturating_sub usize_checked_add usize_checked_mul
  usize_saturating_add usize_saturating_sub usize_saturating_mul : machine.

(** Linear arithmetic after unfolding the machine constants. *)
Ltac mlia := autounfold with machine in *; lia.

(** Turn boolean integer comparisons of the context into propositions. *)
Ltac bool_to_prop :=
  repeat match goal with
  | H : (_ && _) = true |- _ => apply andb_true_iff in H as [? ?]
  | H : (_ && _) = false |- _ => apply andb_false_iff in H
  | H : (_ || _) = true |- _ => apply orb_true_iff in H
  | H : (_ || _) = false |- _ => apply orb_false_iff in H as [? ?]
  | H : negb _ = true |- _ => apply negb_true_iff in H
  | H : negb _ = false |- _ => apply negb_false_iff in H
  | H : (_ <? _) = true |- _ => apply Z.ltb_lt in H
  | H : (_ <? _) = false |- _ => apply Z.ltb_ge in H
  | H : (_ <=? _) = true |- _ => apply Z.leb_le in H
  | H : (_ <=? _) = false |- _ => apply Z.leb_gt in H
  | H : (_ =? _) = true |- _ => apply Z.eqb_eq in H
  | H : (_ =? _) = false |- _ => apply Z.eqb_neq in H
  end.

(** Case analysis on the first [if] or [match] scrutinee of the goal. *)
Ltac case_goal :=
  match goal with
  | |- context [if ?b then _ else _] => destruct b eqn:?
  | |- context [match ?x with _ => _ end] => destruct x eqn:?
  end.
Ltac case_hyp H :=
  match type of H with
  | context [if ?b then _ else _] => destruct b eqn:?
  | context [match ?x with _ => _ end] => destruct x eqn:?
  end.

Lemma checked_some lo hi z v : checked lo hi z = Some v <-> v = z /\ lo <= z <= hi.
Proof.
  unfold checked. case_goal; bool_to_prop; split; intros; simplify_eq; try done.
  - destruct_and!; subst; done.
  - lia.
Qed.

Lemma checked_none lo hi z : checked lo hi z = None <-> z < lo \/ hi < z.
Proof.
  unfold checked. case_goal; bool_to_prop; split; intros; try done; lia.
Qed.

Lemma checked_in lo hi z : lo <= z <= hi -> checked lo hi z = Some z.
Proof. intros. by apply checked_some. Qed.

Lemma saturate_id lo hi z : lo <= z <= hi -> saturate lo hi z = z.
Proof. unfold saturate. lia. Qed.

(** ** Bit tests *)
Lemma land_pow2_eqb w n : 0 <= n -> (Z.land w (2 ^ n) =? 0) = negb (Z.testbit w n).
Proof.
  intros Hn. destruct (Z.testbit w n) eqn:E; simpl.
  - apply Z.eqb_neq. intros E2. apply (f_equal (fun z => Z.testbit z n)) in E2.
    by rewrite Z.land_spec, E, Z.pow2_bits_true, Z.bits_0 in E2 by lia.
  - apply Z.eqb_eq, Z.bits_inj_0. intros k. rewrite Z.land_spec, Z.pow2_bits_eqb by lia.
    destruct (n =? k) eqn:En; bool_to_prop; subst; [by rewrite E|by rewrite andb_false_r].
Qed.

Lemma testbit_add_mul b x n :
  0 <= n -> 0 <= x < 2 ^ n -> Z.testbit (b * 2 ^ n + x) n = Z.odd b.
Proof.
  intros Hn Hx. rewrite Z.testbit_odd, Z.shiftr_div_pow2 by done.
  rewrite Z.div_add_l, Z.div_small, Z.add_0_r by lia. done.
Qed.

(** ** Filters that keep all or nothing *)
Section FilterLemmas.
Context {A : Type} (P : A -> Prop) `{!forall x, Decision (P x)}.

Lemma filter_all l : Forall P l -> filter P l = l.
Proof. induction 1; [done|]. rewrite filter_cons_True by done. by f_equal. Qed.
Lemma filter_none l : Forall (fun x => ~ P x) l -> filter P l = [].
Proof. induction 1; [done|]. by rewrite filter_cons_False by done. Qed.
Lemma filter_iff_in (Q : A -> Prop) `{!forall x, Decision (Q x)} (l : list A) :
  (forall x, x ∈ l -> P x <-> Q x) -> filter P l = filter Q l.
Proof.
  induction l as [|x l IH]; [done|]. intros Hl. pose proof (Hl x (list_elem_of_here x l)) as Hx.
  rewrite !filter_cons, IH by (intros; apply Hl; by constructor). by destruct (decide (P x)), (decide (Q x)); tauto || done.
Qed.
End FilterLemmas.
