(* ===== verification/SliceOps.v ===== *)
(** * Slice operations of the standard library

    [slice::binary_search_by], [slice::partition_point] and the stable
    [slice::sort_by], as the code calls them, with what they compute on sorted
    slices. *)

From S2P Require Import Prelude.

(** ** [slice::binary_search_by] and [slice::partition_point] *)
Module Search.
Section Search.
Context {A : Type} (cmp : A -> comparison).

(** The loop halves [size]; [fuel] is the length of the slice. *)
Fixpoint search_loop (fuel : nat) (l : list A) (base size : nat) : nat :=
  match fuel with
  | O => base
  | S fuel =>
      if bool_decide (size <= 1)%nat then base
      else
        let half := Nat.div2 size in
        let mid := (base + half)%nat in
        let base := match cmp <$> l !! mid with Some Gt => base | _ => mid end in
        search_loop fuel l base (size - half)
  end.
Definition binary_search_by (l : list A) : option nat :=
  let base := search_loop (length l) l 0 (length l) in
  match cmp <$> l !! base with Some Eq => Some base | _ => None end.
End Search.

(** [partition_point]: the search never meets [Equal]. *)
Definition partition_point {A} (pred : A -> bool) (l : list A) : nat :=
  let cmp x := if pred x then Lt else Gt in
  let base := search_loop cmp (length l) l 0 (length l) in
  match cmp <$> l !! base with Some Lt => S base | _ => base end.

Definition is_lt_or_eq (c : comparison) : bool := match c with Gt => false | _ => true end.

(** [Ord::cmp] on a pair *)
Definition pair_cmp (p q : Z * Z) : comparison :=
  match p.1 ?= q.1 with Eq => p.2 ?= q.2 | c => c end.
End Search.

Section SearchFacts.
Import Search.
Context {A : Type} (cmp : A -> comparison).

(** The comparison changes from [Lt] over [Eq] to [Gt] along the slice. *)
Definition ascending (l : list A) : Prop :=
  forall i j x y, (i <= j)%nat -> l !! i = Some x -> l !! j = Some y ->
    (cmp x = Gt -> cmp y = Gt) /\ (cmp y = Lt -> cmp x = Lt).

Lemma search_loop_spec l fuel base size :
  ascending l -> (size <= S fuel)%nat -> (0 < size)%nat -> (base + size <= length l)%nat ->
  (base = O \/ exists x, l !! base = Some x /\ cmp x <> Gt) ->
  (forall i x, (base + size <= i)%nat -> l !! i = Some x -> cmp x = Gt) ->
  let b := search_loop cmp fuel l base size in
  (b < length l)%nat /\ (b = O \/ exists x, l !! b = Some x /\ cmp x <> Gt) /\
  (forall i x, (b < i)%nat -> l !! i = Some x -> cmp x = Gt).
Proof.
  intros Hasc. revert base size. induction fuel as [|fuel IH]; intros base size Hf Hs Hl Hb Hg; simpl.
  - split_and!; [lia|done|]. intros i x Hi. apply Hg. lia.
  - case_bool_decide as Hsz; [split_and!; [lia|done|]; intros i x Hi; apply Hg; lia|].
    assert (Hsz' : (2 <= size)%nat) by lia. clear Hsz.
    pose proof (Nat.div2_decr size) as _. set (half := Nat.div2 size).
    assert (Hh : (1 <= half /\ half + half <= size)%nat).
    { pose proof (Nat.div2_odd size) as Ho. subst half. destruct (Nat.odd size); simpl in Ho; lia. }
    destruct (lookup_lt_is_Some_2 l (base + half)) as [x Hx]; [lia|]. rewrite Hx. simpl.
    destruct (cmp x) eqn:Hc; apply IH; try lia; eauto.
    + right. exists x. rewrite Hc. done.
    + intros i y Hi. apply Hg. lia.
    + right. exists x. rewrite Hc. done.
    + intros i y Hi. apply Hg. lia.
    + intros i y Hi Hy. by eapply (Hasc (base + half)%nat i x y); [lia|..].
Qed.

Lemma binary_search_found l i :
  binary_search_by cmp l = Some i -> exists x, l !! i = Some x /\ cmp x = Eq.
Proof.
  unfold binary_search_by. destruct (l !! _) as [x|] eqn:E; simpl; [|done].
  destruct (cmp x) eqn:Ec; intros; simplify_eq. eauto.
Qed.

Lemma binary_search_missing l x :
  ascending l -> binary_search_by cmp l = None -> x ∈ l -> cmp x <> Eq.
Proof.
  intros Hasc Hn Hx Hc. apply list_elem_of_lookup_1 in Hx as [i Hi].
  pose proof (lookup_lt_Some _ _ _ Hi) as Hlen.
  destruct (search_loop_spec l (length l) 0 (length l)) as (Hb & Hb' & Hg);
    [done|lia|lia|lia|by left| |].
  { intros j y Hj Hy. apply lookup_lt_Some in Hy. lia. }
  unfold binary_search_by in Hn. set (b := search_loop cmp (length l) l 0 (length l)) in *.
  assert (Hib : (i <= b)%nat).
  { destruct (decide (i <= b)%nat) as [|Hgt]; [done|]. specialize (Hg i x ltac:(lia) Hi). congruence. }
  destruct (lookup_lt_is_Some_2 l b Hb) as [y Hy]. rewrite Hy in Hn. simpl in Hn.
  destruct (Hasc i b x y Hib Hi Hy) as [_ Hlt].
  destruct Hb' as [Hb0|(y' & Hy' & Hngt)].
  - assert (i = b) by lia. subst i. rewrite Hi in Hy. simplify_eq. by rewrite Hc in Hn.
  - rewrite Hy in Hy'. simplify_eq. destruct (cmp y') eqn:Ey; try done. specialize (Hlt eq_refl). congruence.
Qed.
End SearchFacts.

Section PartitionFacts.
Import Search.
Context {A : Type} (pred : A -> bool).

(** [pred] holds on a prefix of the slice. *)
Definition partitioned (l : list A) : Prop :=
  forall i j x y, (i <= j)%nat -> l !! i = Some x -> l !! j = Some y -> pred y = true -> pred x = true.

Lemma partition_point_spec l :
  partitioned l ->
  (partition_point pred l <= length l)%nat /\
  Forall (fun x => pred x = true) (take (partition_point pred l) l) /\
  Forall (fun x => pred x = false) (drop (partition_point pred l) l).
Proof.
  intros Hp. destruct l as [|x0 l0]; [by split_and!|]. set (l := x0 :: l0) in *.
  set (cmp := fun x => if pred x then Lt else Gt).
  assert (Hasc : ascending cmp l).
  { intros i j x y Hij Hx Hy. unfold cmp. specialize (Hp i j x y Hij Hx Hy).
    destruct (pred x), (pred y); split; intros; try done; by specialize (Hp eq_refl). }
  destruct (search_loop_spec cmp l (length l) 0 (length l)) as (Hb & Hb' & Hg);
    [done|simpl; lia|simpl; lia|lia|by left| |].
  { intros j y Hj Hy. apply lookup_lt_Some in Hy. lia. }
  unfold partition_point. fold cmp. set (b := search_loop cmp (length l) l 0 (length l)) in *.
  destruct (lookup_lt_is_Some_2 l b Hb) as [y Hy]. rewrite Hy. simpl.
  assert (Hlt : forall i x, (i < b)%nat -> l !! i = Some x -> pred x = true).
  { intros i x Hi Hx. destruct Hb' as [|(y' & Hy' & Hc)]; [lia|]. rewrite Hy in Hy'. simplify_eq.
    apply (Hp i b x y'); [lia|done..|]. unfold cmp in Hc. by destruct (pred y'). }
  assert (Hgt : forall i x, (b < i)%nat -> l !! i = Some x -> pred x = false).
  { intros i x Hi Hx. specialize (Hg i x Hi Hx). unfold cmp in Hg. by destruct (pred x). }
  split_and!; [destruct (cmp y); first [exact Hb|exact (Nat.lt_le_incl _ _ Hb)]| |]; apply Forall_lookup; intros i x Hx.
  - apply lookup_take_Some in Hx as [Hx Hi]. destruct (decide (i = b)) as [->|].
    + rewrite Hy in Hx. simplify_eq. unfold cmp in Hi. destruct (pred x) eqn:E; [done|]. lia.
    + unfold cmp in Hi. destruct (pred y); eapply Hlt, Hx; lia.
  - rewrite lookup_drop in Hx. unfold cmp in Hx. destruct (pred y) eqn:E.
    + apply Hgt in Hx; [done|lia].
    + destruct i as [|i]; [|apply Hgt in Hx; [done|lia]].
      rewrite Nat.add_0_r, Hy in Hx. by simplify_eq.
Qed.

Lemma partition_point_filter l :
  partitioned l -> take (partition_point pred l) l = filter (fun x => pred x = true) l.
Proof.
  intros Hp. destruct (partition_point_spec l Hp) as (_ & H1 & H2).
  transitivity (filter (fun x => pred x = true) (take (partition_point pred l) l ++ drop (partition_point pred l) l)).
  - rewrite filter_app, filter_all by done. rewrite filter_none; [by rewrite app_nil_r|].
    eapply Forall_impl; [exact H2|]. simpl. intros x ->. done.
  - by rewrite take_drop.
Qed.
End PartitionFacts.

(** ** The stable [slice::sort_by] of a total order [le] *)
Module Sort.
Section Sort.
Context {A : Type} (le : A -> A -> bool).

Fixpoint insert_sorted (x : A) (l : list A) : list A :=
  match l with
  | [] => [x]
  | y :: l' => if le x y then x :: l else y :: insert_sorted x l'
  end.
Fixpoint sort_by (l : list A) : list A :=
  match l with [] => [] | x :: l' => insert_sorted x (sort_by l') end.
End Sort.
End Sort.

Section SortFacts.
Import Sort.
Context {A : Type} (le : A -> A -> bool).
Hypothesis le_total : forall x y, le x y = false -> le y x = true.
Hypothesis le_trans : forall x y z, le x y = true -> le y z = true -> le x z = true.

Lemma insert_sorted_perm x l : insert_sorted le x l ≡ₚ x :: l.
Proof. induction l as [|y l IH]; simpl; [done|]. case_goal; [done|]. rewrite IH. constructor. Qed.
Lemma sort_by_perm l : sort_by le l ≡ₚ l.
Proof. induction l as [|x l IH]; simpl; [done|]. by rewrite insert_sorted_perm, IH. Qed.

Abbreviation sorted := (StronglySorted (fun x y => le x y = true)).
Lemma insert_sorted_sorted x l : sorted l -> sorted (insert_sorted le x l).
Proof.
  induction 1 as [|y l Hs IH Hf]; simpl; [repeat constructor|].
  destruct (le x y) eqn:E.
  - constructor; [by constructor|]. constructor; [done|].
    eapply Forall_impl; [exact Hf|]. simpl. eauto.
  - constructor; [done|]. rewrite insert_sorted_perm. constructor; [by apply le_total|done].
Qed.
Lemma sort_by_sorted l : sorted (sort_by le l).
Proof. induction l; simpl; [constructor|by apply insert_sorted_sorted]. Qed.

(** Stability: what a filter selects is sorted the same way on its own. *)
Lemma insert_sorted_filter (P : A -> Prop) `{!forall x, Decision (P x)} x l :
  sorted l ->
  filter P (insert_sorted le x l) = if decide (P x) then insert_sorted le x (filter P l) else filter P l.
Proof.
  induction 1 as [|y l Hs IH Hf]; simpl.
  - rewrite filter_cons, filter_nil. by destruct (decide (P x)).
  - destruct (le x y) eqn:E.
    + rewrite (filter_cons P x). destruct (decide (P x)); [|done]. rewrite filter_cons. destruct (decide (P y)).
      * simpl. by rewrite E.
      * assert (Hx : Forall (fun z => le x z = true) (filter P l)).
        { apply Forall_forall. intros z [_ Hz]%list_elem_of_filter. rewrite Forall_forall in Hf. eauto. }
        destruct (filter P l) as [|z m]; [done|]. simpl. inversion Hx as [|? ? Hz ?]. by rewrite Hz.
    + rewrite !filter_cons, IH. destruct (decide (P y)), (decide (P x)); simpl; try rewrite E; done.
Qed.
Lemma sort_by_filter (P : A -> Prop) `{!forall x, Decision (P x)} l :
  filter P (sort_by le l) = sort_by le (filter P l).
Proof.
  induction l as [|x l IH]; [done|]. simpl. rewrite insert_sorted_filter by apply sort_by_sorted.
  rewrite filter_cons, IH. by destruct (decide (P x)).
Qed.

(** The head of the sorted slice is the first of the smallest, its last element the
    last of the largest. *)
Definition first_smallest (acc : option A) (x : A) : option A :=
  match acc with Some y => if le y x then Some y else Some x | None => Some x end.
Definition last_largest (acc : option A) (x : A) : option A :=
  match acc with Some y => if le y x then Some x else Some y | None => Some x end.

Lemma head_insert x l :
  head (insert_sorted le x l) = match head l with Some z => if le x z then Some x else Some z | None => Some x end.
Proof. destruct l as [|z l]; [done|]. simpl. by destruct (le x z). Qed.
Lemma last_insert x l :
  sorted l ->
  last (insert_sorted le x l) = match last l with Some z => if le x z then Some z else Some x | None => Some x end.
Proof.
  induction 1 as [|y l Hs IH Hf]; [done|]. simpl. destruct (le x y) eqn:E.
  - rewrite last_cons_cons. destruct (last (y :: l)) as [z|] eqn:El; [|by apply last_None in El].
    assert (le x z = true) as ->; [|done]. rewrite last_cons in El. destruct (last l) as [w|] eqn:Ew; simplify_eq; [|done].
    apply last_Some in Ew as [l' ->]. eapply le_trans; [done|]. rewrite Forall_forall in Hf. apply Hf. apply elem_of_app.
    right. by constructor.
  - rewrite last_cons, IH, last_cons. destruct (last l) as [z|]; [by destruct (le x z)|by rewrite E].
Qed.

Lemma sort_by_first acc l : head (sort_by le (option_list acc ++ l)) = foldl first_smallest acc l.
Proof.
  revert acc. induction l as [|x l IH]; intros acc; [by destruct acc|]. simpl. rewrite <- IH. clear IH.
  destruct acc as [y|]; simpl; [|done]. destruct (le y x) eqn:E; simpl; rewrite !head_insert; destruct (head (sort_by le l)) as [z|].
  - destruct (le x z) eqn:Exz, (le y z) eqn:Eyz; rewrite ?E; try done. by rewrite (le_trans _ _ _ E Exz) in Eyz.
  - by rewrite E.
  - destruct (le x z) eqn:Exz; [by rewrite E|]. destruct (le y z) eqn:Eyz; [|done].
    by rewrite (le_trans _ _ _ (le_total _ _ E) Eyz) in Exz.
  - by rewrite E.
Qed.
Lemma sort_by_last acc l : last (sort_by le (option_list acc ++ l)) = foldl last_largest acc l.
Proof.
  revert acc. induction l as [|x l IH]; intros acc; [by destruct acc|]. simpl. rewrite <- IH. clear IH.
  destruct acc as [y|]; simpl; [|done].
  destruct (le y x) eqn:E; simpl; rewrite !last_insert by auto using insert_sorted_sorted, sort_by_sorted;
    destruct (last (sort_by le l)) as [z|].
  - destruct (le x z) eqn:Exz; rewrite ?E; [by rewrite (le_trans _ _ _ E Exz)|done].
  - by rewrite E.
  - destruct (le x z) eqn:Exz; [done|]. rewrite E. destruct (le y z) eqn:Eyz; [|done].
    by rewrite (le_trans _ _ _ (le_total _ _ E) Eyz) in Exz.
  - by rewrite E.
Qed.
End SortFacts.
