(* ===== verification/Bytes.v ===== *)
(** * Byte buffers: slices, little-endian integers, UTF-8

    The parts of Rust's [Vec<u8>], [&[u8]] and [str] the codecs of the program
    use: slice indexing (which panics out of range) and [get] (which does not),
    [to_le_bytes]/[from_le_bytes] of the integer types, and
    [std::str::from_utf8]. *)

From S2P Require Import Prelude.

Abbreviation byte := Init.Byte.byte.
Abbreviation bytes := (list byte).

(** [b as u8]/[b as usize]: the value of a byte, and the byte of a value. *)
Definition bval (b : byte) : Z := byte.unsigned b.
Definition bof (z : Z) : byte := byte.of_Z z.

#[global] Instance byte_eq_dec : EqDecision byte.
Proof. intros x y. destruct (Byte.byte_eq_dec x y); [by left | by right]. Defined.

#[global] Program Instance byte_countable : Countable byte :=
  inj_countable Byte.to_N Byte.of_N _.
Next Obligation. intros b. apply Byte.of_to_N. Qed.

Lemma bval_range b : 0 <= bval b <= 255.
Proof. unfold bval. pose proof (byte.unsigned_range b). lia. Qed.

Lemma bval_bof z : 0 <= z <= 255 -> bval (bof z) = z.
Proof.
  intros. unfold bval, bof. rewrite byte.unsigned_of_Z. unfold byte.wrap.
  apply Z.mod_small. lia.
Qed.

Lemma bof_bval b : bof (bval b) = b.
Proof. apply byte.of_Z_unsigned. Qed.

(** ** Lengths, indexing and slicing *)
Definition blen {A} (b : list A) : Z := Z.of_nat (length b).

(** [b.get(i)] *)
Definition byte_at (b : bytes) (i : Z) : option byte :=
  if (0 <=? i) && (i <? blen b) then b !! Z.to_nat i else None.

(** [b.get(lo..hi)]; [&b[lo..hi]] is [expect (slice b lo hi)] *)
Definition slice (b : bytes) (lo hi : Z) : option bytes :=
  if (0 <=? lo) && (lo <=? hi) && (hi <=? blen b)
  then Some (take (Z.to_nat (hi - lo)) (drop (Z.to_nat lo) b)) else None.

(** [b.get(lo..)] *)
Definition slice_from (b : bytes) (lo : Z) : option bytes :=
  if (0 <=? lo) && (lo <=? blen b) then Some (drop (Z.to_nat lo) b) else None.

Lemma blen_nonneg {A} (b : list A) : 0 <= blen b.
Proof. unfold blen. lia. Qed.

Lemma blen_app {A} (a b : list A) : blen (a ++ b) = blen a + blen b.
Proof. unfold blen. rewrite length_app. lia. Qed.

Lemma blen_cons {A} (a : A) (b : list A) : blen (a :: b) = 1 + blen b.
Proof. unfold blen. simpl. lia. Qed.

Lemma blen_nil {A} : blen (@nil A) = 0.
Proof. reflexivity. Qed.

Lemma slice_some b lo hi x :
  slice b lo hi = Some x -> 0 <= lo /\ lo <= hi /\ hi <= blen b /\ blen x = hi - lo.
Proof.
  unfold slice. intros H. case_hyp H; simplify_eq. bool_to_prop.
  split_and!; try done. unfold blen in *.
  rewrite length_take, length_drop. lia.
Qed.

Lemma slice_ok b lo hi :
  0 <= lo -> lo <= hi -> hi <= blen b -> exists x, slice b lo hi = Some x /\ blen x = hi - lo.
Proof.
  intros. assert (slice b lo hi = Some (take (Z.to_nat (hi - lo)) (drop (Z.to_nat lo) b))) as E.
  { unfold slice. by rewrite !(proj2 (Z.leb_le _ _)) by lia. }
  eexists; split; [done|]. by apply slice_some in E as (? & ? & ? & ?).
Qed.

Lemma slice_from_some b lo x :
  slice_from b lo = Some x -> 0 <= lo /\ lo <= blen b /\ blen x = blen b - lo.
Proof.
  unfold slice_from. intros H. case_hyp H; simplify_eq. bool_to_prop.
  split_and!; try done. unfold blen in *. rewrite length_drop. lia.
Qed.

Lemma slice_from_ok b lo :
  0 <= lo -> lo <= blen b -> exists x, slice_from b lo = Some x /\ blen x = blen b - lo.
Proof.
  intros. assert (slice_from b lo = Some (drop (Z.to_nat lo) b)) as E.
  { unfold slice_from. by rewrite !(proj2 (Z.leb_le _ _)) by lia. }
  eexists; split; [done|]. by apply slice_from_some in E as (? & ? & ?).
Qed.

Lemma byte_at_ok b i : 0 <= i -> i < blen b -> exists x, byte_at b i = Some x.
Proof.
  intros. unfold byte_at. rewrite (proj2 (Z.leb_le _ _)), (proj2 (Z.ltb_lt _ _)) by lia.
  simpl. apply lookup_lt_is_Some. unfold blen in *. lia.
Qed.

(** Reading inside a buffer that was built by appending. *)
Lemma slice_app pre x post lo hi :
  lo = blen pre -> hi = blen pre + blen x -> slice (pre ++ x ++ post) lo hi = Some x.
Proof.
  intros -> ->. unfold slice.
  rewrite !blen_app. pose proof (blen_nonneg pre). pose proof (blen_nonneg x).
  pose proof (blen_nonneg post).
  rewrite !(proj2 (Z.leb_le _ _)) by lia. simpl. f_equal.
  replace (Z.to_nat (blen pre)) with (length pre) by (unfold blen; lia).
  rewrite drop_app_length.
  replace (Z.to_nat (blen pre + blen x - blen pre)) with (length x) by (unfold blen; lia).
  by rewrite take_app_length.
Qed.

Lemma slice_prefix x post hi : hi = blen x -> slice (x ++ post) 0 hi = Some x.
Proof. intros ->. by apply (slice_app [] x post). Qed.

Lemma slice_from_app pre rest lo :
  lo = blen pre -> slice_from (pre ++ rest) lo = Some rest.
Proof.
  intros ->. unfold slice_from.
  rewrite blen_app. pose proof (blen_nonneg pre). pose proof (blen_nonneg rest).
  rewrite !(proj2 (Z.leb_le _ _)) by lia. simpl. f_equal.
  replace (Z.to_nat (blen pre)) with (length pre) by (unfold blen; lia).
  by rewrite drop_app_length.
Qed.

Lemma byte_at_app pre x post i :
  i = blen pre -> byte_at (pre ++ x :: post) i = Some x.
Proof.
  intros ->. unfold byte_at. rewrite blen_app, blen_cons.
  pose proof (blen_nonneg pre). pose proof (blen_nonneg post).
  rewrite (proj2 (Z.leb_le _ _)), (proj2 (Z.ltb_lt _ _)) by lia. simpl.
  replace (Z.to_nat (blen pre)) with (length pre) by (unfold blen; lia).
  apply list_lookup_middle. done.
Qed.

(** ** Little-endian integers *)

(** [z.to_le_bytes()] of an [n]-byte integer; for signed integers the two's
    complement pattern is written. *)
Definition to_le (n : nat) (z : Z) : bytes := le_split n z.

(** [uN::from_le_bytes] *)
Definition from_le (b : bytes) : Z := le_combine b.

(** Reinterpretation of a [w]-bit pattern as a signed integer ([as i64]). *)
Definition to_signed (w : Z) (z : Z) : Z := if z <? 2 ^ (w - 1) then z else z - 2 ^ w.

(** [i64::from_le_bytes] *)
Definition from_le_i64 (b : bytes) : Z := to_signed 64 (from_le b).
#[global] Arguments to_le : simpl never.
#[global] Arguments from_le : simpl never.
#[global] Arguments from_le_i64 : simpl never.

Lemma blen_to_le n z : blen (to_le n z) = Z.of_nat n.
Proof. unfold blen, to_le. by rewrite length_le_split. Qed.

Lemma from_to_le n z : 0 <= z < 2 ^ (Z.of_nat n * 8) -> from_le (to_le n z) = z.
Proof. intros. unfold from_le, to_le. rewrite le_combine_split. by apply Z.mod_small. Qed.

Lemma from_to_le_u32 z : in_u32 z -> from_le (to_le 4 z) = z.
Proof. intros. apply from_to_le. simpl. mlia. Qed.

Lemma from_to_le_u64 z : in_u64 z -> from_le (to_le 8 z) = z.
Proof. intros. apply from_to_le. simpl. mlia. Qed.

Lemma from_to_le_i64 z : in_i64 z -> from_le_i64 (to_le 8 z) = z.
Proof.
  intros Hz. unfold from_le_i64, from_le, to_le. rewrite le_combine_split.
  change (2 ^ (Z.of_nat 8 * 8)) with 18446744073709551616.
  unfold to_signed. change (2 ^ (64 - 1)) with 9223372036854775808.
  change (2 ^ 64) with 18446744073709551616.
  autounfold with machine in *.
  destruct (Z_lt_le_dec z 0).
  - replace (z mod 18446744073709551616) with (z + 18446744073709551616).
    + case_goal; bool_to_prop; lia.
    + rewrite <-(Z.mod_small (z + 18446744073709551616) 18446744073709551616) by lia.
      by rewrite Z.add_mod, Z.mod_same, Z.add_0_r, Z.mod_mod by lia.
  - rewrite Z.mod_small by lia. case_goal; bool_to_prop; lia.
Qed.

Lemma from_le_range b : 0 <= from_le b < 2 ^ (8 * blen b).
Proof. unfold from_le, blen. apply le_combine_bound. Qed.

Lemma from_le_u32_range b : blen b = 4 -> in_u32 (from_le b).
Proof. intros E. pose proof (from_le_range b) as H. rewrite E in H. simpl in H. mlia. Qed.

Lemma from_le_u64_range b : blen b = 8 -> in_u64 (from_le b).
Proof. intros E. pose proof (from_le_range b) as H. rewrite E in H. simpl in H. mlia. Qed.

Lemma from_le_i64_range b : blen b = 8 -> in_i64 (from_le_i64 b).
Proof.
  intros E. pose proof (from_le_range b) as H. rewrite E in H. simpl in H.
  unfold from_le_i64, to_signed. change (2 ^ (64 - 1)) with 9223372036854775808.
  change (2 ^ 64) with 18446744073709551616.
  case_goal; bool_to_prop; mlia.
Qed.

(** ** [std::str::from_utf8]

    A Rust [str] is a byte sequence that passes the UTF-8 validation of the
    standard library: no overlong forms, no surrogates, nothing above
    U+10FFFF.  Strings are their byte sequences here, and [from_utf8] decides
    whether a byte sequence is one. *)
Definition is_cont (b : byte) : bool := (128 <=? bval b) && (bval b <=? 191).

Fixpoint utf8_valid (s : bytes) : bool :=
  match s with
  | [] => true
  | b0 :: r0 =>
    let v0 := bval b0 in
    if v0 <=? 127 then utf8_valid r0
    else if (194 <=? v0) && (v0 <=? 223) then
      match r0 with
      | b1 :: r1 => is_cont b1 && utf8_valid r1
      | _ => false
      end
    else if (224 <=? v0) && (v0 <=? 239) then
      match r0 with
      | b1 :: b2 :: r2 =>
        let v1 := bval b1 in
        let lo := if v0 =? 224 then 160 else 128 in
        let hi := if v0 =? 237 then 159 else 191 in
        ((lo <=? v1) && (v1 <=? hi)) && is_cont b2 && utf8_valid r2
      | _ => false
      end
    else if (240 <=? v0) && (v0 <=? 244) then
      match r0 with
      | b1 :: b2 :: b3 :: r3 =>
        let v1 := bval b1 in
        let lo := if v0 =? 240 then 144 else 128 in
        let hi := if v0 =? 244 then 143 else 191 in
        ((lo <=? v1) && (v1 <=? hi)) && is_cont b2 && is_cont b3 && utf8_valid r3
      | _ => false
      end
    else false
  end.

Definition from_utf8 (s : bytes) : option bytes :=
  if utf8_valid s then Some s else None.

Lemma from_utf8_some s t : from_utf8 s = Some t <-> s = t /\ utf8_valid s = true.
Proof. unfold from_utf8. case_goal; naive_solver. Qed.

Create Rewrite HintDb codec.
#[export] Hint Rewrite @blen_app @blen_cons @blen_nil blen_to_le : codec.

(** Compute buffer lengths, then decide the arithmetic. *)
Ltac blia :=
  autorewrite with codec in *;
  repeat match goal with
  | b : list _ |- _ =>
      lazymatch goal with
      | _ : 0 <= blen b |- _ => fail
      | _ => pose proof (blen_nonneg b)
      end
  end;
  mlia.

(** ** Reading fields out of a buffer

    [T::from_le_bytes(bytes[off..off + n].try_into().unwrap())] and [bytes[off]]:
    out of range they panic. *)
Section Read.
Context {E : Type}.

Definition read_u8 (b : bytes) (off : Z) : res E Z :=
  x ← expect (byte_at b off); Ok (bval x).
Definition read_u32 (b : bytes) (off : Z) : res E Z :=
  x ← expect (slice b off (off + 4)); Ok (from_le x).
Definition read_u64 (b : bytes) (off : Z) : res E Z :=
  x ← expect (slice b off (off + 8)); Ok (from_le x).
Definition read_i64 (b : bytes) (off : Z) : res E Z :=
  x ← expect (slice b off (off + 8)); Ok (from_le_i64 x).
(** [&bytes[off..off + n]] *)
Definition read_bytes (b : bytes) (off n : Z) : res E bytes :=
  expect (slice b off (off + n)).

Lemma read_u8_safe b off : 0 <= off -> off < blen b -> safe (read_u8 b off) in_u8.
Proof.
  intros. unfold read_u8. destruct (byte_at_ok b off) as [x ->]; [done..|]. simpl.
  apply bval_range.
Qed.
Lemma read_u32_safe b off : 0 <= off -> off + 4 <= blen b -> safe (read_u32 b off) in_u32.
Proof.
  intros. unfold read_u32. destruct (slice_ok b off (off + 4)) as (x & -> & ?); [lia..|].
  simpl. apply from_le_u32_range. lia.
Qed.
Lemma read_u64_safe b off : 0 <= off -> off + 8 <= blen b -> safe (read_u64 b off) in_u64.
Proof.
  intros. unfold read_u64. destruct (slice_ok b off (off + 8)) as (x & -> & ?); [lia..|].
  simpl. apply from_le_u64_range. lia.
Qed.
Lemma read_i64_safe b off : 0 <= off -> off + 8 <= blen b -> safe (read_i64 b off) in_i64.
Proof.
  intros. unfold read_i64. destruct (slice_ok b off (off + 8)) as (x & -> & ?); [lia..|].
  simpl. apply from_le_i64_range. lia.
Qed.
Lemma read_bytes_safe b off n :
  0 <= off -> 0 <= n -> off + n <= blen b -> safe (read_bytes b off n) (fun x => blen x = n).
Proof.
  intros. unfold read_bytes. destruct (slice_ok b off (off + n)) as (x & -> & ?); [lia..|].
  simpl. lia.
Qed.
End Read.

(** [b] has [rest] from offset [off] on. *)
Definition at_off (b : bytes) (off : Z) (rest : bytes) : Prop := slice_from b off = Some rest.

Lemma at_off_0 b : at_off b 0 b.
Proof. apply (slice_from_app [] b 0). done. Qed.

Lemma at_off_len b off rest : at_off b off rest -> 0 <= off /\ off + blen rest = blen b.
Proof. intros H. apply slice_from_some in H. lia. Qed.

Lemma at_off_split b off rest :
  at_off b off rest -> exists pre, b = pre ++ rest /\ blen pre = off.
Proof.
  unfold at_off, slice_from. intros H. case_hyp H; simplify_eq. bool_to_prop.
  exists (take (Z.to_nat off) b). rewrite take_drop. split; [done|].
  unfold blen in *. rewrite length_take. lia.
Qed.

Lemma at_off_app b off x rest :
  at_off b off (x ++ rest) -> at_off b (off + blen x) rest.
Proof.
  intros (pre & -> & <-)%at_off_split. rewrite app_assoc. apply slice_from_app.
  by rewrite blen_app.
Qed.

Lemma at_off_skip b off off' x rest :
  at_off b off (x ++ rest) -> off' = off + blen x -> at_off b off' rest.
Proof. intros H ->. by apply at_off_app. Qed.

Lemma at_off_slice b off hi x rest :
  at_off b off (x ++ rest) -> hi = off + blen x -> slice b off hi = Some x.
Proof. intros (pre & -> & <-)%at_off_split ->. by apply slice_app. Qed.

Section ReadAt.
Context {E : Type}.

Lemma at_u8 b off v rest :
  at_off b off (bof v :: rest) -> in_u8 v -> read_u8 (E := E) b off = Ok v.
Proof.
  intros (pre & -> & <-)%at_off_split Hv. unfold read_u8. rewrite byte_at_app by done.
  simpl. rewrite bval_bof; [done|mlia].
Qed.
Lemma at_u32 b off v rest :
  at_off b off (to_le 4 v ++ rest) -> in_u32 v -> read_u32 (E := E) b off = Ok v.
Proof.
  intros H Hv. unfold read_u32. rewrite (at_off_slice _ _ _ _ _ H) by blia. simpl.
  by rewrite from_to_le_u32.
Qed.
Lemma at_u64 b off v rest :
  at_off b off (to_le 8 v ++ rest) -> in_u64 v -> read_u64 (E := E) b off = Ok v.
Proof.
  intros H Hv. unfold read_u64. rewrite (at_off_slice _ _ _ _ _ H) by blia. simpl.
  by rewrite from_to_le_u64.
Qed.
Lemma at_i64 b off v rest :
  at_off b off (to_le 8 v ++ rest) -> in_i64 v -> read_i64 (E := E) b off = Ok v.
Proof.
  intros H Hv. unfold read_i64. rewrite (at_off_slice _ _ _ _ _ H) by blia. simpl.
  by rewrite from_to_le_i64.
Qed.
Lemma at_bytes b off n x rest :
  at_off b off (x ++ rest) -> n = blen x -> read_bytes (E := E) b off n = Ok x.
Proof. intros H ->. unfold read_bytes. by rewrite (at_off_slice _ _ _ _ _ H). Qed.
End ReadAt.

(** Discharge the panic-freedom of one read, or of one guard. *)
Ltac read_safe :=
  first [ apply read_u8_safe | apply read_u32_safe | apply read_u64_safe
        | apply read_i64_safe | apply read_bytes_safe ]; blia.
Ltac safe_step :=
  lazymatch goal with
  | |- safe (Err _) _ => exact I
  | |- safe (Ok _) _ => simpl
  | |- safe (if ?b then _ else _) _ => destruct b eqn:?; bool_to_prop
  | |- safe (_ ≫= _) _ => eapply safe_bind; [first [read_safe|eassumption]|intros ? ? ?]
  end.

(** Lengths in the goal only. *)
Ltac glia := autorewrite with codec; mlia.

(** From a field at one offset to the rest at the next. *)
Tactic Notation "skip_at" hyp(H) constr(off) "as" ident(H') :=
  unshelve epose proof (at_off_skip _ _ off _ _ H _) as H'; [glia|].
