(* ===== verification/Errors.v ===== *)
(** * Error types and the timestamp they carry

    [src/core/error.rs]: the variants the modelled functions construct.  The
    human-readable [reason]/[String] payloads are not modelled; structured
    payloads are. *)

From S2P Require Import Prelude.
From S2P Require Import Bytes.

(** [src/core/hlc.rs]: [wallclock : i64], [logical : u32]. *)
Record HybridTimestamp := mkTs { wallclock : Z; logical : Z }.

#[global] Instance HybridTimestamp_eq_dec : EqDecision HybridTimestamp.
Proof. solve_decision. Defined.

Inductive TemporalError :=
  | NonMonotonicTransactionTime (previous attempted : HybridTimestamp)
  | InvalidTimeRange (start end_ : HybridTimestamp)
  | InvalidTimestamp (timestamp : HybridTimestamp)
  | LogicalCounterOverflow (wallclock current_logical : Z)
  | MaxDepthExceeded (max_depth : Z)
  | MissingAnchor
  | CorruptedVersionChain
  | ValidTimeTooFarInFuture (valid_from current_time : HybridTimestamp) (max_future_offset_us : Z)
  | ValidTimeBeforeEntityCreation (valid_from entity_creation_time : HybridTimestamp).

#[global] Instance TemporalError_eq_dec : EqDecision TemporalError.
Proof. solve_decision. Defined.

Inductive IdType := IdNode | IdEdge | IdVersion | IdGenerated.

#[global] Instance IdType_eq_dec : EqDecision IdType.
Proof. solve_decision. Defined.

Inductive StorageError :=
  | InvalidId (id : Z) (id_type : IdType)
  | CorruptedData
  | InconsistentState
  | Encryption
  | CapacityExceeded (current limit : Z)
  | NodeNotFound (id : Z)
  | EdgeNotFound (id : Z)
  | VersionNotFound (id : Z)
  | DuplicateId (id : Z).

#[global] Instance StorageError_eq_dec : EqDecision StorageError.
Proof. solve_decision. Defined.

Inductive VectorError :=
  | DimensionTooLarge (dimension max_allowed : Z)
  | DimensionMismatch (expected actual : Z)
  | ContainsNaN (count : Z)
  | ContainsInfinity (count : Z)
  | InvalidSparseVector.

#[global] Instance VectorError_eq_dec : EqDecision VectorError.
Proof. solve_decision. Defined.

(** [src/core/namespace.rs]; the reason texts are not kept. *)
Inductive NamespaceError :=
  | InvalidName (name : bytes)
  | NotFound (namespace : bytes)
  | AlreadyExists (namespace : bytes)
  | ReservedPropertyKey (key : bytes)
  | Immutable
  | ScopeConflict.

#[global] Instance NamespaceError_eq_dec : EqDecision NamespaceError.
Proof. solve_decision. Defined.

Inductive TransactionError :=
  | InvalidState
  | AlreadyCommitted (tx_id : Z)
  | SerializationFailure
  | ValidationFailed
  | CommitFailed
  | CasMismatch (expected : Z) (actual : option Z)
  | FenceTooLow (fence_key : bytes) (new_fence stored : Z)
  | ClockSkew (wallclock previous drift_us max_allowed : Z).

#[global] Instance TransactionError_eq_dec : EqDecision TransactionError.
Proof. solve_decision. Defined.

(** The tokens of types and kinds are static strings. *)
Inductive ConstraintError :=
  | UniqueViolation (label property : bytes) (existing_node_id : Z)
  | DuplicateOnEnable (label property : bytes) (node_ids : list Z)
  | UnsupportedKeyType (label property : bytes) (type_name : string)
  | TypeViolation (entity_kind : string) (label property : bytes) (expected_type actual_type : string)
  | MissingRequiredKey (entity_kind : string) (label : bytes) (missing_keys : list bytes)
  | NonConformingOnEnable (entity_kind : string) (label : bytes) (total_non_conforming : Z).

#[global] Instance ConstraintError_eq_dec : EqDecision ConstraintError.
Proof. solve_decision. Defined.

(** The crate-wide [Error] enum. *)
Inductive Error :=
  | EStorage (e : StorageError)
  | ETemporal (e : TemporalError)
  | EVector (e : VectorError)
  | ENamespace (e : NamespaceError)
  | ETransaction (e : TransactionError)
  | EConstraint (e : ConstraintError)
  | ELockPoisoned.

#[global] Instance Error_eq_dec : EqDecision Error.
Proof. solve_decision. Defined.
