(* ===== verification/Hlc.v ===== *)
(** * Hybrid logical clock: [src/core/hlc.rs]

    Timestamps, their order, the send and receive rules, clock-skew policy and
    the 12-byte encoding. *)

From S2P Require Import Prelude.
From S2P Require Import Bytes.
From S2P Require Import Errors.

(** [src/core/temporal.rs]: the largest wallclock of user data, and the
    sentinel for "still current". *)
Definition MAX_VALID_TIMESTAMP : Z := i64_max - 1000.
#[export] Hint Unfold MAX_VALID_TIMESTAMP : machine.

(** ** Data invariant and order *)

(** The field types: [i64] and [u32]. *)
Definition ts_wf (t : HybridTimestamp) : Prop :=
  in_i64 (wallclock t) /\ in_u32 (logical t).

(** [derive(PartialOrd, Ord)]: lexicographic. *)
Definition ts_ltb (a b : HybridTimestamp) : bool :=
  (wallclock a <? wallclock b) ||
  ((wallclock a =? wallclock b) && (logical a <? logical b)).
Definition ts_leb (a b : HybridTimestamp) : bool := negb (ts_ltb b a).
Definition ts_eqb (a b : HybridTimestamp) : bool :=
  (wallclock a =? wallclock b) && (logical a =? logical b).

Definition ts_lt (a b : HybridTimestamp) : Prop :=
  wallclock a < wallclock b \/ (wallclock a = wallclock b /\ logical a < logical b).
Definition ts_le (a b : HybridTimestamp) : Prop := ts_lt a b \/ a = b.

Declare Scope ts_scope.
Delimit Scope ts_scope with ts.
Infix "<" := ts_lt : ts_scope.
Infix "<=" := ts_le : ts_scope.

Lemma ts_ext a b : wallclock a = wallclock b -> logical a = logical b -> a = b.
Proof. destruct a, b. simpl. by intros -> ->. Qed.

Lemma ts_ltb_lt a b : ts_ltb a b = true <-> (a < b)%ts.
Proof. unfold ts_ltb, ts_lt. lia. Qed.

Lemma ts_le_alt a b :
  (a <= b)%ts <-> wallclock a < wallclock b \/
                  (wallclock a = wallclock b /\ logical a <= logical b).
Proof.
  unfold ts_le, ts_lt. split.
  - intros [? | ->]; lia.
  - intros H. destruct (decide (wallclock a = wallclock b /\ logical a = logical b)) as [[]|].
    + right. by apply ts_ext.
    + left. lia.
Qed.

Lemma ts_leb_le a b : ts_leb a b = true <-> (a <= b)%ts.
Proof. rewrite ts_le_alt. unfold ts_leb, ts_ltb. lia. Qed.

Lemma ts_eqb_eq a b : ts_eqb a b = true <-> a = b.
Proof.
  unfold ts_eqb. split.
  - intros. bool_to_prop. by apply ts_ext.
  - intros ->. lia.
Qed.

(** Decide goals about timestamp order, whatever mix of the boolean tests of
    the code and the propositions of the specifications they use. *)
Ltac ts_norm :=
  repeat match goal with
  | H : ts_ltb _ _ = true |- _ => apply ts_ltb_lt in H
  | H : ts_ltb _ _ = false |- _ =>
      apply not_true_iff_false in H; rewrite ts_ltb_lt in H
  | H : ts_leb _ _ = true |- _ => apply ts_leb_le in H
  | H : ts_leb _ _ = false |- _ =>
      apply not_true_iff_false in H; rewrite ts_leb_le in H
  | H : ts_eqb _ _ = true |- _ => apply ts_eqb_eq in H
  | H : ts_eqb _ _ = false |- _ =>
      apply not_true_iff_false in H; rewrite ts_eqb_eq in H
  | |- ts_ltb _ _ = true => apply ts_ltb_lt
  | |- ts_leb _ _ = true => apply ts_leb_le
  | |- ts_eqb _ _ = true => apply ts_eqb_eq
  | |- ts_ltb _ _ = false => apply not_true_iff_false; rewrite ts_ltb_lt
  | |- ts_leb _ _ = false => apply not_true_iff_false; rewrite ts_leb_le
  end.
Ltac ts_lia :=
  ts_norm; rewrite ?ts_le_alt in *; unfold ts_lt in *; simpl in *; mlia.

#[global] Instance ts_lt_strict : StrictOrder ts_lt.
Proof. split; [intros a|intros a b c]; unfold complement; ts_lia. Qed.
#[global] Instance ts_le_preorder : PreOrder ts_le.
Proof. split; [by right|intros a b c; ts_lia]. Qed.

Lemma ts_lt_trichotomy a b : (a < b)%ts \/ a = b \/ (b < a)%ts.
Proof.
  destruct (decide (a = b)); [tauto|].
  destruct (decide (wallclock a = wallclock b)); [|ts_lia].
  assert (logical a <> logical b) by (intros ?; by apply n, ts_ext). ts_lia.
Qed.

Lemma ts_le_lt_trans a b c : (a <= b)%ts -> (b < c)%ts -> (a < c)%ts.
Proof. ts_lia. Qed.
Lemma ts_lt_le_trans a b c : (a < b)%ts -> (b <= c)%ts -> (a < c)%ts.
Proof. ts_lia. Qed.
Lemma ts_not_lt a b : ~ (a < b)%ts <-> (b <= a)%ts.
Proof. ts_lia. Qed.
Lemma ts_lt_le a b : (a < b)%ts -> (a <= b)%ts.
Proof. by left. Qed.

(** ** Operations *)
Module Hlc.

Definition MAX_BACKWARD_DRIFT_US : Z := 5 * 60 * 1000000.
Definition MAX_FORWARD_JUMP_US : Z := 60 * 60 * 1000000.

Inductive ClockSkewDirection := Backward | Forward.

Record ClockSkewDecision := mkDecision {
  drift_us : Z;
  effective_wallclock : Z;
  healed_direction : option ClockSkewDirection }.

Record ClockSkewViolation := mkViolation {
  v_drift_us : Z;
  v_max_allowed : Z;
  v_direction : ClockSkewDirection }.

Definition evaluate_clock_skew (current_wallclock frontier_wallclock : Z)
    (max_forward_jump_us : option Z) (self_heal_clock_skew : bool)
    : res ClockSkewViolation ClockSkewDecision :=
  let drift := i64_saturating_sub current_wallclock frontier_wallclock in
  '(effective, healed) ←
    (if drift <? - MAX_BACKWARD_DRIFT_US then
       if negb self_heal_clock_skew
       then Err (mkViolation drift (- MAX_BACKWARD_DRIFT_US) Backward)
       else Ok (frontier_wallclock, Some Backward)
     else Ok (current_wallclock, None));
  '(effective, healed) ←
    match max_forward_jump_us with
    | Some max_fwd =>
        if max_fwd <? drift then
          if negb self_heal_clock_skew
          then Err (mkViolation drift max_fwd Forward)
          else Ok (frontier_wallclock, Some Forward)
        else Ok (effective, healed)
    | None => Ok (effective, healed)
    end;
  Ok (mkDecision drift effective healed).

Definition new (wc lg : Z) : res TemporalError HybridTimestamp :=
  if MAX_VALID_TIMESTAMP <? wc then Err (InvalidTimestamp (mkTs wc lg))
  else Ok (mkTs wc lg).

Definition new_unchecked (wc lg : Z) : HybridTimestamp := mkTs wc lg.

Definition increment_logical (lg wc : Z) : res TemporalError Z :=
  ok_or (u32_checked_add lg 1) (LogicalCounterOverflow wc lg).

Definition send (self : HybridTimestamp) (new_wallclock : Z)
    : res TemporalError HybridTimestamp :=
  if MAX_VALID_TIMESTAMP <? new_wallclock
  then Err (InvalidTimestamp (mkTs new_wallclock 0))
  else if wallclock self <? new_wallclock
  then Ok (mkTs new_wallclock 0)
  else
    lg ← increment_logical (logical self) (wallclock self);
    Ok (mkTs (wallclock self) lg).

Definition receive (self msg : HybridTimestamp) (physical_wallclock : Z)
    : res TemporalError HybridTimestamp :=
  let new_wallclock := Z.max (Z.max (wallclock self) (wallclock msg)) physical_wallclock in
  if MAX_VALID_TIMESTAMP <? new_wallclock
  then Err (InvalidTimestamp (mkTs new_wallclock 0))
  else
    lg ← (if (wallclock self <? new_wallclock) && (wallclock msg <? new_wallclock)
          then Ok 0
          else if (new_wallclock =? wallclock self) && (new_wallclock =? wallclock msg)
          then increment_logical (Z.max (logical self) (logical msg)) new_wallclock
          else if new_wallclock =? wallclock self
          then increment_logical (logical self) new_wallclock
          else increment_logical (logical msg) new_wallclock);
    Ok (mkTs new_wallclock lg).

Inductive SendWithSelfHealError :=
  | InitialSend (e : TemporalError)
  | FallbackWallclockOverflow (wc current_logical : Z)
  | FallbackSend (e : TemporalError).

Definition send_with_overflow_self_heal {E} (frontier : HybridTimestamp)
    (effective_wallclock : Z) (self_heal_clock_skew : bool)
    (map_error : SendWithSelfHealError -> E) : res E HybridTimestamp :=
  match send frontier effective_wallclock with
  | Ok next => Ok next
  | Err (LogicalCounterOverflow wc current_logical as e) =>
      if self_heal_clock_skew then
        fallback_wallclock ←
          ok_or (i64_checked_add wc 1)
                (map_error (FallbackWallclockOverflow wc current_logical));
        map_err (fun error => map_error (FallbackSend error))
                (send frontier fallback_wallclock)
      else Err (map_error (InitialSend e))
  | Err error => Err (map_error (InitialSend error))
  | Panic => Panic
  end.

Definition serialize_into (self : HybridTimestamp) (buffer : bytes) : bytes :=
  buffer ++ to_le 8 (wallclock self) ++ to_le 4 (logical self).

Definition serialize (self : HybridTimestamp) : bytes := serialize_into self [].

Definition deserialize (b : bytes) : res StorageError (HybridTimestamp * Z) :=
  if blen b <? 12 then Err CorruptedData
  else
    wallclock_bytes ← expect (slice b 0 8);
    rest ← expect (slice_from b 8);
    let wc := from_le_i64 wallclock_bytes in
    logical_bytes ← expect (slice rest 0 4);
    let lg := from_le logical_bytes in
    if (MAX_VALID_TIMESTAMP <? wc) && negb (wc =? i64_max) then Err CorruptedData
    else if (wc =? i64_max) && negb (lg =? 0) then Err CorruptedData
    else Ok (mkTs wc lg, 12).

End Hlc.

(** The sentinel for "infinity" ([src/core/temporal.rs]). *)
Definition TIMESTAMP_MAX : HybridTimestamp := Hlc.new_unchecked i64_max 0.

(** Timestamps the validating constructors accept, plus the sentinel. *)
Definition ts_valid (t : HybridTimestamp) : Prop :=
  ts_wf t /\ (wallclock t <= MAX_VALID_TIMESTAMP \/ t = TIMESTAMP_MAX).

(** ** Lemmas *)
Section HlcLemmas.
Import Hlc.

Lemma increment_logical_ok lg wc v :
  in_u32 lg -> increment_logical lg wc = Ok v <-> v = lg + 1 /\ lg < u32_max.
Proof.
  intros. unfold increment_logical, u32_checked_add, ok_or. case_goal.
  - apply checked_some in Heqo as [-> ?]. split; [intros [= <-]; mlia|by intros [-> _]].
  - apply checked_none in Heqo. split; [done|mlia].
Qed.

Lemma increment_logical_cases lg wc :
  in_u32 lg ->
  (lg < u32_max /\ increment_logical lg wc = Ok (lg + 1)) \/
  (lg = u32_max /\ increment_logical lg wc = Err (LogicalCounterOverflow wc lg)).
Proof.
  intros. unfold increment_logical, u32_checked_add, ok_or. case_goal.
  - apply checked_some in Heqo as [-> ?]. left. split; [mlia|done].
  - apply checked_none in Heqo. right. split; [mlia|done].
Qed.

Lemma increment_logical_not_panic lg wc : is_panic (increment_logical lg wc) = false.
Proof. unfold increment_logical, ok_or. by case_goal. Qed.

Lemma send_ok t w t' :
  ts_wf t -> in_i64 w ->
  send t w = Ok t' <->
    w <= MAX_VALID_TIMESTAMP /\
    ((wallclock t < w /\ t' = mkTs w 0) \/
     (w <= wallclock t /\ logical t < u32_max /\
      t' = mkTs (wallclock t) (logical t + 1))).
Proof.
  intros [Hw Hl] ?. unfold send.
  destruct (MAX_VALID_TIMESTAMP <? w) eqn:E1; bool_to_prop.
  { split; [done|]. intros; lia. }
  destruct (wallclock t <? w) eqn:E2; bool_to_prop.
  { split; [intros; simplify_eq; naive_solver lia|].
    intros (_ & [[_ ->]|[? ?]]); [done|lia]. }
  rewrite bind_ok. setoid_rewrite increment_logical_ok; [|done].
  split.
  - intros (? & [-> ?] & ?). simplify_eq. naive_solver lia.
  - intros (_ & [[? ?]|(_ & ? & ->)]); [lia|]. eauto.
Qed.

Lemma send_lt t w t' :
  ts_wf t -> in_i64 w -> send t w = Ok t' ->
  ts_wf t' /\ (t < t')%ts /\ wallclock t' = Z.max (wallclock t) w.
Proof.
  intros Hwf Hw E. apply send_ok in E as (? & [[? ->]|(? & ? & ->)]); [..|done|done];
    destruct Hwf as [? ?]; split_and!; try split; ts_lia.
Qed.

Lemma send_overflow t w :
  ts_wf t -> w <= MAX_VALID_TIMESTAMP -> w <= wallclock t -> logical t = u32_max ->
  send t w = Err (LogicalCounterOverflow (wallclock t) u32_max).
Proof.
  intros [Hw Hl] ?? E. unfold send.
  rewrite !(proj2 (Z.ltb_ge _ _)) by lia.
  destruct (increment_logical_cases (logical t) (wallclock t) Hl) as [[? _]|[_ ->]]; [lia|].
  by rewrite E.
Qed.

(** The logical counter chosen by [receive] makes the stamp exceed both. *)
Lemma receive_lt self msg phys t' :
  ts_wf self -> ts_wf msg -> in_i64 phys -> receive self msg phys = Ok t' ->
  ts_wf t' /\ (self < t')%ts /\ (msg < t')%ts /\
  wallclock t' = Z.max (Z.max (wallclock self) (wallclock msg)) phys /\
  wallclock t' <= MAX_VALID_TIMESTAMP.
Proof.
  intros [] [] ?. unfold receive.
  set (m := Z.max (Z.max (wallclock self) (wallclock msg)) phys).
  destruct (MAX_VALID_TIMESTAMP <? m) eqn:E0; bool_to_prop; [done|].
  destruct ((wallclock self <? m) && (wallclock msg <? m)) eqn:E1; [bool_to_prop|].
  { intros [= <-]. unfold ts_wf. ts_lia. }
  destruct ((m =? wallclock self) && (m =? wallclock msg)) eqn:E2;
    [|destruct (m =? wallclock self) eqn:E3]; bool_to_prop;
    intros (lg & E4 & [= <-])%bind_ok; apply increment_logical_ok in E4 as [-> ?];
    unfold ts_wf; ts_lia.
Qed.

Lemma serialize_into_app t b : serialize_into t b = b ++ serialize t.
Proof. done. Qed.

Lemma blen_serialize t : blen (serialize t) = 12.
Proof. unfold serialize, serialize_into. blia. Qed.

Lemma deserialize_safe b :
  safe (deserialize b) (fun '(t, n) => n = 12 /\ 12 <= blen b /\ ts_valid t).
Proof.
  unfold deserialize. case_goal; bool_to_prop; simpl; [done|].
  destruct (slice_ok b 0 8) as (x & Hx & Lx); [blia..|]. rewrite Hx. simpl.
  destruct (slice_from_ok b 8) as (r & Hr & Lr); [blia..|]. rewrite Hr. simpl.
  destruct (slice_ok r 0 4) as (l & Hl & Ll); [blia..|]. rewrite Hl. simpl.
  pose proof (from_le_i64_range x ltac:(lia)).
  pose proof (from_le_u32_range l ltac:(lia)).
  case_goal; [done|]. case_goal; [done|]. simpl.
  split_and!; [done|lia|]. split; [done|]. simpl.
  destruct (from_le_i64 x =? i64_max) eqn:E; simpl in *.
  - right. unfold TIMESTAMP_MAX, new_unchecked.
    destruct (from_le l =? 0) eqn:?; [|done]. bool_to_prop. congruence.
  - left. rewrite andb_true_r in *. by bool_to_prop.
Qed.

Lemma deserialize_serialize_app t post :
  ts_valid t -> deserialize (serialize t ++ post) = Ok (t, 12).
Proof.
  intros [[Hw Hl] Hv]. unfold deserialize.
  assert ((blen (serialize t ++ post) <? 12) = false) as ->.
  { apply Z.ltb_ge. rewrite blen_app, blen_serialize. blia. }
  unfold serialize, serialize_into. rewrite app_nil_l, <-app_assoc.
  rewrite (slice_prefix (to_le 8 (wallclock t))) by blia. cbn [mbind res_bind expect].
  rewrite (slice_from_app (to_le 8 (wallclock t))) by blia. cbn [mbind res_bind expect].
  rewrite (slice_prefix (to_le 4 (logical t))) by blia. cbn [mbind res_bind expect].
  rewrite from_to_le_i64, from_to_le_u32 by done.
  assert ((MAX_VALID_TIMESTAMP <? wallclock t) && negb (wallclock t =? i64_max) = false) as ->.
  { destruct Hv as [?| ->]; [|done].
    apply andb_false_iff. left. by apply Z.ltb_ge. }
  assert ((wallclock t =? i64_max) && negb (logical t =? 0) = false) as ->.
  { destruct Hv as [?| ->]; [|done].
    apply andb_false_iff. left. apply Z.eqb_neq. mlia. }
  by destruct t.
Qed.
End HlcLemmas.

(** ** Properties of the clock rules *)
Section HlcProperties.
Import Hlc.

(** on every input the send rule either returns a well-formed timestamp
    strictly greater than the old one, whose wallclock is the later of the two
    clocks, or reports exactly one of its two documented errors: the physical
    clock is beyond [MAX_VALID_TIMESTAMP], or the 32-bit logical counter is
    exhausted while the clock did not advance. *)
Theorem send_spec (t : HybridTimestamp) (w : Z) :
  ts_wf t -> in_i64 w ->
  match send t w with
  | Ok t' => ts_wf t' /\ (t < t')%ts /\ w <= MAX_VALID_TIMESTAMP /\
             wallclock t' = Z.max (wallclock t) w
  | Err (InvalidTimestamp e) => MAX_VALID_TIMESTAMP < w /\ e = mkTs w 0
  | Err (LogicalCounterOverflow wc lg) =>
      w <= wallclock t /\ logical t = u32_max /\ wc = wallclock t /\ lg = u32_max
  | _ => False
  end.
Proof.
  intros Hwf Hw. destruct (send t w) as [t'|e|] eqn:E.
  - pose proof (proj1 (send_ok t w t' Hwf Hw) E) as [? _].
    apply send_lt in E as (? & ? & ?); done.
  - revert E. unfold send, increment_logical, ok_or. case_goal; [by intros [= <-]; bool_to_prop|].
    case_goal; [done|]. simpl. case_goal; simpl; intros [= <-].
    apply checked_none in Heqo. bool_to_prop. destruct Hwf. mlia.
  - revert E. unfold send. do 2 (case_goal; [done|]).
    pose proof (increment_logical_not_panic (logical t) (wallclock t)).
    by destruct (increment_logical _ _).
Qed.

(** the receive rule returns a timestamp strictly greater than the local
    clock and than the timestamp of the received message, with the largest of
    the three wallclocks; it fails only beyond [MAX_VALID_TIMESTAMP] or on
    exhaustion of the logical counter. *)
Theorem receive_spec (self msg : HybridTimestamp) (phys : Z) :
  ts_wf self -> ts_wf msg -> in_i64 phys ->
  let m := Z.max (Z.max (wallclock self) (wallclock msg)) phys in
  match receive self msg phys with
  | Ok t' => ts_wf t' /\ (self < t')%ts /\ (msg < t')%ts /\ wallclock t' = m /\
             m <= MAX_VALID_TIMESTAMP
  | Err (InvalidTimestamp e) => MAX_VALID_TIMESTAMP < m /\ e = mkTs m 0
  | Err (LogicalCounterOverflow wc lg) =>
      wc = m /\ lg = u32_max /\ (logical self = u32_max \/ logical msg = u32_max)
  | _ => False
  end.
Proof.
  intros [] [] ? m. unfold receive. fold m.
  destruct (MAX_VALID_TIMESTAMP <? m) eqn:E0; bool_to_prop; [done|].
  destruct ((wallclock self <? m) && (wallclock msg <? m)) eqn:E1; [bool_to_prop|].
  { simpl. unfold ts_wf. ts_lia. }
  destruct ((m =? wallclock self) && (m =? wallclock msg)) eqn:E2;
    [|destruct (m =? wallclock self) eqn:E3]; bool_to_prop.
  - destruct (increment_logical_cases (Z.max (logical self) (logical msg)) m)
      as [[? ->]|[? ->]]; simpl; unfold ts_wf; ts_lia.
  - destruct (increment_logical_cases (logical self) m)
      as [[? ->]|[? ->]]; simpl; unfold ts_wf; ts_lia.
  - destruct (increment_logical_cases (logical msg) m)
      as [[? ->]|[? ->]]; simpl; unfold ts_wf; ts_lia.
Qed.

(** with self-healing enabled the clock makes progress: from any
    well-formed frontier strictly below [MAX_VALID_TIMESTAMP] and any admissible
    wallclock, stamping succeeds and yields a strictly greater timestamp, even
    when the logical counter is exhausted (the retry at [wallclock + 1]). *)
Theorem self_heal_always_advances {E} (f : HybridTimestamp) (w : Z)
    (map_error : SendWithSelfHealError -> E) :
  ts_wf f -> in_i64 w -> w <= MAX_VALID_TIMESTAMP -> wallclock f < MAX_VALID_TIMESTAMP ->
  exists t', send_with_overflow_self_heal f w true map_error = Ok t' /\
             ts_wf t' /\ (f < t')%ts /\ w <= wallclock t'.
Proof.
  intros Hf Hw Hmax Hfr. unfold send_with_overflow_self_heal.
  destruct (decide (wallclock f < w \/ logical f < u32_max)) as [Hok|Hno].
  - assert (exists t', send f w = Ok t') as [t' E1].
    { destruct (decide (wallclock f < w)); eexists; apply send_ok; try done;
        (split; [done|]); [left|right]; split_and!; try done; lia. }
    rewrite E1. apply send_lt in E1 as (? & ? & ?); [|done|done].
    exists t'. split_and!; try done. lia.
  - destruct Hf as [Hi Hl] eqn:Ef. clear Ef.
    rewrite send_overflow by (try done; mlia).
    unfold i64_checked_add. rewrite checked_in by mlia. simpl.
    assert (send f (wallclock f + 1) = Ok (mkTs (wallclock f + 1) 0)) as ->.
    { apply send_ok; [done|mlia|]. split; [lia|]. left. split; [lia|done]. }
    simpl. eexists; split; [done|]. split_and!; try split; ts_lia.
Qed.

(** the skew policy.  With healing on it never rejects, and the effective
    wallclock is the current one exactly when the drift is inside the policy's
    bounds and the frontier's otherwise; with healing off it rejects exactly the
    out-of-bounds drifts and never alters the wallclock. *)
Theorem clock_skew_policy (cur frontier : Z) (fwd : option Z) (heal : bool) :
  let drift := i64_saturating_sub cur frontier in
  let inside := - MAX_BACKWARD_DRIFT_US <= drift /\
                (forall m, fwd = Some m -> drift <= m) in
  match evaluate_clock_skew cur frontier fwd heal with
  | Ok d => drift_us d = drift /\
            ((inside /\ effective_wallclock d = cur /\ healed_direction d = None) \/
             (~ inside /\ heal = true /\ effective_wallclock d = frontier /\
              is_Some (healed_direction d)))
  | Err v => heal = false /\ ~ inside /\ v_drift_us v = drift
  | Panic => False
  end.
Proof.
  intros drift inside. unfold evaluate_clock_skew. fold drift.
  destruct (drift <? - MAX_BACKWARD_DRIFT_US) eqn:E1, heal, fwd as [m|]; simpl;
    try destruct (m <? drift) eqn:E2; simpl; bool_to_prop; unfold inside;
    first [ split; [done|] | idtac ]; repeat split; try done; try lia;
    first [ left; split; [split; [lia | intros ? [= <-]; lia] | done]
          | left; split; [split; [lia | done] | done]
          | right; split_and!; [| done | done | by eexists]; intros [? Hb]; try lia;
            specialize (Hb _ eq_refl); lia
          | intros [? Hb]; try lia; specialize (Hb _ eq_refl); lia ].
Qed.

(** the 12-byte encoding round-trips for every valid timestamp (in
    particular for the [TIMESTAMP_MAX] sentinel), whatever follows it in the
    buffer. *)
Theorem timestamp_roundtrip (t : HybridTimestamp) (post : bytes) :
  ts_valid t -> deserialize (serialize t ++ post) = Ok (t, 12) /\ blen (serialize t) = 12.
Proof. intros. split; [by apply deserialize_serialize_app | apply blen_serialize]. Qed.
End HlcProperties.

(** ** Causality across nodes

    A distributed execution of the clock: every node keeps one
    [HybridTimestamp]; a local (or send) event stamps itself with [Hlc.send], a
    receive event with [Hlc.receive] on the stamp of the event that sent the
    message. *)
Module Causality.

Inductive event :=
  | LocalEv (node : nat) (phys : Z)
  | RecvEv (node : nat) (phys : Z) (src : nat).

Definition ev_node (e : event) : nat :=
  match e with LocalEv n _ | RecvEv n _ _ => n end.
Definition ev_phys (e : event) : Z :=
  match e with LocalEv _ p | RecvEv _ p _ => p end.

Record net := mkNet { clocks : nat -> HybridTimestamp; stamps : list HybridTimestamp }.

Definition stamp (s : net) (e : event) : option (res TemporalError HybridTimestamp) :=
  match e with
  | LocalEv n p => Some (Hlc.send (clocks s n) p)
  | RecvEv n p src => (fun m => Hlc.receive (clocks s n) m p) <$> stamps s !! src
  end.

(** One event; [None] when its stamping fails or its message was never sent. *)
Definition step (s : net) (e : event) : option net :=
  match stamp s e with
  | Some (Ok t) =>
      Some (mkNet (fun n => if decide (n = ev_node e) then t else clocks s n)
                  (stamps s ++ [t]))
  | _ => None
  end.

Fixpoint run (s : net) (es : list event) : option net :=
  match es with
  | [] => Some s
  | e :: es => step s e ≫= fun s' => run s' es
  end.

(** Lamport's happened-before on the events of a trace: program order on a
    node, message delivery, transitivity. *)
Inductive happens_before (es : list event) : nat -> nat -> Prop :=
  | hb_node i j ei ej :
      (i < j)%nat -> es !! i = Some ei -> es !! j = Some ej ->
      ev_node ei = ev_node ej -> happens_before es i j
  | hb_msg i j n p :
      es !! j = Some (RecvEv n p i) -> happens_before es i j
  | hb_trans i j k :
      happens_before es i j -> happens_before es j k -> happens_before es i k.

Lemma hb_bound es i j : happens_before es i j -> (j < length es)%nat.
Proof. induction 1; eauto using lookup_lt_Some. Qed.

Definition init (t0 : HybridTimestamp) : net := mkNet (fun _ => t0) [].

(** The invariant of a run: clocks dominate the stamps of their node, and the
    two generating cases of happened-before are increasing. *)
Record inv (es : list event) (s : net) : Prop := {
  inv_len : length (stamps s) = length es;
  inv_wf : forall n, ts_wf (clocks s n);
  inv_wf_st : Forall ts_wf (stamps s);
  inv_dom : forall i e t, es !! i = Some e -> stamps s !! i = Some t ->
            (t <= clocks s (ev_node e))%ts;
  inv_node : forall i j ei ej ti tj, (i < j)%nat ->
      es !! i = Some ei -> es !! j = Some ej -> ev_node ei = ev_node ej ->
      stamps s !! i = Some ti -> stamps s !! j = Some tj -> (ti < tj)%ts;
  inv_msg : forall i j n p tj, es !! j = Some (RecvEv n p i) -> stamps s !! j = Some tj ->
      exists ti, stamps s !! i = Some ti /\ (ti < tj)%ts }.

Lemma stamp_spec s e t :
  (forall n, ts_wf (clocks s n)) -> Forall ts_wf (stamps s) -> in_i64 (ev_phys e) ->
  stamp s e = Some (Ok t) ->
  ts_wf t /\ (clocks s (ev_node e) < t)%ts /\
  (forall n p i, e = RecvEv n p i -> exists ti, stamps s !! i = Some ti /\ (ti < t)%ts).
Proof.
  intros Hc Hs Hp. destruct e as [n p|n p src]; simpl in *.
  - intros [= E]. apply send_lt in E as (? & ? & _); [|done|done]. naive_solver.
  - destruct (stamps s !! src) as [m|] eqn:Em; simpl; [|done]. intros [= E].
    apply receive_lt in E as (? & ? & ? & _); [|done| |done].
    + split_and!; try done. intros ??? [= <- <- <-]. eauto.
    + eapply Forall_lookup_1; eauto.
Qed.

Lemma inv_step es s e s' :
  inv es s -> in_i64 (ev_phys e) -> step s e = Some s' -> inv (es ++ [e]) s'.
Proof.
  intros I Hp. unfold step. destruct (stamp s e) as [[t| |]|] eqn:E; [|done..].
  intros [= <-]. destruct (stamp_spec s e t) as (Wt & Ht & Hm);
    [apply I|apply I|done|done|]. pose proof (inv_len _ _ I) as L.
  assert (forall {A} (l : list A) x i y, (l ++ [x]) !! i = Some y ->
    l !! i = Some y \/ (i = length l /\ y = x)) as Hlast.
  { intros A l x i y H. apply lookup_app_Some in H as [?|[? H]]; [by left|].
    apply list_lookup_singleton_Some in H as [? ->]. right. split; [lia|done]. }
  split; simpl.
  - rewrite !length_app. simpl. lia.
  - intros n. case_decide; [done|apply I].
  - apply Forall_app; split; [apply I|by constructor].
  - intros i e' t' He Ht'. apply Hlast in He as [He|[-> ->]], Ht' as [Ht'|[? ->]];
      case_decide; try done; try (apply lookup_lt_Some in He; lia);
      try (apply lookup_lt_Some in Ht'; lia).
    + pose proof (inv_dom _ _ I _ _ _ He Ht'). rewrite H in *. ts_lia.
    + by apply (inv_dom _ _ I i).
  - intros i j ei ej ti tj Hij Hi Hj Hn Hti Htj.
    apply Hlast in Hj as [Hj|[-> ->]], Htj as [Htj|[? ->]];
      try (apply lookup_lt_Some in Hj; lia); try (apply lookup_lt_Some in Htj; lia);
      apply Hlast in Hi as [Hi|[? ->]], Hti as [Hti|[? ->]];
      try (apply lookup_lt_Some in Hi; lia); try (apply lookup_lt_Some in Hti; lia);
      try (apply lookup_lt_Some in Hj; lia); try lia.
    + by eapply (inv_node _ _ I i j).
    + pose proof (inv_dom _ _ I _ _ _ Hi Hti). rewrite Hn in *. ts_lia.
  - intros i j n p tj Hj Htj.
    apply Hlast in Hj as [Hj|[-> Hj]], Htj as [Htj|[? ->]];
      try (apply lookup_lt_Some in Hj; lia); try (apply lookup_lt_Some in Htj; lia).
    + destruct (inv_msg _ _ I i j n p tj) as (ti & ? & ?); [done..|].
      exists ti. split; [|done]. by apply lookup_app_l_Some.
    + destruct (Hm n p i) as (ti & ? & ?); [done|].
      exists ti. split; [|done]. by apply lookup_app_l_Some.
Qed.

Lemma run_app s es1 es2 : run s (es1 ++ es2) = run s es1 ≫= fun s' => run s' es2.
Proof.
  revert s. induction es1 as [|e es1 IH]; intros s; simpl; [done|].
  destruct (step s e); simpl; [apply IH|done].
Qed.

Lemma run_inv t0 es s :
  ts_wf t0 -> Forall (fun e => in_i64 (ev_phys e)) es -> run (init t0) es = Some s -> inv es s.
Proof.
  intros Ht. revert s. induction es as [|e es IH] using rev_ind; intros s Hp Hr.
  - injection Hr as <-. by split.
  - apply Forall_app in Hp as [Hp Hp1]. rewrite run_app in Hr.
    destruct (run (init t0) es) as [s1|] eqn:E; simpl in Hr; [|done].
    destruct (step s1 e) as [s2|] eqn:E2; simpl in Hr; [|done]. injection Hr as ->.
    apply (inv_step es s1 e s); [by apply IH|by inv Hp1|done].
Qed.

End Causality.

Section CausalityProperties.
Import Causality.

(** C25: causality.  In every run of any number of nodes from a well-formed
    initial clock, with arbitrary physical clocks, if event [i] happened before
    event [j] then the stamp of [i] is strictly smaller than the stamp of [j]. *)
Theorem hlc_causality (t0 : HybridTimestamp) (es : list event) (s : net) (i j : nat) :
  ts_wf t0 -> Forall (fun e => in_i64 (ev_phys e)) es ->
  run (init t0) es = Some s -> happens_before es i j ->
  forall ti tj, stamps s !! i = Some ti -> stamps s !! j = Some tj -> (ti < tj)%ts.
Proof.
  intros Ht Hp Hr Hb. pose proof (run_inv t0 es s Ht Hp Hr) as I.
  induction Hb as [i j ei ej ? ? ? ?|i j n p Hj|i j k Hij IHij Hjk IHjk];
    intros ti tj Hti Htj.
  - by eapply (inv_node _ _ I i j).
  - destruct (inv_msg _ _ I i j n p tj) as (ti' & ? & ?); [done..|]. by simplify_eq.
  - assert (is_Some (stamps s !! j)) as [tm Hm].
    { apply lookup_lt_is_Some. rewrite (inv_len _ _ I). by eapply hb_bound. }
    transitivity tm; eauto.
Qed.
End CausalityProperties.

(** ** Concrete instances *)
Module HlcWitness.
Import Hlc Causality.

Definition t0 : HybridTimestamp := mkTs 1000 5.
Definition t_full : HybridTimestamp := mkTs 1000 u32_max.
Definition msg0 : HybridTimestamp := mkTs 2000 10.

Lemma t0_wf : ts_wf t0.
Proof. unfold ts_wf, t0. simpl. mlia. Qed.

Lemma send_spec_witness :
  send t0 900 = Ok (mkTs 1000 6) /\ ts_wf (mkTs 1000 6) /\ (t0 < mkTs 1000 6)%ts.
Proof.
  split; [reflexivity|].
  assert (in_i64 900) as Hi by mlia.
  pose proof (send_spec t0 900 t0_wf Hi) as H.
  change (send t0 900) with (Ok (E:=TemporalError) (mkTs 1000 6)) in H. simpl in H.
  split; apply H.
Defined.

Lemma receive_spec_witness :
  receive t0 msg0 1500 = Ok (mkTs 2000 11) /\
  (t0 < mkTs 2000 11)%ts /\ (msg0 < mkTs 2000 11)%ts.
Proof.
  split; [reflexivity|].
  assert (ts_wf msg0) as Hm by (unfold ts_wf, msg0; simpl; mlia).
  assert (in_i64 1500) as Hi by mlia.
  pose proof (receive_spec t0 msg0 1500 t0_wf Hm Hi) as H.
  change (receive t0 msg0 1500) with (Ok (E:=TemporalError) (mkTs 2000 11)) in H.
  simpl in H. split; apply H.
Defined.

(** The exhausted counter at a stalled clock heals to the next microsecond. *)
Lemma self_heal_witness :
  send_with_overflow_self_heal t_full 900 true (fun e => e) = Ok (mkTs 1001 0) /\
  exists t', send_with_overflow_self_heal t_full 900 true (fun e => e) = Ok t' /\
             ts_wf t' /\ (t_full < t')%ts /\ 900 <= wallclock t'.
Proof.
  split; [reflexivity|].
  apply (self_heal_always_advances t_full 900 (fun e => e));
    unfold ts_wf, t_full; simpl; mlia.
Defined.

Lemma timestamp_roundtrip_witness :
  ts_valid TIMESTAMP_MAX /\
  deserialize (serialize TIMESTAMP_MAX ++ []) = Ok (TIMESTAMP_MAX, 12).
Proof.
  assert (ts_valid TIMESTAMP_MAX) as Hv.
  { split; [split; simpl; mlia | by right]. }
  split; [exact Hv|]. exact (proj1 (timestamp_roundtrip TIMESTAMP_MAX [] Hv)).
Defined.

(** Two nodes: node 0 stamps an event, node 1, whose clock lags, receives its
    message. *)
Definition es0 : list event := [LocalEv 0 2000; RecvEv 1 1500 0; LocalEv 1 1600].

Lemma hlc_causality_witness :
  exists s, run (init t0) es0 = Some s /\
    stamps s = [mkTs 2000 0; mkTs 2000 1; mkTs 2000 2] /\
    (mkTs 2000 0 < mkTs 2000 2)%ts.
Proof.
  destruct (run (init t0) es0) as [s|] eqn:E; [|discriminate].
  exists s. split; [reflexivity|].
  assert (stamps s = [mkTs 2000 0; mkTs 2000 1; mkTs 2000 2]) as Hs.
  { injection E as <-. reflexivity. }
  split; [exact Hs|].
  apply (hlc_causality t0 es0 s 0 2 t0_wf).
  - repeat constructor; simpl; mlia.
  - exact E.
  - apply (hb_trans es0 0 1 2).
    + apply (hb_msg es0 0 1 1 1500). reflexivity.
    + apply (hb_node es0 1 2 (RecvEv 1 1500 0) (LocalEv 1 1600)); [lia|done|done|done].
  - rewrite Hs. reflexivity.
  - rewrite Hs. reflexivity.
Defined.

End HlcWitness.
