(* ===== verification/Temporal.v ===== *)
(** * Bi-temporal intervals: [src/core/temporal.rs]

    Half-open time ranges with the [TIMESTAMP_MAX] sentinel, bi-temporal
    intervals over valid and transaction time, closing, visibility, and the
    24- and 48-byte encodings. *)

From S2P Require Import Prelude.
From S2P Require Import Bytes.
From S2P Require Import Errors.
From S2P Require Import Hlc.

Record TimeRange := mkRange { start : HybridTimestamp; end_ : HybridTimestamp }.

#[global] Instance TimeRange_eq_dec : EqDecision TimeRange.
Proof. solve_decision. Defined.

(** The test the constructors share: beyond the user range and not the
    sentinel. *)
Definition out_of_range (t : HybridTimestamp) : bool :=
  (MAX_VALID_TIMESTAMP <? wallclock t) && negb (ts_eqb t TIMESTAMP_MAX).

Module Range.

Definition new (s e : HybridTimestamp) : res TemporalError TimeRange :=
  if ts_ltb e s then Err (InvalidTimeRange s e)
  else if out_of_range s then Err (InvalidTimestamp s)
  else if out_of_range e then Err (InvalidTimestamp e)
  else Ok (mkRange s e).

Definition from (s : HybridTimestamp) : res TemporalError TimeRange :=
  if out_of_range s then Panic else Ok (mkRange s TIMESTAMP_MAX).

Definition between (s e : HybridTimestamp) : res TemporalError TimeRange := new s e.

Definition at_ (t : HybridTimestamp) : res TemporalError TimeRange :=
  if out_of_range t then Panic else Ok (mkRange t t).

Definition is_current (r : TimeRange) : bool := ts_eqb (end_ r) TIMESTAMP_MAX.
Definition is_closed (r : TimeRange) : bool := ts_ltb (end_ r) TIMESTAMP_MAX.

Definition contains (r : TimeRange) (t : HybridTimestamp) : bool :=
  ts_leb (start r) t && ts_ltb t (end_ r).

Definition contains_or_after (r : TimeRange) (t : HybridTimestamp) : bool :=
  ts_leb (start r) t.

Definition is_empty (r : TimeRange) : bool := ts_eqb (start r) (end_ r).

Definition overlaps (r o : TimeRange) : bool :=
  if is_empty r || is_empty o then false
  else ts_ltb (start r) (end_ o) && ts_ltb (start o) (end_ r).

Definition contains_range (r o : TimeRange) : bool :=
  ts_leb (start r) (start o) && ts_leb (end_ o) (end_ r).

Definition close_at (r : TimeRange) (e : HybridTimestamp) : res TemporalError TimeRange :=
  if ts_ltb e (start r) then Err (InvalidTimeRange (start r) e)
  else if out_of_range e then Err (InvalidTimestamp e)
  else Ok (mkRange (start r) e).

Definition duration_micros (r : TimeRange) : option Z :=
  if is_current r then None
  else match i64_checked_sub (wallclock (end_ r)) (wallclock (start r)) with
       | Some d => Some d
       | None => Some i64_max
       end.

Definition serialize_into (r : TimeRange) (buffer : bytes) : bytes :=
  Hlc.serialize_into (end_ r) (Hlc.serialize_into (start r) buffer).

Definition serialize (r : TimeRange) : bytes := serialize_into r [].

Definition deserialize (b : bytes) : res StorageError (TimeRange * Z) :=
  if blen b <? 24 then Err CorruptedData
  else
    b1 ← expect (slice b 0 12);
    '(s, _) ← Hlc.deserialize b1;
    b2 ← expect (slice b 12 24);
    '(e, _) ← Hlc.deserialize b2;
    if ts_ltb e s then Err CorruptedData
    else Ok (mkRange s e, 24).

End Range.

Record BiTemporalInterval := mkInterval {
  valid_time : TimeRange;
  transaction_time : TimeRange }.

#[global] Instance BiTemporalInterval_eq_dec : EqDecision BiTemporalInterval.
Proof. solve_decision. Defined.

Module BiTemporal.

Definition new (v t : TimeRange) : BiTemporalInterval := mkInterval v t.

Definition current (t : HybridTimestamp) : res TemporalError BiTemporalInterval :=
  range ← Range.from t; Ok (mkInterval range range).

Definition now (valid_start tx_timestamp : HybridTimestamp)
    : res TemporalError BiTemporalInterval :=
  v ← Range.from valid_start; t ← Range.from tx_timestamp; Ok (mkInterval v t).

Definition with_valid_time (valid_from tx_time : HybridTimestamp)
    : res TemporalError BiTemporalInterval :=
  v ← Range.from valid_from; t ← Range.from tx_time; Ok (mkInterval v t).

Definition is_currently_valid (i : BiTemporalInterval) : bool :=
  Range.is_current (valid_time i).
Definition is_currently_recorded (i : BiTemporalInterval) : bool :=
  Range.is_current (transaction_time i).
Definition is_current (i : BiTemporalInterval) : bool :=
  is_currently_valid i && is_currently_recorded i.

Definition is_valid_at (i : BiTemporalInterval) (t : HybridTimestamp) : bool :=
  Range.contains (valid_time i) t.
Definition is_recorded_at (i : BiTemporalInterval) (t : HybridTimestamp) : bool :=
  Range.contains (transaction_time i) t.
Definition is_visible_at (i : BiTemporalInterval) (vt tt : HybridTimestamp) : bool :=
  Range.contains (valid_time i) vt && Range.contains (transaction_time i) tt.

Definition close_valid_time (i : BiTemporalInterval) (e : HybridTimestamp)
    : res TemporalError BiTemporalInterval :=
  v ← Range.close_at (valid_time i) e; Ok (mkInterval v (transaction_time i)).

Definition close_transaction_time (i : BiTemporalInterval) (e : HybridTimestamp)
    : res TemporalError BiTemporalInterval :=
  t ← Range.close_at (transaction_time i) e; Ok (mkInterval (valid_time i) t).

Definition close_both (i : BiTemporalInterval) (valid_end tx_end : HybridTimestamp)
    : res TemporalError BiTemporalInterval :=
  v ← Range.close_at (valid_time i) valid_end;
  t ← Range.close_at (transaction_time i) tx_end;
  Ok (mkInterval v t).

Definition serialize_into (i : BiTemporalInterval) (buffer : bytes) : bytes :=
  Range.serialize_into (transaction_time i) (Range.serialize_into (valid_time i) buffer).

Definition serialize (i : BiTemporalInterval) : bytes := serialize_into i [].

Definition deserialize (b : bytes) : res StorageError (BiTemporalInterval * Z) :=
  if blen b <? 48 then Err CorruptedData
  else
    b1 ← expect (slice b 0 24);
    '(v, _) ← Range.deserialize b1;
    b2 ← expect (slice b 24 48);
    '(t, _) ← Range.deserialize b2;
    Ok (mkInterval v t, 48).

End BiTemporal.

(** ** Invariants *)

(** What every constructor establishes: admissible bounds, in order. *)
Definition range_valid (r : TimeRange) : Prop :=
  ts_valid (start r) /\ ts_valid (end_ r) /\ (start r <= end_ r)%ts.

Definition interval_valid (i : BiTemporalInterval) : Prop :=
  range_valid (valid_time i) /\ range_valid (transaction_time i).

Section TemporalLemmas.
Implicit Types (r o : TimeRange) (t s e : HybridTimestamp).

Lemma out_of_range_valid t : ts_wf t -> out_of_range t = false <-> ts_valid t.
Proof.
  intros. unfold out_of_range, ts_valid. split.
  - intros [E|E]%andb_false_iff; split; try done; [left; by bool_to_prop|right].
    apply negb_false_iff in E. by ts_norm.
  - intros [_ [?| ->]]; [|done]. apply andb_false_iff. left. by apply Z.ltb_ge.
Qed.

Lemma ts_valid_wf t : ts_valid t -> ts_wf t.
Proof. by intros [? _]. Qed.

Lemma ts_valid_le_max t : ts_valid t -> (t <= TIMESTAMP_MAX)%ts.
Proof. intros [[] [?| ->]]; [|done]. left. unfold TIMESTAMP_MAX. ts_lia. Qed.

Lemma ts_max_valid : ts_valid TIMESTAMP_MAX.
Proof. split; [split; simpl; mlia | by right]. Qed.

Lemma contains_true r t :
  Range.contains r t = true <-> (start r <= t)%ts /\ (t < end_ r)%ts.
Proof. unfold Range.contains. rewrite andb_true_iff, ts_leb_le, ts_ltb_lt. done. Qed.

Lemma new_ok s e r :
  ts_wf s -> ts_wf e -> Range.new s e = Ok r <-> r = mkRange s e /\ range_valid r.
Proof.
  intros Hs He. unfold Range.new, range_valid.
  pose proof (out_of_range_valid s Hs). pose proof (out_of_range_valid e He).
  split.
  - repeat (case_goal; [done|]). intros [= <-]. simpl.
    split; [done|]. split_and!; [tauto..|]. by ts_norm; apply ts_not_lt.
  - intros [-> (Hvs & Hve & Hle)]. simpl in *.
    rewrite (proj2 H Hvs), (proj2 H0 Hve).
    destruct (ts_ltb e s) eqn:E; [ts_lia|done].
Qed.

Lemma close_at_ok r e r' :
  ts_wf e -> Range.close_at r e = Ok r' <->
  r' = mkRange (start r) e /\ (start r <= e)%ts /\ ts_valid e.
Proof.
  intros He. unfold Range.close_at. pose proof (out_of_range_valid e He).
  split.
  - repeat (case_goal; [done|]). intros [= <-].
    split_and!; [done| |tauto]. by ts_norm; apply ts_not_lt.
  - intros (-> & Hle & Hv). rewrite (proj2 H Hv).
    destruct (ts_ltb e (start r)) eqn:E; [ts_lia|done].
Qed.

Lemma close_at_valid r e r' :
  ts_wf e -> range_valid r -> Range.close_at r e = Ok r' -> range_valid r'.
Proof. intros He (? & ? & ?) [-> [? ?]]%close_at_ok; [|done]. done. Qed.

Lemma close_at_not_panic r e : is_panic (Range.close_at r e) = false.
Proof. unfold Range.close_at. by repeat case_goal. Qed.

Lemma serialize_app r : Range.serialize r = Hlc.serialize (start r) ++ Hlc.serialize (end_ r).
Proof. reflexivity. Qed.

Lemma blen_serialize_range r : blen (Range.serialize r) = 24.
Proof. rewrite serialize_app, blen_app, !blen_serialize. done. Qed.

Lemma range_deserialize_app r post :
  range_valid r -> Range.deserialize (Range.serialize r ++ post) = Ok (r, 24).
Proof.
  intros (Hs & He & Hle). unfold Range.deserialize.
  assert ((blen (Range.serialize r ++ post) <? 24) = false) as ->.
  { apply Z.ltb_ge. rewrite blen_app, blen_serialize_range. blia. }
  rewrite serialize_app, <-app_assoc.
  rewrite (slice_prefix (Hlc.serialize (start r))) by (by rewrite blen_serialize).
  cbn [mbind res_bind expect].
  rewrite <-(app_nil_r (Hlc.serialize (start r))) at 1.
  rewrite deserialize_serialize_app by done. cbn [mbind res_bind].
  rewrite (slice_app (Hlc.serialize (start r)) (Hlc.serialize (end_ r)))
    by (by rewrite !blen_serialize).
  cbn [mbind res_bind expect].
  rewrite <-(app_nil_r (Hlc.serialize (end_ r))).
  rewrite deserialize_serialize_app by done. cbn [mbind res_bind].
  destruct (ts_ltb (end_ r) (start r)) eqn:E; [ts_lia|]. by destruct r.
Qed.

Lemma range_deserialize_safe b :
  safe (Range.deserialize b) (fun '(r, n) => n = 24 /\ 24 <= blen b /\ range_valid r).
Proof.
  unfold Range.deserialize. case_goal; bool_to_prop; [done|].
  destruct (slice_ok b 0 12) as (x & Hx & Lx); [blia..|]. rewrite Hx. cbn [mbind res_bind expect].
  eapply safe_bind; [apply deserialize_safe|]. intros [s ?] _ (? & ? & ?).
  destruct (slice_ok b 12 24) as (y & Hy & Ly); [blia..|]. rewrite Hy. cbn [mbind res_bind expect].
  eapply safe_bind; [apply deserialize_safe|]. intros [e ?] _ (? & ? & ?).
  case_goal; simpl; [done|]. split_and!; [done|lia|].
  split_and!; [done..|]. by ts_norm; apply ts_not_lt.
Qed.

Lemma interval_serialize_app i :
  BiTemporal.serialize i = Range.serialize (valid_time i) ++ Range.serialize (transaction_time i).
Proof.
  rewrite !serialize_app. unfold BiTemporal.serialize, BiTemporal.serialize_into,
    Range.serialize_into. rewrite !serialize_into_app. by rewrite <-!(assoc_L (++)).
Qed.
End TemporalLemmas.

(** ** Properties *)
Section TemporalProperties.
Implicit Types (r o : TimeRange) (i : BiTemporalInterval).

(** the validity invariant of time ranges is established by every
    constructor, preserved by closing, and re-checked by the decoder on
    arbitrary bytes: no code path produces a range that is out of order or out
    of the admissible timestamps, and the decoder never panics. *)
Theorem range_invariant (s e : HybridTimestamp) r (b : bytes) :
  ts_wf s -> ts_wf e -> range_valid r ->
  safe (Range.new s e) range_valid /\
  (forall x, Range.from s = Ok x -> range_valid x) /\
  (forall x, Range.at_ s = Ok x -> range_valid x) /\
  safe (Range.close_at r e) range_valid /\
  safe (Range.deserialize b) (fun '(x, n) => range_valid x /\ n = 24).
Proof.
  intros Hs He Hr. split_and!.
  - destruct (Range.new s e) eqn:E; simpl; [|done|].
    + by apply new_ok in E as [-> ?].
    + revert E. unfold Range.new. by repeat case_goal.
  - unfold Range.from. intros x. case_goal; intros; simplify_eq.
    apply out_of_range_valid in Heqb0; [|done].
    split_and!; simpl; [done|apply ts_max_valid|by apply ts_valid_le_max].
  - unfold Range.at_. intros x. case_goal; intros; simplify_eq.
    by apply out_of_range_valid in Heqb0.
  - pose proof (close_at_not_panic r e).
    destruct (Range.close_at r e) eqn:E; simpl; [|done|done].
    by eapply close_at_valid.
  - eapply safe_mono; [apply range_deserialize_safe|]. intros [x n]. naive_solver.
Qed.

(** the overlap test is exact: two valid ranges overlap iff some
    timestamp lies in both. *)
Theorem overlaps_iff r o :
  range_valid r -> range_valid o ->
  Range.overlaps r o = true <->
  exists t, ts_wf t /\ Range.contains r t = true /\ Range.contains o t = true.
Proof.
  intros ([Hr _] & _ & Hrle) ([Ho _] & _ & Hole). setoid_rewrite contains_true.
  unfold Range.overlaps, Range.is_empty. split.
  - case_goal; [done|]. intros [? ?]%andb_true_iff. bool_to_prop. ts_norm.
    assert ((start r < end_ r)%ts) by (by destruct Hrle).
    assert ((start o < end_ o)%ts) by (by destruct Hole).
    destruct (ts_lt_trichotomy (start r) (start o)) as [?|[E|?]].
    + exists (start o). split_and!; try done; (by left) || by right.
    + exists (start o). rewrite E in *. split_and!; try done; by right.
    + exists (start r). split_and!; try done; (by left) || by right.
  - intros (t & _ & [? ?] & [? ?]).
    assert (ts_eqb (start r) (end_ r) = false) as ->.
    { apply not_true_iff_false. rewrite ts_eqb_eq. intros Heq. rewrite Heq in *. ts_lia. }
    assert (ts_eqb (start o) (end_ o) = false) as ->.
    { apply not_true_iff_false. rewrite ts_eqb_eq. intros Heq. rewrite Heq in *. ts_lia. }
    simpl. apply andb_true_iff. split; ts_lia.
Qed.

(** range containment is exactly inclusion of the contained timestamps,
    for a non-empty inner range. *)
Theorem contains_range_iff r o :
  range_valid r -> range_valid o -> Range.is_empty o = false ->
  Range.contains_range r o = true <->
  forall t, ts_wf t -> Range.contains o t = true -> Range.contains r t = true.
Proof.
  intros ([Hrs _] & [Hre _] & Hrle) ([Hos _] & [Hoe _] & Hole) Hne.
  unfold Range.is_empty in Hne. ts_norm.
  assert ((start o < end_ o)%ts) by (destruct Hole; [done|by destruct Hne]).
  unfold Range.contains_range. setoid_rewrite contains_true.
  rewrite andb_true_iff, !ts_leb_le. split.
  - intros [? ?] t _ [? ?]. split; ts_lia.
  - intros Hall. destruct (Hall (start o) Hos) as [? ?]; [split; [by right|done]|].
    split; [done|]. destruct (ts_lt_trichotomy (end_ r) (end_ o)) as [Hlt|[->|?]];
      [|by right|by left].
    destruct (Hall (end_ r) Hre) as [_ Hbad]; [split; [|done]; ts_lia|]. ts_lia.
Qed.

(** closing transaction time never rewrites history: closing a recorded
    interval at [e] (no later than its current end) leaves it visible at
    exactly the points before [e] where it was visible already, for every
    valid time. *)
Theorem close_transaction_time_visibility i e i' (vt tt : HybridTimestamp) :
  interval_valid i -> ts_wf e -> (e <= end_ (transaction_time i))%ts ->
  BiTemporal.close_transaction_time i e = Ok i' ->
  interval_valid i' /\
  BiTemporal.is_visible_at i' vt tt = BiTemporal.is_visible_at i vt tt && ts_ltb tt e.
Proof.
  intros [Hv Ht] He Hle (t' & Hc & [= <-])%bind_ok.
  pose proof (close_at_valid _ _ _ He Ht Hc).
  apply close_at_ok in Hc as (-> & ? & ?); [|done].
  split; [done|]. unfold BiTemporal.is_visible_at. simpl.
  destruct (Range.contains (valid_time i) vt); simpl; [|done].
  unfold Range.contains. simpl. destruct (ts_leb (start (transaction_time i)) tt); simpl; [|done].
  destruct (ts_ltb tt e) eqn:E; [|by rewrite andb_false_r].
  rewrite andb_true_r. symmetry. ts_norm. ts_lia.
Qed.

(** supersession tiles transaction time.  Closing the current version at
    [e] and opening its successor at [e] leaves, for every transaction time
    from the old start on and below infinity, exactly one of the two recorded. *)
Theorem supersession_tiles i e i' (vt : HybridTimestamp) j tt :
  interval_valid i -> ts_valid e ->
  BiTemporal.is_currently_recorded i = true ->
  BiTemporal.close_transaction_time i e = Ok i' ->
  BiTemporal.with_valid_time vt e = Ok j ->
  (start (transaction_time i) <= tt)%ts -> (tt < TIMESTAMP_MAX)%ts ->
  BiTemporal.is_recorded_at i' tt = negb (BiTemporal.is_recorded_at j tt).
Proof.
  intros [_ Ht] He Hcur (t' & Hc & [= <-])%bind_ok Hj Hs Hm.
  apply close_at_ok in Hc as (-> & ? & _); [|by apply ts_valid_wf].
  unfold BiTemporal.with_valid_time in Hj.
  apply bind_ok in Hj as (rv & _ & Hj). apply bind_ok in Hj as (rt & Hrt & [= <-]).
  unfold Range.from in Hrt. case_hyp Hrt; simplify_eq.
  unfold BiTemporal.is_recorded_at, Range.contains. simpl.
  apply ts_leb_le in Hs. apply ts_ltb_lt in Hm. rewrite Hs, Hm. simpl.
  rewrite andb_true_r. unfold ts_leb. by rewrite negb_involutive.
Qed.

(** the duration of a closed range is its wallclock extent, saturated at
    [i64::MAX]; it is never negative and open ranges have none. *)
Theorem duration_micros_spec r :
  range_valid r ->
  match Range.duration_micros r with
  | None => Range.is_current r = true
  | Some d => Range.is_current r = false /\ 0 <= d <= i64_max /\
              d = Z.min i64_max (wallclock (end_ r) - wallclock (start r))
  end.
Proof.
  intros ([[] _] & [[] _] & Hle). unfold Range.duration_micros.
  case_goal; [done|]. unfold i64_checked_sub, checked.
  case_goal; split_and!; try done; bool_to_prop; ts_lia.
Qed.

(** the 48-byte interval encoding round-trips. *)
Theorem interval_roundtrip i (post : bytes) :
  interval_valid i ->
  BiTemporal.deserialize (BiTemporal.serialize i ++ post) = Ok (i, 48).
Proof.
  intros [Hv Ht]. unfold BiTemporal.deserialize. rewrite interval_serialize_app.
  assert ((blen ((Range.serialize (valid_time i) ++ Range.serialize (transaction_time i)) ++ post)
           <? 48) = false) as ->.
  { apply Z.ltb_ge. rewrite !blen_app, !blen_serialize_range. blia. }
  rewrite <-app_assoc.
  rewrite (slice_prefix (Range.serialize (valid_time i))) by (by rewrite blen_serialize_range).
  cbn [mbind res_bind expect].
  rewrite <-(app_nil_r (Range.serialize (valid_time i))) at 1.
  rewrite range_deserialize_app by done. cbn [mbind res_bind].
  rewrite (slice_app (Range.serialize (valid_time i)) (Range.serialize (transaction_time i)))
    by (by rewrite !blen_serialize_range).
  cbn [mbind res_bind expect].
  rewrite <-(app_nil_r (Range.serialize (transaction_time i))).
  rewrite range_deserialize_app by done. by destruct i.
Qed.
End TemporalProperties.

(** ** Concrete instances *)
Module TemporalWitness.

Definition ts (w : Z) : HybridTimestamp := mkTs w 0.
Definition r1 : TimeRange := mkRange (ts 100) (ts 200).
Definition r2 : TimeRange := mkRange (ts 150) TIMESTAMP_MAX.
Definition i0 : BiTemporalInterval := mkInterval r1 r2.

Lemma ts_ok w : in_i64 w -> w <= MAX_VALID_TIMESTAMP -> ts_valid (ts w).
Proof. intros. split; [split; simpl; mlia|by left]. Qed.
Lemma r1_valid : range_valid r1.
Proof. split_and!; [apply ts_ok; mlia..|left; unfold r1; ts_lia]. Qed.
Lemma r2_valid : range_valid r2.
Proof. split_and!; [apply ts_ok; mlia|apply ts_max_valid|left; unfold r2, TIMESTAMP_MAX; ts_lia]. Qed.
Lemma i0_valid : interval_valid i0.
Proof. split; [apply r1_valid|apply r2_valid]. Qed.
Lemma e_valid : ts_valid (ts 300).
Proof. apply ts_ok; mlia. Qed.

Lemma range_invariant_witness :
  Range.new (ts 100) (ts 200) = Ok r1 /\ safe (Range.new (ts 100) (ts 200)) range_valid.
Proof.
  split; [reflexivity|].
  apply (range_invariant (ts 100) (ts 200) r1 []).
  - apply (ts_ok 100); mlia.
  - apply (ts_ok 200); mlia.
  - apply r1_valid.
Defined.

Lemma overlaps_witness :
  exists t, ts_wf t /\ Range.contains r1 t = true /\ Range.contains r2 t = true.
Proof. apply (overlaps_iff r1 r2 r1_valid r2_valid). reflexivity. Defined.

Lemma contains_range_witness :
  Range.contains_range r2 r1 = false /\
  ~ (forall t, ts_wf t -> Range.contains r1 t = true -> Range.contains r2 t = true).
Proof.
  split; [reflexivity|]. intros H.
  apply (contains_range_iff r2 r1 r2_valid r1_valid) in H; [discriminate|reflexivity].
Defined.

Lemma close_visibility_witness :
  exists i', BiTemporal.close_transaction_time i0 (ts 300) = Ok i' /\
    BiTemporal.is_visible_at i' (ts 120) (ts 250) = true /\
    BiTemporal.is_visible_at i' (ts 120) (ts 300) = false.
Proof.
  eexists. split; [reflexivity|].
  assert ((ts 300 <= end_ (transaction_time i0))%ts) as Hle.
  { left. unfold TIMESTAMP_MAX. simpl. left. simpl. mlia. }
  split.
  - rewrite (proj2 (close_transaction_time_visibility i0 (ts 300) _ (ts 120) (ts 250)
      i0_valid (ts_valid_wf _ e_valid) Hle eq_refl)). reflexivity.
  - rewrite (proj2 (close_transaction_time_visibility i0 (ts 300) _ (ts 120) (ts 300)
      i0_valid (ts_valid_wf _ e_valid) Hle eq_refl)). reflexivity.
Defined.

Lemma supersession_witness :
  BiTemporal.is_recorded_at (mkInterval r1 (mkRange (ts 150) (ts 300))) (ts 299) = true.
Proof.
  rewrite (supersession_tiles i0 (ts 300) _ (ts 100)
    (mkInterval (mkRange (ts 100) TIMESTAMP_MAX) (mkRange (ts 300) TIMESTAMP_MAX)) (ts 299)
    i0_valid e_valid).
  - reflexivity.
  - reflexivity.
  - reflexivity.
  - reflexivity.
  - left. left. simpl. lia.
  - left. unfold TIMESTAMP_MAX. simpl. mlia.
Defined.

Lemma duration_witness :
  Range.duration_micros (mkRange (ts i64_min) (ts 200)) = Some i64_max /\
  0 <= i64_max <= i64_max.
Proof.
  assert (range_valid (mkRange (ts i64_min) (ts 200))) as Hv.
  { split_and!; [apply ts_ok; mlia..|left; left; simpl; mlia]. }
  pose proof (duration_micros_spec _ Hv) as H.
  change (Range.duration_micros (mkRange (ts i64_min) (ts 200))) with (Some i64_max) in *.
  split; [reflexivity|]. apply H.
Defined.

Lemma interval_roundtrip_witness :
  BiTemporal.deserialize (BiTemporal.serialize i0 ++ []) = Ok (i0, 48).
Proof. apply (interval_roundtrip i0 [] i0_valid). Defined.

End TemporalWitness.
