(* ===== verification/Ids.v ===== *)
(** * Identifiers and their generators: [src/core/id.rs]

    Validated node, edge and version ids, the structural tag bit of version
    ids, the atomic id and transaction-id generators, and the re-seeding of the
    version generator when persisted indexes are loaded
    ([src/storage/index_persistence/operations.rs]) or a log is replayed
    ([src/storage/recovery.rs]). *)

From S2P Require Import Prelude.
From S2P Require Import Bytes.
From S2P Require Import Errors.
From Stdlib Require Import Btauto.

(** The [u64] newtypes. *)
Definition NodeId := Z.
Definition EdgeId := Z.
Definition VersionId := Z.
Definition TxId := Z.

Definition MAX_VALID_ID : Z := u64_max - 1000.
#[export] Hint Unfold MAX_VALID_ID : machine.

Inductive EntityId := ENode (id : NodeId) | EEdge (id : EdgeId).

#[global] Instance EntityId_eq_dec : EqDecision EntityId.
Proof. intros [x|x] [y|y]; try (right; discriminate); destruct (decide (x = y :> Z)); [left|right|left|right]; congruence. Defined.

Module Id.

Definition new_node (id : Z) : res StorageError NodeId :=
  if MAX_VALID_ID <? id then Err (InvalidId id IdNode) else Ok id.
Definition new_edge (id : Z) : res StorageError EdgeId :=
  if MAX_VALID_ID <? id then Err (InvalidId id IdEdge) else Ok id.
Definition new_version (id : Z) : res StorageError VersionId :=
  if MAX_VALID_ID <? id then Err (InvalidId id IdVersion) else Ok id.

Definition STRUCTURAL_VERSION_TAG : Z := Z.shiftl 1 62.

(** [id & !STRUCTURAL_VERSION_TAG] on [u64] *)
Definition strip_structural_tag (id : Z) : Z :=
  Z.land id (u64_max - STRUCTURAL_VERSION_TAG).

Definition structural (sequence : Z) : res StorageError VersionId :=
  new_version (Z.lor (strip_structural_tag sequence) STRUCTURAL_VERSION_TAG).

Definition is_structural (id : VersionId) : bool :=
  negb (Z.land id STRUCTURAL_VERSION_TAG =? 0).

Definition is_node (e : EntityId) : bool :=
  match e with ENode _ => true | EEdge _ => false end.
Definition is_edge (e : EntityId) : bool :=
  match e with ENode _ => false | EEdge _ => true end.
Definition as_node (e : EntityId) : option NodeId :=
  match e with ENode id => Some id | EEdge _ => None end.
Definition as_edge (e : EntityId) : option EdgeId :=
  match e with ENode _ => None | EEdge id => Some id end.

(** *** [IdGenerator]: one [AtomicU64] *)
Record IdGenerator := mkGen { next_id : Z }.

Definition gen_new : IdGenerator := mkGen 0.
Definition with_start (s : Z) : IdGenerator := mkGen s.

(** [fetch_add] wraps; the range check is on the value fetched. *)
Definition next (g : IdGenerator) : IdGenerator * res StorageError Z :=
  let id := next_id g in
  let g' := mkGen (u64_wrapping_add id 1) in
  if MAX_VALID_ID <? id then (g', Err (InvalidId id IdGenerated)) else (g', Ok id).

Definition current (g : IdGenerator) : Z := next_id g.

Definition reset_to (g : IdGenerator) (value : Z) : IdGenerator :=
  mkGen (strip_structural_tag value).

(** The compare-and-swap loop.  [mem] lists the value of the atomic at each
    successive [compare_exchange], as concurrent operations left it; the result
    is [Some v] once an exchange succeeds or the loop condition fails, with [v]
    the value then in the atomic, and [None] while it is still retrying. *)
Fixpoint ensure_loop (min_value observed : Z) (mem : list Z) : option Z :=
  if observed <? min_value then
    match mem with
    | [] => None
    | actual :: mem =>
        if actual =? observed then Some min_value
        else ensure_loop min_value actual mem
    end
  else Some observed.

(** The call without interference: the loaded value is the one exchanged. *)
Definition ensure_at_least (g : IdGenerator) (min_value : Z) : IdGenerator :=
  let m := strip_structural_tag min_value in
  match ensure_loop m (next_id g) [next_id g] with
  | Some v => mkGen v
  | None => g
  end.

(** *** [TxIdGenerator] *)
Record TxIdGenerator := mkTxGen { counter : Z }.

Definition tx_gen_new : TxIdGenerator := mkTxGen 1.

(** The compare-and-swap loop of [next]; [mem] as for [ensure_loop]. *)
Fixpoint tx_next_loop (current : Z) (mem : list Z) : option (res StorageError (TxId * Z)) :=
  if current =? u64_max then Some Panic
  else match mem with
  | [] => None
  | v :: mem => if v =? current then Some (Ok (current, current + 1))
                else tx_next_loop v mem
  end.

Definition tx_next (g : TxIdGenerator) : TxIdGenerator * res StorageError TxId :=
  match tx_next_loop (counter g) [counter g] with
  | Some (Ok (id, c)) => (mkTxGen c, Ok id)
  | _ => (g, Panic)
  end.

Definition tx_current (g : TxIdGenerator) : TxId := u64_saturating_sub (counter g) 1.

(** *** Re-seeding *)

(** Loading the persisted graph: the maximum of the raw version ids of the
    current nodes and edges, plus one. *)
Definition seed_from_graph (g : IdGenerator) (node_versions edge_versions : list Z)
    : IdGenerator :=
  let m := foldl Z.max (foldl Z.max 0 node_versions) edge_versions in
  match node_versions, edge_versions with
  | [], [] => g
  | _, _ => reset_to g (u64_wrapping_add m 1)
  end.

(** Loading the persisted temporal index: likewise over all versions. *)
Definition seed_from_temporal (g : IdGenerator) (node_versions edge_versions : list Z)
    : IdGenerator :=
  match node_versions, edge_versions with
  | [], [] => g
  | _, _ =>
      let m := foldl Z.max (foldl Z.max 0 node_versions) edge_versions in
      ensure_at_least g (u64_wrapping_add m 1)
  end.

(** Log replay. *)
Definition bump_next_version_id (next_version_id : Z) (id : VersionId) : Z :=
  Z.max next_version_id (Z.min u64_max (strip_structural_tag id + 1)).

End Id.

(** ** Lemmas *)
Section IdLemmas.
Import Id.

Lemma strip_clearbit id : in_u64 id -> strip_structural_tag id = Z.clearbit id 62.
Proof.
  intros H. unfold strip_structural_tag.
  replace (u64_max - STRUCTURAL_VERSION_TAG) with (Z.ldiff (Z.ones 64) (2 ^ 62)) by reflexivity.
  unfold Z.clearbit. change (Z.shiftl 1 62) with (2 ^ 62).
  transitivity (Z.ldiff (Z.land id (Z.ones 64)) (2 ^ 62)).
  - apply Z.bits_inj. intros n. rewrite Z.land_spec, !Z.ldiff_spec, Z.land_spec. by btauto.
  - rewrite Z.land_ones by lia. rewrite Z.mod_small; [done|]. change (2 ^ 64) with (u64_max + 1). mlia.
Qed.

(** Stripping subtracts the tag bit when it is set and is the identity when it
    is not. *)
Lemma strip_cases id :
  in_u64 id ->
  (Z.testbit id 62 = true /\ strip_structural_tag id = id - 2 ^ 62) \/
  (Z.testbit id 62 = false /\ strip_structural_tag id = id).
Proof.
  intros H. rewrite strip_clearbit by done. rewrite Z.clearbit_spec'.
  destruct (Z.testbit id 62) eqn:E; [left|right]; split; try done.
  - symmetry. apply Z.sub_nocarry_ldiff. apply Z.bits_inj. intros n.
    rewrite Z.ldiff_spec, Z.bits_0, Z.pow2_bits_eqb by lia.
    destruct (62 =? n) eqn:En; bool_to_prop; subst; [by rewrite E|done].
  - apply Z.bits_inj. intros n. rewrite Z.ldiff_spec, Z.pow2_bits_eqb by lia.
    destruct (62 =? n) eqn:En; bool_to_prop; subst; [by rewrite E|].
    by rewrite andb_true_r.
Qed.

Lemma strip_range id : in_u64 id -> 0 <= strip_structural_tag id <= id.
Proof.
  intros H. assert (0 <= strip_structural_tag id).
  { rewrite strip_clearbit by done. rewrite Z.clearbit_spec'. apply Z.ldiff_nonneg. mlia. }
  destruct (strip_cases id H) as [[_ E]|[_ E]]; rewrite E in *; lia.
Qed.

Lemma strip_untagged id : in_u64 id -> Z.testbit id 62 = false -> strip_structural_tag id = id.
Proof. intros H E. destruct (strip_cases id H) as [[? _]|[_ ?]]; congruence. Qed.

Lemma strip_small id : 0 <= id < 2 ^ 62 -> strip_structural_tag id = id.
Proof.
  intros. apply strip_untagged; [mlia|]. destruct (decide (id = 0)) as [->|]; [done|].
  apply Z.bits_above_log2; [lia|]. apply Z.log2_lt_pow2; lia.
Qed.

Lemma is_structural_testbit id : is_structural id = Z.testbit id 62.
Proof.
  unfold is_structural, STRUCTURAL_VERSION_TAG. change (Z.shiftl 1 62) with (2 ^ 62).
  rewrite land_pow2_eqb by lia. by rewrite negb_involutive.
Qed.

Lemma structural_spec q v :
  in_u64 q -> structural q = Ok v ->
  is_structural v = true /\ strip_structural_tag v = strip_structural_tag q /\ in_u64 v.
Proof.
  intros Hq. unfold structural, new_version. case_goal; [done|]. intros [= <-].
  pose proof (strip_range q Hq). bool_to_prop.
  assert (in_u64 (Z.lor (strip_structural_tag q) STRUCTURAL_VERSION_TAG)) as Hu.
  { split; [apply Z.lor_nonneg; split; [lia|done]|mlia]. }
  split_and!; [| |done].
  - rewrite is_structural_testbit, Z.lor_spec. by rewrite orb_true_r.
  - rewrite (strip_clearbit (Z.lor _ _)), (strip_clearbit q) by done.
    apply Z.bits_inj. intros n. rewrite !Z.clearbit_eqb, Z.lor_spec.
    rewrite Z.clearbit_eqb. unfold STRUCTURAL_VERSION_TAG. change (Z.shiftl 1 62) with (2 ^ 62).
    rewrite Z.pow2_bits_eqb by lia. destruct (62 =? n); by btauto.
Qed.

Lemma ensure_loop_spec m o mem v :
  ensure_loop m o mem = Some v -> m <= v /\ (v = m \/ v = o \/ v ∈ mem).
Proof.
  revert o. induction mem as [|a mem IH]; intros o; simpl; case_goal; bool_to_prop;
    intros; simplify_eq; try (split; [lia|tauto]).
  revert H. case_goal; bool_to_prop; intros; simplify_eq; [split; [lia|tauto]|].
  apply IH in H as [? [?|[->|?]]]; split; try done; set_solver.
Qed.

Lemma ensure_at_least_max g m :
  next_id (ensure_at_least g m) = Z.max (next_id g) (strip_structural_tag m).
Proof.
  unfold ensure_at_least. simpl. rewrite Z.eqb_refl. case_goal; bool_to_prop; simpl; lia.
Qed.

Lemma foldl_max_le b l : b <= foldl Z.max b l /\ Forall (fun x => x <= foldl Z.max b l) l.
Proof.
  revert b. induction l as [|x l IH]; intros b; simpl; [split; [lia|constructor]|].
  destruct (IH (Z.max b x)) as [? ?]. split; [lia|]. constructor; [lia|done].
Qed.

Lemma foldl_max_in b l : foldl Z.max b l = b \/ foldl Z.max b l ∈ l.
Proof.
  revert b. induction l as [|x l IH]; intros b; simpl; [by left|].
  destruct (IH (Z.max b x)) as [E|?]; [rewrite E|set_solver].
  destruct (Z.max_spec b x) as [[_ ->]|[_ ->]]; [right; set_solver|by left].
Qed.
End IdLemmas.

(** ** Generators under interleaving

    The operations on the shared atomic, in the order their atomic steps took
    effect. *)
Module IdTrace.
Import Id.

Inductive gop := GNext | GEnsure (min_value : Z).

Fixpoint run (g : IdGenerator) (ops : list gop) : IdGenerator * list (res StorageError Z) :=
  match ops with
  | [] => (g, [])
  | GNext :: ops =>
      let '(g1, r) := next g in
      let '(g2, rs) := run g1 ops in (g2, r :: rs)
  | GEnsure m :: ops => run (ensure_at_least g m) ops
  end.

(** The ids that were handed out. *)
Definition issued (rs : list (res StorageError Z)) : list Z :=
  omap (fun r => match r with Ok id => Some id | _ => None end) rs.

Lemma run_issued_ge g ops g' rs :
  in_u64 (next_id g) -> run g ops = (g', rs) -> Forall (fun r => is_ok r = true) rs ->
  StronglySorted Z.lt (issued rs) /\
  Forall (fun id => next_id g <= id <= MAX_VALID_ID) (issued rs).
Proof.
  revert g g' rs. induction ops as [|[|m] ops IH]; intros g g' rs Hg; simpl.
  - intros [= <- <-] _. split; constructor.
  - unfold next. case_goal; destruct (run _ ops) as [g2 rs2] eqn:E; intros [= <- <-] Hok;
      apply Forall_cons in Hok as [Hok1 Hok]; [done|]. bool_to_prop.
    assert (next_id (mkGen (u64_wrapping_add (next_id g) 1)) = next_id g + 1) as En.
    { simpl. unfold u64_wrapping_add. rewrite Z.mod_small; [done|].
      change (2 ^ 64) with (u64_max + 1). mlia. }
    destruct (IH _ _ _ ltac:(rewrite En; mlia) E Hok) as [IH1 IH2]. rewrite En in IH2.
    simpl. split.
    + constructor; [done|]. eapply Forall_impl; [done|]. simpl. lia.
    + constructor; [lia|]. eapply Forall_impl; [done|]. simpl. lia.
  - intros E Hok. pose proof (ensure_at_least_max g m) as Em.
    pose proof (strip_range (Z.land m u64_max)) as Hs.
    assert (0 <= strip_structural_tag m <= u64_max) as Hm.
    { unfold strip_structural_tag. split; [apply Z.land_nonneg; right; done|].
      apply (Z.le_trans _ (u64_max - STRUCTURAL_VERSION_TAG)); [|done].
      apply Z.ldiff_le; [done|]. apply Z.bits_inj. intros n.
      rewrite Z.ldiff_spec, Z.land_spec, Z.bits_0. by btauto. }
    destruct (IH _ _ _ ltac:(rewrite Em; mlia) E Hok) as [IH1 IH2]. split; [done|].
    eapply Forall_impl; [done|]. simpl. rewrite Em. lia.
Qed.

End IdTrace.

(** ** Properties *)
Section IdProperties.
Import Id IdTrace.

(** until the generator reports exhaustion, the ids it hands out are
    strictly increasing (hence unique) and valid, whatever the interleaving of
    concurrent [next] and [ensure_at_least] calls. *)
Theorem ids_strictly_increasing (start : Z) (ops : list gop) (g' : IdGenerator)
    (rs : list (res StorageError Z)) :
  in_u64 start -> run (with_start start) ops = (g', rs) ->
  Forall (fun r => is_ok r = true) rs ->
  StronglySorted Z.lt (issued rs) /\
  Forall (fun id => start <= id <= MAX_VALID_ID) (issued rs).
Proof. intros Hs. by apply (run_issued_ge (with_start start)). Qed.

(** after exhaustion uniqueness is lost: [next] keeps incrementing the
    wrapped counter on the error path, so after the last valid id and 1000
    rejected calls the generator hands out id 0 again. *)
Theorem exhausted_generator_reissues :
  let '(_, rs) := run (with_start MAX_VALID_ID) (replicate 1003 GNext) in
  issued rs = [MAX_VALID_ID; 0; 1] /\ length rs = 1003%nat.
Proof. vm_compute. done. Qed.

(** structural ids keep their sequence number: the tag is recognised,
    stripping it recovers the (stripped) sequence, and stripping is idempotent. *)
Theorem structural_roundtrip (q v : Z) :
  in_u64 q -> structural q = Ok v ->
  is_structural v = true /\ strip_structural_tag v = strip_structural_tag q /\
  strip_structural_tag (strip_structural_tag v) = strip_structural_tag v /\
  is_structural (strip_structural_tag v) = false.
Proof.
  intros Hq Hv. destruct (structural_spec q v Hq Hv) as (? & ? & Hu).
  assert (Z.testbit (strip_structural_tag v) 62 = false) as Hb.
  { rewrite strip_clearbit by done. apply Z.clearbit_eq. }
  split_and!; try done.
  - apply strip_untagged; [|done]. pose proof (strip_range v Hu). mlia.
  - by rewrite is_structural_testbit.
Qed.

(** replaying a log seeds the version generator past every logged version,
    structural ones included: the next synthesized id exceeds the sequence number
    of each. *)
Theorem replay_seed_fresh (n0 : Z) (ids : list VersionId) :
  Forall (fun v => 0 <= v <= MAX_VALID_ID) ids ->
  n0 <= foldl bump_next_version_id n0 ids /\
  Forall (fun v => strip_structural_tag v < foldl bump_next_version_id n0 ids) ids.
Proof.
  revert n0. induction ids as [|v ids IH]; intros n0; simpl; [split; [lia|constructor]|].
  intros [Hv Hids]%Forall_cons. destruct (IH (bump_next_version_id n0 v) Hids) as [? ?].
  pose proof (strip_range v ltac:(mlia)).
  assert (n0 <= bump_next_version_id n0 v /\ strip_structural_tag v < bump_next_version_id n0 v)
    as [? ?] by (unfold bump_next_version_id; mlia).
  split; [lia|]. constructor; [lia|done].
Qed.

(** loading persisted indexes seeds the generator past every persisted
    version when none of them is structural. *)
Theorem index_seed_fresh (g : IdGenerator) (gn ge tn te : list Z) :
  Forall (fun v => 0 <= v < 2 ^ 62 - 1) (gn ++ ge ++ tn ++ te) ->
  gn ++ ge <> [] -> tn ++ te <> [] ->
  Forall (fun v => v < next_id (seed_from_temporal (seed_from_graph g gn ge) tn te))
         (gn ++ ge ++ tn ++ te).
Proof.
  intros Hall Hg Ht.
  assert (forall a b : list Z, Forall (fun v => 0 <= v < 2 ^ 62 - 1) (a ++ b) -> a ++ b <> [] ->
    let m := foldl Z.max (foldl Z.max 0 a) b in
    0 <= m < 2 ^ 62 - 1 /\ Forall (fun v => v <= m) (a ++ b)) as Hmax.
  { intros a b Hab _ m. subst m. rewrite <-foldl_app.
    destruct (foldl_max_le 0 (a ++ b)) as [? ?]. split; [|done].
    destruct (foldl_max_in 0 (a ++ b)) as [->|Hin]; [lia|].
    rewrite Forall_forall in Hab. by apply Hab. }
  rewrite app_assoc in Hall |- *. apply Forall_app in Hall as [H1 H2].
  destruct (Hmax gn ge H1 Hg) as [B1 F1], (Hmax tn te H2 Ht) as [B2 F2].
  assert (forall m, 0 <= m < 2 ^ 62 - 1 -> strip_structural_tag (u64_wrapping_add m 1) = m + 1) as Es.
  { intros m Hm. unfold u64_wrapping_add. rewrite Z.mod_small by lia. apply strip_small. lia. }
  assert (next_id (seed_from_graph g gn ge) = foldl Z.max (foldl Z.max 0 gn) ge + 1) as E1.
  { unfold seed_from_graph, reset_to. destruct gn, ge; [done|..]; simpl next_id; by rewrite Es. }
  assert (forall g0, next_id (seed_from_temporal g0 tn te) =
    Z.max (next_id g0) (foldl Z.max (foldl Z.max 0 tn) te + 1)) as E2.
  { intros g0. unfold seed_from_temporal. destruct tn, te; [done|..];
      rewrite ensure_at_least_max; by rewrite Es. }
  rewrite E2, E1. apply Forall_app. split; (eapply Forall_impl; [done|]); simpl; lia.
Qed.

(** but a structural version among the persisted ones defeats the maximum:
    its tag bit dominates, stripping it afterwards leaves only its own sequence
    number, and the next id handed out is one that is already persisted. *)
Theorem index_seed_structural_reissues :
  exists (gn tn : list Z) (id : Z),
    structural 5 = Ok (Z.lor 5 (2 ^ 62)) /\
    Z.lor 5 (2 ^ 62) ∈ tn /\ id ∈ gn /\ id ∈ tn /\
    snd (next (seed_from_temporal (seed_from_graph gen_new gn []) tn [])) = Ok id.
Proof.
  exists [Z.lor 5 (2 ^ 62); 6], [1; Z.lor 5 (2 ^ 62); 6], 6.
  split_and!; [reflexivity|set_solver|set_solver|set_solver|reflexivity].
Qed.

(** [ensure_at_least] under arbitrary interference: when the retry loop
    ends, the value is at least the requested minimum and is either that minimum
    or a value some thread had stored; without interference it ends at once with
    the maximum. *)
Theorem ensure_at_least_spec (m o : Z) (mem : list Z) (v : Z) (g : IdGenerator) (mv : Z) :
  ensure_loop m o mem = Some v ->
  m <= v /\ (v = m \/ v = o \/ v ∈ mem) /\
  next_id (ensure_at_least g mv) = Z.max (next_id g) (strip_structural_tag mv).
Proof.
  intros H. destruct (ensure_loop_spec _ _ _ _ H).
  split_and!; [done|done|apply ensure_at_least_max].
Qed.
End IdProperties.

(** ** Concrete instances *)
Module IdWitness.
Import Id IdTrace.

Lemma ids_increasing_witness :
  StronglySorted Z.lt (issued [Ok 3; Ok 10; Ok 11]).
Proof.
  apply (ids_strictly_increasing 3 [GNext; GEnsure 10; GNext; GNext] (mkGen 12)).
  - mlia.
  - reflexivity.
  - repeat constructor.
Defined.

Lemma structural_roundtrip_witness :
  is_structural (Z.lor 42 (2 ^ 62)) = true /\
  strip_structural_tag (Z.lor 42 (2 ^ 62)) = 42.
Proof.
  destruct (structural_roundtrip 42 (Z.lor 42 (2 ^ 62))) as (H1 & H2 & _);
    [mlia|reflexivity|]. split; [exact H1|]. rewrite H2. reflexivity.
Defined.

Lemma replay_seed_witness :
  Forall (fun v => strip_structural_tag v < foldl bump_next_version_id 1 [Z.lor 5 (2 ^ 62); 6])
         [Z.lor 5 (2 ^ 62); 6].
Proof.
  apply (replay_seed_fresh 1 [Z.lor 5 (2 ^ 62); 6]).
  repeat constructor; vm_compute; discriminate.
Defined.

Lemma index_seed_witness :
  Forall (fun v => v < next_id (seed_from_temporal (seed_from_graph gen_new [3] [4]) [3; 9] []))
         ([3] ++ [4] ++ [3; 9] ++ []).
Proof.
  apply (index_seed_fresh gen_new [3] [4] [3; 9] []).
  - repeat constructor; simpl; lia.
  - discriminate.
  - discriminate.
Defined.

Lemma ensure_witness :
  ensure_loop 10 3 [4; 4] = Some 10 /\ 10 <= 10.
Proof.
  split; [reflexivity|].
  exact (proj1 (ensure_at_least_spec 10 3 [4; 4] 10 gen_new 0 eq_refl)).
Defined.

End IdWitness.
