(* ===== verification/CommitClock.v ===== *)
(** * The commit clock: [src/core/commit_clock.rs]

    The 128-bit packed frontier word with its in-flight and reservation bits,
    the lock-free snapshot-read protocol and the serialized commit protocol, as
    the atomic steps of any number of readers and committers. *)

From S2P Require Import Prelude.
From S2P Require Import Bytes.
From S2P Require Import Errors.
From S2P Require Import Hlc.

(** ** The packed word *)
Module Clock.

(** [(ts.wallclock() as u64) ^ (1 << 63)], shifted over the logical counter *)
Definition pack (ts : HybridTimestamp) : Z :=
  let biased := Z.lxor (wallclock ts mod 2 ^ 64) (Z.shiftl 1 63) in
  Z.lor (Z.shiftl biased 32) (logical ts).

Definition unpack (v : Z) : HybridTimestamp :=
  let biased := Z.shiftr v 32 mod 2 ^ 64 in
  let wc := to_signed 64 (Z.lxor biased (Z.shiftl 1 63)) in
  let lg := Z.land v 4294967295 mod 2 ^ 32 in
  Hlc.new_unchecked wc lg.

Definition IN_FLIGHT : Z := Z.shiftl 1 127.
Definition RESERVED : Z := Z.shiftl 1 126.
(** [!(IN_FLIGHT | RESERVED)] on [u128] *)
Definition TS_MASK : Z := 2 ^ 128 - 1 - Z.lor IN_FLIGHT RESERVED.

Definition state_timestamp (state : Z) : HybridTimestamp := unpack (Z.land state TS_MASK).

(** The two atomics; the [serial] mutex is the lock of the step relation. *)
Record CommitClock := mkClock { frontier : Z; applied : Z }.

Definition new (ts : HybridTimestamp) : CommitClock := mkClock (pack ts) (pack ts).

Definition load (c : CommitClock) : HybridTimestamp := state_timestamp (frontier c).

(** One iteration of [snapshot_for_read] after [frontier.load()] returned
    [state]: return the timestamp it carries (parked on an in-flight commit, or
    sharing a live reservation), fail on a full logical counter, or go on to
    exchange [state] for a new reservation. *)
Inductive read_action :=
  | ReadReturn (ts : HybridTimestamp)
  | ReadFail (e : TemporalError)
  | ReadExchange (snapshot : HybridTimestamp) (new_word : Z).

Definition read_decide (state : Z) (now : HybridTimestamp) : read_action :=
  if negb (Z.land state IN_FLIGHT =? 0) then ReadReturn (state_timestamp state)
  else
    let last := state_timestamp state in
    if negb (Z.land state RESERVED =? 0) && ts_leb now last then ReadReturn last
    else if ts_ltb last now then ReadExchange now (Z.lor (pack now) RESERVED)
    else match u32_checked_add (logical last) 1 with
         | None => ReadFail (LogicalCounterOverflow (wallclock last) (logical last))
         | Some next_logical =>
             let snapshot := Hlc.new_unchecked (wallclock last) next_logical in
             ReadExchange snapshot (Z.lor (pack snapshot) RESERVED)
         end.

(** [compare_exchange]: the new cell and whether it was exchanged. *)
Definition compare_exchange (cell expected new_word : Z) : Z * bool :=
  if cell =? expected then (new_word, true) else (cell, false).

(** The word [advance_with] installs for the commit stamp it computed. *)
Definition advance_word (commit : HybridTimestamp) : Z := Z.lor (pack commit) IN_FLIGHT.

(** [fetch_and(!IN_FLIGHT)]: the second step of [publish_applied], and [drop]. *)
Definition clear_in_flight (cell : Z) : Z := Z.land cell (2 ^ 128 - 1 - IN_FLIGHT).

(** [raise_to], inside the lock. *)
Definition raise_to (c : CommitClock) (ts : HybridTimestamp) : CommitClock * bool :=
  if ts_leb ts (state_timestamp (frontier c)) then (c, false)
  else (mkClock (pack ts) (pack ts), true).

(** [reset_to], inside the lock. *)
Definition reset_to (c : CommitClock) (ts : HybridTimestamp) : CommitClock :=
  mkClock (pack ts) (pack ts).

End Clock.

(** ** The word as flags and a timestamp *)
Section ClockWord.
Import Clock.

Definition word (in_flight reserved : bool) (ts : HybridTimestamp) : Z :=
  (if in_flight then 2 ^ 127 else 0) + (if reserved then 2 ^ 126 else 0) +
  ((wallclock ts + 2 ^ 63) * 2 ^ 32 + logical ts).

Lemma lor_add a b n :
  0 <= n -> 0 <= b < 2 ^ n -> Z.lor (Z.shiftl a n) b = a * 2 ^ n + b.
Proof.
  intros Hn Hb. rewrite <-Z.shiftl_mul_pow2 by done.
  assert (Z.land (Z.shiftl a n) b = 0) as E.
  { apply Z.bits_inj_0. intros k. rewrite Z.land_spec.
    destruct (Z_lt_le_dec k n).
    - by rewrite Z.shiftl_spec_low.
    - destruct (decide (b = 0)) as [->|]; [by rewrite Z.bits_0, andb_false_r|].
      rewrite (Z.bits_above_log2 b), andb_false_r; [done|lia|].
      apply Z.log2_lt_pow2; [lia|]. apply (Z.lt_le_trans _ (2 ^ n)); [lia|].
      apply Z.pow_le_mono_r; lia. }
  rewrite <-Z.lxor_lor by done. by rewrite Z.add_nocarry_lxor.
Qed.

Lemma bias_flip x : in_i64 x -> Z.lxor (x mod 2 ^ 64) (Z.shiftl 1 63) = x + 2 ^ 63.
Proof.
  intros Hx. change (Z.shiftl 1 63) with (2 ^ 63). autounfold with machine in Hx.
  assert (forall y, 0 <= y < 2 ^ 63 -> Z.lxor (2 ^ 63) y = 2 ^ 63 + y) as Hxor.
  { intros y Hy. pose proof (lor_add 1 y 63 ltac:(lia) Hy) as H.
    assert (Z.land (2 ^ 63) y = 0) as E.
    { apply Z.bits_inj_0. intros k. rewrite Z.land_spec, Z.pow2_bits_eqb by lia.
      destruct (63 =? k) eqn:Ek; [|done]. bool_to_prop. subst.
      destruct (decide (y = 0)) as [->|]; [done|].
      rewrite (Z.bits_above_log2 y); [done|lia|]. apply Z.log2_lt_pow2; lia. }
    rewrite Z.add_nocarry_lxor by done. done. }
  destruct (Z_lt_le_dec x 0).
  - assert (x mod 2 ^ 64 = 2 ^ 63 + (x + 2 ^ 63)) as ->.
    { replace (2 ^ 63 + (x + 2 ^ 63)) with (x + 1 * 2 ^ 64) by lia.
      rewrite <-(Z.mod_small (x + 1 * 2 ^ 64) (2 ^ 64)) by lia. by rewrite Z.mod_add by lia. }
    rewrite <-Hxor by lia. rewrite (Z.lxor_comm (2 ^ 63)), Z.lxor_assoc, Z.lxor_nilpotent.
    by rewrite Z.lxor_0_r.
  - rewrite Z.mod_small by lia. rewrite Z.lxor_comm, Hxor by lia. lia.
Qed.

Lemma bias_unflip x : in_i64 x -> to_signed 64 (Z.lxor (x + 2 ^ 63) (Z.shiftl 1 63)) = x.
Proof.
  intros Hx. rewrite <-(bias_flip x Hx) at 1.
  rewrite Z.lxor_assoc, Z.lxor_nilpotent, Z.lxor_0_r.
  pose proof (from_to_le_i64 x Hx) as H. unfold from_le_i64, from_le, to_le in H.
  by rewrite le_combine_split in H.
Qed.

Lemma pack_word ts : ts_wf ts -> pack ts = word false false ts.
Proof.
  intros [Hw Hl]. unfold pack, word. rewrite bias_flip by done.
  rewrite lor_add by (try lia; change (2 ^ 32) with (u32_max + 1); mlia). lia.
Qed.

Lemma word_range i r ts : ts_wf ts -> 0 <= word i r ts < 2 ^ 128.
Proof. intros [Hw Hl]. unfold word. autounfold with machine in *. destruct i, r; lia. Qed.

Lemma unpack_word ts : ts_wf ts -> unpack (word false false ts) = ts.
Proof.
  intros [Hw Hl]. unfold unpack, word, Hlc.new_unchecked. rewrite !Z.add_0_l.
  change 4294967295 with (Z.ones 32). rewrite Z.land_ones by lia.
  rewrite Z.shiftr_div_pow2 by lia.
  rewrite Z.div_add_l, Z.div_small, Z.add_0_r by (autounfold with machine in *; lia).
  rewrite (Z.mod_small (wallclock ts + _)) by (autounfold with machine in *; lia).
  rewrite bias_unflip by done. rewrite Z.mod_mod by lia.
  rewrite Z.add_comm, Z.mod_add, Z.mod_small by (autounfold with machine in *; lia).
  by destruct ts.
Qed.

Lemma word_split i r ts :
  ts_wf ts ->
  let low := (wallclock ts + 2 ^ 63) * 2 ^ 32 + logical ts in
  0 <= low < 2 ^ 96 /\
  word i r ts = (2 * Z.b2z i + Z.b2z r) * 2 ^ 126 + low /\
  word i r ts = Z.b2z i * 2 ^ 127 + (Z.b2z r * 2 ^ 126 + low).
Proof.
  intros [Hw Hl] low. autounfold with machine in *. unfold word. subst low.
  destruct i, r; simpl Z.b2z; lia.
Qed.

Lemma state_timestamp_word i r ts : ts_wf ts -> state_timestamp (word i r ts) = ts.
Proof.
  intros Hts. unfold state_timestamp. rewrite <-(unpack_word ts Hts) at 2. f_equal.
  change TS_MASK with (Z.ones 126). rewrite Z.land_ones by lia.
  destruct (word_split i r ts Hts) as (? & -> & _).
  destruct (word_split false false ts Hts) as (_ & -> & _).
  rewrite Z.add_comm, Z.mod_add, Z.mod_small by lia. simpl. lia.
Qed.

Lemma in_flight_word i r ts : ts_wf ts -> (Z.land (word i r ts) IN_FLIGHT =? 0) = negb i.
Proof.
  intros Hts. change IN_FLIGHT with (2 ^ 127). rewrite land_pow2_eqb by lia.
  destruct (word_split i r ts Hts) as (? & _ & ->).
  rewrite testbit_add_mul by (destruct r; simpl Z.b2z; lia). by destruct i.
Qed.

Lemma reserved_word i r ts : ts_wf ts -> (Z.land (word i r ts) RESERVED =? 0) = negb r.
Proof.
  intros Hts. change RESERVED with (2 ^ 126). rewrite land_pow2_eqb by lia.
  destruct (word_split i r ts Hts) as (? & -> & _).
  rewrite testbit_add_mul by lia. by destruct i, r.
Qed.

Lemma flag_word ts n : ts_wf ts -> 96 <= n -> Z.lor (pack ts) (2 ^ n) = 2 ^ n + pack ts.
Proof.
  intros Hts Hn. rewrite Z.lor_comm. rewrite <-(Z.mul_1_l (2 ^ n)) at 1 2.
  rewrite <-Z.shiftl_mul_pow2 at 1 by lia. apply lor_add; [lia|].
  rewrite pack_word by done. destruct (word_split false false ts Hts) as (? & -> & _).
  assert (2 ^ 96 <= 2 ^ n) by (apply Z.pow_le_mono_r; lia). simpl Z.b2z. lia.
Qed.

Lemma reserve_word ts : ts_wf ts -> Z.lor (pack ts) RESERVED = word false true ts.
Proof.
  intros Hts. change RESERVED with (2 ^ 126). rewrite flag_word by (done || lia).
  rewrite pack_word by done. unfold word. lia.
Qed.

Lemma advance_word_word ts : ts_wf ts -> advance_word ts = word true false ts.
Proof.
  intros Hts. unfold advance_word. change IN_FLIGHT with (2 ^ 127).
  rewrite flag_word by (done || lia). rewrite pack_word by done. unfold word. lia.
Qed.

Lemma clear_in_flight_word i r ts :
  ts_wf ts -> clear_in_flight (word i r ts) = word false r ts.
Proof.
  intros Hts. unfold clear_in_flight.
  change (2 ^ 128 - 1 - IN_FLIGHT) with (Z.ones 127). rewrite Z.land_ones by lia.
  destruct (word_split i r ts Hts) as (? & _ & ->).
  destruct (word_split false r ts Hts) as (_ & _ & ->).
  rewrite Z.add_comm, Z.mod_add, Z.mod_small by (destruct r; simpl Z.b2z; lia).
  simpl Z.b2z. lia.
Qed.

Lemma word_inj i r ts i' r' ts' :
  ts_wf ts -> ts_wf ts' -> word i r ts = word i' r' ts' -> i = i' /\ r = r' /\ ts = ts'.
Proof.
  intros H H' E. split_and!.
  - pose proof (in_flight_word i r ts H) as E1. rewrite E, in_flight_word in E1 by done.
    by destruct i, i'.
  - pose proof (reserved_word i r ts H) as E1. rewrite E, reserved_word in E1 by done.
    by destruct r, r'.
  - by rewrite <-(state_timestamp_word i r ts H), E, state_timestamp_word.
Qed.

(** The packed form loses nothing and orders like the timestamps: [unpack]
    inverts [pack] whatever flags are set on the word, and unsigned comparison
    of packed words is [HybridTimestamp]'s [Ord]. *)
Theorem pack_order_iso (a b : HybridTimestamp) :
  ts_wf a -> ts_wf b ->
  unpack (pack a) = a /\
  (forall flags, flags ∈ [0; IN_FLIGHT; RESERVED] ->
     state_timestamp (Z.lor (pack a) flags) = a) /\
  (pack a < pack b <-> (a < b)%ts).
Proof.
  intros Ha Hb. split_and!.
  - by rewrite pack_word, unpack_word.
  - intros f. rewrite !elem_of_cons, elem_of_nil. intros [->|[->|[->|[]]]].
    + rewrite Z.lor_0_r, pack_word by done. by apply state_timestamp_word.
    + change (Z.lor (pack a) IN_FLIGHT) with (advance_word a).
      rewrite advance_word_word by done. by apply state_timestamp_word.
    + rewrite reserve_word by done. by apply state_timestamp_word.
  - rewrite !pack_word by done. unfold word, ts_lt. destruct Ha, Hb.
    autounfold with machine in *. lia.
Qed.
End ClockWord.

(** ** The protocol as interleaved atomic steps *)
Module Protocol.
Import Clock.

(** Where the holder of [serial] stands: it took the lock, [advance_with] loaded
    the frontier, its exchange succeeded, its writes are in storage,
    [publish_applied] stored [applied], and then cleared the bit. *)
Inductive phase :=
  | Locked
  | Observed (w : Z)
  | InFlight (c : HybridTimestamp)
  | Applied (c : HybridTimestamp)
  | Stored (c : HybridTimestamp)
  | Published.

(** A reader inside the loop of [snapshot_for_read]: the word it loaded and, as
    history, what was published, in storage and issued at that load. *)
Record observation := mkObs {
  obs_word : Z;
  obs_published : list HybridTimestamp;
  obs_storage : list HybridTimestamp;
  obs_issued : list HybridTimestamp }.

(** A snapshot handed out: its timestamp, the commits published when the
    reader started its last iteration, and the commits in storage and issued at
    the atomic step that fixed the timestamp. *)
Record snapshot := mkSnap {
  snap_ts : HybridTimestamp;
  snap_published : list HybridTimestamp;
  snap_storage : list HybridTimestamp;
  snap_issued : list HybridTimestamp }.

Record sys := mkSys {
  clk : CommitClock;
  holder : option phase;
  readers : gmap Z observation;
  storage : list HybridTimestamp;
  published : list HybridTimestamp;
  issued : list HybridTimestamp;
  snaps : list snapshot }.

Definition init (ts : HybridTimestamp) : sys := mkSys (new ts) None ∅ [] [] [] [].

Definition set_frontier (w : Z) (c : CommitClock) : CommitClock := mkClock w (applied c).

Section Steps.
(** The closure a commit passes to [advance_with]: the wallclock reading it
    takes and the frontier it is handed. *)
Variable compute : Z -> HybridTimestamp -> res TemporalError HybridTimestamp.

Inductive step : sys -> sys -> Prop :=
| r_load s i : readers s !! i = None ->
    step s (mkSys (clk s) (holder s)
      (<[i := mkObs (frontier (clk s)) (published s) (storage s) (issued s)]> (readers s))
      (storage s) (published s) (issued s) (snaps s))
| r_return s i o now ts : readers s !! i = Some o -> ts_wf now ->
    read_decide (obs_word o) now = ReadReturn ts ->
    step s (mkSys (clk s) (holder s) (delete i (readers s))
      (storage s) (published s) (issued s)
      (mkSnap ts (obs_published o) (obs_storage o) (obs_issued o) :: snaps s))
| r_fail s i o now e : readers s !! i = Some o -> ts_wf now ->
    read_decide (obs_word o) now = ReadFail e ->
    step s (mkSys (clk s) (holder s) (delete i (readers s))
      (storage s) (published s) (issued s) (snaps s))
| r_exchange s i o now ts w cell : readers s !! i = Some o -> ts_wf now ->
    read_decide (obs_word o) now = ReadExchange ts w ->
    compare_exchange (frontier (clk s)) (obs_word o) w = (cell, true) ->
    step s (mkSys (set_frontier cell (clk s)) (holder s) (delete i (readers s))
      (storage s) (published s) (issued s)
      (mkSnap ts (obs_published o) (storage s) (issued s) :: snaps s))
  (** the exchange failed, spuriously or not: back to the head of the loop *)
| r_retry s i o now ts w : readers s !! i = Some o -> ts_wf now ->
    read_decide (obs_word o) now = ReadExchange ts w ->
    step s (mkSys (clk s) (holder s) (delete i (readers s))
      (storage s) (published s) (issued s) (snaps s))
| c_lock s : holder s = None ->
    step s (mkSys (clk s) (Some Locked) (readers s)
      (storage s) (published s) (issued s) (snaps s))
| c_load s : holder s = Some Locked ->
    step s (mkSys (clk s) (Some (Observed (frontier (clk s)))) (readers s)
      (storage s) (published s) (issued s) (snaps s))
| c_advance s w now c cell : holder s = Some (Observed w) ->
    in_i64 now -> compute now (state_timestamp w) = Ok c ->
    compare_exchange (frontier (clk s)) w (advance_word c) = (cell, true) ->
    step s (mkSys (set_frontier cell (clk s)) (Some (InFlight c)) (readers s)
      (storage s) (published s) (c :: issued s) (snaps s))
| c_retry s w : holder s = Some (Observed w) ->
    step s (mkSys (clk s) (Some Locked) (readers s)
      (storage s) (published s) (issued s) (snaps s))
| c_apply s c : holder s = Some (InFlight c) ->
    step s (mkSys (clk s) (Some (Applied c)) (readers s)
      (c :: storage s) (published s) (issued s) (snaps s))
| c_store s c : holder s = Some (Applied c) ->
    step s (mkSys (mkClock (frontier (clk s)) (pack c)) (Some (Stored c)) (readers s)
      (storage s) (published s) (issued s) (snaps s))
| c_clear s c : holder s = Some (Stored c) ->
    step s (mkSys (set_frontier (clear_in_flight (frontier (clk s))) (clk s))
      (Some Published) (readers s)
      (storage s) (c :: published s) (issued s) (snaps s))
  (** [drop] with [in_flight] still set: the commit aborted *)
| c_abort s c : holder s = Some (InFlight c) \/ holder s = Some (Applied c) ->
    step s (mkSys (set_frontier (clear_in_flight (frontier (clk s))) (clk s))
      None (readers s) (storage s) (published s) (issued s) (snaps s))
  (** [drop] otherwise: a [compute] error, an early return, or after publication *)
| c_unlock s h : holder s = Some h ->
    (h = Locked \/ (exists w, h = Observed w) \/ h = Published) ->
    step s (mkSys (clk s) None (readers s)
      (storage s) (published s) (issued s) (snaps s)).

(** [raise_to] is a load and check, then the stores; the window between them
    is open to readers, which do not take the lock. *)
Inductive raise_step : sys * option HybridTimestamp -> sys * option HybridTimestamp -> Prop :=
| raise_other s s' o : step s s' -> holder s' = None \/ o = None -> raise_step (s, o) (s', o)
| raise_check s ts : holder s = None ->
    (raise_to (clk s) ts).2 = true -> raise_step (s, None) (s, Some ts)
| raise_store s ts : raise_step (s, Some ts)
    (mkSys (mkClock (pack ts) (pack ts)) (holder s) (readers s)
      (storage s) (published s) (issued s) (snaps s), None).

(** *** The invariant *)
Hypothesis compute_gt : forall now base c,
  in_i64 now -> ts_wf base -> compute now base = Ok c -> ts_wf c /\ (base < c)%ts.

Definition flag (h : option phase) : bool :=
  match h with Some (InFlight _ | Applied _ | Stored _) => true | _ => false end.

(** What a timestamp fixed at an earlier moment keeps: commits issued since are
    strictly above it, commits stored since are not below it. *)
Definition covered (s : sys) (top T : HybridTimestamp) (st iss : list HybridTimestamp) : Prop :=
  (T <= top)%ts /\
  (forall c, c ∈ issued s -> c ∈ iss \/ (T < c)%ts) /\
  (forall c, c ∈ storage s -> c ∈ st \/ (T <= c)%ts).

Definition obs_ok (s : sys) (top : HybridTimestamp) (o : observation) : Prop :=
  exists i r t, obs_word o = word i r t /\ ts_wf t /\
    covered s top t (obs_storage o) (obs_issued o) /\
    obs_published o ⊆ published s /\
    (forall c, c ∈ obs_published o -> (c <= t)%ts /\ (i || r = true -> (c < t)%ts)).

Definition snap_ok (s : sys) (top : HybridTimestamp) (p : snapshot) : Prop :=
  covered s top (snap_ts p) (snap_storage p) (snap_issued p) /\
  snap_published p ⊆ published s /\
  (forall c, c ∈ snap_published p -> (c < snap_ts p)%ts).

Record inv_at (s : sys) (r : bool) (top : HybridTimestamp) : Prop := {
  inv_wf : ts_wf top;
  inv_word : frontier (clk s) = word (flag (holder s)) r top;
  inv_phase : forall c, (holder s = Some (InFlight c) \/ holder s = Some (Applied c) \/
                         holder s = Some (Stored c)) -> c = top /\ r = false /\ c ∈ issued s;
  inv_stored : forall c, holder s = Some (Applied c) \/ holder s = Some (Stored c) ->
                         c ∈ storage s;
  inv_issued : forall c, c ∈ issued s -> (c <= top)%ts /\ (r = true -> (c < top)%ts);
  inv_storage : storage s ⊆ issued s;
  inv_published : published s ⊆ storage s;
  inv_flag : flag (holder s) = true -> forall c, c ∈ published s -> (c < top)%ts;
  inv_readers : forall i o, readers s !! i = Some o -> obs_ok s top o;
  inv_snaps : forall p, p ∈ snaps s -> snap_ok s top p;
  inv_order : StronglySorted (fun a b => (b < a)%ts) (issued s) }.

Definition inv (s : sys) : Prop := exists r top, inv_at s r top.

(** *** Preservation *)

(** A step that only adds commits above the old frontier keeps every fact fixed
    before it. *)
Record grows (s s' : sys) (top top' : HybridTimestamp) : Prop := {
  grow_top : (top <= top')%ts;
  grow_issued : forall c, c ∈ issued s' -> c ∈ issued s \/ (top < c)%ts;
  grow_storage : forall c, c ∈ storage s' -> c ∈ storage s \/ (top <= c)%ts;
  grow_published : published s ⊆ published s' }.

Lemma grows_same s s' top :
  storage s' = storage s -> published s' = published s -> issued s' = issued s ->
  grows s s' top top.
Proof. intros E1 E2 E3. split; rewrite ?E1, ?E2, ?E3; [done|auto..]. Qed.

Lemma covered_grows s s' top top' T st iss :
  grows s s' top top' -> covered s top T st iss -> covered s' top' T st iss.
Proof.
  intros [Ht Hi Hs _] (HT & Ci & Cs). split_and!; [by etrans| |]; intros c Hc.
  - destruct (Hi c Hc) as [|]; [by apply Ci|]. right. by eapply ts_le_lt_trans.
  - destruct (Hs c Hc) as [|]; [by apply Cs|]. right. by etrans.
Qed.

Lemma obs_grows s s' top top' o :
  grows s s' top top' -> obs_ok s top o -> obs_ok s' top' o.
Proof.
  intros G (i & r & t & ? & ? & ? & ? & ?). exists i, r, t.
  split_and!; eauto using covered_grows. etrans; [done|apply G].
Qed.

Lemma snap_grows s s' top top' p :
  grows s s' top top' -> snap_ok s top p -> snap_ok s' top' p.
Proof.
  intros G (? & ? & ?). split_and!; eauto using covered_grows. etrans; [done|apply G].
Qed.

(** A fresh claim about the present is covered by it. *)
Lemma covered_now s top T : (T <= top)%ts -> covered s top T (storage s) (issued s).
Proof. intros. unfold covered. split_and!; auto. Qed.

Lemma published_issued s r top c : inv_at s r top -> c ∈ published s -> c ∈ issued s.
Proof. intros I Hc. by apply (inv_storage _ _ _ I), (inv_published _ _ _ I). Qed.

Lemma exchange_true cell expected w cell' :
  compare_exchange cell expected w = (cell', true) -> cell = expected /\ cell' = w.
Proof. unfold compare_exchange. intros H. case_hyp H; simplify_eq; bool_to_prop; auto. Qed.

(** What one iteration of [snapshot_for_read] decides on a well-formed word. *)
Lemma read_decide_return i r t now ts :
  ts_wf t -> read_decide (word i r t) now = ReadReturn ts -> ts = t /\ i || r = true.
Proof.
  intros Ht. unfold read_decide.
  rewrite in_flight_word, reserved_word, state_timestamp_word by done.
  rewrite !negb_involutive. intros H.
  repeat (case_hyp H; simplify_eq/=; auto). bool_to_prop; subst; auto using orb_true_r.
Qed.

Lemma read_decide_exchange i r t now ts w :
  ts_wf t -> ts_wf now -> read_decide (word i r t) now = ReadExchange ts w ->
  i = false /\ ts_wf ts /\ (t < ts)%ts /\ w = word false true ts.
Proof.
  intros Ht Hn. unfold read_decide.
  rewrite in_flight_word, reserved_word, state_timestamp_word by done.
  rewrite !negb_involutive. destruct i; [done|]. intros H.
  repeat (case_hyp H; simplify_eq/=).
  - rewrite reserve_word by done. split_and!; auto. by ts_norm.
  - match goal with H : u32_checked_add _ _ = Some _ |- _ => apply checked_some in H end.
    assert (ts_wf (Hlc.new_unchecked (wallclock t) z)).
    { destruct Ht. split; simpl; [done|]. mlia. }
    rewrite reserve_word by done. split_and!; auto. destruct Ht. ts_lia.
Qed.

(** Steps that leave the clock cell and the commit history alone. *)
Lemma inv_frame s s' r top :
  inv_at s r top -> frontier (clk s') = frontier (clk s) ->
  storage s' = storage s -> published s' = published s -> issued s' = issued s ->
  flag (holder s') = flag (holder s) ->
  (forall c, (holder s' = Some (InFlight c) \/ holder s' = Some (Applied c) \/
              holder s' = Some (Stored c)) ->
             (holder s = Some (InFlight c) \/ holder s = Some (Applied c) \/
              holder s = Some (Stored c))) ->
  (forall c, holder s' = Some (Applied c) \/ holder s' = Some (Stored c) ->
             holder s = Some (Applied c) \/ holder s = Some (Stored c)) ->
  (forall i o, readers s' !! i = Some o -> readers s !! i = Some o \/ obs_ok s top o) ->
  (forall p, p ∈ snaps s' -> p ∈ snaps s \/ snap_ok s top p) ->
  inv_at s' r top.
Proof.
  intros [] Ef Es Ep Ei Efl Hph Hst Hr Hsn.
  assert (grows s s' top top) as G by by apply grows_same.
  split; rewrite ?Ef, ?Es, ?Ep, ?Ei, ?Efl; auto.
  - intros i o Ho. eapply obs_grows; [done|]. destruct (Hr i o Ho); eauto.
  - intros p Hp. eapply snap_grows; [done|]. destruct (Hsn p Hp); eauto.
Qed.

Lemma obs_now s r top :
  inv_at s r top ->
  obs_ok s top (mkObs (frontier (clk s)) (published s) (storage s) (issued s)).
Proof.
  intros I. exists (flag (holder s)), r, top. simpl.
  split_and!; [apply I|apply I|by apply covered_now|done|].
  intros c Hc. destruct (inv_issued _ _ _ I c) as [? Hr]; [by eapply published_issued|].
  split; [done|]. intros E. destruct (flag (holder s)) eqn:Hf; simpl in E; [|by apply Hr].
  by apply (inv_flag _ _ _ I).
Qed.

Lemma snap_return s r top o now ts :
  inv_at s r top -> obs_ok s top o -> read_decide (obs_word o) now = ReadReturn ts ->
  snap_ok s top (mkSnap ts (obs_published o) (obs_storage o) (obs_issued o)).
Proof.
  intros I (i & rv & t & Hw & Ht & Hc & Hp & Hlt) E. rewrite Hw in E.
  apply read_decide_return in E as [-> Hir]; [|done].
  split_and!; simpl; auto. intros c Hin. by apply Hlt.
Qed.

(** A reservation replaces an idle frontier by a greater one. *)
Lemma inv_reserve s r top i o now ts w :
  inv_at s r top -> readers s !! i = Some o -> ts_wf now ->
  read_decide (obs_word o) now = ReadExchange ts w -> frontier (clk s) = obs_word o ->
  inv_at (mkSys (set_frontier w (clk s)) (holder s) (delete i (readers s))
    (storage s) (published s) (issued s)
    (mkSnap ts (obs_published o) (storage s) (issued s) :: snaps s)) true ts.
Proof.
  intros I Hi Hn E Hf. rewrite <-Hf, (inv_word _ _ _ I) in E.
  apply read_decide_exchange in E as (Hfl & Hts & Hlt & ->); [|apply I|done].
  set (s' := mkSys _ _ _ _ _ _ _).
  assert (grows s s' top ts) as G by (split; simpl; auto using ts_lt_le).
  assert (forall c, c ∈ issued s -> (c < ts)%ts) as Hall.
  { intros c Hc. eapply ts_le_lt_trans; [apply (inv_issued _ _ _ I _ Hc)|done]. }
  split; simpl; try apply I; auto using ts_lt_le.
  - by rewrite Hfl.
  - intros c Hc. exfalso. revert Hfl. by destruct Hc as [->|[->| ->]].
  - by rewrite Hfl.
  - intros j p Hj. apply lookup_delete_Some in Hj as [_ Hj].
    eapply obs_grows; [exact G|]. by eapply inv_readers.
  - intros p [->|Hp]%elem_of_cons.
    + destruct (inv_readers _ _ _ I _ _ Hi) as (? & ? & ? & ? & ? & ? & Hp & _).
      split_and!; simpl; [|done|]; [by apply (covered_now s')|].
      intros c Hc. apply Hall. by eapply published_issued, Hp.
    + eapply snap_grows; [exact G|]. by apply I.
Qed.

(** A commit stamp replaces an idle frontier by a greater, in-flight one. *)
Lemma inv_advance s r top w now c :
  inv_at s r top -> holder s = Some (Observed w) -> in_i64 now ->
  compute now (state_timestamp w) = Ok c -> frontier (clk s) = w ->
  inv_at (mkSys (set_frontier (advance_word c) (clk s)) (Some (InFlight c)) (readers s)
    (storage s) (published s) (c :: issued s) (snaps s)) false c.
Proof.
  intros I Hh Hn E Hf. rewrite <-Hf, (inv_word _ _ _ I) in E.
  rewrite state_timestamp_word in E by apply I.
  apply compute_gt in E as [Hc Hlt]; [|done|apply I].
  set (s' := mkSys _ _ _ _ _ _ _).
  assert (grows s s' top c) as G.
  { split; simpl; auto using ts_lt_le. intros d [->|]%elem_of_cons; auto. }
  assert (forall d, d ∈ issued s -> (d < c)%ts) as Hall.
  { intros d Hd. eapply ts_le_lt_trans; [apply (inv_issued _ _ _ I _ Hd)|done]. }
  split; simpl; auto.
  - by rewrite advance_word_word.
  - intros d [?|[?|?]]; simplify_eq. split_and!; [done..|left].
  - intros d [?|?]; simplify_eq.
  - intros d [->|Hd]%elem_of_cons; (split; [|done]); [reflexivity|]. by apply ts_lt_le, Hall.
  - intros d Hd. right. by apply (inv_storage _ _ _ I).
  - apply I.
  - intros _ d Hd. by eapply Hall, published_issued.
  - intros j p Hj. eapply obs_grows; [exact G|]. by eapply inv_readers.
  - intros p Hp. eapply snap_grows; [exact G|]. by apply I.
  - constructor; [apply I|]. by apply Forall_forall.
Qed.

Lemma inv_apply s r top c :
  inv_at s r top -> holder s = Some (InFlight c) ->
  inv_at (mkSys (clk s) (Some (Applied c)) (readers s)
      (c :: storage s) (published s) (issued s) (snaps s)) r top.
Proof.
  intros I Hh. destruct (inv_phase _ _ _ I c) as (-> & -> & Hin); [by left|].
  set (s' := mkSys _ _ _ _ _ _ _).
  assert (grows s s' top top) as G.
  { split; simpl; auto; [reflexivity|]. intros d [->|]%elem_of_cons; auto. right. reflexivity. }
  split; simpl; try apply I.
  - rewrite (inv_word _ _ _ I). by rewrite Hh.
  - intros d [?|[?|?]]; simplify_eq. auto.
  - intros d [?|?]; simplify_eq. left.
  - intros d [->|Hd]%elem_of_cons; [done|]. by apply (inv_storage _ _ _ I).
  - intros d Hd. right. by apply (inv_published _ _ _ I).
  - intros _. apply (inv_flag _ _ _ I). by rewrite Hh.
  - intros j p Hj. eapply obs_grows; [exact G|]. by eapply inv_readers.
  - intros p Hp. eapply snap_grows; [exact G|]. by apply I.
Qed.

(** Clearing the bit, by publication or by an abort. *)
Lemma inv_clear s r top h pub :
  inv_at s r top -> flag h = false -> flag (holder s) = true ->
  published s ⊆ pub -> pub ⊆ storage s ->
  inv_at (mkSys (set_frontier (clear_in_flight (frontier (clk s))) (clk s)) h (readers s)
      (storage s) pub (issued s) (snaps s)) r top.
Proof.
  intros I Hh Hf Hsub Hpub. set (s' := mkSys _ _ _ _ _ _ _).
  assert (grows s s' top top) as G by (split; simpl; auto; reflexivity).
  split; simpl; try apply I.
  - rewrite (inv_word _ _ _ I), clear_in_flight_word by apply I. by rewrite Hh.
  - intros c Hc. exfalso. revert Hh. by destruct Hc as [->|[->| ->]].
  - intros c Hc. exfalso. revert Hh. by destruct Hc as [->| ->].
  - done.
  - congruence.
  - intros j p Hj. eapply obs_grows; [exact G|]. by eapply inv_readers.
  - intros p Hp. eapply snap_grows; [exact G|]. by apply I.
Qed.

Lemma init_inv ts : ts_wf ts -> inv (init ts).
Proof.
  intros H. exists false, ts. split; simpl; auto; try set_solver.
  - by rewrite pack_word.
  - constructor.
Qed.

(** The committer's idle moves change nothing a reader can see. *)
Ltac frame I :=
  eapply inv_frame; [exact I|simpl; auto..].

Lemma step_inv s s' : inv s -> step s s' -> inv s'.
Proof.
  intros (r & top & I) H. destruct H as
    [s i Hi|s i o now ts Hi Hn E|s i o now e Hi Hn E|s i o now ts w cell Hi Hn E X
    |s i o now ts w Hi Hn E|s Hh|s Hh|s w now c cell Hh Hn E X|s w Hh|s c Hh|s c Hh|s c Hh
    |s c Hh|s h Hh Hcase].
  - exists r, top. frame I. intros j o [[<- <-]|[? ?]]%lookup_insert_Some; eauto using obs_now.
  - exists r, top. frame I; [intros j o'; rewrite lookup_delete_Some; tauto|].
    intros p [->|]%elem_of_cons; eauto using snap_return, inv_readers.
  - exists r, top. frame I. intros j o'. rewrite lookup_delete_Some. tauto.
  - apply exchange_true in X as [Hf ->]. exists true, ts. by eapply inv_reserve.
  - exists r, top. frame I. intros j o'. rewrite lookup_delete_Some. tauto.
  - exists r, top. frame I; [by rewrite Hh|by intros ? [|[|]]|by intros ? [|]].
  - exists r, top. frame I; [by rewrite Hh|by intros ? [|[|]]|by intros ? [|]].
  - apply exchange_true in X as [Hf ->]. exists false, c. by eapply inv_advance.
  - exists r, top. frame I; [by rewrite Hh|by intros ? [|[|]]|by intros ? [|]].
  - exists r, top. by apply inv_apply.
  - exists r, top. frame I; [by rewrite Hh|intros ? [|[|]]; naive_solver|intros ? [|]; naive_solver].
  - exists r, top. apply inv_clear; [done|done|by rewrite Hh|set_solver|].
    intros d [->|Hd]%elem_of_cons; [|by apply (inv_published _ _ _ I)].
    apply (inv_stored _ _ _ I). by right.
  - exists r, top. apply inv_clear; [done|done|by destruct Hh as [-> | ->]|done|apply I].
  - exists r, top. frame I; [|intros ? [|[|]]|intros ? [|]]; simplify_eq.
    rewrite Hh. by destruct Hcase as [->|[[w ->]| ->]].
Qed.

Lemma reachable_inv ts s : ts_wf ts -> rtc step (init ts) s -> inv s.
Proof.
  intros Hts H. pose proof (init_inv ts Hts) as I. clear Hts. revert I.
  induction H; eauto using step_inv.
Qed.

(** *** The guarantees *)

(** C17: In every interleaving of lock-free readers and committers, a commit that
    MVCC visibility ([commit_ts < snapshot_ts]) shows to a snapshot was already
    in storage at the atomic step that fixed the snapshot's timestamp: a
    reader is never handed a snapshot above a commit whose writes arrive later. *)
Theorem snapshot_isolation (ts0 : HybridTimestamp) (s : sys) (p : snapshot)
    (c : HybridTimestamp) :
  ts_wf ts0 -> rtc step (init ts0) s -> p ∈ snaps s -> c ∈ storage s ->
  (c < snap_ts p)%ts -> c ∈ snap_storage p.
Proof.
  intros Hts Hr Hp Hc Hlt. destruct (reachable_inv _ _ Hts Hr) as (r & top & I).
  destruct (inv_snaps _ _ _ I _ Hp) as ((_ & _ & Hst) & _ & _).
  destruct (Hst c Hc); [done|]. exfalso. ts_lia.
Qed.

(** C26: No staleness: every commit published before the reader started the
    iteration that produced its snapshot is below the snapshot, hence visible. *)
Theorem snapshot_sees_published (ts0 : HybridTimestamp) (s : sys) (p : snapshot)
    (c : HybridTimestamp) :
  ts_wf ts0 -> rtc step (init ts0) s -> p ∈ snaps s -> c ∈ snap_published p ->
  (c < snap_ts p)%ts /\ c ∈ storage s.
Proof.
  intros Hts Hr Hp Hc. destruct (reachable_inv _ _ Hts Hr) as (r & top & I).
  destruct (inv_snaps _ _ _ I _ Hp) as (_ & Hpub & Hlt). split; [by apply Hlt|].
  by apply (inv_published _ _ _ I), Hpub.
Qed.

(** Commit stamps are issued in strictly increasing order, and every commit
    stamped after a snapshot was handed out is strictly above that snapshot:
    the reservation no later commit may land on. *)
Theorem commits_above_reservations (ts0 : HybridTimestamp) (s : sys) :
  ts_wf ts0 -> rtc step (init ts0) s ->
  StronglySorted (fun a b => (b < a)%ts) (issued s) /\
  forall p c, p ∈ snaps s -> c ∈ issued s -> c ∉ snap_issued p -> (snap_ts p < c)%ts.
Proof.
  intros Hts Hr. destruct (reachable_inv _ _ Hts Hr) as (r & top & I).
  split; [apply I|]. intros p c Hp Hc Hn.
  destruct (inv_snaps _ _ _ I _ Hp) as ((_ & Hiss & _) & _ & _).
  by destruct (Hiss c Hc).
Qed.
End Steps.

(** The closure of the write path: [base.send(now)]. *)
Definition send_compute (now : Z) (base : HybridTimestamp) : res TemporalError HybridTimestamp :=
  Hlc.send base now.

Lemma send_compute_gt now base c :
  in_i64 now -> ts_wf base -> send_compute now base = Ok c -> ts_wf c /\ (base < c)%ts.
Proof. intros Hn Hb E. by destruct (Hlc.send_lt base now c Hb Hn E) as (? & ? & _). Qed.

(** A run in which [raise_to] checks, a reader reserves, and the store of
    [raise_to] overwrites the reservation; the next commit of the same
    microsecond then lands on it. *)
Definition T (w : Z) : HybridTimestamp := mkTs w 0.

(** The reservation guarantee does not survive a concurrent [raise_to]: its
    unconditional store can move the frontier back below a reservation made
    between its check and its store, and a later commit then takes exactly the
    stamp of a snapshot already handed out. *)
Theorem raise_to_loses_reservation :
  exists s p c, rtc (raise_step send_compute) (init (T 10), None) (s, None) /\
    p ∈ snaps s /\ c ∈ issued s /\ c ∉ snap_issued p /\ c = snap_ts p.
Proof.
  eexists _, _, _. split; [|split; [|split; [|split]]].
  - eapply rtc_l; [apply (raise_check send_compute _ (T 20)); reflexivity|].
    eapply rtc_l; [eapply raise_other; [apply (r_load send_compute _ 0); reflexivity|by left]|].
    eapply rtc_l; [eapply raise_other; [eapply (r_exchange send_compute _ 0 _ (T 30));
      [reflexivity|by split; simpl; mlia|vm_compute; reflexivity|vm_compute; reflexivity]|by left]|].
    eapply rtc_l; [apply raise_store|].
    eapply rtc_l; [eapply raise_other; [apply c_lock; reflexivity|by right]|].
    eapply rtc_l; [eapply raise_other; [apply c_load; reflexivity|by right]|].
    eapply rtc_l; [eapply raise_other; [eapply (c_advance send_compute _ _ 30);
      [reflexivity|mlia|vm_compute; reflexivity|vm_compute; reflexivity]|by right]|].
    apply rtc_refl.
  - left.
  - left.
  - apply not_elem_of_nil.
  - reflexivity.
Qed.

End Protocol.

Module ClockWitness.
Import Clock Protocol.

Lemma T_wf w : in_i64 w -> ts_wf (T w).
Proof. intros. split; simpl; [done|mlia]. Qed.

Lemma pack_order_iso_witness : unpack (pack (T (-5))) = T (-5) /\ pack (T (-5)) < pack (T 3).
Proof.
  destruct (pack_order_iso (T (-5)) (T 3)) as (H1 & _ & H3); [apply T_wf; mlia..|].
  split; [exact H1|]. apply H3. unfold ts_lt. simpl. lia.
Defined.

(** Commit 20 is published, a reader reserves 30, commit 40 is applied. *)
Ltac eval_state :=
  match goal with |- rtc _ ?s _ => let s' := eval vm_compute in s in change s with s' end.

Lemma run : exists s, rtc (step send_compute) (init (T 10)) s /\
  storage s = [T 40; T 20] /\ published s = [T 20] /\ issued s = [T 40; T 20] /\
  snaps s = [mkSnap (T 30) [T 20] [T 20] [T 20]].
Proof.
  eexists. split; [|split_and!].
  - eapply rtc_l; [apply c_lock; reflexivity|eval_state].
    eapply rtc_l; [apply c_load; reflexivity|eval_state].
    eapply rtc_l; [eapply (c_advance send_compute _ _ 20);
      [reflexivity|by compute|vm_compute; reflexivity|vm_compute; reflexivity]|eval_state].
    eapply rtc_l; [eapply c_apply; reflexivity|eval_state].
    eapply rtc_l; [eapply c_store; reflexivity|eval_state].
    eapply rtc_l; [eapply c_clear; reflexivity|eval_state].
    eapply rtc_l; [eapply c_unlock; [reflexivity|auto]|eval_state].
    eapply rtc_l; [apply (r_load send_compute _ 0); reflexivity|eval_state].
    eapply rtc_l; [eapply (r_exchange send_compute _ 0 _ (T 30));
      [reflexivity|apply T_wf; by compute|vm_compute; reflexivity|vm_compute; reflexivity]|eval_state].
    eapply rtc_l; [apply c_lock; reflexivity|eval_state].
    eapply rtc_l; [apply c_load; reflexivity|eval_state].
    eapply rtc_l; [eapply (c_advance send_compute _ _ 40);
      [reflexivity|by compute|vm_compute; reflexivity|vm_compute; reflexivity]|eval_state].
    eapply rtc_l; [eapply c_apply; reflexivity|eval_state].
    apply rtc_refl.
  - reflexivity.
  - reflexivity.
  - reflexivity.
  - reflexivity.
Qed.

Lemma snapshot_isolation_witness : exists s p,
  rtc (step send_compute) (init (T 10)) s /\ p ∈ snaps s /\ T 20 ∈ snap_storage p.
Proof.
  destruct run as (s & Hr & Hs & Hp & Hi & Hn).
  exists s, (mkSnap (T 30) [T 20] [T 20] [T 20]). split; [done|]. split.
  - rewrite Hn. left.
  - apply (snapshot_isolation send_compute send_compute_gt (T 10) s).
    + apply T_wf; mlia.
    + exact Hr.
    + rewrite Hn. left.
    + rewrite Hs. right. left.
    + unfold ts_lt. simpl. lia.
Defined.

Lemma snapshot_sees_published_witness : exists s p,
  rtc (step send_compute) (init (T 10)) s /\ p ∈ snaps s /\ (T 20 < snap_ts p)%ts.
Proof.
  destruct run as (s & Hr & Hs & Hp & Hi & Hn).
  exists s, (mkSnap (T 30) [T 20] [T 20] [T 20]). split; [done|]. split.
  - rewrite Hn. left.
  - apply (snapshot_sees_published send_compute send_compute_gt (T 10) s).
    + apply T_wf; mlia.
    + exact Hr.
    + rewrite Hn. left.
    + left.
Defined.

Lemma commits_above_reservations_witness : exists s p,
  rtc (step send_compute) (init (T 10)) s /\ p ∈ snaps s /\ (snap_ts p < T 40)%ts.
Proof.
  destruct run as (s & Hr & Hs & Hp & Hi & Hn).
  exists s, (mkSnap (T 30) [T 20] [T 20] [T 20]). split; [done|]. split.
  - rewrite Hn. left.
  - apply (commits_above_reservations send_compute send_compute_gt (T 10) s).
    + apply T_wf; mlia.
    + exact Hr.
    + rewrite Hn. left.
    + rewrite Hi. left.
    + simpl. rewrite list_elem_of_singleton. discriminate.
Defined.

End ClockWitness.
