(* ===== verification/Lsn.v ===== *)
(** * The log sequence number allocator: [src/storage/wal/lsn_allocator.rs]

    One [AtomicU64]; every operation is a single atomic read-modify-write, so a
    concurrent execution is the sequence of these operations in the order they
    took effect. *)

From S2P Require Import Prelude.

Module Lsn.

Record LsnAllocator := mkAlloc { next_lsn : Z }.

Definition new : LsnAllocator := mkAlloc 1.
Definition starting_at (lsn : Z) : LsnAllocator := mkAlloc lsn.

(** [fetch_update]: the new cell and the previous value, or the cell unchanged. *)
Definition fetch_update (a : LsnAllocator) (f : Z -> option Z) : LsnAllocator * option Z :=
  match f (next_lsn a) with
  | Some v => (mkAlloc v, Some (next_lsn a))
  | None => (a, None)
  end.

Definition allocate (a : LsnAllocator) : LsnAllocator * res unit Z :=
  let '(a', lsn) := fetch_update a (fun current =>
    if current =? u64_max then None else Some (current + 1)) in
  (a', expect lsn).

Definition allocate_batch (a : LsnAllocator) (count : Z) : LsnAllocator * res unit (Z * Z) :=
  if negb (0 <? count) then (a, Panic)
  else
    let '(a', first) := fetch_update a (fun current =>
      if u64_saturating_sub u64_max count <? current then None
      else Some (current + count)) in
    (a', first ← expect first; Ok (first, first + count - 1)).

Definition current (a : LsnAllocator) : Z := next_lsn a.

(** [fetch_max] *)
Definition set_next (a : LsnAllocator) (lsn : Z) : LsnAllocator :=
  mkAlloc (Z.max (next_lsn a) lsn).

End Lsn.

Module LsnTrace.
Import Lsn.

Inductive lop := Allocate | Batch (count : Z) | SetNext (lsn : Z).

Definition op_wf (o : lop) : Prop :=
  match o with Allocate => True | Batch n => in_u64 n | SetNext l => in_u64 l end.

(** The inclusive range an operation hands out, if it does not panic. *)
Definition exec (a : LsnAllocator) (o : lop) : LsnAllocator * option (Z * Z) :=
  match o with
  | Allocate => let '(a', r) := allocate a in
                (a', match r with Ok l => Some (l, l) | _ => None end)
  | Batch n => let '(a', r) := allocate_batch a n in
               (a', match r with Ok p => Some p | _ => None end)
  | SetNext l => (set_next a l, None)
  end.

Fixpoint run (a : LsnAllocator) (ops : list lop) : LsnAllocator * list (Z * Z) :=
  match ops with
  | [] => (a, [])
  | o :: ops =>
      let '(a1, r) := exec a o in
      let '(a2, rs) := run a1 ops in
      (a2, match r with Some p => p :: rs | None => rs end)
  end.

(** One operation: the cell never moves back, and a range handed out lies
    between the old and the new cell. *)
Lemma exec_spec a o a' r :
  in_u64 (next_lsn a) -> op_wf o -> exec a o = (a', r) ->
  in_u64 (next_lsn a') /\ next_lsn a <= next_lsn a' /\
  (forall lo hi, r = Some (lo, hi) -> lo = next_lsn a /\ lo <= hi /\ hi + 1 = next_lsn a').
Proof.
  intros Ha Ho. destruct o as [|n|l]; simpl in *.
  - unfold allocate, fetch_update. case_goal; intros [= <- <-]; bool_to_prop; simpl;
      split_and!; try mlia; intros; simplify_eq; mlia.
  - unfold allocate_batch, fetch_update. case_goal; [intros [= <- <-]; split_and!; done|].
    case_goal; intros [= <- <-]; bool_to_prop; simpl; split_and!; try mlia;
      intros; simplify_eq; mlia.
  - intros [= <- <-]. simpl. split_and!; [mlia|lia|done].
Qed.

Lemma run_spec a ops a' rs :
  in_u64 (next_lsn a) -> Forall op_wf ops -> run a ops = (a', rs) ->
  StronglySorted (fun r1 r2 : Z * Z => r1.2 < r2.1) rs /\
  Forall (fun r : Z * Z => next_lsn a <= r.1 /\ r.1 <= r.2 /\ r.2 < next_lsn a') rs /\
  next_lsn a <= next_lsn a' /\ in_u64 (next_lsn a').
Proof.
  revert a a' rs. induction ops as [|o ops IH]; intros a a' rs Ha Hops; simpl.
  { intros [= <- <-]. split_and!; [constructor|constructor|lia|done]. }
  apply Forall_cons in Hops as [Ho Hops].
  destruct (exec a o) as [a1 r] eqn:E1. destruct (run a1 ops) as [a2 rs2] eqn:E2.
  destruct (exec_spec a o a1 r Ha Ho E1) as (H1 & H2 & H3).
  destruct (IH a1 a2 rs2 H1 Hops E2) as (S & F & L & U).
  assert (Forall (fun r : Z * Z => next_lsn a <= r.1 /\ r.1 <= r.2 /\ r.2 < next_lsn a2) rs2).
  { eapply Forall_impl; [exact F|]. simpl. lia. }
  destruct r as [[lo hi]|]; intros [= <- <-]; (split_and!; try done; try lia).
  - destruct (H3 lo hi eq_refl) as (? & ? & ?). constructor; [done|].
    eapply Forall_impl; [exact F|]. simpl. lia.
  - destruct (H3 lo hi eq_refl) as (? & ? & ?). constructor; [simpl; lia|done].
Qed.
End LsnTrace.

Section LsnProperties.
Import Lsn LsnTrace.

(** Whatever the order in which concurrent [allocate], [allocate_batch] and
    [set_next] calls take effect, the ranges handed out are pairwise disjoint,
    increasing, at or above the starting LSN and below the final counter, and
    the counter never wraps. *)
Theorem lsn_ranges_disjoint (start : Z) (ops : list lop) :
  in_u64 start -> Forall op_wf ops ->
  let '(a', rs) := run (starting_at start) ops in
  StronglySorted (fun r1 r2 : Z * Z => r1.2 < r2.1) rs /\
  Forall (fun r : Z * Z => start <= r.1 /\ r.1 <= r.2 /\ r.2 < next_lsn a') rs /\
  in_u64 (next_lsn a').
Proof.
  intros Hs Ho. destruct (run (starting_at start) ops) as [a' rs] eqn:E.
  by destruct (run_spec (starting_at start) _ _ _ Hs Ho E) as (? & ? & ? & ?).
Qed.

End LsnProperties.

Module LsnWitness.
Import Lsn LsnTrace.

Lemma lsn_ranges_disjoint_witness :
  let '(a', rs) := run (starting_at 7) [Allocate; Batch 3; SetNext 20; Allocate] in
  rs = [(7, 7); (8, 10); (20, 20)] /\ Forall (fun r : Z * Z => 7 <= r.1 /\ r.1 <= r.2 /\ r.2 < next_lsn a') rs.
Proof.
  pose proof (lsn_ranges_disjoint 7 [Allocate; Batch 3; SetNext 20; Allocate]
    ltac:(mlia) ltac:(repeat constructor; mlia)) as H.
  vm_compute in H. split; [reflexivity|]. apply H.
Defined.

End LsnWitness.
