(* ===== verification/Interning.v ===== *)
(** * The string interner: [src/core/interning.rs]

    The two maps and the id counter of [StringInterner] with its operations, the
    interface the property and log codecs rely on, and the concurrent [intern]
    protocol (atomic counter, per-key entry lock) as a step relation. *)

From S2P Require Import Prelude.
From S2P Require Import Bytes.
From S2P Require Import Errors.

Module Interning.

Definition DEFAULT_MAX_INTERNED_STRINGS : Z := 10000000.

Record StringInterner := mkInterner {
  string_to_id : gmap bytes Z;
  id_to_string : gmap Z bytes;
  next_id : Z;
  max_capacity : Z }.

Definition with_max_capacity (cap : Z) : StringInterner := mkInterner ∅ ∅ 0 cap.
Definition new : StringInterner := with_max_capacity DEFAULT_MAX_INTERNED_STRINGS.

Definition set_max_capacity (st : StringInterner) (cap : Z) : StringInterner :=
  mkInterner (string_to_id st) (id_to_string st) (next_id st) cap.

Definition get_id (st : StringInterner) (s : bytes) : option Z := string_to_id st !! s.
Definition contains (st : StringInterner) (s : bytes) : bool := bool_decide (is_Some (get_id st s)).
Definition resolve (st : StringInterner) (id : Z) : option bytes := id_to_string st !! id.
Definition resolve_with {R} (st : StringInterner) (id : Z) (f : bytes -> R) : option R :=
  f <$> id_to_string st !! id.
Definition resolve_or_else (st : StringInterner) (id : Z) (fallback : bytes) : bytes :=
  default fallback (resolve_with st id (fun s => s)).
Definition len (st : StringInterner) : Z := Z.of_nat (size (string_to_id st)).

(** [u32] [fetch_add(1)] and [fetch_sub(1)] *)
Definition incr (v : Z) : Z := (v + 1) mod 2 ^ 32.
Definition decr (v : Z) : Z := (v - 1) mod 2 ^ 32.

Definition insert_id (st : StringInterner) (next : Z) (s : bytes) (id : Z) : StringInterner :=
  mkInterner (<[s := id]> (string_to_id st)) (<[id := s]> (id_to_string st)) next
    (max_capacity st).

Definition intern (st : StringInterner) (s : bytes) : StringInterner * res Error Z :=
  match get_id st s with
  | Some id => (st, Ok id)
  | None =>
      let id_value := next_id st in
      let next := incr id_value in
      if max_capacity st <=? id_value then
        (mkInterner (string_to_id st) (id_to_string st) (decr next) (max_capacity st),
         Err (EStorage (CapacityExceeded id_value (max_capacity st))))
      else (insert_id st next s id_value, Ok id_value)
  end.

Definition intern_unchecked (st : StringInterner) (s : bytes) : StringInterner * Z :=
  match get_id st s with
  | Some id => (st, id)
  | None => (insert_id st (incr (next_id st)) s (next_id st), next_id st)
  end.

Definition clear (st : StringInterner) : StringInterner := mkInterner ∅ ∅ 0 (max_capacity st).

(** [get_all_strings] with no concurrent writer: the vector covers every id
    below [next_id] and every key of the map; a missing id below [next_id] is
    waited for until the spin limit panics, a missing one above is skipped. *)
Definition get_all_strings (st : StringInterner) : res Error (list bytes) :=
  let n := map_fold (fun id _ n => Z.max n (id + 1)) (next_id st) (id_to_string st) in
  let fix go (ids : list Z) : res Error (list bytes) :=
    match ids with
    | [] => Ok []
    | id :: ids =>
        match id_to_string st !! id with
        | Some s => rest ← go ids; Ok (s :: rest)
        | None => if next_id st <=? id then go ids else Panic
        end
    end in
  go (seqZ 0 n).

(** The loop of [warm_common_strings], and of the reload of a saved interner. *)
Definition intern_all (st : StringInterner) (l : list bytes) : StringInterner :=
  foldl (fun st s => (intern_unchecked st s).1) st l.

End Interning.

(** ** What the codecs rely on *)
Class Interner (I : Type) := {
  i_wf : I -> Prop;
  i_intern : I -> bytes -> I * res Error Z;
  i_resolve : I -> Z -> option bytes;
  i_get_id : I -> bytes -> option Z;
  (** lookup in either direction *)
  i_get_id_iff st s id : i_wf st -> i_get_id st s = Some id <-> i_resolve st id = Some s;
  (** a successful [intern] gives an id in [u32] that resolves to the string *)
  i_intern_ok st s st' id :
    i_wf st -> i_intern st s = (st', Ok id) -> i_resolve st' id = Some s /\ in_u32 id;
  (** ids already issued keep their string, whatever the outcome *)
  i_intern_stable st s st' r id x :
    i_wf st -> i_intern st s = (st', r) -> i_resolve st id = Some x -> i_resolve st' id = Some x;
  i_intern_wf st s st' r : i_wf st -> i_intern st s = (st', r) -> i_wf st';
  (** a string that resolves from some id is interned to that id, unchanged *)
  i_intern_known st s id : i_wf st -> i_resolve st id = Some s -> i_intern st s = (st, Ok id);
  (** the only failure is a full interner *)
  i_intern_total st s :
    match (i_intern st s).2 with
    | Ok _ => True
    | Err e => exists current limit, e = EStorage (CapacityExceeded current limit)
    | Panic => False
    end }.

Section InternerLaws.
Context {St : Type} `{Interner St}.
Implicit Types st : St.

(** What interning may change: nothing that was there. *)
Definition extends (st st' : St) : Prop :=
  i_wf st -> i_wf st' /\ forall id x, i_resolve st id = Some x -> i_resolve st' id = Some x.

#[global] Instance extends_refl : Reflexive extends.
Proof. by intros st ?. Qed.
#[global] Instance extends_trans : Transitive extends.
Proof. intros a b c H1 H2 Wa. destruct (H1 Wa) as [Wb ?]. destruct (H2 Wb). split; auto. Qed.

Lemma intern_extends st s : extends st (i_intern st s).1.
Proof.
  intros W. destruct (i_intern st s) as [st' r] eqn:E. simpl.
  split; [by eapply i_intern_wf|]. intros. by eapply i_intern_stable.
Qed.

Lemma resolve_inj st i j s :
  i_wf st -> i_resolve st i = Some s -> i_resolve st j = Some s -> i = j.
Proof. intros W Hi%i_get_id_iff Hj%i_get_id_iff; try done. congruence. Qed.

Lemma intern_safe st s :
  i_wf st -> sm_safe (E := Error) extends (fun st => i_intern st s) st
    (fun st' id => i_resolve st' id = Some s /\ in_u32 id).
Proof.
  intros W. split; [apply intern_extends|].
  pose proof (i_intern_total st s) as Hs. destruct (i_intern st s) as [st' [id|e|]] eqn:E; simpl in *;
    try done. by eapply i_intern_ok.
Qed.
End InternerLaws.

(** ** Invariant: a bijection between the strings and an initial segment of ids *)
Section InternLemmas.
Import Interning.
Implicit Type st : StringInterner.

Record interner_wf st : Prop := {
  iw_iff : forall s id, string_to_id st !! s = Some id <-> id_to_string st !! id = Some s;
  iw_dom : forall id, is_Some (id_to_string st !! id) <-> 0 <= id < next_id st;
  iw_next : 0 <= next_id st <= u32_max;
  iw_cap : 0 <= max_capacity st <= u32_max }.

Lemma incr_small v : 0 <= v < u32_max -> incr v = v + 1.
Proof. intros. unfold incr. apply Z.mod_small. change (2 ^ 32) with (u32_max + 1). lia. Qed.

Lemma decr_incr v : 0 <= v <= u32_max -> decr (incr v) = v.
Proof.
  intros. unfold decr, incr. rewrite Zminus_mod_idemp_l.
  replace (v + 1 - 1) with v by lia. apply Z.mod_small. change (2 ^ 32) with (u32_max + 1). lia.
Qed.

Lemma with_max_capacity_wf cap : 0 <= cap <= u32_max -> interner_wf (with_max_capacity cap).
Proof.
  intros. split; simpl; try done.
  - intros id. rewrite lookup_empty. split; [by intros []|lia].
Qed.

Lemma insert_id_wf st s :
  interner_wf st -> get_id st s = None -> next_id st < u32_max ->
  interner_wf (insert_id st (next_id st + 1) s (next_id st)).
Proof.
  intros [Hiff Hd Hn Hc] Hs Hlt.
  assert (id_to_string st !! next_id st = None) as Hfresh.
  { apply eq_None_not_Some. rewrite Hd. lia. }
  split; simpl; try lia.
  - intros t id. rewrite !lookup_insert_Some, Hiff. split.
    + intros [[<- <-]|[Hne Ht]]; [by left|]. right. split; [|done]. intros <-. congruence.
    + intros [[<- <-]|[Hne Ht]]; [by left|]. right. split; [|done]. intros ->.
      apply Hiff in Ht. unfold get_id in Hs. congruence.
  - intros id. rewrite lookup_insert_is_Some. rewrite Hd. lia.
Qed.

(** What [intern] does, on each branch. *)
Lemma intern_cases st s st' r :
  interner_wf st -> intern st s = (st', r) ->
  (exists id, get_id st s = Some id /\ st' = st /\ r = Ok id) \/
  (get_id st s = None /\ max_capacity st <= next_id st /\ st' = st /\
   r = Err (EStorage (CapacityExceeded (next_id st) (max_capacity st)))) \/
  (get_id st s = None /\ next_id st < max_capacity st /\
   st' = insert_id st (next_id st + 1) s (next_id st) /\ r = Ok (next_id st)).
Proof.
  intros W. unfold intern. destruct (get_id st s) as [id|] eqn:E.
  { intros [= <- <-]. left. eauto. }
  case_goal; intros [= <- <-]; bool_to_prop; right; [left|right].
  - rewrite decr_incr by apply W. by destruct st.
  - pose proof (iw_cap _ W). rewrite incr_small; [done|]. pose proof (iw_next _ W). lia.
Qed.

Lemma intern_wf st s st' r : interner_wf st -> intern st s = (st', r) -> interner_wf st'.
Proof.
  intros W E. destruct (intern_cases _ _ _ _ W E) as [(? & _ & -> & _)|[(_ & _ & -> & _)|(? & ? & -> & _)]];
    [done..|]. apply insert_id_wf; try done. pose proof (iw_cap _ W). lia.
Qed.

Lemma intern_resolve st s st' id :
  interner_wf st -> intern st s = (st', Ok id) ->
  resolve st' id = Some s /\ get_id st' s = Some id /\ 0 <= id < next_id st' /\
  in_u32 id.
Proof.
  intros W E. pose proof (intern_wf _ _ _ _ W E) as W'.
  assert (get_id st' s = Some id) as Hg.
  { destruct (intern_cases _ _ _ _ W E) as [(? & ? & -> & ?)|[(_ & _ & _ & ?)|(? & ? & -> & ?)]];
      simplify_eq; [done|]. apply lookup_insert_eq. }
  assert (resolve st' id = Some s) as Hr by by apply (iw_iff _ W').
  assert (0 <= id < next_id st') as Hb by (apply (iw_dom _ W'); eauto).
  split_and!; try done; try apply Hb. pose proof (iw_next _ W'). split; lia.
Qed.

Lemma intern_stable st s st' r id x :
  interner_wf st -> intern st s = (st', r) -> resolve st id = Some x -> resolve st' id = Some x.
Proof.
  intros W E Hx.
  destruct (intern_cases _ _ _ _ W E) as [(? & _ & -> & _)|[(_ & _ & -> & _)|(? & ? & -> & _)]];
    [done..|]. unfold resolve. simpl. rewrite lookup_insert_ne; [done|].
  intros <-. assert (0 <= next_id st < next_id st) by (apply (iw_dom _ W); eauto). lia.
Qed.

Lemma intern_known st s id :
  interner_wf st -> resolve st id = Some s -> intern st s = (st, Ok id).
Proof. intros W H. apply (iw_iff _ W) in H. unfold intern, get_id. by rewrite H. Qed.

Lemma intern_total st s :
  match (intern st s).2 with
  | Ok _ => True
  | Err e => exists current limit, e = EStorage (CapacityExceeded current limit)
  | Panic => False
  end.
Proof. unfold intern. destruct (get_id st s); [done|]. simpl. destruct (_ <=? _); simpl; eauto. Qed.
End InternLemmas.

#[global] Program Instance StringInterner_Interner : Interner Interning.StringInterner := {|
  i_wf := interner_wf;
  i_intern := Interning.intern;
  i_resolve := Interning.resolve;
  i_get_id := Interning.get_id |}.
Next Obligation. intros st s id W. apply (iw_iff _ W). Qed.
Next Obligation. intros. by edestruct intern_resolve as (? & _ & _ & ?). Qed.
Next Obligation. intros. by eapply intern_stable. Qed.
Next Obligation. intros. by eapply intern_wf. Qed.
Next Obligation. intros. by apply intern_known. Qed.
Next Obligation. intros. by apply intern_total. Qed.

(** ** Saving and reloading *)
Section InternReload.
Import Interning.
Implicit Type st : StringInterner.

Lemma get_all_bound st :
  interner_wf st ->
  map_fold (fun id _ n => Z.max n (id + 1)) (next_id st) (id_to_string st) = next_id st.
Proof.
  intros W. apply (map_fold_weak_ind (fun n m =>
    (forall id, is_Some (m !! id) -> id < next_id st) -> n = next_id st)).
  - done.
  - intros i x m n Hi IH Hm. rewrite IH.
    + assert (i < next_id st) by (apply Hm; rewrite lookup_insert_eq; eauto). lia.
    + intros id Hid. apply Hm. rewrite lookup_insert_is_Some. destruct (decide (i = id)); auto.
  - intros id Hid. apply (iw_dom _ W) in Hid. lia.
Qed.

(** The strings in id order. *)
Definition strings_of st : list bytes :=
  omap (fun id => id_to_string st !! id) (seqZ 0 (next_id st)).

Lemma get_all_strings_eq st : interner_wf st -> get_all_strings st = Ok (strings_of st).
Proof.
  intros W. unfold get_all_strings, strings_of. rewrite get_all_bound by done.
  assert (forall id, id ∈ seqZ 0 (next_id st) -> is_Some (id_to_string st !! id)) as H.
  { intros id Hid%elem_of_seqZ. apply (iw_dom _ W). lia. }
  induction (seqZ 0 (next_id st)) as [|id ids IH]; [done|]. simpl.
  destruct (H id) as [s ->]; [left|]. rewrite IH; [done|]. intros i Hi. apply H. by right.
Qed.

Lemma strings_of_lookup st id :
  interner_wf st -> 0 <= id -> strings_of st !! Z.to_nat id = id_to_string st !! id.
Proof.
  intros W Hid. unfold strings_of.
  assert (forall n k m, (forall i, 0 <= i < m -> is_Some (id_to_string st !! (n + i))) ->
    omap (fun id => id_to_string st !! id) (seqZ n m) !! k =
    if Z.of_nat k <? m then id_to_string st !! (n + Z.of_nat k) else None) as H.
  { intros n k m. revert n k. destruct (Z_lt_le_dec m 0) as [|Hm].
    { intros. rewrite seqZ_nil by lia. case_goal; bool_to_prop; [lia|done]. }
    pattern m. apply natlike_ind; [|clear m Hm; intros m Hm IH|done].
    - intros n k _. rewrite seqZ_nil by lia. case_goal; bool_to_prop; [lia|done].
    - intros n k Hall. rewrite seqZ_cons by lia. simpl.
      destruct (Hall 0) as [s Hs]; [lia|]. rewrite Z.add_0_r in Hs. rewrite Hs.
      destruct k as [|k]; simpl.
      + rewrite Z.add_0_r, Hs. case_goal; bool_to_prop; [done|lia].
      + replace (Z.pred (Z.succ m)) with m by lia. rewrite IH.
        * replace (Z.succ n + Z.of_nat k) with (n + Z.of_nat (S k)) by lia.
          destruct (Z.of_nat k <? m) eqn:E1, (Z.of_nat (S k) <? Z.succ m) eqn:E2;
            bool_to_prop; try lia; done.
        * intros i Hi. replace (Z.succ n + i) with (n + (i + 1)) by lia. apply Hall. lia. }
  rewrite H; [|intros i ?; apply (iw_dom _ W); lia].
  rewrite Z2Nat.id, Z.add_0_l by done. case_goal; bool_to_prop; [done|].
  symmetry. apply eq_None_not_Some. rewrite (iw_dom _ W). lia.
Qed.

Lemma strings_of_NoDup st : interner_wf st -> NoDup (strings_of st).
Proof.
  intros W. apply NoDup_alt. intros i j s Hi Hj.
  rewrite <-(Nat2Z.id i) in Hi. rewrite <-(Nat2Z.id j) in Hj.
  rewrite strings_of_lookup in Hi, Hj by (done || lia).
  apply (iw_iff _ W) in Hi, Hj. assert (Z.of_nat i = Z.of_nat j) by congruence. lia.
Qed.

Lemma length_strings_of st : interner_wf st -> Z.of_nat (length (strings_of st)) = next_id st.
Proof.
  intros W. pose proof (iw_next _ W). apply Z.le_antisymm; apply Z.nlt_ge; intros Hlt.
  - pose proof (proj1 (lookup_ge_None (strings_of st) (Z.to_nat (next_id st)))) as H1.
    rewrite strings_of_lookup in H1 by (done || lia).
    assert (~ is_Some (id_to_string st !! next_id st)) as H2 by (rewrite (iw_dom _ W); lia).
    apply eq_None_not_Some in H2. specialize (H1 H2). lia.
  - assert (is_Some (id_to_string st !! Z.of_nat (length (strings_of st)))) as H1
      by (apply (iw_dom _ W); lia).
    rewrite <-strings_of_lookup, Nat2Z.id in H1 by (done || lia).
    by apply lookup_lt_is_Some, Nat.lt_irrefl in H1.
Qed.

Lemma intern_all_spec st l :
  interner_wf st -> NoDup l -> (forall s, s ∈ l -> get_id st s = None) ->
  next_id st + Z.of_nat (length l) <= u32_max ->
  interner_wf (intern_all st l) /\
  (forall id, 0 <= id -> resolve (intern_all st l) id =
     if id <? next_id st then resolve st id else l !! Z.to_nat (id - next_id st)).
Proof.
  revert st. induction l as [|s l IH]; intros st W Hnd Hfresh Hlen; simpl in *.
  { split; [done|]. intros id Hid. case_goal; bool_to_prop; [done|].
    apply eq_None_not_Some. unfold resolve. rewrite (iw_dom _ W). lia. }
  apply NoDup_cons in Hnd as [Hs Hnd]. pose proof (iw_next _ W).
  assert ((intern_unchecked st s).1 = insert_id st (next_id st + 1) s (next_id st)) as E.
  { unfold intern_unchecked. rewrite Hfresh by left. simpl. by rewrite incr_small by lia. }
  rewrite E. clear E.
  destruct (IH (insert_id st (next_id st + 1) s (next_id st))) as [W' HR]; simpl; try done.
  - apply insert_id_wf; [done|apply Hfresh; left|lia].
  - intros t Ht. unfold get_id. simpl. rewrite lookup_insert_ne; [|by intros ->].
    apply Hfresh. by right.
  - lia.
  - split; [done|]. intros id Hid. rewrite HR by done. simpl. unfold resolve. simpl.
    destruct (decide (id = next_id st)) as [->|].
    + rewrite lookup_insert_eq, Z.sub_diag. by repeat case_goal; bool_to_prop; try lia.
    + rewrite lookup_insert_ne by done.
      destruct (id <? next_id st + 1) eqn:E1, (id <? next_id st) eqn:E2; bool_to_prop; try lia; [done|].
      replace (Z.to_nat (id - next_id st)) with (S (Z.to_nat (id - (next_id st + 1)))) by lia.
      done.
Qed.
End InternReload.

(** ** Properties *)
Section InternProperties.
Import Interning.

(** On a well-formed interner [intern] returns an id that resolves to the
    string and is found for it again (a second call changes nothing); it keeps
    the string of every id issued before; it keeps the string/id maps a
    bijection onto the ids below [next_id]; and it fails exactly when a new
    string meets a full interner, leaving the interner as it was. *)
Theorem intern_spec (st : StringInterner) (s : bytes) :
  interner_wf st ->
  let '(st', r) := intern st s in
  interner_wf st' /\
  (forall id x, resolve st id = Some x -> resolve st' id = Some x) /\
  match r with
  | Ok id => resolve st' id = Some s /\ get_id st' s = Some id /\ intern st' s = (st', Ok id)
  | Err e => st' = st /\ get_id st s = None /\ max_capacity st <= next_id st
  | Panic => False
  end.
Proof.
  intros W. destruct (intern st s) as [st' r] eqn:E.
  pose proof (intern_wf _ _ _ _ W E) as W'.
  split_and!; [done|intros id x; by apply (intern_stable st s st' r)|]. destruct r as [id|e|].
  - destruct (intern_resolve _ _ _ _ W E) as (? & ? & _ & _). auto using intern_known.
  - destruct (intern_cases _ _ _ _ W E) as [(? & _ & _ & ?)|[(? & ? & -> & _)|(_ & _ & _ & ?)]];
      by simplify_eq.
  - pose proof (intern_total st s) as H. by rewrite E in H.
Qed.

(** Saving and reloading preserves every id: [get_all_strings] terminates
    with the strings in id order, and interning that list into an empty
    interner (as opening a persisted database does) resolves every id to the
    same string. *)
Theorem interner_reload (st : StringInterner) (cap : Z) :
  interner_wf st -> 0 <= cap <= u32_max ->
  exists l, get_all_strings st = Ok l /\
    interner_wf (intern_all (with_max_capacity cap) l) /\
    forall id, 0 <= id -> resolve (intern_all (with_max_capacity cap) l) id = resolve st id.
Proof.
  intros W Hcap. exists (strings_of st). split; [by apply get_all_strings_eq|].
  destruct (intern_all_spec (with_max_capacity cap) (strings_of st)) as [W' HR].
  - by apply with_max_capacity_wf.
  - by apply strings_of_NoDup.
  - done.
  - rewrite length_strings_of by done. simpl. pose proof (iw_next _ W). lia.
  - split; [done|]. intros id Hid. rewrite HR by done. simpl.
    case_goal; bool_to_prop; [lia|]. rewrite Z.sub_0_r. by apply strings_of_lookup.
Qed.
End InternProperties.

(** ** Concurrent interning

    A thread whose [get_id] missed holds the entry of its key and then takes
    its atomic steps: [fetch_add], the capacity test, and either [fetch_sub] or
    the insertion in [id_to_string] followed by the publication of the entry.
    [log] is the history of the strings whose allocation succeeded. *)
Module InternRace.
Import Interning.

Inductive thread :=
  | Taken (s : bytes) (id : Z)
  | Rollback (s : bytes)
  | Inserted (s : bytes) (id : Z).

Definition thread_key (t : thread) : bytes :=
  match t with Taken s _ | Rollback s | Inserted s _ => s end.

Record shared := mkShared {
  sh_st : StringInterner;
  threads : list thread;
  log : list bytes }.

Definition set_next (st : StringInterner) (v : Z) : StringInterner :=
  mkInterner (string_to_id st) (id_to_string st) v (max_capacity st).

Inductive step : shared -> shared -> Prop :=
| s_fetch_add st ts lg s :
    get_id st s = None -> s ∉ (thread_key <$> ts) ->
    step (mkShared st ts lg)
      (mkShared (set_next st (incr (next_id st))) (Taken s (next_id st) :: ts)
        (if next_id st <? max_capacity st then lg ++ [s] else lg))
| s_reject st ts1 ts2 lg s id : max_capacity st <= id ->
    step (mkShared st (ts1 ++ Taken s id :: ts2) lg)
      (mkShared st (ts1 ++ Rollback s :: ts2) lg)
| s_fetch_sub st ts1 ts2 lg s :
    step (mkShared st (ts1 ++ Rollback s :: ts2) lg)
      (mkShared (set_next st (decr (next_id st))) (ts1 ++ ts2) lg)
| s_insert st ts1 ts2 lg s id : id < max_capacity st ->
    step (mkShared st (ts1 ++ Taken s id :: ts2) lg)
      (mkShared (mkInterner (string_to_id st) (<[id := s]> (id_to_string st)) (next_id st)
                   (max_capacity st))
        (ts1 ++ Inserted s id :: ts2) lg)
| s_publish st ts1 ts2 lg s id :
    step (mkShared st (ts1 ++ Inserted s id :: ts2) lg)
      (mkShared (mkInterner (<[s := id]> (string_to_id st)) (id_to_string st) (next_id st)
                   (max_capacity st))
        (ts1 ++ ts2) lg).

(** A thread that will take its [fetch_add] back. *)
Definition failing (cap : Z) (t : thread) : bool :=
  match t with Taken _ id => cap <=? id | Rollback _ => true | Inserted _ _ => false end.
Definition failures (cap : Z) (ts : list thread) : Z :=
  Z.of_nat (length (base.filter (fun t => failing cap t = true) ts)).

Definition logged (lg : list bytes) (id : Z) (s : bytes) : Prop :=
  0 <= id /\ lg !! Z.to_nat id = Some s.

Section RaceProofs.
(** The capacity, and a bound on the threads that leaves the counter room. *)
Variables cap max_threads : Z.
Hypothesis cap_room : 0 <= cap /\ 0 <= max_threads /\ cap + max_threads < u32_max.

Definition bounded (x : shared) : Prop := Z.of_nat (length (threads x)) <= max_threads.

Record race_inv (x : shared) : Prop := {
  ri_cap : max_capacity (sh_st x) = cap;
  ri_log : Z.of_nat (length (log x)) <= cap;
  ri_next : next_id (sh_st x) = Z.of_nat (length (log x)) + failures cap (threads x);
  ri_full : 0 < failures cap (threads x) -> Z.of_nat (length (log x)) = cap;
  ri_taken : forall s id, Taken s id ∈ threads x -> id < cap -> logged (log x) id s;
  ri_inserted : forall s id, Inserted s id ∈ threads x ->
                  logged (log x) id s /\ id_to_string (sh_st x) !! id = Some s;
  ri_ids : forall s id, id_to_string (sh_st x) !! id = Some s -> logged (log x) id s;
  ri_str : forall s id, string_to_id (sh_st x) !! s = Some id ->
             id_to_string (sh_st x) !! id = Some s }.

Lemma failures_app ts1 ts2 : failures cap (ts1 ++ ts2) = failures cap ts1 + failures cap ts2.
Proof. unfold failures. rewrite filter_app, length_app. lia. Qed.
Lemma failures_cons t ts :
  failures cap (t :: ts) = (if failing cap t then 1 else 0) + failures cap ts.
Proof.
  unfold failures. rewrite filter_cons. case_decide as H.
  - rewrite H. simpl. lia.
  - apply not_true_is_false in H. rewrite H. lia.
Qed.
Lemma failures_bound ts : 0 <= failures cap ts <= Z.of_nat (length ts).
Proof.
  unfold failures. pose proof (length_filter (fun t => failing cap t = true) ts). lia.
Qed.

Lemma logged_app lg s id x : logged lg id x -> logged (lg ++ [s]) id x.
Proof. intros [? ?]. split; [done|]. by apply lookup_app_l_Some. Qed.
Lemma logged_end lg s : logged (lg ++ [s]) (Z.of_nat (length lg)) s.
Proof. split; [lia|]. by rewrite Nat2Z.id, list_lookup_middle. Qed.
Lemma logged_fun lg id s s' : logged lg id s -> logged lg id s' -> s = s'.
Proof. intros [_ ?] [_ ?]. congruence. Qed.

Lemma race_fetch_add st ts lg s :
  bounded (mkShared st ts lg) -> race_inv (mkShared st ts lg) ->
  race_inv (mkShared (set_next st (incr (next_id st))) (Taken s (next_id st) :: ts)
        (if next_id st <? max_capacity st then lg ++ [s] else lg)).
Proof.
  intros Hb [Hc Hl Hn Hf Ht Hin Hi Hs]. unfold bounded in Hb. simpl in *.
  pose proof (failures_bound ts). rewrite Hc. rewrite incr_small by lia.
  destruct (next_id st <? cap) eqn:E; bool_to_prop.
  - assert (failures cap ts = 0) as F0 by lia.
    assert (next_id st = Z.of_nat (length lg)) as En by lia.
    split; simpl; rewrite ?failures_cons, ?length_app; simpl;
      rewrite ?(proj2 (Z.leb_gt _ _)) by lia; try lia; try done.
    + intros t id [[= -> ->]|]%elem_of_cons ?; [rewrite En; apply logged_end|].
      by apply logged_app, Ht.
    + intros t id [|?]%elem_of_cons; [done|]. destruct (Hin t id); auto using logged_app.
    + intros t id ?. by apply logged_app, Hi.
  - split; simpl; rewrite ?failures_cons; simpl; rewrite ?(proj2 (Z.leb_le _ _)) by lia;
      try lia; try done.
    + intros t id [[= -> ->]|]%elem_of_cons ?; [lia|by apply Ht].
    + intros t id [|?]%elem_of_cons; [done|]. by apply Hin.
Qed.

Lemma race_insert st ts1 ts2 lg s id :
  id < max_capacity st -> race_inv (mkShared st (ts1 ++ Taken s id :: ts2) lg) ->
  race_inv (mkShared (mkInterner (string_to_id st) (<[id := s]> (id_to_string st)) (next_id st)
                   (max_capacity st)) (ts1 ++ Inserted s id :: ts2) lg).
Proof.
  intros Hid [Hc Hl Hn Hf Ht Hin Hi Hs]. simpl in *. rewrite Hc in Hid.
  rewrite failures_app, failures_cons in *. simpl in *.
  rewrite (proj2 (Z.leb_gt _ _)) in * by done.
  assert (logged lg id s) as Hlog by (apply Ht; [set_solver|done]).
  assert (forall i x, id_to_string st !! i = Some x ->
            <[id:=s]> (id_to_string st) !! i = Some x) as Hkeep.
  { intros i x Hx. destruct (decide (i = id)) as [->|]; [|by rewrite lookup_insert_ne].
    rewrite lookup_insert_eq. f_equal. eapply logged_fun; [done|]. by apply Hi. }
  split; simpl; rewrite ?failures_app, ?failures_cons; simpl; try done.
  - intros t i Hin' ?. apply Ht; [set_solver|done].
  - intros t i Hin'. apply elem_of_app in Hin' as [?|[[= -> ->]|?]%elem_of_cons].
    + destruct (Hin t i); [set_solver|auto].
    + split; [done|]. by rewrite lookup_insert_eq.
    + destruct (Hin t i); [set_solver|auto].
  - intros t i [[<- <-]|[? ?]]%lookup_insert_Some; auto.
  - intros t i ?. auto.
Qed.

Lemma race_step x y : bounded x -> race_inv x -> step x y -> race_inv y.
Proof.
  intros Hb I H. destruct H as [st ts lg s Hg Hk|st ts1 ts2 lg s id Hid|st ts1 ts2 lg s
    |st ts1 ts2 lg s id Hid|st ts1 ts2 lg s id].
  - by apply race_fetch_add.
  - destruct I as [Hc Hl Hn Hf Ht Hin Hi Hs]. simpl in *. rewrite Hc in Hid.
    split; simpl; rewrite ?failures_app, ?failures_cons in *; simpl in *;
      rewrite ?(proj2 (Z.leb_le _ _)) in * by lia; try done.
    + intros t i Hti. apply Ht. set_solver.
    + intros t i Hti. apply Hin. set_solver.
  - destruct I as [Hc Hl Hn Hf Ht Hin Hi Hs]. unfold bounded in Hb. simpl in *.
    rewrite failures_app, failures_cons in *. simpl in *.
    pose proof (failures_bound ts1). pose proof (failures_bound ts2).
    rewrite length_app in Hb. simpl in Hb.
    assert (decr (next_id st) = next_id st - 1) as Hd.
    { unfold decr. apply Z.mod_small. change (2 ^ 32) with (u32_max + 1). lia. }
    split; simpl; rewrite ?Hd, ?failures_app; try done; try lia.
    + intros t i Hti. apply Ht. set_solver.
    + intros t i Hti. apply Hin. set_solver.
  - by apply race_insert.
  - destruct I as [Hc Hl Hn Hf Ht Hin Hi Hs]. simpl in *.
    rewrite failures_app, failures_cons in *. simpl in *.
    split; simpl; rewrite ?failures_app; try done; try lia.
    + intros t i Hti. apply Ht. set_solver.
    + intros t i Hti. apply Hin. set_solver.
    + intros t i [[<- <-]|[? ?]]%lookup_insert_Some; [|by apply Hs].
      apply Hin. set_solver.
Qed.

(** Runs with at most [max_threads] threads inside [intern] at a time. *)
Definition bstep (x y : shared) : Prop := step x y /\ bounded y.

Lemma race_reachable x :
  rtc bstep (mkShared (with_max_capacity cap) [] []) x -> race_inv x /\ bounded x.
Proof.
  intros H.
  assert (race_inv (mkShared (with_max_capacity cap) [] []) /\
          bounded (mkShared (with_max_capacity cap) [] [])) as H0.
  { split; [|unfold bounded; simpl; lia]. split; simpl; try done; unfold failures; simpl; try lia; set_solver. }
  revert H0. induction H as [|x y z [Hs Hb] _ IH]; [done|].
  intros [I B]. apply IH. split; [by eapply race_step|done].
Qed.

(** C27: Concurrent interning is sound in every interleaving of the atomic steps
    (with any number of threads at the capacity limit incrementing and rolling
    back the shared counter): an id found for a string resolves to that string,
    two strings never share an id, and no id reaches the capacity. *)
Theorem concurrent_intern_sound (x : shared) :
  rtc bstep (mkShared (with_max_capacity cap) [] []) x ->
  forall s id, get_id (sh_st x) s = Some id ->
    resolve (sh_st x) id = Some s /\ 0 <= id < cap /\
    forall s', get_id (sh_st x) s' = Some id -> s' = s.
Proof.
  intros H s id Hs. destruct (race_reachable x H) as [I _].
  assert (forall t, get_id (sh_st x) t = Some id -> resolve (sh_st x) id = Some t) as Hres
    by (intros t; apply (ri_str _ I)).
  split_and!.
  - by apply Hres.
  - by destruct (ri_ids _ I s id) as [? _]; [apply Hres|].
  - destruct (ri_ids _ I s id) as [? Hl]; [by apply Hres|].
    apply lookup_lt_Some in Hl. pose proof (ri_log _ I). lia.
  - intros s' Hs'. apply Hres in Hs, Hs'. congruence.
Qed.
End RaceProofs.

(** Runs in which [intern_unchecked] calls (the reload of a persisted interner)
    also take place; here each runs without interruption. *)
Inductive mixed_step : shared -> shared -> Prop :=
| m_step x y : step x y -> mixed_step x y
| m_unchecked st ts lg s : s ∉ (thread_key <$> ts) ->
    mixed_step (mkShared st ts lg) (mkShared (intern_unchecked st s).1 ts lg).

(** The roll-back of a rejected [intern] is not safe against
    [intern_unchecked]: a [fetch_sub] that undoes an older [fetch_add] frees an
    id an [intern_unchecked] call took in between, and the next call issues it
    again: two strings share an id and the first no longer resolves to itself. *)
Theorem rollback_reissues_id :
  exists x s1 s2 id,
    rtc mixed_step (mkShared (with_max_capacity 1) [] []) x /\ s1 <> s2 /\
    get_id (sh_st x) s1 = Some id /\ get_id (sh_st x) s2 = Some id /\
    resolve (sh_st x) id = Some s2.
Proof.
  set (k := fun z => [bof z]).
  eexists _, (k 99), (k 100), 2. split.
  { eapply rtc_l; [apply (m_unchecked _ _ _ (k 97)); by apply (bool_decide_unpack _)|].
  eapply rtc_l; [apply m_step, (s_fetch_add _ _ _ (k 98)); [reflexivity|set_solver]|].
  eapply rtc_l; [apply (m_unchecked _ _ _ (k 99)); by apply (bool_decide_unpack _)|].
  eapply rtc_l; [apply m_step, (s_reject _ [] [] _ (k 98) 1); by vm_compute|].
  eapply rtc_l; [apply m_step, (s_fetch_sub _ [] [])|].
  eapply rtc_l; [apply (m_unchecked _ _ _ (k 100)); by apply (bool_decide_unpack _)|].
  apply rtc_refl. }
  by vm_compute.
Qed.

End InternRace.

Module InternWitness.
Import Interning InternRace.

Definition abc : bytes := [bof 97; bof 98; bof 99].

Lemma intern_spec_witness : resolve (intern (with_max_capacity 5) abc).1 0 = Some abc.
Proof.
  assert (interner_wf (with_max_capacity 5)) as W by (apply with_max_capacity_wf; mlia).
  pose proof (intern_spec (with_max_capacity 5) abc W) as H.
  change (intern (with_max_capacity 5) abc) with
    (insert_id (with_max_capacity 5) 1 abc 0, @Ok Error Z 0) in *.
  apply H.
Defined.

Lemma interner_reload_witness : exists l,
  get_all_strings (intern (with_max_capacity 5) abc).1 = Ok l /\
  resolve (intern_all (with_max_capacity 9) l) 0 = Some abc.
Proof.
  assert (interner_wf (intern (with_max_capacity 5) abc).1) as W.
  { eapply (intern_wf (with_max_capacity 5) abc); [apply with_max_capacity_wf; mlia|].
    apply surjective_pairing. }
  destruct (interner_reload (intern (with_max_capacity 5) abc).1 9 W ltac:(mlia))
    as (l & Hl & _ & HR).
  exists l. split; [exact Hl|]. rewrite HR by lia. vm_compute. reflexivity.
Defined.

Lemma concurrent_intern_sound_witness : exists x,
  get_id (sh_st x) abc = Some 0 /\ resolve (sh_st x) 0 = Some abc.
Proof.
  assert (exists x, rtc (bstep 8) (mkShared (with_max_capacity 1) [] []) x /\
            get_id (sh_st x) abc = Some 0) as (x & Hr & Hg).
  { eexists. split.
    - eapply rtc_l; [split; [apply (s_fetch_add _ _ _ abc); [reflexivity|set_solver]|by vm_compute]|].
      eapply rtc_l; [split; [apply (s_insert _ [] [] _ abc 0); by vm_compute|by vm_compute]|].
      eapply rtc_l; [split; [apply (s_publish _ [] [])|by vm_compute]|].
      apply rtc_refl.
    - by vm_compute. }
  exists x. split; [exact Hg|].
  apply (concurrent_intern_sound 1 8 ltac:(mlia) x Hr abc 0 Hg).
Defined.
End InternWitness.
