(* ===== verification/Vectors.v ===== *)
(** * Vectors: [src/core/vector/sparse.rs], [src/core/vector/serialization.rs]

    Floats as their IEEE 754 bit patterns, the sparse vector type with its
    validating constructor, and the dense and sparse binary encodings. *)

From Stdlib Require Import Btauto.
From S2P Require Import Prelude.
From S2P Require Import Bytes.
From S2P Require Import Errors.

(** ** Floats

    An [f32] or [f64] is its bit pattern, which is what [to_le_bytes] writes and
    [from_le_bytes] reads; the tests the code applies to floats are tests on the
    exponent and mantissa fields. *)
Module Float.
Section Format.
(** width of the mantissa and of the exponent field *)
Variables mw ew : Z.

Definition mantissa (x : Z) : Z := Z.land x (Z.ones mw).
Definition exponent (x : Z) : Z := Z.land (Z.shiftr x mw) (Z.ones ew).
Definition is_nan (x : Z) : bool := (exponent x =? Z.ones ew) && negb (mantissa x =? 0).
Definition is_infinite (x : Z) : bool := (exponent x =? Z.ones ew) && (mantissa x =? 0).
Definition is_zero (x : Z) : bool := (exponent x =? 0) && (mantissa x =? 0).
(** IEEE [==]: NaN differs from everything, the two zeros are equal. *)
Definition feq (a b : Z) : bool :=
  negb (is_nan a) && negb (is_nan b) && ((a =? b) || (is_zero a && is_zero b)).
(** [if x.is_nan() { y.is_nan() } else { x == y }] *)
Definition same (a b : Z) : bool := if is_nan a then is_nan b else feq a b.
(** IEEE [<=]: on non-NaN patterns, the order of the sign-magnitude values. *)
Definition magnitude (x : Z) : Z :=
  if x <? 2 ^ (mw + ew) then x else - (x - 2 ^ (mw + ew)).
Definition fle (a b : Z) : bool :=
  negb (is_nan a) && negb (is_nan b) && (magnitude a <=? magnitude b).
End Format.

Abbreviation f32_is_nan := (is_nan 23 8).
Abbreviation f32_is_infinite := (is_infinite 23 8).
Abbreviation f32_is_zero := (is_zero 23 8).
Abbreviation f32_eq := (feq 23 8).
Abbreviation f32_same := (same 23 8).
Abbreviation f64_eq := (feq 52 11).
Abbreviation f64_same := (same 52 11).
Abbreviation f64_is_nan := (is_nan 52 11).
Abbreviation f64_le := (fle 52 11).
(** [0.0] and [1.0] *)
Definition f64_zero : Z := 0.
Definition f64_one : Z := 4607182418800017408.

Lemma feq_refl_iff mw ew a : feq mw ew a a = negb (is_nan mw ew a).
Proof. unfold feq. rewrite Z.eqb_refl. simpl. destruct (is_nan mw ew a); done. Qed.

Lemma feq_sym mw ew a b : feq mw ew a b = feq mw ew b a.
Proof. unfold feq. rewrite (Z.eqb_sym b a). by btauto. Qed.

Lemma same_refl mw ew a : same mw ew a a = true.
Proof. unfold same. rewrite feq_refl_iff. by destruct (is_nan mw ew a). Qed.

Lemma same_sym mw ew a b : same mw ew a b = same mw ew b a.
Proof. unfold same, feq. rewrite (Z.eqb_sym b a). repeat case_goal; simpl; try done; by btauto. Qed.

Lemma same_trans mw ew a b c :
  same mw ew a b = true -> same mw ew b c = true -> same mw ew a c = true.
Proof.
  unfold same, feq. destruct (is_nan mw ew a) eqn:Ea, (is_nan mw ew b) eqn:Eb,
    (is_nan mw ew c) eqn:Ec; simpl; try done.
  rewrite !orb_true_iff, !andb_true_iff, !Z.eqb_eq.
  intros [->|[]] [->|[]]; auto.
Qed.
#[global] Opaque is_nan is_infinite is_zero.
End Float.

(** ** Sorting by key

    [slice::sort_by_key] is stable. *)
Section SortBy.
Context {A : Type} (key : A -> Z).

Fixpoint insert_by (x : A) (l : list A) : list A :=
  match l with
  | [] => [x]
  | y :: l' => if key x <=? key y then x :: l else y :: insert_by x l'
  end.
Fixpoint sort_by_key (l : list A) : list A :=
  match l with [] => [] | x :: l' => insert_by x (sort_by_key l') end.

Lemma insert_by_perm x l : insert_by x l ≡ₚ x :: l.
Proof. induction l as [|y l IH]; simpl; [done|]. case_goal; [done|]. rewrite IH. constructor. Qed.
Lemma sort_by_key_perm l : sort_by_key l ≡ₚ l.
Proof. induction l as [|x l IH]; simpl; [done|]. by rewrite insert_by_perm, IH. Qed.

Lemma insert_by_sorted x l :
  StronglySorted (fun a b => key a <= key b) l ->
  StronglySorted (fun a b => key a <= key b) (insert_by x l).
Proof.
  induction 1 as [|y l Hs IH Hf]; simpl; [repeat constructor|].
  case_goal; bool_to_prop.
  - constructor; [by constructor|]. constructor; [done|].
    eapply Forall_impl; [exact Hf|]. simpl. lia.
  - constructor; [done|]. rewrite insert_by_perm. constructor; [lia|done].
Qed.
Lemma sort_by_key_sorted l : StronglySorted (fun a b => key a <= key b) (sort_by_key l).
Proof. induction l; simpl; [constructor|by apply insert_by_sorted]. Qed.
End SortBy.

(** ** Sparse vectors *)
Module Sparse.
Import Float.

Definition MAX_VECTOR_DIMENSIONS : Z := 100000.

Record SparseVec := mkSparse { indices : list Z; values : list Z; dimension : Z }.

Definition validate_value (val : Z) : res Error unit :=
  if f32_is_nan val then Err (EVector (ContainsNaN 1))
  else if f32_is_infinite val then Err (EVector (ContainsInfinity 1))
  else if f32_is_zero val then Err (EVector InvalidSparseVector)
  else Ok tt.

(** The single-pass validation loop from index 1 on: [true] when it ran to the
    end, [false] when it met a decreasing index and stopped. *)
Fixpoint check_sorted (prev : Z) (rest : list (Z * Z)) (dim : Z) : res Error bool :=
  match rest with
  | [] => Ok true
  | (curr, v) :: rest =>
      if curr <=? prev then
        if curr =? prev then Err (EVector InvalidSparseVector) else Ok false
      else if dim <=? curr then Err (EVector InvalidSparseVector)
      else _ ← validate_value v; check_sorted curr rest dim
  end.

(** The loop over the sorted pairs. *)
Fixpoint check_pairs (prev_idx : option Z) (pairs : list (Z * Z)) (dim : Z) : res Error unit :=
  match pairs with
  | [] => Ok tt
  | (idx, v) :: pairs =>
      _ ← validate_value v;
      if dim <=? idx then Err (EVector InvalidSparseVector)
      else if bool_decide (prev_idx = Some idx) then Err (EVector InvalidSparseVector)
      else check_pairs (Some idx) pairs dim
  end.

Definition new (indices values : list Z) (dim : Z) : res Error SparseVec :=
  if MAX_VECTOR_DIMENSIONS <? dim then Err (EVector (DimensionTooLarge dim MAX_VECTOR_DIMENSIONS))
  else if negb (blen indices =? blen values)
  then Err (EVector (DimensionMismatch (blen indices) (blen values)))
  else match zip indices values with
  | [] => Ok (mkSparse indices values dim)
  | (i0, v0) :: rest =>
      if dim <=? i0 then Err (EVector InvalidSparseVector)
      else
        _ ← validate_value v0;
        is_sorted ← check_sorted i0 rest dim;
        if is_sorted : bool then Ok (mkSparse indices values dim)
        else
          let pairs := sort_by_key fst (zip indices values) in
          _ ← check_pairs None pairs dim;
          Ok (mkSparse pairs.*1 pairs.*2 dim)
  end.

Definition nnz (sv : SparseVec) : Z := blen (indices sv).

(** [to_dense]: a zeroed vector overwritten at each index; an index out of
    range would panic. *)
Definition to_dense (sv : SparseVec) : res Error (list Z) :=
  foldl (fun acc '(idx, v) =>
           d ← acc; if idx <? blen d then Ok (<[Z.to_nat idx := v]> d) else Panic)
    (Ok (replicate (Z.to_nat (dimension sv)) 0)) (zip (indices sv) (values sv)).

(** [derive(PartialEq)] *)
Definition sparse_eq (a b : SparseVec) : bool :=
  bool_decide (indices a = indices b) &&
  (bool_decide (length (values a) = length (values b)) &&
   forallb (fun '(x, y) => f32_eq x y) (zip (values a) (values b))) &&
  (dimension a =? dimension b).

End Sparse.

(** ** The sparse vector invariant *)
Section SparseLemmas.
Import Float Sparse.

(** A stored component: finite and non-zero. *)
Definition value_ok (v : Z) : Prop :=
  f32_is_nan v = false /\ f32_is_infinite v = false /\ f32_is_zero v = false.

Record sparse_wf (sv : SparseVec) : Prop := {
  sw_len : length (indices sv) = length (values sv);
  sw_dim : 0 <= dimension sv <= MAX_VECTOR_DIMENSIONS;
  sw_sorted : StronglySorted Z.lt (indices sv);
  sw_index : Forall (fun i => 0 <= i < dimension sv) (indices sv);
  sw_value : Forall (fun v => in_u32 v /\ value_ok v) (values sv) }.

Lemma validate_value_ok v : validate_value v = Ok tt <-> value_ok v.
Proof.
  unfold validate_value, value_ok.
  destruct (f32_is_nan v), (f32_is_infinite v), (f32_is_zero v); intuition congruence.
Qed.
Lemma validate_value_cases v :
  (validate_value v = Ok tt /\ value_ok v) \/ exists e, validate_value v = Err e.
Proof.
  unfold validate_value, value_ok.
  destruct (f32_is_nan v), (f32_is_infinite v), (f32_is_zero v); eauto.
Qed.

Lemma check_sorted_true prev rest dim :
  check_sorted prev rest dim = Ok true <->
  StronglySorted Z.lt (prev :: rest.*1) /\ Forall (fun p => p.1 < dim /\ value_ok p.2) rest.
Proof.
  revert prev. induction rest as [|[curr v] rest IH]; intros prev; simpl.
  { split; [intros; split; repeat constructor|done]. }
  destruct (curr <=? prev) eqn:E1; bool_to_prop.
  { split.
    - case_goal; done.
    - intros [H _]. inversion_clear H as [|? ? _ Hf]. apply Forall_cons in Hf. lia. }
  destruct (dim <=? curr) eqn:E2; bool_to_prop.
  { split; [done|]. intros [_ [Hc _]%Forall_cons]. simpl in Hc. lia. }
  rewrite bind_ok. setoid_rewrite IH. split.
  - intros ([] & Hv%validate_value_ok & Hs & Hf). split.
    + constructor; [done|]. constructor; [done|].
      inversion_clear Hs as [|? ? _ Hf2]. eapply Forall_impl; [exact Hf2|]. simpl. lia.
    + constructor; [done|done].
  - intros [Hs [[? ?] Hf]%Forall_cons]. exists tt. split; [by apply validate_value_ok|].
    inversion_clear Hs. done.
Qed.

Lemma check_sorted_not_panic prev rest dim : is_panic (check_sorted prev rest dim) = false.
Proof.
  revert prev. induction rest as [|[curr v] rest IH]; intros prev; simpl; [done|].
  repeat case_goal; try done. destruct (validate_value_cases v) as [[-> _]|[e ->]]; simpl; auto.
Qed.

(** The loop accepts a weakly sorted list exactly when it is strictly sorted. *)
Lemma check_pairs_ok prev pairs dim :
  StronglySorted (fun a b : Z * Z => a.1 <= b.1) pairs ->
  (forall p, prev = Some p -> Forall (fun q => p <= q.1) pairs) ->
  check_pairs prev pairs dim = Ok tt <->
  StronglySorted Z.lt (from_option (fun p => [p]) [] prev ++ pairs.*1) /\
  Forall (fun p => p.1 < dim /\ value_ok p.2) pairs.
Proof.
  revert prev. induction pairs as [|[idx v] pairs IH]; intros prev Hw Hp; simpl.
  { rewrite app_nil_r. split; [|done]. intros _. split; [|constructor].
    destruct prev; simpl; repeat constructor. }
  inversion_clear Hw as [|? ? Hw' Hf].
  rewrite bind_ok. split.
  - intros ([] & Hv%validate_value_ok & H). case_hyp H; [done|].
    case_bool_decide as Hne; [done|]. bool_to_prop.
    apply IH in H as [Hs Hall]; [|done|by intros ? [= <-]].
    split; [|by constructor]. destruct prev as [p|]; simpl; [|done].
    specialize (Hp p eq_refl). apply Forall_cons in Hp as [Hle Hp]. simpl in Hle.
    assert (p <> idx) by congruence. constructor; [done|].
    constructor; [lia|]. inversion_clear Hs as [|? ? _ Hf2].
    eapply Forall_impl; [exact Hf2|]. simpl. lia.
  - intros [Hs [[Hd Hv] Hall]%Forall_cons]. exists tt. split; [by apply validate_value_ok|].
    simpl in Hd. rewrite (proj2 (Z.leb_gt _ _)) by done.
    assert (prev <> Some idx) as Hne.
    { intros ->. simpl in Hs. inversion_clear Hs as [|? ? _ Hf2].
      apply Forall_cons in Hf2 as [? _]. lia. }
    rewrite bool_decide_false by done. apply IH; [done|by intros ? [= <-]|].
    split; [|done]. destruct prev; simpl in *; [|done]. by inversion_clear Hs.
Qed.

Lemma check_pairs_not_panic prev pairs dim : is_panic (check_pairs prev pairs dim) = false.
Proof.
  revert prev. induction pairs as [|[idx v] pairs IH]; intros prev; simpl; [done|].
  destruct (validate_value_cases v) as [[-> _]|[e ->]]; simpl; [|done].
  repeat case_goal; auto.
Qed.

Lemma check_sorted_total prev rest dim :
  NoDup (prev :: rest.*1) -> Forall (fun p => p.1 < dim /\ value_ok p.2) rest ->
  exists b, check_sorted prev rest dim = Ok b.
Proof.
  revert prev. induction rest as [|[curr v] rest IH]; intros prev Hnd Hf; simpl; [eauto|].
  apply Forall_cons in Hf as [[? Hv] Hf]. simpl in *.
  apply NoDup_cons in Hnd as [Hne Hnd].
  case_goal; bool_to_prop; [case_goal; bool_to_prop; [set_solver|eauto]|].
  case_goal; bool_to_prop; [lia|]. apply validate_value_ok in Hv as ->. simpl. by apply IH.
Qed.

Lemma sorted_le_lt l : StronglySorted Z.le l -> NoDup l -> StronglySorted Z.lt l.
Proof.
  induction 1 as [|x l Hs IH Hf]; intros Hnd; constructor; apply NoDup_cons in Hnd as [Hx Hnd].
  - by apply IH.
  - rewrite Forall_forall in *. intros y Hy. specialize (Hf y Hy).
    assert (x <> y) by (by intros ->). lia.
Qed.

Lemma sorted_lt_NoDup l : StronglySorted Z.lt l -> NoDup l.
Proof.
  induction 1 as [|x l Hs IH Hf]; constructor; [|done].
  intros Hx. rewrite Forall_forall in Hf. specialize (Hf x Hx). lia.
Qed.

Lemma sort_fst_sorted (pairs : list (Z * Z)) :
  StronglySorted Z.le (sort_by_key fst pairs).*1.
Proof.
  pose proof (sort_by_key_sorted fst pairs) as H.
  induction H as [|x l Hs IH Hf]; simpl; constructor; [done|]. by apply Forall_fmap.
Qed.

(** What [SparseVec::new] demands of its arguments. *)
Definition acceptable (idx vals : list Z) (dim : Z) : Prop :=
  dim <= MAX_VECTOR_DIMENSIONS /\ length idx = length vals /\ NoDup idx /\
  Forall (fun i => i < dim) idx /\ Forall value_ok vals.

Lemma acceptable_pairs idx vals dim :
  acceptable idx vals dim ->
  Forall (fun p : Z * Z => p.1 < dim /\ value_ok p.2) (zip idx vals).
Proof.
  intros (_ & Hl & _ & Hi & Hv). revert vals Hl Hv.
  induction Hi as [|i idx ? ? IH]; intros [|v vals] Hl Hv; try done; simpl; constructor.
  - by apply Forall_cons in Hv as [? _].
  - apply Forall_cons in Hv as [_ ?]. apply IH; [by simplify_eq|done].
Qed.

Lemma blen_eq {A B} (a : list A) (b : list B) : (blen a =? blen b) = true <-> length a = length b.
Proof. unfold blen. lia. Qed.

(** The validation loop, then the sorting path, both decide acceptability. *)
Lemma sparse_new_ok idx vals dim sv :
  new idx vals dim = Ok sv ->
  acceptable idx vals dim /\ dimension sv = dim /\
  length (indices sv) = length (values sv) /\ StronglySorted Z.lt (indices sv) /\
  zip (indices sv) (values sv) ≡ₚ zip idx vals.
Proof.
  unfold new. case_goal; [done|]. bool_to_prop.
  destruct (blen idx =? blen vals) eqn:El; [|done]. simpl. apply blen_eq in El.
  assert ((zip idx vals).*1 = idx) as E1 by (apply fst_zip; lia).
  assert ((zip idx vals).*2 = vals) as E2 by (apply snd_zip; lia).
  assert (forall l, l ≡ₚ zip idx vals -> StronglySorted Z.lt l.*1 ->
    Forall (fun p => p.1 < dim /\ value_ok p.2) l -> acceptable idx vals dim) as Hacc.
  { intros l Hp Hs Hf. rewrite Hp in Hf. split_and!; try done.
    - rewrite <-E1, <-Hp. by apply sorted_lt_NoDup.
    - rewrite <-E1. apply Forall_fmap. eapply Forall_impl; [exact Hf|]. naive_solver.
    - rewrite <-E2. apply Forall_fmap. eapply Forall_impl; [exact Hf|]. naive_solver. }
  destruct (zip idx vals) as [|[i0 v0] rest] eqn:Ez.
  { intros [= <-]. simpl in *. subst.
    split; [apply (Hacc []); [done|constructor|constructor]|].
    split_and!; try done. constructor. }
  case_goal; [done|]. bool_to_prop. rewrite bind_ok. intros ([] & Hv%validate_value_ok & H).
  apply bind_ok in H as ([] & Hc & H).
  - apply check_sorted_true in Hc as [Hs Hf]. injection H as <-. simpl. rewrite Ez.
    assert (StronglySorted Z.lt (((i0, v0) :: rest).*1)) as Hs' by done.
    split_and!; try done; [|by rewrite <-E1].
    apply (Hacc ((i0, v0) :: rest)); [done|done|by constructor].
  - apply bind_ok in H as ([] & Hp & H). injection H as <-.
    pose proof (sort_by_key_perm fst ((i0, v0) :: rest)) as Hperm.
    apply check_pairs_ok in Hp as [Hs Hf]; [|apply sort_by_key_sorted|done].
    simpl indices. simpl values. rewrite zip_fst_snd. split_and!; try done.
    + by apply (Hacc _ Hperm).
    + by rewrite !length_fmap.
Qed.

Lemma acceptable_new idx vals dim :
  acceptable idx vals dim -> exists sv, new idx vals dim = Ok sv.
Proof.
  intros Ha. pose proof (acceptable_pairs _ _ _ Ha) as Hf.
  destruct Ha as (Hd & Hl & Hnd & _ & _). unfold new.
  rewrite (proj2 (Z.ltb_ge _ _)) by done. rewrite (proj2 (blen_eq idx vals)) by done. simpl.
  assert ((zip idx vals).*1 = idx) as E1 by (apply fst_zip; lia).
  destruct (zip idx vals) as [|[i0 v0] rest] eqn:Ez; [eauto|].
  apply Forall_cons in Hf as Hf'. destruct Hf' as [[Hi0 Hv0] Hf'].
  simpl in Hi0. rewrite (proj2 (Z.leb_gt _ _)) by done.
  rewrite (proj2 (validate_value_ok v0)) by done. simpl.
  destruct (check_sorted_total i0 rest dim) as [[] ->]; simpl; [|done|eauto|].
  { change (NoDup ((i0, v0) :: rest).*1). by rewrite E1. }
  assert (check_pairs None (sort_by_key fst ((i0, v0) :: rest)) dim = Ok tt) as E;
    [|change (insert_by fst (i0, v0) (sort_by_key fst rest)) with
        (sort_by_key fst ((i0, v0) :: rest)); rewrite E; simpl; eauto].
  pose proof (sort_by_key_perm fst ((i0, v0) :: rest)) as Hperm.
  apply check_pairs_ok; [apply sort_by_key_sorted|done|]. split; [|by rewrite Hperm].
  apply sorted_le_lt; [apply sort_fst_sorted|]. rewrite Hperm, E1. done.
Qed.

Lemma new_wf idx vals dim sv :
  0 <= dim -> Forall (fun i => 0 <= i) idx -> Forall in_u32 vals ->
  new idx vals dim = Ok sv -> sparse_wf sv.
Proof.
  intros Hd Hi Hv E. apply sparse_new_ok in E as ((? & El & _ & Hlt & Hvo) & <- & Hl & Hs & Hp).
  assert (indices sv ≡ₚ idx) as Pi.
  { rewrite <-(fst_zip (indices sv) (values sv)) by lia. rewrite Hp. by rewrite fst_zip by lia. }
  assert (values sv ≡ₚ vals) as Pv.
  { rewrite <-(snd_zip (indices sv) (values sv)) by lia. rewrite Hp. by rewrite snd_zip by lia. }
  split; try done.
  - rewrite Pi. rewrite Forall_forall in *. intros i ?. split; auto.
  - rewrite Pv. rewrite Forall_forall in *. intros i ?. split; auto.
Qed.

(** Building a vector from its own parts changes nothing. *)
Lemma new_self sv :
  sparse_wf sv -> new (indices sv) (values sv) (dimension sv) = Ok sv.
Proof.
  intros [Hl Hd Hs Hi Hv]. unfold new.
  rewrite (proj2 (Z.ltb_ge _ _)) by lia. rewrite (proj2 (blen_eq _ _)) by done. simpl.
  destruct sv as [idx vals dim]. simpl in *.
  assert ((zip idx vals).*1 = idx) as E1 by (apply fst_zip; lia).
  assert (Forall (fun p : Z * Z => p.1 < dim /\ value_ok p.2) (zip idx vals)) as Hf.
  { apply acceptable_pairs. split_and!; try done; try lia; [by apply sorted_lt_NoDup| |].
    - eapply Forall_impl; [exact Hi|]. simpl. lia.
    - eapply Forall_impl; [exact Hv|]. naive_solver. }
  destruct (zip idx vals) as [|[i0 v0] rest] eqn:Ez; [done|].
  apply Forall_cons in Hf as [[Hi0 Hv0] Hf]. simpl in Hi0.
  rewrite (proj2 (Z.leb_gt _ _)) by done.
  rewrite (proj2 (validate_value_ok v0)) by done. simpl.
  assert (check_sorted i0 rest dim = Ok true) as ->; [|done].
  apply check_sorted_true. split; [|done]. change (StronglySorted Z.lt ((i0, v0) :: rest).*1).
  by rewrite E1.
Qed.

Lemma new_not_panic idx vals dim : is_panic (new idx vals dim) = false.
Proof.
  unfold new. do 2 (case_goal; [done|]). destruct (zip idx vals) as [|[i0 v0] rest]; [done|].
  case_goal; [done|]. destruct (validate_value_cases v0) as [[-> _]|[e ->]]; [|done]. cbn [mbind res_bind].
  pose proof (check_sorted_not_panic i0 rest dim).
  destruct (check_sorted i0 rest dim) as [[]| |]; try done. cbn [mbind res_bind].
  pose proof (check_pairs_not_panic None (sort_by_key fst ((i0, v0) :: rest)) dim).
  by destruct (check_pairs _ _ _).
Qed.
End SparseLemmas.

(** ** Properties of the constructor *)
Section SparseProperties.
Import Sparse.

(** [SparseVec::new] never panics, succeeds exactly on acceptable input
    (matching lengths, dimension within the limit, distinct indices below the
    dimension, finite non-zero values), and then yields the invariant of the
    type, with the same index/value pairs in strictly increasing index order:
    the fast single-pass path and the sorting path agree on this. *)
Theorem sparse_new_spec (idx vals : list Z) (dim : Z) :
  0 <= dim -> Forall (fun i => 0 <= i) idx -> Forall in_u32 vals ->
  match new idx vals dim with
  | Ok sv => acceptable idx vals dim /\ sparse_wf sv /\ dimension sv = dim /\
             zip (indices sv) (values sv) ≡ₚ zip idx vals
  | Err _ => ~ acceptable idx vals dim
  | Panic => False
  end.
Proof.
  intros Hd Hi Hv. destruct (new idx vals dim) as [sv|e|] eqn:E.
  - pose proof (new_wf _ _ _ _ Hd Hi Hv E). by apply sparse_new_ok in E as (? & ? & _ & _ & ?).
  - intros [sv Hsv]%acceptable_new. congruence.
  - pose proof (new_not_panic idx vals dim) as H. by rewrite E in H.
Qed.
End SparseProperties.

(** ** Binary encoding *)
Module VecCodec.
Import Sparse.

Definition TAG_VECTOR : Z := 7.
Definition TAG_SPARSE_VECTOR : Z := 8.
#[export] Hint Unfold TAG_VECTOR TAG_SPARSE_VECTOR MAX_VECTOR_DIMENSIONS nnz : machine.

Definition validate_vector_dimensions (len : Z) : res Error unit :=
  if MAX_VECTOR_DIMENSIONS <? len
  then Err (EVector (DimensionTooLarge len MAX_VECTOR_DIMENSIONS)) else Ok tt.

(** A slice of 4-byte words in memory order (little-endian targets copy the
    slice, the others write each word with [to_le_bytes]). *)
Fixpoint words_bytes (v : list Z) : bytes :=
  match v with [] => [] | x :: v => to_le 4 x ++ words_bytes v end.

(** [as_chunks::<4>()], each read with [from_le_bytes] *)
Fixpoint bytes_words (b : bytes) : list Z :=
  match b with
  | b0 :: b1 :: b2 :: b3 :: rest => from_le [b0; b1; b2; b3] :: bytes_words rest
  | _ => []
  end.

Definition try_serialize_vector_into (v : list Z) (buffer : bytes) : res Error bytes :=
  _ ← validate_vector_dimensions (blen v);
  let buffer := buffer ++ [bof TAG_VECTOR] in
  let buffer := buffer ++ to_le 4 (blen v) in
  Ok (buffer ++ words_bytes v).

(** [unwrap_or_else(|e| panic!(..))] *)
Definition serialize_vector_into (v : list Z) (buffer : bytes) : res Error bytes :=
  match try_serialize_vector_into v buffer with Err _ => Panic | r => r end.

Definition serialize_vector (v : list Z) : res Error bytes := serialize_vector_into v [].

Definition deserialize_vector (b : bytes) : res Error (list Z * Z) :=
  if blen b <? 5 then Err (EStorage CorruptedData)
  else
    tag ← read_u8 b 0;
    if negb (tag =? TAG_VECTOR) then Err (EStorage CorruptedData)
    else
      dimension ← read_u32 b 1;
      _ ← validate_vector_dimensions dimension;
      let data_start := 5 in
      data_len ← ok_or (usize_checked_mul dimension 4) (EStorage CorruptedData);
      total_len ← ok_or (usize_checked_add data_start data_len) (EStorage CorruptedData);
      if blen b <? total_len then Err (EStorage CorruptedData)
      else
        data_slice ← expect (slice b data_start total_len);
        Ok (bytes_words data_slice, total_len).

Definition serialize_sparse_vector_into (sv : SparseVec) (buffer : bytes) : bytes :=
  let buffer := buffer ++ [bof TAG_SPARSE_VECTOR] in
  let buffer := buffer ++ to_le 4 (dimension sv) in
  let buffer := buffer ++ to_le 4 (nnz sv) in
  let buffer := buffer ++ words_bytes (indices sv) in
  buffer ++ words_bytes (values sv).

Definition serialize_sparse_vector (sv : SparseVec) : bytes := serialize_sparse_vector_into sv [].

Definition deserialize_sparse_vector (b : bytes) : res Error (SparseVec * Z) :=
  if blen b <? 9 then Err (EStorage CorruptedData)
  else
    tag ← read_u8 b 0;
    if negb (tag =? TAG_SPARSE_VECTOR) then Err (EStorage CorruptedData)
    else
      dim ← read_u32 b 1;
      n ← read_u32 b 5;
      if dim <? n then Err (EStorage CorruptedData)
      else
        _ ← validate_vector_dimensions n;
        let data_start := 9 in
        indices_len ← ok_or (usize_checked_mul n 4) (EStorage CorruptedData);
        let values_len := indices_len in
        total_len ← ok_or (usize_checked_add data_start indices_len ≫= fun x =>
                             usize_checked_add x values_len) (EStorage CorruptedData);
        if blen b <? total_len then Err (EStorage CorruptedData)
        else
          let indices_end := data_start + indices_len in
          indices_slice ← expect (slice b data_start indices_end);
          let values_end := indices_end + values_len in
          values_slice ← expect (slice b indices_end values_end);
          sv ← Sparse.new (bytes_words indices_slice) (bytes_words values_slice) dim;
          Ok (sv, total_len).

End VecCodec.

Section VecLemmas.
Import Sparse VecCodec.

Lemma blen_words v : blen (words_bytes v) = 4 * blen v.
Proof. induction v; simpl; blia. Qed.

#[local] Hint Rewrite blen_words : codec.

Lemma words_roundtrip v : Forall in_u32 v -> bytes_words (words_bytes v) = v.
Proof.
  induction 1 as [|x v Hx _ IH]; [done|]. cbn [words_bytes].
  pose proof (from_to_le_u32 x Hx) as Hf. pose proof (blen_to_le 4 x) as Hl.
  destruct (to_le 4 x) as [|b0 [|b1 [|b2 [|b3 [|b4 l]]]]];
    try (exfalso; revert Hl; rewrite ?blen_cons, ?blen_nil; try pose proof (blen_nonneg l); lia).
  cbn [app bytes_words]. by rewrite IH, Hf.
Qed.

(** Decoding words gives one [u32] per four bytes. *)
Lemma bytes_words_range n b :
  blen b = 4 * Z.of_nat n -> length (bytes_words b) = n /\ Forall in_u32 (bytes_words b).
Proof.
  revert b. induction n as [|n IH]; intros b Hb.
  { destruct b; [by split|]. exfalso. blia. }
  destruct b as [|b0 [|b1 [|b2 [|b3 rest]]]]; try (exfalso; blia).
  cbn [bytes_words]. destruct (IH rest) as [E F]; [blia|]. split; [simpl; lia|].
  constructor; [|done]. by apply from_le_u32_range.
Qed.

Lemma validate_dims_ok n : n <= MAX_VECTOR_DIMENSIONS -> validate_vector_dimensions n = Ok tt.
Proof. intros. unfold validate_vector_dimensions. by rewrite (proj2 (Z.ltb_ge _ _)) by done. Qed.

Lemma validate_dims_safe n :
  safe (validate_vector_dimensions n) (fun _ => n <= MAX_VECTOR_DIMENSIONS).
Proof. unfold validate_vector_dimensions. case_goal; bool_to_prop; done. Qed.

Lemma checked_safe {E} lo hi z (e : E) :
  safe (ok_or (checked lo hi z) e) (fun v => v = z /\ lo <= z <= hi).
Proof. destruct (checked lo hi z) eqn:H; [|done]. apply checked_some in H. done. Qed.

(** A vector within the dimension limit. *)
Definition vector_ok (v : list Z) : Prop :=
  Forall in_u32 v /\ blen v <= MAX_VECTOR_DIMENSIONS.

Definition vector_bytes (v : list Z) : bytes :=
  bof TAG_VECTOR :: to_le 4 (blen v) ++ words_bytes v.
Definition sparse_bytes (sv : SparseVec) : bytes :=
  bof TAG_SPARSE_VECTOR :: to_le 4 (dimension sv) ++ to_le 4 (nnz sv) ++
    words_bytes (indices sv) ++ words_bytes (values sv).

Lemma try_serialize_vector_app v buffer :
  blen v <= MAX_VECTOR_DIMENSIONS ->
  try_serialize_vector_into v buffer = Ok (buffer ++ vector_bytes v).
Proof.
  intros. unfold try_serialize_vector_into. rewrite validate_dims_ok by done. simpl.
  by rewrite <-!app_assoc.
Qed.

Lemma serialize_sparse_app sv buffer :
  serialize_sparse_vector_into sv buffer = buffer ++ sparse_bytes sv.
Proof. unfold serialize_sparse_vector_into, sparse_bytes. by rewrite <-!app_assoc. Qed.

Lemma blen_vector_bytes v : blen (vector_bytes v) = 5 + 4 * blen v.
Proof. unfold vector_bytes. rewrite blen_cons, !blen_app, blen_words, blen_to_le. lia. Qed.

Lemma blen_sparse_bytes sv :
  sparse_wf sv -> blen (sparse_bytes sv) = 9 + 8 * nnz sv.
Proof.
  intros W. unfold sparse_bytes, nnz. rewrite blen_cons, !blen_app, !blen_words, !blen_to_le.
  unfold blen. pose proof (sw_len _ W). lia.
Qed.

Lemma deserialize_vector_app v post :
  vector_ok v -> deserialize_vector (vector_bytes v ++ post) = Ok (v, blen (vector_bytes v)).
Proof.
  intros [Hv Hd]. unfold deserialize_vector. set (b := vector_bytes v ++ post).
  pose proof (blen_vector_bytes v) as Hb. pose proof (blen_nonneg v). pose proof (blen_nonneg post).
  assert (blen b = 5 + 4 * blen v + blen post) as Lb by (unfold b; rewrite blen_app; lia).
  assert (at_off b 0 ([bof TAG_VECTOR] ++ to_le 4 (blen v) ++ words_bytes v ++ post)) as A0.
  { unfold b, vector_bytes. cbn [app]. rewrite <-app_assoc. apply at_off_0. }
  skip_at A0 1 as A1.
  skip_at A1 5 as A5.
  unfold MAX_VECTOR_DIMENSIONS in Hd.
  rewrite (proj2 (Z.ltb_ge _ _)) by lia.
  rewrite (at_u8 b 0 TAG_VECTOR _ A0) by mlia. simpl.
  rewrite (at_u32 b 1 _ _ A1) by mlia. simpl.
  rewrite validate_dims_ok by done. simpl.
  unfold usize_checked_mul, usize_checked_add.
  rewrite checked_in by mlia. simpl. rewrite checked_in by mlia. simpl.
  rewrite (proj2 (Z.ltb_ge _ _)) by lia.
  rewrite (at_off_slice b 5 _ _ _ A5) by (rewrite blen_words; lia). simpl.
  rewrite words_roundtrip by done. do 2 f_equal. lia.
Qed.

Lemma deserialize_vector_safe b :
  safe (deserialize_vector b) (fun '(v, n) =>
    vector_ok v /\ 0 < n <= blen b /\ n = blen (vector_bytes v)).
Proof.
  unfold deserialize_vector. repeat safe_step.
  eapply safe_bind; [apply validate_dims_safe|intros ? _ Hd].
  eapply safe_bind; [apply checked_safe|intros ? _ [-> ?]].
  eapply safe_bind; [apply checked_safe|intros ? _ [-> ?]].
  safe_step; [exact I|]. autounfold with machine in *.
  destruct (slice_ok b 5 (5 + a0 * 4)) as (x & -> & Hx); [lia..|]. simpl.
  destruct (bytes_words_range (Z.to_nat a0) x) as [El Fl]; [lia|].
  assert (blen (bytes_words x) = a0) by (unfold blen; rewrite El; lia).
  rewrite blen_vector_bytes. split; [|lia]. split; [done|mlia].
Qed.

Lemma deserialize_sparse_app sv post :
  sparse_wf sv ->
  deserialize_sparse_vector (sparse_bytes sv ++ post) = Ok (sv, blen (sparse_bytes sv)).
Proof.
  intros W. unfold deserialize_sparse_vector. set (b := sparse_bytes sv ++ post).
  pose proof (blen_sparse_bytes sv W) as Hb. pose proof (blen_nonneg (indices sv)).
  pose proof (blen_nonneg post).
  assert (nnz sv <= dimension sv) as Hn.
  { unfold nnz, blen. pose proof (sw_index _ W) as Hi. pose proof (sw_sorted _ W) as Hs.
    pose proof (sw_dim _ W). apply sorted_lt_NoDup in Hs.
    assert (indices sv ⊆ seqZ 0 (dimension sv)) as Hsub.
    { intros i Hin. rewrite Forall_forall in Hi. apply elem_of_seqZ. specialize (Hi i Hin). lia. }
    pose proof (submseteq_length _ _ (NoDup_submseteq _ _ Hs Hsub)) as Hle.
    rewrite length_seqZ in Hle. lia. }
  pose proof (sw_dim _ W) as Hdim. unfold MAX_VECTOR_DIMENSIONS in Hdim.
  assert (blen (values sv) = nnz sv) as Hvl.
  { unfold nnz, blen. f_equal. symmetry. apply W. }
  assert (blen b = 9 + 8 * nnz sv + blen post) as Lb by (unfold b; rewrite blen_app; lia).
  assert (at_off b 0 ([bof TAG_SPARSE_VECTOR] ++ to_le 4 (dimension sv) ++ to_le 4 (nnz sv) ++
    words_bytes (indices sv) ++ words_bytes (values sv) ++ post)) as A0.
  { unfold b, sparse_bytes. cbn [app]. rewrite <-!app_assoc. apply at_off_0. }
  skip_at A0 1 as A1.
  skip_at A1 5 as A5.
  skip_at A5 9 as A9.
  skip_at A9 (9 + nnz sv * 4) as Av.
  rewrite (proj2 (Z.ltb_ge _ _)) by (unfold nnz in *; lia).
  rewrite (at_u8 b 0 TAG_SPARSE_VECTOR _ A0) by mlia. simpl.
  rewrite (at_u32 b 1 _ _ A1) by mlia. simpl.
  rewrite (at_u32 b 5 _ _ A5) by (unfold nnz in *; mlia). simpl.
  rewrite (proj2 (Z.ltb_ge _ _)) by lia. simpl.
  rewrite validate_dims_ok by (unfold MAX_VECTOR_DIMENSIONS; lia). simpl.
  unfold usize_checked_mul, usize_checked_add.
  rewrite checked_in by (unfold nnz in *; mlia). simpl.
  rewrite checked_in by (unfold nnz in *; mlia). simpl.
  rewrite checked_in by (unfold nnz in *; mlia). simpl.
  rewrite (proj2 (Z.ltb_ge _ _)) by (unfold nnz in *; lia).
  rewrite (at_off_slice b 9 _ _ _ A9) by (rewrite blen_words; unfold nnz; lia). simpl.
  rewrite (at_off_slice b _ _ _ _ Av) by (rewrite blen_words; lia). simpl.
  rewrite !words_roundtrip.
  - rewrite new_self by done. simpl. do 2 f_equal. unfold nnz in *. lia.
  - eapply Forall_impl; [apply (sw_value _ W)|]. naive_solver.
  - eapply Forall_impl; [apply (sw_index _ W)|]. simpl. mlia.
Qed.

Lemma deserialize_sparse_safe b :
  safe (deserialize_sparse_vector b) (fun '(sv, n) =>
    sparse_wf sv /\ 0 < n <= blen b /\ n = blen (sparse_bytes sv)).
Proof.
  unfold deserialize_sparse_vector. repeat safe_step.
  eapply safe_bind; [apply validate_dims_safe|intros ? _ Hd].
  eapply safe_bind; [apply checked_safe|intros ? _ [-> ?]].
  unfold usize_checked_add. destruct (checked 0 usize_max (9 + a1 * 4)) as [z|] eqn:E1; [|done].
  apply checked_some in E1 as [-> _]. cbn [mbind option_bind].
  eapply safe_bind; [apply checked_safe|intros ? _ [-> ?]].
  safe_step; [exact I|]. autounfold with machine in *.
  destruct (slice_ok b 9 (9 + a1 * 4)) as (x & -> & Hx); [lia..|]. cbn [mbind res_bind expect].
  destruct (slice_ok b (9 + a1 * 4) (9 + a1 * 4 + a1 * 4)) as (y & -> & Hy); [lia..|].
  cbn [mbind res_bind expect].
  destruct (bytes_words_range (Z.to_nat a1) x) as [El Fl]; [lia|].
  destruct (bytes_words_range (Z.to_nat a1) y) as [Em Fm]; [lia|].
  pose proof (new_not_panic (bytes_words x) (bytes_words y) a0).
  destruct (Sparse.new (bytes_words x) (bytes_words y) a0) as [sv| |] eqn:En; try done. simpl.
  assert (sparse_wf sv) as W.
  { eapply new_wf; [| | |exact En]; [lia| |done]. eapply Forall_impl; [exact Fl|]. simpl. mlia. }
  rewrite blen_sparse_bytes by done. split_and!; [done|lia..|].
  apply sparse_new_ok in En as (_ & _ & Hl & _ & Hp). apply Permutation_length in Hp.
  rewrite !length_zip in Hp. unfold nnz, blen. lia.
Qed.
End VecLemmas.

(** ** Properties of the dense form and of the encodings *)
Section VecProperties.
Import Sparse VecCodec.

Lemma to_dense_fold pairs d0 :
  Forall (fun p : Z * Z => 0 <= p.1 < blen d0) pairs -> NoDup pairs.*1 ->
  exists d, foldl (fun acc '(idx, v) =>
      d ← acc; if idx <? blen d then Ok (<[Z.to_nat idx := v]> d) else Panic)
      (Ok (E := Error) d0) pairs = Ok d /\
    length d = length d0 /\
    (forall i v, (i, v) ∈ pairs -> d !! Z.to_nat i = Some v) /\
    (forall i, 0 <= i -> i ∉ pairs.*1 -> d !! Z.to_nat i = d0 !! Z.to_nat i).
Proof.
  revert d0. induction pairs as [|[idx v] pairs IH]; intros d0 Hf Hnd; simpl.
  { exists d0. split_and!; try done. set_solver. }
  apply Forall_cons in Hf as [Hi Hf]. simpl in Hi. apply NoDup_cons in Hnd as [Hni Hnd].
  rewrite (proj2 (Z.ltb_lt _ _)) by lia.
  destruct (IH (<[Z.to_nat idx:=v]> d0)) as (d & Hd & Hl & Hin & Hout); [|done|].
  { eapply Forall_impl; [exact Hf|]. unfold blen. intros p. rewrite length_insert. done. }
  exists d. split; [done|]. rewrite length_insert in Hl. split; [done|]. split.
  - intros i w [[= -> ->]|Hiw]%elem_of_cons; [|by apply Hin].
    rewrite Hout by (done || lia). apply list_lookup_insert_eq. unfold blen in *. lia.
  - intros i Hi0 [Hne Hnin]%not_elem_of_cons. rewrite Hout by done.
    apply list_lookup_insert_ne. simpl in Hne. lia.
Qed.

(** [to_dense] of a valid sparse vector never indexes out of range; the
    result has the vector's dimension, holds each stored value at its index and
    zero everywhere else. *)
Theorem to_dense_spec (sv : SparseVec) :
  sparse_wf sv ->
  exists d, to_dense sv = Ok d /\ blen d = dimension sv /\
    (forall i v, (i, v) ∈ zip (indices sv) (values sv) -> d !! Z.to_nat i = Some v) /\
    (forall i, 0 <= i < dimension sv -> i ∉ indices sv -> d !! Z.to_nat i = Some 0).
Proof.
  intros [Hl Hd Hs Hi Hv]. unfold to_dense.
  assert ((zip (indices sv) (values sv)).*1 = indices sv) as E1 by (apply fst_zip; lia).
  destruct (to_dense_fold (zip (indices sv) (values sv))
    (replicate (Z.to_nat (dimension sv)) 0)) as (d & Hfold & Hlen & Hin & Hout).
  - unfold blen. rewrite length_replicate.
    apply (Forall_fmap fst (fun i => 0 <= i < Z.of_nat (Z.to_nat (dimension sv)))).
    rewrite E1. eapply Forall_impl; [exact Hi|]. simpl. lia.
  - rewrite E1. by apply sorted_lt_NoDup.
  - exists d. rewrite length_replicate in Hlen. split_and!; try done.
    + unfold blen. lia.
    + intros i Hir Hni. rewrite Hout by (rewrite ?E1; done || lia).
      apply lookup_replicate_2. lia.
Qed.

(** The dense and the sparse encodings read back exactly what was written,
    consuming exactly the bytes written whatever follows; a dense vector over
    the dimension limit is refused when writing. *)
Theorem vector_roundtrip (v : list Z) (sv : SparseVec) (buffer post : bytes) :
  Forall in_u32 v -> sparse_wf sv ->
  match try_serialize_vector_into v buffer with
  | Ok out => exists x, out = buffer ++ x /\
      deserialize_vector (x ++ post) = Ok (v, blen x) /\ blen x = 5 + 4 * blen v
  | Err e => MAX_VECTOR_DIMENSIONS < blen v /\ serialize_vector_into v buffer = Panic
  | Panic => False
  end /\
  exists y, serialize_sparse_vector_into sv buffer = buffer ++ y /\
    deserialize_sparse_vector (y ++ post) = Ok (sv, blen y).
Proof.
  intros Hv Hs. split.
  - destruct (Z_lt_le_dec MAX_VECTOR_DIMENSIONS (blen v)) as [Hgt|Hle].
    + unfold serialize_vector_into, try_serialize_vector_into, validate_vector_dimensions.
      by rewrite (proj2 (Z.ltb_lt _ _)).
    + rewrite try_serialize_vector_app by done. exists (vector_bytes v).
      split_and!; [done|by apply deserialize_vector_app|apply blen_vector_bytes].
  - exists (sparse_bytes sv). by rewrite serialize_sparse_app, deserialize_sparse_app.
Qed.
End VecProperties.

Module VecWitness.
Import Sparse VecCodec.

(** 1.0f32 and 2.0f32 *)
Definition one : Z := 1065353216.
Definition two : Z := 1073741824.
Definition sv : SparseVec := mkSparse [1; 3] [one; two] 4.

Lemma sv_wf : sparse_wf sv.
Proof.
  split; simpl; try done; try mlia; repeat constructor; try lia; try mlia; by vm_compute.
Qed.

Lemma sparse_new_spec_witness : new [3; 1] [two; one] 4 = Ok sv /\ acceptable [3; 1] [two; one] 4.
Proof.
  pose proof (sparse_new_spec [3; 1] [two; one] 4 ltac:(lia)
    ltac:(repeat constructor; lia) ltac:(repeat constructor; by vm_compute)) as H.
  assert (new [3; 1] [two; one] 4 = Ok sv) as E by (vm_compute; reflexivity).
  rewrite E in H. split; [exact E|]. apply H.
Defined.

Lemma to_dense_spec_witness : exists d, to_dense sv = Ok d /\ d !! 3%nat = Some two.
Proof.
  destruct (to_dense_spec sv sv_wf) as (d & Hd & _ & Hin & _).
  exists d. split; [exact Hd|]. apply (Hin 3 two). right. left.
Defined.

Lemma vector_roundtrip_witness : exists y,
  serialize_sparse_vector_into sv [] = y /\ deserialize_sparse_vector (y ++ []) = Ok (sv, blen y).
Proof.
  destruct (vector_roundtrip [one] sv [] [] ltac:(repeat constructor; by vm_compute) sv_wf)
    as [_ (y & Hy & Hd)].
  exists y. split; [exact Hy|exact Hd].
Defined.
End VecWitness.
