(* ===== verification/Property.v ===== *)
(** * Property values: [src/core/property/value.rs]

    The property value type, its two equalities (explicit-stack loops), the
    recursive binary encoding with its depth limit, and the size computation. *)

From S2P Require Import Prelude.
From S2P Require Import Bytes.
From S2P Require Import Errors.
From S2P Require Import Vectors.

(** The reference counted payloads are their contents; what depends on the
    identity of an allocation takes the pointer test as a parameter. *)
Inductive PropertyValue :=
  | PNull
  | PBool (b : bool)
  | PInt (i : Z)
  | PFloat (bits : Z)
  | PString (s : bytes)
  | PBytes (b : bytes)
  | PArray (items : list PropertyValue)
  | PVector (v : list Z)
  | PSparse (sv : Sparse.SparseVec).

Section PropertyInd.
Variable P : PropertyValue -> Prop.
Hypothesis Hnull : P PNull.
Hypothesis Hbool : forall b, P (PBool b).
Hypothesis Hnum : forall i, P (PInt i).
Hypothesis Hfloat : forall f, P (PFloat f).
Hypothesis Hstring : forall s, P (PString s).
Hypothesis Hbytes : forall b, P (PBytes b).
Hypothesis Harray : forall l, Forall P l -> P (PArray l).
Hypothesis Hvector : forall v, P (PVector v).
Hypothesis Hsparse : forall sv, P (PSparse sv).

Fixpoint property_ind (v : PropertyValue) : P v :=
  match v with
  | PNull => Hnull
  | PBool b => Hbool b
  | PInt i => Hnum i
  | PFloat f => Hfloat f
  | PString s => Hstring s
  | PBytes b => Hbytes b
  | PArray l => Harray l
      ((fix go (l : list PropertyValue) : Forall P l :=
          match l with
          | [] => List.Forall_nil P
          | x :: l => List.Forall_cons P x l (property_ind x) (go l)
          end) l)
  | PVector v => Hvector v
  | PSparse sv => Hsparse sv
  end.
End PropertyInd.

Module Property.
Import Float Sparse VecCodec.

Definition MAX_RECURSION_DEPTH : Z := 100.
Definition MAX_ARRAY_ELEMENTS : Z := 10000000.
Definition TAG_NULL : Z := 0.
Definition TAG_BOOL : Z := 1.
Definition TAG_INT : Z := 2.
Definition TAG_FLOAT : Z := 3.
Definition TAG_STRING : Z := 4.
Definition TAG_BYTES : Z := 5.
Definition TAG_ARRAY : Z := 6.
#[export] Hint Unfold MAX_RECURSION_DEPTH MAX_ARRAY_ELEMENTS TAG_NULL TAG_BOOL TAG_INT
  TAG_FLOAT TAG_STRING TAG_BYTES TAG_ARRAY : machine.

(** *** Constructors *)
Definition try_vector (v : list Z) : res Error PropertyValue :=
  _ ← validate_vector_dimensions (blen v); Ok (PVector v).
Definition vector (v : list Z) : res Error PropertyValue :=
  match try_vector v with Err _ => Panic | r => r end.

(** *** Equality *)
Section Equality.
(** [Arc::ptr_eq] on the payloads *)
Variable ptr_eq : PropertyValue -> PropertyValue -> bool.

(** [a == b] on [[f32]] slices *)
Definition slice_eq (a b : list Z) : bool :=
  bool_decide (length a = length b) && forallb (fun '(x, y) => f32_eq x y) (zip a b).

(** The stack is kept with its top first: [extend] then pops in reverse. *)
Definition extend (a b : list PropertyValue) (stack : list (PropertyValue * PropertyValue)) :=
  rev (zip a b) ++ stack.

Definition eq_pair (a b : PropertyValue) (stack : list (PropertyValue * PropertyValue))
    : bool * list (PropertyValue * PropertyValue) :=
  match a, b with
  | PNull, PNull => (true, stack)
  | PBool x, PBool y => (Bool.eqb x y, stack)
  | PInt x, PInt y => (x =? y, stack)
  | PFloat x, PFloat y => (f64_eq x y, stack)
  | PString x, PString y => (ptr_eq a b || bool_decide (x = y), stack)
  | PBytes x, PBytes y => (ptr_eq a b || bool_decide (x = y), stack)
  | PVector x, PVector y => (ptr_eq a b || slice_eq x y, stack)
  | PSparse x, PSparse y => (ptr_eq a b || sparse_eq x y, stack)
  | PArray x, PArray y =>
      if ptr_eq a b then (true, stack)
      else if negb (bool_decide (length x = length y)) then (false, stack)
      else (true, extend x y stack)
  | _, _ => (false, stack)
  end.

(** The [while let Some((a, b)) = stack.pop()] loop; [None] is out of fuel. *)
Fixpoint eq_loop (pair : PropertyValue -> PropertyValue -> list (PropertyValue * PropertyValue) ->
                         bool * list (PropertyValue * PropertyValue))
    (fuel : nat) (stack : list (PropertyValue * PropertyValue)) : option bool :=
  match stack with
  | [] => Some true
  | (a, b) :: stack =>
      match fuel with
      | O => None
      | S fuel =>
          let '(ok, stack) := pair a b stack in
          if negb ok then Some false else eq_loop pair fuel stack
      end
  end.

(** Number of nodes: each round of the loop consumes one of [self]. *)
Fixpoint nodes (v : PropertyValue) : nat :=
  match v with
  | PArray l => S (foldr (fun x n => nodes x + n)%nat O l)
  | _ => 1%nat
  end.

Definition run_eq pair (a b : PropertyValue) : option bool :=
  let '(ok, stack) := pair a b [] in
  if negb ok then Some false else eq_loop pair (nodes a) stack.

Definition partial_eq (a b : PropertyValue) : option bool := run_eq eq_pair a b.

Definition semantically_eq_pair (a b : PropertyValue)
    (stack : list (PropertyValue * PropertyValue)) : bool * list (PropertyValue * PropertyValue) :=
  match a, b with
  | PFloat x, PFloat y => ((if f64_is_nan x then f64_is_nan y else f64_eq x y), stack)
  | PVector x, PVector y =>
      if ptr_eq a b then (true, stack)
      else if negb (bool_decide (length x = length y)) then (false, stack)
      else (forallb (fun '(x, y) => if f32_is_nan x then f32_is_nan y else f32_eq x y) (zip x y),
            stack)
  | PArray x, PArray y =>
      if ptr_eq a b then (true, stack)
      else if negb (bool_decide (length x = length y)) then (false, stack)
      else (true, extend x y stack)
  | _, _ => (default false (partial_eq a b), stack)
  end.

Definition semantically_equal (a b : PropertyValue) : option bool :=
  run_eq semantically_eq_pair a b.
End Equality.

(** *** Encoding *)
Fixpoint serialize_recursive (v : PropertyValue) (buffer : bytes) (depth : Z) : res Error bytes :=
  if MAX_RECURSION_DEPTH <? depth then Err (EStorage CorruptedData)
  else match v with
  | PNull => Ok (buffer ++ [bof TAG_NULL])
  | PBool b => Ok (buffer ++ [bof TAG_BOOL] ++ [bof (if b then 1 else 0)])
  | PInt i => Ok (buffer ++ [bof TAG_INT] ++ to_le 8 i)
  | PFloat f => Ok (buffer ++ [bof TAG_FLOAT] ++ to_le 8 f)
  | PString s => Ok (buffer ++ [bof TAG_STRING] ++ to_le 4 (blen s) ++ s)
  | PBytes b => Ok (buffer ++ [bof TAG_BYTES] ++ to_le 4 (blen b) ++ b)
  | PArray arr =>
      (fix items (l : list PropertyValue) (buffer : bytes) : res Error bytes :=
         match l with
         | [] => Ok buffer
         | item :: l => buffer ← serialize_recursive item buffer (depth + 1); items l buffer
         end) arr (buffer ++ [bof TAG_ARRAY] ++ to_le 4 (blen arr))
  | PVector v => try_serialize_vector_into v buffer
  | PSparse sv => Ok (serialize_sparse_vector_into sv buffer)
  end.

Definition serialize_into (v : PropertyValue) (buffer : bytes) : res Error bytes :=
  serialize_recursive v buffer 0.

Fixpoint serialized_size_recursive (v : PropertyValue) (depth : Z) : res Error Z :=
  if MAX_RECURSION_DEPTH <? depth then Err (EStorage CorruptedData)
  else match v with
  | PNull => Ok 1
  | PBool _ => Ok 2
  | PInt _ => Ok 9
  | PFloat _ => Ok 9
  | PString s => Ok (1 + 4 + blen s)
  | PBytes b => Ok (1 + 4 + blen b)
  | PArray arr =>
      elements_size ←
        (fix items (l : list PropertyValue) (elements_size : Z) : res Error Z :=
           match l with
           | [] => Ok elements_size
           | v :: l => n ← serialized_size_recursive v (depth + 1); items l (elements_size + n)
           end) arr 0;
      Ok (1 + 4 + elements_size)
  | PVector v => Ok (1 + 4 + blen v * 4)
  | PSparse sv => Ok (1 + 4 + 4 + nnz sv * 8)
  end.

Definition serialized_size (v : PropertyValue) : res Error Z := serialized_size_recursive v 0.

(** The buffer starts empty; its initial capacity has no effect. *)
Definition serialize (v : PropertyValue) : res Error bytes :=
  _ ← map_err (fun _ => EStorage CorruptedData) (serialized_size v);
  serialize_into v [].

(** *** Decoding *)
Definition deserialize_bool (b : bytes) : res Error (PropertyValue * Z) :=
  if blen b <? 2 then Err (EStorage CorruptedData)
  else x ← read_u8 b 1; Ok (PBool (negb (x =? 0)), 2).

Definition deserialize_int (b : bytes) : res Error (PropertyValue * Z) :=
  if blen b <? 9 then Err (EStorage CorruptedData)
  else x ← read_i64 b 1; Ok (PInt x, 9).

Definition deserialize_float (b : bytes) : res Error (PropertyValue * Z) :=
  if blen b <? 9 then Err (EStorage CorruptedData)
  else x ← read_u64 b 1; Ok (PFloat x, 9).

Definition deserialize_string (b : bytes) : res Error (PropertyValue * Z) :=
  if blen b <? 5 then Err (EStorage CorruptedData)
  else
    len ← read_u32 b 1;
    let offset := 5 in
    required_len ← ok_or (usize_checked_add offset len) (EStorage CorruptedData);
    if blen b <? required_len then Err (EStorage CorruptedData)
    else
      string_data ← expect (slice b offset required_len);
      s ← ok_or (from_utf8 string_data) (EStorage CorruptedData);
      Ok (PString s, required_len).

Definition deserialize_bytes (b : bytes) : res Error (PropertyValue * Z) :=
  if blen b <? 5 then Err (EStorage CorruptedData)
  else
    len ← read_u32 b 1;
    let offset := 5 in
    required_len ← ok_or (usize_checked_add offset len) (EStorage CorruptedData);
    if blen b <? required_len then Err (EStorage CorruptedData)
    else
      byte_data ← expect (slice b offset required_len);
      Ok (PBytes byte_data, required_len).

(** The element loop, for any element decoder. *)
Fixpoint array_items (elem : bytes -> res Error (PropertyValue * Z)) (n : nat) (b : bytes)
    (items : list PropertyValue) (offset : Z) : res Error (list PropertyValue * Z) :=
  match n with
  | O => Ok (items, offset)
  | S n =>
      if blen b <=? offset then Err (EStorage CorruptedData)
      else
        rest ← expect (slice_from b offset);
        '(item, consumed) ← elem rest;
        array_items elem n b (items ++ [item]) (offset + consumed)
  end.

Definition deserialize_array (elem : bytes -> res Error (PropertyValue * Z)) (b : bytes)
    : res Error (PropertyValue * Z) :=
  if blen b <? 5 then Err (EStorage CorruptedData)
  else
    count ← read_u32 b 1;
    let offset := 5 in
    if MAX_ARRAY_ELEMENTS <? count then Err (EStorage CorruptedData)
    else if usize_saturating_sub (blen b) offset <? count then Err (EStorage CorruptedData)
    else
      '(items, offset) ← array_items elem (Z.to_nat count) b [] offset;
      Ok (PArray items, offset).

(** The depth test stops the recursion: [fuel] of [MAX_RECURSION_DEPTH + 2] is
    never used up (running out is [Panic], which the theorems exclude). *)
Fixpoint deserialize_recursive (fuel : nat) (b : bytes) (depth : Z)
    : res Error (PropertyValue * Z) :=
  match fuel with
  | O => Panic
  | S fuel =>
      if MAX_RECURSION_DEPTH <? depth then Err (EStorage CorruptedData)
      else if blen b =? 0 then Err (EStorage CorruptedData)
      else
        tag ← read_u8 b 0;
        if tag =? TAG_NULL then Ok (PNull, 1)
        else if tag =? TAG_BOOL then deserialize_bool b
        else if tag =? TAG_INT then deserialize_int b
        else if tag =? TAG_FLOAT then deserialize_float b
        else if tag =? TAG_STRING then deserialize_string b
        else if tag =? TAG_BYTES then deserialize_bytes b
        else if tag =? TAG_ARRAY then
          deserialize_array (fun rest => deserialize_recursive fuel rest (depth + 1)) b
        else if tag =? TAG_VECTOR then
          '(v, consumed) ← deserialize_vector b; Ok (PVector v, consumed)
        else if tag =? TAG_SPARSE_VECTOR then
          '(sv, consumed) ← deserialize_sparse_vector b; Ok (PSparse sv, consumed)
        else Err (EStorage CorruptedData)
  end.

Definition decode_fuel : nat := 102.
Definition deserialize (b : bytes) : res Error (PropertyValue * Z) :=
  deserialize_recursive decode_fuel b 0.

End Property.

(** ** The encoding, specified *)
Section PropertyLemmas.
Import Sparse VecCodec Property.

(** The bytes of a value. *)
Fixpoint enc (v : PropertyValue) : bytes :=
  match v with
  | PNull => [bof TAG_NULL]
  | PBool b => [bof TAG_BOOL] ++ [bof (if b then 1 else 0)]
  | PInt i => [bof TAG_INT] ++ to_le 8 i
  | PFloat f => [bof TAG_FLOAT] ++ to_le 8 f
  | PString s => [bof TAG_STRING] ++ to_le 4 (blen s) ++ s
  | PBytes b => [bof TAG_BYTES] ++ to_le 4 (blen b) ++ b
  | PArray l => [bof TAG_ARRAY] ++ to_le 4 (blen l) ++ foldr (fun x acc => enc x ++ acc) [] l
  | PVector v => vector_bytes v
  | PSparse sv => sparse_bytes sv
  end.

(** Nesting depth: how far below its own depth a value recurses. *)
Fixpoint vdepth (v : PropertyValue) : Z :=
  match v with
  | PArray l => foldr (fun x m => Z.max (1 + vdepth x) m) 0 l
  | _ => 0
  end.

(** No dense vector over the dimension limit. *)
Fixpoint vectors_fit (v : PropertyValue) : bool :=
  match v with
  | PArray l => foldr (fun x r => vectors_fit x && r) true l
  | PVector v => blen v <=? MAX_VECTOR_DIMENSIONS
  | _ => true
  end.

(** Values the type system and the constructors allow, within the limits of the
    decoder: machine integers, valid strings, lengths that fit their fields. *)
Fixpoint value_wf (v : PropertyValue) : Prop :=
  match v with
  | PNull | PBool _ => True
  | PInt i => in_i64 i
  | PFloat f => in_u64 f
  | PString s => utf8_valid s = true /\ in_u32 (blen s)
  | PBytes b => in_u32 (blen b)
  | PArray l => blen l <= MAX_ARRAY_ELEMENTS /\ foldr (fun x P => value_wf x /\ P) True l
  | PVector v => vector_ok v
  | PSparse sv => sparse_wf sv
  end.

Lemma value_wf_array l :
  value_wf (PArray l) <-> blen l <= MAX_ARRAY_ELEMENTS /\ Forall value_wf l.
Proof.
  simpl. f_equiv. induction l as [|x l IH]; simpl; [by split|].
  rewrite IH, Forall_cons. done.
Qed.

Lemma vdepth_nonneg v : 0 <= vdepth v.
Proof.
  induction v as [| | | | | |l H| |] using property_ind; simpl; try lia.
  induction H; simpl; lia.
Qed.

Lemma wf_vectors_fit v : value_wf v -> vectors_fit v = true.
Proof.
  induction v as [| | | | | |l H|v|] using property_ind; try done.
  - rewrite value_wf_array. intros [_ Hl]. simpl.
    induction H as [|x l Hx _ IH]; simpl; [done|]. apply Forall_cons in Hl as [? ?].
    rewrite Hx, IH by done. done.
  - intros [_ ?]. simpl. lia.
Qed.

Lemma serialize_depth v buffer depth :
  MAX_RECURSION_DEPTH < depth -> serialize_recursive v buffer depth = Err (EStorage CorruptedData).
Proof. intros. destruct v; simpl; by rewrite (proj2 (Z.ltb_lt _ _)). Qed.

Lemma size_depth v depth :
  MAX_RECURSION_DEPTH < depth -> serialized_size_recursive v depth = Err (EStorage CorruptedData).
Proof. intros. destruct v; simpl; by rewrite (proj2 (Z.ltb_lt _ _)). Qed.

(** Encoding succeeds exactly on values within the depth and dimension limits. *)
Definition encodable (v : PropertyValue) (depth : Z) : bool :=
  (depth + vdepth v <=? MAX_RECURSION_DEPTH) && vectors_fit v.

Lemma serialize_recursive_spec v buffer depth :
  if encodable v depth
  then serialize_recursive v buffer depth = Ok (buffer ++ enc v)
  else exists e, serialize_recursive v buffer depth = Err e.
Proof.
  revert buffer depth.
  induction v as [| | | | | |l H|v|sv] using property_ind; intros buffer depth;
    unfold encodable; cbn [vdepth vectors_fit serialize_recursive];
    destruct (MAX_RECURSION_DEPTH <? depth) eqn:Ed; bool_to_prop;
    try (rewrite (proj2 (Z.leb_gt _ _)) by lia; simpl; eauto; fail);
    try (rewrite (proj2 (Z.leb_le _ _)) by lia; simpl; rewrite <-?app_assoc; done).
  - pose proof (vdepth_nonneg (PArray l)) as Hn. simpl in Hn.
    rewrite (proj2 (Z.leb_gt _ _)) by lia. simpl. eauto.
  - cbn [enc]. rewrite !app_assoc. rewrite <-(app_assoc buffer).
    set (b0 := buffer ++ _). clearbody b0. clear buffer.
    change (foldr (fun x m => Z.max (1 + vdepth x) m) 0 l) with (vdepth (PArray l)).
    change (foldr (fun x r => vectors_fit x && r) true l) with (vectors_fit (PArray l)).
    change (if encodable (PArray l) depth then
      (fix items (l : list PropertyValue) (buffer : bytes) : res Error bytes :=
         match l with
         | [] => Ok buffer
         | item :: l => buffer ← serialize_recursive item buffer (depth + 1); items l buffer
         end) l b0 = Ok (b0 ++ foldr (fun x acc => enc x ++ acc) [] l)
      else exists e, (fix items (l : list PropertyValue) (buffer : bytes) : res Error bytes :=
         match l with
         | [] => Ok buffer
         | item :: l => buffer ← serialize_recursive item buffer (depth + 1); items l buffer
         end) l b0 = Err e).
    revert b0. induction H as [|x l Hx _ IH]; intros b0.
    { unfold encodable. simpl. rewrite (proj2 (Z.leb_le _ _)) by lia. simpl. by rewrite app_nil_r. }
    specialize (Hx b0 (depth + 1)).
    assert (encodable (PArray (x :: l)) depth =
            encodable x (depth + 1) && encodable (PArray l) depth) as ->.
    { unfold encodable. simpl. pose proof (vdepth_nonneg x). pose proof (vdepth_nonneg (PArray l)).
      simpl in *.
      destruct (vectors_fit x), (foldr (fun x r => vectors_fit x && r) true l); simpl;
        rewrite ?andb_false_r, ?andb_true_r; try done. lia. }
    destruct (encodable x (depth + 1)); simpl andb.
    + rewrite Hx. cbn [mbind res_bind foldr]. specialize (IH (b0 ++ enc x)).
      rewrite <-app_assoc in IH. exact IH.
    + destruct Hx as [e ->]. simpl. eauto.
  - rewrite (proj2 (Z.leb_le (depth + 0) _)) by lia. simpl. case_goal; bool_to_prop.
    + by rewrite try_serialize_vector_app.
    + unfold try_serialize_vector_into, validate_vector_dimensions.
      rewrite (proj2 (Z.ltb_lt _ _)) by done. simpl. eauto.
  - rewrite (proj2 (Z.leb_le (depth + 0) _)) by lia. simpl. by rewrite serialize_sparse_app.
Qed.

Lemma size_spec v depth :
  value_wf v ->
  serialized_size_recursive v depth =
    if depth + vdepth v <=? MAX_RECURSION_DEPTH then Ok (blen (enc v))
    else Err (EStorage CorruptedData).
Proof.
  revert depth. induction v as [| | | | | |l H|v|sv] using property_ind; intros depth Hwf;
    cbn [vdepth serialized_size_recursive];
    destruct (MAX_RECURSION_DEPTH <? depth) eqn:Ed; bool_to_prop;
    try (rewrite (proj2 (Z.leb_gt _ _)) by lia; done);
    try (rewrite (proj2 (Z.leb_le _ _)) by lia; cbn [enc app]; f_equal; glia).
  - pose proof (vdepth_nonneg (PArray l)) as Hn. simpl in Hn.
    by rewrite (proj2 (Z.leb_gt _ _)) by lia.
  - apply value_wf_array in Hwf as [_ Hl]. cbn [enc app].
    rewrite blen_cons, blen_app, blen_to_le.
    set (elems := foldr (fun x acc => enc x ++ acc) [] l).
    set (dl := foldr (fun x m => Z.max (1 + vdepth x) m) 0 l).
    assert (forall acc, (fix items (l : list PropertyValue) (elements_size : Z) : res Error Z :=
           match l with
           | [] => Ok elements_size
           | v :: l => n ← serialized_size_recursive v (depth + 1); items l (elements_size + n)
           end) l acc = if depth + dl <=? MAX_RECURSION_DEPTH then Ok (acc + blen elems)
                        else Err (EStorage CorruptedData)) as Hgo.
    { subst elems dl. induction H as [|x l Hx _ IH]; intros acc; cbn [foldr].
      - rewrite (proj2 (Z.leb_le _ _)) by lia. f_equal. glia.
      - apply Forall_cons in Hl as [Hwx Hl]. rewrite Hx by done.
        pose proof (vdepth_nonneg (PArray l)) as Hn. simpl in Hn.
        destruct (depth + 1 + vdepth x <=? MAX_RECURSION_DEPTH) eqn:E1;
          cbn [mbind res_bind]; bool_to_prop.
        + rewrite IH by done. rewrite blen_app.
          destruct (_ <=? _) eqn:E2 at 1; destruct (_ <=? _) eqn:E3 at 1; bool_to_prop;
            try lia; [f_equal; lia|done].
        + by rewrite (proj2 (Z.leb_gt _ _)) by lia. }
    rewrite Hgo. destruct (depth + dl <=? MAX_RECURSION_DEPTH); simpl; f_equal. lia.
  - rewrite (proj2 (Z.leb_le _ _)) by lia. cbn [enc]. rewrite blen_vector_bytes. f_equal. lia.
  - rewrite (proj2 (Z.leb_le _ _)) by lia. cbn [enc].
    rewrite blen_sparse_bytes by done. f_equal. lia.
Qed.

Lemma enc_pos v : 0 < blen (enc v).
Proof.
  destruct v; cbn [enc]; unfold vector_bytes, sparse_bytes; cbn [app];
    rewrite blen_cons; match goal with |- 0 < 1 + blen ?x => pose proof (blen_nonneg x) end; lia.
Qed.

(** *** Decoding what was encoded *)
Lemma array_items_app elem l b acc off post :
  Forall (fun v => forall post, blen (enc v ++ post) <= usize_max ->
            elem (enc v ++ post) = Ok (v, blen (enc v))) l ->
  blen b <= usize_max -> at_off b off (foldr (fun x acc => enc x ++ acc) [] l ++ post) ->
  array_items elem (length l) b acc off =
    Ok (acc ++ l, off + blen (foldr (fun x acc => enc x ++ acc) [] l)).
Proof.
  intros Hf Hb. revert acc off. induction Hf as [|v l Hv _ IH]; intros acc off Ha; simpl.
  { rewrite app_nil_r, blen_nil. by rewrite Z.add_0_r. }
  simpl in Ha. rewrite <-app_assoc in Ha. pose proof (at_off_len _ _ _ Ha) as [? Hlen].
  pose proof (enc_pos v). rewrite !blen_app in Hlen.
  pose proof (blen_nonneg post). pose proof (blen_nonneg (foldr (fun x acc => enc x ++ acc) [] l)).
  rewrite (proj2 (Z.leb_gt _ _)) by lia. unfold at_off in Ha. rewrite Ha. simpl.
  rewrite Hv by (rewrite !blen_app; lia). simpl. rewrite IH by by apply at_off_app.
  rewrite <-app_assoc. simpl. do 2 f_equal. rewrite blen_app. lia.
Qed.

Lemma deserialize_tagged fuel b depth tag rest :
  b = bof tag :: rest -> in_u8 tag -> depth <= MAX_RECURSION_DEPTH ->
  deserialize_recursive (S fuel) b depth =
    if tag =? TAG_NULL then Ok (PNull, 1)
    else if tag =? TAG_BOOL then deserialize_bool b
    else if tag =? TAG_INT then deserialize_int b
    else if tag =? TAG_FLOAT then deserialize_float b
    else if tag =? TAG_STRING then deserialize_string b
    else if tag =? TAG_BYTES then deserialize_bytes b
    else if tag =? TAG_ARRAY then
      deserialize_array (fun rest => deserialize_recursive fuel rest (depth + 1)) b
    else if tag =? TAG_VECTOR then
      '(v, consumed) ← deserialize_vector b; Ok (PVector v, consumed)
    else if tag =? TAG_SPARSE_VECTOR then
      '(sv, consumed) ← deserialize_sparse_vector b; Ok (PSparse sv, consumed)
    else Err (EStorage CorruptedData).
Proof.
  intros -> Ht Hd. cbn [deserialize_recursive]. rewrite (proj2 (Z.ltb_ge _ _)) by done.
  rewrite (proj2 (Z.eqb_neq _ _)).
  - rewrite (at_u8 _ 0 tag rest) by (done || apply at_off_0). done.
  - rewrite blen_cons. pose proof (blen_nonneg rest). lia.
Qed.

(** A length-prefixed payload after the tag. *)
Lemma payload_at tag n rest :
  in_u32 n -> at_off (bof tag :: to_le 4 n ++ rest) 1 (to_le 4 n ++ rest) /\
  at_off (bof tag :: to_le 4 n ++ rest) 5 rest.
Proof.
  intros. assert (at_off (bof tag :: to_le 4 n ++ rest) 0 ([bof tag] ++ to_le 4 n ++ rest)) as A0
    by apply at_off_0.
  skip_at A0 1 as A1. skip_at A1 5 as A5. done.
Qed.

Lemma deserialize_fixed_app v post :
  value_wf v ->
  match v with
  | PBool _ => deserialize_bool (enc v ++ post) = Ok (v, 2)
  | PInt _ => deserialize_int (enc v ++ post) = Ok (v, 9)
  | PFloat _ => deserialize_float (enc v ++ post) = Ok (v, 9)
  | _ => True
  end.
Proof.
  destruct v as [|b|i|f| | | | |]; try done; intros Hwf; cbn [enc]; rewrite <-app_assoc.
  - assert (at_off ([bof TAG_BOOL] ++ [bof (if b then 1 else 0)] ++ post) 0
      ([bof TAG_BOOL] ++ [bof (if b then 1 else 0)] ++ post)) as A0 by apply at_off_0.
    skip_at A0 1 as A1. unfold deserialize_bool.
    rewrite (proj2 (Z.ltb_ge _ _)) by (pose proof (blen_nonneg post); glia).
    rewrite (at_u8 _ _ _ _ A1) by (destruct b; mlia). by destruct b.
  - assert (at_off ([bof TAG_INT] ++ to_le 8 i ++ post) 0 ([bof TAG_INT] ++ to_le 8 i ++ post))
      as A0 by apply at_off_0.
    skip_at A0 1 as A1. unfold deserialize_int.
    rewrite (proj2 (Z.ltb_ge _ _)) by (pose proof (blen_nonneg post); glia).
    by rewrite (at_i64 _ _ _ _ A1).
  - assert (at_off ([bof TAG_FLOAT] ++ to_le 8 f ++ post) 0 ([bof TAG_FLOAT] ++ to_le 8 f ++ post))
      as A0 by apply at_off_0.
    skip_at A0 1 as A1. unfold deserialize_float.
    rewrite (proj2 (Z.ltb_ge _ _)) by (pose proof (blen_nonneg post); glia).
    by rewrite (at_u64 _ _ _ _ A1).
Qed.

Lemma deserialize_string_app s post :
  utf8_valid s = true -> in_u32 (blen s) ->
  deserialize_string (enc (PString s) ++ post) = Ok (PString s, blen (enc (PString s))).
Proof.
  intros Hu Hl. cbn [enc app]. rewrite <-app_assoc.
  destruct (payload_at TAG_STRING (blen s) (s ++ post) Hl) as [A1 A5].
  unfold deserialize_string. pose proof (blen_nonneg post). pose proof (blen_nonneg s).
  rewrite (proj2 (Z.ltb_ge _ _)) by glia.
  rewrite (at_u32 _ _ _ _ A1) by done. cbn [mbind res_bind].
  unfold usize_checked_add. rewrite checked_in by mlia. cbn [mbind res_bind ok_or].
  rewrite (proj2 (Z.ltb_ge _ _)) by glia.
  rewrite (at_off_slice _ _ _ _ _ A5) by done. cbn [mbind res_bind expect].
  unfold from_utf8. rewrite Hu. simpl. do 2 f_equal. glia.
Qed.

Lemma deserialize_bytes_app s post :
  in_u32 (blen s) ->
  deserialize_bytes (enc (PBytes s) ++ post) = Ok (PBytes s, blen (enc (PBytes s))).
Proof.
  intros Hl. cbn [enc app]. rewrite <-app_assoc.
  destruct (payload_at TAG_BYTES (blen s) (s ++ post) Hl) as [A1 A5].
  unfold deserialize_bytes. pose proof (blen_nonneg post). pose proof (blen_nonneg s).
  rewrite (proj2 (Z.ltb_ge _ _)) by glia.
  rewrite (at_u32 _ _ _ _ A1) by done. cbn [mbind res_bind].
  unfold usize_checked_add. rewrite checked_in by mlia. cbn [mbind res_bind ok_or].
  rewrite (proj2 (Z.ltb_ge _ _)) by glia.
  rewrite (at_off_slice _ _ _ _ _ A5) by done. cbn [mbind res_bind expect].
  do 2 f_equal. glia.
Qed.

Lemma blen_elems l : blen l <= blen (foldr (fun x acc => enc x ++ acc) [] l).
Proof.
  induction l as [|x l IH]; simpl; [done|]. rewrite blen_app, blen_cons.
  pose proof (enc_pos x). lia.
Qed.

Lemma deserialize_array_app elem l post :
  blen l <= MAX_ARRAY_ELEMENTS ->
  blen (enc (PArray l) ++ post) <= usize_max ->
  Forall (fun v => forall post, blen (enc v ++ post) <= usize_max ->
            elem (enc v ++ post) = Ok (v, blen (enc v))) l ->
  deserialize_array elem (enc (PArray l) ++ post) = Ok (PArray l, blen (enc (PArray l))).
Proof.
  intros Hl Hb Hf. cbn [enc app] in *. rewrite <-app_assoc in *.
  pose proof (blen_nonneg l).
  destruct (payload_at TAG_ARRAY (blen l) (foldr (fun x acc => enc x ++ acc) [] l ++ post))
    as [A1 A5]; [mlia|].
  unfold deserialize_array. pose proof (blen_nonneg post).
  pose proof (blen_elems l).
  pose proof (blen_nonneg (foldr (fun x acc => enc x ++ acc) [] l)).
  rewrite (proj2 (Z.ltb_ge _ _)) by glia.
  rewrite (at_u32 _ _ _ _ A1) by mlia. cbn [mbind res_bind].
  rewrite (proj2 (Z.ltb_ge _ _)) by lia.
  autorewrite with codec in *.
  rewrite (proj2 (Z.ltb_ge _ _)) by mlia.
  unfold blen at 1. rewrite Nat2Z.id.
  rewrite (array_items_app elem l _ [] 5 post) by (done || glia).
  cbn [mbind res_bind]. do 2 f_equal. lia.
Qed.

Lemma deserialize_enc v post fuel depth :
  value_wf v -> 0 <= depth -> depth + vdepth v <= MAX_RECURSION_DEPTH ->
  101 - depth <= Z.of_nat fuel -> blen (enc v ++ post) <= usize_max ->
  deserialize_recursive fuel (enc v ++ post) depth = Ok (v, blen (enc v)).
Proof.
  revert post fuel depth.
  induction v as [|b|i|f|s|bs|l H|v|sv] using property_ind;
    intros post fuel depth Hwf H0 Hd Hf Hb;
    (match type of Hd with _ + vdepth ?v <= _ => pose proof (vdepth_nonneg v) as Hnn end);
    (destruct fuel as [|fuel]; [exfalso; mlia|]).
  - by erewrite deserialize_tagged by (done || mlia).
  - erewrite deserialize_tagged by (done || mlia).
    exact (deserialize_fixed_app (PBool b) post Hwf).
  - erewrite deserialize_tagged by (done || mlia). simpl Z.eqb. cbv iota.
    rewrite (deserialize_fixed_app (PInt i) post Hwf). done.
  - erewrite deserialize_tagged by (done || mlia). simpl Z.eqb. cbv iota.
    rewrite (deserialize_fixed_app (PFloat f) post Hwf). done.
  - erewrite deserialize_tagged by (done || mlia). simpl Z.eqb. cbv iota.
    destruct Hwf. by apply deserialize_string_app.
  - erewrite deserialize_tagged by (done || mlia). simpl Z.eqb. cbv iota.
    by apply deserialize_bytes_app.
  - erewrite deserialize_tagged by (done || mlia). simpl Z.eqb. cbv iota.
    apply value_wf_array in Hwf as [Hl Hwf]. apply deserialize_array_app; [done|done|].
    clear Hb Hl Hnn. cbn [vdepth] in Hd. induction H as [|x l Hx _ IH]; [constructor|].
    apply Forall_cons in Hwf as [Hwx Hwl]. cbn [foldr] in Hd.
    constructor; [intros p Hp; apply Hx; try done; lia|apply IH; [done|lia]].
  - erewrite deserialize_tagged by (done || mlia). simpl Z.eqb. cbv iota. cbn [enc].
    by rewrite deserialize_vector_app.
  - erewrite deserialize_tagged by (done || mlia). simpl Z.eqb. cbv iota. cbn [enc].
    by rewrite deserialize_sparse_app.
Qed.

(** *** Decoding arbitrary bytes *)
Lemma deserialize_string_safe b :
  safe (deserialize_string b) (fun '(v, n) =>
    value_wf v /\ vdepth v = 0 /\ 0 < n <= blen b /\ n = blen (enc v)).
Proof.
  unfold deserialize_string. repeat safe_step.
  eapply safe_bind; [apply checked_safe|intros ? _ [-> ?]]. safe_step; [exact I|].
  autounfold with machine in *.
  destruct (slice_ok b 5 (5 + a)) as (x & -> & Hx); [lia..|]. cbn [mbind res_bind expect].
  destruct (from_utf8 x) as [s|] eqn:Es; [|exact I]. apply from_utf8_some in Es as [-> Hu].
  cbn [safe mbind res_bind ok_or value_wf vdepth enc app].
  split_and!; try done; try (autounfold with machine; lia). glia.
Qed.

Lemma deserialize_bytes_safe b :
  safe (deserialize_bytes b) (fun '(v, n) =>
    value_wf v /\ vdepth v = 0 /\ 0 < n <= blen b /\ n = blen (enc v)).
Proof.
  unfold deserialize_bytes. repeat safe_step.
  eapply safe_bind; [apply checked_safe|intros ? _ [-> ?]]. safe_step; [exact I|].
  autounfold with machine in *.
  destruct (slice_ok b 5 (5 + a)) as (x & -> & Hx); [lia..|].
  cbn [safe mbind res_bind expect value_wf vdepth enc app].
  split_and!; try done; try (autounfold with machine; lia). glia.
Qed.

Abbreviation elems l := (foldr (fun x acc => enc x ++ acc) [] l).

Lemma elems_app l1 l2 : blen (elems (l1 ++ l2)) = blen (elems l1) + blen (elems l2).
Proof. induction l1 as [|x l1 IH]; simpl; [blia|]. rewrite !blen_app, IH. lia. Qed.

(** The element loop: every element is decoded safely, one byte at least each. *)
Lemma array_items_safe elem n b acc off (P : PropertyValue -> Prop) :
  (forall r, safe (elem r) (fun '(v, k) => P v /\ 0 < k <= blen r /\ k = blen (enc v))) ->
  Forall P acc -> 0 <= off <= blen b ->
  safe (array_items elem n b acc off)
    (fun '(l, off') => Forall P l /\ length l = (length acc + n)%nat /\ off <= off' <= blen b /\
       off' - off = blen (elems l) - blen (elems acc)).
Proof.
  intros He. revert acc off. induction n as [|n IH]; intros acc off Ha Ho; simpl.
  { split_and!; [done|lia..]. }
  case_goal; [exact I|]. bool_to_prop.
  destruct (slice_from_ok b off) as (r & -> & Hr); [lia..|]. cbn [mbind res_bind expect].
  specialize (He r). destruct (elem r) as [[v k]| |]; try done. destruct He as (Hv & Hk & Ek).
  cbn [mbind res_bind]. eapply safe_mono; [apply IH; [|lia]|].
  - apply Forall_app. by repeat constructor.
  - intros [l off']. rewrite length_app, elems_app. simpl. rewrite app_nil_r.
    intros (? & ? & ? & ?). split_and!; [done|lia..].
Qed.

Lemma vdepth_array_bound l d :
  0 <= d -> Forall (fun v => 1 + vdepth v <= d) l -> vdepth (PArray l) <= d.
Proof. intros Hd. induction 1; simpl in *; lia. Qed.

Lemma deserialize_safe_at fuel b depth :
  0 <= depth <= 101 -> 102 - depth <= Z.of_nat fuel ->
  safe (deserialize_recursive fuel b depth) (fun '(v, n) =>
    value_wf v /\ depth + vdepth v <= MAX_RECURSION_DEPTH /\ 0 < n <= blen b /\
    n = blen (enc v)).
Proof.
  revert b depth. induction fuel as [|fuel IH]; intros b depth H0 Hf;
    [|cbn [deserialize_recursive]].
  { exfalso. lia. }
  safe_step; [exact I|]. safe_step; [exact I|].
  pose proof (blen_nonneg b). safe_step.
  assert (depth <= 100) by mlia.
  repeat (lazymatch goal with |- safe (if _ then _ else _) _ => case_goal end);
    bool_to_prop; subst.
  - simpl. split_and!; try done; mlia.
  - unfold deserialize_bool. repeat safe_step. split_and!; try done; mlia.
  - unfold deserialize_int. repeat safe_step. split_and!; try done; mlia.
  - unfold deserialize_float. repeat safe_step. split_and!; try done; mlia.
  - eapply safe_mono; [apply deserialize_string_safe|]. intros [v n] (? & -> & ? & ?).
    split_and!; try done; mlia.
  - eapply safe_mono; [apply deserialize_bytes_safe|]. intros [v n] (? & -> & ? & ?).
    split_and!; try done; mlia.
  - unfold deserialize_array. repeat safe_step; try exact I.
    eapply safe_bind; [eapply (array_items_safe _ _ _ _ _ (fun v =>
        value_wf v /\ depth + 1 + vdepth v <= MAX_RECURSION_DEPTH)); [|constructor|mlia]|].
    { intros r. eapply safe_mono; [apply IH; lia|]. intros [v k] (? & ? & ? & ?). done. }
    intros [l off] _ (Hl & Hlen & Ho & Hsz). simpl in Hlen. cbn [safe].
    split_and!; [apply value_wf_array; split| |mlia|mlia|].
    + unfold blen. mlia.
    + eapply Forall_impl; [exact Hl|]. by intros v [? ?].
    + assert (vdepth (PArray l) <= MAX_RECURSION_DEPTH - depth); [|lia].
      apply vdepth_array_bound; [mlia|]. eapply Forall_impl; [exact Hl|].
      intros v [? ?]. lia.
    + cbn [enc app]. simpl in Hsz. rewrite blen_nil in Hsz. glia.
  - eapply safe_bind; [apply deserialize_vector_safe|]. intros [v n] _ (? & ? & ?).
    split_and!; try done; cbn [vdepth]; mlia.
  - eapply safe_bind; [apply deserialize_sparse_safe|]. intros [v n] _ (? & ? & ?).
    split_and!; try done; cbn [vdepth]; mlia.
  - exact I.
Qed.
End PropertyLemmas.

(** ** The equality loops *)
Section EqualityLemmas.
Import Float Sparse Property.
Variable ptr_eq : PropertyValue -> PropertyValue -> bool.
Implicit Types stack : list (PropertyValue * PropertyValue).

(** Recursive reference definitions. *)
Fixpoint value_eq (a b : PropertyValue) : bool :=
  match a, b with
  | PArray x, PArray y =>
      ptr_eq a b ||
      (fix all (x y : list PropertyValue) : bool :=
         match x, y with
         | [], [] => true
         | v :: x, w :: y => value_eq v w && all x y
         | _, _ => false
         end) x y
  | _, _ => (eq_pair ptr_eq a b []).1
  end.

Fixpoint value_same (a b : PropertyValue) : bool :=
  match a, b with
  | PArray x, PArray y =>
      (fix all (x y : list PropertyValue) : bool :=
         match x, y with
         | [], [] => true
         | v :: x, w :: y => value_same v w && all x y
         | _, _ => false
         end) x y
  | PFloat x, PFloat y => f64_same x y
  | PVector x, PVector y =>
      bool_decide (length x = length y) && forallb (fun '(x, y) => f32_same x y) (zip x y)
  | PNull, PNull => true
  | PBool x, PBool y => Bool.eqb x y
  | PInt x, PInt y => x =? y
  | PString x, PString y => bool_decide (x = y)
  | PBytes x, PBytes y => bool_decide (x = y)
  | PSparse x, PSparse y => sparse_eq x y
  | _, _ => false
  end.

Fixpoint all2 (f : PropertyValue -> PropertyValue -> bool) (x y : list PropertyValue) : bool :=
  match x, y with
  | [], [] => true
  | v :: x, w :: y => f v w && all2 f x y
  | _, _ => false
  end.

Lemma all2_zip f x y :
  all2 f x y = bool_decide (length x = length y) && forallb (uncurry f) (zip x y).
Proof.
  revert y. induction x as [|v x IH]; intros [|w y]; simpl; try done. rewrite IH.
  destruct (decide (length x = length y)) as [E|E].
  - rewrite !bool_decide_true by (congruence || done). simpl. done.
  - rewrite !bool_decide_false by (congruence || done). simpl. apply andb_false_r.
Qed.

Lemma value_same_array x y : value_same (PArray x) (PArray y) = all2 value_same x y.
Proof. simpl. revert y. induction x as [|v x IH]; intros [|w y]; simpl; try done. by rewrite IH. Qed.

Lemma value_eq_array x y :
  value_eq (PArray x) (PArray y) = ptr_eq (PArray x) (PArray y) || all2 value_eq x y.
Proof.
  simpl. f_equal. revert y. induction x as [|v x IH]; intros [|w y]; simpl; try done. by rewrite IH.
Qed.

(** One round of a loop against its reference: decide at once, or push the
    elements of two arrays of the same length. *)
Definition round_ok (W : PropertyValue -> Prop) (pair : PropertyValue -> PropertyValue ->
    list (PropertyValue * PropertyValue) -> bool * list (PropertyValue * PropertyValue))
    (ref : PropertyValue -> PropertyValue -> bool) : Prop :=
  forall a b stack, W a ->
    pair a b stack = (ref a b, stack) \/
    (ref a b = false /\ (pair a b stack).1 = false) \/
    exists x y, a = PArray x /\ b = PArray y /\ length x = length y /\
      Forall W x /\ pair a b stack = (true, extend x y stack) /\ ref a b = all2 ref x y.

Definition stack_nodes stack : nat := foldr (fun p n => nodes p.1 + n)%nat O stack.

Lemma stack_nodes_app s1 s2 : stack_nodes (s1 ++ s2) = (stack_nodes s1 + stack_nodes s2)%nat.
Proof. induction s1; simpl; lia. Qed.

Lemma stack_nodes_extend x y stack :
  length x = length y -> S (stack_nodes (extend x y stack)) = (nodes (PArray x) + stack_nodes stack)%nat.
Proof.
  intros Hl. unfold extend. rewrite stack_nodes_app. simpl nodes.
  assert (stack_nodes (rev (zip x y)) = foldr (fun v n => nodes v + n)%nat O x) as E; [|lia].
  revert y Hl. induction x as [|v x IH]; intros [|w y] Hl; try done. simpl.
  rewrite stack_nodes_app, IH by (simpl in Hl; lia). simpl. lia.
Qed.

Lemma forallb_extend f x y stack :
  length x = length y ->
  forallb (uncurry f) (extend x y stack) = all2 f x y && forallb (uncurry f) stack.
Proof.
  intros Hl. unfold extend. rewrite forallb_app, all2_zip, bool_decide_true by done. simpl.
  f_equal. clear. induction (zip x y) as [|p l IH]; simpl; [done|].
  rewrite forallb_app, IH. simpl. destruct (uncurry f p); simpl; by rewrite ?andb_true_r, ?andb_false_r.
Qed.

Lemma extend_Forall (W : PropertyValue -> Prop) x y stack :
  Forall W x -> Forall (fun p => W p.1) stack -> Forall (fun p => W p.1) (extend x y stack).
Proof.
  intros Hx Hs. unfold extend. apply Forall_app. split; [|done].
  apply List.Forall_rev. revert y.
  induction Hx; intros [|w y]; simpl; constructor; auto.
Qed.

Lemma eq_loop_spec W pair ref fuel stack :
  round_ok W pair ref -> Forall (fun p => W p.1) stack -> (stack_nodes stack <= fuel)%nat ->
  eq_loop pair fuel stack = Some (forallb (uncurry ref) stack).
Proof.
  intros Hr. revert stack. induction fuel as [|fuel IH]; intros [|[a b] stack] HW Hf; try done.
  { exfalso. simpl in Hf. destruct a; simpl in Hf; lia. }
  assert (1 <= nodes a)%nat by (destruct a; simpl; lia).
  cbn [eq_loop forallb uncurry]. cbn [stack_nodes foldr fst] in Hf.
  change (foldr (fun p n => nodes p.1 + n)%nat 0%nat stack) with (stack_nodes stack) in Hf.
  apply Forall_cons in HW as [Ha HW]. simpl in Ha.
  destruct (Hr a b stack Ha) as [E|[[E1 E2]|(x & y & -> & -> & Hl & Hx & E & Er)]].
  - rewrite E. destruct (ref a b); simpl; [|done]. apply IH; [done|lia].
  - rewrite E1. destruct (pair a b stack) as [ok st]. simpl in E2. by rewrite E2.
  - rewrite E, Er. cbn [negb]. rewrite IH.
    + by rewrite forallb_extend.
    + by apply extend_Forall.
    + pose proof (stack_nodes_extend x y stack Hl). lia.
Qed.

Lemma run_eq_spec W pair ref a b :
  round_ok W pair ref -> W a -> run_eq pair a b = Some (ref a b).
Proof.
  intros Hr Ha. unfold run_eq.
  destruct (Hr a b [] Ha) as [E|[[E1 E2]|(x & y & -> & -> & Hl & Hx & E & Er)]].
  - rewrite E. destruct (ref a b); [by destruct a|done].
  - rewrite E1. destruct (pair a b []) as [ok st]. simpl in E2. by rewrite E2.
  - rewrite E. cbn [negb]. rewrite (eq_loop_spec W pair ref).
    + rewrite forallb_extend by done. simpl. by rewrite andb_true_r, Er.
    + done.
    + by apply extend_Forall.
    + pose proof (stack_nodes_extend x y [] Hl). simpl in *. lia.
Qed.

Lemma all2_length f x y : length x <> length y -> all2 f x y = false.
Proof. intros. rewrite all2_zip. by rewrite bool_decide_false. Qed.

Lemma eq_pair_round : round_ok (fun _ => True) (eq_pair ptr_eq) value_eq.
Proof.
  intros a b stack _. destruct a, b; try (left; reflexivity).
  rewrite value_eq_array. cbn [eq_pair]. destruct (ptr_eq _ _) eqn:Ep; [by left|]. simpl orb.
  destruct (decide (length items = length items0)) as [E|E].
  - rewrite bool_decide_true by done. right. right. exists items, items0.
    split_and!; try done. by apply Forall_true.
  - rewrite bool_decide_false by done. right. left. split; [by apply all2_length|done].
Qed.

Lemma partial_eq_spec a b : partial_eq ptr_eq a b = Some (value_eq a b).
Proof. by apply (run_eq_spec (fun _ => True)); [apply eq_pair_round|]. Qed.

(** *** Semantic equality *)
Hypothesis ptr_eq_sound : forall a b, ptr_eq a b = true -> a = b.

Lemma value_same_refl a : value_wf a -> value_same a a = true.
Proof.
  induction a as [|b|i|f|s|bs|l H|v|sv] using property_ind; intros Hwf.
  - done.
  - simpl. by destruct b.
  - simpl. apply Z.eqb_refl.
  - apply same_refl.
  - simpl. by apply bool_decide_true.
  - simpl. by apply bool_decide_true.
  - rewrite value_same_array. apply value_wf_array in Hwf as [_ Hwf].
    induction H as [|x l Hx _ IH]; simpl; [done|]. apply Forall_cons in Hwf as [? ?].
    rewrite Hx, IH by done. done.
  - simpl. rewrite bool_decide_true by done. simpl. clear Hwf.
    induction v; simpl; [done|]. by rewrite same_refl.
  - simpl. unfold sparse_eq. rewrite !bool_decide_true by done. rewrite Z.eqb_refl. simpl.
    rewrite andb_true_r. pose proof (sw_value _ Hwf) as Hv. clear Hwf.
    induction Hv as [|v l [_ (Hn & _)] _ IH]; simpl; [done|].
    rewrite feq_refl_iff, Hn. exact IH.
Qed.

(** On well-formed values the pointer shortcuts change nothing. *)
Lemma ptr_same a b : value_wf a -> ptr_eq a b = true -> value_same a b = true.
Proof. intros Hw ->%ptr_eq_sound. by apply value_same_refl. Qed.

Lemma semantic_round : round_ok value_wf (semantically_eq_pair ptr_eq) value_same.
Proof.
  intros a b stack Hw. unfold semantically_eq_pair.
  destruct a, b; try (left; rewrite ?partial_eq_spec; reflexivity).
  - left. rewrite partial_eq_spec. simpl. destruct (ptr_eq _ _) eqn:E; [|done].
    apply ptr_eq_sound in E as [= ->]. by rewrite bool_decide_true.
  - left. rewrite partial_eq_spec. simpl. destruct (ptr_eq _ _) eqn:E; [|done].
    apply ptr_eq_sound in E as [= ->]. by rewrite bool_decide_true.
  - destruct (ptr_eq _ _) eqn:Ep; [left; by rewrite (ptr_same _ _ Hw Ep)|].
    rewrite value_same_array. destruct (decide (length items = length items0)) as [E|E].
    + rewrite bool_decide_true by done. right. right. exists items, items0.
      apply value_wf_array in Hw as [_ Hw]. done.
    + rewrite bool_decide_false by done. right. left. split; [by apply all2_length|done].
  - left. destruct (ptr_eq _ _) eqn:Ep; [by rewrite (ptr_same _ _ Hw Ep)|].
    simpl. case_bool_decide; done.
  - left. rewrite partial_eq_spec. simpl. destruct (ptr_eq _ _) eqn:E; [|done].
    pose proof (ptr_same _ _ Hw E) as Hs. simpl in Hs. by rewrite Hs.
Qed.
End EqualityLemmas.

Section SameEquiv.
Import Float Sparse Property.

Lemma all2_sym f x y :
  Forall (fun v => forall w, f v w = f w v) x -> all2 f x y = all2 f y x.
Proof.
  intros H. revert y. induction H as [|v x Hv _ IH]; intros [|w y]; simpl; try done.
  by rewrite Hv, IH.
Qed.

Lemma zip_sym (f : Z -> Z -> bool) (x y : list Z) :
  (forall a b, f a b = f b a) ->
  forallb (fun '(a, b) => f a b) (zip x y) = forallb (fun '(a, b) => f a b) (zip y x).
Proof.
  intros Hf. revert y. induction x as [|v x IH]; intros [|w y]; simpl; try done. by rewrite Hf, IH.
Qed.

Lemma zip_trans (f : Z -> Z -> bool) (x y z : list Z) :
  (forall a b c, f a b = true -> f b c = true -> f a c = true) ->
  length x = length y -> length y = length z ->
  forallb (fun '(a, b) => f a b) (zip x y) = true ->
  forallb (fun '(a, b) => f a b) (zip y z) = true ->
  forallb (fun '(a, b) => f a b) (zip x z) = true.
Proof.
  intros Hf. revert y z. induction x as [|u x IH]; intros [|v y] [|w z] H1 H2; simpl; try done.
  intros [? ?]%andb_true_iff [? ?]%andb_true_iff. apply andb_true_iff. split; [eauto|].
  eapply IH; [| |done|done]; simpl in *; lia.
Qed.

Lemma value_same_sym a b : value_same a b = value_same b a.
Proof.
  revert b. induction a as [|x|x|x|x|x|l H|x|x] using property_ind; intros [|y|y|y|y|y|l'|y|y];
    try done.
  - simpl. by destruct x, y.
  - simpl. apply Z.eqb_sym.
  - simpl. apply same_sym.
  - simpl. by apply bool_decide_ext.
  - simpl. by apply bool_decide_ext.
  - rewrite !value_same_array. by apply all2_sym.
  - simpl. f_equal; [by apply bool_decide_ext|]. apply zip_sym, same_sym.
  - simpl. unfold sparse_eq. f_equal; [f_equal|apply Z.eqb_sym]; [by apply bool_decide_ext|].
    f_equal; [by apply bool_decide_ext|]. apply zip_sym, feq_sym.
Qed.

Lemma feq_trans mw ew a b c :
  feq mw ew a b = true -> feq mw ew b c = true -> feq mw ew a c = true.
Proof.
  unfold feq. rewrite !andb_true_iff, !orb_true_iff, !andb_true_iff, !Z.eqb_eq.
  intros [[? ?] [->|[? ?]]] [[? ?] [->|[? ?]]]; auto.
Qed.

Lemma all2_trans f x y z :
  Forall (fun a => forall b c, f a b = true -> f b c = true -> f a c = true) x ->
  all2 f x y = true -> all2 f y z = true -> all2 f x z = true.
Proof.
  intros H. revert y z. induction H as [|v x Hv _ IH]; intros [|w y] [|u z]; simpl; try done.
  intros [? ?]%andb_true_iff [? ?]%andb_true_iff. apply andb_true_iff. split; eauto.
Qed.

Lemma value_same_trans a b c :
  value_same a b = true -> value_same b c = true -> value_same a c = true.
Proof.
  revert b c. induction a as [|x|x|x|x|x|l H|x|x] using property_ind;
    intros [|y|y|y|y|y|l'|y|y] c; try done; destruct c as [|z|z|z|z|z|l''|z|z]; try done.
  - simpl. by destruct x, y, z.
  - simpl. lia.
  - apply same_trans.
  - simpl. intros ->%bool_decide_eq_true. done.
  - simpl. intros ->%bool_decide_eq_true. done.
  - rewrite !value_same_array. by apply all2_trans.
  - simpl. intros [H1%bool_decide_eq_true ?]%andb_true_iff [H2%bool_decide_eq_true ?]%andb_true_iff.
    apply andb_true_iff. split; [apply bool_decide_eq_true; congruence|].
    eapply zip_trans; [apply same_trans|exact H1|exact H2|done|done].
  - simpl. unfold sparse_eq. rewrite !andb_true_iff, !bool_decide_eq_true, !Z.eqb_eq.
    intros [[-> [H1 ?]] ->] [[-> [H2 ?]] ->]. split_and!; try done; [congruence|].
    eapply zip_trans; [apply feq_trans|exact H1|exact H2|done|done].
Qed.
End SameEquiv.

(** ** Properties *)
Section PropertyProperties.
Import Property.

(** Serialization round trip: a well-formed value nested at most
    [MAX_RECURSION_DEPTH] deep serializes, [serialized_size] is exactly the
    length of the bytes, and reading them back, whatever follows them in the
    buffer, gives the value and consumes exactly those bytes. *)
Theorem value_roundtrip (v : PropertyValue) (post : bytes) :
  value_wf v -> vdepth v <= MAX_RECURSION_DEPTH ->
  exists x, serialize v = Ok x /\ serialized_size v = Ok (blen x) /\
    (blen (x ++ post) <= usize_max -> deserialize (x ++ post) = Ok (v, blen x)).
Proof.
  intros Hwf Hd. exists (enc v).
  assert (serialized_size v = Ok (blen (enc v))) as Hs.
  { unfold serialized_size. rewrite size_spec by done. by rewrite (proj2 (Z.leb_le _ _)) by lia. }
  pose proof (serialize_recursive_spec v [] 0) as He. unfold encodable in He.
  rewrite (proj2 (Z.leb_le _ _)), wf_vectors_fit in He by (done || lia).
  split_and!; [|done|].
  - unfold serialize. rewrite Hs. exact He.
  - intros Hb. apply deserialize_enc; try done; lia.
Qed.

(** On every value, encoding appends to the buffer exactly when the value
    is nested at most [MAX_RECURSION_DEPTH] deep and no dense vector exceeds the
    dimension limit; otherwise it returns an error.  It never panics. *)
Theorem serialize_into_total (v : PropertyValue) (buffer : bytes) :
  if encodable v 0
  then serialize_into v buffer = Ok (buffer ++ enc v)
  else exists e, serialize_into v buffer = Err e.
Proof. apply serialize_recursive_spec. Qed.

(** C38: Decoding untrusted bytes is safe: on any input [deserialize] returns (it
    never panics or overruns the buffer), and a value it accepts is well formed,
    within the depth limit and read from a non-empty prefix of the input, so it
    can be serialized again. *)
Theorem deserialize_untrusted (b : bytes) :
  match deserialize b with
  | Ok (v, n) => value_wf v /\ vdepth v <= MAX_RECURSION_DEPTH /\ 0 < n <= blen b /\
                 serialize v = Ok (enc v)
  | Err _ => True
  | Panic => False
  end.
Proof.
  pose proof (deserialize_safe_at decode_fuel b 0 ltac:(lia) ltac:(unfold decode_fuel; lia)) as H.
  change (deserialize_recursive decode_fuel b 0) with (deserialize b) in H.
  destruct (deserialize b) as [[v n]| |]; try done. destruct H as (Hwf & Hd & Hn & _).
  split_and!; try done; try lia.
  pose proof (serialize_recursive_spec v [] 0) as He. unfold encodable in He.
  rewrite (proj2 (Z.leb_le _ _)), wf_vectors_fit in He by (done || lia).
  unfold serialize, serialized_size. rewrite size_spec by done.
  rewrite (proj2 (Z.leb_le _ _)) by lia. exact He.
Qed.

(** The explicit-stack loop of [semantically_equal] always terminates and,
    on well-formed values and with pointer shortcuts that are only taken on
    equal contents, decides an equivalence relation: the structural one in which
    NaN equals NaN (so that an unchanged NaN is not seen as a change). *)
Theorem semantic_equality (ptr_eq : PropertyValue -> PropertyValue -> bool) :
  (forall a b, ptr_eq a b = true -> a = b) ->
  (forall a b, value_wf a -> semantically_equal ptr_eq a b = Some (value_same a b)) /\
  (forall a, value_wf a -> value_same a a = true) /\
  (forall a b, value_same a b = value_same b a) /\
  (forall a b c, value_same a b = true -> value_same b c = true -> value_same a c = true).
Proof.
  intros Hp. split_and!.
  - intros a b Ha. apply (run_eq_spec value_wf); [by apply semantic_round|done].
  - apply value_same_refl.
  - apply value_same_sym.
  - apply value_same_trans.
Qed.

(** The explicit-stack loop behind [PartialEq] terminates on every pair of
    values and computes the recursive definition of equality. *)
Theorem partial_eq_recursive (ptr_eq : PropertyValue -> PropertyValue -> bool)
    (a b : PropertyValue) :
  partial_eq ptr_eq a b = Some (value_eq ptr_eq a b).
Proof. apply partial_eq_spec. Qed.
End PropertyProperties.

Module PropertyWitness.
Import Property.

Definition sample : PropertyValue :=
  PArray [PInt (-3); PString [bof 104; bof 105]; PArray [PNull; PBool true]; PVector [VecWitness.one];
          PSparse VecWitness.sv].

Lemma sample_wf : value_wf sample.
Proof.
  unfold sample. cbn [value_wf foldr]. split; [done|].
  split; [mlia|]. split; [split; [done|by vm_compute]|]. split; [done|].
  split; [|split; [apply VecWitness.sv_wf|done]].
  split; [repeat constructor; by vm_compute|done].
Qed.

Lemma value_roundtrip_witness : exists x,
  serialize sample = Ok x /\ deserialize (x ++ [bof 9]) = Ok (sample, blen x).
Proof.
  destruct (value_roundtrip sample [bof 9] sample_wf ltac:(by vm_compute)) as (x & Hx & Hs & Hd).
  exists x. split; [exact Hx|]. apply Hd.
  vm_compute in Hx. injection Hx as <-. by vm_compute.
Defined.

Lemma semantic_equality_witness :
  semantically_equal (fun _ _ => false) sample sample = Some true.
Proof.
  destruct (semantic_equality (fun _ _ => false) ltac:(discriminate)) as (H1 & H2 & _).
  rewrite (H1 sample sample sample_wf), (H2 sample sample_wf). reflexivity.
Defined.
End PropertyWitness.
