(* ===== verification/PropMap.v ===== *)
(** * Property maps: [src/core/property/map.rs]

    Maps from interned keys to property values with their cached serialized
    size, the builder that maintains it, and the binary encoding, against the
    interner interface. *)

From S2P Require Import Prelude.
From S2P Require Import Bytes.
From S2P Require Import Errors.
From S2P Require Import Interning.
From S2P Require Import Vectors.
From S2P Require Import Property.

Module PropMap.

Definition MAX_PROPERTY_MAP_CAPACITY : Z := 100000.
#[export] Hint Unfold MAX_PROPERTY_MAP_CAPACITY : machine.

Record PropertyMap := mkMap { inner : gmap Z PropertyValue; cached_size : Z }.

Definition new : PropertyMap := mkMap ∅ 4.

Section Ops.
Context {St : Type} `{Interner St}.

Definition get_by_interned_key (m : PropertyMap) (key : Z) : option PropertyValue := inner m !! key.
Definition get (st : St) (m : PropertyMap) (key : bytes) : option PropertyValue :=
  interned_key ← i_get_id st key; get_by_interned_key m interned_key.
Definition contains_interned_key (m : PropertyMap) (key : Z) : bool :=
  bool_decide (is_Some (inner m !! key)).
Definition contains_key (st : St) (m : PropertyMap) (key : bytes) : bool :=
  match i_get_id st key with None => false | Some k => contains_interned_key m k end.
Definition len (m : PropertyMap) : Z := Z.of_nat (size (inner m)).

(** *** The builder *)
Record PropertyMapBuilder := mkBuilder { map : gmap Z PropertyValue; current_size : Z }.

Definition builder_new : PropertyMapBuilder := mkBuilder ∅ 4.
Definition from_map (m : PropertyMap) : PropertyMapBuilder := mkBuilder (inner m) (cached_size m).
Definition build (b : PropertyMapBuilder) : PropertyMap := mkMap (map b) (current_size b).

(** The size bookkeeping after [self.map.insert(key, val)]. *)
Definition insert_sized (b : PropertyMapBuilder) (key : Z) (key_len : Z) (val : PropertyValue)
    (val_size : Z) : res Error PropertyMapBuilder :=
  let map' := <[key := val]> (map b) in
  match map b !! key with
  | Some old_val =>
      old_size ← Property.serialized_size old_val;
      Ok (mkBuilder map'
            (usize_saturating_add (usize_saturating_sub (current_size b) old_size) val_size))
  | None =>
      let key_size := 4 + key_len in
      Ok (mkBuilder map'
            (usize_saturating_add (usize_saturating_add (current_size b) key_size) val_size))
  end.

Definition try_insert (b : PropertyMapBuilder) (key : bytes) (val : PropertyValue)
    : SM St Error PropertyMapBuilder :=
  interned_key ← (fun st => i_intern st key) : SM St Error Z;
  val_size ← lift (Property.serialized_size val);
  lift (insert_sized b interned_key (blen key) val val_size).

(** The key's length, or the fallback of 256 when it does not resolve. *)
Definition key_len (st : St) (key : Z) : Z := from_option blen 256 (i_resolve st key).

Definition try_insert_by_key (st : St) (b : PropertyMapBuilder) (key : Z) (val : PropertyValue)
    : res Error PropertyMapBuilder :=
  val_size ← Property.serialized_size val;
  insert_sized b key (key_len st key) val val_size.

Definition try_remove_by_key (st : St) (b : PropertyMapBuilder) (key : Z)
    : res Error PropertyMapBuilder :=
  match map b !! key with
  | Some old_val =>
      let key_size := 4 + key_len st key in
      old_size ← Property.serialized_size old_val;
      Ok (mkBuilder (delete key (map b))
            (usize_saturating_sub (usize_saturating_sub (current_size b) key_size) old_size))
  | None => Ok b
  end.

Definition try_remove (st : St) (b : PropertyMapBuilder) (key : bytes)
    : res Error PropertyMapBuilder :=
  match i_get_id st key with
  | None => Ok b
  | Some interned_key => try_remove_by_key st b interned_key
  end.

Definition RECURSION_PENALTY_SIZE : Z := 10 * 1024 * 1024.

(** [unwrap_or(RECURSION_PENALTY_SIZE)] *)
Definition size_or_penalty (v : PropertyValue) : Z :=
  match Property.serialized_size v with Ok n => n | _ => RECURSION_PENALTY_SIZE end.

Fixpoint from_iter_loop (st : St) (map : gmap Z PropertyValue) (size : Z)
    (l : list (Z * PropertyValue)) : PropertyMap :=
  match l with
  | [] => mkMap map size
  | (key, value) :: l =>
      let key_size := 4 + key_len st key in
      let val_size := size_or_penalty value in
      let size := usize_saturating_add (usize_saturating_add size key_size) val_size in
      let size := match map !! key with
                  | Some old_val =>
                      usize_saturating_sub (usize_saturating_sub size key_size)
                        (size_or_penalty old_val)
                  | None => size
                  end in
      from_iter_loop st (<[key := value]> map) size l
  end.
Definition from_iter (st : St) (l : list (Z * PropertyValue)) : PropertyMap :=
  from_iter_loop st ∅ 4 l.

(** *** Encoding *)
Fixpoint serialize_entries (st : St) (entries : list (Z * PropertyValue)) (buffer : bytes)
    : res Error bytes :=
  match entries with
  | [] => Ok buffer
  | (key, value) :: entries =>
      buffer ← ok_or ((fun key_bytes => buffer ++ to_le 4 (blen key_bytes) ++ key_bytes)
                        <$> i_resolve st key)
                     (EStorage InconsistentState);
      buffer ← Property.serialize_into value buffer;
      serialize_entries st entries buffer
  end.

(** The entries in increasing key order ([sort_unstable_by_key] on distinct keys). *)
Definition sorted_entries (m : gmap Z PropertyValue) : list (Z * PropertyValue) :=
  sort_by_key fst (map_to_list m).

Definition serialize_into (st : St) (m : PropertyMap) (buffer : bytes) : res Error bytes :=
  let buffer := buffer ++ to_le 4 (len m) in
  serialize_entries st (sorted_entries (inner m)) buffer.

Definition serialize (st : St) (m : PropertyMap) : res Error bytes := serialize_into st m [].

(** *** Decoding *)
Fixpoint deserialize_entries (n : nat) (b : bytes) (map : gmap Z PropertyValue)
    (offset calculated_size : Z) : SM St Error (gmap Z PropertyValue * Z * Z) :=
  match n with
  | O => mret (map, offset, calculated_size)
  | S n =>
      if blen b <? offset + 4 then lift (Err (EStorage CorruptedData))
      else
        key_len ← lift (read_u32 b offset);
        let offset := offset + 4 in
        if blen b <? offset + key_len then lift (Err (EStorage CorruptedData))
        else
          data ← lift (read_bytes b offset key_len);
          key_str ← lift (ok_or (from_utf8 data) (EStorage CorruptedData));
          key ← (fun st => i_intern st key_str) : SM St Error Z;
          let offset := offset + key_len in
          rest ← lift (expect (slice_from b offset));
          '(value, consumed) ← lift (Property.deserialize rest);
          let key_size := 4 + key_len in
          let calculated_size :=
            usize_saturating_add (usize_saturating_add calculated_size key_size) consumed in
          let offset := offset + consumed in
          if bool_decide (is_Some (map !! key)) then lift (Err (EStorage CorruptedData))
          else deserialize_entries n b (<[key := value]> map) offset calculated_size
  end.

Definition deserialize (b : bytes) : SM St Error (PropertyMap * Z) :=
  if blen b <? 4 then lift (Err (EStorage CorruptedData))
  else
    count ← lift (read_u32 b 0);
    if MAX_PROPERTY_MAP_CAPACITY <? count then lift (Err (EStorage CorruptedData))
    else
      let offset := 4 in
      let min_required_bytes := usize_saturating_mul count 5 in
      if usize_saturating_sub (blen b) offset <? min_required_bytes
      then lift (Err (EStorage CorruptedData))
      else
        '(map, offset, calculated_size) ← deserialize_entries (Z.to_nat count) b ∅ offset 4;
        if negb (offset =? calculated_size) then lift (Err (EStorage CorruptedData))
        else mret (mkMap map calculated_size, offset).
End Ops.
End PropMap.

(** ** Sizes *)
Section MapLemmas.
Context {St : Type} `{Interner St}.
Import Property PropMap.
Implicit Types (st : St) (m : gmap Z PropertyValue).

(** Bytes of one entry and of a whole map. *)
Definition entry_size st (p : Z * PropertyValue) : Z := 4 + key_len st p.1 + blen (enc p.2).
Definition entries_size st (l : list (Z * PropertyValue)) : Z :=
  foldr (fun p n => entry_size st p + n) 0 l.
Definition map_bytes st m : Z := 4 + entries_size st (map_to_list m).

#[global] Instance entries_size_proper st : Proper ((≡ₚ) ==> Logic.eq) (entries_size st).
Proof. intros l1 l2 Hp. induction Hp; simpl; lia. Qed.

Lemma entry_size_pos st p : 0 < entry_size st p.
Proof.
  unfold entry_size, key_len. pose proof (enc_pos p.2).
  destruct (i_resolve st p.1) as [s|]; simpl; [pose proof (blen_nonneg s)|]; lia.
Qed.

Lemma entries_size_nonneg st l : 0 <= entries_size st l.
Proof. induction l as [|p l IH]; simpl; [lia|]. pose proof (entry_size_pos st p). lia. Qed.

Lemma map_bytes_insert st m k v :
  m !! k = None -> map_bytes st (<[k := v]> m) = map_bytes st m + entry_size st (k, v).
Proof. intros Hk. unfold map_bytes. rewrite map_to_list_insert by done. simpl. lia. Qed.

Lemma map_bytes_delete st m k v :
  m !! k = Some v -> map_bytes st m = map_bytes st (delete k m) + entry_size st (k, v).
Proof.
  intros Hk. rewrite <-(insert_delete_id m k v) at 1 by done.
  apply map_bytes_insert, lookup_delete_eq.
Qed.

Lemma map_bytes_replace st m k v w :
  m !! k = Some w ->
  map_bytes st (<[k := v]> m) = map_bytes st m - blen (enc w) + blen (enc v).
Proof.
  intros Hk. rewrite <-insert_delete_eq, map_bytes_insert by apply lookup_delete_eq.
  rewrite (map_bytes_delete st m k w Hk). unfold entry_size. simpl. lia.
Qed.

Lemma map_bytes_pos st m : 4 <= map_bytes st m.
Proof. unfold map_bytes. pose proof (entries_size_nonneg st (map_to_list m)). lia. Qed.

Lemma map_bytes_lookup st m k v : m !! k = Some v -> 4 + entry_size st (k, v) <= map_bytes st m.
Proof. intros Hk. rewrite (map_bytes_delete st m k v Hk). pose proof (map_bytes_pos st (delete k m)). lia. Qed.

(** Names, values and nesting the encoding handles. *)
Definition name_ok (s : bytes) : Prop := utf8_valid s = true /\ in_u32 (blen s).
Definition val_ok (v : PropertyValue) : Prop := value_wf v /\ vdepth v <= MAX_RECURSION_DEPTH.
Definition map_wf st m : Prop :=
  forall k v, m !! k = Some v -> val_ok v /\ exists s, i_resolve st k = Some s /\ name_ok s.

Lemma map_wf_insert st m k v s :
  map_wf st m -> val_ok v -> i_resolve st k = Some s -> name_ok s -> map_wf st (<[k := v]> m).
Proof. intros W Hv Hk Hs i x [[<- <-]|[? ?]]%lookup_insert_Some; eauto. Qed.

Lemma map_wf_delete st m k : map_wf st m -> map_wf st (delete k m).
Proof. intros W i x [_ ?]%lookup_delete_Some. eauto. Qed.

Lemma map_wf_extends st st' m : i_wf st -> extends st st' -> map_wf st m -> map_wf st' m.
Proof.
  intros Wi E W k v Hk. destruct (W k v Hk) as (? & s & ? & ?). destruct (E Wi) as [_ Hr].
  eauto.
Qed.

Lemma key_len_resolve st k s : i_resolve st k = Some s -> key_len st k = blen s.
Proof. intros E. unfold key_len. by rewrite E. Qed.

Lemma map_bytes_extends st st' m :
  i_wf st -> extends st st' -> map_wf st m -> map_bytes st' m = map_bytes st m.
Proof.
  intros Wi E W. unfold map_bytes. f_equal.
  assert (Forall (fun p => exists s, i_resolve st p.1 = Some s) (map_to_list m)) as Hf.
  { apply Forall_forall. intros [k v] Hin%elem_of_map_to_list.
    destruct (W k v Hin) as (_ & s & ? & _). eauto. }
  destruct (E Wi) as [_ Hr].
  induction Hf as [|p l [s Hs] _ IH]; simpl; [done|]. rewrite IH. unfold entry_size.
  by rewrite (key_len_resolve st _ _ Hs), (key_len_resolve st' _ _ (Hr _ _ Hs)).
Qed.

Lemma serialized_size_val v : val_ok v -> serialized_size v = Ok (blen (enc v)).
Proof.
  intros [Hw Hd]. unfold serialized_size. rewrite size_spec by done.
  by rewrite (proj2 (Z.leb_le _ _)) by lia.
Qed.

Lemma serialize_into_val v buffer : val_ok v -> Property.serialize_into v buffer = Ok (buffer ++ enc v).
Proof.
  intros [Hw Hd]. pose proof (serialize_recursive_spec v buffer 0) as He. unfold encodable in He.
  by rewrite (proj2 (Z.leb_le _ _)), wf_vectors_fit in He by (done || lia).
Qed.

(** ** The builder keeps the size *)
Record builder_ok st (b : PropertyMapBuilder) : Prop := {
  bo_wf : map_wf st (map b);
  bo_size : current_size b = map_bytes st (map b) }.

Lemma insert_sized_ok st b k s v :
  builder_ok st b -> val_ok v -> i_resolve st k = Some s -> name_ok s ->
  map_bytes st (<[k := v]> (map b)) <= usize_max ->
  exists b', insert_sized b k (blen s) v (blen (enc v)) = Ok b' /\
    map b' = <[k := v]> (map b) /\ builder_ok st b'.
Proof.
  intros [W E] Hv Hk Hs Hb. unfold insert_sized. pose proof (enc_pos v).
  pose proof (map_bytes_pos st (map b)).
  destruct (map b !! k) as [w|] eqn:Ew.
  - destruct (W k w Ew) as [Hw _]. rewrite serialized_size_val by done. simpl.
    eexists; split; [done|]. split; [done|]. split; simpl; [by eapply map_wf_insert|].
    rewrite E. rewrite (map_bytes_replace st _ k v w Ew) in *.
    pose proof (map_bytes_lookup st _ k w Ew) as Hl. pose proof (enc_pos w).
    unfold entry_size in Hl. cbn [fst snd] in Hl. rewrite (key_len_resolve st k s Hk) in Hl.
    pose proof (blen_nonneg s).
    assert (map_bytes st (map b) - blen (enc w) <= usize_max) by lia. mlia.
  - eexists; split; [done|]. split; [done|]. split; simpl; [by eapply map_wf_insert|].
    rewrite E. rewrite (map_bytes_insert st _ k v Ew) in *. unfold entry_size in *.
    cbn [fst snd] in *. rewrite (key_len_resolve st k s Hk) in *. pose proof (blen_nonneg s). mlia.
Qed.

Lemma remove_ok st b k :
  builder_ok st b -> map_bytes st (map b) <= usize_max ->
  exists b', try_remove_by_key st b k = Ok b' /\ map b' = delete k (map b) /\ builder_ok st b'.
Proof.
  intros [W E] Hb. unfold try_remove_by_key. destruct (map b !! k) as [w|] eqn:Ew.
  - destruct (W k w Ew) as (Hw & s & Hk & _). rewrite serialized_size_val by done. simpl.
    eexists; split; [done|]. split; [done|]. split; simpl; [by apply map_wf_delete|].
    rewrite E. pose proof (map_bytes_delete st _ k w Ew) as Hd. rewrite Hd in *.
    pose proof (map_bytes_pos st (delete k (map b))). pose proof (entry_size_pos st (k, w)).
    unfold entry_size in *. cbn [fst snd] in *. rewrite (key_len_resolve st k s Hk) in *.
    pose proof (blen_nonneg s). pose proof (enc_pos w). mlia.
  - exists b. split; [done|]. by rewrite delete_id.
Qed.

(** ** Encoding and decoding entries by name *)
Definition name_bytes (p : bytes * PropertyValue) : bytes :=
  to_le 4 (blen p.1) ++ p.1 ++ enc p.2.
Definition enc_entries (es : list (bytes * PropertyValue)) : bytes :=
  foldr (fun p acc => name_bytes p ++ acc) [] es.
(** The entries of a list with their keys resolved. *)
Definition named st (l : list (Z * PropertyValue)) : list (bytes * PropertyValue) :=
  omap (fun p => (fun s => (s, p.2)) <$> i_resolve st p.1) l.

Definition entries_ok st (l : list (Z * PropertyValue)) : Prop :=
  Forall (fun p => val_ok p.2 /\ exists s, i_resolve st p.1 = Some s /\ name_ok s) l.

Lemma named_cons st k v l s :
  i_resolve st k = Some s -> named st ((k, v) :: l) = (s, v) :: named st l.
Proof. intros E. unfold named. cbn [omap list_omap fst snd]. by rewrite E. Qed.

Lemma enc_entries_cons p es : enc_entries (p :: es) = name_bytes p ++ enc_entries es.
Proof. done. Qed.

Lemma serialize_entries_ok st l buffer :
  entries_ok st l ->
  serialize_entries st l buffer = Ok (buffer ++ enc_entries (named st l)).
Proof.
  intros Hf. revert buffer. induction Hf as [|[k v] l [Hv (s & Hk & Hs)] _ IH]; intros buffer.
  { simpl. by rewrite app_nil_r. }
  cbn [fst snd] in *. rewrite (named_cons _ _ _ _ _ Hk), enc_entries_cons.
  cbn [serialize_entries]. rewrite Hk. cbn [fmap option_fmap option_map ok_or mbind res_bind].
  rewrite serialize_into_val by done. cbn [mbind res_bind]. rewrite IH.
  unfold name_bytes. cbn [fst snd]. by rewrite <-!app_assoc.
Qed.

Lemma blen_name_bytes p : blen (name_bytes p) = 4 + blen p.1 + blen (enc p.2).
Proof. unfold name_bytes. rewrite !blen_app, blen_to_le. lia. Qed.

Lemma blen_enc_entries st l :
  entries_ok st l -> blen (enc_entries (named st l)) = entries_size st l.
Proof.
  induction 1 as [|[k v] l [Hv (s & Hk & Hs)] _ IH]; [done|]. cbn [fst snd] in *.
  rewrite (named_cons _ _ _ _ _ Hk), enc_entries_cons, blen_app, blen_name_bytes, IH.
  simpl. unfold entry_size at 1. cbn [fst snd]. by rewrite (key_len_resolve st k s Hk).
Qed.

(** What decoding a list of named entries does to the interner and the map. *)
Fixpoint load (es : list (bytes * PropertyValue)) (acc : gmap Z PropertyValue)
    : SM St Error (gmap Z PropertyValue) :=
  match es with
  | [] => mret acc
  | (s, v) :: es =>
      k ← (fun st => i_intern st s) : SM St Error Z;
      if bool_decide (is_Some (acc !! k)) then lift (Err (EStorage CorruptedData))
      else load es (<[k := v]> acc)
  end.

Lemma deserialize_entries_load es b acc off post st :
  Forall (fun p => name_ok p.1 /\ val_ok p.2) es ->
  at_off b off (enc_entries es ++ post) -> blen b <= usize_max ->
  deserialize_entries (length es) b acc off off st =
    (m ← load es acc; mret (m, off + blen (enc_entries es), off + blen (enc_entries es))) st.
Proof.
  intros Hf. revert acc off st. induction Hf as [|[s v] es [[Hu Hs] [Hv Hd]] _ IH];
    intros acc off st Ha Hb.
  { simpl. unfold mbind, sm_bind. simpl. by rewrite blen_nil, Z.add_0_r. }
  cbn [fst snd] in *. rewrite enc_entries_cons in *. unfold name_bytes at 1 in Ha.
  cbn [fst snd] in Ha. rewrite <-!app_assoc in Ha.
  pose proof (at_off_len _ _ _ Ha) as [H0 Hlen]. rewrite !blen_app, blen_to_le in Hlen.
  skip_at Ha (off + 4) as A1. pose proof (at_off_app _ _ _ _ A1) as A2.
  pose proof (at_off_app _ _ _ _ A2) as A3.
  pose proof (enc_pos v). pose proof (blen_nonneg s). pose proof (blen_nonneg post).
  pose proof (blen_nonneg (enc_entries es)).
  cbn [deserialize_entries length load].
  rewrite (proj2 (Z.ltb_ge _ _)) by lia.
  rewrite (at_u32 _ _ _ _ Ha) by done. rewrite sm_bind_lift.
  rewrite (proj2 (Z.ltb_ge _ _)) by lia.
  rewrite (at_bytes _ _ _ _ _ A1) by done. rewrite sm_bind_lift.
  unfold from_utf8. rewrite Hu. cbn [ok_or]. rewrite sm_bind_lift.
  rewrite sm_bind_assoc. destruct (i_intern st s) as [st' [k|e|]] eqn:Ei;
    [|by rewrite !(sm_bind_err _ _ _ _ _ Ei)|by rewrite !(sm_bind_panic _ _ _ _ Ei)].
  rewrite !(sm_bind_ok _ _ _ _ _ Ei).
  unfold at_off in A2. rewrite A2. cbn [expect]. rewrite sm_bind_lift.
  unfold Property.deserialize. rewrite (deserialize_enc v (enc_entries es ++ post) decode_fuel 0)
    by (done || (unfold decode_fuel; lia) || (rewrite !blen_app; lia)). rewrite sm_bind_lift.
  case_bool_decide; [done|].
  replace (usize_saturating_add (usize_saturating_add off (4 + blen s)) (blen (enc v)))
    with (off + 4 + blen s + blen (enc v)) by mlia.
  rewrite IH by done. unfold mbind at 1 2, sm_bind at 1 2.
  destruct (load es (<[k:=v]> acc) st') as [st'' [m|e|]]; [|done|done].
  unfold mret, sm_ret. rewrite blen_app, blen_name_bytes. cbn [fst snd].
  replace (off + (4 + blen s + blen (enc v) + blen (enc_entries es)))
    with (off + 4 + blen s + blen (enc v) + blen (enc_entries es)) by lia. done.
Qed.

(** Loading into the interner the names came from. *)
Lemma load_known st l acc :
  i_wf st -> entries_ok st l -> NoDup l.*1 -> (forall k, k ∈ l.*1 -> acc !! k = None) ->
  load (named st l) acc st = (st, Ok (list_to_map l ∪ acc)).
Proof.
  intros W Hf. revert acc. induction Hf as [|[k v] l [Hv (s & Hk & Hs)] _ IH];
    intros acc Hnd Hfr.
  { simpl. by rewrite map_empty_union. }
  simpl in Hnd, Hfr, Hk. apply NoDup_cons in Hnd as [Hni Hnd]. rewrite (named_cons _ _ _ _ _ Hk). cbn [load].
  rewrite (sm_bind_ok _ _ _ _ _ (i_intern_known st s k W Hk)).
  rewrite bool_decide_false by (rewrite Hfr by left; by intros []).
  rewrite IH; [|done|].
  - simpl. rewrite <-insert_union_r; [by rewrite insert_union_l|].
    by apply not_elem_of_list_to_map_1.
  - intros j Hj. rewrite lookup_insert_ne; [apply Hfr; by right|]. by intros ->.
Qed.

(** A map binds a name to a value. *)
Definition has st m (s : bytes) (v : PropertyValue) : Prop :=
  exists k, i_resolve st k = Some s /\ m !! k = Some v.

Definition keys_resolve st m : Prop := forall k, is_Some (m !! k) -> is_Some (i_resolve st k).

Lemma has_extends st st' m s v :
  i_wf st -> extends st st' -> keys_resolve st m -> has st' m s v <-> has st m s v.
Proof.
  intros W E Hk. destruct (E W) as [W' Hr]. split; intros (k & Hs & Hm); exists k; (split; [|done]).
  - destruct (Hk k) as [t Ht]; [by rewrite Hm|]. rewrite (Hr _ _ Ht) in Hs. congruence.
  - auto.
Qed.

Lemma has_insert st m k s v :
  i_wf st -> i_resolve st k = Some s -> m !! k = None ->
  forall t w, has st (<[k := v]> m) t w <-> has st m t w \/ (t, w) = (s, v).
Proof.
  intros W Hk Hm t w. split.
  - intros (j & Hj & [[<- <-]|[? ?]]%lookup_insert_Some); [right; congruence|left]. by exists j.
  - intros [(j & Hj & Hw)|[= -> ->]]; [|exists k; by rewrite lookup_insert_eq].
    exists j. split; [done|]. rewrite lookup_insert_ne; [done|]. intros <-. congruence.
Qed.

(** Loading into any interner: the names and values of the list are added, or a
    full interner stops it. *)
Lemma load_spec es st acc :
  i_wf st -> keys_resolve st acc -> NoDup es.*1 ->
  (forall s v, s ∈ es.*1 -> ~ has st acc s v) ->
  let '(st', r) := load es acc st in
  extends st st' /\
  match r with
  | Ok m' => keys_resolve st' m' /\
             forall s v, has st' m' s v <-> has st acc s v \/ (s, v) ∈ es
  | Err e => exists current limit, e = EStorage (CapacityExceeded current limit)
  | Panic => False
  end.
Proof.
  revert st acc. induction es as [|[s v] es IH]; intros st acc W Hk Hnd Hfr; simpl.
  { split; [done|]. split; [done|]. intros t w. rewrite elem_of_nil. tauto. }
  simpl in Hnd. apply NoDup_cons in Hnd as [Hni Hnd].
  pose proof (intern_extends st s) as Hex. pose proof (i_intern_total st s) as Ht.
  destruct (i_intern st s) as [st1 [k|e|]] eqn:Ei; simpl in Hex, Ht;
    [|rewrite (sm_bind_err _ _ _ _ _ Ei); done|done].
  rewrite (sm_bind_ok _ _ _ _ _ Ei). destruct (i_intern_ok _ _ _ _ W Ei) as [Hks _].
  destruct (Hex W) as [W1 Hr1].
  assert (acc !! k = None) as Hnone.
  { destruct (acc !! k) as [w|] eqn:Ew; [|done]. exfalso. apply (Hfr s w); [left|].
    apply (has_extends st st1); try done. by exists k. }
  rewrite bool_decide_false by (rewrite Hnone; by intros []).
  assert (keys_resolve st1 (<[k:=v]> acc)) as Hk1.
  { intros j. rewrite lookup_insert_is_Some. intros [<-|[_ Hj]]; [by rewrite Hks|].
    destruct (Hk j Hj) as [t Ht']. eauto. }
  specialize (IH st1 (<[k:=v]> acc) W1 Hk1 Hnd). destruct (load es _ st1) as [st2 r].
  destruct IH as [Hex2 IH].
  { intros t w Hin Hh. rewrite (has_insert st1 acc k s v) in Hh by done.
    destruct Hh as [Hh|[= -> ->]]; [|done].
    apply (Hfr t w); [by right|]. by apply (has_extends st st1). }
  split; [by etrans|]. destruct r; try done. destruct IH as [? IH]. split; [done|].
  intros t w. rewrite IH, (has_insert st1 acc k s v), elem_of_cons, (has_extends st st1) by done.
  tauto.
Qed.

Lemma map_entries_ok st m : map_wf st m -> entries_ok st (sorted_entries m).
Proof.
  intros W. unfold entries_ok, sorted_entries. rewrite sort_by_key_perm.
  apply Forall_forall. intros [k v] Hin%elem_of_map_to_list. by apply W.
Qed.

Lemma map_entries_perm m : sorted_entries m ≡ₚ map_to_list m.
Proof. apply sort_by_key_perm. Qed.

Lemma named_elem st l s v :
  (s, v) ∈ named st l <-> exists k, (k, v) ∈ l /\ i_resolve st k = Some s.
Proof.
  unfold named. rewrite list_elem_of_omap. split.
  - intros ([k w] & Hin & E). simpl in E. destruct (i_resolve st k) eqn:Ek; simplify_eq/=. eauto.
  - intros (k & Hin & E). exists (k, v). simpl. by rewrite E.
Qed.

Lemma named_NoDup st l : i_wf st -> NoDup l.*1 -> NoDup (named st l).*1.
Proof.
  intros W. induction l as [|[k v] l IH]; intros Hnd; [constructor|].
  apply NoDup_cons in Hnd as [Hni Hnd]. destruct (i_resolve st k) as [s|] eqn:Ek.
  - rewrite (named_cons _ _ _ _ _ Ek), fmap_cons. constructor; [|by apply IH]. cbn [fst].
    rewrite list_elem_of_fmap. intros ([t w] & -> & (j & Hj & Ej)%named_elem).
    apply Hni. simpl in *. rewrite (resolve_inj st k j _ W Ek Ej).
    apply list_elem_of_fmap. by exists (j, w).
  - unfold named. simpl. rewrite Ek. by apply IH.
Qed.

Lemma named_ok st l :
  entries_ok st l -> Forall (fun p => name_ok p.1 /\ val_ok p.2) (named st l) /\
  length (named st l) = length l.
Proof.
  induction 1 as [|[k v] l [Hv (s & Hk & Hs)] _ [IH1 IH2]]; [by split|].
  rewrite (named_cons _ _ _ _ _ Hk). split; [by constructor|]. simpl. by rewrite IH2.
Qed.

Lemma deserialize_load es post st :
  Forall (fun p => name_ok p.1 /\ val_ok p.2) es -> blen es <= MAX_PROPERTY_MAP_CAPACITY ->
  blen (to_le 4 (blen es) ++ enc_entries es ++ post) <= usize_max ->
  let n := 4 + blen (enc_entries es) in
  deserialize (to_le 4 (blen es) ++ enc_entries es ++ post) st =
    (m ← load es ∅; mret (mkMap m n, n)) st.
Proof.
  intros Hf Hc Hb. set (b := to_le 4 (blen es) ++ enc_entries es ++ post) in *.
  assert (at_off b 0 (to_le 4 (blen es) ++ enc_entries es ++ post)) as A0 by apply at_off_0.
  skip_at A0 4 as A4. pose proof (at_off_len _ _ _ A4) as [_ Hlen]. rewrite blen_app in Hlen.
  pose proof (blen_nonneg es). pose proof (blen_nonneg post).
  assert (5 * blen es <= blen (enc_entries es)) as H5.
  { clear -Hf. induction Hf as [|p es _ _ IH]; [done|].
    rewrite enc_entries_cons, blen_app, blen_name_bytes, blen_cons.
    pose proof (enc_pos p.2). pose proof (blen_nonneg p.1). lia. }
  unfold deserialize. rewrite (proj2 (Z.ltb_ge _ _)) by lia.
  rewrite (at_u32 _ _ _ _ A0) by mlia. rewrite sm_bind_lift.
  rewrite (proj2 (Z.ltb_ge _ _)) by lia.
  rewrite (proj2 (Z.ltb_ge _ _)) by mlia.
  unfold blen at 1. rewrite Nat2Z.id.
  unfold mbind at 1, sm_bind at 1. rewrite (deserialize_entries_load es b ∅ 4 post) by done.
  unfold mbind, sm_bind. destruct (load es ∅ st) as [st' [m|e|]]; [|done|done].
  unfold mret, sm_ret. cbn beta iota. by rewrite Z.eqb_refl.
Qed.

Lemma map_serialize_ok st (m : PropertyMap) buffer :
  map_wf st (inner m) ->
  serialize_into st m buffer = Ok (buffer ++ to_le 4 (len m) ++
    enc_entries (named st (sorted_entries (inner m)))) /\
  4 + blen (enc_entries (named st (sorted_entries (inner m)))) = map_bytes st (inner m).
Proof.
  intros W. pose proof (map_entries_ok st (inner m) W) as Hok. unfold serialize_into. split.
  - rewrite serialize_entries_ok by done. by rewrite <-app_assoc.
  - rewrite blen_enc_entries by done. unfold map_bytes. by rewrite map_entries_perm.
Qed.

Lemma len_entries (m : PropertyMap) : len m = blen (sorted_entries (inner m)).
Proof. unfold len, blen. by rewrite map_entries_perm, length_map_to_list. Qed.

Lemma sorted_entries_keys m : NoDup (sorted_entries m).*1.
Proof. rewrite map_entries_perm. apply NoDup_fst_map_to_list. Qed.

Lemma sorted_entries_map m : list_to_map (sorted_entries m) = m.
Proof.
  rewrite <-(list_to_map_to_list m) at 2.
  apply list_to_map_proper; [apply sorted_entries_keys|apply map_entries_perm].
Qed.

(** *** Decoding arbitrary bytes *)
Lemma deserialize_entries_safe n b acc off st :
  i_wf st -> blen b <= usize_max -> map_wf st acc -> off = map_bytes st acc -> off <= blen b ->
  sm_safe extends (deserialize_entries n b acc off off) st (fun st' '(m, off', calc) =>
    map_wf st' m /\ off' = map_bytes st' m /\ calc = off' /\ off' <= blen b /\
    Z.of_nat (size m) = Z.of_nat (size acc) + Z.of_nat n).
Proof.
  revert acc off st. induction n as [|n IH]; intros acc off st W Hb Hm Ho Hle;
    cbn [deserialize_entries].
  { split; [reflexivity|]. simpl. split_and!; try done. lia. }
  pose proof (map_bytes_pos st acc).
  case_goal; [by split|]. bool_to_prop.
  eapply sm_safe_bind; [apply _|apply (sm_safe_lift extends (read_u32 b off) st in_u32),
    read_u32_safe; lia|]. intros st0 kl E0 Hkl.
  destruct (E0 W) as [W0 R0]. case_goal; [by split|]. bool_to_prop.
  eapply sm_safe_bind; [apply _|apply (sm_safe_lift extends (read_bytes b (off + 4) kl) st0
    (fun x => blen x = kl)), read_bytes_safe; mlia|]. intros st1 data E1 Hdata.
  destruct (from_utf8 data) as [s|] eqn:Eu; [|by split].
  apply from_utf8_some in Eu as [-> Hu].
  destruct (E1 W0) as [W1 R1].
  eapply sm_safe_bind; [apply _|by apply sm_safe_lift with (P := fun x => x = s)|].
  intros st2 ? E2 ->. destruct (E2 W1) as [W2 R2].
  eapply sm_safe_bind; [apply _|by apply intern_safe|]. intros st3 k E3 [Hk _].
  destruct (E3 W2) as [W3 R3].
  destruct (slice_from_ok b (off + 4 + kl)) as (rest & Er & Hr); [mlia..|]. rewrite Er.
  eapply sm_safe_bind; [apply _|by apply sm_safe_lift with (P := fun x => x = rest)|].
  intros st4 ? E4 ->. destruct (E4 W3) as [W4 R4].
  eapply sm_safe_bind; [apply _|apply (sm_safe_lift extends (Property.deserialize rest) st4),
    (deserialize_safe_at decode_fuel rest 0); unfold decode_fuel; lia|].
  intros st5 [v c] E5 (Hv & Hd & Hc & Hcn). destruct (E5 W4) as [W5 R5].
  case_bool_decide as Hdup; [by split|].
  assert (extends st st5) as Ex by (do 4 (etrans; [eassumption|]); by etrans).
  assert (i_resolve st5 k = Some s) as Hk5 by auto.
  assert (acc !! k = None) as Hnone by (by apply eq_None_not_Some).
  assert (map_wf st5 (<[k:=v]> acc)) as Hm5.
  { eapply map_wf_insert; [by apply (map_wf_extends st)|split; [done|lia]|done|]. split; [done|mlia]. }
  assert (map_bytes st5 (<[k:=v]> acc) = off + 4 + kl + c) as Hsz.
  { rewrite map_bytes_insert by done. rewrite (map_bytes_extends st st5) by done.
    unfold entry_size. cbn [fst snd]. rewrite (key_len_resolve _ _ _ Hk5). lia. }
  replace (usize_saturating_add (usize_saturating_add off (4 + kl)) c) with (off + 4 + kl + c) by mlia.
  eapply sm_safe_mono; [apply IH; try done; lia|].
  intros st6 [[m' off'] calc'] _ (? & ? & ? & ? & Hsize). split_and!; try done.
  rewrite Hsize, map_size_insert_None by done. lia.
Qed.

Lemma from_iter_loop_ok st m n l :
  map_wf st m -> n = map_bytes st m -> entries_ok st l ->
  map_bytes st m + entries_size st l <= usize_max ->
  inner (from_iter_loop st m n l) = foldl (fun m p => <[p.1 := p.2]> m) m l /\
  cached_size (from_iter_loop st m n l) = map_bytes st (inner (from_iter_loop st m n l)).
Proof.
  intros Hm -> Hok. revert m Hm.
  induction Hok as [|[k v] l [Hv (s & Hk & Hs)] _ IH]; intros m Hm Hb; [done|].
  cbn [fst snd] in *. cbn [from_iter_loop foldl fst snd].
  cbn [entries_size foldr] in Hb. change (foldr _ 0 l) with (entries_size st l) in Hb.
  pose proof (entries_size_nonneg st l). pose proof (map_bytes_pos st m).
  unfold entry_size at 1 in Hb. cbn [fst snd] in Hb.
  rewrite (key_len_resolve st k s Hk) in *. pose proof (enc_pos v). pose proof (blen_nonneg s).
  unfold size_or_penalty. rewrite serialized_size_val by done.
  assert (map_wf st (<[k:=v]> m)) as Hm' by by eapply map_wf_insert.
  destruct (m !! k) as [w|] eqn:Ew.
  - destruct (Hm k w Ew) as [Hw _]. rewrite serialized_size_val by done.
    pose proof (map_bytes_replace st m k v w Ew) as Hr. pose proof (enc_pos w).
    pose proof (map_bytes_lookup st m k w Ew) as Hl. unfold entry_size in Hl. cbn [fst snd] in Hl.
    rewrite (key_len_resolve st k s Hk) in Hl.
    match goal with |- context [from_iter_loop st _ ?z l] =>
      replace z with (map_bytes st (<[k:=v]> m)) by mlia end.
    apply IH; [done|lia].
  - pose proof (map_bytes_insert st m k v Ew) as Hr. unfold entry_size in Hr. cbn [fst snd] in Hr.
    rewrite (key_len_resolve st k s Hk) in Hr.
    match goal with |- context [from_iter_loop st _ ?z l] =>
      replace z with (map_bytes st (<[k:=v]> m)) by mlia end.
    apply IH; [done|lia].
Qed.

Lemma deserialize_map_safe b st :
  i_wf st -> blen b <= usize_max ->
  sm_safe extends (deserialize b) st (fun st' '(m, n) =>
    map_wf st' (inner m) /\ cached_size m = map_bytes st' (inner m) /\ n = cached_size m /\
    n <= blen b /\ len m <= MAX_PROPERTY_MAP_CAPACITY).
Proof.
  intros W Hb. unfold deserialize. case_goal; [by split|]. bool_to_prop.
  eapply sm_safe_bind; [apply _|apply (sm_safe_lift extends (read_u32 b 0) st in_u32),
    read_u32_safe; lia|]. intros st0 count E0 Hcount. destruct (E0 W) as [W0 _].
  case_goal; [by split|]. case_goal; [by split|]. bool_to_prop.
  eapply sm_safe_bind; [apply _|apply (deserialize_entries_safe _ b ∅ 4); try done; lia|].
  intros st1 [[m off] calc] E1 (Hm & Ho & -> & Hle & Hsz).
  rewrite Z.eqb_refl. split; [reflexivity|]. simpl. split_and!; try done.
  unfold len. simpl. rewrite Hsz, map_size_empty. mlia.
Qed.
End MapLemmas.

(** ** Properties *)
Section MapProperties.
Context {St : Type} `{Interner St}.
Import Property PropMap.

(** The builder keeps [current_size] equal to the exact serialized size
    through every insertion (new key or replacement) and removal, so that
    [build] yields a map whose [cached_size] is the length of its serialization;
    here for an insertion by string, which may also intern the key. *)
Theorem builder_size_exact (st : St) (b : PropertyMapBuilder) (key : bytes) (v : PropertyValue) :
  i_wf st -> builder_ok st b -> name_ok key -> val_ok v ->
  map_bytes st (map b) + 4 + blen key + blen (enc v) <= usize_max ->
  match try_insert b key v st with
  | (st', Ok b') =>
      builder_ok st' b' /\
      (exists k, i_resolve st' k = Some key /\ map b' = <[k := v]> (map b)) /\
      (exists x, serialize st' (build b') = Ok x /\ blen x = cached_size (build b')) /\
      (exists k b'', i_resolve st' k = Some key /\ try_remove st' b' key = Ok b'' /\
         map b'' = delete k (map b) /\ builder_ok st' b'')
  | (st', Err e) => exists current limit, e = EStorage (CapacityExceeded current limit)
  | (_, Panic) => False
  end.
Proof.
  intros W Hb Hs Hv Hfit. unfold try_insert.
  pose proof (intern_extends st key) as Hex. pose proof (i_intern_total st key) as Ht.
  destruct (i_intern st key) as [st' [k|e|]] eqn:Ei; simpl in Hex, Ht;
    [|by rewrite (sm_bind_err _ _ _ _ _ Ei)|done].
  rewrite (sm_bind_ok _ _ _ _ _ Ei), serialized_size_val, sm_bind_lift by done.
  destruct (i_intern_ok _ _ _ _ W Ei) as [Hk _]. destruct (Hex W) as [W' _].
  assert (builder_ok st' b) as Hb'.
  { destruct Hb as [Hw Hsz]. split; [by apply (map_wf_extends st)|].
    by rewrite (map_bytes_extends st) by done. }
  assert (map_bytes st' (<[k:=v]> (map b)) <= usize_max) as Hmax.
  { rewrite <-(map_bytes_extends st st') in Hfit by (done || apply Hb).
    pose proof (enc_pos v). pose proof (blen_nonneg key).
    destruct (map b !! k) as [w|] eqn:Ew.
    - rewrite (map_bytes_replace st' _ k v w Ew). pose proof (enc_pos w). lia.
    - rewrite (map_bytes_insert st' _ k v Ew). unfold entry_size. cbn [fst snd].
      rewrite (key_len_resolve _ _ _ Hk). lia. }
  destruct (insert_sized_ok st' b k key v Hb' Hv Hk Hs Hmax) as (b' & E & Hmap & Hok).
  unfold lift. rewrite E. split; [done|]. split; [eauto|]. split.
  - destruct (map_serialize_ok st' (build b') [] (bo_wf _ _ Hok)) as [Hser Hsize].
    eexists; split; [exact Hser|]. rewrite app_nil_l, blen_app, blen_to_le.
    simpl. rewrite (bo_size _ _ Hok). simpl in Hsize. lia.
  - destruct (remove_ok st' b' k Hok) as (b'' & Er & Hd & Hok''); [by rewrite Hmap|].
    exists k, b''. split; [done|]. unfold try_remove.
    rewrite (proj2 (i_get_id_iff st' key k W')) by done.
    split_and!; try done. by rewrite Hd, Hmap, delete_insert_eq.
Qed.

(** Map round trip: a well-formed map of at most [MAX_PROPERTY_MAP_CAPACITY]
    entries serializes, and decoding the bytes against the same interner returns
    exactly that map and interner, with [cached_size] the number of bytes read. *)
Theorem map_roundtrip (st : St) (m : PropertyMap) (post : bytes) :
  i_wf st -> map_wf st (inner m) -> len m <= MAX_PROPERTY_MAP_CAPACITY ->
  exists x, serialize st m = Ok x /\ blen x = map_bytes st (inner m) /\
    (blen (x ++ post) <= usize_max ->
     deserialize (x ++ post) st = (st, Ok (mkMap (inner m) (blen x), blen x))).
Proof.
  intros W Hm Hlen. destruct (map_serialize_ok st m [] Hm) as [Hs Hsz].
  pose proof (map_entries_ok st _ Hm) as Hok. destruct (named_ok st _ Hok) as [Hn Hnl].
  assert (len m = blen (named st (sorted_entries (inner m)))) as El.
  { rewrite len_entries. unfold blen. by rewrite Hnl. }
  eexists; split; [exact Hs|]. rewrite app_nil_l. rewrite El. rewrite El in Hlen.
  split; [rewrite blen_app, blen_to_le; lia|]. intros Hb. rewrite <-app_assoc in *.
  rewrite deserialize_load by done.
  rewrite (sm_bind_ok _ _ _ st (list_to_map (sorted_entries (inner m)) ∪ ∅)).
  - unfold mret, sm_ret. rewrite map_union_empty, blen_app, blen_to_le.
    by rewrite sorted_entries_map.
  - apply load_known; try done. apply sorted_entries_keys.
Qed.

(** Decoding in another process: read back against any interner, the bytes
    of a map give a map with the same string keys and values (keys re-interned),
    or the interner is full; ids already issued keep their strings. *)
Theorem map_decode_by_name (st st2 : St) (m : PropertyMap) (x : bytes) :
  i_wf st -> map_wf st (inner m) -> len m <= MAX_PROPERTY_MAP_CAPACITY ->
  serialize st m = Ok x -> blen x <= usize_max -> i_wf st2 ->
  match deserialize x st2 with
  | (st2', Ok (m', n)) => extends st2 st2' /\ n = blen x /\ cached_size m' = n /\
      forall s v, has st2' (inner m') s v <-> has st (inner m) s v
  | (st2', Err e) => exists current limit, e = EStorage (CapacityExceeded current limit)
  | (_, Panic) => False
  end.
Proof.
  intros W Hm Hlen Hx Hb W2. destruct (map_serialize_ok st m [] Hm) as [Hs Hsz].
  unfold serialize in Hx. rewrite Hs in Hx.
  match type of Hx with Ok ?y = _ => assert (x = y) as -> by congruence end.
  clear Hx. rewrite app_nil_l in *.
  pose proof (map_entries_ok st _ Hm) as Hok. destruct (named_ok st _ Hok) as [Hn Hnl].
  assert (len m = blen (named st (sorted_entries (inner m)))) as El.
  { rewrite len_entries. unfold blen. by rewrite Hnl. }
  rewrite El in *.
  pose proof (deserialize_load (named st (sorted_entries (inner m))) [] st2 Hn Hlen) as HD.
  rewrite app_nil_r in HD. rewrite HD by done. clear HD.
  pose proof (load_spec (named st (sorted_entries (inner m))) st2 ∅ W2) as HL.
  destruct (load _ ∅ st2) as [st2' r] eqn:Eload.
  destruct HL as [Hex HL].
  { by intros k [? ?]. }
  { apply named_NoDup; [done|]. apply sorted_entries_keys. }
  { by intros s v _ (k & _ & ?). }
  destruct r as [m'|e|];
    [rewrite (sm_bind_ok _ _ _ _ _ Eload)|by rewrite (sm_bind_err _ _ _ _ _ Eload)|done].
  unfold mret, sm_ret. rewrite blen_app, blen_to_le. split_and!; try done.
  destruct HL as [_ HL]. intros s v. simpl. rewrite HL, named_elem. split.
  - intros [(k & _ & ?)|(k & Hin & Hk)]; [done|]. exists k. split; [done|].
    rewrite map_entries_perm in Hin. by apply elem_of_map_to_list in Hin.
  - intros (k & Hk & Hin). right. exists k. split; [|done].
    rewrite map_entries_perm. by apply elem_of_map_to_list.
Qed.

(** Collecting a sequence of entries ([FromIterator]) gives the map that
    inserts them in order (the last value of a repeated key wins) with
    [cached_size] equal to its exact serialized size, although each entry is
    first counted as new and the replaced one subtracted again. *)
Theorem from_iter_size (st : St) (l : list (Z * PropertyValue)) :
  entries_ok st l -> 4 + entries_size st l <= usize_max ->
  inner (from_iter st l) = foldl (fun m p => <[p.1 := p.2]> m) ∅ l /\
  cached_size (from_iter st l) = map_bytes st (inner (from_iter st l)).
Proof.
  intros Hok Hb. apply from_iter_loop_ok; try done.
Qed.

(** Decoding untrusted bytes never panics; an accepted map is well formed in
    the resulting interner, holds at most [MAX_PROPERTY_MAP_CAPACITY] entries,
    and its [cached_size] is its exact serialized size and the bytes consumed. *)
Theorem map_deserialize_untrusted (st : St) (b : bytes) :
  i_wf st -> blen b <= usize_max ->
  match deserialize b st with
  | (st', Ok (m, n)) => i_wf st' /\ map_wf st' (inner m) /\
      cached_size m = map_bytes st' (inner m) /\ n = cached_size m /\ n <= blen b /\
      len m <= MAX_PROPERTY_MAP_CAPACITY
  | (st', Err _) => i_wf st'
  | (_, Panic) => False
  end.
Proof.
  intros W Hb. destruct (deserialize_map_safe b st W Hb) as [Hex HP].
  destruct (deserialize b st) as [st' [[m n]|e|]]; simpl in *; destruct (Hex W); naive_solver.
Qed.
End MapProperties.

Module MapWitness.
Import Interning Property PropMap.

Definition hi : bytes := [bof 104; bof 105].
Definition st0 : StringInterner := (intern (with_max_capacity 9) hi).1.

Lemma fresh_wf : interner_wf (with_max_capacity 9).
Proof. apply with_max_capacity_wf. mlia. Qed.

Lemma st0_wf : interner_wf st0.
Proof. eapply (intern_wf (with_max_capacity 9) hi); [apply fresh_wf|apply surjective_pairing]. Qed.

Lemma hi_ok : name_ok hi.
Proof. split; [done|by vm_compute]. Qed.

Lemma val0_ok : val_ok PropertyWitness.sample.
Proof. split; [apply PropertyWitness.sample_wf|by vm_compute]. Qed.

Definition m0 : PropertyMap := mkMap {[ 0 := PropertyWitness.sample ]} 0.

Lemma m0_wf : map_wf st0 (inner m0).
Proof.
  unfold m0. simpl inner. intros k v [<- <-]%lookup_singleton_Some. split; [apply val0_ok|].
  exists hi. split; [by vm_compute|apply hi_ok].
Qed.

Lemma builder_size_exact_witness : exists b',
  (try_insert builder_new hi (PInt 5) (with_max_capacity 9)).2 = Ok b' /\
  (exists x, serialize st0 (build b') = Ok x /\ blen x = cached_size (build b')).
Proof.
  assert (builder_ok (with_max_capacity 9) builder_new) as Hb.
  { split; [by intros k v ?|done]. }
  pose proof (builder_size_exact (with_max_capacity 9) builder_new hi (PInt 5) fresh_wf Hb hi_ok
    ltac:(split; [simpl; mlia|by vm_compute]) ltac:(by vm_compute)) as Hx.
  assert (try_insert builder_new hi (PInt 5) (with_max_capacity 9) =
    (st0, Ok (mkBuilder {[0 := PInt 5]} 19))) as E by by vm_compute.
  rewrite E in Hx. exists (mkBuilder {[0 := PInt 5]} 19). rewrite E.
  split; [reflexivity|]. apply Hx.
Defined.

Lemma map_roundtrip_witness : exists x,
  serialize st0 m0 = Ok x /\ deserialize (x ++ []) st0 = (st0, Ok (mkMap (inner m0) (blen x), blen x)).
Proof.
  pose proof (map_roundtrip st0 m0 [] st0_wf m0_wf ltac:(by vm_compute)) as (x & Hx & Hl & Hd).
  exists x. split; [exact Hx|]. apply Hd. vm_compute in Hx. injection Hx as <-. by vm_compute.
Defined.

Lemma map_decode_by_name_witness : exists x,
  serialize st0 m0 = Ok x /\ match deserialize x (with_max_capacity 3) with
  | (st2, Ok (m', n)) => n = blen x
  | _ => False
  end.
Proof.
  destruct (serialize st0 m0) as [x| |] eqn:Ex; [|by vm_compute in Ex..].
  pose proof (map_decode_by_name st0 (with_max_capacity 3) m0 x st0_wf m0_wf
    ltac:(by vm_compute) Ex ltac:(vm_compute in Ex; injection Ex as <-; by vm_compute)
    (with_max_capacity_wf 3 ltac:(mlia))) as Hx.
  exists x. split; [reflexivity|]. vm_compute in Ex. injection Ex as <-.
  destruct (deserialize _ (with_max_capacity 3)) as [st2 [[m' n]|e|]] eqn:Ed.
  - apply Hx.
  - vm_compute in Ed. discriminate Ed.
  - exact Hx.
Defined.

Lemma from_iter_size_witness :
  cached_size (from_iter st0 [(0, PInt 5); (0, PNull)]) = 11.
Proof.
  destruct (from_iter_size st0 [(0, PInt 5); (0, PNull)]) as [_ H].
  - repeat constructor; simpl; try mlia; try done; (exists hi; split; [by vm_compute|apply hi_ok]).
  - by vm_compute.
  - rewrite H. by vm_compute.
Defined.

Lemma map_deserialize_untrusted_witness :
  match deserialize (to_le 4 1 ++ to_le 4 2 ++ hi ++ [bof 0]) st0 with
  | (_, Ok (m, n)) => cached_size m = n
  | _ => False
  end.
Proof.
  pose proof (map_deserialize_untrusted st0 (to_le 4 1 ++ to_le 4 2 ++ hi ++ [bof 0]) st0_wf
    ltac:(by vm_compute)) as Hx.
  destruct (deserialize _ st0) as [st' [[m n]|e|]] eqn:Ed.
  - symmetry. apply Hx.
  - vm_compute in Ed. discriminate Ed.
  - exact Hx.
Defined.
End MapWitness.
