(* ===== verification/Namespaces.v ===== *)
(** * Namespaces: [src/core/namespace.rs]

    Validated names, the read scopes and their resolution to interned ids, and the
    reserved property that carries the namespace of an entity. *)

From S2P Require Import Prelude.
From S2P Require Import Bytes.
From S2P Require Import Errors.
From S2P Require Import Interning.
From S2P Require Import Property.
From S2P Require Import PropMap.

Module Ns.

Definition of_literal (s : string) : bytes := String.list_byte_of_string s.

Definition NAMESPACE_KEY : bytes := of_literal "__aletheia_ns".
Definition ALETHEIA_RESERVED_PREFIX : bytes := of_literal "__aletheia_".
Definition SHRED_RESERVED_PREFIX : bytes := of_literal "__shred_".
Definition UNRESOLVED_NAMESPACE : bytes := of_literal "__aletheia_unresolved".
Definition MAX_NAMESPACE_LEN : Z := 128.
Definition ALL_SELECTOR : bytes := of_literal "all".
Definition DEFAULT : bytes := of_literal "default".

Definition is_reserved_property_key (key : bytes) : bool :=
  bool_decide (ALETHEIA_RESERVED_PREFIX `prefix_of` key) || bool_decide (SHRED_RESERVED_PREFIX `prefix_of` key).

(** [Namespace(String)]: the field is private, [new] is the checked constructor. *)
Record Namespace := mkNs { as_str : bytes }.
#[global] Instance Namespace_eq_dec : EqDecision Namespace.
Proof. solve_decision. Defined.
#[global] Program Instance Namespace_countable : Countable Namespace :=
  inj_countable' as_str mkNs _.
Next Obligation. by intros []. Qed.

(** The characters allowed in a name; every other character of a UTF-8 string has a
    byte outside of the set. *)
Definition name_char (c : byte) : bool :=
  let z := byte.unsigned c in
  ((65 <=? z) && (z <=? 90)) || ((97 <=? z) && (z <=? 122)) || ((48 <=? z) && (z <=? 57)) ||
  bool_decide (z ∈ [46; 95; 58; 47; 45]).

Definition new (name : bytes) : res NamespaceError Namespace :=
  if bool_decide (name = []) then Err (InvalidName name)
  else if MAX_NAMESPACE_LEN <? blen name then Err (InvalidName name)
  else if bool_decide (name = ALL_SELECTOR) then Err (InvalidName name)
  else if is_reserved_property_key name then Err (InvalidName name)
  else if negb (forallb name_char name) then Err (InvalidName name)
  else Ok (mkNs name).
Definition is_default (ns : Namespace) : bool := bool_decide (as_str ns = DEFAULT).
Definition unresolved : Namespace := mkNs UNRESOLVED_NAMESPACE.
Definition default_ns : Namespace := mkNs DEFAULT.

(** ** Read scopes *)
Inductive NamespaceScope :=
  | Single (ns : Namespace)
  | SList (list : list Namespace)
  | All.
#[global] Instance NamespaceScope_eq_dec : EqDecision NamespaceScope.
Proof. solve_decision. Defined.

Definition default_scope : NamespaceScope := Single default_ns.
Definition list_scope (namespaces : list Namespace) : res NamespaceError NamespaceScope :=
  if bool_decide (namespaces = []) then Err (InvalidName []) else Ok (SList namespaces).
Definition contains (s : NamespaceScope) (ns : Namespace) : bool :=
  match s with
  | All => true
  | Single n => bool_decide (n = ns)
  | SList l => existsb (fun n => bool_decide (n = ns)) l
  end.

(** First occurrences, in order. *)
Fixpoint first_occurrences (seen : gset Namespace) (l : list Namespace) : list Namespace :=
  match l with
  | [] => []
  | ns :: l => if bool_decide (ns ∈ seen) then first_occurrences seen l
               else ns :: first_occurrences ({[ns]} ∪ seen) l
  end.
Definition explicit_namespaces (s : NamespaceScope) : option (list Namespace) :=
  match s with
  | All => None
  | Single ns => Some [ns]
  | SList l => Some (first_occurrences ∅ l)
  end.
Definition same_scope (a b : NamespaceScope) : bool :=
  match explicit_namespaces a, explicit_namespaces b with
  | None, None => true
  | Some x, Some y => bool_decide ((list_to_set x : gset Namespace) = list_to_set y)
  | _, _ => false
  end.
Definition reconcile_namespace_scope (programmatic in_query : option NamespaceScope) : res NamespaceError NamespaceScope :=
  match programmatic, in_query with
  | None, None => Ok default_scope
  | None, Some c => Ok c
  | Some p, None => Ok p
  | Some p, Some c => if same_scope p c then Ok p else Err ScopeConflict
  end.

(** ** Interned namespaces *)
Notation NamespaceId := Z (only parsing).
Record NamespaceInterner := mkNsInterner { forward : gmap bytes Z; reverse : gmap Z bytes; next : Z }.
Definition interner_new : NamespaceInterner := mkNsInterner ∅ ∅ 0.
Definition intern (i : NamespaceInterner) (name : bytes) : NamespaceInterner * NamespaceId :=
  match forward i !! name with
  | Some id => (i, id)
  | None => (mkNsInterner (<[name := next i]> (forward i)) (<[next i := name]> (reverse i)) ((next i + 1) mod 2 ^ 32), next i)
  end.
Definition resolve_id (i : NamespaceInterner) (id : NamespaceId) : option bytes := reverse i !! id.
Definition intern_namespace (i : NamespaceInterner) (ns : Namespace) : NamespaceInterner * NamespaceId := intern i (as_str ns).
Definition unresolved_namespace_id (i : NamespaceInterner) : NamespaceInterner * NamespaceId := intern_namespace i unresolved.
Definition resolve_namespace_id (i : NamespaceInterner) (id : NamespaceId) : option Namespace :=
  s ← resolve_id i id; Some (match new s with Ok n => n | _ => mkNs s end).

Fixpoint intern_all (i : NamespaceInterner) (l : list Namespace) : NamespaceInterner * list NamespaceId :=
  match l with
  | [] => (i, [])
  | ns :: l => let '(i, id) := intern_namespace i ns in
               let '(i, ids) := intern_all i l in (i, id :: ids)
  end.
Definition resolved_ids (i : NamespaceInterner) (s : NamespaceScope) : NamespaceInterner * option (list NamespaceId) :=
  match s with
  | All => (i, None)
  | Single ns => let '(i, id) := intern_namespace i ns in (i, Some [id])
  | SList l => let '(i, ids) := intern_all i l in (i, Some ids)
  end.

Inductive ResolvedScope :=
  | RAll
  | RSingle (id : NamespaceId)
  | RList (ids : list NamespaceId).
Definition resolve (i : NamespaceInterner) (s : NamespaceScope) : NamespaceInterner * ResolvedScope :=
  match s with
  | All => (i, RAll)
  | Single ns => let '(i, id) := intern_namespace i ns in (i, RSingle id)
  | SList [one] => let '(i, id) := intern_namespace i one in (i, RSingle id)
  | SList many => let '(i, ids) := intern_all i many in (i, RList ids)
  end.
Definition is_all (s : ResolvedScope) : bool := match s with RAll => true | _ => false end.
Definition contains_by (s : ResolvedScope) (probe : NamespaceId -> bool) : bool :=
  match s with
  | RAll => true
  | RSingle id => probe id
  | RList ids => existsb probe ids
  end.

(** ** The reserved property *)
Section RideAlong.
Context {St : Type} `{Interner St}.

Definition value_str (v : PropertyValue) : option bytes := match v with PString s => Some s | _ => None end.
Definition namespace_of (st : St) (m : PropMap.PropertyMap) : Namespace :=
  match PropMap.get st m NAMESPACE_KEY ≫= value_str with
  | Some s => match new s with Ok n => n | _ => default_ns end
  | None => default_ns
  end.

(** [entries] is the map in its order of iteration. *)
Fixpoint first_reserved_key (st : St) (entries : list (Z * PropertyValue)) : option bytes :=
  match entries with
  | [] => None
  | (key, _) :: entries =>
      match i_resolve st key with
      | Some name => if is_reserved_property_key name then Some name else first_reserved_key st entries
      | None => first_reserved_key st entries
      end
  end.
Definition reject_reserved_keys (st : St) (entries : list (Z * PropertyValue)) : res NamespaceError unit :=
  match first_reserved_key st entries with
  | Some key => Err (ReservedPropertyKey key)
  | None => Ok tt
  end.
Definition reject_namespace_on_update (namespace : option Namespace) : res NamespaceError unit :=
  match namespace with Some _ => Err Immutable | None => Ok tt end.

(** [insert] is [try_insert().expect()]. *)
Definition expect {S E F A} (m : SM S E A) : SM S F A := fun s =>
  match m s with (s, Ok a) => (s, Ok a) | (s, _) => (s, Panic) end.
Definition stamp_namespace (properties : PropMap.PropertyMap) (ns : Namespace) : SM St Error PropMap.PropertyMap :=
  if is_default ns then mret properties
  else b ← expect (PropMap.try_insert (PropMap.from_map properties) NAMESPACE_KEY (PString (as_str ns)));
       mret (PropMap.build b).
Definition restamp_namespace (new_properties existing : PropMap.PropertyMap) : SM St Error PropMap.PropertyMap := fun st =>
  stamp_namespace new_properties (namespace_of st existing) st.

Fixpoint keep_user_entries (st : St) (entries : list (Z * PropertyValue)) (b : PropMap.PropertyMapBuilder) : res Error PropMap.PropertyMapBuilder :=
  match entries with
  | [] => Ok b
  | (key, value) :: entries =>
      let keep := from_option (fun s => negb (is_reserved_property_key s)) true (i_resolve st key) in
      if keep then match PropMap.try_insert_by_key st b key value with
                   | Ok b => keep_user_entries st entries b
                   | _ => Panic
                   end
      else keep_user_entries st entries b
  end.
Definition user_facing_properties (st : St) (properties : PropMap.PropertyMap) (entries : list (Z * PropertyValue)) : res Error PropMap.PropertyMap :=
  match first_reserved_key st entries with
  | None => Ok properties
  | Some _ => b ← keep_user_entries st entries PropMap.builder_new; Ok (PropMap.build b)
  end.
End RideAlong.
End Ns.

(** ** Names *)
Section NameFacts.
Import Ns.

Lemma new_inv s n : new s = Ok n -> n = mkNs s.
Proof. unfold new. by repeat case_match; intros [= <-]. Qed.
Lemma default_valid : new DEFAULT = Ok default_ns.
Proof. vm_compute. reflexivity. Qed.

Context {St : Type} `{Interner St}.
Implicit Types st : St.
Lemma namespace_of_valid st m : new (as_str (namespace_of st m)) = Ok (namespace_of st m).
Proof.
  unfold namespace_of. destruct (_ ≫= _) as [s|]; [|apply default_valid].
  destruct (new s) as [n| |] eqn:E; [|apply default_valid..]. pose proof (new_inv s n E). by subst.
Qed.
End NameFacts.

(** ** The namespace interner is a bijection *)
Section NsInterner.
Import Ns.
Implicit Types (i : NamespaceInterner) (l : list Namespace).

Record ns_wf i : Prop := {
  nw_next : 0 <= next i;
  nw_range s id : forward i !! s = Some id -> 0 <= id < next i;
  nw_iff s id : forward i !! s = Some id <-> reverse i !! id = Some s }.

(** The id of a known name. *)
Definition id_of i (ns : Namespace) : option Z := forward i !! as_str ns.
Definition grows i i' : Prop := forall s id, forward i !! s = Some id -> forward i' !! s = Some id.

Lemma nw_inj i a b id : ns_wf i -> id_of i a = Some id -> id_of i b = Some id -> a = b.
Proof.
  intros W Ha%(nw_iff i W) Hb%(nw_iff i W). rewrite Ha in Hb. injection Hb as E. destruct a, b. simpl in E. by subst.
Qed.



(** Interning with room left keeps the bijection, keeps what was known, and knows the name. *)
Lemma intern_ok i ns i' id :
  ns_wf i -> next i + 1 < 2 ^ 32 -> intern_namespace i ns = (i', id) ->
  ns_wf i' /\ grows i i' /\ id_of i' ns = Some id /\ next i' <= next i + 1.
Proof.
  intros W Hn. pose proof (nw_next i W) as Hp. unfold intern_namespace, intern, id_of.
  destruct (forward i !! as_str ns) as [d|] eqn:E.
  { intros [= <- <-]. split; [done|]. split; [by intros ?|]. split; [done|lia]. }
  rewrite Z.mod_small by lia. intros [= <- <-]. unfold grows. simpl.
  assert (forall s id, forward i !! s = Some id -> id <> next i) as Hid by (intros s d Hs%(nw_range i W); lia).
  split; [split; simpl; [lia|..]|split; [|split; [by rewrite lookup_insert_eq|lia]]].
  - intros s id [[<- <-]|[Hne Hs]]%lookup_insert_Some; [lia|]. apply (nw_range i W) in Hs. lia.
  - intros s id. rewrite !lookup_insert_Some, (nw_iff i W).
    split; (intros [[<- <-]|[Hne Hs]]; [by left|right; split; [|done]]).
    + intros <-. by apply (Hid s (next i)); [apply (nw_iff i W)|].
    + intros <-. apply (nw_iff i W) in Hs. congruence.
  - intros s id Hs. rewrite lookup_insert_ne; [done|]. intros <-. congruence.
Qed.

Lemma intern_all_ok l : forall i i' ids,
  ns_wf i -> next i + Z.of_nat (length l) < 2 ^ 32 -> intern_all i l = (i', ids) ->
  ns_wf i' /\ grows i i' /\ Forall2 (fun ns id => id_of i' ns = Some id) l ids.
Proof.
  induction l as [|ns l IH]; intros i i' ids W Hn; cbn [intern_all length] in *.
  { intros [= <- <-]. split; [done|]. split; [by intros ?|constructor]. }
  destruct (intern_namespace i ns) as [i1 id] eqn:E1, (intern_all i1 l) as [i2 ids'] eqn:E2. intros [= <- <-].
  destruct (intern_ok i ns i1 id W) as (W1 & G1 & I1 & N1); [lia|done|].
  destruct (IH i1 i2 ids' W1) as (W2 & G2 & F2); [lia|done|].
  split; [done|]. split; [intros s d Hs; by apply G2, G1|]. constructor; [by apply G2|done].
Qed.

Definition scope_size (s : NamespaceScope) : Z :=
  match s with All => 0 | Single _ => 1 | SList l => Z.of_nat (length l) end.

Lemma existsb_ids i l ids ns id :
  ns_wf i -> id_of i ns = Some id -> Forall2 (fun ns id => id_of i ns = Some id) l ids ->
  existsb (Z.eqb id) ids = existsb (fun n => bool_decide (n = ns)) l.
Proof.
  intros W Hns. induction 1 as [|n d l ids Hd Hl IH]; [done|]. simpl. rewrite IH. f_equal.
  apply Bool.eq_iff_eq_true. rewrite Z.eqb_eq, bool_decide_eq_true. split; [intros <-; by eapply nw_inj|intros ->; congruence].
Qed.

Lemma resolve_sound i i' s r ns id :
  ns_wf i -> next i + scope_size s < 2 ^ 32 -> resolve i s = (i', r) -> id_of i' ns = Some id ->
  contains_by r (Z.eqb id) = contains s ns.
Proof.
  intros W Hn Hr Hid.
  assert (forall n, next i + 1 < 2 ^ 32 ->
    (let '(i, d) := intern_namespace i n in (i, RSingle d)) = (i', r) -> contains_by r (Z.eqb id) = bool_decide (n = ns)) as Hone.
  { intros n Hn1. destruct (intern_namespace i n) as [i1 d] eqn:E1. intros [= -> <-].
    destruct (intern_ok i n i' d W) as (W1 & _ & I1 & _); [lia|done|].
    pose proof (existsb_ids i' [n] [d] ns id W1 Hid) as E. simpl in E. rewrite !orb_false_r in E. apply E. by repeat constructor. }
  destruct s as [n|[|n [|m l]]|]; simpl in *; [by apply Hone| | | |by injection Hr as <- <-].
  - by injection Hr as <- <-.
  - rewrite orb_false_r. by apply Hone.
  - destruct (intern_namespace i n) as [i1 d1] eqn:E1, (intern_namespace i1 m) as [i2 d2] eqn:E2, (intern_all i2 l) as [i3 ds] eqn:E3.
    injection Hr as <- <-.
    destruct (intern_all_ok (n :: m :: l) i i3 (d1 :: d2 :: ds) W) as (W3 & _ & F3); [simpl; lia| |].
    { simpl. by rewrite E1, E2, E3. }
    exact (existsb_ids i3 (n :: m :: l) (d1 :: d2 :: ds) ns id W3 Hid F3).
Qed.
End NsInterner.

(** ** Scopes *)
Section Scopes.
Import Ns.
Implicit Types (s : NamespaceScope) (ns : Namespace).

Lemma elem_first_occurrences l : forall seen ns, ns ∈ first_occurrences seen l <-> ns ∈ l /\ ns ∉ seen.
Proof.
  induction l as [|n l IH]; intros seen ns; simpl; [set_solver|].
  case_bool_decide; rewrite ?elem_of_cons, IH; [set_solver|].
  destruct (decide (ns = n)) as [->|]; set_solver.
Qed.
Lemma existsb_elem l ns : existsb (fun n => bool_decide (n = ns)) l = bool_decide (ns ∈ l).
Proof.
  apply Bool.eq_iff_eq_true. rewrite existsb_exists, bool_decide_eq_true. split.
  - intros (n & Hn%list_elem_of_In & ->%bool_decide_eq_true). done.
  - intros Hn. exists ns. split; [by apply list_elem_of_In|by apply bool_decide_eq_true].
Qed.
Lemma explicit_spec s :
  match explicit_namespaces s with
  | None => s = All
  | Some l => s <> All /\ NoDup l /\ forall ns, ns ∈ l <-> contains s ns = true
  end.
Proof.
  destruct s as [n|l|]; simpl; [| |done]; (split; [done|]).
  - split; [apply NoDup_singleton|]. intros ns. rewrite list_elem_of_singleton, bool_decide_eq_true. split; congruence.
  - split.
    + generalize (∅ : gset Namespace). induction l as [|n l IH]; intros seen; simpl; [constructor|].
      case_bool_decide; [done|]. constructor; [|done]. rewrite elem_first_occurrences. set_solver.
    + intros ns. rewrite elem_first_occurrences, existsb_elem, bool_decide_eq_true. set_solver.
Qed.

Lemma same_scope_spec a b :
  same_scope a b = true <-> (a = All <-> b = All) /\ forall ns, contains a ns = contains b ns.
Proof.
  unfold same_scope. pose proof (explicit_spec a) as Ha. pose proof (explicit_spec b) as Hb.
  destruct (explicit_namespaces a) as [x|], (explicit_namespaces b) as [y|]; [|naive_solver..].
  destruct Ha as (Na & _ & Ea), Hb as (Nb & _ & Eb). rewrite bool_decide_eq_true. split.
  - intros E. split; [naive_solver|]. intros ns. apply Bool.eq_iff_eq_true. rewrite <- Ea, <- Eb, <- !(elem_of_list_to_set (C:=gset Namespace)). by rewrite E.
  - intros [_ E]. apply set_eq. intros ns. by rewrite !elem_of_list_to_set, Ea, Eb, E.
Qed.

(** A scope resolved to interned ids and probed with the id of a namespace decides
    exactly membership of the namespace; a request that names its scope twice is
    accepted exactly when both admit the same namespaces, and then reads with it. *)
Theorem scope_resolution i i' s r ns id :
  ns_wf i -> next i + scope_size s < 2 ^ 32 -> resolve i s = (i', r) -> id_of i' ns = Some id ->
  contains_by r (Z.eqb id) = contains s ns /\
  forall p q, reconcile_namespace_scope (Some p) (Some q) = Ok s <->
              s = p /\ (p = All <-> q = All) /\ forall n, contains p n = contains q n.
Proof.
  intros W Hn Hr Hid. split; [by eapply resolve_sound|]. intros p q. simpl. rewrite <- (same_scope_spec p q).
  destruct (same_scope p q); naive_solver.
Qed.
End Scopes.

(** ** The namespace of an entity never changes *)
Section Stamping.
Import Ns.
Context {St : Type} `{Interner St}.
Implicit Types (st : St) (m : PropMap.PropertyMap).

Lemma reject_not_carried st m entries :
  i_wf st -> entries ≡ₚ map_to_list (PropMap.inner m) -> reject_reserved_keys st entries = Ok tt ->
  PropMap.get st m NAMESPACE_KEY = None.
Proof.
  intros W Hp Hr. unfold PropMap.get, PropMap.get_by_interned_key.
  destruct (i_get_id st NAMESPACE_KEY) as [k|] eqn:Ek; [simpl|done].
  destruct (PropMap.inner m !! k) as [v|] eqn:Ev; [exfalso|done].
  apply (i_get_id_iff st _ _ W) in Ek.
  assert ((k, v) ∈ entries) as Hin by (rewrite Hp; by apply elem_of_map_to_list).
  unfold reject_reserved_keys in Hr. destruct (first_reserved_key st entries) as [s|] eqn:E; [done|]. clear Hr Hp.
  induction entries as [|[k' v'] entries IH]; [by apply not_elem_of_nil in Hin|]. simpl in E.
  apply elem_of_cons in Hin as [[= <- <-]|Hin].
  - rewrite Ek in E. replace (is_reserved_property_key NAMESPACE_KEY) with true in E by (vm_compute; reflexivity). done.
  - apply IH; [|done]. by destruct (i_resolve st k') as [x|]; [destruct (is_reserved_property_key x)|].
Qed.

Lemma insert_sized_map b k n v sz b' :
  PropMap.insert_sized b k n v sz = Ok b' -> PropMap.map b' = <[k := v]> (PropMap.map b).
Proof.
  unfold PropMap.insert_sized. destruct (PropMap.map b !! k) as [o|]; [|by intros [= <-]].
  destruct (Property.serialized_size o); simpl; try done. by intros [= <-].
Qed.

End Stamping.

Module NamespaceWitness.
Import Ns.

Definition alpha : Namespace := mkNs (of_literal "alpha").
Definition beta : Namespace := mkNs (of_literal "team/beta").
Definition scope2 : NamespaceScope := SList [alpha; beta; alpha].
Lemma scope_resolution_witness :
  contains_by (resolve interner_new scope2).2 (Z.eqb 1) = contains scope2 beta /\
  reconcile_namespace_scope (Some scope2) (Some (SList [beta; alpha])) = Ok scope2.
Proof.
  destruct (scope_resolution interner_new (resolve interner_new scope2).1 scope2 (resolve interner_new scope2).2 beta 1) as [E _];
    [|done|done|done|split; [exact E|vm_compute; reflexivity]].
  split; simpl; [lia|..]; intros s id; rewrite ?lookup_empty; done.
Defined.

Definition st0 : Interning.StringInterner := Interning.with_max_capacity 10.
Definition age : PropMap.PropertyMap := PropMap.mkMap {[ 7 := PInt 3 ]} 20.
Definition stamped := stamp_namespace PropMap.new alpha st0.
End NamespaceWitness.
