(* ===== verification/Delta.v ===== *)
(** * Property deltas: [src/core/version.rs]

    The compressed form of a version: which properties changed, which vectors
    changed in a few positions, which properties were removed; how a delta is
    computed and applied, with the [f32] tolerance of the vector comparison. *)

From Stdlib Require Import SpecFloat.
From S2P Require Import Prelude.
From S2P Require Import Bytes.
From S2P Require Import Errors.
From S2P Require Import Interning.
From S2P Require Import Vectors.
From S2P Require Import Property.
From S2P Require Import PropMap.

(** ** The arithmetic on [f32] the comparison needs *)
Module F32.
Import Float.

(** The number a bit pattern denotes. *)
Definition decode (x : Z) : spec_float :=
  let sign := Z.testbit x 31 in
  let e := exponent 23 8 x in
  let m := mantissa 23 x in
  if e =? 255 then (if m =? 0 then S754_infinity sign else S754_nan)
  else if e =? 0 then
    match m with Zpos m => S754_finite sign m (-149) | _ => S754_zero sign end
  else match m + 2 ^ 23 with Zpos m => S754_finite sign m (e - 150) | _ => S754_zero sign end.

(** [(a - b).abs() <= bound] *)
Definition abs_sub_le (a b bound : Z) : bool :=
  SFleb (SFabs (SFsub 24 128 (decode a) (decode b))) (decode bound).
End F32.

Module Delta.
Import Float F32 PropMap.

(** [1e-7f32] *)
Definition VECTOR_EPSILON : Z := 869711765.

Definition floats_approx_equal (a b : Z) : bool :=
  if f32_is_nan a then f32_is_nan b
  else if f32_is_nan b then false
  else if f32_is_infinite a || f32_is_infinite b then f32_eq a b
  else abs_sub_le a b VECTOR_EPSILON.

Inductive VectorDelta :=
  | VSparse (dimension : Z) (changes : list (Z * Z))
  | VFull (vec : list Z).

(** The loop over the positions; [u32::try_from(idx).ok()?] leaves the function. *)
Fixpoint diff_positions (idx : Z) (old new : list Z) : option (list (Z * Z)) :=
  match old, new with
  | old_val :: old, new_val :: new =>
      if negb (floats_approx_equal old_val new_val)
      then idx_u32 ← checked 0 u32_max idx;
           changes ← diff_positions (idx + 1) old new; Some ((idx_u32, new_val) :: changes)
      else diff_positions (idx + 1) old new
  | _, _ => Some []
  end.

(** [VectorDelta::from_diff] *)
Definition vector_diff (old new : list Z) : option VectorDelta :=
  if negb (blen old =? blen new) then None
  else if Sparse.MAX_VECTOR_DIMENSIONS <? blen old then None
  else
    changes ← diff_positions 0 old new;
    match changes with
    | [] => None
    | _ =>
        let dimension := blen old in
        if blen changes * 2 <? dimension
        then Some (VSparse dimension changes) else Some (VFull new)
    end.

(** [VectorDelta::apply]; the writes outside the vector are skipped. *)
Definition vector_apply (d : VectorDelta) (base : list Z) : list Z :=
  match d with
  | VSparse dimension changes =>
      if negb (blen base =? dimension) then base
      else foldl (fun result '(idx, value) =>
                    if idx <? blen result then <[Z.to_nat idx := value]> result else result)
             base changes
  | VFull new_vec => new_vec
  end.

Record PropertyDelta := mkDelta {
  changed : gmap Z PropertyValue;
  vector_deltas : gmap Z VectorDelta;
  removed : gset Z }.

Definition new : PropertyDelta := mkDelta ∅ ∅ ∅.
Definition is_empty (d : PropertyDelta) : bool :=
  bool_decide (changed d = ∅) && bool_decide (dom (vector_deltas d) = ∅) && bool_decide (removed d = ∅).

Definition as_vector (v : PropertyValue) : option (list Z) :=
  match v with PVector v => Some v | _ => None end.

Section Ops.
Context {St : Type} `{Interner St}.
(** [Arc::ptr_eq] on values and on the maps' contents *)
Variable ptr_eq : PropertyValue -> PropertyValue -> bool.
Variable map_ptr_eq : PropertyMap -> PropertyMap -> bool.

(** [impl PartialEq for PropertyMap] *)
Definition map_eq (a b : PropertyMap) : bool :=
  if map_ptr_eq a b then true
  else if negb (cached_size a =? cached_size b) then false
  else bool_decide (size (inner a) = size (inner b)) &&
       forallb (fun kv => match inner b !! kv.1 with
                          | Some w => default false (Property.partial_eq ptr_eq kv.2 w)
                          | None => false
                          end) (map_to_list (inner a)).

(** The body of the loop over [new.iter()]. *)
Definition diff_step (old : PropertyMap) (key : Z) (new_value : PropertyValue) (delta : PropertyDelta) :
    PropertyDelta :=
  let change := mkDelta (<[key := new_value]> (changed delta)) (vector_deltas delta) (removed delta) in
  match get_by_interned_key old key with
  | Some old_value =>
      if default false (Property.semantically_equal ptr_eq old_value new_value) then delta
      else
        match as_vector old_value, as_vector new_value with
        | Some old_vec, Some new_vec =>
            match vector_diff old_vec new_vec with
            | Some vec_delta =>
                mkDelta (changed delta) (<[key := vec_delta]> (vector_deltas delta)) (removed delta)
            | None => if negb (blen old_vec =? blen new_vec) then change else delta
            end
        | _, _ => change
        end
  | None => change
  end.

(** [PropertyDelta::from_diff]; a [HashMap] is walked in an order of its own. *)
Definition from_diff (old new_ : PropertyMap) : PropertyDelta :=
  if map_eq old new_ then new
  else
    let delta := map_fold (diff_step old) new (inner new_) in
    map_fold (fun key _ delta =>
                if negb (contains_interned_key new_ key)
                then mkDelta (changed delta) (vector_deltas delta) ({[key]} ∪ removed delta)
                else delta) delta (inner old).

Definition apply_base (d : PropertyDelta) (base : PropertyMap) : gmap Z PropertyValue :=
  map_fold (fun key value result =>
              if negb (bool_decide (key ∈ removed d)) && negb (bool_decide (is_Some (changed d !! key)))
              then <[key := value]> result else result) ∅ (inner base).

Definition apply_vector (base : PropertyMap) (key : Z) (vec_delta : VectorDelta)
    (result : gmap Z PropertyValue) : gmap Z PropertyValue :=
  match vec_delta with
  | VFull vec => <[key := PVector vec]> result
  | VSparse _ _ =>
      match get_by_interned_key base key ≫= as_vector with
      | Some base_vec => <[key := PVector (vector_apply vec_delta base_vec)]> result
      | None => result
      end
  end.

(** [PropertyDelta::apply] *)
Definition apply (st : St) (d : PropertyDelta) (base : PropertyMap) : PropertyMap :=
  if is_empty d then base
  else
    let result := apply_base d base in
    let result := map_fold (fun key value result => <[key := value]> result) result (changed d) in
    let result := map_fold (apply_vector base) result (vector_deltas d) in
    from_iter st (map_to_list result).

(** [PropertyDelta::materialize_vector_deltas]: the keys in the map's order; an
    error leaves the keys handled before it (and the failing one) removed. *)
Fixpoint materialize_keys (keys : list Z) (d : PropertyDelta) (base : PropertyMap) :
    PropertyDelta * bool :=
  match keys with
  | [] => (d, true)
  | key :: keys =>
      match vector_deltas d !! key with
      | None => materialize_keys keys d base
      | Some vec_delta =>
          let d := mkDelta (changed d) (delete key (vector_deltas d)) (removed d) in
          let set v := mkDelta (<[key := PVector v]> (changed d)) (vector_deltas d) (removed d) in
          match vec_delta with
          | VFull vec => materialize_keys keys (set vec) base
          | VSparse _ _ =>
              match get_by_interned_key base key ≫= as_vector with
              | Some base_vec => materialize_keys keys (set (vector_apply vec_delta base_vec)) base
              | None => (d, false)
              end
          end
      end
  end.
Definition materialize_vector_deltas (d : PropertyDelta) (base : PropertyMap) : PropertyDelta * bool :=
  materialize_keys (map_to_list (vector_deltas d)).*1 d base.
End Ops.

Inductive VersionData :=
  | Anchor (properties : PropertyMap) (vector_snapshot_id : option Z)
  | DeltaData (delta : PropertyDelta).

Definition anchor (properties : PropertyMap) : VersionData := Anchor properties None.
Definition is_anchor (d : VersionData) : bool :=
  match d with Anchor _ _ => true | DeltaData _ => false end.
Definition is_delta (d : VersionData) : bool := negb (is_anchor d).
Definition set_vector_snapshot_id (d : VersionData) (id : Z) : VersionData :=
  match d with Anchor p _ => Anchor p (Some id) | _ => d end.
Definition get_vector_snapshot_id (d : VersionData) : option Z :=
  match d with Anchor _ s => s | _ => None end.
End Delta.

(** ** Vectors up to the tolerance *)
Section VectorFacts.
Import Float F32 Delta.

Lemma decode_finite x :
  f32_is_nan x = false -> f32_is_infinite x = false ->
  match decode x with S754_zero _ | S754_finite _ _ _ => True | _ => False end.
Proof.
  with_strategy transparent [is_nan is_infinite] (unfold is_nan, is_infinite, decode).
  change (Z.ones 8) with 255. generalize (exponent 23 8 x) (mantissa 23 x) (Z.testbit x 31).
  intros e m s. destruct (e =? 255); cbn [andb negb]; [by destruct (m =? 0)|].
  intros _ _. destruct (e =? 0); [by destruct m|]. by destruct (m + 2 ^ 23).
Qed.

(** The tolerant comparison accepts every float as equal to itself, NaN and
    infinities included. *)
Lemma floats_approx_refl a : floats_approx_equal a a = true.
Proof.
  unfold floats_approx_equal. destruct (f32_is_nan a) eqn:En; [done|].
  rewrite orb_diag. destruct (f32_is_infinite a) eqn:Ei; [by rewrite feq_refl_iff, En|].
  unfold abs_sub_le. pose proof (decode_finite a En Ei) as Hd.
  destruct (decode a) as [s|s| |s m e]; try done; [by destruct s|].
  unfold SFsub. rewrite Z.min_id, Z.sub_diag. done.
Qed.

Definition approx (a b : Z) : Prop := floats_approx_equal a b = true.

Lemma approx_refl_list v : Forall2 approx v v.
Proof. induction v; constructor; [apply floats_approx_refl|done]. Qed.

(** What the recorded positions are. *)
Fixpoint patched (old new : list Z) : list Z :=
  match old, new with
  | o :: old, n :: new => (if floats_approx_equal o n then o else n) :: patched old new
  | _, _ => []
  end.

Lemma patched_approx old new : length old = length new -> Forall2 approx (patched old new) new.
Proof.
  revert new. induction old as [|o old IH]; intros [|n new] E; simpl in *; try done; constructor; [|by apply IH; lia].
  destruct (floats_approx_equal o n) eqn:Ea; [done|apply floats_approx_refl].
Qed.

Definition write_change (result : list Z) (c : Z * Z) : list Z :=
  let '(idx, value) := c in if idx <? blen result then <[Z.to_nat idx := value]> result else result.

Lemma diff_positions_some idx old new :
  0 <= idx -> idx + blen old <= u32_max -> length old = length new ->
  exists cs, diff_positions idx old new = Some cs /\
    (cs = [] -> patched old new = old) /\
    forall pre, blen pre = idx -> foldl write_change (pre ++ old) cs = pre ++ patched old new.
Proof.
  revert idx new. induction old as [|o old IH]; intros idx [|n new] Hi Hb E; try done.
  { exists []. split_and!; try done. }
  rewrite blen_cons in Hb. pose proof (blen_nonneg old). simpl in E.
  destruct (IH (idx + 1) new) as (cs & Hd & Hn & Hf); [lia..|]. simpl.
  destruct (floats_approx_equal o n) eqn:Ea; simpl.
  - exists cs. split_and!; [done|intros Hc; by rewrite (Hn Hc)|].
    intros pre Hp. specialize (Hf (pre ++ [o])). rewrite <-!app_assoc in Hf. apply Hf.
    rewrite blen_app. change (blen [o]) with 1. lia.
  - rewrite checked_in by mlia. rewrite Hd. simpl. exists ((idx, n) :: cs). split_and!; [done|done|].
    intros pre Hp. cbn [foldl write_change]. rewrite blen_app, blen_cons.
    rewrite (proj2 (Z.ltb_lt _ _)) by lia. unfold blen in Hp. subst idx. rewrite Nat2Z.id.
    rewrite insert_app_r_alt, Nat.sub_diag by done. simpl.
    specialize (Hf (pre ++ [n])). rewrite <-!app_assoc in Hf. apply Hf.
    rewrite blen_app. change (blen [n]) with 1. unfold blen. lia.
Qed.

(** A recorded vector delta brings the old vector within the tolerance of the new
    one in every position; an unrecorded one means it already was. *)
Lemma vector_diff_spec old new :
  length old = length new -> blen old <= Sparse.MAX_VECTOR_DIMENSIONS ->
  match vector_diff old new with
  | Some d => Forall2 approx (vector_apply d old) new
  | None => Forall2 approx old new
  end.
Proof.
  intros E Hm. unfold vector_diff.
  assert (blen old = blen new) as Eb by (unfold blen; lia).
  rewrite <-Eb, Z.eqb_refl. rewrite (proj2 (Z.ltb_ge _ _)) by done. simpl.
  destruct (diff_positions_some 0 old new) as (cs & -> & Hn & Hf); [done|unfold Sparse.MAX_VECTOR_DIMENSIONS in Hm; mlia|done|]. simpl.
  specialize (Hf [] eq_refl). simpl in Hf.
  destruct cs as [|c cs]; [rewrite <-(Hn eq_refl) at 1; by apply patched_approx|].
  case_goal; [|apply approx_refl_list]. unfold vector_apply. rewrite Z.eqb_refl. simpl negb. cbv iota.
  change (Forall2 approx (foldl write_change old (c :: cs)) new). rewrite Hf. by apply patched_approx.
Qed.
End VectorFacts.

(** ** Lookup in an applied delta *)
Section ApplyFacts.
Import PropMap Delta.
Context {St : Type} `{Interner St}.

Lemma foldl_insert (a : gmap Z PropertyValue) l :
  NoDup l.*1 -> foldl (fun m p => <[p.1 := p.2]> m) a l = list_to_map l ∪ a.
Proof.
  revert a. induction l as [|[k v] l IH]; intros a Hl; simpl; [by rewrite (left_id_L ∅ (∪))|].
  apply NoDup_cons in Hl as [Hk Hl]. rewrite IH by done.
  by rewrite <-insert_union_r, insert_union_l by by apply not_elem_of_list_to_map_1.
Qed.

Lemma from_iter_inner (st : St) (m : gmap Z PropertyValue) :
  inner (from_iter st (map_to_list m)) = m.
Proof.
  unfold from_iter.
  assert (forall l a n, inner (from_iter_loop st a n l) = foldl (fun m p => <[p.1 := p.2]> m) a l) as ->.
  { induction l as [|[k v] l IH]; intros a n; simpl; [done|]. apply IH. }
  rewrite foldl_insert by apply NoDup_fst_map_to_list.
  by rewrite list_to_map_to_list, (right_id_L ∅ (∪)).
Qed.

Definition untouched (d : PropertyDelta) (base : PropertyMap) (k : Z) : option PropertyValue :=
  match changed d !! k with
  | Some v => Some v
  | None => if decide (k ∈ removed d) then None else inner base !! k
  end.
Definition merged (d : PropertyDelta) (base : PropertyMap) (k : Z) : option PropertyValue :=
  match vector_deltas d !! k with
  | Some (VFull v) => Some (PVector v)
  | Some (VSparse n cs) =>
      match inner base !! k ≫= as_vector with
      | Some bv => Some (PVector (vector_apply (VSparse n cs) bv))
      | None => untouched d base k
      end
  | None => untouched d base k
  end.

Lemma apply_base_lookup d base k :
  apply_base d base !! k =
    if decide (k ∈ removed d) then None
    else match changed d !! k with Some _ => None | None => inner base !! k end.
Proof.
  unfold apply_base. apply (map_fold_weak_ind (fun (r : gmap Z PropertyValue) m =>
    r !! k = if decide (k ∈ removed d) then None
             else match changed d !! k with Some _ => None | None => m !! k end)).
  { rewrite !lookup_empty. repeat case_match; done. }
  intros j x m r Hj IH. destruct (decide (k = j)) as [->|Hne].
  - rewrite lookup_insert_eq. rewrite Hj in IH. revert IH.
    destruct (decide (j ∈ removed d)); [by rewrite bool_decide_true|].
    rewrite bool_decide_false by done. simpl. destruct (changed d !! j).
    + by rewrite bool_decide_true by done.
    + rewrite bool_decide_false by (intros []; done). simpl. by rewrite lookup_insert_eq.
  - rewrite (lookup_insert_ne m) by done. destruct (negb _ && negb _); [|done]. by rewrite lookup_insert_ne.
Qed.

Lemma insert_all_lookup (m r : gmap Z PropertyValue) k :
  map_fold (fun key value result => <[key := value]> result) r m !! k =
    match m !! k with Some v => Some v | None => r !! k end.
Proof.
  apply (map_fold_weak_ind (fun (x : gmap Z PropertyValue) m =>
    x !! k = match m !! k with Some v => Some v | None => r !! k end)); [by rewrite lookup_empty|].
  intros j x a b Hj IH. destruct (decide (k = j)) as [->|Hne]; [by rewrite !lookup_insert_eq|].
  by rewrite !lookup_insert_ne.
Qed.

Lemma apply_vectors_lookup base (vs : gmap Z VectorDelta) r k :
  map_fold (apply_vector base) r vs !! k =
    match vs !! k with
    | Some (VFull v) => Some (PVector v)
    | Some (VSparse n cs) =>
        match inner base !! k ≫= as_vector with
        | Some bv => Some (PVector (vector_apply (VSparse n cs) bv))
        | None => r !! k
        end
    | None => r !! k
    end.
Proof.
  apply (map_fold_weak_ind (fun (x : gmap Z PropertyValue) vs =>
    x !! k = match vs !! k with
    | Some (VFull v) => Some (PVector v)
    | Some (VSparse n cs) =>
        match inner base !! k ≫= as_vector with
        | Some bv => Some (PVector (vector_apply (VSparse n cs) bv))
        | None => r !! k
        end
    | None => r !! k
    end)); [by rewrite lookup_empty|].
  intros j x a b Hj IH. unfold apply_vector, get_by_interned_key.
  destruct (decide (k = j)) as [->|Hne].
  - rewrite lookup_insert_eq. rewrite Hj in IH.
    destruct x as [n cs|v]; [|by rewrite lookup_insert_eq].
    destruct (inner base !! j ≫= as_vector); [by rewrite lookup_insert_eq|done].
  - rewrite lookup_insert_ne by done. rewrite <-IH.
    destruct x; repeat case_match; try done; by rewrite lookup_insert_ne.
Qed.

Lemma apply_lookup (st : St) d base k : inner (apply st d base) !! k = merged d base k.
Proof.
  unfold apply. destruct (is_empty d) eqn:E.
  - unfold is_empty in E. rewrite !andb_true_iff, !bool_decide_eq_true in E.
    destruct E as [[Ec Ev%dom_empty_inv_L] Er]. unfold merged, untouched.
    by rewrite Ec, Ev, Er, !lookup_empty.
  - rewrite from_iter_inner, apply_vectors_lookup, insert_all_lookup, apply_base_lookup.
    unfold merged, untouched. repeat case_match; done.
Qed.
End ApplyFacts.

(** ** What a computed delta records *)
Section DiffFacts.
Import PropMap Delta.
Variable ptr_eq : PropertyValue -> PropertyValue -> bool.
Variable map_ptr_eq : PropertyMap -> PropertyMap -> bool.
Hypothesis ptr_eq_sound : forall a b, ptr_eq a b = true -> a = b.
Hypothesis map_ptr_eq_sound : forall a b, map_ptr_eq a b = true -> inner a = inner b.

Definition values_wf (m : PropertyMap) : Prop := map_Forall (fun _ v => value_wf v) (inner m).

(** One property: nothing, the whole new value, or a vector delta. *)
Definition change_of (ov : option PropertyValue) (nv : PropertyValue) : option (PropertyValue + VectorDelta) :=
  match ov with
  | None => Some (inl nv)
  | Some ov =>
      if value_same ov nv then None
      else match as_vector ov, as_vector nv with
           | Some o, Some n =>
               match vector_diff o n with
               | Some d => Some (inr d)
               | None => if blen o =? blen n then None else Some (inl nv)
               end
           | _, _ => Some (inl nv)
           end
  end.
Definition recorded (d : PropertyDelta) (k : Z) : option (PropertyValue + VectorDelta) :=
  match vector_deltas d !! k with Some vd => Some (inr vd) | None => inl <$> changed d !! k end.

Lemma semantically_same a b :
  value_wf a -> default false (Property.semantically_equal ptr_eq a b) = value_same a b.
Proof.
  intros Ha. unfold Property.semantically_equal.
  by rewrite (run_eq_spec value_wf _ value_same) by (done || by apply semantic_round).
Qed.

Lemma diff_step_spec old k nv d j :
  values_wf old -> recorded d k = None ->
  removed (diff_step ptr_eq old k nv d) = removed d /\
  recorded (diff_step ptr_eq old k nv d) j =
    if decide (j = k) then change_of (inner old !! k) nv else recorded d j.
Proof.
  intros Hw Hn. unfold diff_step, change_of, get_by_interned_key.
  assert (vector_deltas d !! k = None) as Hv by (unfold recorded in Hn; by case_match).
  assert (forall x, recorded (mkDelta (<[k := x]> (changed d)) (vector_deltas d) (removed d)) j =
            if decide (j = k) then Some (inl x) else recorded d j) as Hc.
  { intros x. unfold recorded. simpl. case_decide as E; [subst; by rewrite Hv, lookup_insert_eq|].
    by rewrite lookup_insert_ne. }
  assert (recorded d j = if decide (j = k) then None else recorded d j) as Hs
    by (case_decide; by subst).
  destruct (inner old !! k) as [ov|] eqn:Eo; [|split; [done|apply Hc]].
  rewrite semantically_same by by apply (Hw k). destruct (value_same ov nv); [done|].
  destruct (as_vector ov) as [o|]; [|split; [done|apply Hc]].
  destruct (as_vector nv) as [n|]; [|split; [done|apply Hc]].
  destruct (vector_diff o n) as [vd|].
  - split; [done|]. unfold recorded. simpl. case_decide; [subst; by rewrite lookup_insert_eq|].
    by rewrite lookup_insert_ne.
  - destruct (blen o =? blen n); simpl; [done|]. split; [done|apply Hc].
Qed.

Lemma diff_fold_spec old (m : gmap Z PropertyValue) :
  values_wf old ->
  let d := map_fold (diff_step ptr_eq old) new m in
  removed d = ∅ /\ forall k, recorded d k = m !! k ≫= change_of (inner old !! k).
Proof.
  intros Hw. apply (map_fold_weak_ind (fun d m =>
    removed d = ∅ /\ forall k, recorded d k = m !! k ≫= change_of (inner old !! k))).
  { split; [done|]. intros k. by rewrite lookup_empty. }
  intros i x m' d Hi [Hr Hk]. pose proof (Hk i) as Hki. rewrite Hi in Hki.
  split; [by destruct (diff_step_spec old i x d i Hw Hki) as [-> _]|]. intros k.
  destruct (diff_step_spec old i x d k Hw Hki) as [_ ->].
  case_decide; [subst; by rewrite lookup_insert_eq|]. by rewrite lookup_insert_ne.
Qed.

Lemma from_diff_spec old new_ :
  values_wf old -> map_eq ptr_eq map_ptr_eq old new_ = false ->
  let d := from_diff ptr_eq map_ptr_eq old new_ in
  (forall k, recorded d k = inner new_ !! k ≫= change_of (inner old !! k)) /\
  (forall k, k ∈ removed d <-> is_Some (inner old !! k) /\ inner new_ !! k = None).
Proof.
  intros Hw E. unfold from_diff. rewrite E.
  destruct (diff_fold_spec old (inner new_) Hw) as [Hr Hk].
  set (d0 := map_fold (diff_step ptr_eq old) new (inner new_)) in *.
  apply (map_fold_weak_ind (fun d m => (forall k, recorded d k = inner new_ !! k ≫= change_of (inner old !! k)) /\
    (forall k, k ∈ removed d <-> is_Some (m !! k) /\ inner new_ !! k = None))).
  { split; [done|]. intros k. rewrite Hr, lookup_empty. split; [by intros ?%not_elem_of_empty|].
    by intros [[] _]. }
  intros i x m d Hi [H1 H2]. unfold contains_interned_key.
  destruct (inner new_ !! i) as [w|] eqn:Ew.
  - rewrite bool_decide_true by done. simpl. split; [done|]. intros k. rewrite H2.
    destruct (decide (k = i)) as [->|]; [|by rewrite lookup_insert_ne].
    rewrite Ew. naive_solver.
  - rewrite bool_decide_false by (intros []; done). simpl. split; [done|]. intros k.
    rewrite elem_of_union, elem_of_singleton, H2.
    destruct (decide (k = i)) as [->|]; [rewrite lookup_insert_eq; naive_solver|].
    rewrite lookup_insert_ne by done. naive_solver.
Qed.
End DiffFacts.

Section DeltaRoundTrip.
Import Float PropMap Delta.
Variable ptr_eq : PropertyValue -> PropertyValue -> bool.
Variable map_ptr_eq : PropertyMap -> PropertyMap -> bool.
Hypothesis ptr_eq_sound : forall a b, ptr_eq a b = true -> a = b.
Hypothesis map_ptr_eq_sound : forall a b, map_ptr_eq a b = true -> inner a = inner b.

(** Equal up to NaN and the sign of zero, or vectors within the tolerance. *)
Definition value_close (a b : PropertyValue) : Prop :=
  value_same a b = true \/ exists v w, a = PVector v /\ b = PVector w /\ Forall2 approx v w.
Definition slot_close (a b : option PropertyValue) : Prop :=
  match a, b with Some a, Some b => value_close a b | None, None => True | _, _ => False end.

Lemma feq_same mw ew a b : feq mw ew a b = true -> same mw ew a b = true.
Proof. unfold same, feq. destruct (is_nan mw ew a), (is_nan mw ew b); done. Qed.

Lemma zip_mono (f g : Z -> Z -> bool) v w :
  (forall a b, f a b = true -> g a b = true) ->
  forallb (fun '(x, y) => f x y) (zip v w) = true -> forallb (fun '(x, y) => g x y) (zip v w) = true.
Proof.
  intros Hfg. revert w. induction v as [|a v IH]; intros [|b w]; simpl; try done.
  intros [? ?]%andb_true_iff. apply andb_true_iff. auto.
Qed.

Lemma value_eq_same a b : value_wf a -> value_eq ptr_eq a b = true -> value_same a b = true.
Proof.
  revert b. induction a as [|x|x|x|x|x|l IH|x|x] using property_ind; intros b Hw;
    destruct b as [|y|y|y|y|y|l'|y|y]; try done.
  - apply feq_same.
  - simpl. intros [E|E]%orb_true_iff; [apply ptr_eq_sound in E as [= ->]; by apply bool_decide_true|done].
  - simpl. intros [E|E]%orb_true_iff; [apply ptr_eq_sound in E as [= ->]; by apply bool_decide_true|done].
  - rewrite value_eq_array, orb_true_iff. intros [E|E].
    { apply ptr_eq_sound in E as <-. by apply value_same_refl. }
    rewrite value_same_array. apply value_wf_array in Hw as [_ Hw]. revert l' E.
    induction IH as [|v l Hv _ IHl]; intros [|w l']; simpl; try done.
    apply Forall_cons in Hw as [? ?]. intros [? ?]%andb_true_iff. apply andb_true_iff. auto.
  - intros E. simpl in E. apply orb_true_iff in E as [E|E].
    { apply ptr_eq_sound in E as <-. by apply value_same_refl. }
    simpl. unfold Property.slice_eq in E. apply andb_true_iff in E as [? E]. apply andb_true_iff.
    split; [done|]. eapply zip_mono; [|exact E]. intros. by apply feq_same.
  - simpl. intros [E|E]%orb_true_iff; [|done]. apply ptr_eq_sound in E as [= <-].
    apply (value_same_refl (PSparse x)); done.
Qed.

Lemma value_close_refl a : value_wf a -> value_close a a.
Proof. left. by apply value_same_refl. Qed.

(** Equal maps agree everywhere. *)
Lemma map_eq_close old new_ k :
  values_wf old -> map_eq ptr_eq map_ptr_eq old new_ = true ->
  slot_close (inner old !! k) (inner new_ !! k).
Proof.
  intros Hw. unfold map_eq. destruct (map_ptr_eq old new_) eqn:Ep.
  { intros _. rewrite <-(map_ptr_eq_sound _ _ Ep). destruct (inner old !! k) eqn:E; [|done].
    apply value_close_refl. by apply (Hw k). }
  case_goal; [done|]. rewrite andb_true_iff, bool_decide_eq_true, forallb_forall. intros [Hs Hf].
  assert (forall j v, inner old !! j = Some v -> exists w, inner new_ !! j = Some w /\ value_same v w = true) as Hl.
  { intros j v Hj. specialize (Hf (j, v)). simpl in Hf.
    assert (In (j, v) (map_to_list (inner old))) as Hin by by apply list_elem_of_In, elem_of_map_to_list.
    apply Hf in Hin. destruct (inner new_ !! j) as [w|]; [|done]. exists w. split; [done|].
    rewrite partial_eq_spec in Hin. apply value_eq_same; [by apply (Hw j)|done]. }
  unfold slot_close. destruct (inner old !! k) as [v|] eqn:Eo.
  { destruct (Hl k v Eo) as (w & -> & ?). by left. }
  destruct (inner new_ !! k) as [w|] eqn:En; [|done]. exfalso.
  assert (dom (inner old) = dom (inner new_)) as Hd.
  { apply (set_subseteq_size_eq (dom (inner old)) (dom (inner new_))).
    - intros j [v Hv]%elem_of_dom. destruct (Hl j v Hv) as (x & Hx & _). by eapply elem_of_dom_2.
    - rewrite !size_dom. lia. }
  apply elem_of_dom_2 in En. rewrite <-Hd in En. apply elem_of_dom in En as [? ?]. congruence.
Qed.

Lemma change_close (old : PropertyMap) d k nv :
  values_wf old -> value_wf nv -> recorded d k = change_of (inner old !! k) nv -> k ∉ removed d ->
  slot_close (merged d old k) (Some nv).
Proof.
  intros Hw Hn Hr Hk. unfold merged, untouched. unfold recorded in Hr.
  destruct (vector_deltas d !! k) as [vd|] eqn:Ev.
  - destruct (inner old !! k) as [ov|] eqn:Eo; [|done]. simpl in Hr.
    destruct (value_same ov nv); [done|].
    destruct (as_vector ov) as [o|] eqn:Eov; [|done]. destruct (as_vector nv) as [n|] eqn:Env; [|done].
    destruct ov as [| | | | | | |o'|]; try done. injection Eov as ->.
    destruct nv as [| | | | | | |n'|]; try done. injection Env as ->.
    pose proof (Hw k _ Eo) as [_ Hlen]. simpl in *.
    destruct (vector_diff o n) as [vd'|] eqn:Ed; [|by case_match]. injection Hr as ->.
    assert (length o = length n) as El.
    { unfold vector_diff in Ed. destruct (Z.eqb_spec (blen o) (blen n)); [unfold blen in *; lia|done]. }
    pose proof (vector_diff_spec o n El Hlen) as Hs. rewrite Ed in Hs.
    destruct vd' as [dim cs|vec]; right; by eexists _, _.
  - destruct (changed d !! k) as [v|] eqn:Ec; simpl in Hr.
    + destruct (inner old !! k) as [ov|]; simpl in Hr; [|injection Hr as ->; by apply value_close_refl].
      repeat case_match; simplify_eq; by apply value_close_refl.
    + rewrite decide_False by done. destruct (inner old !! k) as [ov|] eqn:Eo; [|done]. simpl in Hr.
      destruct (value_same ov nv) eqn:Es; [by left|].
      destruct (as_vector ov) as [o|] eqn:Eov; [|done]. destruct (as_vector nv) as [n|] eqn:Env; [|done].
      destruct ov as [| | | | | | |o'|]; try done. injection Eov as ->.
      destruct nv as [| | | | | | |n'|]; try done. injection Env as ->.
      pose proof (Hw k _ Eo) as [_ Hlen]. simpl in *.
      destruct (vector_diff o n) eqn:Ed; [done|]. destruct (Z.eqb_spec (blen o) (blen n)); [|done].
      pose proof (vector_diff_spec o n ltac:(unfold blen in *; lia) Hlen) as Hs. rewrite Ed in Hs.
      right. by eexists _, _.
Qed.
End DeltaRoundTrip.

(** ** Materialization *)
Section Materialize.
Import PropMap Delta.
Variable base : PropertyMap.

Definition no_base (d : PropertyDelta) : Prop :=
  exists k n cs, vector_deltas d !! k = Some (VSparse n cs) /\ inner base !! k ≫= as_vector = None.
Definition materialized (d d' : PropertyDelta) (ok : bool) : Prop :=
  (ok = true -> vector_deltas d' = ∅ /\ removed d' = removed d /\
     forall k, merged d' base k = merged d base k) /\
  (ok = false -> no_base d).

(** One vector delta replaced by the vector it stands for. *)
Definition set_vector (d : PropertyDelta) (key : Z) (v : list Z) : PropertyDelta :=
  mkDelta (<[key := PVector v]> (changed d)) (delete key (vector_deltas d)) (removed d).

Lemma set_vector_merged d key v k :
  merged d base key = Some (PVector v) -> merged (set_vector d key v) base k = merged d base k.
Proof.
  intros Hv. destruct (decide (k = key)) as [->|Hne].
  - rewrite Hv. unfold merged, untouched. simpl. by rewrite lookup_delete_eq, lookup_insert_eq.
  - unfold merged, untouched. simpl. by rewrite lookup_delete_ne, lookup_insert_ne.
Qed.

Lemma set_vector_materialized d key v d' ok :
  merged d base key = Some (PVector v) ->
  materialized (set_vector d key v) d' ok -> materialized d d' ok.
Proof.
  intros Hv [H1 H2]. split.
  - intros Hok. destruct (H1 Hok) as (? & ? & Hk). split_and!; try done.
    intros k. rewrite Hk. by apply set_vector_merged.
  - intros Hok. destruct (H2 Hok) as (k & n & cs & Hk & Hn). exists k, n, cs. split; [|done].
    simpl in Hk. by apply lookup_delete_Some in Hk as [_ ?].
Qed.

Lemma materialize_keys_spec keys d d' ok :
  dom (vector_deltas d) ⊆ list_to_set keys ->
  materialize_keys keys d base = (d', ok) -> materialized d d' ok.
Proof.
  revert d. induction keys as [|key keys IH]; intros d Hd; simpl.
  { intros [= <- <-]. split; [|done]. intros _. split_and!; try done.
    apply dom_empty_inv_L. set_solver. }
  destruct (vector_deltas d !! key) as [vd|] eqn:Ev.
  2:{ apply IH. intros j Hj. apply not_elem_of_dom in Ev.
      assert (j <> key) by congruence. set_solver. }
  assert (forall v, dom (vector_deltas (set_vector d key v)) ⊆ list_to_set keys) as Hs
    by (intros v; simpl; rewrite dom_delete; set_solver).
  destruct vd as [n cs|v]; unfold get_by_interned_key.
  - destruct (inner base !! key ≫= as_vector) as [bv|] eqn:Eb.
    + intros E. eapply set_vector_materialized; [|by eapply IH; [|exact E]; apply Hs].
      unfold merged. by rewrite Ev, Eb.
    + intros [= <- <-]. split; [done|]. intros _. by exists key, n, cs.
  - intros E. eapply set_vector_materialized; [|by eapply IH; [|exact E]; apply Hs].
    unfold merged. by rewrite Ev.
Qed.
End Materialize.

Section DeltaProperties.
Import PropMap Delta.
Context {St : Type} `{Interner St}.

(** C29: Delta compression loses nothing but the tolerance: applying the delta of two
    property maps to the older one gives a map with exactly the newer one's keys,
    in which every value is semantically the newer one (NaN equal to NaN) or a
    vector of the same length that agrees with the newer one within the [f32]
    tolerance in every position. *)
Theorem delta_roundtrip (st : St) ptr_eq map_ptr_eq (old new_ : PropertyMap) (k : Z) :
  (forall a b, ptr_eq a b = true -> a = b) ->
  (forall a b, map_ptr_eq a b = true -> inner a = inner b) ->
  values_wf old -> values_wf new_ ->
  slot_close (inner (apply st (from_diff ptr_eq map_ptr_eq old new_) old) !! k) (inner new_ !! k).
Proof.
  intros Hp Hm Hw Hn. rewrite apply_lookup. destruct (map_eq ptr_eq map_ptr_eq old new_) eqn:E.
  { unfold from_diff. rewrite E. unfold merged, untouched. simpl. rewrite !lookup_empty.
    rewrite decide_False by by apply not_elem_of_empty. by apply (map_eq_close ptr_eq map_ptr_eq). }
  destruct (from_diff_spec ptr_eq map_ptr_eq Hp old new_ Hw E) as [Hk Hr].
  specialize (Hk k). specialize (Hr k).
  set (d := from_diff ptr_eq map_ptr_eq old new_) in *. clearbody d.
  destruct (inner new_ !! k) as [nv|] eqn:En; simpl in Hk.
  - apply change_close; [exact Hw|exact (Hn k nv En)|exact Hk|]. rewrite Hr. naive_solver.
  - unfold recorded in Hk. unfold merged, untouched.
    destruct (vector_deltas d !! k); [done|]. destruct (changed d !! k); [done|].
    case_decide as Hd; [done|]. destruct (inner old !! k) eqn:Eo; [|done].
    destruct Hd. apply Hr. by split.
Qed.

(** Materialization (before a version leaves memory) replaces every vector delta
    by the vector it stands for: when it succeeds, no vector delta is left and
    applying the result to the same base gives the same properties; it fails only
    when some sparse delta has no base vector. *)
Theorem materialize_same (st : St) (d d' : PropertyDelta) (base : PropertyMap) (ok : bool) :
  materialize_vector_deltas d base = (d', ok) ->
  if ok then vector_deltas d' = ∅ /\ removed d' = removed d /\
     forall k, inner (apply st d' base) !! k = inner (apply st d base) !! k
  else no_base base d.
Proof.
  intros E. destruct (materialize_keys_spec base (map_to_list (vector_deltas d)).*1 d d' ok) as [H1 H2]; [|done|].
  - intros k [v Hv]%elem_of_dom. apply elem_of_list_to_set, list_elem_of_fmap. exists (k, v).
    split; [done|]. by apply elem_of_map_to_list.
  - destruct ok; [|by apply H2]. destruct (H1 eq_refl) as (? & ? & Hk). split_and!; try done.
    intros k. by rewrite !apply_lookup.
Qed.
End DeltaProperties.

Module DeltaWitness.
Import Delta PropMap.

Definition no_ptr : PropertyValue -> PropertyValue -> bool := fun _ _ => false.
Definition no_map_ptr : PropertyMap -> PropertyMap -> bool := fun _ _ => false.
(** A changed integer, a vector changed in one of three places, a removed key. *)
Definition old : PropertyMap :=
  mkMap (<[0 := PInt 1]> (<[1 := PVector [1065353216; 1073741824; 1077936128]]> {[2 := PNull]})) 64.
Definition new_ : PropertyMap :=
  mkMap (<[0 := PInt 2]> {[1 := PVector [1065353216; 0; 1077936128]]}) 60.

Lemma wf_of (m : PropertyMap) (l : list (Z * PropertyValue)) :
  inner m = list_to_map l -> Forall (fun kv => value_wf kv.2) l -> values_wf m.
Proof.
  intros E Hl. unfold values_wf. rewrite E. intros k v Hkv. rewrite Forall_forall in Hl. by apply (Hl (k, v)), elem_of_list_to_map_2.
Qed.

Lemma old_wf : values_wf old.
Proof.
  apply (wf_of old [(0, PInt 1); (1, PVector [1065353216; 1073741824; 1077936128]); (2, PNull)]); [reflexivity|].
  repeat constructor; vm_compute; try done; intuition discriminate.
Qed.
Lemma newer_wf : values_wf new_.
Proof.
  apply (wf_of new_ [(0, PInt 2); (1, PVector [1065353216; 0; 1077936128])]); [reflexivity|].
  repeat constructor; vm_compute; try done; intuition discriminate.
Qed.

Lemma delta_roundtrip_witness :
  slot_close (inner (apply MapWitness.st0 (from_diff no_ptr no_map_ptr old new_) old) !! 1) (Some (PVector [1065353216; 0; 1077936128])).
Proof.
  exact (delta_roundtrip MapWitness.st0 no_ptr no_map_ptr old new_ 1 (fun a b H => match Bool.diff_false_true H with end)
    (fun a b H => match Bool.diff_false_true H with end) old_wf newer_wf).
Defined.

Lemma materialize_same_witness :
  exists d', materialize_vector_deltas (from_diff no_ptr no_map_ptr old new_) old = (d', true) /\ vector_deltas d' = ∅.
Proof.
  destruct (materialize_vector_deltas (from_diff no_ptr no_map_ptr old new_) old) as [d' ok] eqn:E.
  assert (ok = true) as -> by (apply (f_equal snd) in E; vm_compute in E; by rewrite <- E).
  exists d'. split; [reflexivity|]. apply (materialize_same MapWitness.st0 _ d' old true E).
Defined.
End DeltaWitness.
