(* ===== verification/Provenance.v ===== *)
(** * Provenance: [src/core/provenance.rs]

    The write-time attribution bundle with its validating builder, and the
    filter applied to a version's own bundle. *)

From S2P Require Import Prelude.
From S2P Require Import Bytes.
From S2P Require Import Errors.
From S2P Require Import Vectors.

Module Prov.
Import Float.

Inductive ProvenanceError := InvalidConfidence (confidence : Z).

Record Provenance := mkProv {
  source : option bytes;
  confidence : option Z;
  note : option bytes;
  correlation_id : option bytes;
  principal : option bytes }.

Definition is_empty (p : Provenance) : bool :=
  bool_decide (source p = None) && bool_decide (confidence p = None) &&
  bool_decide (note p = None) && bool_decide (correlation_id p = None) &&
  bool_decide (principal p = None).

(** [(0.0..=1.0).contains(&c)] *)
Definition in_unit (c : Z) : bool := f64_le f64_zero c && f64_le c f64_one.

(** The builder has the fields of the bundle. *)
Definition builder : Provenance := mkProv None None None None None.
Definition set_source (b : Provenance) (s : bytes) : Provenance :=
  mkProv (Some s) (confidence b) (note b) (correlation_id b) (principal b).
Definition set_confidence (b : Provenance) (c : Z) : Provenance :=
  mkProv (source b) (Some c) (note b) (correlation_id b) (principal b).
Definition set_note (b : Provenance) (s : bytes) : Provenance :=
  mkProv (source b) (confidence b) (Some s) (correlation_id b) (principal b).
Definition set_correlation_id (b : Provenance) (s : bytes) : Provenance :=
  mkProv (source b) (confidence b) (note b) (Some s) (principal b).
Definition set_principal (b : Provenance) (s : bytes) : Provenance :=
  mkProv (source b) (confidence b) (note b) (correlation_id b) (Some s).

Definition build (b : Provenance) : res ProvenanceError Provenance :=
  match confidence b with
  | Some c => if negb (in_unit c) then Err (InvalidConfidence c) else Ok b
  | None => Ok b
  end.

(** [if let Some(x) = o { builder = f(builder, x) }] *)
Definition set_opt {A} (f : Provenance -> A -> Provenance) (o : option A) (b : Provenance) :=
  match o with Some x => f b x | None => b end.

Definition from_parts (src : option bytes) (conf : option Z) (nt corr prin : option bytes)
    : res ProvenanceError Provenance :=
  let b := builder in
  let b := set_opt set_source src b in
  let b := set_opt set_confidence conf b in
  let b := set_opt set_note nt b in
  let b := set_opt set_correlation_id corr b in
  let b := set_opt set_principal prin b in
  build b.

Definition with_principal (p : Provenance) (s : bytes) : Provenance := set_principal p s.

(** ** The filter *)
Inductive ProvenanceFilterError := InvalidMinConfidence (value : Z) | EmptySourceList.

Record ProvenanceFilter := mkFilter {
  sources : option (list bytes);
  min_confidence : option Z;
  include_unattributed : bool }.

(** The merging loop. *)
Fixpoint merge_sources (merged : list bytes) (l : list bytes) : list bytes :=
  match l with
  | [] => merged
  | s :: l => merge_sources (if bool_decide (s ∈ merged) then merged else merged ++ [s]) l
  end.

Definition validated (src : option bytes) (srcs : option (list bytes)) (minc : option Z)
    (incl : bool) : res ProvenanceFilterError (option ProvenanceFilter) :=
  if bool_decide (srcs = Some []) then Err EmptySourceList
  else if from_option (fun c => f64_is_nan c || negb (in_unit c)) false minc
  then Err (InvalidMinConfidence (default 0 minc))
  else
    let merged := merge_sources []
      (from_option (fun s => [s]) [] src ++ default [] srcs) in
    let sources := match merged with [] => None | _ => Some merged end in
    if bool_decide (sources = None) && bool_decide (minc = None) then Ok None
    else Ok (Some (mkFilter sources minc incl)).

Definition is_active (f : ProvenanceFilter) : bool :=
  bool_decide (is_Some (sources f)) || bool_decide (is_Some (min_confidence f)).

Definition matches (f : ProvenanceFilter) (prov : option Provenance) : bool :=
  if negb (is_active f) then true
  else match prov with
  | None => include_unattributed f
  | Some p =>
      match sources f with
      | Some l => match source p with Some s => bool_decide (s ∈ l) | None => false end
      | None => true
      end &&
      match min_confidence f with
      | Some m => match confidence p with Some c => f64_le m c | None => false end
      | None => true
      end
  end.

End Prov.

Section ProvLemmas.
Import Float Prov.

(** What [build] guarantees of every bundle. *)
Definition prov_valid (p : Provenance) : Prop :=
  forall c, confidence p = Some c -> in_unit c = true.

Lemma from_parts_eq src conf nt corr prin :
  from_parts src conf nt corr prin = build (mkProv src conf nt corr prin).
Proof. by destruct src, conf, nt, corr, prin. Qed.

Lemma build_ok b p : build b = Ok p <-> p = b /\ prov_valid b.
Proof.
  unfold build, prov_valid. destruct (confidence b) as [c|] eqn:E.
  - destruct (in_unit c) eqn:Ei; simpl; split; try done.
    + intros [= <-]. split; [done|]. by intros ? [= <-].
    + by intros [-> _].
    + intros [_ H]. specialize (H c eq_refl). congruence.
  - split; [intros [= <-]; by split|by intros [-> _]].
Qed.

Lemma build_not_panic b : is_panic (build b) = false.
Proof. unfold build. by repeat case_goal. Qed.

Lemma in_unit_not_nan c : in_unit c = true -> f64_is_nan c = false.
Proof. unfold in_unit, fle. rewrite !andb_true_iff, !negb_true_iff. tauto. Qed.

Lemma merge_sources_spec acc l :
  (forall s, s ∈ merge_sources acc l <-> s ∈ acc \/ s ∈ l) /\
  (NoDup acc -> NoDup (merge_sources acc l)).
Proof.
  revert acc. induction l as [|s l IH]; intros acc; simpl.
  { split; [|done]. intros t. rewrite elem_of_nil. tauto. }
  case_bool_decide as Hs; destruct (IH (if decide (s ∈ acc) then acc else acc ++ [s])) as [H1 H2];
    case_decide; try done.
  - split; [|done]. intros t. rewrite H1, elem_of_cons. split; [tauto|]. intros [?|[->|?]]; auto.
  - split.
    + intros t. rewrite H1, elem_of_app, list_elem_of_singleton, elem_of_cons. tauto.
    + intros Hnd. apply H2, NoDup_app. split_and!; [done| |apply NoDup_singleton].
      intros t Ht ->%list_elem_of_singleton. done.
Qed.
End ProvLemmas.

(** ** Properties *)
Section ProvProperties.
Import Float Prov.

(** [from_parts] (and so the builder, deserialization and log replay, which
    all end in [build]) keeps every field and accepts exactly the bundles whose
    confidence, if any, is a number in [[0, 1]] (NaN never is), so the invariant
    holds of every bundle however it is reconstructed. *)
Theorem provenance_validated (src : option bytes) (conf : option Z) (nt corr prin : option bytes) :
  match from_parts src conf nt corr prin with
  | Ok p => p = mkProv src conf nt corr prin /\ prov_valid p /\
            forall c, confidence p = Some c -> f64_is_nan c = false
  | Err (InvalidConfidence c) => conf = Some c /\ in_unit c = false
  | Panic => False
  end.
Proof.
  rewrite from_parts_eq. destruct (build _) as [p|[c]|] eqn:E.
  - apply build_ok in E as [-> H]. split_and!; try done.
    intros c Hc. by apply in_unit_not_nan, H.
  - unfold build in E. simpl in E. destruct conf as [c0|]; [|done].
    destruct (in_unit c0) eqn:Ei; simpl in E; simplify_eq. done.
  - pose proof (build_not_panic (mkProv src conf nt corr prin)) as H. by rewrite E in H.
Qed.

(** [validated] rejects exactly an empty source list and a threshold
    outside [[0, 1]]; without a constraint it returns no filter; otherwise the
    filter's sources are the duplicate-free union of the scalar and the list,
    and it keeps a bundle exactly when its source is one of them and its
    confidence reaches the threshold (a missing field fails its constraint),
    and a version without bundle exactly when asked to. *)
Theorem filter_semantics (src : option bytes) (srcs : option (list bytes)) (minc : option Z)
    (incl : bool) (prov : option Provenance) :
  match validated src srcs minc incl with
  | Err EmptySourceList => srcs = Some []
  | Err (InvalidMinConfidence c) => minc = Some c /\ in_unit c = false
  | Ok None => src = None /\ srcs = None /\ minc = None
  | Ok (Some f) =>
      is_active f = true /\ NoDup (default [] (sources f)) /\
      (matches f prov = true <->
        match prov with
        | None => incl = true
        | Some p =>
            ((src = None /\ srcs = None) \/
             exists s, source p = Some s /\ (src = Some s \/ s ∈ default [] srcs)) /\
            match minc, confidence p with
            | Some m, Some c => f64_le m c = true
            | Some _, None => False
            | None, _ => True
            end
        end)
  | Panic => False
  end.
Proof.
  unfold validated. case_bool_decide as Hs; [done|].
  destruct (from_option _ false minc) eqn:Em.
  { destruct minc as [c|]; [|done]. simpl in *. split; [done|].
    destruct (in_unit c) eqn:Eu; [|done]. rewrite in_unit_not_nan in Em; done. }
  set (l := from_option (fun s => [s]) [] src ++ default [] srcs).
  destruct (merge_sources_spec [] l) as [Hin Hnd]. specialize (Hnd (NoDup_nil_2)).
  assert (forall s, s ∈ merge_sources [] l <-> src = Some s \/ s ∈ default [] srcs) as Hm.
  { intros s. rewrite Hin, elem_of_nil. unfold l. rewrite elem_of_app.
    destruct src as [s0|]; simpl; rewrite ?list_elem_of_singleton, ?elem_of_nil; naive_solver. }
  destruct (merge_sources [] l) as [|s0 merged] eqn:El.
  - assert (src = None /\ srcs = None) as [-> ->].
    { destruct src as [s|]; [exfalso; eapply elem_of_nil, Hm; by left|].
      destruct srcs as [[|s srcs]|]; [done| |done].
      exfalso. eapply elem_of_nil, Hm. right. left. }
    rewrite bool_decide_true by done. simpl. case_bool_decide as Hc; [done|].
    destruct minc as [m|]; [|done]. split_and!; [done|constructor|].
    unfold matches, is_active. simpl. destruct prov as [p|]; [|done]. simpl.
    destruct (confidence p); naive_solver.
  - rewrite bool_decide_false by done. simpl.
    split_and!; [done|done|].
    unfold matches, is_active. simpl. destruct prov as [p|]; [|done].
    rewrite andb_true_iff. f_equiv; [|by destruct minc, (confidence p)].
    transitivity (exists s, source p = Some s /\ s ∈ s0 :: merged).
    + destruct (source p) as [s|]; [rewrite bool_decide_eq_true|]; naive_solver.
    + split.
      * intros (s & ? & ?%Hm). eauto.
      * intros [[-> ->]|(s & ? & ?%Hm)]; [|eauto].
        exfalso. assert (s0 ∈ s0 :: merged) as H%Hm by left. simpl in H.
        rewrite elem_of_nil in H. naive_solver.
Qed.
End ProvProperties.
