(* ===== verification/History.v ===== *)
(** * Historical storage: [src/storage/historical/mod.rs], [src/core/version.rs]

    The bi-temporal version chains of nodes and edges: anchors and deltas,
    reconstruction through the two property caches, appending and closing
    versions, point-in-time lookup.  The code keeps the node and the edge half as
    two copies of the same state and functions; here one half is written over the
    end points [X] of a version, [unit] for nodes and a pair of nodes for edges. *)

From S2P Require Import Prelude.
From S2P Require Import Bytes.
From S2P Require Import Errors.
From S2P Require Import Hlc.
From S2P Require Import Temporal.
From S2P Require Import Ids.
From S2P Require Import Interning.
From S2P Require Import Property.
From S2P Require Import PropMap.
From S2P Require Import Provenance.
From S2P Require Import Delta.

Module History.
Import PropMap Prov Delta.

Definition MAX_RECONSTRUCTION_DEPTH : Z := 1000.
Definition DEFAULT_MAX_VERSIONS_PER_ENTITY : Z := 1000.

(** [NodeVersion] / [EdgeVersion] *)
Record Version {X : Type} := mkVersion {
  id : VersionId;
  entity : Z;
  temporal : BiTemporalInterval;
  label : Z;
  ends : X;
  data : VersionData;
  commit_timestamp : HybridTimestamp;
  next_version : option VersionId;
  prev_version : option VersionId;
  provenance : option Provenance }.
Arguments Version : clear implicits.

(** Snapshot policies: does an anchor of this entity run the snapshot hooks? *)
Inductive SnapshotPolicy := Snapshot | Skip.
Record SnapshotPolicyRegistry := mkRegistry {
  overrides : gmap Z SnapshotPolicy;
  default_policy : SnapshotPolicy }.
Definition should_snapshot (p : SnapshotPolicy) : bool :=
  match p with Snapshot => true | Skip => false end.
Definition resolve_policy (r : SnapshotPolicyRegistry) (key : Z) : SnapshotPolicy :=
  default (default_policy r) (overrides r !! key).

(** The fields of [HistoricalStorage] for one kind of entity. *)
Record Store {X : Type} := mkStore {
  versions : gmap VersionId (Version X);
  version_heads : gmap Z VersionId;
  version_counts : gmap Z Z;
  open_slices : gmap Z (list VersionId);
  structural_counts : gmap Z Z;
  versions_since_anchor : gmap Z Z;
  cached_anchor_count : Z;
  cached_delta_count : Z;
  property_cache : gmap VersionId PropertyMap;
  anchor_cache : gmap VersionId PropertyMap;
  snapshot_policies : SnapshotPolicyRegistry }.
Arguments Store : clear implicits.

Definition empty_store (X : Type) : Store X :=
  mkStore X ∅ ∅ ∅ ∅ ∅ ∅ 0 0 ∅ ∅ (mkRegistry ∅ Snapshot).

(** The settings the operations read. *)
Record Config := mkConfig {
  anchor_interval : Z;
  max_versions_per_entity : Z;
  max_reconstruction_depth : Z }.
Definition default_config : Config := mkConfig 10 DEFAULT_MAX_VERSIONS_PER_ENTITY MAX_RECONSTRUCTION_DEPTH.

Section Setters.
Context {X : Type}.
Implicit Types (s : Store X) (v : Version X).

Definition set_versions m s : Store X :=
  mkStore X m (version_heads s) (version_counts s) (open_slices s) (structural_counts s)
    (versions_since_anchor s) (cached_anchor_count s) (cached_delta_count s) (property_cache s)
    (anchor_cache s) (snapshot_policies s).
Definition set_open_slices m s : Store X :=
  mkStore X (versions s) (version_heads s) (version_counts s) m (structural_counts s)
    (versions_since_anchor s) (cached_anchor_count s) (cached_delta_count s) (property_cache s)
    (anchor_cache s) (snapshot_policies s).
Definition set_since_anchor (e n : Z) s : Store X :=
  mkStore X (versions s) (version_heads s) (version_counts s) (open_slices s) (structural_counts s)
    (<[e := n]> (versions_since_anchor s)) (cached_anchor_count s) (cached_delta_count s)
    (property_cache s) (anchor_cache s) (snapshot_policies s).
Definition set_caches pc ac s : Store X :=
  mkStore X (versions s) (version_heads s) (version_counts s) (open_slices s) (structural_counts s)
    (versions_since_anchor s) (cached_anchor_count s) (cached_delta_count s) pc ac
    (snapshot_policies s).

Definition with_temporal (t : BiTemporalInterval) v : Version X :=
  mkVersion X (id v) (entity v) t (label v) (ends v) (data v) (commit_timestamp v) (next_version v)
    (prev_version v) (provenance v).
Definition with_next (n : option VersionId) v : Version X :=
  mkVersion X (id v) (entity v) (temporal v) (label v) (ends v) (data v) (commit_timestamp v) n
    (prev_version v) (provenance v).
Definition with_provenance (p : option Provenance) v : Version X :=
  mkVersion X (id v) (entity v) (temporal v) (label v) (ends v) (data v) (commit_timestamp v)
    (next_version v) (prev_version v) p.
Definition with_prev (p : option VersionId) v : Version X :=
  mkVersion X (id v) (entity v) (temporal v) (label v) (ends v) (data v) (commit_timestamp v)
    (next_version v) p (provenance v).
Definition with_data (d : VersionData) v : Version X :=
  mkVersion X (id v) (entity v) (temporal v) (label v) (ends v) d (commit_timestamp v)
    (next_version v) (prev_version v) (provenance v).
End Setters.

(** [is_open_slice] *)
Definition is_open_slice (t : BiTemporalInterval) : bool :=
  BiTemporal.is_currently_recorded t && ts_ltb (start (valid_time t)) (end_ (valid_time t)).

Definition temporal_err {A} (r : res TemporalError A) : res Error A := map_err ETemporal r.

Section Ops.
Context {St : Type} `{Interner St} {X : Type}.
(** The global interner the delta code reads, [Arc::ptr_eq] on values and maps,
    the settings, and what the registered pre-anchor hooks return. *)
Variable it : St.
Variable ptr_eq : PropertyValue -> PropertyValue -> bool.
Variable map_ptr_eq : PropertyMap -> PropertyMap -> bool.
Variable config : Config.
Variable pre_anchor_hooks : Z -> HybridTimestamp -> PropertyMap -> option Z.
Implicit Types (s : Store X).

Definition new_anchor (id : VersionId) (e : Z) (t : BiTemporalInterval) (label : Z) (ends : X)
    (properties : PropertyMap) : Version X :=
  mkVersion X id e t label ends (anchor properties) (start (transaction_time t)) None None None.
Definition new_delta (id : VersionId) (e : Z) (t : BiTemporalInterval) (label : Z) (ends : X)
    (old_properties new_properties : PropertyMap) (prev : VersionId) : Version X :=
  mkVersion X id e t label ends (DeltaData (from_diff ptr_eq map_ptr_eq old_properties new_properties))
    (start (transaction_time t)) None (Some prev) None.

(** *** Reconstruction *)

(** The backward walk: [depth] is what is left below the limit; the versions from
    the target to its anchor. *)
Fixpoint collect_chain (depth : nat) (s : Store X) (current_id : VersionId) (first : bool) :
    res Error (list (Version X)) :=
  match depth with
  | O => Err (ETemporal (MaxDepthExceeded MAX_RECONSTRUCTION_DEPTH))
  | S depth =>
      match versions s !! current_id with
      | None => if first then Err (EStorage (VersionNotFound current_id)) else Err (ETemporal MissingAnchor)
      | Some version =>
          if is_anchor (data version) then Ok [version]
          else match prev_version version with
               | None => Err (ETemporal CorruptedVersionChain)
               | Some prev => rest ← collect_chain depth s prev false; Ok (version :: rest)
               end
      end
  end.

Fixpoint apply_deltas (vs : list (Version X)) (properties : PropertyMap) : res Error PropertyMap :=
  match vs with
  | [] => Ok properties
  | v :: vs =>
      match data v with
      | DeltaData delta => apply_deltas vs (apply it delta properties)
      | Anchor _ _ => Err (ETemporal CorruptedVersionChain)
      end
  end.

(** [reconstruct_node_properties_iterative]; only the hot tier is configured. *)
Definition reconstruct_iterative (s : Store X) (version_id : VersionId) : res Error PropertyMap :=
  chain ← collect_chain (Z.to_nat (max_reconstruction_depth config)) s version_id true;
  match rev chain with
  | [] => Err (ETemporal CorruptedVersionChain)
  | anchor_version :: deltas =>
      match data anchor_version with
      | Anchor properties _ => apply_deltas deltas properties
      | DeltaData _ => Err (ETemporal CorruptedVersionChain)
      end
  end.

(** [reconstruct_node_properties]: primary cache, anchor cache, then the chain.  A
    cache holds what was inserted until it is evicted, which is a step of its own. *)
Definition reconstruct (version_id : VersionId) : SM (Store X) Error PropertyMap := fun s =>
  match property_cache s !! version_id with
  | Some cached => (s, Ok cached)
  | None =>
      match anchor_cache s !! version_id with
      | Some cached => (set_caches (<[version_id := cached]> (property_cache s)) (anchor_cache s) s, Ok cached)
      | None =>
          match reconstruct_iterative s version_id with
          | Ok properties =>
              (set_caches (<[version_id := properties]> (property_cache s)) (anchor_cache s) s, Ok properties)
          | r => (s, r)
          end
      end
  end.

(** *** Slices of a head *)
Definition track_slice_if_open (e : Z) (vid : VersionId) (s : Store X) : Store X :=
  match versions s !! vid with
  | Some v =>
      if is_open_slice (temporal v) then
        let slices := default [] (open_slices s !! e) in
        set_open_slices (<[e := if bool_decide (vid ∈ slices) then slices else slices ++ [vid]]> (open_slices s)) s
      else s
  | None => s
  end.

Definition untrack (m : gmap Z (list VersionId)) (e : Z) (vid : VersionId) : gmap Z (list VersionId) :=
  match m !! e with
  | Some slices =>
      let slices := filter (fun v => v <> vid) slices in
      if bool_decide (slices = []) then delete e m else <[e := slices]> m
  | None => m
  end.
Definition untrack_slice (e : Z) (vid : VersionId) (s : Store X) : Store X :=
  set_open_slices (untrack (open_slices s) e vid) s.

Definition node_open_slices (s : Store X) (e : Z) : list VersionId := default [] (open_slices s !! e).

Definition logical_version_count (s : Store X) (e : Z) : Z :=
  usize_saturating_sub (default 0 (version_counts s !! e)) (default 0 (structural_counts s !! e)).

(** *** Appending *)

(** [close_previous_version_intervals]: the link is set even when closing fails. *)
Definition close_previous_version_intervals (prev : Version X) (new_version_id : VersionId)
    (new_temporal : BiTemporalInterval) : Version X * res Error unit :=
  let prev := with_next (Some new_version_id) prev in
  if BiTemporal.is_currently_recorded (temporal prev) &&
     ts_ltb (start (transaction_time (temporal prev))) (start (transaction_time new_temporal))
  then
    match BiTemporal.close_transaction_time (temporal prev) (start (transaction_time new_temporal)) with
    | Ok t => (with_temporal t prev, Ok tt)
    | Err e => (prev, Err (ETemporal e))
    | Panic => (prev, Panic)
    end
  else (prev, Ok tt).

(** The anchor-or-delta choice, with the counter it advances. *)
Definition create_version (e : Z) (version_id : VersionId) (t : BiTemporalInterval) (label : Z) (ends : X)
    (properties : PropertyMap) (prev_version_id : option VersionId) : SM (Store X) Error (Version X) := fun s =>
  match prev_version_id with
  | Some prev_id =>
      match versions s !! prev_id with
      | None => (s, Err (EStorage (VersionNotFound prev_id)))
      | Some _ =>
          let current_count := default 0 (versions_since_anchor s !! e) in
          let since := current_count + 1 in
          if anchor_interval config <=? since
          then (set_since_anchor e 0 s,
                Ok (with_prev (Some prev_id) (new_anchor version_id e t label ends properties)))
          else
            (old_properties ← reconstruct prev_id;
             (fun s => (set_since_anchor e since s,
                        Ok (new_delta version_id e t label ends old_properties properties prev_id)))
               : SM (Store X) Error (Version X)) s
      end
  | None => (set_since_anchor e 0 s, Ok (new_anchor version_id e t label ends properties))
  end.

(** The pre-anchor hooks, when the entity's policy asks for them. *)
Definition run_hooks (s : Store X) (t : BiTemporalInterval) (properties : PropertyMap) (v : Version X) : Version X :=
  if is_anchor (data v) && should_snapshot (resolve_policy (snapshot_policies s) (entity v))
  then match pre_anchor_hooks (entity v) (start (transaction_time t)) properties with
       | Some snapshot_id => with_data (set_vector_snapshot_id (data v) snapshot_id) v
       | None => v
       end
  else v.

Definition link_previous (e : Z) (version_id : VersionId) (t : BiTemporalInterval)
    (prev_version_id : option VersionId) : SM (Store X) Error unit := fun s =>
  match prev_version_id with
  | Some prev_id =>
      match versions s !! prev_id with
      | Some prev =>
          let '(prev, r) := close_previous_version_intervals prev version_id t in
          let s := set_versions (<[prev_id := prev]> (versions s)) s in
          (match r with Ok _ => track_slice_if_open e prev_id s | _ => s end, r)
      | None => (s, Ok tt)
      end
  | None => (s, Ok tt)
  end.

Definition store_version (e : Z) (version_id : VersionId) (version : Version X) (properties : PropertyMap)
    (s : Store X) : Store X :=
  let anchored := is_anchor (data version) in
  mkStore X
    (<[version_id := version]> (versions s))
    (<[e := version_id]> (version_heads s))
    (<[e := default 0 (version_counts s !! e) + 1]> (version_counts s))
    (open_slices s)
    (if Id.is_structural version_id
     then <[e := default 0 (structural_counts s !! e) + 1]> (structural_counts s)
     else structural_counts s)
    (versions_since_anchor s)
    (if anchored then cached_anchor_count s + 1 else cached_anchor_count s)
    (if anchored then cached_delta_count s else cached_delta_count s + 1)
    (<[version_id := properties]> (property_cache s))
    (if anchored then <[version_id := properties]> (anchor_cache s) else anchor_cache s)
    (snapshot_policies s).

(** [add_node_version_with_interval] / [add_edge_version_with_interval] *)
Definition add_version_with_interval (e : Z) (version_id : VersionId) (t : BiTemporalInterval) (label : Z)
    (ends : X) (properties : PropertyMap) (prov : option Provenance) : SM (Store X) Error unit := fun s =>
  let version_count := logical_version_count s e in
  if negb (Id.is_structural version_id) && (max_versions_per_entity config <=? version_count)
  then (s, Err (EStorage (CapacityExceeded version_count (max_versions_per_entity config))))
  else
    let prev_version_id := version_heads s !! e in
    (version ← create_version e version_id t label ends properties prev_version_id;
     (fun s =>
        let version := run_hooks s t properties (with_provenance prov version) in
        (_ ← link_previous e version_id t prev_version_id;
         (fun s => (store_version e version_id version properties s, Ok tt)) : SM (Store X) Error unit) s)
       : SM (Store X) Error unit) s.

(** [add_node_version_with_provenance] *)
Definition add_version_with_provenance (e : Z) (version_id : VersionId) (valid_from tx_time : HybridTimestamp)
    (label : Z) (ends : X) (properties : PropertyMap) (is_tombstone : bool) (prov : option Provenance) :
    SM (Store X) Error unit :=
  t ← lift (temporal_err (BiTemporal.with_valid_time valid_from tx_time));
  t ← lift (if is_tombstone then temporal_err (BiTemporal.close_valid_time t valid_from) else Ok t);
  add_version_with_interval e version_id t label ends properties prov.

(** [add_retracted_node_version_with_provenance] *)
Definition add_retracted_version_with_provenance (e : Z) (version_id : VersionId)
    (valid_from valid_to tx_time : HybridTimestamp) (label : Z) (ends : X) (properties : PropertyMap)
    (prov : option Provenance) : SM (Store X) Error unit :=
  t ← lift (temporal_err (BiTemporal.with_valid_time valid_from tx_time));
  t ← lift (temporal_err (BiTemporal.close_valid_time t valid_to));
  add_version_with_interval e version_id t label ends properties prov.

(** [close_node_version_transaction_time] *)
Definition close_version_transaction_time (version_id : VersionId) (end_timestamp : HybridTimestamp) :
    SM (Store X) Error unit := fun s =>
  match versions s !! version_id with
  | None => (s, Err (EStorage (VersionNotFound version_id)))
  | Some version =>
      match BiTemporal.close_transaction_time (temporal version) end_timestamp with
      | Ok t =>
          (untrack_slice (entity version) version_id
             (set_versions (<[version_id := with_temporal t version]> (versions s)) s), Ok tt)
      | Err e => (s, Err (ETemporal e))
      | Panic => (s, Panic)
      end
  end.

(** *** Reading *)

(** [find_node_version_at_time] without temporal indexes: the walk down the chain,
    cut after [versions.len() + 1] steps. *)
Fixpoint find_loop (fuel : nat) (s : Store X) (current_id : VersionId) (vt tt : HybridTimestamp) :
    option VersionId :=
  match fuel with
  | O => None
  | S fuel =>
      match versions s !! current_id with
      | None => None
      | Some version =>
          if BiTemporal.is_visible_at (temporal version) vt tt then Some current_id
          else match prev_version version with
               | None => None
               | Some prev => find_loop fuel s prev vt tt
               end
      end
  end.
Definition find_version_at_time (s : Store X) (e : Z) (vt tt : HybridTimestamp) : option VersionId :=
  match version_heads s !! e with
  | Some head => find_loop (S (S (size (versions s)))) s head vt tt
  | None => None
  end.

(** What a point-in-time read returns: label, end points, properties, version. *)
Definition entity_at_time (not_found : Error) (e : Z) (vt tt : HybridTimestamp) :
    SM (Store X) Error (Z * X * PropertyMap * VersionId) := fun s =>
  match find_version_at_time s e vt tt with
  | None => (s, Err not_found)
  | Some version_id =>
      match versions s !! version_id with
      | None => (s, Err (EStorage (VersionNotFound version_id)))
      | Some version =>
          (properties ← reconstruct version_id;
           mret (label version, ends version, properties, id version)) s
      end
  end.
Definition get_node_at_time (e : Z) := entity_at_time (EStorage (NodeNotFound e)) e.
Definition get_edge_at_time (e : Z) := entity_at_time (EStorage (EdgeNotFound e)) e.

(** An entry leaves a cache. *)
Definition evict (version_id : VersionId) (s : Store X) : Store X :=
  set_caches (delete version_id (property_cache s)) (anchor_cache s) s.
Definition evict_anchor (version_id : VersionId) (s : Store X) : Store X :=
  set_caches (property_cache s) (delete version_id (anchor_cache s)) s.
End Ops.
End History.
