(* ===== verification/Slices.v ===== *)
(** * Valid-time slices: [src/storage/historical/slices.rs]

    How an update supersedes the recorded slices of an entity: the plan, its
    execution (close, carry forward, append, re-assert), and the closing of every
    slice by a delete. *)

From S2P Require Import Prelude.
From S2P Require Import Bytes.
From S2P Require Import Errors.
From S2P Require Import Hlc.
From S2P Require Import Temporal.
From S2P Require Import Ids.
From S2P Require Import Interning.
From S2P Require Import Property.
From S2P Require Import PropMap.
From S2P Require Import Provenance.
From S2P Require Import Delta.
From S2P Require Import History.

Module Slices.
Import PropMap Prov History.

Record UpdatePlan := mkPlan {
  predecessor : option VersionId;
  carry_from : option HybridTimestamp;
  new_valid_to : option HybridTimestamp;
  reassert : option VersionId }.

Record AppliedUpdate := mkApplied {
  appended : list (VersionId * BiTemporalInterval);
  reasserted : option (VersionId * Z * PropertyMap) }.

Definition ts_min (a b : HybridTimestamp) : HybridTimestamp := if ts_leb a b then a else b.

Abbreviation slice := (VersionId * BiTemporalInterval)%type.

(** The loop of [plan_update]: the slice that contains [valid_from], or the start
    of the first one after it. *)
Fixpoint plan_loop (slices : list slice) (valid_from : HybridTimestamp) (next_start : option HybridTimestamp) :
    option slice * option HybridTimestamp :=
  match slices with
  | [] => (None, next_start)
  | (id, t) :: rest =>
      if negb (is_open_slice t) then plan_loop rest valid_from next_start
      else if Range.contains (valid_time t) valid_from then (Some (id, t), next_start)
      else if ts_ltb valid_from (start (valid_time t))
      then plan_loop rest valid_from
             (Some (match next_start with
                    | Some n => ts_min n (start (valid_time t))
                    | None => start (valid_time t)
                    end))
      else plan_loop rest valid_from next_start
  end.

Definition plan_update (head : option slice) (other_slices : list slice) (valid_from : HybridTimestamp) :
    UpdatePlan :=
  let head_slice := match head with Some (_, t) => if is_open_slice t then head else None | None => None end in
  let fast := match head_slice with
              | Some (_, t) => if Range.contains (valid_time t) valid_from then head_slice else None
              | None => None
              end in
  let '(pred, next_start) :=
    match fast with
    | Some _ => (fast, None)
    | None => plan_loop (option_list head_slice ++ other_slices) valid_from None
    end in
  let new_to := match pred with
                | Some (_, t) => if negb (Range.is_current (valid_time t)) then Some (end_ (valid_time t)) else None
                | None => next_start
                end in
  let carry := match pred with
               | Some (_, t) => let s := start (valid_time t) in if ts_ltb s valid_from then Some s else None
               | None => None
               end in
  let re := match new_to, head_slice with
            | Some _, Some (head_id, head_t) =>
                if Range.is_current (valid_time head_t) && negb (bool_decide (fst <$> pred = Some head_id))
                then Some head_id else None
            | _, _ => None
            end in
  mkPlan (fst <$> pred) carry new_to re.

Definition require_id (id : option VersionId) : res Error VersionId :=
  ok_or id (EStorage InconsistentState).

Section Ops.
Context {St : Type} `{Interner St} {X : Type}.
Variable it : St.
Variable ptr_eq : PropertyValue -> PropertyValue -> bool.
Variable map_ptr_eq : PropertyMap -> PropertyMap -> bool.
Variable config : Config.
Variable pre_anchor_hooks : Z -> HybridTimestamp -> PropertyMap -> option Z.
Implicit Types (s : Store X).

Abbreviation reconstruct := (History.reconstruct it config).
Abbreviation add := (add_version_with_interval it ptr_eq map_ptr_eq config pre_anchor_hooks).
Abbreviation M := (SM (Store X) Error).

Definition get_store : M (Store X) := fun s => (s, Ok s).

(** A version id with its current interval, if the version is hot. *)
Definition slice_of s (id : VersionId) : option slice := (fun v => (id, temporal v)) <$> versions s !! id.

(** [plan_node_update] / [plan_edge_update] *)
Definition plan_entity_update s (e : Z) (valid_from : HybridTimestamp) : UpdatePlan :=
  plan_update (version_heads s !! e ≫= slice_of s) (omap (slice_of s) (node_open_slices s e)) valid_from.

Definition check_update_capacity (count needed : Z) : res Error unit :=
  let limit := max_versions_per_entity config in
  if limit <? usize_saturating_add count needed then Err (EStorage (CapacityExceeded count limit)) else Ok tt.

(** The payload of a structural version: its id, valid start, and the label,
    properties and provenance of the version it restates. *)
Definition payload := (VersionId * HybridTimestamp * Z * PropertyMap * option Provenance)%type.

Definition gather_carry (plan : UpdatePlan) (carry_id : option VersionId) : M (option payload) :=
  match predecessor plan, carry_from plan with
  | Some pred, Some from =>
      s ← get_store;
      v ← lift (ok_or (versions s !! pred) (EStorage (VersionNotFound pred)));
      props ← reconstruct pred;
      id ← lift (require_id carry_id);
      mret (Some (id, from, label v, props, provenance v))
  | _, _ => mret None
  end.

Definition gather_reassert (plan : UpdatePlan) (reassert_id : option VersionId) : M (option payload) :=
  match reassert plan with
  | Some head =>
      s ← get_store;
      v ← lift (ok_or (versions s !! head) (EStorage (VersionNotFound head)));
      props ← reconstruct head;
      id ← lift (require_id reassert_id);
      mret (Some (id, start (valid_time (temporal v)), label v, props, provenance v))
  | None => mret None
  end.

Fixpoint close_recorded (to_close : list VersionId) (commit : HybridTimestamp) : M unit :=
  match to_close with
  | [] => mret tt
  | vid :: rest =>
      s ← get_store;
      _ ← (if match versions s !! vid with
              | Some v => BiTemporal.is_currently_recorded (temporal v)
              | None => false
              end
           then close_version_transaction_time vid commit else mret tt);
      close_recorded rest commit
  end.

Definition superseded s (e : Z) (plan : UpdatePlan) : list VersionId :=
  option_list (predecessor plan) ++ option_list (reassert plan) ++
  (if bool_decide (predecessor plan = None) && bool_decide (reassert plan = None)
   then option_list (version_heads s !! e) else []).

(** The three appends, each recorded at [commit]. *)
Definition append_carry (e : Z) (valid_from commit : HybridTimestamp) (ends : X) (carry : option payload) :
    M (list slice) :=
  match carry with
  | Some (id, from, c_label, props, prov) =>
      t ← lift (temporal_err (BiTemporal.with_valid_time from commit));
      t ← lift (temporal_err (BiTemporal.close_valid_time t valid_from));
      _ ← add e id t c_label ends props prov;
      mret [(id, t)]
  | None => mret []
  end.

Definition append_new (e : Z) (plan : UpdatePlan) (valid_from commit : HybridTimestamp) (version_id : VersionId)
    (label : Z) (ends : X) (properties : PropertyMap) (prov : option Provenance) : M (list slice) :=
  t ← lift (temporal_err (BiTemporal.with_valid_time valid_from commit));
  t ← lift (match new_valid_to plan with
            | Some e => temporal_err (BiTemporal.close_valid_time t e)
            | None => Ok t
            end);
  _ ← add e version_id t label ends properties prov;
  mret [(version_id, t)].

Definition append_reassert (e : Z) (commit : HybridTimestamp) (ends : X) (re : option payload) :
    M (list slice * option (VersionId * Z * PropertyMap)) :=
  match re with
  | Some (id, from, h_label, props, prov) =>
      t ← lift (temporal_err (BiTemporal.with_valid_time from commit));
      _ ← add e id t h_label ends props prov;
      mret ([(id, t)], Some (id, h_label, props))
  | None => mret ([], None)
  end.

(** [apply_node_update] / [apply_edge_update] *)
Definition apply_update (e : Z) (plan : UpdatePlan) (valid_from commit : HybridTimestamp) (version_id : VersionId)
    (label : Z) (ends : X) (properties : PropertyMap) (prov : option Provenance)
    (carry_id reassert_id : option VersionId) : M AppliedUpdate :=
  s ← get_store;
  _ ← lift (check_update_capacity (logical_version_count s e) 1);
  carry ← gather_carry plan carry_id;
  re ← gather_reassert plan reassert_id;
  s ← get_store;
  _ ← close_recorded (superseded s e plan) commit;
  a1 ← append_carry e valid_from commit ends carry;
  a2 ← append_new e plan valid_from commit version_id label ends properties prov;
  '(a3, r) ← append_reassert e commit ends re;
  mret (mkApplied (a1 ++ a2 ++ a3) r).

(** [close_all_node_slices] / [close_all_edge_slices] *)
Definition close_all_slices (e : Z) (commit : HybridTimestamp) : M unit :=
  s ← get_store;
  close_recorded (node_open_slices s e ++ option_list (version_heads s !! e)) commit.
End Ops.
End Slices.
