(* ===== verification/HistoryFacts.v ===== *)
(** * Facts on the historical storage

    How each operation moves the store: recorded versions only gain an end of
    their transaction interval, new versions start at the commit, recorded
    properties stay readable, and the chain of an entity grows at its head. *)

From S2P Require Import Prelude.
From S2P Require Import Bytes.
From S2P Require Import Errors.
From S2P Require Import Hlc.
From S2P Require Import Temporal.
From S2P Require Import Ids.
From S2P Require Import Interning.
From S2P Require Import Property.
From S2P Require Import PropMap.
From S2P Require Import Provenance.
From S2P Require Import Delta.
From S2P Require Import History.
From S2P Require Import Slices.

(** ** Computations that move a store along a relation *)
Section Moves.
Context {S E : Type} (R : S -> S -> Prop) `{!Reflexive R, !Transitive R}.

Definition moves {A} (m : SM S E A) : Prop := forall s, R s (m s).1.

Lemma moves_bind {A B} (m : SM S E A) (f : A -> SM S E B) :
  moves m -> (forall a, moves (f a)) -> moves (m ≫= f).
Proof.
  intros Hm Hf s. unfold mbind, sm_bind. pose proof (Hm s) as H1.
  destruct (m s) as [s1 [a|e|]]; simpl in *; [|done..]. etrans; [exact H1|apply Hf].
Qed.
Lemma moves_ret {A} (a : A) : moves (mret a).
Proof. intros s. simpl. reflexivity. Qed.
Lemma moves_lift {A} (r : res E A) : moves (lift r).
Proof. intros s. simpl. reflexivity. Qed.
End Moves.

Lemma sm_bind_inv {S E A B} (m : SM S E A) (f : A -> SM S E B) s s' b :
  (m ≫= f) s = (s', Ok b) -> exists s1 a, m s = (s1, Ok a) /\ f a s1 = (s', Ok b).
Proof. unfold mbind, sm_bind. destruct (m s) as [s1 [a|e|]]; try done. eauto. Qed.

(** ** Intervals *)
Section Intervals.
Definition tx_start (i : BiTemporalInterval) : HybridTimestamp := start (transaction_time i).
Definition tx_end (i : BiTemporalInterval) : HybridTimestamp := end_ (transaction_time i).

Lemma close_at_inv r e r' : Range.close_at r e = Ok r' -> r' = mkRange (start r) e.
Proof. unfold Range.close_at. do 2 (case_goal; [done|]). by intros [= <-]. Qed.

Lemma from_inv t r : Range.from t = Ok r -> r = mkRange t TIMESTAMP_MAX.
Proof. unfold Range.from, Range.new. repeat case_goal; congruence. Qed.

Lemma with_valid_time_ok vf c i :
  BiTemporal.with_valid_time vf c = Ok i -> i = mkInterval (mkRange vf TIMESTAMP_MAX) (mkRange c TIMESTAMP_MAX).
Proof.
  unfold BiTemporal.with_valid_time. intros (r1 & H1 & (r2 & H2 & [= <-])%bind_ok)%bind_ok.
  by apply from_inv in H1 as ->; apply from_inv in H2 as ->.
Qed.

Lemma close_valid_time_ok i e i' :
  BiTemporal.close_valid_time i e = Ok i' ->
  i' = mkInterval (mkRange (start (valid_time i)) e) (transaction_time i).
Proof.
  unfold BiTemporal.close_valid_time. intros (r & Hr & [= <-])%bind_ok. by apply close_at_inv in Hr as ->.
Qed.

Lemma close_transaction_time_ok i e i' :
  BiTemporal.close_transaction_time i e = Ok i' ->
  i' = mkInterval (valid_time i) (mkRange (tx_start i) e).
Proof.
  unfold BiTemporal.close_transaction_time. intros (r & Hr & [= <-])%bind_ok. by apply close_at_inv in Hr as ->.
Qed.

Lemma temporal_err_ok {A} (r : res TemporalError A) a : History.temporal_err r = Ok a -> r = Ok a.
Proof. apply map_err_ok. Qed.

Lemma recorded_end i : BiTemporal.is_currently_recorded i = true <-> tx_end i = TIMESTAMP_MAX.
Proof. unfold BiTemporal.is_currently_recorded, Range.is_current. apply ts_eqb_eq. Qed.
End Intervals.

Section Facts.
Import PropMap Prov Delta History Slices.
Context {St : Type} `{Interner St} {X : Type}.
Variable it : St.
Variable config : Config.
Implicit Types (s : Store X) (v : Version X).

Abbreviation reconstruct := (History.reconstruct it config).

(** *** What may happen to a recorded version *)
Record evolves (c : HybridTimestamp) v v' : Prop := mkEvolves {
  ev_id : id v' = id v;
  ev_entity : entity v' = entity v;
  ev_label : label v' = label v;
  ev_ends : ends v' = ends v;
  ev_data : data v' = data v;
  ev_prev : prev_version v' = prev_version v;
  ev_prov : provenance v' = provenance v;
  ev_valid : valid_time (temporal v') = valid_time (temporal v);
  ev_start : tx_start (temporal v') = tx_start (temporal v);
  ev_end : tx_end (temporal v') = tx_end (temporal v) \/
           (tx_end (temporal v) = TIMESTAMP_MAX /\ tx_end (temporal v') = c) }.

Lemma evolves_refl c v : evolves c v v.
Proof. constructor; try done. by left. Qed.
Lemma evolves_trans c v1 v2 v3 : evolves c v1 v2 -> evolves c v2 v3 -> evolves c v1 v3.
Proof.
  intros [] []. constructor; try congruence.
  destruct ev_end0 as [E1|[E1 E1']], ev_end1 as [E2|[E2 E2']]; [left|right|right|right];
    try split; congruence.
Qed.

(** *** Reads survive: a set of versions closed under [prev_version] *)
Definition closed (O : VersionId -> Prop) s : Prop :=
  forall vid, O vid -> exists v, versions s !! vid = Some v /\ forall p, prev_version v = Some p -> O p.

Definition same_links (O : VersionId -> Prop) s s' : Prop :=
  forall vid v, O vid -> versions s !! vid = Some v ->
    exists v', versions s' !! vid = Some v' /\ data v' = data v /\ prev_version v' = prev_version v.

Lemma collect_chain_same O s s' n vid first c :
  closed O s -> same_links O s s' -> O vid -> collect_chain n s vid first = Ok c ->
  exists c', collect_chain n s' vid first = Ok c' /\ List.map data c' = List.map data c.
Proof.
  intros Hcl Hs. revert vid first c. induction n as [|n IH]; intros vid first c HO; [done|]. simpl.
  destruct (Hcl vid HO) as (v & Hv & Hp). destruct (Hs _ _ HO Hv) as (v' & Hv' & Ed & Ep).
  rewrite Hv, Hv', Ed, Ep. case_goal; [intros [= <-]; exists [v']; simpl; by rewrite Ed|].
  destruct (prev_version v) as [q|]; [|done]. intros (rest & Hr & [= <-])%bind_ok.
  destruct (IH q false rest) as (rest' & Hr' & Em); [by apply Hp|done|].
  exists (v' :: rest'). rewrite Hr'. simpl. by rewrite Ed, Em.
Qed.

Lemma apply_deltas_data (vs vs' : list (Version X)) props : List.map data vs = List.map data vs' -> apply_deltas it vs props = apply_deltas it vs' props.
Proof.
  revert vs' props. induction vs as [|v vs IH]; intros [|v' vs'] props Em; try done.
  cbn [List.map] in Em. injection Em as E1 E2. simpl. rewrite E1. destruct (data v'); [done|by apply IH].
Qed.

Lemma reconstruct_iterative_same O s s' vid p :
  closed O s -> same_links O s s' -> O vid ->
  reconstruct_iterative it config s vid = Ok p -> reconstruct_iterative it config s' vid = Ok p.
Proof.
  intros Hcl Hs HO. unfold reconstruct_iterative. intros (c & Hc & Hp)%bind_ok.
  destruct (collect_chain_same O s s' _ _ _ _ Hcl Hs HO Hc) as (c' & Hc' & Em).
  rewrite Hc'. simpl. apply (f_equal (@rev _)) in Em. rewrite <- !map_rev in Em.
  destruct (rev c) as [|a ds], (rev c') as [|a' ds']; try done. cbn [List.map] in Em. injection Em as E1 E2.
  rewrite E1. destruct (data a); [|done]. by rewrite (apply_deltas_data _ _ _ E2).
Qed.

(** The outcome of [reconstruct], without the cache it fills. *)
Lemma reconstruct_value vid s :
  (reconstruct vid s).2 = match property_cache s !! vid with
                          | Some p => Ok p
                          | None => match anchor_cache s !! vid with
                                    | Some p => Ok p
                                    | None => reconstruct_iterative it config s vid
                                    end
                          end.
Proof. unfold History.reconstruct. repeat case_goal; done. Qed.

Definition reads (O : VersionId -> Prop) s s' : Prop :=
  forall vid p, O vid -> (reconstruct vid s).2 = Ok p -> (reconstruct vid s').2 = Ok p.

Lemma reads_same O s s' :
  closed O s -> same_links O s s' ->
  (forall vid, O vid -> property_cache s' !! vid = property_cache s !! vid /\ anchor_cache s' !! vid = anchor_cache s !! vid) ->
  reads O s s'.
Proof.
  intros Hcl Hs Hc vid p HO. rewrite !reconstruct_value. destruct (Hc vid HO) as [-> ->].
  case_goal; [done|]. case_goal; [done|]. by apply (reconstruct_iterative_same O).
Qed.

(** The store moves from [s] to [s'] at commit [c]; new ids are among [ids]. *)
Record grows (c : HybridTimestamp) (ids : list VersionId) s s' : Prop := mkGrows {
  gr_keep : forall vid v, vid ∉ ids -> versions s !! vid = Some v ->
              exists v', versions s' !! vid = Some v' /\ evolves c v v';
  gr_from : forall vid v', versions s' !! vid = Some v' ->
              (vid ∈ ids /\ tx_start (temporal v') = c) \/
              exists v, versions s !! vid = Some v /\ evolves c v v';
  gr_reads : forall O, (forall vid, vid ∈ ids -> ~ O vid) -> closed O s -> reads O s s' }.

Lemma grows_closed c ids s s' O :
  grows c ids s s' -> (forall vid, vid ∈ ids -> ~ O vid) -> closed O s -> closed O s'.
Proof.
  intros G Hi Hcl vid HO. destruct (Hcl vid HO) as (v & Hv & Hp).
  destruct (gr_keep _ _ _ _ G vid v) as (v' & Hv' & Ev); [by intros ?%Hi|done|].
  exists v'. split; [done|]. by rewrite (ev_prev _ _ _ Ev).
Qed.

#[export] Instance grows_refl c ids : Reflexive (grows c ids).
Proof. intros s. constructor; [|right|by intros ????]; eauto using evolves_refl. Qed.
#[export] Instance grows_trans c ids : Transitive (grows c ids).
Proof.
  intros s1 s2 s3 G1 G2. pose proof G1 as [K1 F1 R1]. destruct G2 as [K2 F2 R2]. constructor.
  - intros vid v Hn Hv. destruct (K1 _ _ Hn Hv) as (v2 & Hv2 & E1).
    destruct (K2 _ _ Hn Hv2) as (v3 & ? & E2). eauto using evolves_trans.
  - intros vid v3 Hv3. destruct (F2 _ _ Hv3) as [?|(v2 & Hv2 & E2)]; [by left|].
    destruct (F1 _ _ Hv2) as [[? E]|(v1 & ? & E1)]; [|right; eauto using evolves_trans].
    left. split; [done|]. by rewrite (ev_start _ _ _ E2).
  - intros O Hi Hcl vid p HO Hr. apply (R2 O); [done|by eapply grows_closed|done|]. by apply (R1 O).
Qed.

Lemma grows_unchanged c ids s s' :
  versions s' = versions s -> property_cache s' = property_cache s -> anchor_cache s' = anchor_cache s ->
  grows c ids s s'.
Proof.
  intros E Ep Ea. constructor; rewrite ?E; [|right|]; eauto using evolves_refl.
  intros O _ Hcl. apply reads_same; [done| |by rewrite Ep, Ea].
  intros vid v _ Hv. rewrite E. eauto.
Qed.

Lemma reconstruct_iterative_versions s s' vid :
  versions s' = versions s -> reconstruct_iterative it config s' vid = reconstruct_iterative it config s vid.
Proof.
  intros E. unfold reconstruct_iterative.
  assert (forall n w first, collect_chain n s' w first = collect_chain n s w first) as ->; [|done].
  intros n. induction n as [|n IH]; intros w first; [done|]. simpl. rewrite E.
  destruct (versions s !! w) as [v|]; [|done]. destruct (is_anchor (data v)); [done|].
  destruct (prev_version v); [by rewrite IH|done].
Qed.

(** Reading fills the primary cache with the value read. *)
Lemma reconstruct_state vid s :
  (reconstruct vid s).1 = s \/
  exists p, (reconstruct vid s).2 = Ok p /\
    (reconstruct vid s).1 = set_caches (<[vid := p]> (property_cache s)) (anchor_cache s) s.
Proof.
  unfold History.reconstruct. destruct (property_cache s !! vid); [by left|].
  destruct (anchor_cache s !! vid); [right; eauto|]. destruct (reconstruct_iterative _ _ s vid); [right|left..]; eauto.
Qed.

Lemma reconstruct_stable vid s w : (reconstruct w (reconstruct vid s).1).2 = (reconstruct w s).2.
Proof.
  destruct (reconstruct_state vid s) as [->|(p & Hp & ->)]; [done|].
  destruct (decide (w = vid)) as [->|Hne].
  - rewrite Hp, reconstruct_value. simpl. by rewrite lookup_insert_eq.
  - rewrite !reconstruct_value. simpl. rewrite lookup_insert_ne by done.
    by rewrite (reconstruct_iterative_versions s (set_caches _ _ s)).
Qed.

Lemma grows_reconstruct c ids vid s : grows c ids s (reconstruct vid s).1.
Proof.
  assert (versions (reconstruct vid s).1 = versions s) as E.
  { unfold History.reconstruct. by repeat case_goal. }
  constructor; rewrite ?E; [|right|]; eauto using evolves_refl.
  intros O _ _ w p _ Hr. by rewrite reconstruct_stable.
Qed.

Lemma grows_insert_old c ids s s' vid v v' :
  versions s !! vid = Some v -> evolves c v v' -> versions s' = <[vid := v']> (versions s) ->
  property_cache s' = property_cache s -> anchor_cache s' = anchor_cache s -> grows c ids s s'.
Proof.
  intros Hv Hev E Ep Ea.
  assert (forall j w, versions s !! j = Some w -> exists w', versions s' !! j = Some w' /\ evolves c w w') as K.
  { intros j w Hw. rewrite E. destruct (decide (j = vid)) as [->|].
    + rewrite lookup_insert_eq. exists v'. split; [done|]. by simplify_eq.
    + rewrite lookup_insert_ne by done. eauto using evolves_refl. }
  constructor; [auto| |].
  - intros j w. rewrite E. destruct (decide (j = vid)) as [->|].
    + rewrite lookup_insert_eq. intros [= <-]. right. eauto.
    + rewrite lookup_insert_ne by done. right. eauto using evolves_refl.
  - intros O _ Hcl. apply reads_same; [done| |by rewrite Ep, Ea].
    intros j w _ (w' & ? & [])%K. eauto.
Qed.

Lemma grows_insert_new c ids s s' vid v' :
  vid ∈ ids -> tx_start (temporal v') = c -> versions s' = <[vid := v']> (versions s) ->
  (forall j, j <> vid -> property_cache s' !! j = property_cache s !! j /\ anchor_cache s' !! j = anchor_cache s !! j) ->
  grows c ids s s'.
Proof.
  intros Hin Hc E Hca. constructor.
  - intros j w Hj Hw. rewrite E, lookup_insert_ne by congruence. eauto using evolves_refl.
  - intros j w. rewrite E. destruct (decide (j = vid)) as [->|].
    + rewrite lookup_insert_eq. intros [= <-]. by left.
    + rewrite lookup_insert_ne by done. right. eauto using evolves_refl.
  - intros O Hi Hcl. apply reads_same; [done| |].
    + intros j w HO Hw. rewrite E, lookup_insert_ne; [eauto|]. intros <-. by apply (Hi vid).
    + intros j HO. apply Hca. intros ->. by apply (Hi vid).
Qed.

(** *** Each primitive *)
Lemma closed_evolves c v t :
  BiTemporal.is_currently_recorded (temporal v) = true ->
  BiTemporal.close_transaction_time (temporal v) c = Ok t -> evolves c v (with_temporal t v).
Proof.
  intros Hr ->%close_transaction_time_ok. constructor; try done. right. by apply recorded_end in Hr.
Qed.

Lemma link_evolves prev vid t prev' r :
  close_previous_version_intervals prev vid t = (prev', r) -> evolves (tx_start t) prev prev'.
Proof.
  unfold close_previous_version_intervals. case_goal.
  - apply andb_true_iff in Heqb as [Hr _].
    destruct (BiTemporal.close_transaction_time _ _) as [i|e|] eqn:E; intros [= <- <-].
    + apply (evolves_trans _ _ (with_next (Some vid) prev)); [constructor; try done; by left|].
      by apply closed_evolves.
    + constructor; try done. by left.
    + constructor; try done. by left.
  - intros [= <- <-]. constructor; try done. by left.
Qed.

Lemma grows_track c ids e vid s : grows c ids s (track_slice_if_open e vid s).
Proof. unfold track_slice_if_open. repeat case_goal; by apply grows_unchanged. Qed.

Lemma grows_ids c ids ids' s s' : ids ⊆ ids' -> grows c ids s s' -> grows c ids' s s'.
Proof.
  intros Hs [K F R]. constructor.
  - intros vid v Hn. apply K. set_solver.
  - intros vid v' [[? ?]|?]%F; [left; split; [set_solver|done]|by right].
  - intros O Hi. apply R. intros vid ?. apply Hi. set_solver.
Qed.

(** Nothing new in the store, the same heads. *)
Definition stays (c : HybridTimestamp) s s' : Prop := grows c [] s s' /\ version_heads s' = version_heads s.
#[export] Instance stays_refl c : Reflexive (stays c).
Proof. intros s. split; reflexivity. Qed.
#[export] Instance stays_trans c : Transitive (stays c).
Proof. intros s1 s2 s3 [] []. split; etrans; done. Qed.

Lemma reconstruct_stays c vid : moves (stays c) (reconstruct vid).
Proof.
  intros s. split; [apply grows_reconstruct|]. by destruct (reconstruct_state vid s) as [->|(p & _ & ->)].
Qed.
(** *** Appending *)
Variable ptr_eq : PropertyValue -> PropertyValue -> bool.
Variable map_ptr_eq : PropertyMap -> PropertyMap -> bool.
Variable pre_anchor_hooks : Z -> HybridTimestamp -> PropertyMap -> option Z.
Abbreviation add := (add_version_with_interval it ptr_eq map_ptr_eq config pre_anchor_hooks).

Lemma create_moves c ids e vid t lbl en props prev :
  moves (grows c ids) (create_version it ptr_eq map_ptr_eq config e vid t lbl en props prev).
Proof.
  intros s. unfold create_version. destruct prev as [p|]; [|by apply grows_unchanged]. destruct (versions s !! p); [|done].
  case_goal; [by apply grows_unchanged|]. unfold mbind, sm_bind. pose proof (grows_reconstruct c ids p s) as Hr.
  destruct (reconstruct p s) as [s1 [a|err|]]; [|done..]. simpl in *. etrans; [done|by apply grows_unchanged].
Qed.

(** What [create_version] and the hooks leave of their arguments. *)
Lemma create_fields e vid t lbl en props prev s s1 v :
  create_version it ptr_eq map_ptr_eq config e vid t lbl en props prev s = (s1, Ok v) ->
  id v = vid /\ entity v = e /\ temporal v = t /\ label v = lbl /\ ends v = en /\ prev_version v = prev.
Proof.
  unfold create_version. destruct prev as [p|]; [|by intros [= <- <-]].
  destruct (versions s !! p); [|done]. case_goal; [by intros [= <- <-]|].
  intros (s2 & old & _ & [= <- <-])%sm_bind_inv. done.
Qed.

Lemma run_hooks_fields s t props v :
  let v' := run_hooks pre_anchor_hooks s t props v in
  id v' = id v /\ entity v' = entity v /\ temporal v' = temporal v /\ label v' = label v /\
  ends v' = ends v /\ prev_version v' = prev_version v /\ provenance v' = provenance v /\
  is_anchor (data v') = is_anchor (data v).
Proof.
  unfold run_hooks. case_goal; [|done]. case_goal; [|done]. simpl. split_and!; try done.
  by destruct (data v).
Qed.

Lemma link_moves c ids e vid t prev :
  tx_start t = c -> moves (grows c ids) (link_previous e vid t prev).
Proof.
  intros Ht s. unfold link_previous. destruct prev as [p|]; [|reflexivity].
  destruct (versions s !! p) as [v|] eqn:Ev; [|reflexivity].
  destruct (close_previous_version_intervals v vid t) as [v' r] eqn:Ec. apply link_evolves in Ec.
  rewrite Ht in Ec. simpl. transitivity (set_versions (<[p := v']> (versions s)) s).
  { by apply (grows_insert_old _ _ _ _ p v v'). }
  destruct r; [apply grows_track|done..].
Qed.

Lemma create_stays c e vid t lbl en props prev :
  moves (stays c) (create_version it ptr_eq map_ptr_eq config e vid t lbl en props prev).
Proof.
  intros s. split; [apply create_moves|]. unfold create_version. destruct prev as [p|]; [|done].
  destruct (versions s !! p); [|done]. case_goal; [done|]. unfold mbind, sm_bind.
  pose proof (reconstruct_stays c p s) as [_ E]. by destruct (reconstruct p s) as [s1 [a|err|]].
Qed.
Lemma link_stays c e vid t prev : tx_start t = c -> moves (stays c) (link_previous e vid t prev).
Proof.
  intros Ht s. split; [by apply link_moves|]. unfold link_previous, track_slice_if_open.
  destruct prev; [|done]. destruct (versions s !! v); [|done].
  destruct (close_previous_version_intervals _ _ _) as [v' [[]|?|]]; [|done..]. simpl. by repeat case_goal.
Qed.

(** An append fails without a new version, or ends by storing one. *)
Lemma add_split e vid t lbl en props prov s :
  let c := tx_start t in
  match add e vid t lbl en props prov s with
  | (s', Ok _) => exists s2 v, stays c s s2 /\ s' = store_version e vid v props s2 /\
      id v = vid /\ entity v = e /\ temporal v = t /\ label v = lbl /\ ends v = en /\
      provenance v = prov /\ prev_version v = version_heads s !! e
  | (s', _) => stays c s s'
  end.
Proof.
  intros c. unfold add_version_with_interval. case_goal; [by split|]. unfold mbind, sm_bind.
  pose proof (create_stays c e vid t lbl en props (version_heads s !! e) s) as Hcv.
  destruct (create_version _ _ _ _ _ _ _ _ _ _ _ _) as [s1 [v|err|]] eqn:Ec; [|done..].
  apply create_fields in Ec as (E1 & E2 & E3 & E4 & E5 & E6). simpl in Hcv.
  pose proof (run_hooks_fields s1 t props (with_provenance prov v)) as (F1 & F2 & F3 & F4 & F5 & F6 & F7 & _).
  set (v1 := run_hooks _ _ _ _ _) in *.
  pose proof (link_stays c e vid t (version_heads s !! e) eq_refl s1) as Hl.
  destruct (link_previous e vid t (version_heads s !! e) s1) as [s2 [u|err|]]; simpl in Hl; [|by etrans..].
  exists s2, v1. split; [by etrans|]. split; [done|]. split_and!; [rewrite F1|rewrite F2|rewrite F3|rewrite F4|rewrite F5|rewrite F7|rewrite F6]; done.
Qed.

Lemma store_grows e vid v props s : grows (tx_start (temporal v)) [vid] s (store_version e vid v props s).
Proof.
  apply (grows_insert_new _ _ _ _ vid v); [by apply list_elem_of_singleton|done..|].
  intros j Hj. simpl. rewrite lookup_insert_ne by done. split; [done|]. case_goal; [|done]. by rewrite lookup_insert_ne.
Qed.

Lemma close_version_moves c ids vid s :
  match versions s !! vid with Some v => BiTemporal.is_currently_recorded (temporal v) = true | None => True end ->
  grows c ids s (close_version_transaction_time (X := X) vid c s).1.
Proof.
  unfold close_version_transaction_time. destruct (versions s !! vid) as [v|] eqn:Ev; [|done]. intros Hr.
  destruct (BiTemporal.close_transaction_time _ _) as [t|e|] eqn:Et; [|done..].
  by eapply grows_insert_old; [exact Ev|eapply closed_evolves|..].
Qed.

Lemma close_recorded_moves c ids l : moves (grows c ids) (close_recorded (X := X) l c).
Proof.
  induction l as [|vid l IH]; [by apply moves_ret; apply _|]. intros s. cbn [close_recorded].
  unfold mbind, sm_bind at 1. cbn [get_store].
  pose proof (close_version_moves c ids vid s) as Hc.
  destruct (versions s !! vid) as [v|] eqn:Ev; [destruct (BiTemporal.is_currently_recorded (temporal v))|].
  - specialize (Hc eq_refl). unfold sm_bind.
    destruct (close_version_transaction_time vid c s) as [s1 [[]|e|]]; try done. simpl in Hc. etrans; [done|apply IH].
  - apply IH.
  - apply IH.
Qed.
(** Intervals the operations build start at the commit. *)
Lemma interval_ok (vf c : HybridTimestamp) t (o : option HybridTimestamp) t' :
  temporal_err (BiTemporal.with_valid_time vf c) = Ok t ->
  (match o with Some e => temporal_err (BiTemporal.close_valid_time t e) | None => Ok t end) = Ok t' ->
  t' = mkInterval (mkRange vf (default TIMESTAMP_MAX o)) (mkRange c TIMESTAMP_MAX).
Proof.
  intros ->%temporal_err_ok%with_valid_time_ok. destruct o; [|by intros [= <-]].
  by intros ->%temporal_err_ok%close_valid_time_ok.
Qed.

Lemma gather_carry_id plan o s s' p :
  gather_carry it config plan o s = (s', Ok (Some p)) -> o = Some p.1.1.1.1.
Proof.
  unfold gather_carry. destruct (predecessor plan); [|done]. destruct (carry_from plan); [|done].
  intros (s1 & a1 & _ & H1)%sm_bind_inv. apply sm_bind_inv in H1 as (s2 & a2 & _ & H2).
  apply sm_bind_inv in H2 as (s3 & a3 & _ & H3). apply sm_bind_inv in H3 as (s4 & id & Hr & [= _ <-]).
  injection Hr as _ Hr. by destruct o; simplify_eq/=.
Qed.
Lemma gather_reassert_id plan o s s' p :
  gather_reassert it config plan o s = (s', Ok (Some p)) -> o = Some p.1.1.1.1.
Proof.
  unfold gather_reassert. destruct (reassert plan); [|done].
  intros (s1 & a1 & _ & H1)%sm_bind_inv. apply sm_bind_inv in H1 as (s2 & a2 & _ & H2).
  apply sm_bind_inv in H2 as (s3 & a3 & _ & H3). apply sm_bind_inv in H3 as (s4 & id & Hr & [= _ <-]).
  injection Hr as _ Hr. by destruct o; simplify_eq/=.
Qed.

End Facts.
