(* ===== verification/Chains.v ===== *)
(** * Version chains and time travel

    The chain of an entity runs from its head through [prev_version] over all its
    versions; every operation only puts new versions in front of it.  Point-in-time
    lookup is the first visible version of the chain, so what was recorded before a
    commit answers every query at an earlier transaction time for ever. *)

From S2P Require Import Prelude.
From S2P Require Import Bytes.
From S2P Require Import Errors.
From S2P Require Import Hlc.
From S2P Require Import Temporal.
From S2P Require Import Ids.
From S2P Require Import Interning.
From S2P Require Import Property.
From S2P Require Import PropMap.
From S2P Require Import Provenance.
From S2P Require Import Delta.
From S2P Require Import History.
From S2P Require Import Slices.
From S2P Require Import HistoryFacts.

Section Chains.
Import PropMap Prov Delta History Slices.
Context {X : Type}.
Implicit Types (s : Store X) (v : Version X).

Inductive chain s : option VersionId -> list VersionId -> Prop :=
  | chain_nil : chain s None []
  | chain_cons vid v l : versions s !! vid = Some v -> chain s (prev_version v) l -> chain s (Some vid) (vid :: l).

(** [l] is the history of entity [e], newest first. *)
Record history s (e : Z) (l : list VersionId) : Prop := mkHistory {
  hi_chain : chain s (version_heads s !! e) l;
  hi_mem : forall vid, vid ∈ l <-> exists v, versions s !! vid = Some v /\ entity v = e }.

Definition ids_ok s : Prop := forall vid v, versions s !! vid = Some v -> id v = vid.

Lemma chain_det s o l l' : chain s o l -> chain s o l' -> l = l'.
Proof.
  intros H. revert l'. induction H as [|vid v l Hv Hc IH]; intros l' H'; inversion H'; simplify_eq; [done|].
  f_equal. by apply IH.
Qed.
Lemma chain_suffix s o l1 vid l2 : chain s o (l1 ++ vid :: l2) -> chain s (Some vid) (vid :: l2).
Proof.
  revert o. induction l1 as [|w l1 IH]; intros o Hc; [inversion Hc; subst; by econstructor|].
  inversion Hc; subst. eauto.
Qed.
Lemma chain_nodup s o l : chain s o l -> NoDup l.
Proof.
  induction 1 as [|vid v l Hv Hc IH]; [constructor|]. constructor; [|done].
  intros (l1 & l2 & ->)%list_elem_of_split. pose proof (chain_suffix _ _ _ _ _ Hc) as Hs.
  assert (chain s (Some vid) (vid :: l1 ++ vid :: l2)) as Ht by by econstructor.
  pose proof (chain_det _ _ _ _ Hs Ht) as E. apply (f_equal length) in E. simpl in E. rewrite length_app in E.
  simpl in E. lia.
Qed.
Lemma chain_hot s o l vid : chain s o l -> vid ∈ l -> is_Some (versions s !! vid).
Proof. induction 1; [by intros ?%not_elem_of_nil|]. intros [->|?]%elem_of_cons; eauto. Qed.
Lemma chain_length s o l : chain s o l -> (length l <= size (versions s))%nat.
Proof.
  intros Hc. pose proof (chain_nodup _ _ _ Hc) as Hnd. rewrite <- (size_list_to_set (C := gset VersionId) l Hnd).
  rewrite <- (size_dom (D := gset VersionId)). apply subseteq_size. intros vid Hin%elem_of_list_to_set.
  apply elem_of_dom. by eapply chain_hot.
Qed.

(** *** Lookup in a chain *)
Definition visible s (vt tt : HybridTimestamp) (vid : VersionId) : bool :=
  match versions s !! vid with Some v => BiTemporal.is_visible_at (temporal v) vt tt | None => false end.

Lemma find_loop_spec s o l vt tt n :
  chain s o l -> (length l < n)%nat ->
  match o with Some h => find_loop n s h vt tt | None => None end = head (filter (visible s vt tt) l).
Proof.
  intros Hc. revert n. induction Hc as [|vid v l Hv Hc IH]; intros n Hn; [done|].
  destruct n as [|n]; [simpl in Hn; lia|]. simpl in Hn. cbn [find_loop]. rewrite Hv.
  destruct (BiTemporal.is_visible_at (temporal v) vt tt) eqn:E.
  - rewrite filter_cons_True; [done|]. unfold visible. by rewrite Hv, E.
  - rewrite filter_cons_False; [|unfold visible; rewrite Hv, E; intros []].
    rewrite <- (IH n) by lia. by destruct (prev_version v).
Qed.

Lemma find_spec s e l vt tt :
  history s e l -> find_version_at_time s e vt tt = head (filter (visible s vt tt) l).
Proof.
  intros [Hc _]. pose proof (chain_length _ _ _ Hc). unfold find_version_at_time.
  rewrite <- (find_loop_spec _ _ _ _ _ (S (S (size (versions s)))) Hc) by lia. done.
Qed.

(** *** What an operation does to every history *)
Definition fresh (ids : list VersionId) s : Prop := Forall (fun i => versions s !! i = None) ids.

End Chains.

Section Steps.
Import PropMap Prov Delta History Slices.
Context {St : Type} `{Interner St} {X : Type}.
Variable it : St.
Variable config : Config.
Implicit Types (s : Store X) (v : Version X).

Abbreviation grows := (HistoryFacts.grows (X := X) it config).
Abbreviation stays := (HistoryFacts.stays (X := X) it config).

Record extends (c : HybridTimestamp) (ids : list VersionId) s s' : Prop := mkExtends {
  ex_grows : grows c ids s s';
  ex_history : forall e l, history s e l -> exists l', history s' e (l' ++ l) /\ l' ⊆ ids;
  ex_ids : ids_ok s -> ids_ok s' }.

Lemma chain_grows c ids s s' o l :
  grows c ids s s' -> (forall vid, vid ∈ l -> vid ∉ ids) -> chain s o l -> chain s' o l.
Proof.
  intros G Hn. induction 1 as [|vid v l Hv Hc IH]; [constructor|].
  destruct (gr_keep _ _ _ _ _ _ G vid v) as (v' & Hv' & Ev); [apply Hn; set_solver|done|].
  apply (chain_cons _ _ v'); [done|]. rewrite (ev_prev _ _ _ Ev). apply IH. intros w Hw. apply Hn. set_solver.
Qed.

Lemma stays_history c s s' e l : stays c s s' -> history s e l -> history s' e l.
Proof.
  intros [G E] [Hc Hm]. constructor.
  - rewrite E. eapply chain_grows; [done| |done]. set_solver.
  - intros vid. rewrite Hm. split.
    + intros (v & Hv & He). destruct (gr_keep _ _ _ _ _ _ G vid v) as (v' & Hv' & Ev); [set_solver|done|].
      exists v'. split; [done|]. by rewrite (ev_entity _ _ _ Ev).
    + intros (v' & Hv' & He). destruct (gr_from _ _ _ _ _ _ G _ _ Hv') as [[? _]|(v & Hv & Ev)]; [set_solver|].
      exists v. split; [done|]. by rewrite <- (ev_entity _ _ _ Ev).
Qed.

Lemma stays_extends c ids s s' : stays c s s' -> extends c ids s s'.
Proof.
  intros Hst. pose proof Hst as [G E]. constructor.
  - apply (grows_ids it config c []); [set_solver|done].
  - intros e l Hl. exists []. split; [by eapply stays_history|set_solver].
  - intros Hid vid v' Hv'. destruct (gr_from _ _ _ _ _ _ G _ _ Hv') as [[? _]|(v & Hv & Ev)]; [set_solver|].
    rewrite (ev_id _ _ _ Ev). by apply Hid.
Qed.

Lemma extends_trans c ids1 ids2 ids s1 s2 s3 :
  ids1 ⊆ ids -> ids2 ⊆ ids -> extends c ids1 s1 s2 -> extends c ids2 s2 s3 -> extends c ids s1 s3.
Proof.
  intros H1 H2 [G1 L1 I1] [G2 L2 I2]. constructor; [|intros e l Hl|auto].
  - transitivity s2; [apply (grows_ids it config c ids1)|apply (grows_ids it config c ids2)]; done.
  - destruct (L1 _ _ Hl) as (l' & Hl' & ?). destruct (L2 _ _ Hl') as (l'' & Hl'' & ?).
    exists (l'' ++ l'). rewrite <- app_assoc. split; [done|set_solver].
Qed.

(** Storing a new version puts it in front of its entity's history. *)
Lemma store_extends e vid v props s :
  versions s !! vid = None -> id v = vid -> entity v = e -> prev_version v = version_heads s !! e ->
  extends (tx_start (temporal v)) [vid] s (store_version e vid v props s).
Proof.
  intros Hf Hi He Hp. pose proof (store_grows it config e vid v props s) as G. constructor; [done| |].
  - intros e' l [Hc Hm].
    assert (forall w, w ∈ l -> w <> vid) as Hne.
    { intros w (v0 & Hv0 & _)%Hm ->. by rewrite Hf in Hv0. }
    assert (chain (store_version e vid v props s) (version_heads s !! e') l) as Hc'.
    { eapply chain_grows; [done| |done]. intros w Hw ->%list_elem_of_singleton. by apply (Hne vid). }
    assert (forall w, w <> vid -> versions (store_version e vid v props s) !! w = versions s !! w) as Hold.
    { intros w Hw. simpl. by rewrite lookup_insert_ne. }
    destruct (decide (e' = e)) as [->|Hee].
    + exists [vid]. split; [|set_solver]. constructor; cbn [store_version version_heads].
      * rewrite lookup_insert_eq. apply (chain_cons _ _ v); [simpl; by rewrite lookup_insert_eq|]. by rewrite Hp.
      * intros w. rewrite elem_of_app, list_elem_of_singleton. destruct (decide (w = vid)) as [->|Hw].
        { split; [|by left]. intros _. exists v. simpl. by rewrite lookup_insert_eq. }
        rewrite Hold, <- Hm by done. naive_solver.
    + exists []. split; [|set_solver]. constructor; cbn [store_version version_heads].
      * by rewrite lookup_insert_ne.
      * intros w. rewrite app_nil_l. destruct (decide (w = vid)) as [->|Hw]; [|by rewrite Hold, <- Hm by done].
        split; [by intros ?%Hne|]. intros (v0 & Hv0 & He0). simpl in Hv0. rewrite lookup_insert_eq in Hv0. congruence.
  - intros Hid w v'. simpl. destruct (decide (w = vid)) as [->|Hw].
    + rewrite lookup_insert_eq. by intros [= <-].
    + rewrite lookup_insert_ne by done. apply Hid.
Qed.

(** *** Operations that extend the histories with fresh ids *)
Definition step (c : HybridTimestamp) (ids : list VersionId) {A} (m : SM (Store X) Error A) : Prop :=
  forall s, fresh ids s -> extends c ids s (m s).1.

Lemma step_stays c {A} (m : SM (Store X) Error A) : moves (stays c) m -> step c [] m.
Proof. intros Hm s _. apply stays_extends, Hm. Qed.

Lemma extends_weaken c ids ids' s s' : ids ⊆ ids' -> extends c ids s s' -> extends c ids' s s'.
Proof.
  intros Hs [G L I]. constructor; [by eapply grows_ids| |done].
  intros e l (l' & ? & ?)%L. exists l'. split; [done|set_solver].
Qed.

Lemma step_weaken c ids ids' {A} (m : SM (Store X) Error A) : ids ⊆ ids' -> step c ids m -> step c ids' m.
Proof.
  intros Hs Hm s Hf. eapply extends_weaken; [done|]. apply Hm.
  apply Forall_forall. intros i Hi. unfold fresh in Hf. rewrite Forall_forall in Hf. auto.
Qed.

Lemma fresh_extends c ids1 ids2 s s' : ids1 ## ids2 -> extends c ids1 s s' -> fresh ids2 s -> fresh ids2 s'.
Proof.
  intros Hd [G _ _] Hf. unfold fresh in *. rewrite !Forall_forall in *. intros i Hi.
  destruct (versions s' !! i) as [v'|] eqn:Ev; [|done].
  destruct (gr_from _ _ _ _ _ _ G _ _ Ev) as [[? _]|(v & Hv & _)]; [set_solver|]. by rewrite Hf in Hv.
Qed.

Lemma step_bind c ids1 ids2 {A B} (m : SM (Store X) Error A) (f : A -> SM (Store X) Error B) :
  ids1 ## ids2 -> step c ids1 m -> (forall a, step c ids2 (f a)) -> step c (ids1 ++ ids2) (m ≫= f).
Proof.
  intros Hd Hm Hf s [Hf1 Hf2]%Forall_app. unfold mbind, sm_bind. pose proof (Hm s Hf1) as H1.
  destruct (m s) as [s1 [a|e|]]; simpl in H1 |- *.
  - eapply (extends_trans _ ids1 ids2); [set_solver|set_solver|done|]. apply Hf. by eapply fresh_extends.
  - eapply extends_weaken; [|done]. set_solver.
  - eapply extends_weaken; [|done]. set_solver.
Qed.
(** One step at a later commit: lookups below it see the same version. *)
Lemma visible_evolves c v v' vt tt :
  evolves c v v' -> (tt < c)%ts -> (c <= TIMESTAMP_MAX)%ts ->
  BiTemporal.is_visible_at (temporal v') vt tt = BiTemporal.is_visible_at (temporal v) vt tt.
Proof.
  intros [] Ht Hc. unfold BiTemporal.is_visible_at, BiTemporal.is_valid_at, BiTemporal.is_recorded_at.
  rewrite ev_valid. f_equal. unfold tx_start, tx_end in *. unfold Range.contains. rewrite ev_start. f_equal.
  destruct ev_end as [->|[E1 E2]]; [done|]. rewrite E1, E2.
  apply eq_trans with true; [|symmetry]; apply ts_ltb_lt; [done|]. by eapply ts_lt_le_trans.
Qed.

Lemma find_extends c ids s s' e l vt tt :
  extends c ids s s' -> fresh ids s -> history s e l -> (tt < c)%ts -> (c <= TIMESTAMP_MAX)%ts ->
  find_version_at_time s' e vt tt = find_version_at_time s e vt tt.
Proof.
  intros [G L _] Hfr Hl Ht Hc. destruct (L _ _ Hl) as (l' & Hl' & Hids).
  rewrite (find_spec _ _ _ _ _ Hl), (find_spec _ _ _ _ _ Hl'), filter_app.
  assert (forall w, w ∈ l -> w ∉ ids) as Hold.
  { intros w Hw Hin. apply (hi_mem _ _ _ Hl) in Hw as (v & Hv & _). unfold fresh in Hfr. rewrite Forall_forall in Hfr.
    by rewrite Hfr in Hv. }
  rewrite (filter_none _ l'), app_nil_l.
  - f_equal. apply filter_iff_in. intros w Hw. pose proof (Hold w Hw) as Hn. apply (hi_mem _ _ _ Hl) in Hw as (v & Hv & _).
    destruct (gr_keep _ _ _ _ _ _ G w v Hn Hv) as (v' & Hv' & Ev). unfold visible. rewrite Hv, Hv'.
    by rewrite (visible_evolves c v v').
  - apply Forall_forall. intros w Hw. unfold visible.
    destruct (versions s' !! w) as [v'|] eqn:Ev; [|by intros []].
    destruct (gr_from _ _ _ _ _ _ G _ _ Ev) as [[_ Hs]|(v & Hv & _)].
    + unfold BiTemporal.is_visible_at, BiTemporal.is_recorded_at, Range.contains. unfold tx_start in Hs. rewrite Hs.
      assert (ts_leb c tt = false) as ->; [|rewrite andb_false_r; by intros []].
      unfold ts_leb. apply negb_false_iff. by apply ts_ltb_lt.
    + apply Hids in Hw. unfold fresh in Hfr. rewrite Forall_forall in Hfr. by rewrite Hfr in Hv.
Qed.
Lemma history_closed s e l : history s e l -> closed (fun w => w ∈ l) s.
Proof.
  intros [Hc Hm] w Hw. destruct (chain_hot _ _ _ _ Hc Hw) as [v Hv]. exists v. split; [done|]. intros p Hp.
  apply list_elem_of_split in Hw as (l1 & l2 & ->). apply chain_suffix in Hc. inversion Hc as [|? v' ? Hv' Hc']; subst.
  assert (v' = v) as -> by congruence. rewrite Hp in Hc'. inversion Hc'; subst. set_solver.
Qed.

Lemma entity_at_time_ok nf e vt tt s r :
  (entity_at_time it config nf e vt tt s).2 = Ok r <->
  exists w v, find_version_at_time s e vt tt = Some w /\ versions s !! w = Some v /\
    exists p, (History.reconstruct it config w s).2 = Ok p /\ r = (label v, ends v, p, id v).
Proof.
  unfold entity_at_time. destruct (find_version_at_time s e vt tt) as [w|]; [|naive_solver].
  destruct (versions s !! w) as [v|] eqn:Ev; [|split; [done|intros (w' & v' & [= <-] & Hv' & _); congruence]]. unfold mbind, sm_bind.
  destruct (History.reconstruct it config w s) as [s1 q] eqn:Er. split.
  - intros Hq. exists w, v. do 2 (split; [done|]). rewrite Er. destruct q as [p|err|]; [|done..].
    injection Hq as <-. by exists p.
  - intros (w' & v' & [= <-] & Hv' & p & Hp & ->). rewrite Er in Hp. simpl in Hp. subst q.
    assert (v' = v) as -> by congruence. done.
Qed.

Lemma read_extends c ids s s' e l nf vt tt r :
  extends c ids s s' -> fresh ids s -> history s e l -> (tt < c)%ts -> (c <= TIMESTAMP_MAX)%ts ->
  (entity_at_time it config nf e vt tt s).2 = Ok r -> (entity_at_time it config nf e vt tt s').2 = Ok r.
Proof.
  intros Hx Hfr Hl Ht Hc. rewrite !entity_at_time_ok. intros (w & v & Hw & Hv & p & Hp & ->).
  assert (w ∈ l) as Hin.
  { rewrite (find_spec _ _ _ _ _ Hl) in Hw. apply head_Some_elem_of in Hw. by apply list_elem_of_filter in Hw as [_ ?]. }
  assert (forall i, i ∈ ids -> i ∉ l) as Hold.
  { intros i Hi (v0 & Hv0 & _)%(hi_mem _ _ _ Hl). unfold fresh in Hfr. rewrite Forall_forall in Hfr. by rewrite Hfr in Hv0. }
  destruct (gr_keep _ _ _ _ _ _ (ex_grows _ _ _ _ Hx) w v) as (v' & Hv' & Ev); [by intros ?%Hold|done|].
  exists w, v'. split; [by rewrite (find_extends c ids s s' e l)|]. split; [done|]. exists p.
  rewrite (ev_label _ _ _ Ev), (ev_ends _ _ _ Ev), (ev_id _ _ _ Ev). split; [|done].
  apply (gr_reads _ _ _ _ _ _ (ex_grows _ _ _ _ Hx) (fun w => w ∈ l)); [done|by eapply history_closed|done..].
Qed.

Variable ptr_eq : PropertyValue -> PropertyValue -> bool.
Variable map_ptr_eq : PropertyMap -> PropertyMap -> bool.
Variable pre_anchor_hooks : Z -> HybridTimestamp -> PropertyMap -> option Z.
Abbreviation add := (add_version_with_interval it ptr_eq map_ptr_eq config pre_anchor_hooks).

Lemma step_ret c {A} (a : A) : step c [] (mret (M := SM (Store X) Error) a).
Proof. apply step_stays, moves_ret. apply _. Qed.
Lemma step_lift c {A} (r : res Error A) : step c [] (lift (S := Store X) r).
Proof. apply step_stays, moves_lift. apply _. Qed.
Lemma step_read c vid : step c [] (History.reconstruct it config vid).
Proof. apply step_stays, reconstruct_stays. Qed.
Lemma step_store c ids {A} (f : Store X -> SM (Store X) Error A) : (forall s0, step c ids (f s0)) -> step c ids (get_store ≫= f).
Proof. intros Hf s. apply Hf. Qed.

(** Bind in which one side adds nothing. *)
Lemma step_bind_l c ids {A B} (m : SM (Store X) Error A) (f : A -> SM (Store X) Error B) :
  step c [] m -> (forall a, step c ids (f a)) -> step c ids (m ≫= f).
Proof. intros. apply (step_bind c [] ids); [set_solver|done..]. Qed.
Lemma step_bind_r c ids {A B} (m : SM (Store X) Error A) (f : A -> SM (Store X) Error B) :
  step c ids m -> (forall a, step c [] (f a)) -> step c ids (m ≫= f).
Proof. intros. rewrite <- (app_nil_r ids). apply step_bind; [set_solver|done..]. Qed.

Lemma add_step e vid t lbl en props prov : step (tx_start t) [vid] (add e vid t lbl en props prov).
Proof.
  intros s [Hf _]%Forall_cons. pose proof (add_split it config ptr_eq map_ptr_eq pre_anchor_hooks e vid t lbl en props prov s) as Hs.
  destruct (add e vid t lbl en props prov s) as [s' [u|err|]]; simpl in *; [|by apply stays_extends..].
  destruct Hs as (s2 & v & Hst & -> & E1 & E2 & E3 & _ & _ & _ & E7).
  eapply (extends_trans _ [] [vid]); [set_solver|reflexivity|by apply stays_extends|]. rewrite <- E3.
  apply store_extends; [|done|done|by rewrite (proj2 Hst)].
  destruct (versions s2 !! vid) as [v'|] eqn:Ev; [|done].
  destruct (gr_from _ _ _ _ _ _ (proj1 Hst) _ _ Ev) as [[? _]|(v0 & Hv0 & _)]; [set_solver|congruence].
Qed.

Lemma close_recorded_step c l : step c [] (close_recorded (X := X) l c).
Proof.
  apply step_stays. intros s. split; [apply close_recorded_moves|]. revert s.
  induction l as [|vid l IH]; intros s; [done|]. cbn [close_recorded get_store]. unfold mbind, sm_bind at 1.
  cbn [get_store]. unfold close_version_transaction_time.
  destruct (versions s !! vid) as [v|] eqn:Ev; [|apply IH].
  destruct (BiTemporal.is_currently_recorded _); [|apply IH]. unfold sm_bind. rewrite Ev.
  destruct (BiTemporal.close_transaction_time _ _); [|done..]. etrans; [apply IH|done].
Qed.

(** Intervals the operations build start at the commit. *)
Lemma append_step c ids {A} (vf : HybridTimestamp) (o : option HybridTimestamp) (f : BiTemporalInterval -> SM (Store X) Error A) :
  (forall t, tx_start t = c -> step c ids (f t)) ->
  step c ids
    (t ← lift (temporal_err (BiTemporal.with_valid_time vf c));
     t ← lift (match o with Some e => temporal_err (BiTemporal.close_valid_time t e) | None => Ok t end);
     f t).
Proof.
  intros Hf s Hfr. unfold mbind, sm_bind, lift.
  destruct (temporal_err (BiTemporal.with_valid_time vf c)) as [t|e|] eqn:E1; [|apply stays_extends; reflexivity..].
  destruct (match o with Some e => _ | None => _ end) as [t'|e|] eqn:E2; [|apply stays_extends; reflexivity..].
  apply Hf; [|done]. by rewrite (interval_ok _ _ _ _ _ E1 E2).
Qed.

Lemma append_add_step c {A} (vf : HybridTimestamp) (o : option HybridTimestamp) e vid lbl en props prov
    (k : BiTemporalInterval -> A) :
  step c [vid]
    (t ← lift (temporal_err (BiTemporal.with_valid_time vf c));
     t ← lift (match o with Some e => temporal_err (BiTemporal.close_valid_time t e) | None => Ok t end);
     _ ← add e vid t lbl en props prov; mret (k t)).
Proof.
  apply append_step. intros t <-. apply step_bind_r; [apply add_step|]. intros u. apply step_ret.
Qed.

Lemma append_carry_step c e vf en carry o :
  (forall p, carry = Some p -> o = Some p.1.1.1.1) ->
  step c (option_list o) (append_carry it ptr_eq map_ptr_eq config pre_anchor_hooks e vf c en carry).
Proof.
  intros Hin. destruct carry as [[[[[id from] lbl] props] prov]|].
  - rewrite (Hin _ eq_refl). apply (append_add_step c from (Some vf)).
  - apply (step_weaken c []); [set_solver|apply step_ret].
Qed.
Lemma append_new_step c e plan vf vid lbl en props prov :
  step c [vid] (append_new it ptr_eq map_ptr_eq config pre_anchor_hooks e plan vf c vid lbl en props prov).
Proof. apply (append_add_step c vf (new_valid_to plan)). Qed.
Lemma append_reassert_step c e en re o :
  (forall p, re = Some p -> o = Some p.1.1.1.1) ->
  step c (option_list o) (append_reassert it ptr_eq map_ptr_eq config pre_anchor_hooks e c en re).
Proof.
  intros Hin. destruct re as [[[[[id from] lbl] props] prov]|].
  - rewrite (Hin _ eq_refl). apply (append_add_step c from None).
  - apply (step_weaken c []); [set_solver|apply step_ret].
Qed.

Ltac step_nil :=
  first [ apply step_read | apply step_ret | apply step_lift
        | apply step_store; intros ? | apply step_bind_l; [|intros ?] ].

Lemma gather_carry_step c plan o : step c [] (gather_carry it config plan o).
Proof. unfold gather_carry. repeat (case_goal; [|by step_nil]). repeat step_nil. Qed.
Lemma gather_reassert_step c plan o : step c [] (gather_reassert it config plan o).
Proof. unfold gather_reassert. case_goal; [|by step_nil]. repeat step_nil. Qed.

Definition update_ids (vid : VersionId) (o1 o2 : option VersionId) : list VersionId :=
  option_list o1 ++ vid :: option_list o2.

(** Sequencing that remembers how the first result came about. *)
Lemma step_bind_eq c ids {A B} (m : SM (Store X) Error A) (f : A -> SM (Store X) Error B) :
  step c [] m -> (forall s s' a, m s = (s', Ok a) -> step c ids (f a)) -> step c ids (m ≫= f).
Proof.
  intros Hm Hf s Hfr. unfold mbind, sm_bind. assert (extends c [] s (m s).1) as H1 by (apply Hm; constructor).
  destruct (m s) as [s1 [a|e|]] eqn:E; simpl in H1 |- *; [|by eapply extends_weaken; [|done]; set_solver..].
  eapply (extends_trans _ [] ids); [set_solver|done|done|]. eapply Hf; [done|]. by eapply (fresh_extends c []); [set_solver|..].
Qed.

Lemma apply_update_step c e plan vf vid lbl en props prov o1 o2 :
  NoDup (update_ids vid o1 o2) ->
  step c (update_ids vid o1 o2)
    (apply_update it ptr_eq map_ptr_eq config pre_anchor_hooks e plan vf c vid lbl en props prov o1 o2).
Proof.
  intros (_ & Hd1 & (Hv & _)%NoDup_cons)%NoDup_app. unfold apply_update. apply step_store. intros s0.
  apply step_bind_l; [step_nil|intros _].
  apply step_bind_eq; [apply gather_carry_step|intros sa sa' carry E1].
  apply step_bind_eq; [apply gather_reassert_step|intros sb sb' re E2].
  apply step_store. intros s1. apply step_bind_l; [apply close_recorded_step|intros _].
  apply (step_bind c (option_list o1) (vid :: option_list o2)); [by intros i ?%Hd1| |intros a1].
  { apply append_carry_step. intros p ->. by eapply gather_carry_id. }
  apply (step_bind c [vid] (option_list o2)); [set_solver|apply append_new_step|intros a2].
  apply step_bind_r; [|intros [a3 r]; step_nil].
  apply append_reassert_step. intros p ->. by eapply gather_reassert_id.
Qed.
(** *** Runs of the write path *)

(** What a commit does to the history of an entity: an append (a creation, or a
    tombstone), an update by its plan, a retraction, the closing of every slice. *)
Inductive write :=
  | WAdd (e : Z) (vid : VersionId) (vf : HybridTimestamp) (lbl : Z) (en : X) (props : PropertyMap)
      (is_tombstone : bool) (prov : option Provenance)
  | WUpdate (e : Z) (vf : HybridTimestamp) (vid : VersionId) (lbl : Z) (en : X) (props : PropertyMap)
      (prov : option Provenance) (carry_id reassert_id : option VersionId)
  | WRetract (e : Z) (vid : VersionId) (vf vt : HybridTimestamp) (lbl : Z) (en : X) (props : PropertyMap)
      (prov : option Provenance)
  | WCloseAll (e : Z).

Definition write_ids (w : write) : list VersionId :=
  match w with
  | WAdd _ vid _ _ _ _ _ _ | WRetract _ vid _ _ _ _ _ _ => [vid]
  | WUpdate _ _ vid _ _ _ _ o1 o2 => update_ids vid o1 o2
  | WCloseAll _ => []
  end.

Definition exec (c : HybridTimestamp) (w : write) : SM (Store X) Error unit :=
  match w with
  | WAdd e vid vf lbl en props b prov =>
      add_version_with_provenance it ptr_eq map_ptr_eq config pre_anchor_hooks e vid vf c lbl en props b prov
  | WUpdate e vf vid lbl en props prov o1 o2 =>
      s ← get_store;
      _ ← apply_update it ptr_eq map_ptr_eq config pre_anchor_hooks e (plan_entity_update s e vf) vf c vid lbl en props prov o1 o2;
      mret tt
  | WRetract e vid vf vt lbl en props prov =>
      add_retracted_version_with_provenance it ptr_eq map_ptr_eq config pre_anchor_hooks e vid vf vt c lbl en props prov
  | WCloseAll e => close_all_slices e c
  end.

(** A failed write leaves what it did. *)
Fixpoint run (ws : list (HybridTimestamp * write)) s : Store X :=
  match ws with [] => s | (c, w) :: ws => run ws (exec c w s).1 end.

Lemma exec_step c w : NoDup (write_ids w) -> step c (write_ids w) (exec c w).
Proof.
  destruct w as [e vid vf lbl en props b prov|e vf vid lbl en props prov o1 o2|e vid vf vt lbl en props prov|e]; intros Hnd; simpl.
  - destruct b; [apply (append_step c [vid] vf (Some vf))|apply (append_step c [vid] vf None)]; intros t <-; apply add_step.
  - apply step_store. intros s0. apply step_bind_r; [by apply apply_update_step|]. intros a. apply step_ret.
  - apply (append_step c [vid] vf (Some vt)). intros t <-. apply add_step.
  - apply step_store. intros s0. apply close_recorded_step.
Qed.

Definition all_ids (ws : list (HybridTimestamp * write)) : list VersionId := concat (List.map (fun cw => write_ids cw.2) ws).

End Steps.
