(* ===== verification/Beliefs.v ===== *)
(** * Superseding beliefs: what an update of an entity changes

    The open slices of an entity partition what is currently believed of it along
    valid time.  An update replaces the belief from its valid time up to the next
    change that was already recorded, and keeps every other belief; a delete ends
    every belief. *)

From S2P Require Import Prelude.
From S2P Require Import Bytes.
From S2P Require Import Errors.
From S2P Require Import Hlc.
From S2P Require Import Temporal.
From S2P Require Import Ids.
From S2P Require Import Interning.
From S2P Require Import Property.
From S2P Require Import PropMap.
From S2P Require Import Provenance.
From S2P Require Import Delta.
From S2P Require Import History.
From S2P Require Import Slices.
From S2P Require Import HistoryFacts.
From S2P Require Import Chains.

Section States.
Import PropMap Prov Delta History Slices.
Context {X : Type}.
Implicit Types (s : Store X) (v : Version X).

(** [v] is a slice of the current belief about [e]. *)
Definition open s (e : Z) (vid : VersionId) v : Prop :=
  versions s !! vid = Some v /\ entity v = e /\ is_open_slice (temporal v) = true.

(** Before a commit at [c], entity [e] exists: its head [h] is an open slice without
    valid end, the other open slices are tracked, no two overlap. *)
Record live (c : HybridTimestamp) s (e : Z) (h : VersionId) (vh : Version X) : Prop := mkLive {
  lv_head : version_heads s !! e = Some h;
  lv_open : open s e h vh;
  lv_current : end_ (valid_time (temporal vh)) = TIMESTAMP_MAX;
  lv_tracked : forall j v, open s e j v -> j = h \/ j ∈ node_open_slices s e;
  lv_owned : forall j v, j ∈ node_open_slices s e -> versions s !! j = Some v -> entity v = e;
  lv_disjoint : forall i v j w vt, open s e i v -> open s e j w ->
    Range.contains (valid_time (temporal v)) vt = true ->
    Range.contains (valid_time (temporal w)) vt = true -> i = j;
  lv_past : forall j v, versions s !! j = Some v -> entity v = e ->
    (tx_start (temporal v) < c)%ts /\ (tx_end (temporal v) = TIMESTAMP_MAX \/ (tx_end (temporal v) <= c)%ts) }.

Lemma open_slice_iff t :
  is_open_slice t = true <-> tx_end t = TIMESTAMP_MAX /\ (start (valid_time t) < end_ (valid_time t))%ts.
Proof. unfold is_open_slice. rewrite andb_true_iff, recorded_end, ts_ltb_lt. done. Qed.

(** *** The plan *)
Lemma plan_loop_pred slices t n p :
  (plan_loop slices t n).1 = Some p -> p ∈ slices /\ is_open_slice p.2 = true /\ Range.contains (valid_time p.2) t = true.
Proof.
  revert n. induction slices as [|[id i] slices IH]; intros n; [done|]. simpl.
  assert (forall n, (plan_loop slices t n).1 = Some p -> p ∈ (id, i) :: slices /\ is_open_slice p.2 = true /\
    Range.contains (valid_time p.2) t = true) as IH'.
  { intros n' (? & ? & ?)%IH. split; [by constructor|done]. }
  destruct (is_open_slice i) eqn:Eo; simpl; [|apply IH'].
  destruct (Range.contains (valid_time i) t) eqn:Ec; [|case_goal; apply IH'].
  intros [= <-]. split; [constructor|done].
Qed.

Lemma ts_min_le a b : (ts_min a b <= a)%ts /\ (ts_min a b <= b)%ts /\ (ts_min a b = a \/ ts_min a b = b).
Proof.
  unfold ts_min. destruct (ts_leb a b) eqn:E.
  - apply ts_leb_le in E. split_and!; [by right|done|by left].
  - unfold ts_leb in E. apply negb_false_iff, ts_ltb_lt in E. split_and!; [by left|by right|by right].
Qed.

(** Without a predecessor: no open slice contains [t], and the next start is a lower
    bound of the starts after [t], itself after [t]. *)
Lemma plan_loop_none slices t n :
  (plan_loop slices t n).1 = None -> (forall m, n = Some m -> (t < m)%ts) ->
  let r := (plan_loop slices t n).2 in
  (forall m, r = Some m -> (t < m)%ts) /\
  (forall m, n = Some m -> exists k, r = Some k /\ (k <= m)%ts) /\
  (forall id i, (id, i) ∈ slices -> is_open_slice i = true ->
     Range.contains (valid_time i) t = false /\
     ((t < start (valid_time i))%ts -> exists k, r = Some k /\ (k <= start (valid_time i))%ts)).
Proof.
  revert n. induction slices as [|[id i] slices IH]; intros n Hn Hlt; simpl in *.
  { split_and!; [done| |set_solver]. intros m ->. exists m. split; [done|by right]. }
  destruct (is_open_slice i) eqn:Eo; simpl in Hn |- *.
  2:{ destruct (IH _ Hn Hlt) as (A & B & C). split_and!; [done..|].
      intros id' i' [[= <- <-]|Hin]%elem_of_cons Ho; [congruence|by eapply C]. }
  destruct (Range.contains (valid_time i) t) eqn:Ec; [done|].
  destruct (ts_ltb t (start (valid_time i))) eqn:El.
  - apply ts_ltb_lt in El.
    set (k := match n with Some n0 => ts_min n0 (start (valid_time i)) | None => start (valid_time i) end) in *.
    assert ((t < k)%ts /\ (k <= start (valid_time i))%ts /\ (forall m, n = Some m -> (k <= m)%ts)) as (Hk1 & Hk2 & Hk3).
    { unfold k. destruct n as [m|]; [|split_and!; [done|by right|done]].
      destruct (ts_min_le m (start (valid_time i))) as (? & ? & Hor). split_and!; [|done|by intros ? [= <-]].
      destruct Hor as [->| ->]; [by apply Hlt|done]. }
    destruct (IH _ Hn) as (A & B & C); [by intros m [= <-]|]. split_and!; [done| |].
    + intros m Hm. destruct (B k eq_refl) as (k' & -> & Hk'). exists k'. split; [done|]. pose proof (Hk3 m Hm). ts_lia.
    + intros id' i' [[= <- <-]|Hin]%elem_of_cons Ho; [|by eapply C].
      split; [done|]. intros _. destruct (B k eq_refl) as (k' & -> & Hk'). exists k'. split; [done|]. ts_lia.
  - destruct (IH _ Hn Hlt) as (A & B & C). split_and!; [done..|].
    intros id' i' [[= <- <-]|Hin]%elem_of_cons Ho; [|by eapply C].
    split; [done|]. intros Hlt'%ts_ltb_lt. congruence.
Qed.
Abbreviation valid v := (valid_time (temporal (X := X) v)).
Abbreviation covers v vt := (Range.contains (valid v) vt = true).

Lemma covers_iff v vt : covers v vt <-> (start (valid v) <= vt)%ts /\ (vt < end_ (valid v))%ts.
Proof. apply contains_true. Qed.

(** The slices the plan looks at are the open slices of the entity. *)
Lemma live_slices c s e h vh id i :
  live c s e h vh -> is_open_slice i = true ->
  (id, i) ∈ (h, temporal vh) :: omap (slice_of s) (node_open_slices s e) <-> exists v, open s e id v /\ i = temporal v.
Proof.
  intros L Ho. rewrite elem_of_cons, list_elem_of_omap. split.
  - intros [[= -> ->]|(j & Hj & Es)]; [exists vh; split; [apply (lv_open _ _ _ _ _ L)|done]|].
    unfold slice_of in Es. apply fmap_Some in Es as (v & Hv & [= -> ->]). exists v. split; [|done].
    split_and!; [done|by eapply lv_owned|done].
  - intros (v & Hv & ->). destruct (lv_tracked _ _ _ _ _ L _ _ Hv) as [->|Hin].
    + left. pose proof (lv_open _ _ _ _ _ L) as [Hh _]. destruct Hv as [Hv _]. by simplify_eq.
    + right. exists id. split; [done|]. unfold slice_of. by rewrite (proj1 Hv).
Qed.

(** What the plan of an update at [t] says. *)
Record planned s (e : Z) (h : VersionId) (vh : Version X) (t to : HybridTimestamp) (plan : UpdatePlan) : Prop := mkPlanned {
  pl_to : to = default TIMESTAMP_MAX (new_valid_to plan);
  pl_after : (t < to)%ts;
  pl_pred : forall j, predecessor plan = Some j -> exists v, open s e j v /\ covers v t /\
      carry_from plan = (if ts_ltb (start (valid v)) t then Some (start (valid v)) else None);
  pl_carry : predecessor plan = None -> carry_from plan = None;
  pl_reassert : forall j, reassert plan = Some j -> j = h /\ (to <= start (valid vh))%ts /\ predecessor plan <> Some h;
  pl_head : reassert plan = None -> predecessor plan = Some h /\ new_valid_to plan = None;
  pl_replaced : forall j v vt, open s e j v -> covers v vt -> (t <= vt)%ts -> (vt < to)%ts -> predecessor plan = Some j;
  pl_end : forall j v, predecessor plan = Some j -> open s e j v -> to = end_ (valid v) }.

Lemma plan_spec c s e h vh t :
  live c s e h vh -> (t < TIMESTAMP_MAX)%ts ->
  exists to, planned s e h vh t to (plan_entity_update s e t).
Proof.
  intros L Ht. pose proof (lv_open _ _ _ _ _ L) as Hh. pose proof Hh as (Eh & He & Ho).
  pose proof (lv_current _ _ _ _ _ L) as Ecur.
  assert (Range.is_current (valid vh) = true) as Ecur'. { unfold Range.is_current. by apply ts_eqb_eq. }
  unfold plan_entity_update. rewrite (lv_head _ _ _ _ _ L). cbn [mbind option_bind]. unfold slice_of at 1. rewrite Eh.
  cbn [fmap option_fmap option_map]. unfold plan_update. rewrite Ho. cbn [option_list app].
  destruct (Range.contains (valid vh) t) eqn:Hc.
  { (* the head contains [t] *)
    rewrite Ecur'. exists TIMESTAMP_MAX. cbn. apply contains_true in Hc as [Hc1 Hc2].
    constructor; cbn; try done.
    - intros j [= <-]. exists vh. split_and!; [done| |by case_goal]. by apply covers_iff.
    - intros j v vt Hv Hcv H1 H2. f_equal. apply (lv_disjoint _ _ _ _ _ L h vh j v vt); [done..| |done].
      apply covers_iff. split; [ts_lia|by rewrite Ecur].
    - intros j v [= <-] (Ev & _ & _). simplify_eq. by rewrite Ecur. }
  assert (t < start (valid vh))%ts as Hth.
  { apply ts_lt_le_trans with (start (valid vh)); [|by right]. apply not_true_iff_false in Hc. rewrite contains_true, Ecur in Hc.
    destruct (ts_lt_trichotomy t (start (valid vh))) as [?|[E|?]]; [done|exfalso; apply Hc..];
      (split; [|done]); [rewrite E; by right|by left]. }
  set (slices := (h, temporal vh) :: omap (slice_of s) (node_open_slices s e)).
  pose proof (fun id i => live_slices c s e h vh id i L) as Hsl. fold slices in Hsl.
  change (plan_loop _ t None) with (plan_loop slices t None).
  destruct (plan_loop slices t None) as [[[p i]|] ns] eqn:Epl.
  - (* a bounded slice contains [t] *)
    pose proof (plan_loop_pred slices t None (p, i)) as Hp. rewrite Epl in Hp.
    destruct (Hp eq_refl) as (Hin & Hop & Hcp). cbn [snd] in *. apply Hsl in Hin as (v & Hv & ->); [|done].
    apply contains_true in Hcp as [Hc1 Hc2].
    assert (p <> h) as Hne. { intros ->. destruct Hv as [Hv _]. simplify_eq. ts_lia. }
    assert (end_ (valid v) <= start (valid vh))%ts as Hend.
    { apply ts_not_lt. intros Hlt. apply Hne. apply (lv_disjoint _ _ _ _ _ L p v h vh (start (valid vh))); [done..| |].
      - apply covers_iff. split; [ts_lia|done].
      - apply covers_iff. split; [by right|]. by apply open_slice_iff. }
    assert (Range.is_current (valid v) = false) as Env.
    { unfold Range.is_current. apply not_true_iff_false. rewrite ts_eqb_eq. intros E. rewrite E in Hend.
      apply open_slice_iff in Ho as [_ Ho]. rewrite Ecur in Ho. ts_lia. }
    rewrite Env, Ecur'. cbn. rewrite bool_decide_false by congruence. cbn.
    exists (end_ (valid v)). constructor; cbn; try done.
    + intros j [= <-]. exists v. split_and!; [done| |by case_goal]. by apply covers_iff.
    + intros j [= <-]. split_and!; [done..|congruence].
    + intros j w vt Hw Hcw H1 H2. f_equal. apply (lv_disjoint _ _ _ _ _ L p v j w vt); [done..| |done].
      apply covers_iff. split; [ts_lia|done].
    + intros j w [= <-] (Ew & _ & _). destruct Hv as [Ev _]. by simplify_eq.
  - (* a gap: the next slice bounds the new version *)
    pose proof (plan_loop_none slices t None) as Hp. rewrite Epl in Hp.
    destruct (Hp eq_refl) as (Hafter & _ & Hall); [done|]. cbn [snd] in *.
    destruct (proj2 (Hall h (temporal vh) (list_elem_of_here _ _) Ho) Hth) as (k & -> & Hk).
    rewrite Ecur'. cbn. exists k. constructor; cbn; try done.
    + by apply Hafter.
    + intros j [= <-]. done.
    + intros j v vt Hv Hcv H1 H2. exfalso.
      assert ((j, temporal v) ∈ slices) as Hin by (apply Hsl; [apply Hv|eauto]).
      destruct (Hall _ _ Hin (proj2 (proj2 Hv))) as [Hnc Hst]. apply covers_iff in Hcv as [G1 G2].
      apply not_true_iff_false in Hnc. rewrite contains_true in Hnc.
      destruct (ts_lt_trichotomy t (start (valid v))) as [Hlt|Hle].
      * destruct (Hst Hlt) as (k' & [= <-] & Hk'). ts_lia.
      * apply Hnc. split; [destruct Hle as [->|]; [by right|by left]|ts_lia].
Qed.
End States.

Section Updates.
Import PropMap Prov Delta History Slices.
Context {St : Type} `{Interner St} {X : Type}.
Variable it : St.
Variable config : Config.
Implicit Types (s : Store X) (v : Version X).

Abbreviation reconstruct := (History.reconstruct it config).
Abbreviation valid v := (valid_time (temporal (X := X) v)).
Abbreviation covers v vt := (Range.contains (valid v) vt = true).

(** Only the caches moved, and no read changed. *)
Record same_facts s s' : Prop := mkSame {
  sf_versions : versions s' = versions s;
  sf_heads : version_heads s' = version_heads s;
  sf_slices : open_slices s' = open_slices s;
  sf_reads : forall w, (reconstruct w s').2 = (reconstruct w s).2 }.
#[export] Instance same_refl : Reflexive same_facts.
Proof. by intros s; constructor. Qed.
#[export] Instance same_trans : Transitive same_facts.
Proof. intros s1 s2 s3 [V1 H1 O1 R1] [V2 H2 O2 R2]. constructor; intros; [congruence..|by rewrite R2]. Qed.

Lemma reconstruct_facts w s s' r : reconstruct w s = (s', r) -> same_facts s s' /\ r = (reconstruct w s).2.
Proof.
  intros E. split; [|by rewrite E]. replace s' with (reconstruct w s).1 by by rewrite E. constructor.
  - by destruct (reconstruct_state it config w s) as [->|(p & _ & ->)].
  - by destruct (reconstruct_state it config w s) as [->|(p & _ & ->)].
  - by destruct (reconstruct_state it config w s) as [->|(p & _ & ->)].
  - intros j. apply reconstruct_stable.
Qed.

(** What a structural version restates. *)
Definition restates s (p : VersionId) (from : HybridTimestamp) (o : option VersionId) (pl : payload) : Prop :=
  exists id v props, o = Some id /\ versions s !! p = Some v /\ (reconstruct p s).2 = Ok props /\
    pl = (id, from, label v, props, provenance v).

Lemma gather_carry_ok plan o s s' r :
  gather_carry it config plan o s = (s', Ok r) ->
  same_facts s s' /\
  match predecessor plan, carry_from plan with
  | Some p, Some from => exists pl, r = Some pl /\ restates s p from o pl
  | _, _ => r = None
  end.
Proof.
  unfold gather_carry. destruct (predecessor plan) as [p|]; [|by intros [= <- <-]].
  destruct (carry_from plan) as [from|]; [|by intros [= <- <-]].
  intros (s1 & a & [= <- <-] & (s2 & v & [= <- Hv] & (s3 & props & Hr & (s4 & id & [= <- Hid] & [= <- <-])%sm_bind_inv)%sm_bind_inv)%sm_bind_inv)%sm_bind_inv.
  apply reconstruct_facts in Hr as [Hs Hr]. split; [done|].
  destruct (versions s !! p) as [v'|] eqn:Ev; simplify_eq/=. destruct o; simplify_eq/=.
  eexists. split; [done|]. repeat eexists; eauto.
Qed.

Lemma gather_reassert_ok plan o s s' r :
  gather_reassert it config plan o s = (s', Ok r) ->
  same_facts s s' /\
  match reassert plan with
  | Some h => exists pl vh, versions s !! h = Some vh /\ r = Some pl /\ restates s h (start (valid_time (temporal vh))) o pl
  | None => r = None
  end.
Proof.
  unfold gather_reassert. destruct (reassert plan) as [h|]; [|by intros [= <- <-]].
  intros (s1 & a & [= <- <-] & (s2 & v & [= <- Hv] & (s3 & props & Hr & (s4 & id & [= <- Hid] & [= <- <-])%sm_bind_inv)%sm_bind_inv)%sm_bind_inv)%sm_bind_inv.
  apply reconstruct_facts in Hr as [Hs Hr]. split; [done|].
  destruct (versions s !! h) as [v'|] eqn:Ev; simplify_eq/=. destruct o; simplify_eq/=.
  do 2 eexists. split_and!; [done..|]. repeat eexists; eauto.
Qed.

(** *** Closing *)
Definition closed_at (c : HybridTimestamp) v : Version X :=
  with_temporal (mkInterval (valid_time (temporal v)) (mkRange (tx_start (temporal v)) c)) v.

Lemma untrack_slices e vid s e' j :
  j ∈ node_open_slices (untrack_slice e vid s) e' <-> j ∈ node_open_slices s e' /\ ~ (e' = e /\ j = vid).
Proof.
  unfold node_open_slices, untrack_slice, untrack. simpl. destruct (open_slices s !! e) as [l|] eqn:El; simpl.
  - case_goal; simpl.
    + apply bool_decide_eq_true in Heqb. destruct (decide (e' = e)) as [->|].
      * rewrite lookup_delete_eq, El. simpl. rewrite elem_of_nil. split; [done|]. intros [Hj Hne].
        assert (j ∈ filter (fun w => w <> vid) l) as Hf by (apply list_elem_of_filter; naive_solver).
        rewrite Heqb in Hf. by apply elem_of_nil in Hf.
      * rewrite lookup_delete_ne by done. naive_solver.
    + destruct (decide (e' = e)) as [->|].
      * rewrite lookup_insert_eq, El. simpl. rewrite list_elem_of_filter. naive_solver.
      * rewrite lookup_insert_ne by done. naive_solver.
  - destruct (decide (e' = e)) as [->|]; [rewrite El; simpl; set_solver|naive_solver].
Qed.

Definition after_close (c : HybridTimestamp) (l : list VersionId) (j : VersionId) v : Version X :=
  if bool_decide (j ∈ l) && BiTemporal.is_currently_recorded (temporal v) then closed_at c v else v.

Lemma close_recorded_ok l c s s' u :
  c <> TIMESTAMP_MAX -> close_recorded l c s = (s', Ok u) ->
  version_heads s' = version_heads s /\ property_cache s' = property_cache s /\ anchor_cache s' = anchor_cache s /\
  (forall j, versions s' !! j = after_close c l j <$> versions s !! j) /\
  (forall e j, j ∈ node_open_slices s' e -> j ∈ node_open_slices s e) /\
  (forall e j, j ∈ node_open_slices s e -> j ∉ l -> j ∈ node_open_slices s' e).
Proof.
  intros Hc. revert s. induction l as [|vid l IH]; intros s.
  { intros [= <- _]. split_and!; try done. intros j. unfold after_close. by destruct (versions s !! j). }
  cbn [close_recorded]. intros (s1 & a & [= <- <-] & (s2 & [] & Hm & Hl)%sm_bind_inv)%sm_bind_inv.
  destruct (IH _ Hl) as (A1 & A2 & A3 & A4 & A5 & A6). clear IH Hl.
  destruct (match versions s !! vid with Some v => BiTemporal.is_currently_recorded (temporal v) | None => false end) eqn:Er.
  - destruct (versions s !! vid) as [v|] eqn:Ev; [|done]. unfold close_version_transaction_time in Hm. rewrite Ev in Hm.
    destruct (BiTemporal.close_transaction_time (temporal v) c) as [t|err|] eqn:Et; [|done..].
    injection Hm as <-. apply close_transaction_time_ok in Et as ->. fold (closed_at c v) in *. split_and!; try done.
    + intros j. rewrite A4. simpl. destruct (decide (j = vid)) as [->|Hne].
      * rewrite lookup_insert_eq, Ev. simpl. f_equal. unfold after_close at 2. rewrite Er, bool_decide_true by set_solver. simpl.
        unfold after_close. replace (BiTemporal.is_currently_recorded (temporal (closed_at c v))) with false; [by rewrite andb_false_r|].
        symmetry. apply not_true_iff_false. by rewrite recorded_end.
      * rewrite lookup_insert_ne by done. destruct (versions s !! j); [|done]. simpl. f_equal. unfold after_close.
        rewrite (bool_decide_ext (j ∈ vid :: l) (j ∈ l)) by set_solver. done.
    + intros e j [Hj _]%A5%untrack_slices. done.
    + intros e j Hj Hn. apply A6; [|set_solver]. apply untrack_slices. split; [done|]. set_solver.
  - injection Hm as <-. split_and!; try done.
    + intros j. rewrite A4. destruct (versions s !! j) as [v|] eqn:Ev; [|done]. simpl. f_equal. unfold after_close.
      destruct (decide (j = vid)) as [->|]; [rewrite Ev in Er; by rewrite Er, !andb_false_r|].
      rewrite (bool_decide_ext (j ∈ vid :: l) (j ∈ l)) by set_solver. done.
    + intros e j Hj Hn. apply A6; [done|set_solver].
Qed.
(** *** Appending behind a head that is not closed by it *)
Variable ptr_eq : PropertyValue -> PropertyValue -> bool.
Variable map_ptr_eq : PropertyMap -> PropertyMap -> bool.
Variable pre_anchor_hooks : Z -> HybridTimestamp -> PropertyMap -> option Z.
Abbreviation add := (add_version_with_interval it ptr_eq map_ptr_eq config pre_anchor_hooks).

Definition kept (ids : list VersionId) s s' : Prop :=
  forall j, j ∉ ids ->
    (forall v, versions s !! j = Some v -> exists n, versions s' !! j = Some (with_next n v)) /\
    (versions s !! j = None -> versions s' !! j = None).

Lemma kept_trans ids1 ids2 ids s1 s2 s3 :
  ids1 ⊆ ids -> ids2 ⊆ ids -> kept ids1 s1 s2 -> kept ids2 s2 s3 -> kept ids s1 s3.
Proof.
  intros I1 I2 K1 K2 j Hj. destruct (K1 j) as [A1 B1]; [set_solver|]. destruct (K2 j) as [A2 B2]; [set_solver|].
  split; [|auto]. intros v (n1 & Hv)%A1. destruct (A2 _ Hv) as (n & Hn). by exists n.
Qed.

Definition quiet s (e : Z) (c : HybridTimestamp) : Prop :=
  forall h v, version_heads s !! e = Some h -> versions s !! h = Some v ->
    tx_end (temporal v) <> TIMESTAMP_MAX \/ (c <= tx_start (temporal v))%ts.

Definition tracks s (e : Z) s' : Prop :=
  (forall e' j, j ∈ node_open_slices s' e' -> j ∈ node_open_slices s e' \/ (e' = e /\ version_heads s !! e = Some j)) /\
  (forall e' j, j ∈ node_open_slices s e' -> j ∈ node_open_slices s' e') /\
  (forall j v, version_heads s !! e = Some j -> versions s !! j = Some v -> is_open_slice (temporal v) = true ->
     j ∈ node_open_slices s' e).

Lemma reconstruct_cache w s : property_cache s ⊆ property_cache (reconstruct w s).1.
Proof.
  unfold History.reconstruct. destruct (property_cache s !! w) eqn:E; [done|].
  destruct (anchor_cache s !! w); [by apply insert_subseteq|].
  destruct (reconstruct_iterative it config s w); [by apply insert_subseteq|done..].
Qed.

Lemma create_frame e vid t lbl en props prev s s1 v :
  create_version it ptr_eq map_ptr_eq config e vid t lbl en props prev s = (s1, Ok v) ->
  versions s1 = versions s /\ version_heads s1 = version_heads s /\ open_slices s1 = open_slices s /\
  property_cache s ⊆ property_cache s1.
Proof.
  unfold create_version. destruct prev as [p|]; [|by intros [= <- _]].
  destruct (versions s !! p); [|done]. case_goal; [by intros [= <- _]|].
  intros (s2 & old & Hr & [= <- _])%sm_bind_inv. pose proof (reconstruct_cache p s) as Hc. rewrite Hr in Hc.
  by apply reconstruct_facts in Hr as [[] _].
Qed.

Lemma track_tracks e h v s s1 :
  version_heads s !! e = Some h -> versions s !! h = Some v ->
  open_slices s1 = open_slices s -> (exists n, versions s1 !! h = Some (with_next n v)) ->
  tracks s e (track_slice_if_open e h s1).
Proof.
  intros Hh Hv Eo [n Hn]. unfold track_slice_if_open. rewrite Hn. simpl.
  assert (forall e', node_open_slices s1 e' = node_open_slices s e') as En by (intros; unfold node_open_slices; by rewrite Eo).
  destruct (is_open_slice (temporal v)) eqn:Ei.
  - set (s2 := set_open_slices _ s1).
    assert (forall e' j, j ∈ node_open_slices s2 e' <-> j ∈ node_open_slices s e' \/ (e' = e /\ j = h)) as E2.
    { intros e' j. rewrite <- En. unfold s2, node_open_slices. simpl. destruct (decide (e' = e)) as [->|].
      - rewrite lookup_insert_eq. simpl. case_bool_decide; set_solver.
      - rewrite lookup_insert_ne by done. naive_solver. }
    split_and!.
    + intros e' j. rewrite E2. naive_solver.
    + intros e' j. rewrite E2. naive_solver.
    + intros j w Hj Hw _. rewrite E2. right. split; [done|congruence].
  - split_and!; [intros e' j; rewrite En; by left|intros e' j; by rewrite En|].
    intros j w Hj Hw Ho. assert (j = h) as -> by congruence. congruence.
Qed.

Lemma link_quiet e vid t s s' u :
  quiet s e (tx_start t) -> link_previous e vid t (version_heads s !! e) s = (s', Ok u) ->
  kept [] s s' /\ version_heads s' = version_heads s /\ tracks s e s'.
Proof.
  intros Hq. unfold link_previous. destruct (version_heads s !! e) as [h|] eqn:Eh.
  2:{ intros [= <- _]. split_and!; [|done|].
      - intros j _. split; [|done]. intros v Hv. exists (next_version v). by destruct v.
      - split_and!; [by left|done|congruence]. }
  destruct (versions s !! h) as [v|] eqn:Ev.
  2:{ intros [= <- _]. split_and!; [|done|].
      - intros j _. split; [|done]. intros w Hw. exists (next_version w). by destruct w.
      - split_and!; [by left|done|]. intros j w Hj Hw. congruence. }
  unfold close_previous_version_intervals.
  assert (BiTemporal.is_currently_recorded (temporal (with_next (Some vid) v)) &&
    ts_ltb (start (transaction_time (temporal (with_next (Some vid) v)))) (start (transaction_time t)) = false) as ->.
  { simpl. destruct (Hq _ _ Eh Ev) as [Hn|Hn].
    - apply andb_false_iff. left. apply not_true_iff_false. by rewrite recorded_end.
    - apply andb_false_iff. right. apply not_true_iff_false. rewrite ts_ltb_lt. unfold tx_start in *. ts_lia. }
  intros [= <- _].
  assert (forall s0, versions (track_slice_if_open e h s0) = versions s0) as Etr
    by (intros; unfold track_slice_if_open; by repeat case_goal).
  split_and!.
  - intros j _. rewrite Etr. simpl. destruct (decide (j = h)) as [->|].
    + rewrite lookup_insert_eq, Ev. split; [|done]. intros w [= <-]. eauto.
    + rewrite lookup_insert_ne by done. split; [|done]. intros w Hw. exists (next_version w). by destruct w.
  - unfold track_slice_if_open; by repeat case_goal.
  - apply (track_tracks e h v); [done..|]. simpl. rewrite lookup_insert_eq. eauto.
Qed.

(** A slice to append: id, valid interval, label, properties, provenance. *)
Record item := mkItem {
  i_id : VersionId;
  i_from : HybridTimestamp;
  i_to : HybridTimestamp;
  i_label : Z;
  i_props : PropertyMap;
  i_prov : option Provenance }.

Definition is_item (e : Z) (c : HybridTimestamp) (en : X) (x : item) v : Prop :=
  id v = i_id x /\ entity v = e /\
  temporal v = mkInterval (mkRange (i_from x) (i_to x)) (mkRange c TIMESTAMP_MAX) /\
  label v = i_label x /\ ends v = en /\ provenance v = i_prov x.

Record added (e : Z) (c : HybridTimestamp) (en : X) (x : item) s s' : Prop := mkAdded {
  ad_kept : kept [i_id x] s s';
  ad_heads : version_heads s' = <[e := i_id x]> (version_heads s);
  ad_item : exists v, versions s' !! i_id x = Some v /\ is_item e c en x v;
  ad_props : property_cache s' !! i_id x = Some (i_props x);
  ad_cache : forall w p, w <> i_id x -> property_cache s !! w = Some p -> property_cache s' !! w = Some p;
  ad_tracks : tracks s e s' }.

Lemma add_quiet e c en x s s' u :
  add e (i_id x) (mkInterval (mkRange (i_from x) (i_to x)) (mkRange c TIMESTAMP_MAX)) (i_label x) en (i_props x) (i_prov x) s
    = (s', Ok u) ->
  versions s !! i_id x = None -> quiet s e c -> added e c en x s s'.
Proof.
  unfold add_version_with_interval. case_goal; [done|]. set (t := mkInterval _ _).
  intros (s1 & v & Hc & (s2 & u2 & Hl & [= <- _])%sm_bind_inv)%sm_bind_inv Hf Hq.
  pose proof (create_frame _ _ _ _ _ _ _ _ _ _ Hc) as (F1 & F2 & F3 & F4).
  apply create_fields in Hc as (E1 & E2 & E3 & E4 & E5 & _).
  pose proof (run_hooks_fields pre_anchor_hooks s1 t (i_props x) (with_provenance (i_prov x) v)) as (G1 & G2 & G3 & G4 & G5 & _ & G7 & _).
  set (v1 := run_hooks _ _ _ _ _) in *. rewrite <- F2 in Hl.
  assert (property_cache s2 = property_cache s1) as F5.
  { revert Hl. unfold link_previous, track_slice_if_open. destruct (version_heads s1 !! e); [|by intros [= <- _]].
    destruct (versions s1 !! v0); [|by intros [= <- _]]. destruct (close_previous_version_intervals _ _ _) as [v' [[]|?|]]; [|done..].
    repeat case_goal; by intros [= <- _]. }
  apply link_quiet in Hl as (Hk & Hh & Ht); [|unfold quiet; by rewrite F1, F2].
  constructor.
  - intros j Hj%not_elem_of_cons. simpl. rewrite lookup_insert_ne by (destruct Hj; congruence).
    rewrite <- F1. apply Hk. set_solver.
  - simpl. by rewrite Hh, F2.
  - exists v1. simpl. rewrite lookup_insert_eq. unfold is_item.
    split_and!; [done|rewrite G1|rewrite G2|rewrite G3|rewrite G4|rewrite G5|rewrite G7]; done.
  - simpl. by rewrite lookup_insert_eq.
  - intros w p Hw Hp. simpl. rewrite lookup_insert_ne, F5 by done. by eapply lookup_weaken.
  - unfold tracks, node_open_slices in *. simpl. rewrite F1, F2, F3 in Ht. done.
Qed.

Fixpoint appended (e : Z) (c : HybridTimestamp) (en : X) (xs : list item) s s' : Prop :=
  match xs with
  | [] => s' = s
  | x :: xs => exists s1, added e c en x s s1 /\ appended e c en xs s1 s'
  end.

Lemma appended_app e c en xs ys s s1 s2 :
  appended e c en xs s s1 -> appended e c en ys s1 s2 -> appended e c en (xs ++ ys) s s2.
Proof. revert s. induction xs as [|x xs IH]; intros s; [by intros ->|]. intros (s0 & Ha & Hx) Hy. exists s0. eauto. Qed.

Abbreviation item_ids xs := (List.map i_id xs).

Lemma is_item_next e c en x v n : is_item e c en x v -> is_item e c en x (with_next n v).
Proof. done. Qed.
(** What a sequence of appends leaves. *)
Record appends (e : Z) (c : HybridTimestamp) (en : X) (xs : list item) s s' : Prop := mkAppends {
  ap_kept : kept (item_ids xs) s s';
  ap_item : forall x, x ∈ xs -> (exists v, versions s' !! i_id x = Some v /\ is_item e c en x v) /\
      property_cache s' !! i_id x = Some (i_props x);
  ap_cache : forall w p, w ∉ item_ids xs -> property_cache s !! w = Some p -> property_cache s' !! w = Some p;
  ap_heads : version_heads s' !! e = match last (item_ids xs) with Some i => Some i | None => version_heads s !! e end;
  ap_from : forall j, j ∈ node_open_slices s' e -> j ∈ node_open_slices s e \/ version_heads s !! e = Some j \/ j ∈ item_ids xs;
  ap_old : forall j, j ∈ node_open_slices s e -> j ∈ node_open_slices s' e;
  ap_first : xs <> [] -> forall j v, version_heads s !! e = Some j -> versions s !! j = Some v ->
      is_open_slice (temporal v) = true -> j ∈ node_open_slices s' e;
  ap_new : forall x, x ∈ xs -> (i_from x < i_to x)%ts ->
      version_heads s' !! e = Some (i_id x) \/ i_id x ∈ node_open_slices s' e }.

Lemma item_open e c en x v : is_item e c en x v -> is_open_slice (temporal v) = true <-> (i_from x < i_to x)%ts.
Proof. intros (_ & _ & -> & _). rewrite open_slice_iff. simpl. naive_solver. Qed.

Lemma appended_spec e c en xs s s' :
  appended e c en xs s s' -> NoDup (item_ids xs) -> appends e c en xs s s'.
Proof.
  revert s. induction xs as [|x xs IH]; intros s; simpl.
  { intros -> _. constructor; simpl; try done; try (intros x Hx; by apply elem_of_nil in Hx); [|by left].
    intros j _. split; [|done]. intros v Hv. exists (next_version v). by destruct v. }
  intros (s1 & Ha & Hx) [Hnx Hnd]%NoDup_cons. destruct (IH _ Hx Hnd). destruct Ha as [K Hh (v & Hv & Hi) Hp Hca (T1 & T2 & T3)].
  assert (version_heads s1 !! e = Some (i_id x)) as Hh1 by by rewrite Hh, lookup_insert_eq.
  constructor.
  - eapply kept_trans; [| |exact K|exact ap_kept0]; set_solver.
  - intros y [->|Hy]%elem_of_cons; [|by apply ap_item0]. split; [|by apply ap_cache0].
    destruct (ap_kept0 _ Hnx) as [A _]. destruct (A _ Hv) as [n Hn]. exists (with_next n v). split; [done|]. by apply is_item_next.
  - intros w p [Hw Hw']%not_elem_of_cons Hw2. apply ap_cache0; [done|]. by apply Hca.
  - rewrite ap_heads0, Hh1. destruct xs as [|y ys]; [done|]. cbn [List.map]. rewrite last_cons_cons. by destruct (last _) eqn:E; [|apply last_None in E].
  - intros j [[?|[_ ?]]%T1|[Hj|?]]%ap_from0; [by left|by right; left| |right; right; by constructor].
    right; right. rewrite Hh1 in Hj. injection Hj as <-. constructor.
  - intros j Hj. by apply ap_old0, T2.
  - intros _ j w Hj Hw Ho. by apply ap_old0, (T3 j w).
  - intros y [->|Hy]%elem_of_cons Hlt; [|by apply ap_new0]. destruct xs as [|z zs].
    + left. rewrite ap_heads0. done.
    + right. apply (ap_first0 ltac:(done) _ v); [done..|]. by eapply item_open.
Qed.
Lemma added_quiet e c en x s s' : added e c en x s s' -> quiet s' e c.
Proof.
  intros [_ Hh (v & Hv & Hi) _ _ _] h w Hw Hvw. rewrite Hh, lookup_insert_eq in Hw. injection Hw as <-. simplify_eq.
  right. destruct Hi as (_ & _ & -> & _). by right.
Qed.

Lemma appended_quiet e c en xs s s' : appended e c en xs s s' -> quiet s e c -> quiet s' e c.
Proof.
  revert s. induction xs as [|x xs IH]; intros s; [by intros ->|].
  intros (s1 & Ha & Hx) _. apply (IH _ Hx). by eapply added_quiet.
Qed.

Lemma appended_fresh e c en xs s s' j :
  appended e c en xs s s' -> j ∉ item_ids xs -> versions s !! j = None -> versions s' !! j = None.
Proof.
  revert s. induction xs as [|x xs IH]; intros s; [by intros ->|].
  intros (s1 & Ha & Hx) [Hn1 Hn2]%not_elem_of_cons Hv. apply (IH _ Hx Hn2). apply (ad_kept _ _ _ _ _ _ Ha); [|done]. set_solver.
Qed.

Definition payload_item (to : HybridTimestamp) (pl : payload) : item :=
  let '(id, from, lbl, props, prov) := pl in mkItem id from to lbl props prov.
Definition payload_id (pl : payload) : VersionId := pl.1.1.1.1.

(** One append, in the shape the three of an update share. *)
Lemma append_one {A} e c en x (o : option HybridTimestamp) (k : BiTemporalInterval -> A) s s' r :
  i_to x = default TIMESTAMP_MAX o ->
  (t ← lift (temporal_err (BiTemporal.with_valid_time (i_from x) c));
   t ← lift (match o with Some e => temporal_err (BiTemporal.close_valid_time t e) | None => Ok t end);
   _ ← add e (i_id x) t (i_label x) en (i_props x) (i_prov x); mret (k t)) s = (s', Ok r) ->
  versions s !! i_id x = None -> quiet s e c -> appended e c en [x] s s'.
Proof.
  intros Hto (s1 & t & [= <- Ht] & (s2 & t' & [= <- Ht'] & (s3 & u & Ha & [= <- _])%sm_bind_inv)%sm_bind_inv)%sm_bind_inv Hf Hq.
  pose proof (interval_ok _ _ _ _ _ Ht Ht') as ->. rewrite <- Hto in Ha. exists s3. split; [by eapply add_quiet|done].
Qed.

Lemma append_carry_ok e vf c en carry s s' r :
  append_carry it ptr_eq map_ptr_eq config pre_anchor_hooks e vf c en carry s = (s', Ok r) ->
  quiet s e c -> (forall pl, carry = Some pl -> versions s !! payload_id pl = None) ->
  appended e c en (payload_item vf <$> option_list carry) s s'.
Proof.
  intros Ha Hq Hf. destruct carry as [[[[[id from] lbl] props] prov]|]; [|by injection Ha as <- _].
  apply (append_one e c en (mkItem id from vf lbl props prov) (Some vf)) in Ha; [done|done|by apply (Hf _ eq_refl)|done].
Qed.
Lemma append_new_ok e plan vf c vid lbl en props prov s s' r :
  append_new it ptr_eq map_ptr_eq config pre_anchor_hooks e plan vf c vid lbl en props prov s = (s', Ok r) ->
  quiet s e c -> versions s !! vid = None ->
  appended e c en [mkItem vid vf (default TIMESTAMP_MAX (new_valid_to plan)) lbl props prov] s s'.
Proof.
  intros Ha Hq Hf.
  by apply (append_one e c en (mkItem vid vf (default TIMESTAMP_MAX (new_valid_to plan)) lbl props prov) (new_valid_to plan)) in Ha.
Qed.
Lemma append_reassert_ok e c en re s s' r :
  append_reassert it ptr_eq map_ptr_eq config pre_anchor_hooks e c en re s = (s', Ok r) ->
  quiet s e c -> (forall pl, re = Some pl -> versions s !! payload_id pl = None) ->
  appended e c en (payload_item TIMESTAMP_MAX <$> option_list re) s s'.
Proof.
  intros Ha Hq Hf. destruct re as [[[[[id from] lbl] props] prov]|]; [|by injection Ha as <- _].
  apply (append_one e c en (mkItem id from TIMESTAMP_MAX lbl props prov) None) in Ha; [done|done|by apply (Hf _ eq_refl)|done].
Qed.

(** The items a successful update appends. *)
Definition carried s (plan : UpdatePlan) (o : option VersionId) (carry : option payload) : Prop :=
  match predecessor plan, carry_from plan with
  | Some p, Some from => exists pl, carry = Some pl /\ restates s p from o pl
  | _, _ => carry = None
  end.
Definition reasserts s (plan : UpdatePlan) (o : option VersionId) (re : option payload) : Prop :=
  match reassert plan with
  | Some h => exists pl vh, versions s !! h = Some vh /\ re = Some pl /\ restates s h (start (valid_time (temporal vh))) o pl
  | None => re = None
  end.

Lemma restates_id s p from o pl : restates s p from o pl -> o = Some (payload_id pl).
Proof. by intros (id & v & props & -> & _ & _ & ->). Qed.
Lemma carried_id s plan o pl : carried s plan o (Some pl) -> o = Some (payload_id pl).
Proof.
  unfold carried. destruct (predecessor plan); [|done]. destruct (carry_from plan); [|done].
  intros (pl' & [= <-] & Hr). by eapply restates_id.
Qed.
Lemma reasserts_id s plan o pl : reasserts s plan o (Some pl) -> o = Some (payload_id pl).
Proof.
  unfold reasserts. destruct (reassert plan); [|done]. intros (pl' & vh & _ & [= <-] & Hr). by eapply restates_id.
Qed.

Definition update_items (carry re : option payload) (new : item) (vf : HybridTimestamp) : list item :=
  (payload_item vf <$> option_list carry) ++ [new] ++ (payload_item TIMESTAMP_MAX <$> option_list re).

Lemma update_items_ids carry re new vf :
  item_ids (update_items carry re new vf) = update_ids (i_id new) (payload_id <$> carry) (payload_id <$> re).
Proof. unfold update_items, update_ids. destruct carry as [[[[[]]]]|], re as [[[[[]]]]|]; done. Qed.

Lemma update_inv e plan vf c vid lbl en props prov o1 o2 s s' a :
  apply_update it ptr_eq map_ptr_eq config pre_anchor_hooks e plan vf c vid lbl en props prov o1 o2 s = (s', Ok a) ->
  (forall s2 s3 u, same_facts s s2 -> close_recorded (superseded s2 e plan) c s2 = (s3, Ok u) ->
     quiet s3 e c /\ forall j, versions s !! j = None -> versions s3 !! j = None) ->
  fresh (update_ids vid o1 o2) s -> NoDup (update_ids vid o1 o2) ->
  let new := mkItem vid vf (default TIMESTAMP_MAX (new_valid_to plan)) lbl props prov in
  exists carry re s2 s3 u, carried s plan o1 carry /\ reasserts s plan o2 re /\ same_facts s s2 /\
    close_recorded (superseded s2 e plan) c s2 = (s3, Ok u) /\ appended e c en (update_items carry re new vf) s3 s'.
Proof.
  unfold apply_update. intros (s0 & x0 & [= <- <-] & (s0' & u0 & [= <- _] & (s1 & carry & Hc & (s2 & re & Hr & Hrest)%sm_bind_inv)%sm_bind_inv)%sm_bind_inv)%sm_bind_inv.
  intros Hclose Hf Hnd. apply gather_carry_ok in Hc as [Hs1 Hc]. apply gather_reassert_ok in Hr as [Hs2 Hr].
  apply sm_bind_inv in Hrest as (s2' & x2 & [= <- <-] & (s3 & u3 & Hcl & (s4 & a1 & H4 & (s5 & a2 & H5 & (s6 & [a3 r] & H6 & [= <- _])%sm_bind_inv)%sm_bind_inv)%sm_bind_inv)%sm_bind_inv).
  exists carry, re, s2, s3, u3. fold (carried s plan o1 carry) in Hc.
  assert (reasserts s plan o2 re) as Hr'.
  { unfold reasserts. destruct (reassert plan); [|done]. destruct Hr as (pl & vh & Hv & -> & (id & w & p & -> & Hv' & Hp & ->)).
    rewrite (sf_versions _ _ Hs1) in Hv, Hv'. rewrite (sf_reads _ _ Hs1) in Hp.
    exists (id, start (valid_time (temporal vh)), label w, p, provenance w), vh. split_and!; [done..|]. by exists id, w, p. }
  assert (same_facts s s2) as Hs by by etrans. destruct (Hclose _ _ _ Hs Hcl) as [Hq Hn].
  unfold fresh in Hf. rewrite Forall_forall in Hf. apply NoDup_app in Hnd as (_ & Hd1 & [Hd2 _]%NoDup_cons).
  assert (forall pl, carry = Some pl -> payload_id pl ∈ option_list o1) as Ei1 by (intros pl ->; rewrite (carried_id _ _ _ _ Hc); set_solver).
  assert (forall pl, re = Some pl -> payload_id pl ∈ option_list o2) as Ei2 by (intros pl ->; rewrite (reasserts_id _ _ _ _ Hr'); set_solver).
  apply append_carry_ok in H4; [|done|intros pl Hpl; apply Hn, Hf, elem_of_app; left; by apply Ei1].
  assert (forall j, j ∉ option_list o1 -> versions s !! j = None -> versions s4 !! j = None) as Hn4.
  { intros j Hj Hv. eapply appended_fresh; [done| |by apply Hn]. destruct carry as [[[[[i ?] ?] ?] ?]|]; simpl; [|set_solver].
    intros ->%list_elem_of_singleton. by apply Hj, (Ei1 _ eq_refl). }
  assert (versions s4 !! vid = None) as Hv4 by (apply Hn4; [set_solver|apply Hf; set_solver]).
  apply append_new_ok in H5; [|by eapply appended_quiet|done].
  apply append_reassert_ok in H6; [|eapply appended_quiet; [done|by eapply appended_quiet]|].
  2:{ intros pl Hpl. pose proof (Ei2 _ Hpl) as Hin. eapply appended_fresh; [done|simpl; set_solver|]. apply Hn4; [set_solver|]. apply Hf. set_solver. }
  split_and!; [done..|]. unfold update_items. eapply appended_app; [done|]. eapply appended_app; done.
Qed.
(** *** Belief at the present *)
Definition settled (c : HybridTimestamp) s (e : Z) : Prop :=
  forall j v, versions s !! j = Some v -> entity v = e ->
    (tx_start (temporal v) <= c)%ts /\ (tx_end (temporal v) = TIMESTAMP_MAX \/ (tx_end (temporal v) <= c)%ts).

Definition disjoint_slices s (e : Z) : Prop :=
  forall i v j w vt, open s e i v -> open s e j w -> covers v vt -> covers w vt -> i = j.

(** From the commit on, lookup finds the open slice that covers the valid time. *)
Lemma find_open c s e l vt tt j :
  history s e l -> settled c s e -> disjoint_slices s e -> (c <= tt)%ts -> (tt < TIMESTAMP_MAX)%ts ->
  find_version_at_time s e vt tt = Some j <-> exists v, open s e j v /\ covers v vt.
Proof.
  intros Hl Hs Hd Hc Ht. rewrite (find_spec _ _ _ _ _ Hl).
  assert (forall i, i ∈ filter (visible s vt tt) l <-> exists v, open s e i v /\ covers v vt) as Hin.
  { intros i. rewrite list_elem_of_filter, (hi_mem _ _ _ Hl). unfold visible. split.
    - intros [Hv (v & Ev & He)]. rewrite Ev in Hv. apply Is_true_true, andb_true_iff in Hv as [H1 H2].
      exists v. split; [|done]. split_and!; [done..|]. apply contains_true in H2 as [H2 H3]. apply covers_iff in H1 as [H4 H5].
      apply open_slice_iff. split; [|ts_lia]. destruct (Hs _ _ Ev He) as [_ [?|Hle]]; [done|]. unfold tx_end in Hle. ts_lia.
    - intros (v & (Ev & He & [H1 H2]%open_slice_iff) & Hcv). split; [|by exists v]. rewrite Ev. apply Is_true_true, andb_true_iff.
      split; [done|]. apply contains_true. destruct (Hs _ _ Ev He) as [H3 _]. unfold tx_start, tx_end in *. rewrite H1. split; [ts_lia|done]. }
  assert (forall i i', i ∈ filter (visible s vt tt) l -> i' ∈ filter (visible s vt tt) l -> i = i') as Hu.
  { intros i i' (v & Ho & Hcv)%Hin (v' & Ho' & Hcv')%Hin. by eapply Hd. }
  rewrite <- Hin. split; [apply head_Some_elem_of|]. intros Hj. destruct (filter (visible s vt tt) l) as [|k ks]; [set_solver|].
  simpl. f_equal. apply Hu; [constructor|done].
Qed.

Lemma live_settled c s e h vh : live c s e h vh -> settled c s e.
Proof. intros L j v Hv He. destruct (lv_past _ _ _ _ _ L _ _ Hv He) as [? ?]. split; [by left|done]. Qed.

Section Effect.
Variables (c t to : HybridTimestamp) (s s' : Store X) (e : Z) (h vid : VersionId) (vh : Version X).
Variables (lbl : Z) (en : X) (props : PropertyMap) (prov : option Provenance) (o1 o2 : option VersionId).
Variables (carry re : option payload) (plan : UpdatePlan).
Hypothesis L : live c s e h vh.
Hypothesis Hends : forall j v, versions s !! j = Some v -> entity v = e -> ends v = en.
Hypothesis Hc : (c < TIMESTAMP_MAX)%ts.
Hypothesis P : planned s e h vh t to plan.
Hypothesis Hca : carried s plan o1 carry.
Hypothesis Hre : reasserts s plan o2 re.
Abbreviation new := (mkItem vid t to lbl props prov).
Abbreviation items := (update_items carry re new t).
Hypothesis Hnd : NoDup (item_ids items).
Hypothesis Hfresh : forall j, j ∈ item_ids items -> versions s !! j = None.

(** The superseded slices. *)
Definition gone (j : VersionId) : Prop := predecessor plan = Some j \/ j = h.

Lemma superseded_gone s2 j : version_heads s2 = version_heads s -> j ∈ superseded s2 e plan <-> gone j.
Proof.
  clear - L P.
  intros E. unfold superseded, gone. rewrite E, (lv_head _ _ _ _ _ L), !elem_of_app.
  destruct (reassert plan) as [r|] eqn:Er.
  - destruct (pl_reassert _ _ _ _ _ _ _ P _ Er) as (-> & _ & _).
    rewrite (bool_decide_eq_false_2 (Some h = None)), andb_false_r by done. destruct (predecessor plan); simpl; set_solver.
  - destruct (pl_head _ _ _ _ _ _ _ P Er) as [-> _]. simpl. set_solver.
Qed.

Lemma gone_open j : gone j -> exists v, open s e j v.
Proof.
  intros [Hp| ->]; [|exists vh; apply (lv_open _ _ _ _ _ L)].
  destruct (pl_pred _ _ _ _ _ _ _ P _ Hp) as (v & Hv & _). eauto.
Qed.

Definition from_carry (x : item) : Prop :=
  payload_item t <$> carry = Some x /\ exists p v, predecessor plan = Some p /\ open s e p v /\ (reconstruct p s).2 = Ok (i_props x) /\
    i_from x = start (valid v) /\ i_to x = t /\ (start (valid v) < t)%ts /\ covers v t /\
    i_label x = label v /\ i_prov x = provenance v.
Definition from_head (x : item) : Prop :=
  payload_item TIMESTAMP_MAX <$> re = Some x /\ reassert plan = Some h /\ (reconstruct h s).2 = Ok (i_props x) /\
    i_from x = start (valid vh) /\ i_to x = TIMESTAMP_MAX /\ i_label x = label vh /\ i_prov x = provenance vh.

Lemma item_cases x : x ∈ items -> x = new \/ from_carry x \/ from_head x.
Proof.
  clear ptr_eq map_ptr_eq pre_anchor_hooks.
  unfold update_items, from_carry, from_head. rewrite !elem_of_app, list_elem_of_singleton, !list_elem_of_fmap.
  intros [(pl & -> & Hpl)|[->|(pl & -> & Hpl)]]; [right; left|by left|right; right].
  - destruct carry as [pl'|]; [|set_solver]. apply list_elem_of_singleton in Hpl as ->.
    unfold carried in Hca. destruct (predecessor plan) as [p|] eqn:Ep; [|done]. destruct (carry_from plan) as [f|] eqn:Ef; [|done].
    destruct Hca as (? & [= <-] & id & w & pr & _ & Hw & Hpr & ->).
    destruct (pl_pred _ _ _ _ _ _ _ P _ Ep) as (v & Hv & Hcv & Ecf). rewrite Ef in Ecf. case_hyp Ecf; [|done].
    injection Ecf as ->. assert (w = v) as -> by (destruct Hv as [Ev _]; congruence). ts_norm.
    split; [done|]. exists p, v. by split_and!.
  - destruct re as [pl'|]; [|set_solver]. apply list_elem_of_singleton in Hpl as ->.
    unfold reasserts in Hre. destruct (reassert plan) as [r|] eqn:Er; [|done].
    destruct Hre as (? & w & Hw & [= <-] & id & w' & pr & _ & Hw' & Hpr & ->).
    destruct (pl_reassert _ _ _ _ _ _ _ P _ Er) as (-> & _ & _). destruct (lv_open _ _ _ _ _ L) as [Eh _].
    assert (w = vh) as -> by congruence. assert (w' = vh) as -> by congruence. by split_and!.
Qed.
(** What the run did to the store. *)
Hypothesis Hold : forall j v, versions s !! j = Some v -> ~ gone j -> exists n, versions s' !! j = Some (with_next n v).
Hypothesis Hgone : forall j v, versions s !! j = Some v -> gone j -> exists n, versions s' !! j = Some (with_next n (closed_at c v)).
Hypothesis Hnone : forall j, j ∉ item_ids items -> versions s !! j = None -> versions s' !! j = None.
Hypothesis Hitem : forall x, x ∈ items -> exists v, versions s' !! i_id x = Some v /\ is_item e c en x v.

Lemma new_in_items : new ∈ items.
Proof.
  clear ptr_eq map_ptr_eq pre_anchor_hooks. unfold update_items. set_solver. Qed.

Lemma gone_dec j : Decision (gone j).
Proof. unfold gone. apply _. Defined.

(** Every version of the new store, by where it comes from. *)
Lemma after_cases j v' :
  versions s' !! j = Some v' ->
  (exists x, x ∈ items /\ j = i_id x /\ is_item e c en x v') \/
  (exists v n, versions s !! j = Some v /\ ~ gone j /\ v' = with_next n v) \/
  (exists v n, versions s !! j = Some v /\ gone j /\ v' = with_next n (closed_at c v)).
Proof.
  intros Hv'. destruct (decide (j ∈ item_ids items)) as [(x & -> & Hx)%list_elem_of_fmap|Hj].
  { left. destruct (Hitem _ Hx) as (v & Hv & Hi). exists x. split_and!; [done..|]. by simplify_eq. }
  right. destruct (versions s !! j) as [v|] eqn:Ev; [|by rewrite (Hnone _ Hj Ev) in Hv'].
  destruct (gone_dec j) as [Hg|Hg]; [right|left].
  - destruct (Hgone _ _ Ev Hg) as [n Hn]. exists v, n. split_and!; [done..|]. by simplify_eq.
  - destruct (Hold _ _ Ev Hg) as [n Hn]. exists v, n. split_and!; [done..|]. by simplify_eq.
Qed.

Lemma after_open j v' :
  open s' e j v' ->
  (exists x, x ∈ items /\ j = i_id x /\ is_item e c en x v') \/
  (exists v n, open s e j v /\ ~ gone j /\ v' = with_next n v).
Proof.
  intros (Hv' & He & Ho). destruct (after_cases _ _ Hv') as [?|[(v & n & Hv & Hg & ->)|(v & n & Hv & Hg & ->)]]; [by left| |].
  - right. exists v, n. by split_and!.
  - apply open_slice_iff in Ho as [Ho _]. simpl in Ho. unfold tx_end in Ho. simpl in Ho. rewrite Ho in Hc. ts_lia.
Qed.

Lemma after_settled : settled c s' e.
Proof.
  intros j v' Hv' He. destruct (after_cases _ _ Hv') as [(x & _ & _ & (_ & _ & -> & _))|[(v & n & Hv & _ & ->)|(v & n & Hv & _ & ->)]].
  - split; [by right|by left].
  - destruct (lv_past _ _ _ _ _ L _ _ Hv He) as [? ?]. split; [by left|done].
  - destruct (lv_past _ _ _ _ _ L _ _ Hv He) as [? _]. split; [by left|right; by right].
Qed.

Lemma item_covers x v vt : is_item e c en x v -> covers v vt <-> (i_from x <= vt)%ts /\ (vt < i_to x)%ts.
Proof. intros (_ & _ & E & _). rewrite contains_true, E. done. Qed.

(** The slice of the old belief an item restates, where it covers [vt]. *)
Lemma item_origin x vt :
  x ∈ items -> (i_from x <= vt)%ts -> (vt < i_to x)%ts -> ~ ((t <= vt)%ts /\ (vt < to)%ts) ->
  exists j v, open s e j v /\ covers v vt /\ gone j /\ i_label x = label v /\ i_prov x = provenance v /\
    (reconstruct j s).2 = Ok (i_props x).
Proof.
  intros Hx H1 H2 Hz. destruct (item_cases _ Hx) as [->|[(_ & p & v & Hp & Hv & Hr & E1 & E2 & H3 & H4 & E3 & E4)|(_ & Hr' & Hr & E1 & E2 & E3 & E4)]].
  - by destruct Hz.
  - exists p, v. rewrite E1 in H1. rewrite E2 in H2. split_and!; [done| |by left|done..].
    apply contains_true. split; [done|]. apply contains_true in H4 as [_ H4]. ts_lia.
  - exists h, vh. rewrite E1 in H1. rewrite E2 in H2. split_and!; [apply (lv_open _ _ _ _ _ L)| |by right|done..].
    apply contains_true. split; [done|]. by rewrite (lv_current _ _ _ _ _ L).
Qed.

(** An item other than the new version does not reach into its range. *)
Lemma item_outside x vt :
  x ∈ items -> x <> new -> (i_from x <= vt)%ts -> (vt < i_to x)%ts -> ~ ((t <= vt)%ts /\ (vt < to)%ts).
Proof.
  intros Hx Hne H1 H2 [H3 H4]. destruct (item_cases _ Hx) as [->|[(_ & p & v & _ & _ & _ & _ & E2 & _)|(_ & Hr' & _ & E1 & _)]]; [done| |].
  - rewrite E2 in H2. ts_lia.
  - destruct (pl_reassert _ _ _ _ _ _ _ P _ Hr') as (_ & H5 & _). rewrite E1 in H1. ts_lia.
Qed.

Lemma item_same x y : x ∈ items -> y ∈ items -> i_id x = i_id y -> x = y.
Proof.
  intros Hx Hy E. apply list_elem_of_lookup in Hx as [a Ha], Hy as [b Hb].
  assert (a = b) as ->; [|congruence]. eapply NoDup_lookup; [exact Hnd|by rewrite list_lookup_fmap, Ha|].
  rewrite list_lookup_fmap, Hb. simpl. by rewrite E.
Qed.
(** In the range of the new version there is no other item. *)
Lemma item_zone x vt :
  x ∈ items -> (i_from x <= vt)%ts -> (vt < i_to x)%ts -> (t <= vt)%ts /\ (vt < to)%ts -> x = new.
Proof.
  intros Hx X1 X2 Hz. destruct (decide (i_id x = vid)) as [E|E].
  - apply item_same; [done|apply new_in_items|done].
  - exfalso. apply (item_outside x vt Hx); [by intros ->|done..].
Qed.

(** Two restated slices that cover one valid time are the same. *)
Lemma restated_same x y vt :
  x ∈ items -> y ∈ items -> x <> new -> y <> new -> (i_from x <= vt)%ts -> (vt < i_to x)%ts ->
  (i_from y <= vt)%ts -> (vt < i_to y)%ts -> x = y.
Proof.
  assert (forall x y, from_carry x -> from_head y -> (vt < i_to x)%ts -> (i_from y <= vt)%ts -> False) as Hmix.
  { intros a b (_ & p & v & Hp & Hv & _ & _ & E2 & _ & Hcv & _) (_ & Hr & _ & E1 & _) H1 H2.
    destruct (pl_reassert _ _ _ _ _ _ _ P _ Hr) as (_ & H3 & _). pose proof (pl_after _ _ _ _ _ _ _ P).
    rewrite E2 in H1. rewrite E1 in H2. ts_lia. }
  intros Hx Hy Hnx Hny X1 X2 Y1 Y2.
  destruct (item_cases _ Hx) as [?|[Cx|Cx]], (item_cases _ Hy) as [?|[Cy|Cy]]; try done.
  - destruct Cx as [Ex _], Cy as [Ey _]. congruence.
  - by destruct (Hmix x y).
  - by destruct (Hmix y x).
  - destruct Cx as [Ex _], Cy as [Ey _]. congruence.
Qed.

Lemma after_disjoint : disjoint_slices s' e.
Proof.
  assert (forall x j v n vt, x ∈ items -> (i_from x <= vt)%ts -> (vt < i_to x)%ts -> open s e j v -> ~ gone j ->
    covers (with_next n v) vt -> False) as Hmix.
  { intros x j v n vt Hx X1 X2 Hv Hg Hcv.
    destruct (decide ((t <= vt)%ts /\ (vt < to)%ts)) as [[Hz1 Hz2]|Hz].
    - apply Hg. left. by eapply (pl_replaced _ _ _ _ _ _ _ P).
    - destruct (item_origin x vt Hx X1 X2 Hz) as (k & w & Hw & Hcw & Hgk & _).
      by rewrite (lv_disjoint _ _ _ _ _ L j v k w vt) in Hg. }
  intros i v j w vt Hv Hw Hcv Hcw.
  destruct (after_open _ _ Hv) as [(x & Hx & -> & Ix)|(v0 & n & Hv0 & Hgv & ->)],
    (after_open _ _ Hw) as [(y & Hy & -> & Iy)|(w0 & m & Hw0 & Hgw & ->)].
  - apply (item_covers x) in Hcv as [X1 X2]; [|done]. apply (item_covers y) in Hcw as [Y1 Y2]; [|done]. f_equal.
    destruct (decide ((t <= vt)%ts /\ (vt < to)%ts)) as [Hz|Hz].
    + by rewrite (item_zone x vt), (item_zone y vt).
    + apply (restated_same x y vt); [done|done|intros ->; by apply Hz|intros ->; by apply Hz|done..].
  - apply (item_covers x) in Hcv as [X1 X2]; [|done]. by destruct (Hmix x j w0 m vt Hx).
  - apply (item_covers y) in Hcw as [Y1 Y2]; [|done]. by destruct (Hmix y i v0 n vt Hy).
  - by apply (lv_disjoint _ _ _ _ _ L i v0 j w0 vt).
Qed.

(** *** The belief after the update *)
Lemma after_new : exists v, open s' e vid v /\ is_item e c en new v.
Proof.
  destruct (Hitem _ new_in_items) as (v & Hv & Hi). exists v. split; [|done].
  split_and!; [done|by destruct Hi as (_ & ? & _)|]. apply (item_open e c en new v Hi). apply (pl_after _ _ _ _ _ _ _ P).
Qed.

(** Outside the range of the new version every belief is kept. *)
Lemma after_kept j v vt :
  open s e j v -> covers v vt -> ~ ((t <= vt)%ts /\ (vt < to)%ts) ->
  exists j' v', open s' e j' v' /\ covers v' vt /\ label v' = label v /\ ends v' = ends v /\
    provenance v' = provenance v /\
    (j' = j \/ exists x, x ∈ items /\ j' = i_id x /\ (reconstruct j s).2 = Ok (i_props x)).
Proof.
  clear ptr_eq map_ptr_eq pre_anchor_hooks.
  intros Hv Hcv Hz. destruct (gone_dec j) as [Hg|Hg].
  2:{ destruct (Hold _ _ (proj1 Hv) Hg) as [n Hn]. exists j, (with_next n v). split_and!; try done; [|by left].
      destruct Hv as (? & ? & ?). by split_and!. }
  assert (exists x, x ∈ items /\ (i_from x <= vt)%ts /\ (vt < i_to x)%ts /\ i_label x = label v /\
    i_prov x = provenance v /\ (reconstruct j s).2 = Ok (i_props x)) as (x & Hx & X1 & X2 & X3 & X4 & X5).
  { destruct (decide (predecessor plan = Some j)) as [Hp|Hp].
    - destruct (pl_pred _ _ _ _ _ _ _ P _ Hp) as (w & Hw & Hcw & Ef).
      assert (w = v) as -> by (destruct Hw as [? _], Hv as [? _]; congruence). apply contains_true in Hcv as [H1 H2].
      rewrite <- (pl_end _ _ _ _ _ _ _ P j v Hp Hv) in H2.
      assert (vt < t)%ts as Hlt by (apply not_and_r in Hz as [Hz|Hz]; ts_lia).
      assert (ts_ltb (start (valid v)) t = true) as El by (apply ts_ltb_lt; ts_lia). rewrite El in Ef.
      unfold carried in Hca. rewrite Hp, Ef in Hca. destruct Hca as (pl & -> & id & w & pr & _ & Hw' & Hpr & ->).
      assert (w = v) as -> by (destruct Hv as [? _]; congruence).
      exists (mkItem id (start (valid v)) t (label v) pr (provenance v)). split_and!; try done. unfold update_items. simpl. set_solver.
    - destruct Hg as [?| ->]; [done|]. destruct (reassert plan) as [r|] eqn:Er.
      2:{ by destruct (pl_head _ _ _ _ _ _ _ P Er) as [? _]. }
      destruct (pl_reassert _ _ _ _ _ _ _ P _ Er) as (-> & _ & _). unfold reasserts in Hre. rewrite Er in Hre.
      destruct Hre as (pl & w & Hw & -> & id & w' & pr & _ & Hw' & Hpr & ->).
      assert (w = v) as -> by (destruct Hv as [? _]; congruence). assert (w' = v) as -> by congruence.
      apply contains_true in Hcv as [H1 H2]. 
      exists (mkItem id (start (valid v)) TIMESTAMP_MAX (label v) pr (provenance v)). split_and!; try done.
      + unfold update_items. simpl. set_solver.
      + destruct (lv_open _ _ _ _ _ L) as [Eh _]. assert (v = vh) as -> by (destruct Hv as [? _]; congruence).
        by rewrite (lv_current _ _ _ _ _ L) in H2. }
  destruct (Hitem _ Hx) as (v' & Hv' & Hi). exists (i_id x), v'.
  assert (covers v' vt) as Hcv' by (apply (item_covers x); done). destruct Hi as (I1 & I2 & I3 & I4 & I5 & I6).
  split_and!; [|done|congruence| |congruence|right; eauto].
  - split_and!; [done..|]. apply open_slice_iff. rewrite I3. simpl. split; [done|ts_lia].
  - rewrite I5. symmetry. destruct Hv as (Ev & He & _). by eapply Hends.
Qed.

(** Outside that range no belief appears. *)
Lemma after_none j' v' vt :
  open s' e j' v' -> covers v' vt -> ~ ((t <= vt)%ts /\ (vt < to)%ts) -> exists j v, open s e j v /\ covers v vt.
Proof.
  intros Hv Hcv Hz. destruct (after_open _ _ Hv) as [(x & Hx & _ & Hi)|(v & n & Hv0 & _ & ->)]; [|by exists j', v].
  apply (item_covers x) in Hcv as [X1 X2]; [|done].
  destruct (item_origin x vt Hx X1 X2 Hz) as (j & v & ? & ? & _). by exists j, v.
Qed.
End Effect.
Lemma update_ids_sublist (vid : VersionId) (o1 o2 p1 p2 : option VersionId) :
  (forall i, p1 = Some i -> o1 = Some i) -> (forall i, p2 = Some i -> o2 = Some i) ->
  sublist (update_ids vid p1 p2) (update_ids vid o1 o2).
Proof.
  intros H1 H2. unfold update_ids. apply sublist_app; [|apply sublist_skip].
  - destruct p1; [by rewrite (H1 _ eq_refl)|]. apply sublist_nil_l.
  - destruct p2; [by rewrite (H2 _ eq_refl)|]. apply sublist_nil_l.
Qed.

(** The whole run of a successful update, in the form the section above reads. *)
Record update_effect (c t : HybridTimestamp) s s' (e : Z) (h vid : VersionId) (vh : Version X) (lbl : Z) (en : X)
    (props : PropertyMap) (prov : option Provenance) (o1 o2 : option VersionId) (to : HybridTimestamp)
    (carry re : option payload) : Prop := mkEffect {
  ef_planned : planned s e h vh t to (plan_entity_update s e t);
  ef_carry : carried s (plan_entity_update s e t) o1 carry;
  ef_re : reasserts s (plan_entity_update s e t) o2 re;
  ef_nodup : NoDup (item_ids (update_items carry re (mkItem vid t to lbl props prov) t));
  ef_fresh : forall j, j ∈ item_ids (update_items carry re (mkItem vid t to lbl props prov) t) -> versions s !! j = None;
  ef_mid : exists s3, appends e c en (update_items carry re (mkItem vid t to lbl props prov) t) s3 s' /\
    version_heads s3 = version_heads s /\
    (forall j, versions s !! j = None -> versions s3 !! j = None) /\
    (forall j v, versions s !! j = Some v ->
       (~ gone h (plan_entity_update s e t) j -> versions s3 !! j = Some v) /\
       (gone h (plan_entity_update s e t) j -> versions s3 !! j = Some (closed_at c v))) /\
    (forall j, j ∈ node_open_slices s3 e -> j ∈ node_open_slices s e) /\
    (forall j, j ∈ node_open_slices s e -> ~ gone h (plan_entity_update s e t) j -> j ∈ node_open_slices s3 e) }.

Lemma update_effect_ok e vf c vid lbl en props prov o1 o2 s s' a h vh :
  live c s e h vh -> (vf < TIMESTAMP_MAX)%ts -> (c < TIMESTAMP_MAX)%ts ->
  apply_update it ptr_eq map_ptr_eq config pre_anchor_hooks e (plan_entity_update s e vf) vf c vid lbl en props prov o1 o2 s = (s', Ok a) ->
  fresh (update_ids vid o1 o2) s -> NoDup (update_ids vid o1 o2) ->
  exists carry re, update_effect c vf s s' e h vid vh lbl en props prov o1 o2
    (default TIMESTAMP_MAX (new_valid_to (plan_entity_update s e vf))) carry re.
Proof.
  intros L Ht Hc Hrun Hf Hnd. destruct (plan_spec _ _ _ _ _ _ L Ht) as [to P]. pose proof (pl_to _ _ _ _ _ _ _ P) as Eto.
  set (plan := plan_entity_update s e vf) in *.
  assert (c <> TIMESTAMP_MAX) as Hcn by (intros ->; ts_lia).
  assert (forall s2 j v, same_facts s s2 -> versions s !! j = Some v ->
    after_close c (superseded s2 e plan) j v = v /\ ~ gone h plan j \/
    after_close c (superseded s2 e plan) j v = closed_at c v /\ gone h plan j) as Hac.
  { intros s2 j v Hs Hv. unfold after_close. destruct (gone_dec h plan j) as [Hg|Hg].
    - right. split; [|done]. rewrite bool_decide_true by (apply (superseded_gone c vf to s e h vh plan L P s2); [apply sf_heads, Hs|done]).
      destruct (gone_open c vf to s e h vh plan L P _ Hg) as (w & Hw & _ & Ho). simplify_eq. apply open_slice_iff in Ho as [Ho _].
      by rewrite (proj2 (recorded_end _) Ho).
    - left. split; [|done]. rewrite bool_decide_false; [done|]. rewrite (superseded_gone c vf to s e h vh plan L P s2); [done|apply sf_heads, Hs]. }
  assert (forall s2 s3 u, same_facts s s2 -> close_recorded (superseded s2 e plan) c s2 = (s3, Ok u) ->
    version_heads s3 = version_heads s /\ (forall j, versions s !! j = None -> versions s3 !! j = None) /\
    (forall j v, versions s !! j = Some v -> versions s3 !! j = Some (after_close c (superseded s2 e plan) j v)) /\
    (forall j, j ∈ node_open_slices s3 e -> j ∈ node_open_slices s e) /\
    (forall j, j ∈ node_open_slices s e -> ~ gone h plan j -> j ∈ node_open_slices s3 e)) as Hcl.
  { intros s2 s3 u Hs (C1 & _ & _ & C4 & C5 & C6)%close_recorded_ok; [|done].
    assert (forall j, j ∈ node_open_slices s2 e <-> j ∈ node_open_slices s e) as En
      by (intros j; unfold node_open_slices; by rewrite (sf_slices _ _ Hs)).
    split_and!; [rewrite C1; apply (sf_heads _ _ Hs)| | |intros j Hj%C5; by apply En|].
    - intros j Hj. by rewrite C4, (sf_versions _ _ Hs), Hj.
    - intros j v Hv. by rewrite C4, (sf_versions _ _ Hs), Hv.
    - intros j Hj Hg. apply C6; [by apply En|]. by rewrite (superseded_gone c vf to s e h vh plan L P s2 j (sf_heads _ _ Hs)). }
  assert (gone h plan h) as Hgh by by right. destruct (lv_open _ _ _ _ _ L) as (Eh & _).
  destruct (update_inv _ _ _ _ _ _ _ _ _ _ _ _ _ _ Hrun) as (carry & re & s2 & s3 & u & Hca & Hre & Hs & Hc3 & Hap); [|done|done|].
  { intros s2 s3 u Hs Hc3. destruct (Hcl _ _ _ Hs Hc3) as (C1 & C2 & C3 & _). split; [|done].
    intros h' v Hh' Hv. rewrite C1, (lv_head _ _ _ _ _ L) in Hh'. injection Hh' as <-. rewrite (C3 _ _ Eh) in Hv.
    injection Hv as <-. destruct (Hac s2 h vh Hs Eh) as [[_ Hn]|[-> _]]; [done|by left]. }
  exists carry, re. rewrite <- Eto in *. set (items := update_items carry re _ _) in *.
  assert (sublist (item_ids items) (update_ids vid o1 o2)) as Hsub.
  { unfold items. rewrite update_items_ids. apply update_ids_sublist; intros i' Hi.
    - apply fmap_Some in Hi as (pl & -> & ->). by eapply carried_id.
    - apply fmap_Some in Hi as (pl & -> & ->). by eapply reasserts_id. }
  destruct (Hcl _ _ _ Hs Hc3) as (C1 & C2 & C3 & C4 & C5).
  constructor; [done..|by eapply sublist_NoDup| |].
  - intros j Hj. unfold fresh in Hf. rewrite Forall_forall in Hf. apply Hf. eapply elem_of_submseteq; [done|by apply sublist_submseteq].
  - exists s3. split; [apply appended_spec; [done|by eapply sublist_NoDup]|]. split_and!; [done..| |done|done].
    intros j v Hv. rewrite (C3 _ _ Hv). fold plan. destruct (Hac s2 j v Hs Hv) as [[-> ?]|[-> ?]]; done.
Qed.
Section Outcome.
Variables (c t to : HybridTimestamp) (s s' : Store X) (e : Z) (h vid : VersionId) (vh : Version X).
Variables (lbl : Z) (en : X) (props : PropertyMap) (prov : option Provenance) (o1 o2 : option VersionId).
Variables (carry re : option payload).
Hypothesis L : live c s e h vh.
Hypothesis Hends : forall j v, versions s !! j = Some v -> entity v = e -> ends v = en.
Hypothesis Hc : (c < TIMESTAMP_MAX)%ts.
Hypothesis Ef : update_effect c t s s' e h vid vh lbl en props prov o1 o2 to carry re.
Abbreviation plan := (plan_entity_update s e t).
Abbreviation new := (mkItem vid t to lbl props prov).
Abbreviation items := (update_items carry re new t).

Lemma ef_hold j v : versions s !! j = Some v -> ~ gone h plan j -> exists n, versions s' !! j = Some (with_next n v).
Proof.
  intros Hv Hg. destruct (ef_mid _ _ _ _ _ _ _ _ _ _ _ _ _ _ _ _ _ Ef) as (s3 & A & _ & _ & C & _).
  apply (ap_kept _ _ _ _ _ _ A); [|by apply C]. intros Hj%(ef_fresh _ _ _ _ _ _ _ _ _ _ _ _ _ _ _ _ _ Ef). congruence.
Qed.
Lemma ef_gone j v : versions s !! j = Some v -> gone h plan j -> exists n, versions s' !! j = Some (with_next n (closed_at c v)).
Proof.
  intros Hv Hg. destruct (ef_mid _ _ _ _ _ _ _ _ _ _ _ _ _ _ _ _ _ Ef) as (s3 & A & _ & _ & C & _).
  apply (ap_kept _ _ _ _ _ _ A); [|by apply C]. intros Hj%(ef_fresh _ _ _ _ _ _ _ _ _ _ _ _ _ _ _ _ _ Ef). congruence.
Qed.
Lemma ef_none j : j ∉ item_ids items -> versions s !! j = None -> versions s' !! j = None.
Proof.
  intros Hj Hv. destruct (ef_mid _ _ _ _ _ _ _ _ _ _ _ _ _ _ _ _ _ Ef) as (s3 & A & _ & B & _).
  apply (ap_kept _ _ _ _ _ _ A); auto.
Qed.
Lemma ef_item x : x ∈ items ->
  (exists v, versions s' !! i_id x = Some v /\ is_item e c en x v) /\ (reconstruct (i_id x) s').2 = Ok (i_props x).
Proof.
  intros Hx. destruct (ef_mid _ _ _ _ _ _ _ _ _ _ _ _ _ _ _ _ _ Ef) as (s3 & A & _).
  destruct (ap_item _ _ _ _ _ _ A _ Hx) as [Hi Hp]. split; [done|]. by rewrite reconstruct_value, Hp.
Qed.

(** The entity stays alive, headed by the re-asserted head or the new version. *)
Lemma ef_live : exists h' vh', forall c', (c < c')%ts -> live c' s' e h' vh'.
Proof.
  pose proof (ef_planned _ _ _ _ _ _ _ _ _ _ _ _ _ _ _ _ _ Ef) as P.
  pose proof (ef_re _ _ _ _ _ _ _ _ _ _ _ _ _ _ _ _ _ Ef) as Hre. pose proof (ef_carry _ _ _ _ _ _ _ _ _ _ _ _ _ _ _ _ _ Ef) as Hca.
  destruct (ef_mid _ _ _ _ _ _ _ _ _ _ _ _ _ _ _ _ _ Ef) as (s3 & A & B1 & B2 & B3 & B4 & B5).
  assert (exists x, x ∈ items /\ last (item_ids items) = Some (i_id x) /\ i_to x = TIMESTAMP_MAX /\ (i_from x < i_to x)%ts)
    as (x & Hx & Hlast & Hto & Hne).
  { unfold update_items. rewrite app_assoc, List.map_app. destruct re as [[[[[id f] l'] p'] pv]|] eqn:Er.
    - exists (mkItem id f TIMESTAMP_MAX l' p' pv). simpl. rewrite last_snoc. split_and!; [set_solver|done|done|]. simpl.
      unfold reasserts in Hre. destruct (reassert plan) as [r|] eqn:Epr; [|done].
      destruct Hre as (? & w & Hw & [= <-] & id' & w' & p0 & _ & Hw' & _ & [= -> -> -> -> ->]).
      destruct (pl_reassert _ _ _ _ _ _ _ P _ Epr) as (-> & _). destruct (lv_open _ _ _ _ _ L) as (Eh & _ & Ho).
      assert (w = vh) as -> by congruence. apply open_slice_iff in Ho as [_ Ho]. by rewrite (lv_current _ _ _ _ _ L) in Ho.
    - exists new. simpl. rewrite app_nil_r, List.map_app. simpl. rewrite app_nil_r, last_snoc. split_and!; [set_solver|done| |apply (pl_after _ _ _ _ _ _ _ P)].
      unfold reasserts in Hre. destruct (reassert plan) as [r|] eqn:Epr.
      { destruct Hre as (? & ? & _ & ? & _). done. }
      simpl. rewrite (pl_to _ _ _ _ _ _ _ P). by destruct (pl_head _ _ _ _ _ _ _ P Epr) as [_ ->]. }
  destruct (ef_item _ Hx) as [(v & Hv & Hi) _]. exists (i_id x), v. intros c' Hc'.
  assert (forall j v', open s' e j v' -> _) as Hopen
    by exact (after_open c t to s s' e h vid lbl en props prov carry re plan Hc ef_hold ef_gone ef_none (fun x Hx => proj1 (ef_item x Hx))).
  constructor.
  - by rewrite (ap_heads _ _ _ _ _ _ A), Hlast.
  - split_and!; [done|by destruct Hi as (_ & ? & _)|]. by eapply item_open.
  - destruct Hi as (_ & _ & -> & _). done.
  - intros j w Hw. destruct (Hopen _ _ Hw) as [(y & Hy & -> & Iy)|(w0 & n & Hw0 & Hg & ->)].
    + assert (i_from y < i_to y)%ts as Hlt by (apply (item_open e c en y w Iy), Hw).
      destruct (ap_new _ _ _ _ _ _ A _ Hy Hlt) as [E|E]; [left|by right].
      rewrite (ap_heads _ _ _ _ _ _ A), Hlast in E. congruence.
    + right. apply (ap_old _ _ _ _ _ _ A), B5; [|done]. destruct (lv_tracked _ _ _ _ _ L _ _ Hw0) as [->|]; [|done].
      exfalso. apply Hg. by right.
  - intros j w Hj Hw.
    destruct (after_cases c t to s s' e h vid lbl en props prov carry re plan ef_hold ef_gone ef_none (fun x Hx => proj1 (ef_item x Hx)) _ _ Hw)
      as [(y & Hy & -> & (_ & ? & _))|[(w0 & n & Hw0 & _ & ->)|(w0 & n & Hw0 & Hg & ->)]]; [done| |].
    + apply (ap_from _ _ _ _ _ _ A) in Hj as [Hj|[Hj|Hj]].
      * apply B4 in Hj. by apply (lv_owned _ _ _ _ _ L j w0).
      * rewrite B1, (lv_head _ _ _ _ _ L) in Hj. injection Hj as <-. destruct (lv_open _ _ _ _ _ L) as (Eh & ? & _). simpl. congruence.
      * apply (ef_fresh _ _ _ _ _ _ _ _ _ _ _ _ _ _ _ _ _ Ef) in Hj. congruence.
    + destruct (gone_open c t to s e h vh plan L P _ Hg) as (w1 & Hw1 & ? & _). simpl. congruence.
  - exact (after_disjoint c t to s s' e h vid vh lbl en props prov o1 o2 carry re plan L Hends Hc P Hca Hre
      (ef_nodup _ _ _ _ _ _ _ _ _ _ _ _ _ _ _ _ _ Ef) (ef_fresh _ _ _ _ _ _ _ _ _ _ _ _ _ _ _ _ _ Ef)
      ef_hold ef_gone ef_none (fun x Hx => proj1 (ef_item x Hx))).
  - intros j w Hw He.
    destruct (after_settled c t to s s' e h vid vh lbl en props prov carry re plan L ef_hold ef_gone ef_none (fun x Hx => proj1 (ef_item x Hx)) _ _ Hw He) as [S1 S2].
    split; [ts_lia|]. destruct S2 as [|S2]; [by left|right; ts_lia].
Qed.

(** The belief of the new store in terms of the old one. *)
Lemma ef_disjoint : disjoint_slices s' e.
Proof. destruct ef_live as (h' & vh' & Hl). intros i v j w vt. eapply (lv_disjoint _ _ _ _ _ (Hl (mkTs (wallclock c + 1) 0) ltac:(ts_lia))). Qed.
Lemma ef_settled : settled c s' e.
Proof.
  exact (after_settled c t to s s' e h vid vh lbl en props prov carry re plan L ef_hold ef_gone ef_none (fun x Hx => proj1 (ef_item x Hx))).
Qed.

Variables (l l' : list VersionId) (vt tt : HybridTimestamp) (nf : Error).
Hypothesis Hl : history s e l.
Hypothesis Hl' : history s' e l'.
Hypothesis Hct : (c <= tt)%ts.
Hypothesis Htm : (tt < TIMESTAMP_MAX)%ts.
Hypothesis Hreads : forall j p, j ∈ l -> (reconstruct j s).2 = Ok p -> (reconstruct j s').2 = Ok p.

Lemma find_before j : find_version_at_time s e vt tt = Some j <-> exists v, open s e j v /\ covers v vt.
Proof. apply (find_open c s e l); [done|by eapply live_settled| |done..]. intros i v k w u. apply (lv_disjoint _ _ _ _ _ L). Qed.
Lemma find_after j : find_version_at_time s' e vt tt = Some j <-> exists v, open s' e j v /\ covers v vt.
Proof. apply (find_open c s' e l'); [done|apply ef_settled|apply ef_disjoint|done..]. Qed.

Lemma read_new :
  (t <= vt)%ts -> (vt < to)%ts -> (entity_at_time it config nf e vt tt s').2 = Ok (lbl, en, props, vid).
Proof.
  intros H1 H2. assert (new ∈ items) as Hn by (unfold update_items; rewrite !elem_of_app; right; left; by apply list_elem_of_singleton).
  pose proof (ef_planned _ _ _ _ _ _ _ _ _ _ _ _ _ _ _ _ _ Ef) as P.
  destruct (ef_item _ Hn) as [(v & Hv & Hi) Hr]. apply entity_at_time_ok. exists vid, v.
  pose proof (proj2 (item_open e c en new v Hi) (pl_after _ _ _ _ _ _ _ P)) as Ho.
  pose proof (item_covers c e en new v vt Hi) as Hcv. destruct Hi as (I1 & I2 & _ & I4 & I5 & _).
  split; [|split; [done|]].
  - apply find_after. exists v. split; [by split_and!|]. by apply Hcv.
  - exists props. split; [done|]. rewrite I1, I4, I5. done.
Qed.

Lemma read_kept lbl0 en0 p0 i0 :
  ~ ((t <= vt)%ts /\ (vt < to)%ts) -> (entity_at_time it config nf e vt tt s).2 = Ok (lbl0, en0, p0, i0) ->
  exists i1, (entity_at_time it config nf e vt tt s').2 = Ok (lbl0, en0, p0, i1).
Proof.
  intros Hz (j & v & Hj & Hv & p & Hp & [= -> -> -> ->])%entity_at_time_ok.
  pose proof (proj1 (find_before _) Hj) as (v0 & Hv0 & Hcv). assert (v0 = v) as -> by (destruct Hv0 as [? _]; congruence).
  assert (j ∈ l) as Hjl by (apply (hi_mem _ _ _ Hl); destruct Hv0 as (? & ? & _); eauto).
  destruct (after_kept c t to s s' e h vid vh lbl en props prov o1 o2 carry re plan L Hends Hc
      (ef_planned _ _ _ _ _ _ _ _ _ _ _ _ _ _ _ _ _ Ef) (ef_carry _ _ _ _ _ _ _ _ _ _ _ _ _ _ _ _ _ Ef)
      (ef_re _ _ _ _ _ _ _ _ _ _ _ _ _ _ _ _ _ Ef) (ef_nodup _ _ _ _ _ _ _ _ _ _ _ _ _ _ _ _ _ Ef)
      (ef_fresh _ _ _ _ _ _ _ _ _ _ _ _ _ _ _ _ _ Ef) ef_hold ef_gone ef_none (fun x Hx => proj1 (ef_item x Hx)) j v vt Hv0 Hcv Hz)
    as (j' & v' & Hv' & Hcv' & E1 & E2 & _ & Hr).
  exists (id v'). apply entity_at_time_ok. exists j', v'. split; [apply find_after; eauto|]. split; [apply Hv'|].
  exists p. rewrite E1, E2. split; [|done]. destruct Hr as [->|(x & Hx & -> & Hpx)]; [by apply Hreads|].
  rewrite (proj2 (ef_item _ Hx)). congruence.
Qed.

Lemma read_nothing :
  ~ ((t <= vt)%ts /\ (vt < to)%ts) -> find_version_at_time s e vt tt = None -> find_version_at_time s' e vt tt = None.
Proof.
  intros Hz Hn. destruct (find_version_at_time s' e vt tt) as [j|] eqn:Ej; [|done].
  apply find_after in Ej as (v & Hv & Hcv).
  destruct (after_none c t to s s' e h vid vh lbl en props prov o1 o2 carry re plan L Hends Hc
      (ef_planned _ _ _ _ _ _ _ _ _ _ _ _ _ _ _ _ _ Ef) (ef_carry _ _ _ _ _ _ _ _ _ _ _ _ _ _ _ _ _ Ef)
      (ef_re _ _ _ _ _ _ _ _ _ _ _ _ _ _ _ _ _ Ef) (ef_nodup _ _ _ _ _ _ _ _ _ _ _ _ _ _ _ _ _ Ef)
      (ef_fresh _ _ _ _ _ _ _ _ _ _ _ _ _ _ _ _ _ Ef) ef_hold ef_gone ef_none (fun x Hx => proj1 (ef_item x Hx)) j v vt Hv Hcv Hz)
    as (k & w & Hw & Hcw).
  assert (find_version_at_time s e vt tt = Some k) as Hk by (apply find_before; eauto). congruence.
Qed.
End Outcome.

(** C16: A successful update of a live entity at valid time [vf] and commit [c]: from the
    commit on, reads at the valid times from [vf] up to the next change that was
    recorded return exactly the written label, end points, properties and version;
    reads at every other valid time return what they returned; the entity stays live. *)
Theorem update_supersedes e vf c vid lbl en props prov o1 o2 s s' a h vh l nf :
  live c s e h vh -> history s e l -> (forall j v, versions s !! j = Some v -> entity v = e -> ends v = en) ->
  (vf < TIMESTAMP_MAX)%ts -> (c < TIMESTAMP_MAX)%ts ->
  fresh (update_ids vid o1 o2) s -> NoDup (update_ids vid o1 o2) ->
  apply_update it ptr_eq map_ptr_eq config pre_anchor_hooks e (plan_entity_update s e vf) vf c vid lbl en props prov o1 o2 s = (s', Ok a) ->
  let to := default TIMESTAMP_MAX (new_valid_to (plan_entity_update s e vf)) in
  (vf < to)%ts /\
  (forall vt tt, (c <= tt)%ts -> (tt < TIMESTAMP_MAX)%ts ->
    ((vf <= vt)%ts -> (vt < to)%ts -> (entity_at_time it config nf e vt tt s').2 = Ok (lbl, en, props, vid)) /\
    (~ ((vf <= vt)%ts /\ (vt < to)%ts) ->
       (find_version_at_time s e vt tt = None -> find_version_at_time s' e vt tt = None) /\
       (forall lbl0 en0 p0 i0, (entity_at_time it config nf e vt tt s).2 = Ok (lbl0, en0, p0, i0) ->
          exists i1, (entity_at_time it config nf e vt tt s').2 = Ok (lbl0, en0, p0, i1)))) /\
  (exists h' vh', forall c', (c < c')%ts -> live c' s' e h' vh').
Proof.
  intros L Hl Hends Hvf Hc Hf Hnd Hrun to.
  destruct (update_effect_ok _ _ _ _ _ _ _ _ _ _ _ _ _ _ _ L Hvf Hc Hrun Hf Hnd) as (carry & re & Ef). fold to in Ef.
  pose proof (apply_update_step it config ptr_eq map_ptr_eq pre_anchor_hooks c e (plan_entity_update s e vf) vf vid lbl en props prov o1 o2 Hnd s Hf) as Hx.
  rewrite Hrun in Hx. destruct (ex_history _ _ _ _ _ _ Hx _ _ Hl) as (l' & Hl' & _).
  assert (forall j p, j ∈ l -> (reconstruct j s).2 = Ok p -> (reconstruct j s').2 = Ok p) as Hreads.
  { intros j p Hj. apply (gr_reads _ _ _ _ _ _ (ex_grows _ _ _ _ _ _ Hx) (fun w => w ∈ l)); [|by eapply history_closed|done].
    intros i Hi (v & Hv & _)%(hi_mem _ _ _ Hl). unfold fresh in Hf. rewrite Forall_forall in Hf. by rewrite Hf in Hv. }
  split; [apply (pl_after _ _ _ _ _ _ _ (ef_planned _ _ _ _ _ _ _ _ _ _ _ _ _ _ _ _ _ Ef))|].
  split; [|by eapply ef_live]. intros vt tt Hct Htm. split.
  - intros H1 H2. by eapply read_new.
  - intros Hz. split; [by eapply read_nothing|]. intros. by eapply read_kept.
Qed.
(** *** Creation and deletion *)

(** An append of a version with its own provenance is one [item]. *)
Lemma add_provenance_ok e vid vf c lbl en props b prov s s' u :
  add_version_with_provenance it ptr_eq map_ptr_eq config pre_anchor_hooks e vid vf c lbl en props b prov s = (s', Ok u) ->
  versions s !! vid = None -> quiet s e c ->
  added e c en (mkItem vid vf (if b then vf else TIMESTAMP_MAX) lbl props prov) s s'.
Proof.
  intros (s1 & t & [= <- Ht] & (s2 & t' & [= <- Ht'] & Ha)%sm_bind_inv)%sm_bind_inv Hf Hq.
  eapply (add_quiet e c en (mkItem vid vf (if b then vf else TIMESTAMP_MAX) lbl props prov)); [|done|done]. simpl.
  destruct b; [pose proof (interval_ok _ _ _ (Some vf) _ Ht Ht') as ->|pose proof (interval_ok _ _ _ None _ Ht Ht') as ->]; exact Ha.
Qed.

Lemma added_cases e c en x s s' j v' :
  added e c en x s s' -> versions s' !! j = Some v' ->
  (j = i_id x /\ is_item e c en x v') \/ (exists v n, versions s !! j = Some v /\ v' = with_next n v).
Proof.
  intros A Hv'. destruct (decide (j = i_id x)) as [->|Hj].
  - left. destruct (ad_item _ _ _ _ _ _ A) as (v & Hv & Hi). split; [done|]. by simplify_eq.
  - right. destruct (ad_kept _ _ _ _ _ _ A j) as [K1 K2]; [by intros ?%list_elem_of_singleton|].
    destruct (versions s !! j) as [v|] eqn:Ev; [|by rewrite K2 in Hv'].
    destruct (K1 _ eq_refl) as [n Hn]. exists v, n. split; [done|congruence].
Qed.

Lemma add_provenance_history e vid vf c lbl en props b prov s l :
  versions s !! vid = None -> history s e l ->
  exists l', history (add_version_with_provenance it ptr_eq map_ptr_eq config pre_anchor_hooks e vid vf c lbl en props b prov s).1 e l'.
Proof.
  intros Hf Hl.
  pose proof (exec_step it config ptr_eq map_ptr_eq pre_anchor_hooks c (WAdd e vid vf lbl en props b prov) (NoDup_singleton _) s) as Hx.
  destruct (ex_history _ _ _ _ _ _ (Hx ltac:(by constructor)) _ _ Hl) as (l' & Hl' & _). eauto.
Qed.

(** A created entity is live, and reads at its valid times return what was written. *)
Theorem create_reads_back e vid vf c lbl en props prov s s' u nf :
  version_heads s !! e = None -> history s e [] -> node_open_slices s e = [] ->
  versions s !! vid = None -> (vf < TIMESTAMP_MAX)%ts -> (c < TIMESTAMP_MAX)%ts ->
  add_version_with_provenance it ptr_eq map_ptr_eq config pre_anchor_hooks e vid vf c lbl en props false prov s = (s', Ok u) ->
  (exists vh, forall c', (c < c')%ts -> live c' s' e vid vh) /\ (exists l, history s' e l) /\
  forall vt tt, (c <= tt)%ts -> (tt < TIMESTAMP_MAX)%ts ->
    ((vf <= vt)%ts -> (vt < TIMESTAMP_MAX)%ts -> (entity_at_time it config nf e vt tt s').2 = Ok (lbl, en, props, vid)) /\
    ((vt < vf)%ts -> find_version_at_time s' e vt tt = None).
Proof.
  intros Hh Hl0 Hno Hf Hvf Hc Hadd. pose proof (add_provenance_history e vid vf c lbl en props false prov s [] Hf Hl0) as [l Hl].
  rewrite Hadd in Hl. simpl in Hl. destruct Hl0 as [_ Hm].
  apply add_provenance_ok in Hadd; [|done|intros h v Hh'; congruence]. simpl in Hadd. set (x := mkItem _ _ _ _ _ _) in *.
  assert (forall j v', versions s' !! j = Some v' -> entity v' = e -> j = vid /\ is_item e c en x v') as Hall.
  { intros j v' Hv' He. destruct (added_cases _ _ _ _ _ _ _ _ Hadd Hv') as [?|(v & n & Hv & ->)]; [done|].
    assert (j ∈ []) as []%not_elem_of_nil. apply Hm. by exists v. }
  destruct (ad_item _ _ _ _ _ _ Hadd) as (v & Hv & Hi). simpl in Hv.
  assert (open s' e vid v) as Ho.
  { split_and!; [done|by destruct Hi as (_ & ? & _)|]. by apply (item_open e c en x). }
  assert (settled c s' e) as Hs.
  { intros j w Hw He. destruct (Hall _ _ Hw He) as [_ (_ & _ & -> & _)]. split; [by right|by left]. }
  assert (disjoint_slices s' e) as Hd.
  { intros i w j w' vt (Hw & He & _) (Hw' & He' & _) _ _. destruct (Hall _ _ Hw He), (Hall _ _ Hw' He'). congruence. }
  split; [|split; [by exists l|]].
  - exists v. intros c' Hc'. constructor; [by rewrite (ad_heads _ _ _ _ _ _ Hadd), lookup_insert_eq|done| | | |done|].
    + by destruct Hi as (_ & _ & -> & _).
    + intros j w (Hw & He & _). left. by destruct (Hall _ _ Hw He).
    + intros j w Hj _. apply (ad_tracks _ _ _ _ _ _ Hadd) in Hj as [Hj|[_ Hj]]; [by rewrite Hno in Hj; apply elem_of_nil in Hj|congruence].
    + intros j w Hw He. destruct (Hs _ _ Hw He) as [H1 [H2|H2]]; (split; [ts_lia|]); [by left|right; ts_lia].
  - intros vt tt Hct Htm. pose proof (fun j => find_open c s' e l vt tt j Hl Hs Hd Hct Htm) as Hfind.
    pose proof (item_covers c e en x v vt Hi) as Hcv. split.
    + intros H1 H2. apply entity_at_time_ok. exists vid, v. split; [apply Hfind; exists v; split; [done|by apply Hcv]|].
      split; [done|]. exists props. pose proof (ad_props _ _ _ _ _ _ Hadd) as Hp. simpl in Hp. rewrite reconstruct_value, Hp. split; [done|].
      by destruct Hi as (-> & _ & _ & -> & -> & _).
    + intros Hlt. destruct (find_version_at_time s' e vt tt) as [j|] eqn:Ej; [|done].
      destruct (proj1 (Hfind j) eq_refl) as (w & (Hw & He & _) & Hcw). destruct (Hall _ _ Hw He) as [_ Hiw].
      apply (item_covers c e en x w vt Hiw) in Hcw as [Hcw _]. simpl in Hcw. ts_lia.
Qed.

(** A delete ends every belief about a live entity: from the commit on no valid time
    shows a version, while the history below the commit is kept by [history_immutable]. *)
Theorem delete_ends_beliefs e vid vf c lbl en props prov s s1 s2 h vh l u1 u2 :
  live c s e h vh -> history s e l -> (c < TIMESTAMP_MAX)%ts -> versions s !! vid = None ->
  close_all_slices e c s = (s1, Ok u1) ->
  add_version_with_provenance it ptr_eq map_ptr_eq config pre_anchor_hooks e vid vf c lbl en props true prov s1 = (s2, Ok u2) ->
  forall vt tt, (c <= tt)%ts -> (tt < TIMESTAMP_MAX)%ts -> find_version_at_time s2 e vt tt = None.
Proof.
  intros L Hl Hc Hf (s0 & ? & [= <- <-] & Hcl)%sm_bind_inv Hadd vt tt Hct Htm.
  assert (history s1 e l) as Hl1.
  { pose proof (close_recorded_step it config c (node_open_slices s e ++ option_list (version_heads s !! e)) s ltac:(constructor)) as Hx.
    rewrite Hcl in Hx. destruct (ex_history _ _ _ _ _ _ Hx _ _ Hl) as (l' & Hl' & Hn). destruct l' as [|k l']; [done|].
    exfalso. by apply (not_elem_of_nil k), Hn; constructor. }
  apply close_recorded_ok in Hcl as (C1 & _ & _ & C4 & _ & _); [|intros ->; ts_lia].
  assert (versions s1 !! vid = None) as Hf1 by by rewrite C4, Hf.
  assert (forall j v, versions s1 !! j = Some v -> entity v = e -> is_open_slice (temporal v) = false /\
    (tx_start (temporal v) <= c)%ts /\ (tx_end (temporal v) = TIMESTAMP_MAX \/ (tx_end (temporal v) <= c)%ts)) as Hall.
  { intros j v Hv He. rewrite C4 in Hv. apply fmap_Some in Hv as (w & Hw & ->). unfold after_close in *.
    destruct (bool_decide _ && _) eqn:Eb.
    - destruct (lv_past _ _ _ _ _ L _ _ Hw He) as [H1 _]. split_and!; [|by left|right; by right].
      apply not_true_iff_false. rewrite open_slice_iff. unfold tx_end. simpl. intros [H2 _]. rewrite H2 in Hc. ts_lia.
    - destruct (lv_past _ _ _ _ _ L _ _ Hw He) as [H1 H2]. split_and!; [|by left|done].
      apply not_true_iff_false. intros Ho. apply andb_false_iff in Eb as [Eb|Eb].
      + apply bool_decide_eq_false in Eb. apply Eb, elem_of_app. rewrite (lv_head _ _ _ _ _ L).
        destruct (lv_tracked _ _ _ _ _ L j w) as [->|]; [by split_and!|right; constructor|by left].
      + apply open_slice_iff in Ho as [Ho _]. apply recorded_end in Ho. congruence. }
  pose proof (add_provenance_history e vid vf c lbl en props true prov s1 l Hf1 Hl1) as [l2 Hl2]. rewrite Hadd in Hl2.
  apply add_provenance_ok in Hadd; [|done|]. 2:{
    intros k v Hk Hv. rewrite C1, (lv_head _ _ _ _ _ L) in Hk. injection Hk as <-. left. intros E.
    rewrite C4 in Hv. destruct (lv_open _ _ _ _ _ L) as (Eh & _ & [Ho _]%open_slice_iff). rewrite Eh in Hv. injection Hv as <-.
    unfold after_close in E. rewrite bool_decide_true, (proj2 (recorded_end _) Ho) in E;
      [|rewrite (lv_head _ _ _ _ _ L); apply elem_of_app; right; constructor].
    unfold tx_end in E. simpl in E. rewrite E in Hc. ts_lia. }
  set (x := mkItem _ _ _ _ _ _) in *.
  assert (forall j v, open s2 e j v -> False) as Hno.
  { intros j v (Hv & He & Ho). destruct (added_cases _ _ _ _ _ _ _ _ Hadd Hv) as [[_ Hi]|(w & n & Hw & ->)].
    - apply (item_open e c en x v Hi) in Ho. simpl in Ho. ts_lia.
    - destruct (Hall _ _ Hw He) as [Hn _]. simpl in Ho. congruence. }
  destruct (find_version_at_time s2 e vt tt) as [j|] eqn:Ej; [|done].
  apply (find_open c s2 e l2) in Ej as (v & Hv & _); [by destruct (Hno j v)|done| |by intros i v ? ? ? Hv%Hno|done|done].
  intros k v Hv He. destruct (added_cases _ _ _ _ _ _ _ _ Hadd Hv) as [[_ (_ & _ & -> & _)]|(w & n & Hw & ->)]; [split; [by right|by left]|].
  by destruct (Hall _ _ Hw He) as [_ ?].
Qed.
End Updates.
