(* ===== verification/HistoryWitness.v ===== *)
(** * The theorems on the historical storage at a concrete history

    One node: created at commit 1000 with valid time 100, updated at commit 2000
    from valid time 500 on, deleted at commit 2000. *)

From S2P Require Import Prelude.
From S2P Require Import Bytes.
From S2P Require Import Errors.
From S2P Require Import Hlc.
From S2P Require Import Temporal.
From S2P Require Import Ids.
From S2P Require Import Interning.
From S2P Require Import Property.
From S2P Require Import PropMap.
From S2P Require Import Provenance.
From S2P Require Import Delta.
From S2P Require Import History.
From S2P Require Import Slices.
From S2P Require Import HistoryFacts.
From S2P Require Import Chains.
From S2P Require Import Beliefs.

Module HistoryWitness.
Import PropMap Prov Delta History Slices.

Definition ts (w : Z) : HybridTimestamp := mkTs w 0.
Abbreviation no_ptr := DeltaWitness.no_ptr.
Abbreviation no_map_ptr := DeltaWitness.no_map_ptr.
Definition no_hooks : Z -> HybridTimestamp -> PropertyMap -> option Z := fun _ _ _ => None.
Definition p (n : Z) : PropertyMap := mkMap {[ 0 := PInt n ]} 19.
Definition nf : Error := EStorage (NodeNotFound 1).

Definition create (s : Store unit) :=
  add_version_with_provenance MapWitness.st0 no_ptr no_map_ptr default_config no_hooks 1 1 (ts 100) (ts 1000) 7 () (p 1) false None s.
Definition s1 : Store unit := (create (empty_store unit)).1.
Definition v1 : Version unit :=
  mkVersion unit 1 1 (mkInterval (mkRange (ts 100) TIMESTAMP_MAX) (mkRange (ts 1000) TIMESTAMP_MAX)) 7 () (anchor (p 1)) (ts 1000) None None None.

Lemma s1_versions : versions s1 = {[ 1 := v1 ]}.
Proof. vm_compute. reflexivity. Qed.
Lemma s1_only j v : versions s1 !! j = Some v -> j = 1 /\ v = v1.
Proof. rewrite s1_versions. by intros [<- <-]%lookup_singleton_Some. Qed.

Lemma s1_history : history s1 1 [1].
Proof.
  constructor.
  - replace (version_heads s1 !! 1) with (Some 1) by (vm_compute; reflexivity).
    apply (chain_cons _ _ v1); [rewrite s1_versions; apply lookup_singleton_eq|constructor].
  - intros j. rewrite list_elem_of_singleton. split.
    + intros ->. exists v1. rewrite s1_versions. by rewrite lookup_singleton_eq.
    + by intros (v & [-> _]%s1_only & _).
Qed.

Lemma s1_live : live (ts 2000) s1 1 1 v1.
Proof.
  assert (open s1 1 1 v1) as Ho by (split_and!; [rewrite s1_versions; apply lookup_singleton_eq|done|by vm_compute]).
  constructor; [by vm_compute|done|done| | | |].
  - intros j v (Hv & _). left. by apply s1_only in Hv as [-> _].
  - intros j v _ [_ ->]%s1_only. done.
  - intros i v j w vt (Hv & _) (Hw & _) _ _. apply s1_only in Hv as [-> _], Hw as [-> _]. done.
  - intros j v [_ ->]%s1_only _. split; [by apply ts_ltb_lt; vm_compute|by left].
Qed.

Definition update_run :=
  apply_update MapWitness.st0 no_ptr no_map_ptr default_config no_hooks 1 (plan_entity_update s1 1 (ts 500)) (ts 500) (ts 2000)
    2 8 () (p 2) None (Some (Id.STRUCTURAL_VERSION_TAG + 10)) None s1.

Lemma update_supersedes_witness :
  exists s' a, update_run = (s', Ok a) /\
  (entity_at_time MapWitness.st0 default_config nf 1 (ts 600) (ts 2500) s').2 = Ok (8, (), p 2, 2) /\
  exists i1, (entity_at_time MapWitness.st0 default_config nf 1 (ts 200) (ts 2500) s').2 = Ok (7, (), p 1, i1).
Proof.
  assert (is_ok update_run.2 = true) as Hok by (vm_compute; reflexivity).
  destruct update_run as [s' [a|e|]] eqn:E; try discriminate Hok. exists s', a. split; [reflexivity|].
  destruct (update_supersedes MapWitness.st0 default_config no_ptr no_map_ptr no_hooks 1 (ts 500) (ts 2000) 2 8 () (p 2) None
    (Some (Id.STRUCTURAL_VERSION_TAG + 10)) None s1 s' a 1 v1 [1] nf) as (_ & Hr & _).
  - apply s1_live.
  - apply s1_history.
  - intros j v _ _. by destruct (ends v).
  - apply ts_ltb_lt; vm_compute; reflexivity.
  - apply ts_ltb_lt; vm_compute; reflexivity.
  - repeat constructor.
  - vm_compute. repeat (constructor; [set_solver|]). constructor.
  - exact E.
  - split.
    + apply (Hr (ts 600) (ts 2500)); [apply ts_leb_le|apply ts_ltb_lt|apply ts_leb_le|apply ts_ltb_lt]; vm_compute; reflexivity.
    + apply (Hr (ts 200) (ts 2500)) with (i0 := 1); [apply ts_leb_le; vm_compute; reflexivity|apply ts_ltb_lt; vm_compute; reflexivity| |].
      * intros [Hle _]. apply ts_leb_le in Hle. vm_compute in Hle. discriminate Hle.
      * vm_compute. reflexivity.
Defined.

Lemma create_reads_back_witness :
  (entity_at_time MapWitness.st0 default_config nf 1 (ts 300) (ts 1000) s1).2 = Ok (7, (), p 1, 1).
Proof.
  assert (create (empty_store unit) = (s1, Ok ())) as E by (unfold s1; vm_compute; reflexivity).
  destruct (create_reads_back MapWitness.st0 default_config no_ptr no_map_ptr no_hooks 1 1 (ts 100) (ts 1000) 7 () (p 1) None
    (empty_store unit) s1 () nf) as (_ & _ & Hr).
  - reflexivity.
  - constructor; [constructor|]. intros j. split; [intros []%not_elem_of_nil|]. intros (v & Hv & _). discriminate Hv.
  - reflexivity.
  - reflexivity.
  - apply ts_ltb_lt; vm_compute; reflexivity.
  - apply ts_ltb_lt; vm_compute; reflexivity.
  - exact E.
  - apply (Hr (ts 300) (ts 1000)); [apply ts_leb_le|apply ts_ltb_lt|apply ts_leb_le|apply ts_ltb_lt]; vm_compute; reflexivity.
Defined.

Definition closed1 : Store unit := (close_all_slices 1 (ts 2000) s1).1.
Definition deleted : Store unit :=
  (add_version_with_provenance MapWitness.st0 no_ptr no_map_ptr default_config no_hooks 1 3 (ts 2000) (ts 2000) 7 () (p 1) true None closed1).1.

Lemma delete_ends_beliefs_witness : find_version_at_time deleted 1 (ts 300) (ts 2000) = None.
Proof.
  apply (delete_ends_beliefs MapWitness.st0 default_config no_ptr no_map_ptr no_hooks 1 3 (ts 2000) (ts 2000) 7 () (p 1) None
    s1 closed1 deleted 1 v1 [1] () ()).
  - apply s1_live.
  - apply s1_history.
  - apply ts_ltb_lt; vm_compute; reflexivity.
  - vm_compute. reflexivity.
  - vm_compute. reflexivity.
  - vm_compute. reflexivity.
  - apply ts_leb_le; vm_compute; reflexivity.
  - apply ts_ltb_lt; vm_compute; reflexivity.
Defined.
(** *** Sub-tolerance changes of a vector

    Three versions whose one-component vector moves by one unit in the last place
    each time, 0.5 + n * 2^-24, each step below the tolerance of the delta. *)
Definition vec (n : Z) : PropertyMap := mkMap {[ 0 := PVector [1056964608 + n] ]} 19.
Definition add_vec (n : Z) (s : Store unit) : Store unit :=
  (add_version_with_provenance MapWitness.st0 no_ptr no_map_ptr default_config no_hooks 1 (n + 1) (ts 100) (ts (1000 + n)) 7 () (vec n) false None s).1.
Definition drifted : Store unit := add_vec 2 (add_vec 1 (add_vec 0 (empty_store unit))).

(** The properties of the newest version, read with the caches the writes filled,
    and after its entries have left the caches. *)
Definition read3 (s : Store unit) := (History.reconstruct MapWitness.st0 default_config 3 s).2.
Definition evicted : Store unit := evict_anchor 3 (evict 3 drifted).

(** The version reads back exactly while it is cached; once its entries are evicted it
    reads as the oldest vector, two units in the last place away and beyond the
    tolerance, although each recorded step was within it. *)
Theorem eviction_changes_vector :
  (read3 drifted : res Error PropertyMap) = Ok (vec 2) /\
  (exists m, read3 evicted = Ok m /\ inner m !! 0 = Some (PVector [1056964608])) /\
  floats_approx_equal (1056964608 + 2) 1056964608 = false /\
  floats_approx_equal (1056964608 + 1) 1056964608 = true.
Proof.
  split; [vm_compute; reflexivity|]. split; [|split; vm_compute; reflexivity].
  destruct (read3 evicted) as [m|e|] eqn:E; [|vm_compute in E; discriminate E..].
  exists m. split; [reflexivity|]. vm_compute in E. injection E as <-. vm_compute. reflexivity.
Qed.
End HistoryWitness.
