(* ===== verification/Wal.v ===== *)
(** * Log entries: [src/storage/wal/entry.rs], [src/storage/wal/serialization.rs]

    The logged operations and their binary form with its checksum, and the
    buffer size estimate. The CRC-32 of the [crc32fast] crate is a parameter. *)

From S2P Require Import Prelude.
From S2P Require Import Bytes.
From S2P Require Import Errors.
From S2P Require Import Hlc.
From S2P Require Import Ids.
From S2P Require Import Interning.
From S2P Require Import Property.
From S2P Require Import PropMap.
From S2P Require Import Provenance.

Module Wal.
Import PropMap Prov.

Definition MAX_WAL_ENTRY_SIZE : Z := 64 * 1024 * 1024.
Definition LSN := Z.
Definition initial : LSN := 1.

Inductive WalOperation :=
  | CreateNode (node_id : NodeId) (label : Z) (properties : PropertyMap)
      (valid_from : HybridTimestamp) (provenance : option Provenance)
  | CreateEdge (edge_id : EdgeId) (source target : NodeId) (label : Z)
      (properties : PropertyMap) (valid_from : HybridTimestamp) (provenance : option Provenance)
  | UpdateNode (node_id : NodeId) (version_id : VersionId) (label : Z)
      (properties : PropertyMap) (valid_from : HybridTimestamp) (provenance : option Provenance)
  | UpdateEdge (edge_id : EdgeId) (version_id : VersionId) (label : Z)
      (properties : PropertyMap) (valid_from : HybridTimestamp) (provenance : option Provenance)
  | DeleteNode (node_id : NodeId) (valid_from : HybridTimestamp)
      (version_id : option VersionId) (provenance : option Provenance)
  | DeleteEdge (edge_id : EdgeId) (valid_from : HybridTimestamp)
      (version_id : option VersionId) (provenance : option Provenance)
  | RetractNode (node_id : NodeId) (valid_to : HybridTimestamp)
      (version_id : option VersionId) (provenance : option Provenance)
  | RetractEdge (edge_id : EdgeId) (valid_to : HybridTimestamp)
      (version_id : option VersionId) (provenance : option Provenance)
  | Checkpoint (lsn : LSN) (timestamp : HybridTimestamp)
  | DeclareUniqueConstraint (label property : Z)
  | DropUniqueConstraint (label property : Z)
  | BeginTx (tx_id : Z)
  | CommitTx (tx_id entry_count : Z) (commit_timestamp : HybridTimestamp).

Record WalEntry := mkEntry {
  lsn : LSN;
  timestamp : HybridTimestamp;
  operation : WalOperation;
  checksum : Z;
  framed : bool;
  segment_version : option Z }.

Definition OP_CREATE_NODE : Z := 1.
Definition OP_CREATE_EDGE : Z := 2.
Definition OP_UPDATE_NODE : Z := 3.
Definition OP_UPDATE_EDGE : Z := 4.
Definition OP_CHECKPOINT : Z := 5.
Definition OP_DELETE_NODE : Z := 6.
Definition OP_DELETE_EDGE : Z := 7.
Definition OP_DECLARE_UNIQUE_CONSTRAINT : Z := 8.
Definition OP_DROP_UNIQUE_CONSTRAINT : Z := 9.
Definition OP_RETRACT_NODE : Z := 10.
Definition OP_RETRACT_EDGE : Z := 11.
Definition OP_COMMIT_TX : Z := 12.
Definition OP_BEGIN_TX : Z := 13.
Definition TOMBSTONE_VERSION_ID_ABSENT : Z := u64_max.
#[export] Hint Unfold OP_CREATE_NODE OP_CREATE_EDGE OP_UPDATE_NODE OP_UPDATE_EDGE OP_CHECKPOINT
  OP_DELETE_NODE OP_DELETE_EDGE OP_DECLARE_UNIQUE_CONSTRAINT OP_DROP_UNIQUE_CONSTRAINT
  OP_RETRACT_NODE OP_RETRACT_EDGE OP_COMMIT_TX OP_BEGIN_TX TOMBSTONE_VERSION_ID_ABSENT : machine.

Section Ops.
Context {St : Type} `{Interner St}.
(** [crc32fast]: the checksum of the bytes fed to the hasher. *)
Variable crc32 : bytes -> Z.
Variable st : St.

(** *** Field writers *)
Definition serialize_label_str (s : Z) (buffer : bytes) : res Error bytes :=
  ok_or ((fun label => buffer ++ to_le 4 (blen label) ++ label) <$> i_resolve st s)
        (EStorage InconsistentState).

Definition label_serialized_size (s : Z) : Z := 4 + from_option blen 0 (i_resolve st s).

Definition serialize_tombstone_version_id (version_id : option VersionId) (buffer : bytes) : bytes :=
  buffer ++ to_le 8 (default TOMBSTONE_VERSION_ID_ABSENT version_id).

Definition serialize_opt_str (s : option bytes) (buffer : bytes) : bytes :=
  match s with
  | None => buffer ++ [bof 0]
  | Some s => buffer ++ [bof 1] ++ to_le 4 (blen s) ++ s
  end.

Definition serialize_opt_f64 (v : option Z) (buffer : bytes) : bytes :=
  match v with
  | None => buffer ++ [bof 0]
  | Some v => buffer ++ [bof 1] ++ to_le 8 v
  end.

Definition opt_str_size (s : option bytes) : Z := 1 + from_option (fun s => 4 + blen s) 0 s.
Definition opt_f64_size (v : option Z) : Z := 1 + (if bool_decide (is_Some v) then 8 else 0).

Definition serialize_provenance_into (provenance : option Provenance) (buffer : bytes) : bytes :=
  match provenance with
  | None => buffer ++ [bof 0]
  | Some p =>
      let buffer := buffer ++ [bof 1] in
      let buffer := serialize_opt_str (Prov.source p) buffer in
      let buffer := serialize_opt_f64 (confidence p) buffer in
      let buffer := serialize_opt_str (note p) buffer in
      let buffer := serialize_opt_str (correlation_id p) buffer in
      serialize_opt_str (principal p) buffer
  end.

Definition provenance_serialized_size (provenance : option Provenance) : Z :=
  match provenance with
  | None => 1
  | Some p => 1 + opt_str_size (Prov.source p) + opt_f64_size (confidence p)
              + opt_str_size (note p) + opt_str_size (correlation_id p)
              + opt_str_size (principal p)
  end.

(** *** Size estimate *)
Definition estimate_entry_capacity (operation : WalOperation) : Z :=
  let FIXED_OVERHEAD := 24 in
  let TIMESTAMP_SIZE := 12 in
  let variable_size :=
    match operation with
    | CreateNode _ label properties _ provenance =>
        let base := 1 + 8 + label_serialized_size label + TIMESTAMP_SIZE in
        base + cached_size properties + provenance_serialized_size provenance
    | CreateEdge _ _ _ label properties _ provenance =>
        let base := 1 + 8 + 8 + 8 + label_serialized_size label + TIMESTAMP_SIZE in
        base + cached_size properties + provenance_serialized_size provenance
    | UpdateNode _ _ label properties _ provenance
    | UpdateEdge _ _ label properties _ provenance =>
        let base := 1 + 8 + 8 + label_serialized_size label + TIMESTAMP_SIZE in
        base + cached_size properties + provenance_serialized_size provenance
    | DeleteNode _ _ _ provenance | DeleteEdge _ _ _ provenance
    | RetractNode _ _ _ provenance | RetractEdge _ _ _ provenance =>
        1 + 8 + TIMESTAMP_SIZE + 8 + provenance_serialized_size provenance
    | Checkpoint _ _ => 1 + 8 + 12
    | DeclareUniqueConstraint label property | DropUniqueConstraint label property =>
        1 + label_serialized_size label + label_serialized_size property
    | BeginTx _ => 1 + 8
    | CommitTx _ _ _ => 1 + 8 + 4 + TIMESTAMP_SIZE
    end in
  FIXED_OVERHEAD + variable_size.

(** *** The operation data *)
Definition write_operation (operation : WalOperation) (buffer : bytes) : res Error bytes :=
  match operation with
  | CreateNode node_id label properties valid_from provenance =>
      let buffer := buffer ++ [bof OP_CREATE_NODE] in
      let buffer := buffer ++ to_le 8 node_id in
      buffer ← serialize_label_str label buffer;
      buffer ← PropMap.serialize_into st properties buffer;
      let buffer := Hlc.serialize_into valid_from buffer in
      Ok (serialize_provenance_into provenance buffer)
  | CreateEdge edge_id source target label properties valid_from provenance =>
      let buffer := buffer ++ [bof OP_CREATE_EDGE] in
      let buffer := buffer ++ to_le 8 edge_id in
      let buffer := buffer ++ to_le 8 source in
      let buffer := buffer ++ to_le 8 target in
      buffer ← serialize_label_str label buffer;
      buffer ← PropMap.serialize_into st properties buffer;
      let buffer := Hlc.serialize_into valid_from buffer in
      Ok (serialize_provenance_into provenance buffer)
  | UpdateNode node_id version_id label properties valid_from provenance =>
      let buffer := buffer ++ [bof OP_UPDATE_NODE] in
      let buffer := buffer ++ to_le 8 node_id in
      let buffer := buffer ++ to_le 8 version_id in
      buffer ← serialize_label_str label buffer;
      buffer ← PropMap.serialize_into st properties buffer;
      let buffer := Hlc.serialize_into valid_from buffer in
      Ok (serialize_provenance_into provenance buffer)
  | UpdateEdge edge_id version_id label properties valid_from provenance =>
      let buffer := buffer ++ [bof OP_UPDATE_EDGE] in
      let buffer := buffer ++ to_le 8 edge_id in
      let buffer := buffer ++ to_le 8 version_id in
      buffer ← serialize_label_str label buffer;
      buffer ← PropMap.serialize_into st properties buffer;
      let buffer := Hlc.serialize_into valid_from buffer in
      Ok (serialize_provenance_into provenance buffer)
  | DeleteNode id valid_from version_id provenance =>
      let buffer := buffer ++ [bof OP_DELETE_NODE] in
      let buffer := buffer ++ to_le 8 id in
      let buffer := Hlc.serialize_into valid_from buffer in
      let buffer := serialize_tombstone_version_id version_id buffer in
      Ok (serialize_provenance_into provenance buffer)
  | DeleteEdge id valid_from version_id provenance =>
      let buffer := buffer ++ [bof OP_DELETE_EDGE] in
      let buffer := buffer ++ to_le 8 id in
      let buffer := Hlc.serialize_into valid_from buffer in
      let buffer := serialize_tombstone_version_id version_id buffer in
      Ok (serialize_provenance_into provenance buffer)
  | RetractNode id valid_to version_id provenance =>
      let buffer := buffer ++ [bof OP_RETRACT_NODE] in
      let buffer := buffer ++ to_le 8 id in
      let buffer := Hlc.serialize_into valid_to buffer in
      let buffer := serialize_tombstone_version_id version_id buffer in
      Ok (serialize_provenance_into provenance buffer)
  | RetractEdge id valid_to version_id provenance =>
      let buffer := buffer ++ [bof OP_RETRACT_EDGE] in
      let buffer := buffer ++ to_le 8 id in
      let buffer := Hlc.serialize_into valid_to buffer in
      let buffer := serialize_tombstone_version_id version_id buffer in
      Ok (serialize_provenance_into provenance buffer)
  | Checkpoint lsn timestamp =>
      let buffer := buffer ++ [bof OP_CHECKPOINT] in
      let buffer := buffer ++ to_le 8 lsn in
      Ok (Hlc.serialize_into timestamp buffer)
  | DeclareUniqueConstraint label property =>
      let buffer := buffer ++ [bof OP_DECLARE_UNIQUE_CONSTRAINT] in
      buffer ← serialize_label_str label buffer;
      serialize_label_str property buffer
  | DropUniqueConstraint label property =>
      let buffer := buffer ++ [bof OP_DROP_UNIQUE_CONSTRAINT] in
      buffer ← serialize_label_str label buffer;
      serialize_label_str property buffer
  | BeginTx tx_id =>
      let buffer := buffer ++ [bof OP_BEGIN_TX] in
      Ok (buffer ++ to_le 8 tx_id)
  | CommitTx tx_id entry_count commit_timestamp =>
      let buffer := buffer ++ [bof OP_COMMIT_TX] in
      let buffer := buffer ++ to_le 8 tx_id in
      let buffer := buffer ++ to_le 4 entry_count in
      Ok (Hlc.serialize_into commit_timestamp buffer)
  end.

Definition serialize_operation_into (lsn : LSN) (timestamp : HybridTimestamp)
    (operation : WalOperation) (buffer : bytes) : res Error bytes :=
  let buffer := buffer ++ to_le 8 lsn in
  let buffer := Hlc.serialize_into timestamp buffer in
  let checksum_offset := blen buffer in
  let buffer := buffer ++ [bof 0; bof 0; bof 0; bof 0] in
  buffer ← write_operation operation buffer;
  head ← expect (slice buffer 0 checksum_offset);
  data ← expect (slice_from buffer (checksum_offset + 4));
  let checksum := crc32 (head ++ data) in
  Ok (head ++ to_le 4 checksum ++ data).

(** [WalEntry::verify_checksum] *)
Definition verify_checksum (serialized_data : bytes) : bool :=
  if blen serialized_data <? 24 then false
  else
    match slice serialized_data 0 20, slice serialized_data 20 24,
          slice_from serialized_data 24 with
    | Some head, Some stored, Some data => from_le stored =? crc32 (head ++ data)
    | _, _, _ => false
    end.
End Ops.
End Wal.

(** ** The byte format *)
Section WalFormat.
Import PropMap Prov Wal.
Context {St : Type} `{Interner St}.
Variable crc32 : bytes -> Z.
Implicit Types st : St.

Definition label_bytes st (l : Z) : bytes :=
  let s := default [] (i_resolve st l) in to_le 4 (blen s) ++ s.
Definition props_bytes st (m : PropertyMap) : bytes :=
  to_le 4 (len m) ++ enc_entries (named st (sorted_entries (inner m))).
Definition tomb_bytes (v : option VersionId) : bytes :=
  to_le 8 (default TOMBSTONE_VERSION_ID_ABSENT v).
Definition opt_str_bytes (s : option bytes) : bytes := serialize_opt_str s [].
Definition opt_f64_bytes (v : option Z) : bytes := serialize_opt_f64 v [].
Definition prov_bytes (p : option Provenance) : bytes :=
  match p with
  | None => [bof 0]
  | Some p => [bof 1] ++ opt_str_bytes (Prov.source p) ++ opt_f64_bytes (confidence p) ++
      opt_str_bytes (note p) ++ opt_str_bytes (correlation_id p) ++ opt_str_bytes (principal p)
  end.

(** Operation tag and fields. *)
Definition op_tag (op : WalOperation) : Z :=
  match op with
  | CreateNode _ _ _ _ _ => OP_CREATE_NODE
  | CreateEdge _ _ _ _ _ _ _ => OP_CREATE_EDGE
  | UpdateNode _ _ _ _ _ _ => OP_UPDATE_NODE
  | UpdateEdge _ _ _ _ _ _ => OP_UPDATE_EDGE
  | DeleteNode _ _ _ _ => OP_DELETE_NODE
  | DeleteEdge _ _ _ _ => OP_DELETE_EDGE
  | RetractNode _ _ _ _ => OP_RETRACT_NODE
  | RetractEdge _ _ _ _ => OP_RETRACT_EDGE
  | Checkpoint _ _ => OP_CHECKPOINT
  | DeclareUniqueConstraint _ _ => OP_DECLARE_UNIQUE_CONSTRAINT
  | DropUniqueConstraint _ _ => OP_DROP_UNIQUE_CONSTRAINT
  | BeginTx _ => OP_BEGIN_TX
  | CommitTx _ _ _ => OP_COMMIT_TX
  end.

Definition fields_bytes st (op : WalOperation) : bytes :=
  match op with
  | CreateNode n l m vf p =>
      to_le 8 n ++ label_bytes st l ++ props_bytes st m ++ Hlc.serialize vf ++ prov_bytes p
  | CreateEdge e s t l m vf p =>
      to_le 8 e ++ to_le 8 s ++ to_le 8 t ++ label_bytes st l ++ props_bytes st m ++
        Hlc.serialize vf ++ prov_bytes p
  | UpdateNode n v l m vf p | UpdateEdge n v l m vf p =>
      to_le 8 n ++ to_le 8 v ++ label_bytes st l ++ props_bytes st m ++ Hlc.serialize vf ++
        prov_bytes p
  | DeleteNode n t v p | DeleteEdge n t v p | RetractNode n t v p | RetractEdge n t v p =>
      to_le 8 n ++ Hlc.serialize t ++ tomb_bytes v ++ prov_bytes p
  | Checkpoint l t => to_le 8 l ++ Hlc.serialize t
  | DeclareUniqueConstraint l p | DropUniqueConstraint l p => label_bytes st l ++ label_bytes st p
  | BeginTx t => to_le 8 t
  | CommitTx t n ts => to_le 8 t ++ to_le 4 n ++ Hlc.serialize ts
  end.

Definition op_bytes st (op : WalOperation) : bytes := bof (op_tag op) :: fields_bytes st op.

Definition header_bytes (l : LSN) (ts : HybridTimestamp) : bytes := to_le 8 l ++ Hlc.serialize ts.
Definition entry_checksum st l ts op : Z := crc32 (header_bytes l ts ++ op_bytes st op).
Definition entry_bytes st (l : LSN) (ts : HybridTimestamp) (op : WalOperation) : bytes :=
  header_bytes l ts ++ to_le 4 (entry_checksum st l ts op) ++ op_bytes st op.

(** ** Operations the database writes *)
Definition id_ok (id : Z) : Prop := 0 <= id <= MAX_VALID_ID.
Definition label_ok st (l : Z) : Prop := exists s, i_resolve st l = Some s /\ name_ok s.
(** A map as the builder leaves it. *)
Definition props_ok st (m : PropertyMap) : Prop :=
  map_wf st (inner m) /\ len m <= MAX_PROPERTY_MAP_CAPACITY /\
  cached_size m = map_bytes st (inner m).
Definition opt_name_ok (s : option bytes) : Prop := from_option name_ok True s.
Definition prov_ok (p : option Provenance) : Prop :=
  match p with
  | None => True
  | Some p => prov_valid p /\ from_option in_u64 True (confidence p) /\
      opt_name_ok (Prov.source p) /\ opt_name_ok (note p) /\ opt_name_ok (correlation_id p) /\
      opt_name_ok (principal p)
  end.
Definition tomb_ok (v : option VersionId) : Prop := from_option id_ok True v.

Definition op_wf st (op : WalOperation) : Prop :=
  match op with
  | CreateNode n l m vf p => id_ok n /\ label_ok st l /\ props_ok st m /\ ts_valid vf /\ prov_ok p
  | CreateEdge e s t l m vf p =>
      id_ok e /\ id_ok s /\ id_ok t /\ label_ok st l /\ props_ok st m /\ ts_valid vf /\ prov_ok p
  | UpdateNode n v l m vf p | UpdateEdge n v l m vf p =>
      id_ok n /\ id_ok v /\ label_ok st l /\ props_ok st m /\ ts_valid vf /\ prov_ok p
  | DeleteNode n t v p | DeleteEdge n t v p | RetractNode n t v p | RetractEdge n t v p =>
      id_ok n /\ ts_valid t /\ tomb_ok v /\ prov_ok p
  | Checkpoint l t => in_u64 l /\ ts_valid t
  | DeclareUniqueConstraint l p | DropUniqueConstraint l p => label_ok st l /\ label_ok st p
  | BeginTx t => in_u64 t
  | CommitTx t n ts => in_u64 t /\ in_u32 n /\ ts_valid ts
  end.

Lemma label_app st l buffer :
  label_ok st l -> serialize_label_str st l buffer = Ok (buffer ++ label_bytes st l).
Proof. intros (s & Hs & _). unfold serialize_label_str, label_bytes. by rewrite Hs. Qed.

Lemma props_app st m buffer :
  props_ok st m -> PropMap.serialize_into st m buffer = Ok (buffer ++ props_bytes st m).
Proof. intros (Hw & _ & _). by destruct (map_serialize_ok st m buffer Hw) as [-> _]. Qed.

Lemma opt_str_app s buffer : serialize_opt_str s buffer = buffer ++ opt_str_bytes s.
Proof. by destruct s. Qed.
Lemma opt_f64_app v buffer : serialize_opt_f64 v buffer = buffer ++ opt_f64_bytes v.
Proof. by destruct v. Qed.
Lemma prov_app p buffer : serialize_provenance_into p buffer = buffer ++ prov_bytes p.
Proof.
  destruct p as [p|]; [|done]. unfold serialize_provenance_into, prov_bytes.
  by rewrite !opt_str_app, opt_f64_app, <-!app_assoc.
Qed.
Lemma tomb_app v buffer : serialize_tombstone_version_id v buffer = buffer ++ tomb_bytes v.
Proof. done. Qed.

Lemma write_operation_ok st op buffer :
  op_wf st op -> write_operation st op buffer = Ok (buffer ++ op_bytes st op).
Proof.
  intros Hw. unfold op_bytes. destruct op; simpl in Hw; destruct_and?;
    cbn [write_operation op_tag fields_bytes];
    repeat (rewrite ?label_app, ?props_app by done; cbn [mbind res_bind]);
    rewrite ?prov_app, ?tomb_app, ?serialize_into_app;
    repeat rewrite <-app_assoc; done.
Qed.

Lemma blen_header l ts : blen (header_bytes l ts) = 20.
Proof. unfold header_bytes. rewrite blen_app, blen_to_le, blen_serialize. lia. Qed.

Lemma serialize_operation_ok st l ts op :
  op_wf st op -> serialize_operation_into crc32 st l ts op [] = Ok (entry_bytes st l ts op).
Proof.
  intros Hw. unfold serialize_operation_into. rewrite app_nil_l, serialize_into_app.
  fold (header_bytes l ts). rewrite write_operation_ok by done. cbn [mbind res_bind].
  rewrite <-app_assoc. rewrite slice_prefix by done. cbn [mbind res_bind expect].
  rewrite app_assoc. rewrite slice_from_app by (rewrite blen_app; done).
  done.
Qed.

(** *** Sizes *)
Lemma label_size st l : label_ok st l -> blen (label_bytes st l) = label_serialized_size st l.
Proof.
  intros (s & Hs & _). unfold label_bytes, label_serialized_size. rewrite Hs. change (default [] (Some s)) with s. change (from_option blen 0 (Some s)) with (blen s).
  rewrite blen_app, blen_to_le. lia.
Qed.
Lemma props_size st m : props_ok st m -> blen (props_bytes st m) = cached_size m.
Proof.
  intros (Hw & _ & ->). destruct (map_serialize_ok st m [] Hw) as [_ <-].
  unfold props_bytes. rewrite blen_app, blen_to_le. lia.
Qed.
Lemma opt_str_len s : blen (opt_str_bytes s) = opt_str_size s.
Proof.
  destruct s as [s|]; [|done]. unfold opt_str_bytes, serialize_opt_str, opt_str_size.
  cbn [app]. simpl from_option. glia.
Qed.
Lemma opt_f64_len v : blen (opt_f64_bytes v) = opt_f64_size v.
Proof. destruct v; [|done]. unfold opt_f64_bytes, serialize_opt_f64, opt_f64_size. rewrite bool_decide_true by eauto. cbn [app]. glia. Qed.
Lemma prov_len p : blen (prov_bytes p) = provenance_serialized_size p.
Proof.
  destruct p as [p|]; [|done]. unfold prov_bytes, provenance_serialized_size. cbn [app].
  rewrite blen_cons, !blen_app, !opt_str_len, opt_f64_len. lia.
Qed.
Lemma tomb_len v : blen (tomb_bytes v) = 8.
Proof. unfold tomb_bytes. by rewrite blen_to_le. Qed.

Lemma entry_size_estimate st l ts op :
  op_wf st op -> blen (entry_bytes st l ts op) = estimate_entry_capacity st op.
Proof.
  intros Hw. unfold entry_bytes, estimate_entry_capacity.
  rewrite !blen_app, blen_header, blen_to_le. unfold op_bytes. rewrite blen_cons.
  destruct op; simpl in Hw; destruct_and?; cbn [fields_bytes];
    rewrite ?blen_app, ?blen_to_le, ?blen_serialize, ?label_size, ?props_size, ?prov_len, ?tomb_len
      by done; lia.
Qed.
End WalFormat.
