(* ===== verification/WalRead.v ===== *)
(** * Reading the log: [src/storage/wal/segment_reader.rs]

    The version predicates of segment headers, the entry parser with its cursor
    and version gates, and the replay loop over a plaintext segment. *)

From S2P Require Import Prelude.
From S2P Require Import Bytes.
From S2P Require Import Errors.
From S2P Require Import Hlc.
From S2P Require Import Ids.
From S2P Require Import Interning.
From S2P Require Import Property.
From S2P Require Import PropMap.
From S2P Require Import Provenance.
From S2P Require Import Wal.

Module WalRead.
Import PropMap Prov Wal.

Definition corrupted : Error := EStorage CorruptedData.

(** ** Segment versions *)
Definition WAL_VERSION : Z := 1.
Definition WAL_VERSION_ENCRYPTED : Z := 2.
Definition WAL_VERSION_PROVENANCE : Z := 3.
Definition WAL_VERSION_ENCRYPTED_PROVENANCE : Z := 4.
Definition WAL_VERSION_PROVENANCE_PRINCIPAL : Z := 5.
Definition WAL_VERSION_ENCRYPTED_PROVENANCE_PRINCIPAL : Z := 6.
Definition WAL_VERSION_TX_FRAMING : Z := 7.
Definition WAL_VERSION_ENCRYPTED_TX_FRAMING : Z := 8.
Definition WAL_VERSION_DELETE_VERSION_ID : Z := 9.
Definition WAL_VERSION_ENCRYPTED_DELETE_VERSION_ID : Z := 10.
Definition WAL_VERSION_DESTRUCTIVE_PROVENANCE : Z := 11.
Definition WAL_VERSION_ENCRYPTED_DESTRUCTIVE_PROVENANCE : Z := 12.
Definition WAL_VERSION_STRING_LABELS : Z := 13.
Definition WAL_VERSION_ENCRYPTED_STRING_LABELS : Z := 14.
Definition WAL_VERSION_MAX : Z := WAL_VERSION_ENCRYPTED_STRING_LABELS.
Definition WAL_VERSION_ENCRYPTED_KEYVERSIONED : Z := WAL_VERSION_MAX + 2.
Definition WAL_HEADER_SIZE : Z := 5.
Definition WAL_KEYVERSION_FIELD_SIZE : Z := 4.
Definition WAL_KEYVERSIONED_HEADER_SIZE : Z := WAL_HEADER_SIZE + WAL_KEYVERSION_FIELD_SIZE.

Definition is_supported_segment_version (ver : Z) : bool :=
  (ver <=? WAL_VERSION_MAX) || (ver =? WAL_VERSION_ENCRYPTED_KEYVERSIONED).

Definition is_encrypted_version (version : Z) : bool :=
  (version =? WAL_VERSION_ENCRYPTED)
  || (version =? WAL_VERSION_ENCRYPTED_PROVENANCE)
  || (version =? WAL_VERSION_ENCRYPTED_PROVENANCE_PRINCIPAL)
  || (version =? WAL_VERSION_ENCRYPTED_TX_FRAMING)
  || (version =? WAL_VERSION_ENCRYPTED_DELETE_VERSION_ID)
  || (version =? WAL_VERSION_ENCRYPTED_DESTRUCTIVE_PROVENANCE)
  || (version =? WAL_VERSION_ENCRYPTED_STRING_LABELS)
  || (version =? WAL_VERSION_ENCRYPTED_KEYVERSIONED).

Definition is_framed_version (version : Z) : bool := WAL_VERSION_TX_FRAMING <=? version.
Definition carries_delete_version_id (version : Z) : bool :=
  WAL_VERSION_DELETE_VERSION_ID <=? version.
Definition carries_destructive_provenance (version : Z) : bool :=
  WAL_VERSION_DESTRUCTIVE_PROVENANCE <=? version.
Definition carries_string_labels (version : Z) : bool := WAL_VERSION_STRING_LABELS <=? version.

Definition payload_version (version : Z) : Z :=
  if version =? WAL_VERSION_ENCRYPTED then WAL_VERSION
  else if version =? WAL_VERSION_ENCRYPTED_PROVENANCE then WAL_VERSION_PROVENANCE
  else if version =? WAL_VERSION_ENCRYPTED_PROVENANCE_PRINCIPAL
  then WAL_VERSION_PROVENANCE_PRINCIPAL
  else if version =? WAL_VERSION_ENCRYPTED_TX_FRAMING then WAL_VERSION_TX_FRAMING
  else if version =? WAL_VERSION_ENCRYPTED_DELETE_VERSION_ID then WAL_VERSION_DELETE_VERSION_ID
  else if version =? WAL_VERSION_ENCRYPTED_DESTRUCTIVE_PROVENANCE
  then WAL_VERSION_DESTRUCTIVE_PROVENANCE
  else if version =? WAL_VERSION_ENCRYPTED_STRING_LABELS then WAL_VERSION_STRING_LABELS
  else if version =? WAL_VERSION_ENCRYPTED_KEYVERSIONED then WAL_VERSION_STRING_LABELS
  else version.

Definition decode_header_layout (version : Z) (buffer : bytes) : res Error (Z * option Z) :=
  if version =? WAL_VERSION_ENCRYPTED_KEYVERSIONED then
    if blen buffer <? WAL_KEYVERSIONED_HEADER_SIZE then Err corrupted
    else kv ← read_u32 buffer 5; Ok (WAL_KEYVERSIONED_HEADER_SIZE, Some kv)
  else Ok (WAL_HEADER_SIZE, None).

(** ** The cursor

    The parsers take [buffer] and advance [offset: &mut usize]; the cursor is
    part of the state next to the interner. *)
Section Parser.
Context {St : Type} `{Interner St}.
Variable crc32 : bytes -> Z.
Variable buffer : bytes.

Abbreviation P := (SM (Z * St) Error).

Definition cur : P Z := fun s => (s, Ok s.1).
Definition here {A} (f : Z -> res Error A) : P A := fun s => (s, f s.1).

Definition advance (n : Z) : P unit := fun s =>
  match usize_checked_add s.1 n with
  | Some o => ((o, s.2), Ok tt)
  | None => (s, Err corrupted)
  end.

Definition require_bytes_at (offset n : Z) : res Error unit :=
  end_ ← ok_or (usize_checked_add offset n) corrupted;
  if blen buffer <? end_ then Err corrupted else Ok tt.
Definition require_bytes (n : Z) : P unit := here (fun o => require_bytes_at o n).

(** [GLOBAL_INTERNER.intern(s)] *)
Definition intern_str (s : bytes) : P Z := fun st =>
  let '(i, r) := i_intern st.2 s in ((st.1, i), r).

(** [T::deserialize(&buffer[*offset..])] *)
Definition rest_at (o : Z) : res Error bytes := expect (slice_from buffer o).

Definition read_opt_string : P (option bytes) :=
  _ ← require_bytes 1;
  present ← here (read_u8 buffer);
  _ ← advance 1;
  if present =? 0 then mret None
  else
    _ ← require_bytes 4;
    len ← here (read_u32 buffer);
    _ ← advance 4;
    _ ← require_bytes len;
    data ← here (fun o => read_bytes buffer o len);
    s ← lift (ok_or (from_utf8 data) corrupted);
    _ ← advance len;
    mret (Some s).

Definition read_opt_f64 : P (option Z) :=
  _ ← require_bytes 1;
  present ← here (read_u8 buffer);
  _ ← advance 1;
  if present =? 0 then mret None
  else
    _ ← require_bytes 8;
    v ← here (read_u64 buffer);
    _ ← advance 8;
    mret (Some v).

Definition read_provenance (version : Z) : P (option Provenance) :=
  if version <? WAL_VERSION_PROVENANCE then mret None
  else
    _ ← require_bytes 1;
    present ← here (read_u8 buffer);
    _ ← advance 1;
    if present =? 0 then mret None
    else
      source ← read_opt_string;
      confidence ← read_opt_f64;
      note ← read_opt_string;
      correlation_id ← read_opt_string;
      principal ← (if WAL_VERSION_PROVENANCE_PRINCIPAL <=? version
                   then read_opt_string else mret None);
      let b := builder in
      let b := set_opt set_source source b in
      let b := set_opt set_confidence confidence b in
      let b := set_opt set_note note b in
      let b := set_opt set_correlation_id correlation_id b in
      let b := set_opt set_principal principal b in
      provenance ← lift (map_err (fun _ => corrupted) (build b));
      mret (Some provenance).

Definition read_label (version : Z) : P Z :=
  if carries_string_labels version then
    _ ← require_bytes 4;
    len ← here (read_u32 buffer);
    _ ← advance 4;
    _ ← require_bytes len;
    data ← here (fun o => read_bytes buffer o len);
    s ← lift (ok_or (from_utf8 data) corrupted);
    interned ← intern_str s;
    _ ← advance len;
    mret interned
  else
    _ ← require_bytes 4;
    label_id ← here (read_u32 buffer);
    _ ← advance 4;
    mret label_id.

(** [HybridTimestamp::deserialize(&buffer[*offset..])?; advance(offset, ts_len)?] *)
Definition read_ts : P HybridTimestamp :=
  '(ts, ts_len) ← here (fun o => rest ← rest_at o; map_err EStorage (Hlc.deserialize rest));
  _ ← advance ts_len;
  mret ts.

(** [PropertyMap::deserialize(&buffer[*offset..])?; advance(offset, props_len)?] *)
Definition read_props : P PropertyMap :=
  '(props, props_len) ← (fun s =>
      match rest_at s.1 with
      | Ok rest => let '(i, r) := PropMap.deserialize rest s.2 in ((s.1, i), r)
      | Err e => (s, Err e)
      | Panic => (s, Panic)
      end) : SM (Z * St) Error (PropertyMap * Z);
  _ ← advance props_len;
  mret props.

Definition read_props_and_valid_from (version : Z) (tx_timestamp : HybridTimestamp)
    : P (PropertyMap * HybridTimestamp) :=
  if WAL_VERSION <=? version then
    props ← read_props;
    valid_from ← read_ts;
    mret (props, valid_from)
  else mret (PropMap.new, tx_timestamp).

Definition deserialize_id (new_id : Z -> res StorageError Z) (offset : Z) : res Error Z :=
  b ← ok_or (slice buffer offset (offset + 8)) corrupted;
  map_err (fun _ => corrupted) (new_id (from_le b)).
Definition deserialize_node_id : Z -> res Error NodeId := deserialize_id Id.new_node.
Definition deserialize_edge_id : Z -> res Error EdgeId := deserialize_id Id.new_edge.
Definition deserialize_version_id : Z -> res Error VersionId := deserialize_id Id.new_version.

(** [deserialize_*_id(buffer, *offset, ..)?; advance(offset, 8)?] *)
Definition read_node_id : P NodeId := id ← here deserialize_node_id; _ ← advance 8; mret id.
Definition read_edge_id : P EdgeId := id ← here deserialize_edge_id; _ ← advance 8; mret id.
Definition read_version_id : P VersionId := id ← here deserialize_version_id; _ ← advance 8; mret id.

(** ** The operation parsers *)
Definition parse_create_node_op (version : Z) (tx_timestamp : HybridTimestamp) : P WalOperation :=
  node_id ← read_node_id;
  label ← read_label version;
  '(properties, valid_from) ← read_props_and_valid_from version tx_timestamp;
  provenance ← read_provenance version;
  mret (CreateNode node_id label properties valid_from provenance).

Definition parse_create_edge_op (version : Z) (tx_timestamp : HybridTimestamp) : P WalOperation :=
  edge_id ← read_edge_id;
  source ← read_node_id;
  target ← read_node_id;
  label ← read_label version;
  '(properties, valid_from) ← read_props_and_valid_from version tx_timestamp;
  provenance ← read_provenance version;
  mret (CreateEdge edge_id source target label properties valid_from provenance).

(** The shared tail of the two update parsers. *)
Definition read_update_payload (version : Z) (tx_timestamp : HybridTimestamp)
    : P (Z * PropertyMap * HybridTimestamp) :=
  if WAL_VERSION <=? version then
    label ← read_label version;
    '(props, valid_from) ← read_props_and_valid_from version tx_timestamp;
    mret (label, props, valid_from)
  else mret (0, PropMap.new, tx_timestamp).

Definition parse_update_node_op (version : Z) (tx_timestamp : HybridTimestamp) : P WalOperation :=
  node_id ← read_node_id;
  version_id ← read_version_id;
  '(label, properties, valid_from) ← read_update_payload version tx_timestamp;
  provenance ← read_provenance version;
  mret (UpdateNode node_id version_id label properties valid_from provenance).

Definition parse_update_edge_op (version : Z) (tx_timestamp : HybridTimestamp) : P WalOperation :=
  let required :=
    if (WAL_VERSION <=? version) && negb (carries_string_labels version) then 20 else 16 in
  _ ← require_bytes required;
  edge_id ← read_edge_id;
  version_id ← read_version_id;
  '(label, properties, valid_from) ← read_update_payload version tx_timestamp;
  provenance ← read_provenance version;
  mret (UpdateEdge edge_id version_id label properties valid_from provenance).

Definition parse_opt_tombstone_version_id (version : Z) : P (option VersionId) :=
  if negb (carries_delete_version_id version) then mret None
  else
    _ ← require_bytes 8;
    raw ← here (read_u64 buffer);
    _ ← advance 8;
    if raw =? TOMBSTONE_VERSION_ID_ABSENT then mret None
    else
      vid ← lift (map_err (fun _ => corrupted) (Id.new_version raw));
      mret (Some vid).

Definition read_destructive_provenance (version : Z) : P (option Provenance) :=
  if carries_destructive_provenance version then read_provenance version else mret None.

Definition parse_delete_node_op (version : Z) (tx_timestamp : HybridTimestamp) : P WalOperation :=
  node_id ← read_node_id;
  valid_from ← (if WAL_VERSION <=? version then read_ts else mret tx_timestamp);
  version_id ← parse_opt_tombstone_version_id version;
  provenance ← read_destructive_provenance version;
  mret (DeleteNode node_id valid_from version_id provenance).

Definition parse_delete_edge_op (version : Z) (tx_timestamp : HybridTimestamp) : P WalOperation :=
  edge_id ← read_edge_id;
  valid_from ← (if WAL_VERSION <=? version then read_ts else mret tx_timestamp);
  version_id ← parse_opt_tombstone_version_id version;
  provenance ← read_destructive_provenance version;
  mret (DeleteEdge edge_id valid_from version_id provenance).

Definition parse_retract_node_op (version : Z) : P WalOperation :=
  node_id ← read_node_id;
  valid_to ← read_ts;
  version_id ← parse_opt_tombstone_version_id version;
  provenance ← read_destructive_provenance version;
  mret (RetractNode node_id valid_to version_id provenance).

Definition parse_retract_edge_op (version : Z) : P WalOperation :=
  edge_id ← read_edge_id;
  valid_to ← read_ts;
  version_id ← parse_opt_tombstone_version_id version;
  provenance ← read_destructive_provenance version;
  mret (RetractEdge edge_id valid_to version_id provenance).

Definition parse_checkpoint_op : P WalOperation :=
  _ ← require_bytes 20;
  cp_lsn ← here (read_u64 buffer);
  _ ← advance 8;
  cp_timestamp ← read_ts;
  mret (Checkpoint cp_lsn cp_timestamp).

Definition parse_begin_tx_op : P WalOperation :=
  _ ← require_bytes 8;
  tx_id ← here (read_u64 buffer);
  _ ← advance 8;
  mret (BeginTx tx_id).

Definition parse_commit_tx_op : P WalOperation :=
  _ ← require_bytes 12;
  tx_id ← here (read_u64 buffer);
  _ ← advance 8;
  entry_count ← here (read_u32 buffer);
  _ ← advance 4;
  commit_timestamp ← read_ts;
  mret (CommitTx tx_id entry_count commit_timestamp).

(** The [match op_type] of [parse_entry_at]. *)
Definition parse_operation (op_type version : Z) (timestamp : HybridTimestamp) : P WalOperation :=
  if op_type =? OP_CREATE_NODE then parse_create_node_op version timestamp
  else if op_type =? OP_CREATE_EDGE then parse_create_edge_op version timestamp
  else if op_type =? OP_UPDATE_NODE then parse_update_node_op version timestamp
  else if op_type =? OP_UPDATE_EDGE then parse_update_edge_op version timestamp
  else if op_type =? OP_DELETE_NODE then parse_delete_node_op version timestamp
  else if op_type =? OP_DELETE_EDGE then parse_delete_edge_op version timestamp
  else if op_type =? OP_RETRACT_NODE then parse_retract_node_op version
  else if op_type =? OP_RETRACT_EDGE then parse_retract_edge_op version
  else if op_type =? OP_CHECKPOINT then parse_checkpoint_op
  else if op_type =? OP_DECLARE_UNIQUE_CONSTRAINT then
    label ← read_label version;
    property ← read_label version;
    mret (DeclareUniqueConstraint label property)
  else if op_type =? OP_DROP_UNIQUE_CONSTRAINT then
    label ← read_label version;
    property ← read_label version;
    mret (DropUniqueConstraint label property)
  else if op_type =? OP_BEGIN_TX then parse_begin_tx_op
  else if op_type =? OP_COMMIT_TX then parse_commit_tx_op
  else lift (Err corrupted).

Definition parse_entry (version : Z) : P (WalEntry * Z) :=
  start_offset ← cur;
  _ ← require_bytes 24;
  lsn ← here (read_u64 buffer);
  _ ← advance 8;
  '(timestamp, _) ← here (fun o =>
      rest ← rest_at o; map_err (fun _ => corrupted) (Hlc.deserialize rest));
  _ ← advance 12;
  checksum ← here (read_u32 buffer);
  _ ← advance 4;
  c ← cur;
  if blen buffer <=? c then lift (Err corrupted)
  else
    op_type ← here (read_u8 buffer);
    _ ← advance 1;
    operation ← parse_operation op_type version timestamp;
    c ← cur;
    head ← lift (expect (slice buffer start_offset (start_offset + 20)));
    data ← lift (expect (slice buffer (start_offset + 24) c));
    let computed_checksum := crc32 (head ++ data) in
    if negb (checksum =? computed_checksum) then lift (Err corrupted)
    else mret (mkEntry lsn timestamp operation checksum (is_framed_version version) (Some version),
               c - start_offset).

(** [parse_entry_at(buffer, offset, version)] *)
Definition parse_entry_at (offset version : Z) : SM St Error (WalEntry * Z) := fun st =>
  let '((_, st'), r) := parse_entry version (offset, st) in (st', r).

(** ** The replay loop over a plaintext segment *)
Definition all_zero (b : bytes) : bool := forallb (fun x => bval x =? 0) b.

(** [plaintext_valid_entry_follows]: the byte scan past a failed entry. *)
Fixpoint scan_follows (fuel : nat) (scan version : Z) (last_parsed_lsn : option LSN) (st : St)
    : St * option bool :=
  match fuel with
  | O => (st, None)
  | S fuel =>
      if negb (scan + 24 <=? blen buffer) then (st, Some false)
      else
        let '(st, r) := parse_entry_at scan version st in
        match r with
        | Panic => (st, None)
        | Ok (entry, _) =>
            match last_parsed_lsn with
            | Some last => if last <? Wal.lsn entry then (st, Some true)
                           else scan_follows fuel (scan + 1) version last_parsed_lsn st
            | None => (st, Some true)
            end
        | Err _ => scan_follows fuel (scan + 1) version last_parsed_lsn st
        end
  end.
Definition plaintext_valid_entry_follows (start version : Z) (last_parsed_lsn : option LSN) (st : St)
    : St * option bool :=
  scan_follows (S (length buffer)) (start + 1) version last_parsed_lsn st.

(** One segment: the entries pushed so far, the cursor and the interner; [None]
    is out of fuel or a panic. *)
Fixpoint parse_loop (fuel : nat) (version : Z) (start_lsn : LSN) (tolerate_torn_tail : bool)
    (last_parsed_lsn : option LSN) (offset : Z) (entries : list WalEntry) (st : St)
    : option (Z * list WalEntry * St * option Error) :=
  match fuel with
  | O => None
  | S fuel =>
      if negb (offset <? blen buffer) then Some (offset, entries, st, None)
      else
        let '(st, r) := parse_entry_at offset version st in
        match r with
        | Panic => None
        | Ok (entry, bytes_consumed) =>
            let entries := if start_lsn <=? Wal.lsn entry then entries ++ [entry] else entries in
            parse_loop fuel version start_lsn tolerate_torn_tail (Some (Wal.lsn entry))
              (offset + bytes_consumed) entries st
        | Err e =>
            if blen buffer <? offset + 24 then
              match slice_from buffer offset with
              | None => None
              | Some remainder =>
                  if all_zero remainder then Some (offset, entries, st, None)
                  else if tolerate_torn_tail then Some (offset, entries, st, None)
                  else Some (offset, entries, st, Some e)
              end
            else
              match slice buffer offset (offset + 24) with
              | None => None
              | Some header_slice =>
                  if all_zero header_slice then Some (offset, entries, st, None)
                  else
                    let '(st, follows) :=
                      plaintext_valid_entry_follows offset version last_parsed_lsn st in
                    match follows with
                    | None => None
                    | Some f =>
                        if negb f && tolerate_torn_tail then Some (offset, entries, st, None)
                        else Some (offset, entries, st, Some e)
                    end
              end
        end
  end.

Definition parse_plaintext_entries (offset version : Z) (start_lsn : LSN)
    (entries : list WalEntry) (tolerate_torn_tail : bool) (st : St) :=
  parse_loop (S (length buffer)) version start_lsn tolerate_torn_tail None offset entries st.

End Parser.
End WalRead.
