(* ===== verification/WalFields.v ===== *)
(** * Reading back what was written

    Every field of the current log format is read to the value it was written
    from, wherever it stands in a segment, without touching the interner; from
    the fields, every operation and the whole entry. *)

From S2P Require Import Prelude.
From S2P Require Import Bytes.
From S2P Require Import Errors.
From S2P Require Import Hlc.
From S2P Require Import Ids.
From S2P Require Import Interning.
From S2P Require Import Property.
From S2P Require Import PropMap.
From S2P Require Import Provenance.
From S2P Require Import Wal.
From S2P Require Import WalRead.

(** ** Reading back what was written *)
Section Reads.
Import PropMap Prov Wal WalRead.
Context {St : Type} `{Interner St}.
Variable crc32 : bytes -> Z.
Variable buffer : bytes.
Variable st : St.
Hypothesis buffer_size : blen buffer <= isize_max.
Hypothesis st_wf : i_wf st.
Implicit Types x y post : bytes.
Abbreviation P := (SM (Z * St) Error).

(** Standing before [x], the parser consumes exactly [x], yields [a] and leaves
    the interner alone. *)
Definition reads {A} (p : P A) (x : bytes) (a : A) : Prop :=
  forall off post, at_off buffer off (x ++ post) -> p (off, st) = ((off + blen x, st), Ok a).

Lemma reads_ret {A} (a : A) : reads (mret a) [] a.
Proof. intros off post _. by rewrite blen_nil, Z.add_0_r. Qed.

Lemma reads_bind {A B} (p : P A) (f : A -> P B) x y a b :
  reads p x a -> reads (f a) y b -> reads (p ≫= f) (x ++ y) b.
Proof.
  intros Hp Hf off post Ha. rewrite <-app_assoc in Ha.
  rewrite (sm_bind_ok _ _ _ _ _ (Hp off _ Ha)).
  rewrite (Hf _ post) by by apply at_off_app. by rewrite blen_app, Z.add_assoc.
Qed.

Lemma at_off_bound off x post : at_off buffer off (x ++ post) -> 0 <= off /\ off + blen x <= isize_max.
Proof.
  intros Ha. apply at_off_len in Ha as [? Hl]. rewrite blen_app in Hl.
  pose proof (blen_nonneg post). lia.
Qed.

Lemma reads_require {A} n (f : unit -> P A) x a :
  0 <= n <= blen x -> reads (f tt) x a -> reads (require_bytes buffer n ≫= f) x a.
Proof.
  intros Hn Hf off post Ha. pose proof (at_off_bound _ _ _ Ha).
  pose proof (at_off_len _ _ _ Ha) as [_ Hl]. rewrite blen_app in Hl. pose proof (blen_nonneg post).
  erewrite sm_bind_ok; [by apply (Hf off post)|].
  unfold require_bytes, here, require_bytes_at. simpl.
  unfold usize_checked_add. rewrite checked_in by mlia. simpl.
  by rewrite (proj2 (Z.ltb_ge _ _)) by lia.
Qed.

(** Look at the next bytes without moving. *)
Lemma reads_peek {A B} (f : Z -> res Error A) (k : A -> P B) x a b :
  (forall off post, at_off buffer off (x ++ post) -> f off = Ok a) ->
  reads (k a) x b -> reads (here f ≫= k) x b.
Proof.
  intros Hf Hk off post Ha.
  rewrite (sm_bind_ok (here f) k (off, st) (off, st) a); [by apply (Hk off post)|].
  unfold here. simpl. by rewrite (Hf off post Ha).
Qed.

Lemma reads_advance {B} n (k : unit -> P B) x y b :
  n = blen x -> reads (k tt) y b -> reads (advance n ≫= k) (x ++ y) b.
Proof.
  intros -> Hk off post Ha. rewrite <-app_assoc in Ha. pose proof (at_off_bound _ _ _ Ha).
  pose proof (blen_nonneg x).
  rewrite (sm_bind_ok (advance (blen x)) k (off, st) (off + blen x, st) tt).
  - rewrite (Hk _ post) by by apply at_off_app. by rewrite blen_app, Z.add_assoc.
  - unfold advance. simpl. unfold usize_checked_add. by rewrite checked_in by mlia.
Qed.

(** A field: peek at it, then advance over it. *)
Lemma reads_field {A B} (f : Z -> res Error A) n (k : A -> P B) x y a b :
  n = blen x -> (forall off post, at_off buffer off (x ++ post) -> f off = Ok a) ->
  reads (k a) y b -> reads (a ← here f; _ ← advance n; k a) (x ++ y) b.
Proof.
  intros Hn Hf Hk. apply reads_peek with a; [|by apply reads_advance].
  intros off post Ha. rewrite <-app_assoc in Ha. by eapply Hf.
Qed.

Lemma reads_lift {A B} (r : res Error A) (k : A -> P B) x a b :
  r = Ok a -> reads (k a) x b -> reads (lift r ≫= k) x b.
Proof. intros -> Hk off post Ha. rewrite sm_bind_lift. by apply (Hk off post). Qed.

Lemma id_read new_id off id post :
  at_off buffer off (to_le 8 id ++ post) -> id_ok id -> new_id id = Ok id ->
  deserialize_id buffer new_id off = Ok id.
Proof.
  intros Ha [? Hi] E. unfold deserialize_id. unfold MAX_VALID_ID in Hi.
  rewrite (at_off_slice _ _ _ _ _ Ha) by (rewrite blen_to_le; lia).
  simpl. rewrite from_to_le_u64 by mlia. by rewrite E.
Qed.

Lemma new_id_ok id : id_ok id ->
  Id.new_node id = Ok id /\ Id.new_edge id = Ok id /\ Id.new_version id = Ok id.
Proof.
  intros [? Hi]. unfold Id.new_node, Id.new_edge, Id.new_version.
  by rewrite !(proj2 (Z.ltb_ge _ _)) by done.
Qed.

Ltac read_id := intros Hid; unfold read_node_id, read_edge_id, read_version_id;
  rewrite <-(app_nil_r (to_le 8 _));
  eapply reads_field; [by rewrite blen_to_le| |apply reads_ret];
  intros; eapply id_read; [eassumption|done|by apply new_id_ok].
Lemma reads_node_id id : id_ok id -> reads (read_node_id buffer) (to_le 8 id) id.
Proof. read_id. Qed.
Lemma reads_edge_id id : id_ok id -> reads (read_edge_id buffer) (to_le 8 id) id.
Proof. read_id. Qed.
Lemma reads_version_id id : id_ok id -> reads (read_version_id buffer) (to_le 8 id) id.
Proof. read_id. Qed.

Lemma reads_u8 {B} (k : Z -> P B) v y b :
  in_u8 v -> reads (k v) y b ->
  reads (_ ← require_bytes buffer 1; a ← here (read_u8 buffer); _ ← advance 1; k a) (bof v :: y) b.
Proof.
  intros Hv Hk. apply reads_require; [pose proof (blen_nonneg y); glia|].
  apply (reads_field _ 1 _ [bof v] y v); [done| |done]. intros. by eapply at_u8.
Qed.

Lemma reads_u32 {B} (k : Z -> P B) v y b :
  in_u32 v -> reads (k v) y b ->
  reads (_ ← require_bytes buffer 4; a ← here (read_u32 buffer); _ ← advance 4; k a)
    (to_le 4 v ++ y) b.
Proof.
  intros Hv Hk. apply reads_require; [pose proof (blen_nonneg y); glia|].
  apply reads_field with v; [glia| |done]. intros. by eapply at_u32.
Qed.

Lemma reads_u64 {B} (k : Z -> P B) v y b :
  in_u64 v -> reads (k v) y b ->
  reads (_ ← require_bytes buffer 8; a ← here (read_u64 buffer); _ ← advance 8; k a)
    (to_le 8 v ++ y) b.
Proof.
  intros Hv Hk. apply reads_require; [pose proof (blen_nonneg y); glia|].
  apply reads_field with v; [glia| |done]. intros. by eapply at_u64.
Qed.

(** The bytes of a string whose length was just read; the cursor stays. *)
Lemma reads_str {B} (k : bytes -> P B) s y b :
  name_ok s -> reads (k s) (s ++ y) b ->
  reads (_ ← require_bytes buffer (blen s);
         data ← here (fun o => read_bytes buffer o (blen s));
         s ← lift (ok_or (from_utf8 data) corrupted); k s) (s ++ y) b.
Proof.
  intros [Hu Hs] Hk. apply reads_require; [pose proof (blen_nonneg y); pose proof (blen_nonneg s); glia|].
  apply reads_peek with s.
  - intros off post Ha. rewrite <-app_assoc in Ha. by eapply at_bytes.
  - apply reads_lift with s; [|done]. unfold from_utf8. by rewrite Hu.
Qed.

Lemma reads_opt_string s : opt_name_ok s -> reads (read_opt_string buffer) (opt_str_bytes s) s.
Proof.
  intros Hs. unfold read_opt_string. destruct s as [s|].
  - change (opt_str_bytes (Some s)) with (bof 1 :: to_le 4 (blen s) ++ s).
    apply reads_u8; [mlia|]. rewrite <-(app_nil_r s) at 2. simpl Z.eqb. cbv iota.
    apply reads_u32; [apply Hs|]. apply reads_str; [done|].
    apply reads_advance; [done|]. apply reads_ret.
  - apply reads_u8; [mlia|]. apply reads_ret.
Qed.

Lemma reads_opt_f64 v : from_option in_u64 True v -> reads (read_opt_f64 buffer) (opt_f64_bytes v) v.
Proof.
  intros Hv. unfold read_opt_f64. destruct v as [v|].
  - change (opt_f64_bytes (Some v)) with (bof 1 :: to_le 8 v).
    apply reads_u8; [mlia|]. rewrite <-(app_nil_r (to_le 8 v)). simpl Z.eqb. cbv iota.
    apply reads_u64; [done|]. apply reads_ret.
  - apply reads_u8; [mlia|]. apply reads_ret.
Qed.

Lemma reads_provenance v p :
  WAL_VERSION_PROVENANCE_PRINCIPAL <= v -> prov_ok p ->
  reads (read_provenance buffer v) (prov_bytes p) p.
Proof.
  intros Hv Hp. unfold WAL_VERSION_PROVENANCE_PRINCIPAL in Hv. unfold read_provenance.
  unfold WAL_VERSION_PROVENANCE, WAL_VERSION_PROVENANCE_PRINCIPAL.
  rewrite (proj2 (Z.ltb_ge _ _)) by lia. rewrite (proj2 (Z.leb_le _ _)) by lia.
  destruct p as [p|]; [|apply reads_u8; [mlia|]; apply reads_ret].
  destruct Hp as (Hval & Hc & Hs & Hn & Hcorr & Hprin).
  unfold prov_bytes. cbn [app]. apply reads_u8; [mlia|]. simpl Z.eqb. cbv iota.
  eapply reads_bind; [by apply reads_opt_string|].
  eapply reads_bind; [by apply reads_opt_f64|].
  eapply reads_bind; [by apply reads_opt_string|].
  eapply reads_bind; [by apply reads_opt_string|].
  rewrite <-(app_nil_r (opt_str_bytes (principal p))).
  eapply reads_bind; [by apply reads_opt_string|].
  apply reads_lift with p; [|apply reads_ret].
  pose proof (from_parts_eq (Prov.source p) (confidence p) (note p) (correlation_id p)
    (principal p)) as E. unfold from_parts in E. rewrite E.
  rewrite (proj2 (build_ok (mkProv _ _ _ _ _) p)); [done|]. split; [by destruct p|].
  by destruct p.
Qed.

Lemma reads_intern {B} (k : Z -> P B) l s x b :
  i_resolve st l = Some s -> reads (k l) x b -> reads (intern_str s ≫= k) x b.
Proof.
  intros Hl Hk off post Ha. rewrite (sm_bind_ok (intern_str s) k (off, st) (off, st) l).
  - by apply (Hk off post).
  - unfold intern_str. simpl. by rewrite (i_intern_known st s l st_wf Hl).
Qed.

Lemma reads_label v l :
  WAL_VERSION_STRING_LABELS <= v -> label_ok st l ->
  reads (read_label buffer v) (label_bytes st l) l.
Proof.
  intros Hv (s & Hl & Hs). unfold read_label, carries_string_labels, label_bytes.
  rewrite (proj2 (Z.leb_le _ _)) by done. rewrite Hl. change (default [] (Some s)) with s.
  rewrite <-(app_nil_r s) at 2. apply reads_u32; [apply Hs|]. apply reads_str; [done|].
  apply reads_intern with l; [done|]. apply reads_advance; [done|]. apply reads_ret.
Qed.

Lemma reads_ts t : ts_valid t -> reads (read_ts buffer) (Hlc.serialize t) t.
Proof.
  intros Ht. unfold read_ts. rewrite <-(app_nil_r (Hlc.serialize t)).
  apply reads_peek with (t, 12).
  - intros off post Ha. rewrite app_nil_r in Ha. unfold rest_at. unfold at_off in Ha.
    rewrite Ha. cbn [expect mbind res_bind]. by rewrite deserialize_serialize_app.
  - apply reads_advance; [by rewrite blen_serialize|apply reads_ret].
Qed.

Lemma reads_props m : props_ok st m -> reads (read_props buffer) (props_bytes st m) m.
Proof.
  intros Hm. pose proof (props_size st m Hm) as Hsz. destruct Hm as (Hw & Hlen & Hc).
  unfold read_props. rewrite <-(app_nil_r (props_bytes st m)).
  intros off post Ha. rewrite app_nil_r in Ha.
  pose proof (at_off_len _ _ _ Ha) as [? Hl].
  assert (PropMap.deserialize (props_bytes st m ++ post) st =
            (st, Ok (m, blen (props_bytes st m)))) as E.
  { pose proof (map_entries_ok st _ Hw) as Hok. destruct (named_ok st _ Hok) as [Hn Hnl].
    assert (len m = blen (named st (sorted_entries (inner m)))) as El
      by (rewrite len_entries; unfold blen; by rewrite Hnl).
    unfold props_bytes in *. rewrite El in *. rewrite <-app_assoc.
    rewrite deserialize_load; [|done|done|rewrite app_assoc; mlia].
    rewrite (sm_bind_ok _ _ _ st (list_to_map (sorted_entries (inner m)) ∪ ∅)).
    - unfold mret, sm_ret. rewrite map_union_empty, sorted_entries_map. rewrite blen_app, blen_to_le in *.
      do 3 f_equal. destruct m as [mi mc]. simpl in *. f_equal. lia.
    - apply load_known; try done. apply sorted_entries_keys. }
  rewrite (sm_bind_ok _ _ (off, st) (off, st) (m, blen (props_bytes st m))).
  - apply (reads_advance (blen (props_bytes st m)) (fun _ => mret m) (props_bytes st m) [] m eq_refl
      (reads_ret m) off post). by rewrite app_nil_r.
  - unfold rest_at. cbn [fst snd]. unfold at_off in Ha. rewrite Ha. cbn [expect]. by rewrite E.
Qed.

Lemma reads_tomb v o :
  WAL_VERSION_DELETE_VERSION_ID <= v -> tomb_ok o ->
  reads (parse_opt_tombstone_version_id buffer v) (tomb_bytes o) o.
Proof.
  intros Hv Ho. unfold parse_opt_tombstone_version_id, carries_delete_version_id, tomb_bytes.
  rewrite (proj2 (Z.leb_le _ _)) by done. cbn [negb].
  rewrite <-(app_nil_r (to_le 8 _)). destruct o as [id|].
  - change (default TOMBSTONE_VERSION_ID_ABSENT (Some id)) with id.
    simpl in Ho. pose proof (new_id_ok id Ho) as (_ & _ & E).
    destruct Ho as [? Hi]. unfold MAX_VALID_ID in Hi.
    apply reads_u64; [mlia|]. rewrite (proj2 (Z.eqb_neq _ _)) by mlia.
    apply reads_lift with id; [by rewrite E|apply reads_ret].
  - change (default TOMBSTONE_VERSION_ID_ABSENT None) with TOMBSTONE_VERSION_ID_ABSENT.
    apply reads_u64; [mlia|]. rewrite Z.eqb_refl. apply reads_ret.
Qed.

Lemma reads_destructive v p :
  WAL_VERSION_DESTRUCTIVE_PROVENANCE <= v -> prov_ok p ->
  reads (read_destructive_provenance buffer v) (prov_bytes p) p.
Proof.
  intros Hv Hp. unfold read_destructive_provenance, carries_destructive_provenance.
  rewrite (proj2 (Z.leb_le _ _)) by done. apply reads_provenance; [|done].
  unfold WAL_VERSION_DESTRUCTIVE_PROVENANCE, WAL_VERSION_PROVENANCE_PRINCIPAL in *. lia.
Qed.

(** *** The operations, in the current format *)
Section CurrentVersion.
Variables (v : Z) (ts : HybridTimestamp).
Hypothesis v_current : WAL_VERSION_STRING_LABELS <= v.

Lemma v_bounds :
  WAL_VERSION <= v /\ WAL_VERSION_PROVENANCE_PRINCIPAL <= v /\
  WAL_VERSION_DELETE_VERSION_ID <= v /\ WAL_VERSION_DESTRUCTIVE_PROVENANCE <= v.
Proof.
  unfold WAL_VERSION_STRING_LABELS, WAL_VERSION, WAL_VERSION_PROVENANCE_PRINCIPAL,
    WAL_VERSION_DELETE_VERSION_ID, WAL_VERSION_DESTRUCTIVE_PROVENANCE in *. lia.
Qed.

Lemma reads_props_ts m vf :
  props_ok st m -> ts_valid vf ->
  reads (read_props_and_valid_from buffer v ts) (props_bytes st m ++ Hlc.serialize vf) (m, vf).
Proof.
  intros Hm Ht. destruct v_bounds as (? & _). unfold read_props_and_valid_from.
  rewrite (proj2 (Z.leb_le _ _)) by done.
  eapply reads_bind; [by apply reads_props|]. rewrite <-(app_nil_r (Hlc.serialize vf)).
  eapply reads_bind; [by apply reads_ts|]. apply reads_ret.
Qed.

Lemma reads_update l m vf :
  label_ok st l -> props_ok st m -> ts_valid vf ->
  reads (read_update_payload buffer v ts)
    (label_bytes st l ++ props_bytes st m ++ Hlc.serialize vf) (l, m, vf).
Proof.
  intros Hl Hm Ht. destruct v_bounds as (? & _). unfold read_update_payload.
  rewrite (proj2 (Z.leb_le _ _)) by done.
  eapply reads_bind; [by apply reads_label|].
  rewrite <-(app_nil_r (props_bytes st m ++ _)).
  eapply reads_bind; [by apply reads_props_ts|]. apply reads_ret.
Qed.

Lemma reads_last {A} (p : P A) (f : A -> P WalOperation) x a op :
  reads p x a -> f a = mret op -> reads (p ≫= f) x op.
Proof.
  intros Hp Hf. rewrite <-(app_nil_r x). eapply reads_bind; [done|]. rewrite Hf. apply reads_ret.
Qed.

Lemma reads_valid_from t :
  ts_valid t -> reads (if WAL_VERSION <=? v then read_ts buffer else mret ts) (Hlc.serialize t) t.
Proof.
  intros Ht. destruct v_bounds as (? & _). rewrite (proj2 (Z.leb_le _ _)) by done. by apply reads_ts.
Qed.

(** Reassociate the two-part payload of a node or edge operation. *)
Lemma reads_operation op :
  op_wf st op -> reads (parse_operation buffer (op_tag op) v ts) (fields_bytes st op) op.
Proof.
  destruct v_bounds as (Hv1 & Hv5 & Hv9 & Hv11).
  intros Hw. destruct op; simpl in Hw; destruct_and?; cbn [op_tag fields_bytes];
    unfold parse_operation; simpl Z.eqb; cbv iota.
  - unfold parse_create_node_op. rewrite (app_assoc (props_bytes st properties)).
    eapply reads_bind; [by apply reads_node_id|]. eapply reads_bind; [by apply reads_label|].
    eapply reads_bind; [by apply reads_props_ts|].
    eapply reads_last; [by apply reads_provenance|done].
  - unfold parse_create_edge_op. rewrite (app_assoc (props_bytes st properties)).
    eapply reads_bind; [by apply reads_edge_id|]. do 2 (eapply reads_bind; [by apply reads_node_id|]).
    eapply reads_bind; [by apply reads_label|]. eapply reads_bind; [by apply reads_props_ts|].
    eapply reads_last; [by apply reads_provenance|done].
  - unfold parse_update_node_op.
    rewrite (app_assoc (props_bytes st properties)), (app_assoc (label_bytes st label)).
    eapply reads_bind; [by apply reads_node_id|]. eapply reads_bind; [by apply reads_version_id|].
    eapply reads_bind; [by apply reads_update|].
    eapply reads_last; [by apply reads_provenance|done].
  - unfold parse_update_edge_op, carries_string_labels.
    rewrite (proj2 (Z.leb_le WAL_VERSION_STRING_LABELS v)) by done. rewrite andb_false_r.
    apply reads_require.
    { rewrite !blen_app, !blen_to_le. pose proof (blen_nonneg (label_bytes st label ++
        props_bytes st properties ++ Hlc.serialize valid_from ++ prov_bytes provenance)) as Hn.
      rewrite !blen_app in Hn. lia. }
    rewrite (app_assoc (props_bytes st properties)), (app_assoc (label_bytes st label)).
    eapply reads_bind; [by apply reads_edge_id|]. eapply reads_bind; [by apply reads_version_id|].
    eapply reads_bind; [by apply reads_update|].
    eapply reads_last; [by apply reads_provenance|done].
  - unfold parse_delete_node_op.
    eapply reads_bind; [by apply reads_node_id|]. eapply reads_bind; [by apply reads_valid_from|].
    eapply reads_bind; [by apply reads_tomb|]. eapply reads_last; [by apply reads_destructive|done].
  - unfold parse_delete_edge_op.
    eapply reads_bind; [by apply reads_edge_id|]. eapply reads_bind; [by apply reads_valid_from|].
    eapply reads_bind; [by apply reads_tomb|]. eapply reads_last; [by apply reads_destructive|done].
  - unfold parse_retract_node_op.
    eapply reads_bind; [by apply reads_node_id|]. eapply reads_bind; [by apply reads_ts|].
    eapply reads_bind; [by apply reads_tomb|]. eapply reads_last; [by apply reads_destructive|done].
  - unfold parse_retract_edge_op.
    eapply reads_bind; [by apply reads_edge_id|]. eapply reads_bind; [by apply reads_ts|].
    eapply reads_bind; [by apply reads_tomb|]. eapply reads_last; [by apply reads_destructive|done].
  - unfold parse_checkpoint_op.
    apply reads_require; [rewrite blen_app, blen_to_le, blen_serialize; lia|].
    eapply reads_field; [by rewrite blen_to_le|intros; by eapply at_u64|].
    eapply reads_last; [by apply reads_ts|done].
  - eapply reads_bind; [by apply reads_label|]. eapply reads_last; [by apply reads_label|done].
  - eapply reads_bind; [by apply reads_label|]. eapply reads_last; [by apply reads_label|done].
  - unfold parse_begin_tx_op. rewrite <-(app_nil_r (to_le 8 tx_id)).
    apply reads_u64; [done|]. apply reads_ret.
  - unfold parse_commit_tx_op.
    apply reads_require; [rewrite !blen_app, !blen_to_le, blen_serialize; lia|].
    eapply reads_field; [by rewrite blen_to_le|intros; by eapply at_u64|].
    eapply reads_field; [by rewrite blen_to_le|intros; by eapply at_u32|].
    eapply reads_last; [by apply reads_ts|done].
Qed.
End CurrentVersion.

Lemma step_cur {B} (k : Z -> P B) off : (cur ≫= k) (off, st) = k off (off, st).
Proof. done. Qed.
Lemma step_here {A B} (f : Z -> res Error A) (k : A -> P B) off a :
  f off = Ok a -> (here f ≫= k) (off, st) = k a (off, st).
Proof. intros E. apply sm_bind_ok. unfold here. simpl. by rewrite E. Qed.
Lemma step_advance {B} n (k : unit -> P B) off :
  0 <= off -> 0 <= n -> off + n <= isize_max ->
  (advance n ≫= k) (off, st) = k tt (off + n, st).
Proof.
  intros. apply sm_bind_ok. unfold advance. simpl. unfold usize_checked_add.
  by rewrite checked_in by mlia.
Qed.
Lemma step_require {B} n (k : unit -> P B) off :
  0 <= off -> 0 <= n -> off + n <= blen buffer ->
  (require_bytes buffer n ≫= k) (off, st) = k tt (off, st).
Proof.
  intros. apply sm_bind_ok. unfold require_bytes, here, require_bytes_at. simpl.
  unfold usize_checked_add. rewrite checked_in by mlia. simpl.
  by rewrite (proj2 (Z.ltb_ge _ _)) by lia.
Qed.

Definition entry_of (v : Z) (l : LSN) (ts : HybridTimestamp) (op : WalOperation) : WalEntry :=
  mkEntry l ts op (entry_checksum crc32 st l ts op) (is_framed_version v) (Some v).

(** One entry, wherever it stands in the buffer. *)
Lemma parse_entry_bytes v l ts op off post :
  WAL_VERSION_STRING_LABELS <= v -> in_u64 l -> ts_valid ts -> op_wf st op ->
  in_u32 (entry_checksum crc32 st l ts op) ->
  at_off buffer off (entry_bytes crc32 st l ts op ++ post) ->
  parse_entry_at crc32 buffer off v st =
    (st, Ok (entry_of v l ts op, blen (entry_bytes crc32 st l ts op))).
Proof.
  intros Hv Hl Ht Hw Hc Ha.
  assert (blen (entry_bytes crc32 st l ts op) = 24 + blen (op_bytes st op)) as Hlen.
  { unfold entry_bytes. rewrite !blen_app, blen_header, blen_to_le. lia. }
  pose proof (at_off_len _ _ _ Ha) as [H0 Hb]. rewrite blen_app in Hb.
  unfold op_bytes in Hlen. rewrite blen_cons in Hlen.
  pose proof (blen_nonneg post). pose proof (blen_nonneg (fields_bytes st op)).
  set (n := blen (entry_bytes crc32 st l ts op)) in *.
  unfold entry_bytes in Ha. rewrite <-!app_assoc in Ha.
  assert (at_off buffer off (to_le 8 l ++ Hlc.serialize ts ++ to_le 4 (entry_checksum crc32 st l ts op) ++
    op_bytes st op ++ post)) as A0 by (unfold header_bytes in Ha; by rewrite <-app_assoc in Ha).
  skip_at A0 (off + 8) as A8.
  unshelve epose proof (at_off_skip _ _ (off + 8 + 12) _ _ A8 _) as A20; [rewrite blen_serialize; lia|].
  skip_at A20 (off + 8 + 12 + 4) as A24.
  unfold op_bytes in A24. cbn [app] in A24.
  unshelve epose proof (at_off_skip _ _ (off + 8 + 12 + 4 + 1) [bof (op_tag op)] _ A24 _) as A25;
    [glia|].
  unfold parse_entry_at, parse_entry.
  rewrite step_cur, step_require by lia.
  rewrite (step_here _ _ _ l) by (by eapply at_u64). rewrite step_advance by lia.
  rewrite (step_here _ _ _ (ts, 12)).
  2:{ unfold rest_at. unfold at_off in A8. rewrite A8. cbn [expect mbind res_bind].
      by rewrite deserialize_serialize_app. }
  rewrite step_advance by lia.
  rewrite (step_here _ _ _ (entry_checksum crc32 st l ts op)) by (by eapply at_u32).
  rewrite step_advance by lia. rewrite step_cur.
  rewrite (proj2 (Z.leb_gt _ _)) by lia.
  rewrite (step_here _ _ _ (op_tag op)) by (eapply at_u8; [exact A24|by destruct op]).
  rewrite step_advance by lia.
  rewrite (sm_bind_ok _ _ _ _ _ (reads_operation v ts Hv op Hw _ _ A25)).
  rewrite step_cur.
  rewrite (at_off_slice _ _ _ _ _ Ha) by (rewrite blen_header; lia).
  cbn [expect]. rewrite sm_bind_lift.
  replace (off + 24) with (off + 8 + 12 + 4) by lia.
  rewrite (at_off_slice buffer _ _ (op_bytes st op) post A24) by (unfold op_bytes; glia).
  cbn [expect]. rewrite sm_bind_lift. fold (entry_checksum crc32 st l ts op). rewrite Z.eqb_refl. cbn [negb].
  unfold mret, sm_ret. do 3 f_equal. lia.
Qed.
End Reads.
