(* ===== verification/WalReplay.v ===== *)
(** * Replaying a segment

    The parser on arbitrary bytes, and the replay loop on what the writer left:
    complete logs, torn and zero-filled tails. *)

From S2P Require Import Prelude.
From S2P Require Import Bytes.
From S2P Require Import Errors.
From S2P Require Import Hlc.
From S2P Require Import Ids.
From S2P Require Import Interning.
From S2P Require Import Property.
From S2P Require Import PropMap.
From S2P Require Import Provenance.
From S2P Require Import Wal.
From S2P Require Import WalRead.
From S2P Require Import WalFields.

(** ** Reading arbitrary bytes *)
Section Safety.
Import PropMap Prov Wal WalRead.
Context {St : Type} `{Interner St}.
Variable crc32 : bytes -> Z.
Variable buffer : bytes.
Hypothesis buffer_size : blen buffer <= isize_max.
Abbreviation P := (SM (Z * St) Error).

(** From a cursor inside the buffer: no panic, the cursor only moves forward and
    stays inside, the interner only grows. *)
Definition psafe {A} (p : P A) (off : Z) (s : St) (Q : Z -> A -> Prop) : Prop :=
  extends s (p (off, s)).1.2 /\
  match (p (off, s)).2 with
  | Ok a => off <= (p (off, s)).1.1 <= blen buffer /\ Q (p (off, s)).1.1 a
  | Err _ => True
  | Panic => False
  end.

Definition any {A} (_ : Z) (_ : A) : Prop := True.

Lemma psafe_bind {A B} (p : P A) (f : A -> P B) off s Q Q' :
  psafe p off s Q ->
  (forall off' s' a, off <= off' <= blen buffer -> extends s s' -> Q off' a ->
     psafe (f a) off' s' Q') ->
  psafe (p ≫= f) off s Q'.
Proof.
  unfold psafe, mbind, sm_bind. destruct (p (off, s)) as [[off1 s1] [a|e|]]; simpl; try tauto.
  intros [He [Hb HQ]] Hf. destruct (Hf off1 s1 a Hb He HQ) as [He' Hr].
  split; [by etrans|]. destruct (f a (off1, s1)) as [[off2 s2] [b|e|]]; simpl in *; try done.
  split; [lia|tauto].
Qed.

Lemma psafe_ret {A} (a : A) off s (Q : Z -> A -> Prop) :
  off <= blen buffer -> Q off a -> psafe (mret a) off s Q.
Proof. intros. split; [reflexivity|]. simpl. split; [lia|done]. Qed.

Lemma psafe_err {A} e off s (Q : Z -> A -> Prop) : psafe (lift (Err e)) off s Q.
Proof. by split. Qed.

Lemma psafe_here_eq {A B} (f : Z -> res Error A) (k : A -> P B) off s (R : A -> Prop) Q :
  safe (f off) R -> (forall a, f off = Ok a -> R a -> psafe (k a) off s Q) ->
  psafe (here f ≫= k) off s Q.
Proof.
  intros Hf Hk. destruct (f off) as [a|e|] eqn:E; [| |done].
  2:{ unfold psafe. rewrite (sm_bind_err (here f) k (off, s) (off, s) e); [by split|].
      unfold here. simpl. by rewrite E. }
  unfold psafe in *. rewrite (sm_bind_ok (here f) k (off, s) (off, s) a); [by apply Hk|].
  unfold here. simpl. by rewrite E.
Qed.

Lemma psafe_here {A B} (f : Z -> res Error A) (k : A -> P B) off s (R : A -> Prop) Q :
  safe (f off) R -> (forall a, R a -> psafe (k a) off s Q) -> psafe (here f ≫= k) off s Q.
Proof. intros Hf Hk. apply psafe_here_eq with R; [done|]. auto. Qed.

Lemma psafe_lift {A B} (r : res Error A) (k : A -> P B) off s (R : A -> Prop) Q :
  safe r R -> (forall a, R a -> psafe (k a) off s Q) -> psafe (lift r ≫= k) off s Q.
Proof.
  intros Hf Hk. destruct r as [a|e|]; [|by split|done]. by apply Hk.
Qed.

Lemma psafe_ret_bind {A B} (a : A) (k : A -> P B) off s Q :
  psafe (k a) off s Q -> psafe (lift (expect (Some a)) ≫= k) off s Q.
Proof. done. Qed.

Lemma psafe_advance {B} n (k : unit -> P B) off s Q :
  0 <= off -> 0 <= n -> off + n <= blen buffer ->
  psafe (k tt) (off + n) s Q -> psafe (advance n ≫= k) off s Q.
Proof.
  intros ??? [He Hr]. unfold psafe. rewrite (sm_bind_ok (advance n) k (off, s) (off + n, s) tt).
  - split; [done|]. destruct (k tt _) as [[o2 s2] [b|e|]]; simpl in *; try done.
    split; [lia|tauto].
  - unfold advance. simpl. unfold usize_checked_add. by rewrite checked_in by mlia.
Qed.

Lemma psafe_require {B} n (k : unit -> P B) off s Q :
  0 <= off -> 0 <= n -> (off + n <= blen buffer -> psafe (k tt) off s Q) ->
  psafe (require_bytes buffer n ≫= k) off s Q.
Proof.
  intros Ho Hn Hk. unfold require_bytes. apply psafe_here with (fun _ => off + n <= blen buffer).
  - unfold require_bytes_at, usize_checked_add. destruct (checked _ _ (off + n)) eqn:E; [|done].
    apply checked_some in E as [-> _]. simpl. case_goal; bool_to_prop; done.
  - intros []. done.
Qed.

Lemma psafe_intern {B} x (k : Z -> P B) off s Q :
  i_wf s -> (forall s' a, extends s s' -> psafe (k a) off s' Q) ->
  off <= blen buffer -> psafe (intern_str x ≫= k) off s Q.
Proof.
  intros W Hk Ho. destruct (intern_safe s x W) as [He Hr].
  destruct (i_intern s x) as [s1 [id|e|]] eqn:Ei; simpl in He, Hr; try done.
  - destruct (Hk s1 id He) as [He' Hr']. unfold psafe.
    rewrite (sm_bind_ok (intern_str x) k (off, s) (off, s1) id); [split; [by etrans|done]|].
    unfold intern_str. simpl. by rewrite Ei.
  - unfold psafe. rewrite (sm_bind_err (intern_str x) k (off, s) (off, s1) e); [by split|].
    unfold intern_str. simpl. by rewrite Ei.
Qed.

Ltac ps_step :=
  lazymatch goal with
  | |- psafe (lift (Err _)) _ _ _ => apply psafe_err
  | |- psafe (mret _) _ _ _ => apply psafe_ret; [lia|done]
  | |- psafe (require_bytes _ _ ≫= _) _ _ _ => apply psafe_require; [lia|mlia|intros ?]
  | |- psafe (advance _ ≫= _) _ _ _ => apply psafe_advance; [lia|mlia|lia|]
  | |- psafe (here (read_u8 _) ≫= _) _ _ _ =>
      eapply psafe_here; [apply read_u8_safe; lia|intros ? ?]
  | |- psafe (here (read_u32 _) ≫= _) _ _ _ =>
      eapply psafe_here; [apply read_u32_safe; lia|intros ? ?]
  | |- psafe (here (read_u64 _) ≫= _) _ _ _ =>
      eapply psafe_here; [apply read_u64_safe; lia|intros ? ?]
  | |- psafe (here (fun o => read_bytes _ o _) ≫= _) _ _ _ =>
      eapply psafe_here; [apply read_bytes_safe; mlia|intros ? ?]
  | |- psafe (lift (ok_or (from_utf8 _) _) ≫= _) _ _ _ =>
      apply psafe_lift with (fun _ => True); [by destruct (from_utf8 _)|intros ? _]
  | |- psafe (if ?b then _ else _) _ _ _ => destruct b eqn:?; bool_to_prop
  end.

Lemma safe_opt_string off s :
  0 <= off <= blen buffer -> psafe (read_opt_string buffer) off s any.
Proof. intros. unfold read_opt_string. repeat ps_step. Qed.
Lemma safe_opt_f64 off s : 0 <= off <= blen buffer -> psafe (read_opt_f64 buffer) off s any.
Proof. intros. unfold read_opt_f64. repeat ps_step. Qed.

Ltac in_range := lia.
Ltac then_ L := eapply psafe_bind; [apply L; in_range|intros ? ? ? ? ? _].

Lemma safe_provenance v off s :
  0 <= off <= blen buffer -> psafe (read_provenance buffer v) off s any.
Proof.
  intros Ho. unfold read_provenance. repeat ps_step.
  then_ safe_opt_string. then_ safe_opt_f64. then_ safe_opt_string. then_ safe_opt_string.
  eapply psafe_bind with (Q := any).
  { ps_step; [apply safe_opt_string; lia|ps_step]. }
  intros ? ? ? ? ? _. apply psafe_lift with (fun _ => True); [|intros ? _; ps_step].
  apply safe_map_err. match goal with |- safe (build ?b) _ => pose proof (build_not_panic b) as Hb;
    by destruct (build b) end.
Qed.

Lemma safe_label v off s : 0 <= off <= blen buffer -> i_wf s -> psafe (read_label buffer v) off s any.
Proof.
  intros Ho W. unfold read_label. repeat ps_step.
  apply psafe_intern; [done| |lia]. intros. repeat ps_step.
Qed.

Lemma rest_at_safe off : 0 <= off <= blen buffer ->
  safe (rest_at buffer off) (fun r => blen r = blen buffer - off).
Proof.
  intros Ho. unfold rest_at. destruct (slice_from_ok buffer off) as (r & -> & ?); [lia..|]. done.
Qed.

Lemma safe_ts off s : 0 <= off <= blen buffer -> psafe (read_ts buffer) off s any.
Proof.
  intros Ho. unfold read_ts.
  apply psafe_here with (fun '(t, n) => n = 12 /\ off + 12 <= blen buffer).
  - eapply safe_bind; [by apply rest_at_safe|]. intros r _ Hr. simpl in Hr. apply safe_map_err.
    eapply safe_mono; [apply deserialize_safe|]. intros [t n] (-> & ? & _). simpl. lia.
  - intros [t n] [-> ?]. repeat ps_step.
Qed.

Lemma safe_props off s : 0 <= off <= blen buffer -> i_wf s -> psafe (read_props buffer) off s any.
Proof.
  intros Ho W. unfold read_props.
  eapply psafe_bind with (Q := fun off' '(_, n) => off' = off /\ 0 <= n /\ off + n <= blen buffer).
  - destruct (slice_from_ok buffer off) as (r & Er & Hr); [lia..|].
    unfold psafe, rest_at. cbn [fst snd]. rewrite Er. cbn [expect].
    assert (blen r <= usize_max) as Hrb by mlia.
    destruct (deserialize_map_safe r s W Hrb) as [He Hm].
    destruct (PropMap.deserialize r s) as [s1 [[m n]|e|]]; simpl in *; try done.
    destruct Hm as (Hw & Hc & -> & Hn & _). pose proof (map_bytes_pos s1 (inner m)).
    split; [done|]. split; [lia|]. lia.
  - intros off' s' [m n] ? ? (-> & ? & ?). repeat ps_step.
Qed.

Lemma safe_id new_id off s :
  0 <= off <= blen buffer -> (forall z, is_panic (new_id z) = false) ->
  psafe (id ← here (deserialize_id buffer new_id); _ ← advance 8; mret id) off s any.
Proof.
  intros Ho Hn. apply psafe_here with (fun _ => off + 8 <= blen buffer).
  - unfold deserialize_id. destruct (slice buffer off (off + 8)) as [x|] eqn:E; [|done]. simpl.
    apply slice_some in E as (_ & _ & ? & _). apply safe_map_err. specialize (Hn (from_le x)).
    by destruct (new_id (from_le x)).
  - intros a ?. repeat ps_step.
Qed.

Lemma new_id_not_panic z :
  is_panic (Id.new_node z) = false /\ is_panic (Id.new_edge z) = false /\
  is_panic (Id.new_version z) = false.
Proof. unfold Id.new_node, Id.new_edge, Id.new_version. by case_goal. Qed.

Lemma safe_node_id off s : 0 <= off <= blen buffer -> psafe (read_node_id buffer) off s any.
Proof. intros. apply safe_id; [done|]. intros z. apply (new_id_not_panic z). Qed.
Lemma safe_edge_id off s : 0 <= off <= blen buffer -> psafe (read_edge_id buffer) off s any.
Proof. intros. apply safe_id; [done|]. intros z. apply (new_id_not_panic z). Qed.
Lemma safe_version_id off s : 0 <= off <= blen buffer -> psafe (read_version_id buffer) off s any.
Proof. intros. apply safe_id; [done|]. intros z. apply (new_id_not_panic z). Qed.
Lemma safe_tomb v off s :
  0 <= off <= blen buffer -> psafe (parse_opt_tombstone_version_id buffer v) off s any.
Proof.
  intros Ho. unfold parse_opt_tombstone_version_id. repeat ps_step.
  apply psafe_lift with (fun _ => True); [|intros ? _; ps_step]. apply safe_map_err.
  match goal with |- safe (Id.new_version ?z) _ => pose proof (new_id_not_panic z) as (_ & _ & Hz) end.
  by destruct (Id.new_version _).
Qed.

(** One step of a parser after another, both from inside the buffer. *)
Lemma psafe_seq {A B} (p : P A) (f : A -> P B) off s Q :
  0 <= off <= blen buffer -> i_wf s -> psafe p off s any ->
  (forall off' s' a, 0 <= off' <= blen buffer -> i_wf s' -> psafe (f a) off' s' Q) ->
  psafe (p ≫= f) off s Q.
Proof.
  intros Ho W Hp Hf. eapply psafe_bind; [done|]. intros off' s' a ? He _.
  apply Hf; [lia|]. by destruct (He W).
Qed.

Lemma safe_destructive v off s :
  0 <= off <= blen buffer -> psafe (read_destructive_provenance buffer v) off s any.
Proof.
  intros Ho. unfold read_destructive_provenance. repeat ps_step. by apply safe_provenance.
Qed.

Lemma safe_valid_from v ts off s :
  0 <= off <= blen buffer ->
  psafe (if WAL_VERSION <=? v then read_ts buffer else mret ts) off s any.
Proof. intros Ho. repeat ps_step. by apply safe_ts. Qed.

Ltac seq_field :=
  first [ apply safe_node_id | apply safe_edge_id | apply safe_version_id | apply safe_label
        | apply safe_ts | apply safe_props | apply safe_tomb | apply safe_destructive
        | apply safe_provenance | apply safe_valid_from ]; first [done | lia].
Ltac seq L := apply psafe_seq; [lia|done|L|intros ? ? ? ? ?].

Lemma safe_props_ts v ts off s : 0 <= off <= blen buffer -> i_wf s ->
  psafe (read_props_and_valid_from buffer v ts) off s any.
Proof.
  intros Ho W. unfold read_props_and_valid_from. repeat ps_step. do 2 seq seq_field. ps_step.
Qed.

Lemma safe_update v ts off s : 0 <= off <= blen buffer -> i_wf s ->
  psafe (read_update_payload buffer v ts) off s any.
Proof.
  intros Ho W. unfold read_update_payload. repeat ps_step. seq seq_field.
  seq ltac:(by apply safe_props_ts). case_goal. ps_step.
Qed.

Ltac op_field := first [seq_field | by apply safe_props_ts | by apply safe_update].
Ltac op_step :=
  lazymatch goal with
  | |- psafe (match ?x with _ => _ end) _ _ _ => destruct x
  | |- psafe (here _ ≫= _) _ _ _ => ps_step
  | |- psafe (advance _ ≫= _) _ _ _ => ps_step
  | |- psafe (require_bytes _ _ ≫= _) _ _ _ => ps_step
  | |- psafe (_ ≫= _) _ _ _ => seq op_field
  | _ => ps_step
  end.

Lemma safe_update_edge v ts off s : 0 <= off <= blen buffer -> i_wf s ->
  psafe (parse_update_edge_op buffer v ts) off s any.
Proof.
  intros Ho W. unfold parse_update_edge_op. apply psafe_require; [lia|case_goal; lia|intros ?].
  repeat op_step.
Qed.

Lemma safe_operation t v ts off s : 0 <= off <= blen buffer -> i_wf s ->
  psafe (parse_operation buffer t v ts) off s any.
Proof.
  intros Ho W. unfold parse_operation.
  repeat (case_goal; [first [by apply safe_update_edge | idtac]; unfold parse_create_node_op,
    parse_create_edge_op, parse_update_node_op, parse_delete_node_op, parse_delete_edge_op, parse_retract_node_op,
    parse_retract_edge_op, parse_checkpoint_op, parse_begin_tx_op, parse_commit_tx_op;
    repeat op_step|]); try apply psafe_err.
Qed.

(** What an accepted entry is: at least a header and a tag, inside the buffer,
    with the stored checksum over everything else. *)
Definition accepted (off : Z) (e : WalEntry) (n : Z) : Prop :=
  25 <= n /\ off + n <= blen buffer /\ in_u64 (Wal.lsn e) /\
  exists x, slice buffer off (off + n) = Some x /\ verify_checksum crc32 x = true.

Lemma slice_inner b lo hi x a c :
  slice b lo hi = Some x -> 0 <= a -> a <= c -> c <= hi - lo ->
  slice x a c = slice b (lo + a) (lo + c).
Proof.
  intros Hs ???. pose proof (slice_some _ _ _ _ Hs) as (? & ? & ? & Hx).
  destruct (slice_ok b (lo + a) (lo + c)) as (y & Hy & _); [lia..|]. rewrite Hy.
  unfold slice in *. case_hyp Hs; [|done]. case_hyp Hy; [|done]. simplify_eq.
  rewrite !(proj2 (Z.leb_le _ _)) by lia. simpl. f_equal.
  rewrite skipn_firstn_comm, firstn_firstn, drop_drop.
  f_equal; [lia|]. f_equal. lia.
Qed.

Lemma slice_to_end b lo : slice_from b lo = slice b lo (blen b).
Proof.
  unfold slice_from, slice. rewrite Z.leb_refl, andb_true_r. case_goal; [|done]. bool_to_prop.
  f_equal. rewrite take_ge; [done|]. unfold blen in *. rewrite length_drop. lia.
Qed.

Lemma accepted_checksum off n c head data :
  0 <= off -> 25 <= n -> off + n <= blen buffer -> read_u32 (E := Error) buffer (off + 20) = Ok c ->
  slice buffer off (off + 20) = Some head -> slice buffer (off + 24) (off + n) = Some data ->
  c = crc32 (head ++ data) ->
  exists x, slice buffer off (off + n) = Some x /\ verify_checksum crc32 x = true.
Proof.
  intros H0 Hn Hb Hc Hh Hd ->. destruct (slice_ok buffer off (off + n)) as (x & Hx & Lx); [lia..|].
  exists x. split; [done|]. unfold verify_checksum. rewrite (proj2 (Z.ltb_ge _ _)) by lia.
  rewrite slice_to_end, Lx.
  rewrite !(slice_inner _ _ _ _ _ _ Hx) by lia. rewrite Z.add_0_r, Hh.
  replace (off + (off + n - off)) with (off + n) by lia. rewrite Hd.
  unfold read_u32 in Hc. replace (off + 20 + 4) with (off + 24) in Hc by lia.
  destruct (slice buffer (off + 20) (off + 24)); [|done]. simpl in Hc. simplify_eq.
  by apply Z.eqb_eq.
Qed.

Lemma psafe_cur {B} (k : Z -> P B) off s Q : psafe (k off) off s Q -> psafe (cur ≫= k) off s Q.
Proof. done. Qed.

Lemma parse_entry_psafe off v s :
  0 <= off <= blen buffer -> i_wf s ->
  psafe (parse_entry crc32 buffer v) off s (fun off' '(e, n) => accepted off e n).
Proof.
  intros Ho W. unfold parse_entry. apply psafe_cur. ps_step.
  eapply psafe_here; [apply read_u64_safe; lia|intros l Hl]. ps_step.
  apply psafe_here with (fun _ => True).
  { eapply safe_bind; [apply rest_at_safe; lia|]. intros r _ _. apply safe_map_err.
    eapply safe_mono; [apply deserialize_safe|done]. }
  intros [t n] _. ps_step. replace (off + 8 + 12) with (off + 20) by lia.
  eapply psafe_here_eq; [apply read_u32_safe; lia|intros c Hc _]. ps_step. apply psafe_cur.
  ps_step; [ps_step|].
  eapply psafe_here; [apply read_u8_safe; lia|intros tag _]. ps_step.
  eapply psafe_bind; [apply safe_operation; [lia|done]|]. intros off' s' op ? _ _. apply psafe_cur.
  destruct (slice_ok buffer off (off + 20)) as (head & Hh & _); [lia..|]. rewrite Hh.
  destruct (slice_ok buffer (off + 24) off') as (data & Hd & _); [lia..|]. rewrite Hd.
  apply psafe_ret_bind. apply psafe_ret_bind.
  ps_step; [ps_step|]. apply psafe_ret; [lia|]. unfold accepted. cbn [Wal.lsn].
  split_and!; [lia..|done|]. eapply accepted_checksum; try done; try lia.
  by replace (off + (off' - off)) with off' by lia.
Qed.

Lemma parse_entry_at_safe off v s :
  0 <= off <= blen buffer -> i_wf s ->
  sm_safe extends (parse_entry_at crc32 buffer off v) s (fun _ '(e, n) => accepted off e n).
Proof.
  intros Ho W. destruct (parse_entry_psafe off v s Ho W) as [He Hr].
  unfold sm_safe, parse_entry_at. destruct (parse_entry crc32 buffer v (off, s)) as [[o s'] [[e n]|e|]];
    simpl in *; try done. tauto.
Qed.

End Safety.

(** ** The replay loop *)
Section Replay.
Import PropMap Prov Wal WalRead.
Context {St : Type} `{Interner St}.
Variable crc32 : bytes -> Z.
Variable buffer : bytes.
Hypothesis crc32_u32 : forall b, in_u32 (crc32 b).
Hypothesis buffer_size : blen buffer <= isize_max.

(** *** Termination on arbitrary bytes *)
Lemma scan_follows_total fuel scan v last st :
  0 <= scan -> Z.max 0 (blen buffer - scan) < Z.of_nat fuel -> i_wf st ->
  exists b, (scan_follows crc32 buffer fuel scan v last st).2 = Some b /\
    extends st (scan_follows crc32 buffer fuel scan v last st).1.
Proof.
  revert scan st. induction fuel as [|fuel IH]; intros scan st Hs Hf W; [lia|].
  cbn [scan_follows]. case_goal; [exists false; by split|]. bool_to_prop.
  destruct (parse_entry_at_safe crc32 buffer buffer_size scan v st) as [He Hr]; [lia|done|].
  destruct (parse_entry_at crc32 buffer scan v st) as [st1 [[e n]|e|]]; simpl in He, Hr; try done;
    destruct (He W) as [W1 _];
    (destruct (IH (scan + 1) st1) as (b & Hb & Hx); [lia|lia|done|]).
  - destruct last as [l|]; [case_goal|]; eauto. exists b. split; [done|by etrans].
  - exists b. split; [done|by etrans].
Qed.

Lemma follows_total start v last st :
  0 <= start -> i_wf st ->
  exists b, (plaintext_valid_entry_follows crc32 buffer start v last st).2 = Some b /\
    extends st (plaintext_valid_entry_follows crc32 buffer start v last st).1.
Proof. intros. apply scan_follows_total; [lia| |done]. unfold blen. lia. Qed.

(** One turn of the loop that does not parse an entry ends it, in bounds. *)
Lemma parse_loop_stop fuel v start tol last off es st st' e :
  0 <= off < blen buffer -> i_wf st' -> parse_entry_at crc32 buffer off v st = (st', Err e) ->
  exists st'' oe, parse_loop crc32 buffer (S fuel) v start tol last off es st = Some (off, es, st'', oe) /\
    extends st' st''.
Proof.
  intros Ho W E. cbn [parse_loop]. rewrite (proj2 (Z.ltb_lt _ _)) by lia. cbn [negb]. rewrite E.
  case_goal; bool_to_prop.
  - destruct (slice_from_ok buffer off) as (r & -> & _); [lia..|].
    repeat case_goal; by eexists _, _.
  - destruct (slice_ok buffer off (off + 24)) as (h & -> & _); [lia..|]. case_goal; [by eexists _, _|].
    destruct (follows_total off v last st') as (b & Hb & Hx); [lia|done|].
    destruct (plaintext_valid_entry_follows _ _ _ _ _ _) as [st2 o]. simpl in *. subst o.
    case_goal; by eexists _, _.
Qed.

(** Every entry the loop hands over. *)
Definition replayed (start : LSN) (e : WalEntry) : Prop :=
  start <= Wal.lsn e /\ exists off n, 0 <= off /\ accepted crc32 buffer off e n.

Lemma parse_loop_total fuel v start tol last off es st :
  0 <= off <= blen buffer -> blen buffer - off < Z.of_nat fuel -> i_wf st ->
  exists off' es' st' oe,
    parse_loop crc32 buffer fuel v start tol last off es st = Some (off', es ++ es', st', oe) /\
    off <= off' <= blen buffer /\ extends st st' /\ Forall (replayed start) es'.
Proof.
  revert last off es st. induction fuel as [|fuel IH]; intros last off es st Ho Hf W; [lia|].
  destruct (Z.ltb_spec off (blen buffer)) as [Hlt|Hge].
  2:{ cbn [parse_loop]. rewrite (proj2 (Z.ltb_ge _ _)) by lia. cbn [negb].
      exists off, [], st, None. rewrite app_nil_r. split_and!; try done. lia. }
  destruct (parse_entry_at_safe crc32 buffer buffer_size off v st Ho W) as [He Hr].
  destruct (parse_entry_at crc32 buffer off v st) as [st1 [[e n]|e|]] eqn:E; simpl in He, Hr; try done;
    destruct (He W) as [W1 _].
  - pose proof Hr as (Hn & Hb & _).
    cbn [parse_loop]. rewrite (proj2 (Z.ltb_lt _ _)) by done. cbn [negb]. rewrite E.
    destruct (IH (Some (Wal.lsn e)) (off + n) (if start <=? Wal.lsn e then es ++ [e] else es) st1)
      as (off' & es' & st' & oe & Hl & ? & Hx & Hall); [lia|lia|done|].
    exists off', ((if start <=? Wal.lsn e then [e] else []) ++ es'), st', oe. split_and!.
    + rewrite Hl. case_goal; by rewrite <-?app_assoc.
    + lia.
    + lia.
    + by etrans.
    + apply Forall_app. split; [|done]. case_goal; [|constructor]. bool_to_prop.
      apply Forall_singleton. split; [done|]. exists off, n. split; [lia|done].
  - destruct (parse_loop_stop fuel v start tol last off es st st1 e ltac:(lia) W1 E)
      as (st2 & oe & Hl & Hx).
    exists off, [], st2, oe. rewrite app_nil_r. split_and!; try done; try lia. by etrans.
Qed.
End Replay.

(** ** A log as the writer leaves it *)
Section Written.
Import Wal WalRead.
Context {St : Type} `{Interner St}.
Variable crc32 : bytes -> Z.
Hypothesis crc32_u32 : forall b, in_u32 (crc32 b).
Variable st : St.

Definition record := (LSN * HybridTimestamp * WalOperation)%type.
Definition rec_ok (r : record) : Prop :=
  in_u64 r.1.1 /\ ts_valid r.1.2 /\ op_wf st r.2.
Definition rec_bytes (r : record) : bytes := entry_bytes crc32 st r.1.1 r.1.2 r.2.
Definition rec_entry (v : Z) (r : record) : WalEntry := entry_of crc32 st v r.1.1 r.1.2 r.2.
Definition log_bytes (rs : list record) : bytes := concat (map rec_bytes rs).

(** [serialize_operation_into] called on each record in turn. *)
Definition write_log (rs : list record) (buffer : bytes) : res Error bytes :=
  foldl (fun b r => b ← b; x ← serialize_operation_into crc32 st r.1.1 r.1.2 r.2 []; Ok (b ++ x))
    (Ok buffer) rs.

Lemma write_log_ok rs buffer :
  Forall rec_ok rs -> write_log rs buffer = Ok (buffer ++ log_bytes rs).
Proof.
  unfold write_log. intros Hall. revert buffer.
  induction Hall as [|r rs (_ & _ & Hw) _ IH]; intros buffer; [by rewrite app_nil_r|].
  cbn [foldl mbind res_bind]. rewrite serialize_operation_ok by done. cbn [mbind res_bind].
  rewrite IH. unfold log_bytes. cbn [map concat]. by rewrite <-app_assoc.
Qed.

Lemma rec_bytes_len r : 25 <= blen (rec_bytes r).
Proof.
  unfold rec_bytes, entry_bytes, op_bytes.
  pose proof (blen_nonneg (fields_bytes st r.2)). rewrite !blen_app, blen_header, blen_to_le, blen_cons. lia.
Qed.

Lemma log_bytes_len rs : Z.of_nat (length rs) <= blen (log_bytes rs).
Proof.
  unfold log_bytes. induction rs as [|r rs IH]; [done|]. cbn [map concat]. rewrite blen_app.
  pose proof (rec_bytes_len r). rewrite length_cons. lia.
Qed.

Hypothesis st_wf : i_wf st.
Variable buffer : bytes.
Hypothesis buffer_size : blen buffer <= isize_max.

Lemma parse_record v r off post :
  WAL_VERSION_STRING_LABELS <= v -> rec_ok r -> at_off buffer off (rec_bytes r ++ post) ->
  parse_entry_at crc32 buffer off v st = (st, Ok (rec_entry v r, blen (rec_bytes r))).
Proof.
  intros Hv (Hl & Ht & Hw) Ha. apply (parse_entry_bytes crc32 buffer st buffer_size st_wf v _ _ _ _ post); try done.
  apply crc32_u32.
Qed.

(** *** What follows the last record *)
Lemma parse_short v off s :
  0 <= off <= blen buffer -> blen buffer < off + 24 ->
  parse_entry_at crc32 buffer off v s = (s, Err corrupted).
Proof.
  intros Ho Hs. unfold parse_entry_at, parse_entry.
  rewrite (sm_bind_ok cur _ (off, s) (off, s) off) by done.
  rewrite (sm_bind_err (require_bytes buffer 24) _ (off, s) (off, s) corrupted); [done|].
  unfold require_bytes, here, require_bytes_at. cbn [fst].
  unfold usize_checked_add. rewrite checked_in by mlia. cbn [ok_or mbind res_bind].
  by rewrite (proj2 (Z.ltb_lt _ _)) by lia.
Qed.

Definition zeros (n : nat) : bytes := replicate n (bof 0).
Definition zero_header : bytes := to_le 8 0 ++ Hlc.serialize (mkTs 0 0) ++ to_le 4 0.
Lemma zeros_header n : zeros (24 + n) = zero_header ++ zeros n.
Proof. unfold zeros. by rewrite replicate_add. Qed.
Lemma blen_zeros n : blen (zeros n) = Z.of_nat n.
Proof. unfold blen, zeros. by rewrite length_replicate. Qed.

Lemma zero_ts_valid : ts_valid (mkTs 0 0).
Proof. split; [split; cbn; mlia|]. left. cbn. unfold MAX_VALID_TIMESTAMP. mlia. Qed.

Lemma parse_zeros v off n :
  (0 < n)%nat -> at_off buffer off (zeros n) ->
  parse_entry_at crc32 buffer off v st = (st, Err corrupted).
Proof.
  intros Hn Ha. pose proof (at_off_len _ _ _ Ha) as [? Hl]. rewrite blen_zeros in Hl.
  destruct (decide (n < 24)%nat) as [Hs|Hs]; [apply parse_short; lia|].
  replace n with (24 + (n - 24))%nat in * by lia. revert Ha Hl. generalize (n - 24)%nat. clear n Hn Hs.
  intros n Ha Hl. rewrite zeros_header in Ha. unfold zero_header in *. rewrite <-!app_assoc in Ha.
  skip_at Ha (off + 8) as A8.
  unshelve epose proof (at_off_skip _ _ (off + 8 + 12) _ _ A8 _) as A20; [rewrite blen_serialize; lia|].
  skip_at A20 (off + 8 + 12 + 4) as A24.
  unfold parse_entry_at, parse_entry.
  rewrite step_cur, step_require by lia.
  rewrite (step_here st _ _ off 0) by (eapply at_u64; [done|mlia]).
  rewrite step_advance by mlia.
  rewrite (step_here st _ _ _ (mkTs 0 0, 12)).
  2:{ unfold rest_at. unfold at_off in A8. rewrite A8. cbn [expect mbind res_bind].
      by rewrite deserialize_serialize_app by apply zero_ts_valid. }
  rewrite step_advance by mlia.
  rewrite (step_here st _ _ _ 0) by (eapply at_u32; [done|mlia]).
  rewrite step_advance by mlia. rewrite step_cur. case_goal; [done|]. bool_to_prop.
  destruct n as [|n]; [lia|].
  rewrite (step_here st _ _ _ 0) by (eapply at_u8; [exact A24|mlia]).
  by rewrite step_advance by mlia.
Qed.

Definition wanted (start : LSN) (es : list WalEntry) : list WalEntry :=
  filter (fun e => start <= Wal.lsn e) es.
Definition last_lsn (rs : list record) (d : option LSN) : option LSN :=
  foldl (fun _ r => Some r.1.1) d rs.

(** The loop walks over the written records. *)
Lemma parse_loop_records v start tol rs post last off es fuel :
  WAL_VERSION_STRING_LABELS <= v -> Forall rec_ok rs ->
  at_off buffer off (log_bytes rs ++ post) ->
  parse_loop crc32 buffer (length rs + fuel) v start tol last off es st =
  parse_loop crc32 buffer fuel v start tol (last_lsn rs last) (off + blen (log_bytes rs))
    (es ++ wanted start (map (rec_entry v) rs)) st.
Proof.
  intros Hv Hall. revert last off es. induction Hall as [|r rs Hr _ IH]; intros last off es Ha.
  - cbn [length Nat.add last_lsn foldl map]. unfold wanted. rewrite filter_nil, app_nil_r.
    change (blen (log_bytes [])) with 0. by rewrite Z.add_0_r.
  - unfold log_bytes in *. cbn [map concat] in *. rewrite <-app_assoc in Ha.
    pose proof (at_off_len _ _ _ Ha) as [? Hl]. rewrite !blen_app in Hl. pose proof (rec_bytes_len r).
    pose proof (blen_nonneg (concat (map rec_bytes rs))). pose proof (blen_nonneg post).
    cbn [length Nat.add parse_loop]. rewrite (proj2 (Z.ltb_lt _ _)) by lia. cbn [negb].
    rewrite (parse_record v r off _ Hv Hr Ha). cbv beta iota zeta.
    rewrite (IH _ (off + blen (rec_bytes r))) by by apply at_off_app.
    cbn [last_lsn foldl]. rewrite blen_app, Z.add_assoc. f_equal.
    unfold wanted. rewrite filter_cons. change (Wal.lsn (rec_entry v r)) with r.1.1.
    destruct (Z.leb_spec start r.1.1); [rewrite decide_True by done|rewrite decide_False by lia];
      by rewrite <-?app_assoc.
Qed.
(** The written records are read back; what the loop does next depends on the tail. *)
Lemma replay_prefix v start tol rs post off :
  WAL_VERSION_STRING_LABELS <= v -> Forall rec_ok rs -> at_off buffer off (log_bytes rs ++ post) ->
  exists fuel last,
    parse_plaintext_entries crc32 buffer off v start [] tol st =
    parse_loop crc32 buffer (S fuel) v start tol last (off + blen (log_bytes rs))
      (wanted start (map (rec_entry v) rs)) st.
Proof.
  intros Hv Hall Ha. pose proof (at_off_len _ _ _ Ha) as [? Hl]. rewrite blen_app in Hl.
  pose proof (log_bytes_len rs). pose proof (blen_nonneg post).
  exists (length buffer - length rs)%nat, (last_lsn rs None).
  unfold parse_plaintext_entries. unfold blen in *.
  replace (S (length buffer)) with (length rs + S (length buffer - length rs))%nat by lia.
  by rewrite (parse_loop_records v start tol rs post None off [] _ Hv Hall Ha).
Qed.

Lemma all_zero_zeros n : all_zero (zeros n) = true.
Proof.
  apply forallb_forall. intros x Hx. apply list_elem_of_In, elem_of_replicate in Hx as [-> _]. done.
Qed.

(** A log followed by zero bytes. *)
Lemma replay_zeros v start tol rs n off :
  WAL_VERSION_STRING_LABELS <= v -> Forall rec_ok rs -> at_off buffer off (log_bytes rs ++ zeros n) ->
  parse_plaintext_entries crc32 buffer off v start [] tol st =
    Some (off + blen (log_bytes rs), wanted start (map (rec_entry v) rs), st, None).
Proof.
  intros Hv Hall Ha.
  destruct (replay_prefix v start tol rs _ off Hv Hall Ha)
    as (fuel & last & ->).
  apply at_off_app in Ha. pose proof (at_off_len _ _ _ Ha) as [Ho Hl]. rewrite blen_zeros in Hl.
  cbn [parse_loop]. destruct n as [|n]; [by rewrite (proj2 (Z.ltb_ge _ _)) by lia|].
  rewrite (proj2 (Z.ltb_lt _ _)) by lia. cbn [negb].
  rewrite (parse_zeros v _ (S n)) by (done || lia).
  destruct (Z.ltb_spec (blen buffer) (off + blen (log_bytes rs) + 24)).
  - unfold at_off in Ha. by rewrite Ha, all_zero_zeros.
  - replace (S n) with (24 + (S n - 24))%nat in Ha by lia. unfold zeros in Ha. rewrite replicate_add in Ha.
    rewrite (at_off_slice _ _ _ _ _ Ha) by done. fold (zeros 24). by rewrite all_zero_zeros.
Qed.

(** A log followed by less than an entry header. *)
Lemma replay_short v start tol rs tail off :
  WAL_VERSION_STRING_LABELS <= v -> Forall rec_ok rs -> at_off buffer off (log_bytes rs ++ tail) ->
  0 < blen tail < 24 -> all_zero tail = false ->
  parse_plaintext_entries crc32 buffer off v start [] tol st =
    Some (off + blen (log_bytes rs), wanted start (map (rec_entry v) rs), st,
          if tol then None else Some corrupted).
Proof.
  intros Hv Hall Ha Ht Hz.
  destruct (replay_prefix v start tol rs _ off Hv Hall Ha)
    as (fuel & last & ->).
  apply at_off_app in Ha. pose proof (at_off_len _ _ _ Ha) as [Ho Hl].
  cbn [parse_loop]. rewrite (proj2 (Z.ltb_lt _ _)) by lia. cbn [negb].
  rewrite parse_short by lia.
  rewrite (proj2 (Z.ltb_lt _ _)) by lia. unfold at_off in Ha. rewrite Ha, Hz. by destruct tol.
Qed.

End Written.

Section ReplayProperties.
Import Wal WalRead.
Context {St : Type} `{Interner St}.
Variable crc32 : bytes -> Z.
Hypothesis crc32_u32 : forall b, in_u32 (crc32 b).

(** C22: One logged operation: [serialize_operation_into] succeeds on every
    operation the database writes, its output has exactly the length
    [estimate_entry_capacity] predicts and passes [verify_checksum], and
    [parse_entry_at] reads back the same LSN, timestamp and operation from it,
    consumes all of it and leaves the string interner untouched. *)
Theorem wal_entry_roundtrip (st : St) v l ts op :
  WAL_VERSION_STRING_LABELS <= v -> i_wf st -> in_u64 l -> ts_valid ts -> op_wf st op ->
  estimate_entry_capacity st op <= isize_max ->
  exists b, serialize_operation_into crc32 st l ts op [] = Ok b /\
    blen b = estimate_entry_capacity st op /\ verify_checksum crc32 b = true /\
    parse_entry_at crc32 b 0 v st = (st, Ok (entry_of crc32 st v l ts op, blen b)).
Proof.
  intros Hv W Hl Ht Hw Hs. exists (entry_bytes crc32 st l ts op).
  pose proof (entry_size_estimate crc32 st l ts op Hw) as E.
  assert (blen (entry_bytes crc32 st l ts op) <= isize_max) as Hb by lia.
  assert (parse_entry_at crc32 (entry_bytes crc32 st l ts op) 0 v st =
            (st, Ok (entry_of crc32 st v l ts op, blen (entry_bytes crc32 st l ts op)))) as Hp.
  { apply (parse_entry_bytes _ _ st Hb W v l ts op 0 []); try done; [apply crc32_u32|].
    rewrite app_nil_r. apply at_off_0. }
  split_and!; [by apply serialize_operation_ok|done| |done].
  assert (0 <= 0 <= blen (entry_bytes crc32 st l ts op)) as H0 by (split; [lia|apply blen_nonneg]).
  destruct (parse_entry_at_safe crc32 _ Hb 0 v st H0 W) as [_ Hr].
  rewrite Hp in Hr. cbn in Hr. destruct Hr as (_ & _ & _ & x & Hx & Hc).
  rewrite Z.add_0_l in Hx. rewrite <-(app_nil_r (entry_bytes _ _ _ _ _)) in Hx at 1.
  rewrite slice_prefix in Hx by done. by simplify_eq.
Qed.

(** [parse_entry_at] on arbitrary bytes, from any offset of the buffer and in
    any format version: it never panics; it keeps every interned string; an entry
    it accepts lies inside the buffer, is at least a header and a tag long, and its
    bytes pass [verify_checksum]. *)
Theorem parse_entry_untrusted (st : St) buffer off v :
  blen buffer <= isize_max -> 0 <= off <= blen buffer -> i_wf st ->
  let '(st', r) := parse_entry_at crc32 buffer off v st in
  i_wf st' /\ (forall id x, i_resolve st id = Some x -> i_resolve st' id = Some x) /\
  match r with
  | Ok (e, n) => 25 <= n /\ off + n <= blen buffer /\
      exists x, slice buffer off (off + n) = Some x /\ verify_checksum crc32 x = true
  | Err _ => True
  | Panic => False
  end.
Proof.
  intros Hb Ho W. destruct (parse_entry_at_safe crc32 buffer Hb off v st Ho W) as [He Hr].
  destruct (parse_entry_at crc32 buffer off v st) as [st' [[e n]|e|]]; simpl in *;
    destruct (He W); unfold accepted in *; naive_solver.
Qed.

(** Replay of an arbitrary segment body terminates: the loop always returns,
    with its cursor in the buffer, and every entry it hands over has an LSN at or
    above [start_lsn] and is the checksummed content of a region of the buffer. *)
Theorem replay_total (st : St) buffer off v start tol :
  blen buffer <= isize_max -> 0 <= off <= blen buffer -> i_wf st ->
  exists off' es st' oe,
    parse_plaintext_entries crc32 buffer off v start [] tol st = Some (off', es, st', oe) /\
    off <= off' <= blen buffer /\ i_wf st' /\ Forall (replayed crc32 buffer start) es.
Proof.
  intros Hb Ho W. unfold parse_plaintext_entries.
  destruct (parse_loop_total crc32 buffer Hb (S (length buffer)) v start tol None off [] st Ho)
    as (off' & es & st' & oe & E & ? & He & Hall); [unfold blen; lia|done|].
  exists off', es, st', oe. split_and!; try done; try lia. apply (He W).
Qed.

(** Durability of a written log: a segment body that holds the output of
    [serialize_operation_into] for any sequence of operations, followed by the end
    of the file or by preallocated zero bytes of any length, replays to exactly the
    entries at or above [start_lsn], in order, with no error, whether or not a torn
    tail is tolerated. *)
Theorem replay_written_log (st : St) buffer off v start tol rs n body :
  WAL_VERSION_STRING_LABELS <= v -> i_wf st -> blen buffer <= isize_max ->
  Forall (rec_ok st) rs -> write_log crc32 st rs [] = Ok body ->
  at_off buffer off (body ++ zeros n) ->
  parse_plaintext_entries crc32 buffer off v start [] tol st =
    Some (off + blen body, wanted start (map (rec_entry crc32 st v) rs), st, None).
Proof.
  intros Hv W Hb Hall Hw Ha. rewrite write_log_ok, app_nil_l in Hw by done. injection Hw as <-.
  by eapply (replay_zeros crc32 crc32_u32 st W buffer Hb).
Qed.

(** A crash-torn tail: when the file ends in fewer bytes than an entry header
    and they are not all zero, a tolerant replay returns exactly the entries
    written before them, and a strict replay reports corruption. *)
Theorem replay_torn_tail (st : St) buffer off v start tol rs tail body :
  WAL_VERSION_STRING_LABELS <= v -> i_wf st -> blen buffer <= isize_max ->
  Forall (rec_ok st) rs -> write_log crc32 st rs [] = Ok body ->
  at_off buffer off (body ++ tail) -> 0 < blen tail < 24 -> all_zero tail = false ->
  parse_plaintext_entries crc32 buffer off v start [] tol st =
    Some (off + blen body, wanted start (map (rec_entry crc32 st v) rs), st,
          if tol then None else Some corrupted).
Proof.
  intros Hv W Hb Hall Hw Ha Ht Hz. rewrite write_log_ok, app_nil_l in Hw by done. injection Hw as <-.
  by eapply (replay_short crc32 crc32_u32 st W buffer Hb).
Qed.
End ReplayProperties.
