(* ===== verification/WalCrypt.v ===== *)
(** * Encryption of log entries: [src/encryption/cipher.rs],
    [src/encryption/wal_encryption.rs]

    The [Cipher] interface with its two implementations over an AEAD primitive
    of the [aes-gcm] and [chacha20poly1305] crates (a parameter), the encryption
    of an entry's payload under its plain header, and the keyring that names the
    generation of a segment. *)

From S2P Require Import Prelude.
From S2P Require Import Bytes.
From S2P Require Import Vectors.

Module Crypt.

Inductive EncryptionError :=
  | EncryptFailed
  | DecryptFailed
  | InvalidCiphertext (expected actual : Z)
  | InvalidWalEntry (expected actual : Z).

(** [trait Cipher]; the random nonce an implementation draws is an argument. *)
Record Cipher := mkCipher {
  encrypt : bytes -> bytes -> bytes -> res EncryptionError bytes;
  decrypt : bytes -> bytes -> res EncryptionError bytes;
  overhead : Z }.

(** The AEAD primitive of a crate under one key: [encrypt(nonce, Payload { msg, aad })]
    and [decrypt(nonce, Payload { msg, aad })]. *)
Record AeadPrimitive := mkAead {
  aead_encrypt : bytes -> bytes -> bytes -> option bytes;
  aead_decrypt : bytes -> bytes -> bytes -> option bytes }.

(** *** AES-256-GCM *)
Definition AES_NONCE_SIZE : Z := 12.
Definition AES_TAG_SIZE : Z := 16.

Definition aes_encrypt (inner : AeadPrimitive) (nonce_bytes plaintext aad : bytes)
    : res EncryptionError bytes :=
  ct_with_tag ← ok_or (aead_encrypt inner nonce_bytes plaintext aad) EncryptFailed;
  Ok (nonce_bytes ++ ct_with_tag).

Definition aes_decrypt (inner : AeadPrimitive) (ciphertext aad : bytes) : res EncryptionError bytes :=
  let min_len := AES_NONCE_SIZE + AES_TAG_SIZE in
  if blen ciphertext <? min_len then Err (InvalidCiphertext min_len (blen ciphertext))
  else
    nonce ← expect (slice ciphertext 0 AES_NONCE_SIZE);
    ct_and_tag ← expect (slice_from ciphertext AES_NONCE_SIZE);
    ok_or (aead_decrypt inner nonce ct_and_tag aad) DecryptFailed.

Definition Aes256GcmCipher (inner : AeadPrimitive) : Cipher :=
  mkCipher (aes_encrypt inner) (aes_decrypt inner) (AES_NONCE_SIZE + AES_TAG_SIZE).

(** *** ChaCha20-Poly1305 *)
Definition CHACHA_NONCE_SIZE : Z := 12.
Definition CHACHA_TAG_SIZE : Z := 16.

Definition chacha_encrypt (inner : AeadPrimitive) (nonce_bytes plaintext aad : bytes)
    : res EncryptionError bytes :=
  ct_with_tag ← ok_or (aead_encrypt inner nonce_bytes plaintext aad) EncryptFailed;
  Ok (nonce_bytes ++ ct_with_tag).

Definition chacha_decrypt (inner : AeadPrimitive) (ciphertext aad : bytes) : res EncryptionError bytes :=
  let min_len := CHACHA_NONCE_SIZE + CHACHA_TAG_SIZE in
  if blen ciphertext <? min_len then Err (InvalidCiphertext min_len (blen ciphertext))
  else
    nonce ← expect (slice ciphertext 0 CHACHA_NONCE_SIZE);
    ct_and_tag ← expect (slice_from ciphertext CHACHA_NONCE_SIZE);
    ok_or (aead_decrypt inner nonce ct_and_tag aad) DecryptFailed.

Definition ChaCha20Poly1305Cipher (inner : AeadPrimitive) : Cipher :=
  mkCipher (chacha_encrypt inner) (chacha_decrypt inner) (CHACHA_NONCE_SIZE + CHACHA_TAG_SIZE).

(** *** Entry payloads *)
Definition WAL_HEADER_SIZE : Z := 25.

Definition encrypt_wal_payload (serialized : bytes) (cipher : Cipher) (nonce_bytes : bytes)
    : res EncryptionError bytes :=
  if blen serialized <? WAL_HEADER_SIZE
  then Err (InvalidWalEntry WAL_HEADER_SIZE (blen serialized))
  else
    header_and_op ← expect (slice serialized 0 WAL_HEADER_SIZE);
    payload ← expect (slice_from serialized WAL_HEADER_SIZE);
    encrypted_payload ← encrypt cipher nonce_bytes payload header_and_op;
    Ok (header_and_op ++ encrypted_payload).

Definition decrypt_wal_payload (encrypted_entry : bytes) (cipher : Cipher)
    : res EncryptionError bytes :=
  let min_len := WAL_HEADER_SIZE + overhead cipher in
  if blen encrypted_entry <? min_len
  then Err (InvalidWalEntry min_len (blen encrypted_entry))
  else
    header_and_op ← expect (slice encrypted_entry 0 WAL_HEADER_SIZE);
    encrypted_payload ← expect (slice_from encrypted_entry WAL_HEADER_SIZE);
    plaintext ← decrypt cipher encrypted_payload header_and_op;
    Ok (header_and_op ++ plaintext).

(** *** The keyring *)
Definition INITIAL_WAL_KEY_VERSION : Z := 1.

Record WalKeyGeneration := mkGen { key_version : Z; gen_cipher : Cipher }.

Record WalKeyring := mkKeyring {
  generations : list WalKeyGeneration;
  current_version : Z;
  match_any : bool }.

Definition single_versioned (cipher : Cipher) (key_version : Z) : WalKeyring :=
  mkKeyring [mkGen key_version cipher] key_version true.
Definition single (cipher : Cipher) : WalKeyring := single_versioned cipher INITIAL_WAL_KEY_VERSION.

(** [iter().find(|g| g.key_version == v)] *)
Definition find_generation (v : Z) (gs : list WalKeyGeneration) : option WalKeyGeneration :=
  snd <$> list_find (fun g => key_version g = v) gs.

(** [iter().min_by_key(..)]: the first of the smallest. *)
Definition min_generation (gs : list WalKeyGeneration) : option WalKeyGeneration :=
  foldl (fun acc g =>
           match acc with
           | None => Some g
           | Some m => if key_version g <? key_version m then Some g else Some m
           end) None gs.

Definition current (k : WalKeyring) : option (Cipher * Z) :=
  (fun g => (gen_cipher g, current_version k)) <$> find_generation (current_version k) (generations k).

Definition cipher_for_segment (k : WalKeyring) (key_version : option Z) : option Cipher :=
  if match_any k then gen_cipher <$> head (generations k)
  else
    match key_version with
    | Some kv => gen_cipher <$> find_generation kv (generations k)
    | None => gen_cipher <$> min_generation (generations k)
    end.

Definition add_generation (k : WalKeyring) (kv : Z) (cipher : Cipher) : WalKeyring :=
  mkKeyring (filter (fun g => key_version g ≠ kv) (generations k) ++ [mkGen kv cipher]) kv false.

End Crypt.

(** ** What a cipher promises *)
Section CipherLaws.
Import Crypt.

Class CipherOk (c : Cipher) : Prop := {
  cipher_roundtrip nonce p aad ct :
    blen nonce = 12 -> encrypt c nonce p aad = Ok ct ->
    decrypt c ct aad = Ok p /\ blen ct = blen p + overhead c;
  cipher_total nonce p aad : blen nonce = 12 -> is_panic (encrypt c nonce p aad) = false;
  cipher_decrypt_safe ct aad : safe (decrypt c ct aad) (fun p => blen p <= blen ct);
  cipher_overhead : 0 <= overhead c }.

(** What the AEAD crates document: opening what was sealed under the same nonce
    and associated data gives the message back, and the tag is 16 bytes. *)
Class AeadOk (a : AeadPrimitive) : Prop := {
  aead_open nonce m aad c :
    aead_encrypt a nonce m aad = Some c -> aead_decrypt a nonce c aad = Some m;
  aead_tag nonce m aad c : aead_encrypt a nonce m aad = Some c -> blen c = blen m + 16;
  aead_shrinks nonce m aad c : aead_decrypt a nonce c aad = Some m -> blen m <= blen c }.

Lemma nonce_framed {a} `{AeadOk a} nonce p aad ct :
  blen nonce = 12 -> aes_encrypt a nonce p aad = Ok ct ->
  aes_decrypt a ct aad = Ok p /\ blen ct = blen p + 28.
Proof.
  intros Hn. unfold aes_encrypt, aes_decrypt, AES_NONCE_SIZE, AES_TAG_SIZE.
  destruct (aead_encrypt a nonce p aad) as [c|] eqn:E; simpl; [|done]. intros [= <-].
  pose proof (aead_tag _ _ _ _ E). pose proof (blen_nonneg p). rewrite blen_app.
  rewrite (proj2 (Z.ltb_ge _ _)) by lia. rewrite slice_prefix by done.
  rewrite slice_from_app by done. simpl. rewrite (aead_open _ _ _ _ E). split; [done|lia].
Qed.

#[global] Instance Aes256GcmCipher_ok a : AeadOk a -> CipherOk (Aes256GcmCipher a).
Proof.
  intros Ha. split.
  - apply nonce_framed.
  - intros nonce p aad _. cbn. unfold aes_encrypt. by destruct (aead_encrypt _ _ _ _).
  - intros ct aad. cbn. unfold aes_decrypt, AES_NONCE_SIZE, AES_TAG_SIZE.
    case_goal; [done|]. bool_to_prop.
    destruct (slice_ok ct 0 12) as (n & -> & _); [lia..|].
    destruct (slice_from_ok ct 12) as (c & -> & ?); [lia..|]. simpl.
    destruct (aead_decrypt a n c aad) as [m|] eqn:E; simpl; [|done].
    apply aead_shrinks in E. lia.
  - done.
Qed.

(** The two implementations differ only in the primitive. *)
#[global] Instance ChaCha20Poly1305Cipher_ok a : AeadOk a -> CipherOk (ChaCha20Poly1305Cipher a).
Proof. apply Aes256GcmCipher_ok. Qed.
End CipherLaws.

Section CryptProperties.
Import Crypt.

Lemma encrypt_payload_ok c (Hc : CipherOk c) nonce serialized e :
  blen nonce = 12 -> encrypt_wal_payload serialized c nonce = Ok e ->
  decrypt_wal_payload e c = Ok serialized /\ blen e = blen serialized + overhead c /\
  25 <= blen serialized /\ slice e 0 25 = slice serialized 0 25.
Proof.
  intros Hn. unfold encrypt_wal_payload, WAL_HEADER_SIZE. case_goal; [done|]. bool_to_prop.
  assert (exists h p, serialized = h ++ p /\ blen h = 25) as (h & p & -> & Hh).
  { exists (take 25 serialized), (drop 25 serialized). rewrite take_drop. split; [done|].
    unfold blen in *. rewrite length_take. lia. }
  rewrite slice_prefix, slice_from_app by done. simpl.
  destruct (encrypt c nonce p h) as [ct|e'|] eqn:E; simpl; try done. intros [= <-].
  destruct (cipher_roundtrip nonce p h ct Hn E) as [Hd Hl]. pose proof cipher_overhead.
  rewrite !blen_app. unfold decrypt_wal_payload, WAL_HEADER_SIZE. rewrite blen_app.
  pose proof (blen_nonneg p). rewrite (proj2 (Z.ltb_ge _ _)) by lia.
  rewrite !slice_prefix, slice_from_app by done. simpl. rewrite Hd. simpl. split_and!; [done|lia..|done].
Qed.

Lemma decrypt_payload_safe c (Hc : CipherOk c) e :
  safe (decrypt_wal_payload e c) (fun s => blen s <= blen e).
Proof.
  unfold decrypt_wal_payload, WAL_HEADER_SIZE. pose proof cipher_overhead.
  case_goal; [done|]. bool_to_prop.
  destruct (slice_ok e 0 25) as (h & -> & ?); [lia..|].
  destruct (slice_from_ok e 25) as (p & -> & ?); [lia..|]. simpl.
  eapply safe_bind; [apply cipher_decrypt_safe|]. intros m _ ?. simpl in *. rewrite blen_app. lia.
Qed.
(** *** The keyring *)
Definition versions (gs : list WalKeyGeneration) : list Z := key_version <$> gs.
Definition keyring_wf (k : WalKeyring) : Prop :=
  NoDup (versions (generations k)) /\ current_version k ∈ versions (generations k).

Lemma find_generation_some v gs g :
  find_generation v gs = Some g -> g ∈ gs /\ key_version g = v.
Proof.
  unfold find_generation. destruct (list_find _ gs) as [[i g']|] eqn:E; simpl; [|done].
  intros [= <-]. apply list_find_Some in E as (Hl & Hv & _). split; [|done].
  by eapply list_elem_of_lookup_2.
Qed.

Lemma find_generation_app v gs g :
  find_generation v (gs ++ [g]) =
  match find_generation v gs with
  | Some g' => Some g'
  | None => if decide (key_version g = v) then Some g else None
  end.
Proof.
  induction gs as [|g' gs IH]; unfold find_generation in *; simpl; [by case_decide|].
  destruct (decide (key_version g' = v)); [done|].
  destruct (list_find _ (gs ++ [g])) as [[? ?]|], (list_find _ gs) as [[? ?]|]; simpl in *; exact IH.
Qed.

Lemma find_generation_none v gs : v ∉ versions gs -> find_generation v gs = None.
Proof.
  intros Hv. destruct (find_generation v gs) as [g|] eqn:E; [|done].
  apply find_generation_some in E as [Hg <-]. destruct Hv. by apply list_elem_of_fmap_2.
Qed.

Lemma find_generation_is_some v gs : v ∈ versions gs -> is_Some (find_generation v gs).
Proof.
  intros (g & -> & Hg)%list_elem_of_fmap. unfold find_generation.
  destruct (list_find_elem_of (fun g' => key_version g' = key_version g) gs g Hg eq_refl) as [[i g'] ->].
  eauto.
Qed.

Lemma filter_fresh gs v :
  v ∉ versions gs -> filter (fun g => key_version g ≠ v) gs = gs.
Proof.
  induction gs as [|g gs IH]; [done|]. unfold versions. rewrite fmap_cons, not_elem_of_cons.
  intros [? ?]. rewrite filter_cons, decide_True by congruence. by rewrite IH.
Qed.

Lemma min_generation_in gs g : min_generation gs = Some g -> g ∈ gs.
Proof.
  unfold min_generation. revert g. induction gs as [|x gs IH] using rev_ind; intros g; [done|].
  rewrite foldl_snoc. destruct (foldl _ None gs) as [m|] eqn:E.
  - case_goal; intros [= <-]; apply elem_of_app; [right; by left|left]. by apply IH.
  - intros [= <-]. apply elem_of_app. right. by left.
Qed.

Lemma min_generation_newer gs v c :
  gs ≠ [] -> Forall (fun w => w < v) (versions gs) ->
  min_generation (gs ++ [mkGen v c]) = min_generation gs.
Proof.
  intros Hne Hall. unfold min_generation at 1. rewrite foldl_snoc. fold (min_generation gs).
  destruct (min_generation gs) as [m|] eqn:E.
  - apply min_generation_in in E. rewrite Forall_forall in Hall.
    specialize (Hall (key_version m) ltac:(by apply list_elem_of_fmap_2)). simpl.
    by rewrite (proj2 (Z.ltb_ge _ _)) by lia.
  - destruct gs as [|x gs _] using rev_ind; [done|]. unfold min_generation in E.
    rewrite foldl_snoc in E. destruct (foldl _ None gs); [|done]. by case_hyp E.
Qed.

(** Key rotation: advancing a keyring to a newer generation makes the new
    cipher the current one and the one of segments stamped with its version,
    leaves the cipher of every older stamped generation as it was, and still
    resolves segments that carry no key version to the oldest generation. *)
Theorem keyring_rotation k kv c :
  keyring_wf k -> Forall (fun w => w < kv) (versions (generations k)) ->
  let k' := add_generation k kv c in
  keyring_wf k' /\ current k' = Some (c, kv) /\ cipher_for_segment k' (Some kv) = Some c /\
  (forall v, v ∈ versions (generations k) ->
     cipher_for_segment k' (Some v) = gen_cipher <$> find_generation v (generations k) /\
     is_Some (cipher_for_segment k' (Some v))) /\
  cipher_for_segment k' None = gen_cipher <$> min_generation (generations k).
Proof.
  intros [Hnd Hcur] Hall.
  assert (kv ∉ versions (generations k)) as Hfresh.
  { intros Hin. rewrite Forall_forall in Hall. specialize (Hall kv Hin). simpl in Hall. lia. }
  unfold add_generation, current, cipher_for_segment. rewrite filter_fresh by done. simpl.
  assert (find_generation kv (generations k ++ [mkGen kv c]) = Some (mkGen kv c)) as Hnew.
  { rewrite find_generation_app, find_generation_none by done. by rewrite decide_True. }
  rewrite Hnew. split_and!; [| | | |].
  - split; unfold versions in *; simpl; rewrite fmap_app; simpl.
    + apply NoDup_app. split_and!; [done| |apply NoDup_singleton].
      intros x Hx ->%list_elem_of_singleton. done.
    + apply elem_of_app. right. by apply list_elem_of_singleton.
  - done.
  - done.
  - intros v Hv. rewrite find_generation_app.
    destruct (find_generation_is_some v (generations k) Hv) as [g ->]. simpl. eauto.
  - rewrite min_generation_newer; [done| |done]. intros E. rewrite E in Hcur. by apply not_elem_of_nil in Hcur.
Qed.

(** The payload of a log entry survives encryption: whatever nonce is drawn,
    the encrypted entry keeps the 25-byte plain header, is exactly the cipher's
    overhead longer, and decrypts to the entry that was serialized; entries
    shorter than their header are refused. *)
Theorem wal_payload_roundtrip c (Hc : CipherOk c) nonce serialized :
  blen nonce = 12 ->
  match encrypt_wal_payload serialized c nonce with
  | Ok e => decrypt_wal_payload e c = Ok serialized /\ blen e = blen serialized + overhead c /\
            25 <= blen serialized /\ slice e 0 25 = slice serialized 0 25
  | Err e => blen serialized < 25 /\ e = InvalidWalEntry 25 (blen serialized) \/
             exists nonce p aad, encrypt c nonce p aad = Err e
  | Panic => False
  end.
Proof.
  intros Hn. destruct (encrypt_wal_payload serialized c nonce) as [e|e|] eqn:E.
  - by eapply encrypt_payload_ok.
  - unfold encrypt_wal_payload, WAL_HEADER_SIZE in E. case_hyp E; bool_to_prop; simplify_eq; [by left|].
    destruct (slice_ok serialized 0 25) as (h & Hh & _); [lia..|].
    destruct (slice_from_ok serialized 25) as (p & Hp & _); [lia..|]. rewrite Hh, Hp in E. simpl in E.
    right. exists nonce, p, h. by destruct (encrypt c nonce p h); simplify_eq/=.
  - unfold encrypt_wal_payload, WAL_HEADER_SIZE in E. case_hyp E; bool_to_prop; simplify_eq.
    destruct (slice_ok serialized 0 25) as (h & Hh & _); [lia..|].
    destruct (slice_from_ok serialized 25) as (p & Hp & _); [lia..|]. rewrite Hh, Hp in E. simpl in E.
    pose proof (cipher_total nonce p h Hn). by destruct (encrypt c nonce p h).
Qed.
End CryptProperties.

(** ** Concrete instances *)
Module CryptWitness.
Import Crypt.

(** A primitive with the AEAD laws: the tag is the key byte sixteen times. *)
Definition tag (k : byte) : bytes := replicate 16 k.
Definition toy (k : byte) : AeadPrimitive :=
  mkAead (fun _ m _ => Some (m ++ tag k))
         (fun _ c _ => let n := (length c - 16)%nat in
            if decide (drop n c = tag k) then Some (take n c) else None).
Definition nonce0 : bytes := replicate 12 (bof 7).

Lemma toy_open k m : (length (m ++ tag k) - 16)%nat = length m.
Proof. rewrite length_app. change (length (tag k)) with 16%nat. lia. Qed.

Lemma toy_ok k : AeadOk (toy k).
Proof.
  split; unfold toy; simpl.
  - intros _ m _ c [= <-]. by rewrite toy_open, drop_app_length, take_app_length, decide_True.
  - intros _ m _ c [= <-]. rewrite blen_app. done.
  - intros _ m _ c E. case_decide; simplify_eq. unfold blen. rewrite length_take. lia.
Qed.

Lemma toy_wrong_key k1 k2 nonce p aad ct :
  k1 <> k2 -> blen nonce = 12 -> aes_encrypt (toy k2) nonce p aad = Ok ct ->
  exists e, aes_decrypt (toy k1) ct aad = Err e.
Proof.
  intros Hk Hn. unfold aes_encrypt, aes_decrypt, AES_NONCE_SIZE, AES_TAG_SIZE. simpl. intros [= <-].
  case_goal; [by eexists|]. rewrite slice_prefix, slice_from_app by done. simpl.
  rewrite toy_open, drop_app_length, decide_False; [by eexists|]. unfold tag. simpl. congruence.
Qed.

Definition aes : Cipher := Aes256GcmCipher (toy (bof 1)).
Definition aes_ok : CipherOk aes := Aes256GcmCipher_ok _ (toy_ok (bof 1)).
Definition chacha : Cipher := ChaCha20Poly1305Cipher (toy (bof 2)).
Definition chacha_ok : CipherOk chacha := ChaCha20Poly1305Cipher_ok _ (toy_ok (bof 2)).
Definition entry0 : bytes := replicate 30 (bof 3).

Lemma wal_payload_roundtrip_witness :
  exists e, encrypt_wal_payload entry0 aes nonce0 = Ok e /\ decrypt_wal_payload e aes = Ok entry0.
Proof.
  pose proof (wal_payload_roundtrip aes aes_ok nonce0 entry0 eq_refl) as Hr.
  destruct (encrypt_wal_payload entry0 aes nonce0) as [e|e|] eqn:E.
  - exists e. split; [done|]. apply Hr.
  - vm_compute in E. discriminate E.
  - destruct Hr.
Defined.

Lemma keyring_rotation_witness :
  let k := add_generation (single aes) 2 chacha in
  current k = Some (chacha, 2) /\ cipher_for_segment k (Some 1) = Some aes /\
  cipher_for_segment k None = Some aes.
Proof.
  assert (keyring_wf (single aes)) as W.
  { split; [apply NoDup_singleton|]. apply list_elem_of_singleton. reflexivity. }
  assert (Forall (fun w => w < 2) (versions (generations (single aes)))) as Hall
    by (repeat constructor).
  pose proof (keyring_rotation (single aes) 2 chacha W Hall)
    as (_ & Hc & _ & Hv & Hn).
  split; [exact Hc|]. split; [|exact Hn].
  apply (Hv 1). apply list_elem_of_singleton. reflexivity.
Defined.
End CryptWitness.
