(* ===== verification/WalSegment.v ===== *)
(** * Segments and the log directory: [src/storage/wal/segment_reader.rs]

    Reading a whole segment file (header, plaintext or encrypted body), a
    directory of segments, and the LSN scan that seeds a restarted log; from
    [src/storage/wal/flush_coordinator.rs] the header and the frames a new
    segment is written with. *)

From S2P Require Import Prelude.
From S2P Require Import Bytes.
From S2P Require Import Errors.
From S2P Require Import Hlc.
From S2P Require Import Ids.
From S2P Require Import Interning.
From S2P Require Import Vectors.
From S2P Require Import Wal.
From S2P Require Import WalRead.
From S2P Require Import WalFields.
From S2P Require Import WalReplay.
From S2P Require Import WalCrypt.

Module Segment.
Import Crypt Wal WalRead.

Definition WAL_MAGIC : bytes := [bof 71; bof 87; bof 65; bof 76].
Definition MAX_SEGMENT_SIZE : Z := 1024 * 1024 * 1024.

Inductive WalCipherSource :=
  | SourceNone
  | SourceSingle (c : Cipher)
  | SourceKeyring (k : WalKeyring).

Definition is_present (s : WalCipherSource) : bool :=
  match s with SourceNone => false | _ => true end.

Definition resolve (s : WalCipherSource) (key_version : option Z) : option Cipher :=
  match s with
  | SourceNone => None
  | SourceSingle c => Some c
  | SourceKeyring k => cipher_for_segment k key_version
  end.

(** [Option<LSN>::max] *)
Definition max_opt (a b : option LSN) : option LSN :=
  match a, b with
  | Some x, Some y => Some (Z.max x y)
  | Some x, None => Some x
  | None, b => b
  end.

Section Read.
Context {St : Type} `{Interner St}.
Variable crc32 : bytes -> Z.

(** ** Encrypted bodies *)

(** [encrypted_valid_frame_follows]; [None] is out of fuel or a panic. *)
Fixpoint encrypted_valid_frame_follows (fuel : nat) (buffer : bytes) (offset : Z) (cipher : Cipher)
    (entry_version : Z) (st : St) : St * option bool :=
  match fuel with
  | O => (st, None)
  | S fuel =>
      if negb (offset <? blen buffer) then (st, Some false)
      else if blen buffer <? offset + 4 then (st, Some false)
      else
        match slice buffer offset (offset + 4) with
        | None => (st, None)
        | Some len_bytes =>
            let entry_len := from_le len_bytes in
            if entry_len =? 0 then (st, Some false)
            else
              let offset := offset + 4 in
              if blen buffer <? offset + entry_len then (st, Some false)
              else
                match slice buffer offset (offset + entry_len) with
                | None => (st, None)
                | Some frame =>
                    let offset := offset + entry_len in
                    match decrypt_wal_payload frame cipher with
                    | Ok decrypted =>
                        let '(st, r) := parse_entry_at crc32 decrypted 0 entry_version st in
                        match r with
                        | Ok _ => (st, Some true)
                        | Err _ => encrypted_valid_frame_follows fuel buffer offset cipher entry_version st
                        | Panic => (st, None)
                        end
                    | Err _ => encrypted_valid_frame_follows fuel buffer offset cipher entry_version st
                    | Panic => (st, None)
                    end
                end
        end
  end.

(** What a failed frame does to the loop. *)
Definition torn_frame (buffer : bytes) (frame_start offset : Z) (cipher : Cipher) (entry_version : Z)
    (tolerate_torn_tail : bool) (entries : list WalEntry) (st : St) (e : Error)
    : option (Z * list WalEntry * St * option Error) :=
  if tolerate_torn_tail then
    let '(st, follows) :=
      encrypted_valid_frame_follows (S (length buffer)) buffer offset cipher entry_version st in
    match follows with
    | None => None
    | Some f => if negb f then Some (offset, entries, st, None) else Some (offset, entries, st, Some e)
    end
  else Some (offset, entries, st, Some e).

Fixpoint parse_encrypted_loop (fuel : nat) (buffer : bytes) (offset : Z) (start_lsn : LSN)
    (cipher : Cipher) (entries : list WalEntry) (container_version : Z) (tolerate_torn_tail : bool)
    (st : St) : option (Z * list WalEntry * St * option Error) :=
  match fuel with
  | O => None
  | S fuel =>
      let entry_version := payload_version container_version in
      if negb (offset <? blen buffer) then Some (offset, entries, st, None)
      else
        let frame_start := offset in
        if blen buffer <? offset + 4 then
          match slice_from buffer offset with
          | None => None
          | Some remainder =>
              if all_zero remainder then Some (offset, entries, st, None)
              else if tolerate_torn_tail then Some (offset, entries, st, None)
              else Some (offset, entries, st, Some corrupted)
          end
        else
          match slice buffer offset (offset + 4) with
          | None => None
          | Some len_bytes =>
              let entry_len := from_le len_bytes in
              if entry_len =? 0 then Some (offset, entries, st, None)
              else
                let offset := offset + 4 in
                if blen buffer <? offset + entry_len then
                  if tolerate_torn_tail then Some (offset, entries, st, None)
                  else Some (offset, entries, st, Some corrupted)
                else
                  match slice buffer offset (offset + entry_len) with
                  | None => None
                  | Some encrypted_entry =>
                      let offset := offset + entry_len in
                      match decrypt_wal_payload encrypted_entry cipher with
                      | Panic => None
                      | Err _ => torn_frame buffer frame_start offset cipher entry_version
                                   tolerate_torn_tail entries st (EStorage Encryption)
                      | Ok decrypted =>
                          let '(st, r) := parse_entry_at crc32 decrypted 0 entry_version st in
                          match r with
                          | Panic => None
                          | Ok (entry, _) =>
                              let entries := if start_lsn <=? Wal.lsn entry
                                             then entries ++ [entry] else entries in
                              parse_encrypted_loop fuel buffer offset start_lsn cipher entries
                                container_version tolerate_torn_tail st
                          | Err e => torn_frame buffer frame_start offset cipher entry_version
                                       tolerate_torn_tail entries st e
                          end
                      end
                  end
          end
  end.

Definition parse_encrypted_entries (buffer : bytes) (offset : Z) (start_lsn : LSN) (cipher : Cipher)
    (entries : list WalEntry) (container_version : Z) (tolerate_torn_tail : bool) (st : St) :=
  parse_encrypted_loop (S (length buffer)) buffer offset start_lsn cipher entries container_version
    tolerate_torn_tail st.

(** ** One segment file *)

(** [buffer.len() >= WAL_HEADER_SIZE && buffer[0..4] == WAL_MAGIC] *)
Definition has_magic (buffer : bytes) : bool :=
  (WAL_HEADER_SIZE <=? blen buffer) && bool_decide (slice buffer 0 4 = Some WAL_MAGIC).

(** The entries and the raw-label flag, with the interner; [None] is out of
    fuel or a panic. *)
Definition finish (raw_labels : bool) (r : option (Z * list WalEntry * St * option Error))
    : option (St * res Error (list WalEntry * bool)) :=
  match r with
  | None => None
  | Some (_, _, st, Some e) => Some (st, Err e)
  | Some (_, entries, st, None) => Some (st, Ok (entries, raw_labels))
  end.

(** [read_segment_with_cipher_tolerant_flagged] on the content of the file;
    [None] is a file that does not exist. *)
Definition read_segment (file : option bytes) (start_lsn : LSN) (source : WalCipherSource)
    (tolerate_torn_tail : bool) (st : St) : option (St * res Error (list WalEntry * bool)) :=
  match file with
  | None => Some (st, Ok ([], false))
  | Some buffer =>
      if MAX_SEGMENT_SIZE <? blen buffer then Some (st, Err corrupted)
      else if blen buffer =? 0 then Some (st, Ok ([], false))
      else if negb (has_magic buffer) then Some (st, Err corrupted)
      else
        match read_u8 (E := Error) buffer 4 with
        | Panic | Err _ => None
        | Ok ver =>
            if negb (is_supported_segment_version ver) then Some (st, Err corrupted)
            else
              match decode_header_layout ver buffer with
              | Panic => None
              | Err e => if tolerate_torn_tail then Some (st, Ok ([], false)) else Some (st, Err e)
              | Ok (offset, key_version) =>
                  let raw_labels := negb (carries_string_labels (payload_version ver)) in
                  if is_encrypted_version ver then
                    match resolve source key_version with
                    | None => Some (st, Err (EStorage Encryption))
                    | Some cipher =>
                        finish raw_labels
                          (parse_encrypted_entries buffer offset start_lsn cipher [] ver
                             tolerate_torn_tail st)
                    end
                  else
                    finish raw_labels
                      (parse_plaintext_entries crc32 buffer offset ver start_lsn []
                         tolerate_torn_tail st)
              end
        end
  end.

(** ** The directory *)

(** [sorted_segment_paths]: the numbered [.log] files with their contents, by id. *)
Definition sorted_segment_paths (dir : list (Z * option bytes)) : list (Z * option bytes) :=
  sort_by_key fst dir.

(** The loop over the segments; only the last one tolerates a torn tail. *)
Fixpoint read_segments (segments : list (Z * option bytes)) (start_lsn : LSN)
    (source : WalCipherSource) (tolerate_torn_tail : bool) (entries : list WalEntry)
    (any_raw_labels : bool) (st : St) : option (St * res Error (list WalEntry * bool)) :=
  match segments with
  | [] => Some (st, Ok (entries, any_raw_labels))
  | (_, path) :: rest =>
      let is_last := match rest with [] => true | _ => false end in
      match read_segment path start_lsn source (tolerate_torn_tail && is_last) st with
      | None => None
      | Some (st, Ok (es, raw)) =>
          read_segments rest start_lsn source tolerate_torn_tail (entries ++ es)
            (any_raw_labels || raw) st
      | Some (st, Err e) => Some (st, Err e)
      | Some (_, Panic) => None
      end
  end.

Definition read_entries_from_dir (dir : list (Z * option bytes)) (start_lsn : LSN)
    (source : WalCipherSource) (tolerate_torn_tail : bool) (st : St)
    : option (St * res Error (list WalEntry * bool)) :=
  match read_segments (sorted_segment_paths dir) start_lsn source tolerate_torn_tail [] false st with
  | Some (st, Ok (entries, raw)) => Some (st, Ok (sort_by_key Wal.lsn entries, raw))
  | r => r
  end.

(** ** The LSN scan *)
Fixpoint scan_plaintext_max_lsn (fuel : nat) (buffer : bytes) (offset version : Z)
    (max : option LSN) (st : St) : option (St * option LSN) :=
  match fuel with
  | O => None
  | S fuel =>
      if negb (offset <? blen buffer) then Some (st, max)
      else
        let '(st, r) := parse_entry_at crc32 buffer offset version st in
        match r with
        | Ok (entry, bytes_consumed) =>
            scan_plaintext_max_lsn fuel buffer (offset + bytes_consumed) version
              (max_opt max (Some (Wal.lsn entry))) st
        | Err _ => Some (st, max)
        | Panic => None
        end
  end.

Fixpoint scan_encrypted_max_lsn (fuel : nat) (buffer : bytes) (offset : Z) (cipher : Cipher)
    (container_version : Z) (max : option LSN) (st : St) : option (St * option LSN) :=
  match fuel with
  | O => None
  | S fuel =>
      let entry_version := payload_version container_version in
      if negb (offset <? blen buffer) then Some (st, max)
      else if blen buffer <? offset + 4 then Some (st, max)
      else
        match slice buffer offset (offset + 4) with
        | None => None
        | Some len_bytes =>
            let entry_len := from_le len_bytes in
            if entry_len =? 0 then Some (st, max)
            else
              let offset := offset + 4 in
              if blen buffer <? offset + entry_len then Some (st, max)
              else
                match slice buffer offset (offset + entry_len) with
                | None => None
                | Some encrypted_entry =>
                    let offset := offset + entry_len in
                    match decrypt_wal_payload encrypted_entry cipher with
                    | Panic => None
                    | Err _ => Some (st, max)
                    | Ok decrypted =>
                        let '(st, r) := parse_entry_at crc32 decrypted 0 entry_version st in
                        match r with
                        | Ok (entry, _) =>
                            scan_encrypted_max_lsn fuel buffer offset cipher container_version
                              (max_opt max (Some (Wal.lsn entry))) st
                        | Err _ => Some (st, max)
                        | Panic => None
                        end
                    end
                end
        end
  end.

(** [max_lsn_in_segment]; only a single cipher can be configured here. *)
Definition max_lsn_in_segment (file : option bytes) (cipher : option Cipher) (st : St)
    : option (St * option LSN) :=
  match file with
  | None => Some (st, None)
  | Some buffer =>
      if blen buffer =? 0 then Some (st, None)
      else if MAX_SEGMENT_SIZE <? blen buffer then Some (st, None)
      else if negb (has_magic buffer) then Some (st, None)
      else
        match read_u8 (E := Error) buffer 4 with
        | Panic | Err _ => None
        | Ok ver =>
            if negb (is_supported_segment_version ver) then Some (st, None)
            else
              match decode_header_layout ver buffer with
              | Panic => None
              | Err _ => Some (st, None)
              | Ok (offset, _) =>
                  if is_encrypted_version ver then
                    match cipher with
                    | None => Some (st, None)
                    | Some c => scan_encrypted_max_lsn (S (length buffer)) buffer offset c ver None st
                    end
                  else scan_plaintext_max_lsn (S (length buffer)) buffer offset ver None st
              end
        end
  end.

Fixpoint max_lsn_in_segments (segments : list (Z * option bytes)) (cipher : option Cipher)
    (max : option LSN) (st : St) : option (St * option LSN) :=
  match segments with
  | [] => Some (st, max)
  | (_, path) :: rest =>
      match max_lsn_in_segment path cipher st with
      | None => None
      | Some (st, m) => max_lsn_in_segments rest cipher (max_opt max m) st
      end
  end.
Definition max_lsn_in_dir (dir : list (Z * option bytes)) (cipher : option Cipher) (st : St) :=
  max_lsn_in_segments (sorted_segment_paths dir) cipher None st.
End Read.

(** ** What the flush coordinator writes *)

(** [current_write_format] *)
Definition current_write_format (wal_keyring : option WalKeyring) : Z * option Z :=
  match wal_keyring with
  | Some keyring => (WAL_VERSION_ENCRYPTED_KEYVERSIONED, Some (current_version keyring))
  | None => (WAL_VERSION_STRING_LABELS, None)
  end.

(** The header [ensure_segment_open] writes to an empty file. *)
Definition segment_header (wal_keyring : option WalKeyring) : bytes :=
  let '(write_version, write_key_version) := current_write_format wal_keyring in
  WAL_MAGIC ++ [bof write_version] ++ from_option (to_le 4) [] write_key_version.

(** One entry of the batch in [flush], under the batch's cipher. *)
Definition flush_entry (batch_cipher : option Cipher) (nonce data : bytes) : res Error bytes :=
  match batch_cipher with
  | Some cipher =>
      encrypted ← map_err (fun _ => EStorage Encryption) (encrypt_wal_payload data cipher nonce);
      Ok (to_le 4 (blen encrypted mod 2 ^ 32) ++ encrypted)
  | None => Ok data
  end.

(** The bytes a batch appends to the segment; each entry has its own nonce. *)
Definition flush_batch (wal_keyring : option WalKeyring) (batch : list (bytes * bytes))
    (segment : bytes) : res Error bytes :=
  let batch_cipher := wal_keyring ≫= fun k => fst <$> current k in
  foldl (fun b '(nonce, data) => b ← b; x ← flush_entry batch_cipher nonce data; Ok (b ++ x))
    (Ok segment) batch.
End Segment.
