(* ===== verification/WalRecovery.v ===== *)
(** * Recovery of the log

    Re-reading with the interner a first read left, termination and
    panic-freedom of the segment reader, recovery of what the flush coordinator
    wrote, torn tails across segments, and the LSN scan against the replay. *)

From S2P Require Import Prelude.
From S2P Require Import Bytes.
From S2P Require Import Errors.
From S2P Require Import Hlc.
From S2P Require Import Ids.
From S2P Require Import Interning.
From S2P Require Import Vectors.
From S2P Require Import Property.
From S2P Require Import PropMap.
From S2P Require Import Provenance.
From S2P Require Import Wal.
From S2P Require Import WalRead.
From S2P Require Import WalFields.
From S2P Require Import WalReplay.
From S2P Require Import WalCrypt.
From S2P Require Import WalSegment.

(** ** Reading twice

    What was parsed once is parsed again, to the same value, from any interner
    that still knows the strings the first parse left. *)
Section Reread.
Import Prov Wal WalRead.
Context {St : Type} `{Interner St}.

Definition above (s S : St) : Prop :=
  i_wf S /\ forall id x, i_resolve s id = Some x -> i_resolve S id = Some x.

Lemma above_refl s : i_wf s -> above s s.
Proof. by split. Qed.
Lemma above_trans a b c : above a b -> above b c -> above a c.
Proof. intros [_ H1] [Wc H2]. split; [done|auto]. Qed.
Lemma above_extends a b : i_wf a -> extends a b -> above a b.
Proof. intros W He. destruct (He W). by split. Qed.

(** [T] is the state of the computation, [st] its interner and [up] its change. *)
Section Store.
Context {T : Type} (st : T -> St) (up : T -> St -> T).

Definition again {A} (p : SM T Error A) : Prop :=
  forall t t1 a, i_wf (st t) -> p t = (t1, Ok a) ->
    above (st t) (st t1) /\ forall S, above (st t1) S -> p (up t S) = (up t1 S, Ok a).

Lemma again_bind {A B} (p : SM T Error A) (f : A -> SM T Error B) :
  again p -> (forall a, again (f a)) -> again (p ≫= f).
Proof.
  intros Hp Hf t t2 b W E. unfold mbind, sm_bind in E.
  destruct (p t) as [t1 [a|e|]] eqn:Ep; try done.
  destruct (Hp _ _ _ W Ep) as [Ha1 Hr1]. destruct (Hf a _ _ _ (proj1 Ha1) E) as [Ha2 Hr2].
  split; [by eapply above_trans|]. intros S HS.
  rewrite (sm_bind_ok p f _ (up t1 S) a); [by apply Hr2|]. apply Hr1. by eapply above_trans.
Qed.

(** A computation that ignores and keeps the interner. *)
Lemma again_pure {A} (p : SM T Error A) :
  (forall t t1 a, p t = (t1, Ok a) -> st t1 = st t /\ forall S, p (up t S) = (up t1 S, Ok a)) -> again p.
Proof.
  intros Hp t t1 a W E. destruct (Hp _ _ _ E) as [Es Hr]. rewrite Es. split; [by apply above_refl|auto].
Qed.

Lemma again_ret {A} (a : A) : again (mret a).
Proof. apply again_pure. intros t t1 b [= <- <-]. done. Qed.
Lemma again_lift {A} (r : res Error A) : again (lift r).
Proof. apply again_pure. intros t t1 b [= <- ->]. done. Qed.
End Store.

(** *** Property maps *)
Abbreviation again_st := (again (fun s : St => s) (fun _ S => S)).

Lemma again_intern x : again_st (fun s => i_intern s x : St * res Error Z).
Proof.
  intros s s1 id W E. destruct (i_intern_ok _ _ _ _ W E) as [Hr _].
  split; [split; [by eapply i_intern_wf|by intros; eapply i_intern_stable]|].
  intros S [WS HS]. by apply i_intern_known, HS.
Qed.

Ltac again_map_step :=
  lazymatch goal with
  | |- again _ _ (mret _) => apply again_ret
  | |- again _ _ (lift _) => apply again_lift
  | |- again _ _ (if ?b then _ else _) => destruct b
  | |- again _ _ (match ?x with _ => _ end) => destruct x
  | |- again _ _ (_ ≫= _) => apply again_bind; [|intros ?]
  | |- again _ _ (fun s => i_intern s _) => apply again_intern
  end.

Lemma again_entries n b m off calc : again_st (PropMap.deserialize_entries n b m off calc).
Proof.
  revert m off calc. induction n as [|n IH]; intros m off calc; cbn [PropMap.deserialize_entries];
    repeat again_map_step. apply IH.
Qed.

Lemma again_map b : again_st (PropMap.deserialize b).
Proof. unfold PropMap.deserialize. repeat again_map_step. apply again_entries. Qed.

(** *** The entry parser *)
Abbreviation again_p := (again (fun t : Z * St => t.2) (fun t S => (t.1, S))).

Lemma again_here {A} (f : Z -> res Error A) : again_p (here f).
Proof.
  apply again_pure. intros [o s] t1 a E. unfold here in *. simpl in *.
  injection E as <- E. simpl. by rewrite E.
Qed.
Lemma again_cur : again_p (cur (St := St)).
Proof. apply again_pure. intros [o s] t1 a E. unfold cur in *. by simplify_eq/=. Qed.
Lemma again_advance n : again_p (advance (St := St) n).
Proof.
  apply again_pure. intros [o s] t1 a E. unfold advance in *. simpl in *.
  destruct (usize_checked_add o n); by simplify_eq/=.
Qed.
Lemma again_intern_str x : again_p (intern_str (St := St) x).
Proof.
  intros [o s] [o1 s1] id W E. unfold intern_str in *. simpl in *.
  destruct (i_intern s x) as [s2 r] eqn:Ei. simplify_eq.
  destruct (again_intern x s s1 id W Ei) as [Ha Hr]. split; [done|].
  intros S HS. by rewrite (Hr S HS).
Qed.
Variable buffer : bytes.

Lemma again_read_props : again_p (read_props (St := St) buffer).
Proof.
  unfold read_props. apply again_bind.
  - intros [o s] [o1 s1] a W E. cbn [fst snd] in *. destruct (rest_at buffer o) as [r|e|]; try done.
    destruct (PropMap.deserialize r s) as [s2 q] eqn:Ed. simplify_eq.
    destruct (again_map r s s1 a W Ed) as [Ha Hr]. split; [done|]. intros S HS. by rewrite (Hr S HS).
  - intros [m n]. apply again_bind; [apply again_advance|intros ?; apply again_ret].
Qed.

Ltac again_step :=
  lazymatch goal with
  | |- again _ _ (mret _) => apply again_ret
  | |- again _ _ (lift _) => apply again_lift
  | |- again _ _ (here _) => apply again_here
  | |- again _ _ cur => apply again_cur
  | |- again _ _ (advance _) => apply again_advance
  | |- again _ _ (require_bytes _ _) => apply again_here
  | |- again _ _ (intern_str _) => apply again_intern_str
  | |- again _ _ (read_props _) => apply again_read_props
  | |- again _ _ (if ?b then _ else _) => destruct b
  | |- again _ _ (match ?x with _ => _ end) => destruct x
  | |- again _ _ (_ ≫= _) => apply again_bind; [|intros ?]
  end.
Ltac again_solve := repeat again_step.

Lemma again_opt_string : again_p (read_opt_string (St := St) buffer).
Proof. unfold read_opt_string. again_solve. Qed.
Lemma again_provenance v : again_p (read_provenance (St := St) buffer v).
Proof.
  unfold read_provenance, read_opt_f64. again_solve; apply again_opt_string.
Qed.
Lemma again_label v : again_p (read_label (St := St) buffer v).
Proof. unfold read_label. again_solve. Qed.
Lemma again_props_ts v ts : again_p (read_props_and_valid_from (St := St) buffer v ts).
Proof. unfold read_props_and_valid_from, read_ts. again_solve. Qed.
Lemma again_update v ts : again_p (read_update_payload (St := St) buffer v ts).
Proof. unfold read_update_payload. again_solve; [apply again_label|apply again_props_ts]. Qed.
Lemma again_tomb v : again_p (parse_opt_tombstone_version_id (St := St) buffer v).
Proof. unfold parse_opt_tombstone_version_id. again_solve. Qed.

Lemma again_operation t v ts : again_p (parse_operation (St := St) buffer t v ts).
Proof.
  unfold parse_operation, parse_create_node_op, parse_create_edge_op, parse_update_node_op,
    parse_update_edge_op, parse_delete_node_op, parse_delete_edge_op, parse_retract_node_op,
    parse_retract_edge_op, parse_checkpoint_op, parse_begin_tx_op, parse_commit_tx_op,
    read_destructive_provenance, read_node_id, read_edge_id, read_version_id, read_ts.
  again_solve; first [ apply again_label | apply again_props_ts | apply again_update
    | apply again_tomb | apply again_provenance ].
Qed.

Lemma parse_entry_again crc32 off v s s1 e n :
  i_wf s -> parse_entry_at crc32 buffer off v s = (s1, Ok (e, n)) ->
  above s s1 /\ forall S, above s1 S -> parse_entry_at crc32 buffer off v S = (S, Ok (e, n)).
Proof.
  intros W E. unfold parse_entry_at in *.
  assert (again_p (parse_entry (St := St) crc32 buffer v)) as Hp.
  { unfold parse_entry. again_solve. apply again_operation. }
  destruct (parse_entry crc32 buffer v (off, s)) as [[o s2] r] eqn:Ep. simplify_eq.
  destruct (Hp (off, s) (o, s1) (e, n) W Ep) as [Ha Hr]. split; [done|].
  intros S HS. simpl in Hr. by rewrite (Hr S HS).
Qed.
End Reread.

(** ** Termination and panic-freedom on arbitrary files *)
Section SegmentTotal.
Import Crypt Wal WalRead Segment.
Context {St : Type} `{Interner St}.
Variable crc32 : bytes -> Z.

(** A length-prefixed frame at [off] of a buffer it fits in. *)
Lemma frame_len buffer off :
  0 <= off -> off + 4 <= blen buffer ->
  exists x, slice buffer off (off + 4) = Some x /\ 0 <= from_le x.
Proof.
  intros. destruct (slice_ok buffer off (off + 4)) as (x & -> & ?); [lia..|].
  exists x. split; [done|]. pose proof (from_le_range x). lia.
Qed.

(** The body of a frame parses safely once decrypted. *)
Lemma frame_parse_safe c (Hc : CipherOk c) frame d v st :
  blen frame <= isize_max -> i_wf st -> decrypt_wal_payload frame c = Ok d ->
  extends st (parse_entry_at crc32 d 0 v st).1 /\ is_panic (parse_entry_at crc32 d 0 v st).2 = false.
Proof.
  intros Hl W Hd. pose proof (safe_ok _ _ _ (decrypt_payload_safe c Hc frame) Hd) as Hs. simpl in Hs.
  assert (0 <= 0 <= blen d) as H0 by (split; [lia|apply blen_nonneg]).
  assert (blen d <= isize_max) as Hdl by lia.
  destruct (parse_entry_at_safe crc32 d Hdl 0 v st H0 W) as [He Hr]. split; [done|].
  by destruct (parse_entry_at crc32 d 0 v st).2.
Qed.

(** Only entries at or above [start] are handed over. *)
Definition from_lsn (start : LSN) (es : list WalEntry) : Prop := Forall (fun e => start <= Wal.lsn e) es.

Lemma from_lsn_push start es e :
  from_lsn start es -> from_lsn start (if start <=? Wal.lsn e then es ++ [e] else es).
Proof.
  intros Hf. case_goal; [|done]. bool_to_prop. apply Forall_app. split; [done|]. by apply Forall_singleton.
Qed.

Section Buffer.
Variable buffer : bytes.
Hypothesis buffer_size : blen buffer <= isize_max.
Variable c : Cipher.
Context {Hc : CipherOk c}.

Lemma enc_follows_total fuel off v st :
  0 <= off -> Z.max 0 (blen buffer - off) < Z.of_nat fuel -> i_wf st ->
  exists b, (encrypted_valid_frame_follows crc32 fuel buffer off c v st).2 = Some b /\
    extends st (encrypted_valid_frame_follows crc32 fuel buffer off c v st).1.
Proof.
  revert off st. induction fuel as [|fuel IH]; intros off st Ho Hf W; [lia|].
  cbn [encrypted_valid_frame_follows].
  case_goal; [by exists false|]. case_goal; [by exists false|]. bool_to_prop.
  destruct (frame_len buffer off) as (x & -> & Hx); [lia..|].
  case_goal; [by exists false|]. case_goal; [by exists false|]. bool_to_prop.
  destruct (slice_ok buffer (off + 4) (off + 4 + from_le x)) as (fr & -> & Hfr); [lia..|].
  pose proof (decrypt_payload_safe c Hc fr) as Hd.
  destruct (decrypt_wal_payload fr c) as [d|e|] eqn:Ed; simpl in Hd; try done; [|apply IH; [lia|lia|done]].
  assert (blen fr <= isize_max) as Hfl by lia.
  destruct (frame_parse_safe c Hc fr d v st Hfl W Ed) as [He Hp].
  destruct (parse_entry_at crc32 d 0 v st) as [st1 [a|e|]]; simpl in *; try done; [by exists true|].
  destruct (IH (off + 4 + from_le x) st1) as (b & Hb & Hex); [lia|lia|apply (He W)|].
  exists b. split; [done|by etrans].
Qed.

Lemma torn_frame_total fs off v tol es st e :
  0 <= off -> i_wf st ->
  exists st' oe, torn_frame crc32 buffer fs off c v tol es st e = Some (off, es, st', oe) /\
    extends st st'.
Proof.
  intros Ho W. unfold torn_frame. destruct tol; [|by eexists _, _].
  destruct (enc_follows_total (S (length buffer)) off v st Ho) as (b & Hb & He);
    [unfold blen; lia|done|].
  destruct (encrypted_valid_frame_follows _ _ _ _ _ _ _) as [st1 o]. simpl in *. subst o.
  case_goal; by eexists _, _.
Qed.

Lemma enc_loop_total fuel off start es ver tol st :
  0 <= off <= blen buffer -> blen buffer - off < Z.of_nat fuel -> i_wf st -> from_lsn start es ->
  exists off' es' st' oe,
    parse_encrypted_loop crc32 fuel buffer off start c es ver tol st = Some (off', es', st', oe) /\
    extends st st' /\ from_lsn start es'.
Proof.
  revert off es st. induction fuel as [|fuel IH]; intros off es st Ho Hf W Hes; [lia|].
  cbn [parse_encrypted_loop]. case_goal; [by eexists _, _, _, _|]. bool_to_prop. case_goal.
  { destruct (slice_from_ok buffer off) as (r & -> & _); [lia..|].
    repeat case_goal; by eexists _, _, _, _. }
  bool_to_prop. destruct (frame_len buffer off) as (x & -> & Hx); [lia..|].
  case_goal; [by eexists _, _, _, _|]. case_goal; [case_goal; by eexists _, _, _, _|]. bool_to_prop.
  destruct (slice_ok buffer (off + 4) (off + 4 + from_le x)) as (fr & -> & Hfr); [lia..|].
  pose proof (decrypt_payload_safe c Hc fr) as Hd.
  destruct (decrypt_wal_payload fr c) as [d|e|] eqn:Ed; simpl in Hd; try done.
  2:{ destruct (torn_frame_total off (off + 4 + from_le x) (payload_version ver) tol es st
        (EStorage Encryption)) as (st' & oe & -> & He); [lia|done|]. by eexists _, _, _, _. }
  assert (blen fr <= isize_max) as Hfl by lia.
  destruct (frame_parse_safe c Hc fr d (payload_version ver) st Hfl W Ed) as [He Hp].
  destruct (parse_entry_at crc32 d 0 (payload_version ver) st) as [st1 [[en n]|e|]]; simpl in *; try done.
  - destruct (IH (off + 4 + from_le x) (if start <=? Wal.lsn en then es ++ [en] else es) st1)
      as (off' & es' & st' & oe & E & He' & Hes'); [lia|lia|apply (He W)|by apply from_lsn_push|].
    exists off', es', st', oe. split_and!; [done|by etrans|done].
  - destruct (torn_frame_total off (off + 4 + from_le x) (payload_version ver) tol es st1 e)
      as (st' & oe & -> & He'); [lia|apply (He W)|].
    eexists _, _, _, _. split_and!; [done|by etrans|done].
Qed.
End Buffer.

(** The ciphers a source can hand out. *)
Definition source_ok (s : WalCipherSource) : Prop :=
  forall kv c, resolve s kv = Some c -> CipherOk c.

Lemma finish_ok raw off es st oe (e0 : St) start :
  extends e0 st -> from_lsn start es -> exists r, finish raw (Some (off, es, st, oe)) = Some (st, r) /\
    extends e0 st /\ safe r (fun '(es, _) => from_lsn start es).
Proof. intros He. destruct oe; by eexists. Qed.

Lemma decode_header_layout_ok ver buffer :
  5 <= blen buffer ->
  safe (decode_header_layout ver buffer) (fun '(off, _) => 0 <= off <= blen buffer).
Proof.
  intros Hl. unfold decode_header_layout, WAL_KEYVERSIONED_HEADER_SIZE, WAL_HEADER_SIZE,
    WAL_KEYVERSION_FIELD_SIZE. case_goal; [|simpl; lia]. case_goal; [done|]. bool_to_prop.
  eapply safe_bind; [apply read_u32_safe; lia|]. intros kv _ _. simpl. lia.
Qed.

Lemma has_magic_len buffer : has_magic buffer = true -> 5 <= blen buffer.
Proof. unfold has_magic, WAL_HEADER_SIZE. intros ?. by bool_to_prop. Qed.

Lemma read_segment_total file start s tol st :
  source_ok s -> i_wf st ->
  exists st' r, read_segment crc32 file start s tol st = Some (st', r) /\
    extends st st' /\ safe r (fun '(es, _) => from_lsn start es).
Proof.
  intros Hs W. assert (from_lsn start []) as H0 by constructor.
  destruct file as [buffer|]; [|by eexists _, _]. unfold read_segment.
  case_goal; [by eexists _, _|]. case_goal; [by eexists _, _|]. unfold MAX_SEGMENT_SIZE in *. bool_to_prop.
  assert (blen buffer <= isize_max) as Hb by mlia.
  destruct (has_magic buffer) eqn:Em; simpl; [|by eexists _, _]. apply has_magic_len in Em.
  pose proof (read_u8_safe (E := Error) buffer 4 ltac:(lia) ltac:(lia)) as Hv.
  destruct (read_u8 buffer 4) as [ver|e|] eqn:Ev; simpl in Hv; [| |done].
  2:{ unfold read_u8 in Ev. by destruct (byte_at buffer 4). }
  case_goal; [by eexists _, _|].
  pose proof (decode_header_layout_ok ver buffer Em) as Hh.
  destruct (decode_header_layout ver buffer) as [[off kv]|e|]; simpl in Hh; try done.
  2:{ case_goal; by eexists _, _. }
  case_goal.
  - destruct (resolve s kv) as [c|] eqn:Er; [|by eexists _, _].
    destruct (enc_loop_total buffer Hb c (Hc := Hs _ _ Er) (S (length buffer)) off start [] ver tol st)
      as (off' & es & st' & oe & E & He & Hes); [lia|unfold blen; lia|done|done|].
    unfold parse_encrypted_entries. rewrite E.
    destruct (finish_ok (negb (carries_string_labels (payload_version ver))) off' es st' oe st start He Hes)
      as (r & -> & ? & ?). by eexists _, _.
  - destruct (parse_loop_total crc32 buffer Hb (S (length buffer)) ver start tol None off [] st Hh)
      as (off' & es & st' & oe & E & ? & He & Hes); [unfold blen; lia|done|].
    unfold parse_plaintext_entries. rewrite E. rewrite app_nil_l.
    assert (from_lsn start es) as Hes' by (eapply Forall_impl; [exact Hes|by intros ? [? _]]).
    destruct (finish_ok (negb (carries_string_labels (payload_version ver))) off' es st' oe st start He Hes')
      as (r & -> & ? & ?). by eexists _, _.
Qed.

Lemma read_segments_total segs start s tol es raw st :
  source_ok s -> i_wf st -> from_lsn start es ->
  exists st' r, read_segments crc32 segs start s tol es raw st = Some (st', r) /\
    extends st st' /\ safe r (fun '(es, _) => from_lsn start es).
Proof.
  intros Hs. revert es raw st. induction segs as [|[i f] segs IH]; intros es raw st W Hes;
    cbn [read_segments]; [by eexists _, _|].
  destruct (read_segment_total f start s (tol && match segs with [] => true | _ => false end) st Hs W)
    as (st1 & r & -> & He & Hr).
  destruct r as [[es1 raw1]|e|]; try done; [|by eexists _, _].
  destruct (IH (es ++ es1) (raw || raw1) st1) as (st2 & r2 & -> & He2 & ?);
    [apply (He W)|by apply Forall_app|].
  eexists _, _. split_and!; [done|by etrans|done].
Qed.
End SegmentTotal.

(** ** Segments the flush coordinator wrote *)
Section Written.
Import Crypt Wal WalRead Segment.
Context {St : Type} `{Interner St}.
Variable crc32 : bytes -> Z.
Hypothesis crc32_u32 : forall b, in_u32 (crc32 b).
Variable st : St.
Hypothesis st_wf : i_wf st.

(** The log entries of a batch: the nonce its encryption draws and the bytes
    [serialize_operation_into] gave. *)
Definition batch_entry (b : bytes * bytes) (r : record) : Prop :=
  blen b.1 = 12 /\ serialize_operation_into crc32 st r.1.1 r.1.2 r.2 [] = Ok b.2.

Lemma batch_entry_bytes b r : rec_ok st r -> batch_entry b r -> b.2 = rec_bytes crc32 st r.
Proof. intros (_ & _ & Hw) [_ Hs]. rewrite serialize_operation_ok in Hs by done. by simplify_eq. Qed.

(** *** Encrypted frames *)
Definition frame_of (c : Cipher) (f : bytes) (r : record) : Prop :=
  0 < blen f /\ decrypt_wal_payload f c = Ok (rec_bytes crc32 st r).
Definition encrypted_as (c : Cipher) (b : bytes * bytes) (f : bytes) : Prop :=
  encrypt_wal_payload b.2 c b.1 = Ok f.
Definition frames (fs : list bytes) : bytes := concat (map (fun f => to_le 4 (blen f) ++ f) fs).

Lemma flush_frames c (Hc : CipherOk c) batch rs segment file :
  Forall2 batch_entry batch rs -> Forall (rec_ok st) rs -> blen file <= MAX_SEGMENT_SIZE ->
  foldl (fun b '(nonce, data) => b ← b; x ← flush_entry (Some c) nonce data; Ok (b ++ x))
    (Ok segment) batch = Ok file ->
  exists fs, file = segment ++ frames fs /\ Forall2 (frame_of c) fs rs /\
    Forall2 (encrypted_as c) batch fs.
Proof.
  intros Hb. revert segment. induction Hb as [|[nonce d] r batch rs Hbe _ IH]; intros segment Hall Hl E.
  { simpl in E. simplify_eq. exists []. split_and!; [by rewrite app_nil_r|constructor|constructor]. }
  apply Forall_cons in Hall as [Hr Hall]. pose proof (batch_entry_bytes _ _ Hr Hbe) as Hd. simpl in Hd.
  destruct Hbe as [Hn _]. simpl in Hn. subst d. cbn [foldl mbind res_bind flush_entry] in E.
  destruct (encrypt_wal_payload (rec_bytes crc32 st r) c nonce) as [e|e|] eqn:Ee; cbn [map_err mbind res_bind] in E.
  2,3: exfalso; clear -E; induction batch as [|[n d] batch IH]; simpl in E; [done|by apply IH].
  destruct (encrypt_payload_ok c Hc nonce _ e Hn Ee) as (Hdec & Hel & Hge & _).
  destruct (IH _ Hall Hl E) as (fs & -> & Hfs & Hes).
  pose proof (blen_nonneg (frames fs)). pose proof (blen_nonneg segment). pose proof (cipher_overhead (c := c)).
  rewrite !blen_app in Hl. unfold MAX_SEGMENT_SIZE in Hl.
  rewrite Z.mod_small by (split; [apply blen_nonneg|]; rewrite blen_to_le in Hl; lia).
  exists (e :: fs). split_and!.
  - unfold frames. cbn [map concat]. by rewrite <-!app_assoc.
  - constructor; [|done]. split; [lia|done].
  - by constructor.
Qed.

Lemma frames_len fs rs c : Forall2 (frame_of c) fs rs -> Z.of_nat (length rs) <= blen (frames fs).
Proof.
  induction 1 as [|f r fs rs [Hf _] _ IH]; [done|]. unfold frames in *. cbn [map concat].
  rewrite !blen_app, blen_to_le. rewrite length_cons. lia.
Qed.

Section Loop.
Variable buffer : bytes.
Hypothesis buffer_size : blen buffer <= MAX_SEGMENT_SIZE.

Lemma enc_loop_frames c (Hc : CipherOk c) ver start tol fs rs post off es fuel :
  payload_version ver = WAL_VERSION_STRING_LABELS -> Forall2 (frame_of c) fs rs ->
  Forall (rec_ok st) rs -> at_off buffer off (frames fs ++ post) ->
  parse_encrypted_loop crc32 (length rs + fuel) buffer off start c es ver tol st =
  parse_encrypted_loop crc32 fuel buffer (off + blen (frames fs)) start c
    (es ++ wanted start (map (rec_entry crc32 st WAL_VERSION_STRING_LABELS) rs)) ver tol st.
Proof.
  intros Hv Hfs. revert off es. unfold MAX_SEGMENT_SIZE in buffer_size.
  induction Hfs as [|f r fs rs [Hf Hd] _ IH]; intros off es Hall Ha.
  { cbn [length Nat.add map]. unfold wanted. rewrite filter_nil, app_nil_r.
    change (blen (frames [])) with 0. by rewrite Z.add_0_r. }
  apply Forall_cons in Hall as [Hr Hall].
  unfold frames in *. cbn [map concat] in *. rewrite <-!app_assoc in Ha.
  pose proof (at_off_len _ _ _ Ha) as [? Hl]. rewrite !blen_app, blen_to_le in Hl.
  pose proof (blen_nonneg (concat (map (fun f => to_le 4 (blen f) ++ f) fs))). pose proof (blen_nonneg post).
  cbn [length Nat.add parse_encrypted_loop].
  rewrite (proj2 (Z.ltb_lt _ _)) by lia. cbn [negb]. rewrite (proj2 (Z.ltb_ge _ _)) by lia.
  rewrite (at_off_slice _ _ _ _ _ Ha) by (by rewrite blen_to_le).
  rewrite from_to_le_u32 by mlia. rewrite (proj2 (Z.eqb_neq _ _)) by lia.
  skip_at Ha (off + 4) as A4.
  rewrite (proj2 (Z.ltb_ge _ _)) by lia. rewrite (at_off_slice _ _ _ _ _ A4) by done.
  rewrite Hd, Hv. pose proof (decrypt_payload_safe c Hc f) as Hds. rewrite Hd in Hds. simpl in Hds.
  assert (blen (rec_bytes crc32 st r) <= isize_max) as Hrl by mlia.
  rewrite (parse_record crc32 crc32_u32 st st_wf (rec_bytes crc32 st r) Hrl
    WAL_VERSION_STRING_LABELS r 0 []); [|done|done|by rewrite app_nil_r; apply at_off_0].
  cbv beta iota zeta. rewrite (IH (off + 4 + blen f)) by (done || by eapply at_off_app).
  rewrite !blen_app, blen_to_le. f_equal; [lia|].
  unfold wanted. rewrite filter_cons. change (Wal.lsn (rec_entry crc32 st WAL_VERSION_STRING_LABELS r)) with r.1.1.
  destruct (Z.leb_spec start r.1.1); [rewrite decide_True by done|rewrite decide_False by lia];
    by rewrite <-?app_assoc.
Qed.

Lemma enc_loop_zeros c ver start tol n off es fuel :
  at_off buffer off (zeros n) ->
  parse_encrypted_loop crc32 (S fuel) buffer off start c es ver tol st = Some (off, es, st, None).
Proof.
  intros Ha. pose proof (at_off_len _ _ _ Ha) as [? Hl]. rewrite blen_zeros in Hl.
  cbn [parse_encrypted_loop]. case_goal; [done|]. bool_to_prop. case_goal; bool_to_prop.
  - unfold at_off in Ha. by rewrite Ha, all_zero_zeros.
  - replace n with (4 + (n - 4))%nat in Ha by lia. unfold zeros in Ha. rewrite replicate_add in Ha.
    rewrite (at_off_slice _ _ _ _ _ Ha) by done. done.
Qed.
End Loop.

(** *** The header *)
Lemma header_read v rest :
  in_u8 v -> let buffer := WAL_MAGIC ++ bof v :: rest in
  has_magic buffer = true /\ read_u8 (E := Error) buffer 4 = Ok v /\ blen buffer = 5 + blen rest.
Proof.
  intros Hv buffer. assert (blen buffer = 5 + blen rest) as Hl
    by (unfold buffer; rewrite blen_app, blen_cons; change (blen WAL_MAGIC) with 4; lia).
  pose proof (blen_nonneg rest). split_and!; [| |done].
  - unfold has_magic, WAL_HEADER_SIZE. rewrite (proj2 (Z.leb_le _ _)) by lia.
    unfold buffer. rewrite slice_prefix by done. by apply bool_decide_eq_true.
  - unfold read_u8, buffer. rewrite byte_at_app by done. cbn [expect mbind res_bind].
    rewrite bval_bof; [done|mlia].
Qed.

(** A file with a readable header goes on to its body. *)
Lemma read_segment_body buffer ver off kv start source tol :
  blen buffer <= MAX_SEGMENT_SIZE -> has_magic buffer = true ->
  read_u8 (E := Error) buffer 4 = Ok ver -> is_supported_segment_version ver = true ->
  decode_header_layout ver buffer = Ok (off, kv) ->
  read_segment crc32 (Some buffer) start source tol st =
    (if is_encrypted_version ver then
       match resolve source kv with
       | None => Some (st, Err (EStorage Encryption))
       | Some cipher => finish (negb (carries_string_labels (payload_version ver)))
           (parse_encrypted_entries crc32 buffer off start cipher [] ver tol st)
       end
     else finish (negb (carries_string_labels (payload_version ver)))
       (parse_plaintext_entries crc32 buffer off ver start [] tol st)).
Proof.
  intros Hl Hm Hr Hs Hd. pose proof (has_magic_len _ Hm). unfold read_segment.
  rewrite (proj2 (Z.ltb_ge _ _)) by lia. rewrite (proj2 (Z.eqb_neq _ _)) by lia.
  by rewrite Hm, Hr, Hs, Hd.
Qed.

(** A segment in the plain format: what its body is parsed from. *)
Lemma read_plain_segment rest start source tol :
  5 + blen rest <= MAX_SEGMENT_SIZE ->
  let buffer := segment_header None ++ rest in
  read_segment crc32 (Some buffer) start source tol st =
    finish false (parse_plaintext_entries crc32 buffer 5 WAL_VERSION_STRING_LABELS start [] tol st) /\
  at_off buffer 5 rest /\ blen buffer <= isize_max.
Proof.
  intros Hl buffer. unfold MAX_SEGMENT_SIZE in Hl. pose proof (blen_nonneg rest).
  destruct (header_read WAL_VERSION_STRING_LABELS rest) as (Hm & Hr & Hb); [done|].
  assert (buffer = WAL_MAGIC ++ bof WAL_VERSION_STRING_LABELS :: rest) as E by done.
  rewrite <-E in Hm, Hr, Hb. split_and!; [|by apply slice_from_app|mlia].
  by rewrite (read_segment_body buffer WAL_VERSION_STRING_LABELS 5 None) by (done || unfold MAX_SEGMENT_SIZE; lia).
Qed.

Definition writable (source : WalCipherSource) (kr : option WalKeyring) : Prop :=
  match kr with
  | None => True
  | Some k => exists c, current k = Some (c, current_version k) /\ CipherOk c /\
      in_u32 (current_version k) /\ resolve source (Some (current_version k)) = Some c
  end.

(** [file] holds the records [rs], written as one segment under some keyring
    whose generation [source] can resolve, with [n] bytes preallocated. *)
Definition segment_written (source : WalCipherSource) (file : option bytes) (rs : list record) : Prop :=
  exists kr batch seg n, file = Some (seg ++ zeros n) /\ Forall2 batch_entry batch rs /\
    flush_batch kr batch (segment_header kr) = Ok seg /\
    blen seg + Z.of_nat n <= MAX_SEGMENT_SIZE /\ writable source kr.

Lemma flush_plain batch rs segment :
  Forall2 batch_entry batch rs -> Forall (rec_ok st) rs ->
  flush_batch None batch segment = Ok (segment ++ log_bytes crc32 st rs).
Proof.
  unfold flush_batch. simpl. intros Hb. revert segment.
  induction Hb as [|[n d] r batch rs Hbe _ IH]; intros segment Hall; [by rewrite app_nil_r|].
  apply Forall_cons in Hall as [Hr Hall]. pose proof (batch_entry_bytes _ _ Hr Hbe) as Hd. simpl in Hd.
  subst d. cbn [foldl mbind res_bind flush_entry]. rewrite IH by done.
  unfold log_bytes. cbn [map concat]. by rewrite <-app_assoc.
Qed.

Lemma read_written source file rs start tol :
  segment_written source file rs -> Forall (rec_ok st) rs ->
  read_segment crc32 file start source tol st =
    Some (st, Ok (wanted start (map (rec_entry crc32 st WAL_VERSION_STRING_LABELS) rs), false)).
Proof.
  intros (kr & batch & seg & n & -> & Hb & Hf & Hl & Hw) Hall. destruct kr as [k|].
  - destruct Hw as (c & Hcur & Hc & Hkv & Hres).
    unfold flush_batch in Hf. simpl mbind in Hf. rewrite Hcur in Hf. cbn [fmap option_fmap option_map fst] in Hf.
    pose proof (blen_nonneg (zeros n)). rewrite blen_zeros in *.
    destruct (flush_frames c Hc batch rs _ seg Hb Hall ltac:(lia) Hf) as (fs & -> & Hfs & _).
    unfold segment_header, current_write_format. cbn [from_option]. rewrite <-!app_assoc. cbn [app].
    set (rest := to_le 4 (current_version k) ++ frames fs ++ zeros n).
    destruct (header_read WAL_VERSION_ENCRYPTED_KEYVERSIONED rest) as (Hm & Hr & Hlen); [done|].
    set (buffer := WAL_MAGIC ++ _ :: rest) in *.
    assert (blen buffer <= MAX_SEGMENT_SIZE) as Hbuf.
    { rewrite Hlen. unfold rest. unfold segment_header, current_write_format in Hl. cbn [from_option] in Hl.
      rewrite !blen_app, blen_to_le, blen_zeros in *.
      change (blen WAL_MAGIC) with 4 in Hl. change (blen [bof _]) with 1 in Hl. lia. }
    assert (at_off buffer 9 (frames fs ++ zeros n)) as Ha.
    { apply (slice_from_app (WAL_MAGIC ++ bof WAL_VERSION_ENCRYPTED_KEYVERSIONED ::
        to_le 4 (current_version k))). rewrite blen_app, blen_cons, blen_to_le. done. }
    rewrite (read_segment_body buffer WAL_VERSION_ENCRYPTED_KEYVERSIONED 9 (Some (current_version k)));
      [|done|done|done|done|].
    2:{ unfold decode_header_layout, WAL_KEYVERSIONED_HEADER_SIZE. rewrite Z.eqb_refl.
        pose proof (at_off_len _ _ _ Ha). pose proof (blen_nonneg (frames fs ++ zeros n)).
        rewrite (proj2 (Z.ltb_ge _ _)) by (unfold WAL_HEADER_SIZE, WAL_KEYVERSION_FIELD_SIZE; lia).
        rewrite (at_u32 buffer 5 (current_version k) (frames fs ++ zeros n)); [done| |done].
        by apply (slice_from_app (WAL_MAGIC ++ [bof WAL_VERSION_ENCRYPTED_KEYVERSIONED])). }
    change (is_encrypted_version WAL_VERSION_ENCRYPTED_KEYVERSIONED) with true. cbv iota. rewrite Hres.
    unfold parse_encrypted_entries. pose proof (frames_len _ _ _ Hfs) as Hn.
    pose proof (at_off_len _ _ _ Ha) as [_ Hla]. rewrite blen_app, blen_zeros in Hla.
    replace (S (length buffer)) with (length rs + S (length buffer - length rs))%nat
      by (unfold blen in *; lia).
    rewrite (enc_loop_frames buffer Hbuf c Hc _ start tol fs rs (zeros n)) by done.
    rewrite (enc_loop_zeros buffer c _ start tol n) by by apply at_off_app. done.
  - rewrite (flush_plain _ rs) in Hf by done.
    assert (seg = segment_header None ++ log_bytes crc32 st rs) as -> by congruence. rewrite <-app_assoc.
    destruct (read_plain_segment (log_bytes crc32 st rs ++ zeros n) start source tol) as (-> & Ha & Hbs).
    { rewrite !blen_app, blen_zeros in *. change (blen (segment_header None)) with 5 in Hl. lia. }
    by rewrite (replay_zeros crc32 crc32_u32 st st_wf _ Hbs WAL_VERSION_STRING_LABELS start tol rs n 5).
Qed.
(** *** The directory *)
Definition entries_of (start : LSN) (rss : list (list record)) : list WalEntry :=
  wanted start (map (rec_entry crc32 st WAL_VERSION_STRING_LABELS) (concat rss)).

(** A plain segment whose last write was cut short. *)
Definition segment_torn (file : option bytes) (rs : list record) : Prop :=
  exists tail, file = Some (segment_header None ++ log_bytes crc32 st rs ++ tail) /\
    5 + blen (log_bytes crc32 st rs) + blen tail <= MAX_SEGMENT_SIZE /\
    0 < blen tail < 24 /\ all_zero tail = false.

Lemma read_torn source file rs start tol :
  segment_torn file rs -> Forall (rec_ok st) rs ->
  read_segment crc32 file start source tol st =
    Some (st, if tol then Ok (wanted start (map (rec_entry crc32 st WAL_VERSION_STRING_LABELS) rs), false)
              else Err corrupted).
Proof.
  intros (tail & -> & Hl & Ht & Hz) Hall.
  destruct (read_plain_segment (log_bytes crc32 st rs ++ tail) start source tol) as (-> & Ha & Hbs);
    [rewrite blen_app; lia|].
  rewrite (replay_short crc32 crc32_u32 st st_wf _ Hbs WAL_VERSION_STRING_LABELS start tol rs tail 5) by done.
  by destruct tol.
Qed.

Lemma entries_of_app start rss1 rss2 :
  entries_of start (rss1 ++ rss2) = entries_of start rss1 ++ entries_of start rss2.
Proof. unfold entries_of, wanted. by rewrite concat_app, map_app, filter_app. Qed.

Lemma entries_of_one start rs :
  entries_of start [rs] = wanted start (map (rec_entry crc32 st WAL_VERSION_STRING_LABELS) rs).
Proof. unfold entries_of. simpl. by rewrite app_nil_r. Qed.

Definition segments_written (source : WalCipherSource) (segs : list (Z * option bytes))
    (rss : list (list record)) : Prop :=
  Forall2 (fun p rs => segment_written source p.2 rs /\ Forall (rec_ok st) rs) segs rss.

(** Written segments are read one after the other, whatever follows. *)
Lemma read_segments_written source segs rss rest start tol es raw :
  segments_written source segs rss ->
  read_segments crc32 (segs ++ rest) start source tol es raw st =
  read_segments crc32 rest start source tol (es ++ entries_of start rss) raw st.
Proof.
  intros Hw. revert es. induction Hw as [|[i f] rs segs rss [Hf Hall] _ IH]; intros es.
  { unfold entries_of, wanted. simpl. by rewrite filter_nil, app_nil_r. }
  cbn [app read_segments]. rewrite (read_written source f rs) by done.
  rewrite orb_false_r, IH. f_equal. rewrite <-app_assoc. f_equal.
  change (rs :: rss) with ([rs] ++ rss). by rewrite entries_of_app, entries_of_one.
Qed.

Lemma sorted_key_inj (segs : list (Z * option bytes)) x y :
  StronglySorted Z.lt segs.*1 -> x ∈ segs -> y ∈ segs -> x.1 = y.1 -> x = y.
Proof.
  induction segs as [|z l IH]; intros Hs Hx Hy E; [by apply not_elem_of_nil in Hx|].
  rewrite fmap_cons in Hs. apply StronglySorted_inv in Hs as [Hs Hf].
  rewrite Forall_map, Forall_forall in Hf.
  apply elem_of_cons in Hx. apply elem_of_cons in Hy.
  destruct Hx as [Ex|Hx], Hy as [Ey|Hy]; subst; auto.
  - specialize (Hf y Hy). simpl in Hf. lia.
  - specialize (Hf x Hx). simpl in Hf. lia.
Qed.

Lemma sorted_segment_paths_eq dir segs :
  dir ≡ₚ segs -> StronglySorted Z.lt segs.*1 -> sorted_segment_paths dir = segs.
Proof.
  intros Hp Hs. unfold sorted_segment_paths.
  assert (sort_by_key fst dir ≡ₚ segs) as Hps by by rewrite sort_by_key_perm.
  apply (StronglySorted_unique_strong (fun a b : Z * option bytes => a.1 <= b.1)); [| | |done].
  - intros x y Hx Hy Hxy Hyx. rewrite Hps in Hx. apply (sorted_key_inj segs); [done..|lia].
  - apply sort_by_key_sorted.
  - clear -Hs. induction segs as [|x l IH]; [constructor|]. rewrite fmap_cons in Hs.
    apply StronglySorted_inv in Hs as [? Hf]. rewrite Forall_map in Hf.
    constructor; [by apply IH|]. eapply Forall_impl; [exact Hf|]. simpl. lia.
Qed.
End Written.

Section RecoveryProperties.
Import Crypt Wal WalRead Segment.
Context {St : Type} `{Interner St}.
Variable crc32 : bytes -> Z.
Hypothesis crc32_u32 : forall b, in_u32 (crc32 b).

Lemma read_dir_written (st : St) source dir segs rss start tol :
  i_wf st -> segments_written crc32 st source segs rss -> StronglySorted Z.lt segs.*1 ->
  dir ≡ₚ segs ->
  read_entries_from_dir crc32 dir start source tol st =
    Some (st, Ok (sort_by_key Wal.lsn (entries_of crc32 st start rss), false)).
Proof.
  intros W Hw Hs Hp. unfold read_entries_from_dir. rewrite (sorted_segment_paths_eq dir segs) by done.
  rewrite <-(app_nil_r segs).
  by rewrite (read_segments_written crc32 crc32_u32 st W source segs rss).
Qed.

Lemma read_dir_torn (st : St) source dir segs rss i file rs start tol :
  i_wf st -> segments_written crc32 st source segs rss -> segment_torn crc32 st file rs ->
  Forall (rec_ok st) rs -> StronglySorted Z.lt (segs ++ [(i, file)]).*1 -> dir ≡ₚ segs ++ [(i, file)] ->
  read_entries_from_dir crc32 dir start source tol st =
    Some (st, if tol then Ok (sort_by_key Wal.lsn (entries_of crc32 st start (rss ++ [rs])), false)
              else Err corrupted).
Proof.
  intros W Hw Ht Hall Hs Hp. unfold read_entries_from_dir. rewrite (sorted_segment_paths_eq dir _) by done.
  rewrite (read_segments_written crc32 crc32_u32 st W source segs rss) by done.
  cbn [read_segments]. rewrite andb_true_r, (read_torn crc32 crc32_u32 st W source file rs) by done.
  rewrite app_nil_l, entries_of_app, entries_of_one. by destruct tol.
Qed.

(** C20: Durability of the log directory: when every segment file holds records
    the coordinator wrote, plain or encrypted under a generation the reader's
    cipher source resolves, with any number of preallocated zero bytes behind
    them, then reading the directory succeeds in both tail policies, whatever order
    the files are listed in, and yields exactly the written records at or above
    [start_lsn], ordered by LSN, all in the label-string format. *)
Theorem log_recovery (st : St) source dir segs rss start tol :
  i_wf st -> segments_written crc32 st source segs rss -> StronglySorted Z.lt segs.*1 ->
  dir ≡ₚ segs ->
  read_entries_from_dir crc32 dir start source tol st =
    Some (st, Ok (sort_by_key Wal.lsn (entries_of crc32 st start rss), false)).
Proof. apply read_dir_written. Qed.

(** C21: A crash during an append: when the last segment ends in a torn entry
    header, the tolerant reader returns exactly the records that were completely
    written, in all segments, and the fail-stop reader reports corruption. *)
Theorem torn_log_recovery (st : St) source dir segs rss i file rs start tol :
  i_wf st -> segments_written crc32 st source segs rss -> segment_torn crc32 st file rs ->
  Forall (rec_ok st) rs -> StronglySorted Z.lt (segs ++ [(i, file)]).*1 -> dir ≡ₚ segs ++ [(i, file)] ->
  read_entries_from_dir crc32 dir start source tol st =
    Some (st, if tol then Ok (sort_by_key Wal.lsn (entries_of crc32 st start (rss ++ [rs])), false)
              else Err corrupted).
Proof. apply read_dir_torn. Qed.

(** C39: The torn tail of one crash is fatal to every recovery after the next
    start: once the restarted coordinator has opened a newer segment, the same
    directory no longer reads under either tail policy, although nothing in it
    changed but the new segment. *)
Theorem torn_tail_blocks_later_recovery (st : St) source dir segs rss i file rs rest start tol :
  i_wf st -> segments_written crc32 st source segs rss -> segment_torn crc32 st file rs ->
  Forall (rec_ok st) rs -> rest <> [] ->
  StronglySorted Z.lt (segs ++ (i, file) :: rest).*1 -> dir ≡ₚ segs ++ (i, file) :: rest ->
  read_entries_from_dir crc32 dir start source tol st = Some (st, Err corrupted).
Proof.
  intros W Hw Ht Hall Hr Hs Hp. unfold read_entries_from_dir. rewrite (sorted_segment_paths_eq dir _) by done.
  rewrite (read_segments_written crc32 crc32_u32 st W source segs rss) by done.
  destruct rest as [|p rest]; [done|]. cbn [read_segments].
  by rewrite andb_false_r, (read_torn crc32 crc32_u32 st W source file rs) by done.
Qed.

(** C24: Recovery of an arbitrary directory, of files with any content, under any
    cipher source that hands out sound ciphers: it terminates without panic, keeps
    every interned string, and the entries of a successful read are ordered by LSN
    and all at or above [start_lsn]. *)
Theorem recovery_total (st : St) source dir start tol :
  source_ok source -> i_wf st ->
  exists st' r, read_entries_from_dir crc32 dir start source tol st = Some (st', r) /\
    i_wf st' /\ (forall id x, i_resolve st id = Some x -> i_resolve st' id = Some x) /\
    safe r (fun '(es, _) => StronglySorted (fun a b => Wal.lsn a <= Wal.lsn b) es /\
                            Forall (fun e => start <= Wal.lsn e) es).
Proof.
  intros Hs W. unfold read_entries_from_dir.
  destruct (read_segments_total crc32 (sorted_segment_paths dir) start source tol [] false st Hs W)
    as (st' & r & -> & He & Hr); [by constructor|]. destruct (He W) as [W' Hk].
  destruct r as [[es raw]|e|]; simpl in Hr; try done; eexists _, _; split_and!; try done.
  simpl. split; [apply sort_by_key_sorted|]. by rewrite sort_by_key_perm.
Qed.
End RecoveryProperties.

Section VersionProperties.
Import Crypt Wal WalRead Segment.

(** Format versions: every version the reader accepts maps to a plain payload
    version it also accepts, with the same transaction framing, tombstone,
    provenance and label encoding as the container; what the serializer writes
    today is the payload version of the newest plain and of both newest encrypted
    containers. *)
Theorem segment_versions v :
  0 <= v -> is_supported_segment_version v = true ->
  let p := payload_version v in
  is_supported_segment_version p = true /\ is_encrypted_version p = false /\ payload_version p = p /\
  is_framed_version p = is_framed_version v /\
  carries_delete_version_id p = carries_delete_version_id v /\
  carries_destructive_provenance p = carries_destructive_provenance v /\
  carries_string_labels p = carries_string_labels v /\
  (is_encrypted_version v = false -> p = v) /\
  payload_version WAL_VERSION_MAX = WAL_VERSION_STRING_LABELS /\
  (current_write_format None).1 = WAL_VERSION_STRING_LABELS /\
  forall k, payload_version (current_write_format (Some k)).1 = WAL_VERSION_STRING_LABELS.
Proof.
  intros Hv Hs p. subst p.
  assert (v <= 14 \/ v = 16) as Hc.
  { unfold is_supported_segment_version in Hs. bool_to_prop. destruct Hs; bool_to_prop; [left|right]; done. }
  assert (v ∈ [0;1;2;3;4;5;6;7;8;9;10;11;12;13;14;16]) as Hin.
  { assert (v=0 \/ v=1 \/ v=2 \/ v=3 \/ v=4 \/ v=5 \/ v=6 \/ v=7 \/ v=8 \/ v=9 \/ v=10 \/ v=11 \/
      v=12 \/ v=13 \/ v=14 \/ v=16) as Hd by lia.
    set_solver. }
  clear Hv Hs Hc. revert v Hin.
  apply (Forall_forall (fun v => _)). repeat constructor; done.
Qed.
End VersionProperties.

(** ** The LSN scan against the replay *)
Section Seed.
Import Crypt Wal WalRead Segment.
Context {St : Type} `{Interner St}.
Variable crc32 : bytes -> Z.

Definition covered (m : option LSN) (e : WalEntry) : Prop := exists x, m = Some x /\ Wal.lsn e <= x.

(** [m] grew to [m']. *)
Definition lsn_le (m m' : option LSN) : Prop := forall e, covered m e -> covered m' e.
#[local] Instance lsn_le_refl : Reflexive lsn_le.
Proof. by intros m e. Qed.
#[local] Instance lsn_le_trans : Transitive lsn_le.
Proof. intros a b c H1 H2 e He. auto. Qed.

Lemma max_opt_l a b : lsn_le a (max_opt a b).
Proof. intros e (x & -> & ?). destruct b as [y|]; eexists; split; [done|lia|done|lia]. Qed.
Lemma max_opt_r a b : lsn_le b (max_opt a b).
Proof. intros e (x & -> & ?). destruct a as [y|]; eexists; split; [done|lia|done|lia]. Qed.
Lemma covered_push start m es e :
  Forall (covered m) es ->
  Forall (covered (max_opt m (Some (Wal.lsn e)))) (if start <=? Wal.lsn e then es ++ [e] else es).
Proof.
  intros Hes. assert (Forall (covered (max_opt m (Some (Wal.lsn e)))) es) as Hes'
    by (eapply Forall_impl; [exact Hes|]; apply max_opt_l).
  case_goal; [|done]. apply Forall_app. split; [done|]. apply Forall_singleton.
  apply max_opt_r. by eexists.
Qed.

(** What a scan promises: an interner that grew and a maximum that grew. *)
Definition scanned (S : St) (m : option LSN) (r : option (St * option LSN)) (S' : St) (m' : option LSN) : Prop :=
  r = Some (S', m') /\ above S S' /\ lsn_le m m'.

Lemma scanned_stop S m : i_wf S -> scanned S m (Some (S, m)) S m.
Proof. intros W. split_and!; [done|by apply above_refl|done]. Qed.
Lemma scanned_step S S1 m m1 r S' m' :
  above S S1 -> lsn_le m m1 -> scanned S1 m1 r S' m' -> scanned S m r S' m'.
Proof. intros Ha Hm (-> & Ha' & Hm'). split_and!; [done|by eapply above_trans|by etrans]. Qed.

Section Plain.
Variable buffer : bytes.
Hypothesis buffer_size : blen buffer <= isize_max.

Lemma scan_plain_total fuel off v m S :
  0 <= off <= blen buffer -> blen buffer - off < Z.of_nat fuel -> i_wf S ->
  exists S' m', scanned S m (scan_plaintext_max_lsn crc32 fuel buffer off v m S) S' m'.
Proof.
  revert off m S. induction fuel as [|fuel IH]; intros off m S Ho Hf W; [lia|].
  cbn [scan_plaintext_max_lsn]. case_goal; [eexists _, _; by apply scanned_stop|]. bool_to_prop.
  destruct (parse_entry_at_safe crc32 buffer buffer_size off v S Ho W) as [He Hr].
  destruct (parse_entry_at crc32 buffer off v S) as [S1 [[e n]|e|]]; simpl in He, Hr; try done;
    pose proof (above_extends _ _ W He) as Ha.
  - destruct Hr as (Hn & Hb & _).
    destruct (IH (off + n) (max_opt m (Some (Wal.lsn e))) S1) as (S' & m' & Hs); [lia|lia|apply Ha|].
    exists S', m'. eapply scanned_step; [done|apply max_opt_l|done].
  - exists S1, m. by split_and!.
Qed.

Lemma scan_plain_covers fuel v start tol last off es st off' es' st' oe m S :
  0 <= off <= blen buffer -> blen buffer - off < Z.of_nat fuel -> i_wf st -> Forall (covered m) es ->
  parse_loop crc32 buffer fuel v start tol last off es st = Some (off', es', st', oe) -> above st' S ->
  exists S' m', scanned S m (scan_plaintext_max_lsn crc32 fuel buffer off v m S) S' m' /\
    Forall (covered m') es'.
Proof.
  revert last off es st m. induction fuel as [|fuel IH]; intros last off es st m Ho Hf W Hes E HS; [lia|].
  assert (es' = es -> exists S' m',
    scanned S m (scan_plaintext_max_lsn crc32 (Datatypes.S fuel) buffer off v m S) S' m' /\
    Forall (covered m') es') as Hstop.
  { intros ->. destruct (scan_plain_total (Datatypes.S fuel) off v m S Ho Hf (proj1 HS)) as (S' & m' & Hs).
    exists S', m'. split; [done|]. destruct Hs as (_ & _ & Hm). eapply Forall_impl; [exact Hes|apply Hm]. }
  destruct (Z.ltb_spec off (blen buffer)) as [Hlt|Hge].
  2:{ cbn [parse_loop] in E. rewrite (proj2 (Z.ltb_ge _ _)) in E by lia. simpl in E. simplify_eq. auto. }
  destruct (parse_entry_at_safe crc32 buffer buffer_size off v st Ho W) as [He Hr].
  destruct (parse_entry_at crc32 buffer off v st) as [st1 [[e n]|e|]] eqn:Ep; simpl in He, Hr; try done.
  - destruct (parse_entry_again _ crc32 off v st st1 e n W Ep) as [Ha Hagain].
    destruct Hr as (Hn & Hb & _).
    cbn [parse_loop] in E. rewrite (proj2 (Z.ltb_lt _ _)) in E by lia. cbn [negb] in E. rewrite Ep in E.
    cbv beta iota zeta in E.
    destruct (parse_loop_total crc32 buffer buffer_size fuel v start tol (Some (Wal.lsn e)) (off + n)
      (if start <=? Wal.lsn e then es ++ [e] else es) st1) as (o2 & es2 & st2 & oe2 & E2 & _ & He2 & _);
      [lia|lia|apply Ha|].
    rewrite E in E2. injection E2 as -> -> -> ->.
    pose proof (above_extends _ _ (proj1 Ha) He2) as Ha2.
    destruct (IH (Some (Wal.lsn e)) (off + n) _ st1 (max_opt m (Some (Wal.lsn e))) ltac:(lia) ltac:(lia)
      (proj1 Ha) (covered_push start m es e Hes) E HS) as (S' & m' & Hs & Hc).
    exists S', m'. split; [|done]. cbn [scan_plaintext_max_lsn].
    rewrite (proj2 (Z.ltb_lt _ _)) by lia. cbn [negb]. rewrite Hagain by by eapply above_trans.
    eapply scanned_step; [by apply above_refl, HS|apply max_opt_l|done].
  - apply Hstop. destruct (He W) as [W1 _].
    destruct (parse_loop_stop crc32 buffer buffer_size fuel v start tol last off es st st1 e
      ltac:(lia) W1 Ep) as (st2 & oe2 & E2 & _). congruence.
Qed.
End Plain.

Section Encrypted.
Variable buffer : bytes.
Hypothesis buffer_size : blen buffer <= isize_max.
Variable c : Cipher.
Context {Hc : CipherOk c}.

Lemma scan_enc_total fuel off ver m S :
  0 <= off <= blen buffer -> blen buffer - off < Z.of_nat fuel -> i_wf S ->
  exists S' m', scanned S m (scan_encrypted_max_lsn crc32 fuel buffer off c ver m S) S' m'.
Proof.
  revert off m S. induction fuel as [|fuel IH]; intros off m S Ho Hf W; [lia|].
  pose proof (scanned_stop S m W) as Hstop.
  cbn [scan_encrypted_max_lsn]. case_goal; [by eexists _, _|]. case_goal; [by eexists _, _|]. bool_to_prop.
  destruct (frame_len buffer off) as (x & -> & Hx); [lia..|].
  case_goal; [by eexists _, _|]. case_goal; [by eexists _, _|]. bool_to_prop.
  destruct (slice_ok buffer (off + 4) (off + 4 + from_le x)) as (fr & -> & Hfr); [lia..|].
  pose proof (decrypt_payload_safe c Hc fr) as Hd.
  destruct (decrypt_wal_payload fr c) as [d|e|] eqn:Ed; simpl in Hd; try done; [|by eexists _, _].
  assert (blen fr <= isize_max) as Hfl by lia.
  destruct (frame_parse_safe crc32 c Hc fr d (payload_version ver) S Hfl W Ed) as [He Hp].
  pose proof (above_extends _ _ W He) as Ha.
  destruct (parse_entry_at crc32 d 0 (payload_version ver) S) as [S1 [[e n]|e|]]; simpl in *; try done.
  - destruct (IH (off + 4 + from_le x) (max_opt m (Some (Wal.lsn e))) S1) as (S' & m' & Hs);
      [lia|lia|apply Ha|].
    exists S', m'. eapply scanned_step; [done|apply max_opt_l|done].
  - exists S1, m. by split_and!.
Qed.

Lemma scan_enc_covers fuel ver start tol off es st off' es' st' oe m S :
  0 <= off <= blen buffer -> blen buffer - off < Z.of_nat fuel -> i_wf st -> Forall (covered m) es -> from_lsn start es ->
  parse_encrypted_loop crc32 fuel buffer off start c es ver tol st = Some (off', es', st', oe) ->
  above st' S ->
  exists S' m', scanned S m (scan_encrypted_max_lsn crc32 fuel buffer off c ver m S) S' m' /\
    Forall (covered m') es'.
Proof.
  revert off es st m. induction fuel as [|fuel IH]; intros off es st m Ho Hf W Hes Hfrom E HS; [lia|].
  assert (es' = es -> exists S' m',
    scanned S m (scan_encrypted_max_lsn crc32 (Datatypes.S fuel) buffer off c ver m S) S' m' /\
    Forall (covered m') es') as Hstop.
  { intros ->. destruct (scan_enc_total (Datatypes.S fuel) off ver m S Ho Hf (proj1 HS)) as (S' & m' & Hs).
    exists S', m'. split; [done|]. destruct Hs as (_ & _ & Hm). eapply Forall_impl; [exact Hes|apply Hm]. }
  assert (forall fs o st1 e, 0 <= o -> i_wf st1 ->
    torn_frame crc32 buffer fs o c (payload_version ver) tol es st1 e = Some (off', es', st', oe) ->
    es' = es) as Htorn.
  { intros fs o st1 e Ho1 W1 Et.
    destruct (torn_frame_total crc32 buffer buffer_size c fs o (payload_version ver) tol es st1 e Ho1 W1)
      as (? & ? & E2 & _). congruence. }
  cbn [parse_encrypted_loop] in E. cbn [scan_encrypted_max_lsn] in *.
  case_hyp E; [simplify_eq; auto|]. case_hyp E.
  { destruct (slice_from_ok buffer off) as (r & Er & _); [lia..|]. rewrite Er in E.
    apply Hstop. repeat case_hyp E; congruence. }
  bool_to_prop. destruct (frame_len buffer off) as (x & Ex & Hx); [lia..|]. rewrite Ex in *.
  case_hyp E; [simplify_eq; auto|]. case_hyp E; [apply Hstop; case_hyp E; congruence|]. bool_to_prop.
  destruct (slice_ok buffer (off + 4) (off + 4 + from_le x)) as (fr & Efr & Hfr); [lia..|]. rewrite Efr in *.
  pose proof (decrypt_payload_safe c Hc fr) as Hd.
  destruct (decrypt_wal_payload fr c) as [d|e|] eqn:Ed; simpl in Hd; try done.
  2:{ apply Hstop. eapply Htorn; [|exact W|exact E]. lia. }
  assert (blen fr <= isize_max) as Hfl by lia.
  destruct (frame_parse_safe crc32 c Hc fr d (payload_version ver) st Hfl W Ed) as [He Hp].
  pose proof (above_extends _ _ W He) as Ha.
  destruct (parse_entry_at crc32 d 0 (payload_version ver) st) as [st1 [[e n]|e|]] eqn:Ep; simpl in *; try done.
  2:{ apply Hstop. eapply Htorn; [|apply Ha|exact E]. lia. }
  destruct (parse_entry_again _ crc32 0 _ st st1 e n W Ep) as [_ Hagain].
  destruct (enc_loop_total crc32 buffer buffer_size c fuel (off + 4 + from_le x) start
    (if start <=? Wal.lsn e then es ++ [e] else es) ver tol st1) as (o2 & es2 & st2 & oe2 & E2 & He2 & _);
    [lia|lia|apply Ha|by apply from_lsn_push|].
  rewrite E in E2. injection E2 as -> -> -> ->.
  pose proof (above_extends _ _ (proj1 Ha) He2) as Ha2.
  destruct (IH (off + 4 + from_le x) _ st1 (max_opt m (Some (Wal.lsn e))) ltac:(lia) ltac:(lia)
    (proj1 Ha) (covered_push start m es e Hes) (from_lsn_push start es e Hfrom) E HS) as (S' & m' & Hs & Hcov).
  exists S', m'. split; [|done]. rewrite Hagain by by eapply above_trans.
  eapply scanned_step; [by apply above_refl, HS|apply max_opt_l|done].
Qed.
End Encrypted.

(** *** Segments and the directory *)

(** The single cipher the scan is configured with, as a source. *)
Definition source_of (cipher : option Cipher) : WalCipherSource :=
  match cipher with Some c => SourceSingle c | None => SourceNone end.

Lemma segment_scan_covers file start (cipher : option Cipher) tol st st' es raw S m :
  (forall c, cipher = Some c -> CipherOk c) -> i_wf st ->
  read_segment crc32 file start (source_of cipher) tol st = Some (st', Ok (es, raw)) -> above st' S ->
  exists S' m', scanned S m ((fun '(S', k) => (S', max_opt m k)) <$> max_lsn_in_segment crc32 file cipher S)
    S' m' /\ Forall (covered m') es.
Proof.
  intros Hc W E HS.
  assert (forall r, (exists S' m', scanned S None r S' m' /\ Forall (covered m') es) ->
    exists S' m', scanned S m ((fun '(S', k) => (S', max_opt m k)) <$> r) S' m' /\ Forall (covered m') es) as Hlift.
  { intros r (S' & m' & (-> & Ha & _) & Hf). exists S', (max_opt m m'). split.
    - split_and!; [done|done|apply max_opt_l].
    - eapply Forall_impl; [exact Hf|apply max_opt_r]. }
  apply Hlift. clear Hlift m. pose proof (scanned_stop S None (proj1 HS)) as Hstop.
  destruct file as [buffer|]; [|simplify_eq/=; by eexists _, _].
  unfold read_segment in E. unfold max_lsn_in_segment. unfold MAX_SEGMENT_SIZE in *.
  case_hyp E; [done|]. bool_to_prop. assert (blen buffer <= isize_max) as Hb by mlia.
  case_hyp E; [simplify_eq; by eexists _, _|].
  destruct (has_magic buffer) eqn:Em; cbn [negb] in *; [|done]. apply has_magic_len in Em.
  destruct (read_u8 buffer 4) as [ver|e|]; try done.
  case_hyp E; [done|]. pose proof (decode_header_layout_ok ver buffer Em) as Hh.
  destruct (decode_header_layout ver buffer) as [[off kv]|e|]; simpl in Hh; try done.
  2:{ case_hyp E; [|done]. simplify_eq. by eexists _, _. }
  case_hyp E.
  - destruct cipher as [c|]; simpl in E; [|done]. pose proof (Hc c eq_refl) as Hco.
    unfold parse_encrypted_entries in E.
    destruct (parse_encrypted_loop _ _ _ _ _ _ _ _ _ _) as [[[[o2 es2] st2] [e|]]|] eqn:El; simpl in E; simplify_eq.
    eapply (scan_enc_covers buffer Hb c); [done|unfold blen; lia|exact W|constructor|constructor|exact El|done].
  - unfold parse_plaintext_entries in E.
    destruct (parse_loop _ _ _ _ _ _ _ _ _ _) as [[[[o2 es2] st2] [e|]]|] eqn:El; simpl in E; simplify_eq.
    eapply (scan_plain_covers buffer Hb); [done|unfold blen; lia|exact W|constructor|exact El|done].
Qed.

Lemma segments_scan_covers segs start cipher tol es raw st st' es' raw' S m :
  (forall c, cipher = Some c -> CipherOk c) -> i_wf st -> from_lsn start es -> Forall (covered m) es ->
  read_segments crc32 segs start (source_of cipher) tol es raw st = Some (st', Ok (es', raw')) ->
  above st' S ->
  exists S' m', max_lsn_in_segments crc32 segs cipher m S = Some (S', m') /\ Forall (covered m') es'.
Proof.
  intros Hc. assert (source_ok (source_of cipher)) as Hs
    by (intros kv c; destruct cipher; simpl; [intros [= <-]; by apply Hc|done]).
  revert es raw st S m. induction segs as [|[i f] segs IH]; intros es raw st S m W Hfrom Hes E HS;
    cbn [read_segments max_lsn_in_segments] in *; [simplify_eq; by eexists _, _|].
  destruct (read_segment_total crc32 f start (source_of cipher)
    (tol && match segs with [] => true | _ => false end) st Hs W) as (st1 & r & Er & He & Hr).
  rewrite Er in E. destruct r as [[es1 raw1]|e|]; try done. destruct (He W) as [W1 _].
  assert (from_lsn start (es ++ es1)) as Hfrom1 by by apply Forall_app.
  destruct (read_segments_total crc32 segs start (source_of cipher) tol (es ++ es1) (raw || raw1) st1 Hs W1
    Hfrom1) as (st2 & r2 & E2 & He2 & _).
  rewrite E in E2. injection E2 as <- <-. pose proof (above_extends _ _ W1 He2) as Ha2.
  destruct (segment_scan_covers f start cipher _ st st1 es1 raw1 S m Hc W Er)
    as (S1 & m1 & (Em & Ha & Hle) & Hcov); [by eapply above_trans|].
  destruct (max_lsn_in_segment crc32 f cipher S) as [[S2 k]|]; [|done].
  cbn [fmap option_fmap option_map] in Em. injection Em as -> <-.
  apply (IH (es ++ es1) (raw || raw1) st1 S1 (max_opt m k)); try done.
  - apply Forall_app. split; [|done]. eapply Forall_impl; [exact Hes|apply Hle].
  - by eapply above_trans.
Qed.
End Seed.

Section SeedProperties.
Import Crypt Wal WalRead Segment.
Context {St : Type} `{Interner St}.
Variable crc32 : bytes -> Z.

(** C23: The LSN scan covers the replay: whatever the files of the directory hold,
    torn or not, when the recovery read succeeds and the scan then runs with the
    same single cipher (or none) and the interner the read left, the scan succeeds
    and its maximum is at or above the LSN of every replayed entry, so the
    allocator seeded behind it issues no LSN a second time. *)
Theorem seed_covers_replay (st : St) dir start cipher tol st' es raw :
  (forall c, cipher = Some c -> CipherOk c) -> i_wf st ->
  read_entries_from_dir crc32 dir start (source_of cipher) tol st = Some (st', Ok (es, raw)) ->
  exists S' m, max_lsn_in_dir crc32 dir cipher st' = Some (S', m) /\
    Forall (fun e => exists x, m = Some x /\ Wal.lsn e <= x) es.
Proof.
  intros Hc W E. unfold read_entries_from_dir in E.
  destruct (read_segments _ _ _ _ _ _ _ _) as [[st1 [[es1 raw1]|e|]]|] eqn:Er; simplify_eq.
  assert (source_ok (source_of cipher)) as Hs
    by (intros kv c; destruct cipher; simpl; [intros [= <-]; by apply Hc|done]).
  destruct (read_segments_total crc32 (sorted_segment_paths dir) start (source_of cipher) tol [] false st Hs W)
    as (st2 & r2 & E2 & He & _); [by constructor|]. rewrite Er in E2. injection E2 as <- <-.
  destruct (segments_scan_covers crc32 _ start cipher tol [] false st st' es1 raw st' None Hc W
    ltac:(constructor) ltac:(constructor) Er) as (S' & m' & Em & Hcov); [apply above_refl, (He W)|].
  exists S', m'. split; [done|]. rewrite sort_by_key_perm. exact Hcov.
Qed.
End SeedProperties.


(** ** The LSN scan between two key generations *)
Section RotationScan.
Import Crypt Wal WalRead Segment.
Context {St : Type} `{Interner St}.
Variable crc32 : bytes -> Z.
Hypothesis crc32_u32 : forall b, in_u32 (crc32 b).
Variable st : St.
Hypothesis st_wf : i_wf st.

Definition max_of (rs : list record) (m : option LSN) : option LSN :=
  foldl (fun m r => max_opt m (Some r.1.1)) m rs.

(** One step of the scan onto a frame. *)
Lemma scan_enc_frame buffer fuel c ver off f rest m (s : St) :
  0 < blen f -> blen buffer <= MAX_SEGMENT_SIZE -> at_off buffer off ((to_le 4 (blen f) ++ f) ++ rest) ->
  scan_encrypted_max_lsn crc32 (Datatypes.S fuel) buffer off c ver m s =
  match decrypt_wal_payload f c with
  | Panic => None
  | Err _ => Some (s, m)
  | Ok decrypted =>
      let '(s, r) := parse_entry_at crc32 decrypted 0 (payload_version ver) s in
      match r with
      | Ok (entry, _) =>
          scan_encrypted_max_lsn crc32 fuel buffer (off + 4 + blen f) c ver
            (max_opt m (Some (Wal.lsn entry))) s
      | Err _ => Some (s, m)
      | Panic => None
      end
  end.
Proof.
  intros Hf Hb Ha. unfold MAX_SEGMENT_SIZE in Hb. rewrite <-app_assoc in Ha.
  pose proof (at_off_len _ _ _ Ha) as [? Hl]. rewrite !blen_app, blen_to_le in Hl.
  pose proof (blen_nonneg rest). cbn [scan_encrypted_max_lsn].
  rewrite (proj2 (Z.ltb_lt _ _)) by lia. cbn [negb]. rewrite (proj2 (Z.ltb_ge _ _)) by lia.
  rewrite (at_off_slice _ _ _ _ _ Ha) by (by rewrite blen_to_le).
  rewrite from_to_le_u32 by mlia. rewrite (proj2 (Z.eqb_neq _ _)) by lia.
  skip_at Ha (off + 4) as A4.
  rewrite (proj2 (Z.ltb_ge _ _)) by lia. by rewrite (at_off_slice _ _ _ _ _ A4) by done.
Qed.

Lemma scan_enc_frames buffer c (Hc : CipherOk c) ver fs rs post off m fuel :
  blen buffer <= MAX_SEGMENT_SIZE -> payload_version ver = WAL_VERSION_STRING_LABELS ->
  Forall2 (frame_of crc32 st c) fs rs -> Forall (rec_ok st) rs -> at_off buffer off (frames fs ++ post) ->
  scan_encrypted_max_lsn crc32 (length rs + fuel) buffer off c ver m st =
  scan_encrypted_max_lsn crc32 fuel buffer (off + blen (frames fs)) c ver (max_of rs m) st.
Proof.
  intros Hb Hv Hfs. revert off m. induction Hfs as [|f r fs rs [Hf Hd] _ IH]; intros off m Hall Ha.
  { cbn [length Nat.add]. change (blen (frames [])) with 0. by rewrite Z.add_0_r. }
  apply Forall_cons in Hall as [Hr Hall]. unfold frames in *. cbn [map concat] in *.
  assert (at_off buffer off ((to_le 4 (blen f) ++ f) ++ concat (map (fun f => to_le 4 (blen f) ++ f) fs)
    ++ post)) as Ha' by by rewrite <-app_assoc in Ha |- *.
  cbn [length Nat.add]. erewrite scan_enc_frame by (done || exact Ha'). rewrite Hd, Hv.
  pose proof (decrypt_payload_safe c Hc f) as Hds. rewrite Hd in Hds. simpl in Hds.
  pose proof (at_off_len _ _ _ Ha') as [? Hl]. rewrite !blen_app, blen_to_le in Hl.
  pose proof (blen_nonneg (concat (map (fun f => to_le 4 (blen f) ++ f) fs))). pose proof (blen_nonneg post).
  unfold MAX_SEGMENT_SIZE in Hb. assert (blen (rec_bytes crc32 st r) <= isize_max) as Hrl by mlia.
  rewrite (parse_record crc32 crc32_u32 st st_wf (rec_bytes crc32 st r) Hrl
    WAL_VERSION_STRING_LABELS r 0 []); [|done|done|by rewrite app_nil_r; apply at_off_0].
  cbv beta iota zeta. rewrite (IH (off + 4 + blen f)) by (done || (eapply at_off_skip; [exact Ha'|glia])).
  rewrite !blen_app, blen_to_le. f_equal. lia.
Qed.

(** A keyversioned file up to its frames. *)
Lemma keyversioned_file kv fs :
  in_u32 kv -> let buffer := WAL_MAGIC ++ bof WAL_VERSION_ENCRYPTED_KEYVERSIONED :: to_le 4 kv ++ frames fs in
  blen buffer <= MAX_SEGMENT_SIZE -> at_off buffer 9 (frames fs) /\
  forall (c : option Cipher) (S : St), max_lsn_in_segment crc32 (Some buffer) c S =
    match c with
    | None => Some (S, None)
    | Some c => scan_encrypted_max_lsn crc32 (Datatypes.S (length buffer)) buffer 9 c
                  WAL_VERSION_ENCRYPTED_KEYVERSIONED None S
    end.
Proof.
  intros Hkv buffer Hb.
  destruct (header_read WAL_VERSION_ENCRYPTED_KEYVERSIONED (to_le 4 kv ++ frames fs)) as (Hm & Hr & Hl); [done|].
  fold buffer in Hm, Hr, Hl. pose proof (blen_nonneg (frames fs)). rewrite blen_app, blen_to_le in Hl.
  assert (at_off buffer 9 (frames fs)) as Ha.
  { apply (slice_from_app (WAL_MAGIC ++ bof WAL_VERSION_ENCRYPTED_KEYVERSIONED :: to_le 4 kv)).
    by rewrite blen_app, blen_cons, blen_to_le. }
  split; [done|]. intros c S. unfold max_lsn_in_segment.
  rewrite (proj2 (Z.eqb_neq _ _)), (proj2 (Z.ltb_ge _ _)) by lia. rewrite Hm, Hr. cbn [negb].
  change (is_supported_segment_version WAL_VERSION_ENCRYPTED_KEYVERSIONED) with true. cbn [negb].
  unfold decode_header_layout, WAL_KEYVERSIONED_HEADER_SIZE. rewrite Z.eqb_refl.
  rewrite (proj2 (Z.ltb_ge _ _)) by (unfold WAL_HEADER_SIZE, WAL_KEYVERSION_FIELD_SIZE; lia).
  rewrite (at_u32 buffer 5 kv (frames fs)); [| |done].
  - cbn [mbind res_bind]. by destruct c.
  - by apply (slice_from_app (WAL_MAGIC ++ [bof WAL_VERSION_ENCRYPTED_KEYVERSIONED])).
Qed.

(** Frames of another key do not decrypt. *)
Definition rejects (c1 c2 : Cipher) : Prop :=
  forall nonce p aad ct, blen nonce = 12 -> encrypt c2 nonce p aad = Ok ct ->
    exists e, decrypt c1 ct aad = Err e.

Lemma rejected_frame c1 c2 nonce s e :
  rejects c1 c2 -> blen nonce = 12 -> encrypt_wal_payload s c2 nonce = Ok e -> exists e', decrypt_wal_payload e c1 = Err e'.
Proof.
  intros Hrej Hn. unfold encrypt_wal_payload. case_goal; [done|]. bool_to_prop. unfold Crypt.WAL_HEADER_SIZE in *.
  destruct (slice_ok s 0 25) as (h & -> & Hh); [lia..|].
  destruct (slice_from_ok s 25) as (p & -> & _); [lia..|]. cbn [expect mbind res_bind].
  destruct (encrypt c2 nonce p h) as [ct|e'|] eqn:E; try done. intros [= <-].
  destruct (Hrej _ _ _ _ Hn E) as [e1 He1]. unfold decrypt_wal_payload. case_goal; [by eexists|].
  unfold Crypt.WAL_HEADER_SIZE. rewrite slice_prefix, slice_from_app by lia. cbn [expect mbind res_bind].
  rewrite He1. by eexists.
Qed.

(** The keyring [install_pending_wal_generations] sets up for a half-rotated log. *)
Definition rotating (c1 : Cipher) (kv1 : Z) (c2 : Cipher) (kv2 : Z) : WalKeyring :=
  add_generation (add_generation (single_versioned c1 kv1) kv1 c1) kv2 c2.

Lemma rotating_keyring c1 kv1 c2 kv2 :
  kv1 < kv2 -> let k := rotating c1 kv1 c2 kv2 in
  current k = Some (c2, kv2) /\ current_version k = kv2 /\
  cipher_for_segment k (Some kv1) = Some c1 /\ cipher_for_segment k (Some kv2) = Some c2.
Proof.
  intros Hlt k. unfold k, rotating, add_generation, single_versioned, current, cipher_for_segment,
    find_generation. simpl.
  rewrite filter_cons, decide_False by (intros E; by apply E). rewrite filter_nil. simpl.
  rewrite filter_cons, decide_True by (simpl; lia). rewrite filter_nil. simpl.
  split_and!; repeat (case_decide; simplify_eq/=); try done; lia.
Qed.

Lemma flush_keyversioned k c batch rs file :
  current k = Some (c, current_version k) -> CipherOk c -> Forall2 (batch_entry crc32 st) batch rs ->
  Forall (rec_ok st) rs -> blen file <= MAX_SEGMENT_SIZE ->
  flush_batch (Some k) batch (segment_header (Some k)) = Ok file ->
  exists fs, file = WAL_MAGIC ++ bof WAL_VERSION_ENCRYPTED_KEYVERSIONED ::
      to_le 4 (current_version k) ++ frames fs /\ Forall2 (frame_of crc32 st c) fs rs /\
    Forall2 (encrypted_as c) batch fs.
Proof.
  intros Hcur Hc Hb Hall Hl Hf. unfold flush_batch in Hf. simpl mbind in Hf. rewrite Hcur in Hf.
  destruct (flush_frames crc32 st c Hc batch rs _ file Hb Hall Hl Hf) as (fs & -> & Hfs & Hes).
  exists fs. by split_and!.
Qed.

(** The scan under another key stops at the first frame. *)
Lemma scan_rejected c1 c2 fs rs batch kv S :
  CipherOk c2 -> rejects c1 c2 -> in_u32 kv -> rs <> [] ->
  Forall2 (batch_entry crc32 st) batch rs -> Forall2 (encrypted_as c2) batch fs ->
  Forall2 (frame_of crc32 st c2) fs rs ->
  let file := WAL_MAGIC ++ bof WAL_VERSION_ENCRYPTED_KEYVERSIONED :: to_le 4 kv ++ frames fs in
  blen file <= MAX_SEGMENT_SIZE -> max_lsn_in_segment crc32 (Some file) (Some c1) S = Some (S, None).
Proof.
  intros Hc Hrej Hkv Hne Hbe Hb Hfs file Hl. destruct (keyversioned_file kv fs Hkv Hl) as [Ha Hm].
  rewrite Hm. clear Hm. destruct Hfs as [|f r fs rs [Hf _] _]; [done|].
  apply Forall2_cons_inv_r in Hb as ([nonce s] & batch' & He & _ & ->).
  apply Forall2_cons in Hbe as [[Hn _] _]. simpl in Hn. unfold encrypted_as in He. simpl in He.
  destruct (rejected_frame c1 c2 nonce s f Hrej Hn He) as [e' He'].
  unfold frames in Ha. cbn [map concat] in Ha.
  rewrite (scan_enc_frame file _ c1 _ 9 f _ None S Hf Hl Ha). by rewrite He'.
Qed.
End RotationScan.

Section RotationProperties.
Import Crypt Wal WalRead Segment.
Context {St : Type} `{Interner St}.
Variable crc32 : bytes -> Z.
Hypothesis crc32_u32 : forall b, in_u32 (crc32 b).

(** An interrupted key rotation under-seeds the LSN allocator: with one
    segment of the old generation and a newer one of the new generation on disk, the
    replay under the two-generation keyring returns the records of both, while the
    scan, which is given the provisioned old cipher only, reports the maximum of the
    old segment alone. *)
Theorem rotation_under_seeds (st : St) c1 c2 kv1 kv2 batch1 rs1 file1 batch2 rs2 file2 start tol :
  i_wf st -> CipherOk c1 -> CipherOk c2 -> rejects c1 c2 -> kv1 < kv2 -> in_u32 kv1 -> in_u32 kv2 ->
  let k1 := single_versioned c1 kv1 in
  let k2 := rotating c1 kv1 c2 kv2 in
  Forall2 (batch_entry crc32 st) batch1 rs1 -> Forall (rec_ok st) rs1 ->
  flush_batch (Some k1) batch1 (segment_header (Some k1)) = Ok file1 -> blen file1 <= MAX_SEGMENT_SIZE ->
  Forall2 (batch_entry crc32 st) batch2 rs2 -> Forall (rec_ok st) rs2 -> rs2 <> [] ->
  flush_batch (Some k2) batch2 (segment_header (Some k2)) = Ok file2 -> blen file2 <= MAX_SEGMENT_SIZE ->
  let dir := [(1, Some file1); (2, Some file2)] in
  read_entries_from_dir crc32 dir start (SourceKeyring k2) tol st =
    Some (st, Ok (sort_by_key Wal.lsn (entries_of crc32 st start [rs1; rs2]), false)) /\
  max_lsn_in_dir crc32 dir (Some c1) st = Some (st, max_of rs1 None).
Proof.
  intros W Hc1 Hc2 Hrej Hlt Hkv1 Hkv2 k1 k2 Hb1 Hr1 Hf1 Hl1 Hb2 Hr2 Hne Hf2 Hl2 dir.
  destruct (rotating_keyring c1 kv1 c2 kv2 Hlt) as (Hcur & Hver & Hold & Hnew). fold k2 in Hcur, Hver, Hold, Hnew.
  assert (current k1 = Some (c1, current_version k1)) as Hcur1.
  { unfold current, k1, single_versioned, find_generation. simpl. by rewrite decide_True. }
  assert (current k2 = Some (c2, current_version k2)) as Hcur2 by by rewrite Hver.
  assert (sorted_segment_paths dir = dir) as Hsort by done.
  split.
  - unfold read_entries_from_dir. rewrite Hsort, <-(app_nil_r dir).
    rewrite (read_segments_written crc32 crc32_u32 st W _ dir [rs1; rs2]); [done|].
    repeat apply Forall2_cons_2; [| |constructor]; split; try done; simpl.
    + exists (Some k1), batch1, file1, 0%nat. rewrite app_nil_r. split_and!; try done; [lia|].
      exists c1. by split_and!.
    + exists (Some k2), batch2, file2, 0%nat. rewrite app_nil_r. split_and!; try done; [lia|].
      exists c2. rewrite Hver. by split_and!.
  - destruct (flush_keyversioned crc32 st k1 c1 batch1 rs1 file1) as (fs1 & E1 & Hfs1 & _); try done.
    destruct (flush_keyversioned crc32 st k2 c2 batch2 rs2 file2) as (fs2 & E2 & Hfs2 & He2); try done.
    unfold max_lsn_in_dir. rewrite Hsort. unfold dir. cbn [max_lsn_in_segments].
    rewrite E1 in Hl1. rewrite E2 in Hl2. rewrite E1, E2. simpl current_version.
    destruct (keyversioned_file crc32 kv1 fs1 Hkv1 Hl1) as [Ha1 Hm1]. rewrite Hm1. clear Hm1.
    assert (exists n, Datatypes.S (length (WAL_MAGIC ++ bof WAL_VERSION_ENCRYPTED_KEYVERSIONED ::
      to_le 4 kv1 ++ frames fs1)) = (length rs1 + Datatypes.S n)%nat) as [n ->].
    { pose proof (frames_len crc32 st _ _ _ Hfs1). pose proof (at_off_len _ _ _ Ha1) as [_ Hla].
      unfold blen in *. exists (length (WAL_MAGIC ++ bof WAL_VERSION_ENCRYPTED_KEYVERSIONED ::
        to_le 4 kv1 ++ frames fs1) - length rs1)%nat. lia. }
    match type of Ha1 with at_off ?b _ _ => assert (at_off b 9 (frames fs1 ++ [])) as Ha2
      by by rewrite app_nil_r end.
    rewrite (scan_enc_frames crc32 crc32_u32 st W _ c1 Hc1 _ fs1 rs1 [] 9 None);
      [|exact Hl1|done|exact Hfs1|exact Hr1|exact Ha2].
    apply at_off_app in Ha2. pose proof (at_off_len _ _ _ Ha2) as [_ Hla]. rewrite blen_nil in Hla.
    cbn [scan_encrypted_max_lsn]. rewrite (proj2 (Z.ltb_ge _ _)) by lia. cbn [negb].
    rewrite Hver in *.
    rewrite (scan_rejected crc32 st c1 c2 fs2 rs2 batch2 kv2 st) by done.
    by destruct (max_of rs1 None).
Qed.
End RotationProperties.
