(* ===== verification/WalWitness.v ===== *)
(** * The theorems on the log at concrete inputs

    A small interner, a checksum, a toy cipher pair and a log of four records. *)

From S2P Require Import Prelude.
From S2P Require Import Bytes.
From S2P Require Import Errors.
From S2P Require Import Hlc.
From S2P Require Import Ids.
From S2P Require Import Interning.
From S2P Require Import Vectors.
From S2P Require Import Property.
From S2P Require Import PropMap.
From S2P Require Import Provenance.
From S2P Require Import Wal.
From S2P Require Import WalRead.
From S2P Require Import WalFields.
From S2P Require Import WalReplay.
From S2P Require Import WalCrypt.
From S2P Require Import WalSegment.
From S2P Require Import WalRecovery.

Module LogWitness.
Import Crypt Wal WalRead Segment.
Import MapWitness CryptWitness.

Definition crc0 (b : bytes) : Z := foldr (fun x n => bval x + n) 0 b mod 4294967296.
Lemma crc0_u32 b : in_u32 (crc0 b).
Proof. unfold crc0. pose proof (Z.mod_pos_bound (foldr (fun x n => bval x + n) 0 b) 4294967296). mlia. Qed.

Definition ts0 : HybridTimestamp := mkTs 1000 2.
Lemma ts0_valid : ts_valid ts0.
Proof. split; [split; cbn; mlia|]. left. cbn. unfold MAX_VALID_TIMESTAMP. mlia. Qed.

Definition props0 : PropMap.PropertyMap := PropMap.mkMap (PropMap.inner m0) (map_bytes st0 (PropMap.inner m0)).
Definition prov0 : Prov.Provenance := Prov.mkProv (Some hi) None None None None.
Definition create0 : WalOperation := CreateNode 3 0 props0 ts0 (Some prov0).
Definition records0 : list record :=
  [(7, ts0, BeginTx 9); (8, ts0, create0); (9, ts0, DeleteNode 3 ts0 (Some 4) None); (10, ts0, CommitTx 9 2 ts0)].

Lemma label0_ok : label_ok st0 0.
Proof. exists hi. split; [by vm_compute|apply hi_ok]. Qed.
Lemma props0_ok : props_ok st0 props0.
Proof. split_and!; [apply m0_wf|by vm_compute|reflexivity]. Qed.
Lemma prov0_ok : prov_ok (Some prov0).
Proof. split_and!; done. Qed.
Lemma create0_wf : op_wf st0 create0.
Proof.
  split_and!; [split; by vm_compute|apply label0_ok|apply props0_ok|apply ts0_valid|apply prov0_ok].
Qed.
Lemma records0_ok : Forall (rec_ok st0) records0.
Proof.
  repeat apply Forall_cons_2; [..|constructor]; (split; [simpl; mlia|split; [apply ts0_valid|]]).
  - simpl. mlia.
  - apply create0_wf.
  - split; [split; by vm_compute|]. split; [apply ts0_valid|]. split; [split; by vm_compute|done].
  - split; [simpl; mlia|]. split; [simpl; mlia|apply ts0_valid].
Qed.

Definition log0 : bytes := log_bytes crc0 st0 records0.
Lemma write_log0 : write_log crc0 st0 records0 [] = Ok log0.
Proof. apply (write_log_ok crc0 st0 records0 []). apply records0_ok. Qed.

Lemma wal_entry_roundtrip_witness : exists b,
  serialize_operation_into crc0 st0 8 ts0 create0 [] = Ok b /\
  parse_entry_at crc0 b 0 13 st0 = (st0, Ok (entry_of crc0 st0 13 8 ts0 create0, blen b)).
Proof.
  pose proof (wal_entry_roundtrip crc0 crc0_u32 st0 13 8 ts0 create0 ltac:(by vm_compute) st0_wf
    ltac:(mlia) ts0_valid create0_wf ltac:(by vm_compute)) as (b & Hs & _ & _ & Hp).
  exists b. split; [exact Hs|exact Hp].
Defined.

Lemma parse_entry_untrusted_witness :
  is_panic (parse_entry_at crc0 (take 60 log0) 33 11 st0).2 = false.
Proof.
  pose proof (parse_entry_untrusted crc0 st0 (take 60 log0) 33 11 ltac:(by vm_compute)
    ltac:(by vm_compute) st0_wf) as Hx.
  destruct (parse_entry_at crc0 (take 60 log0) 33 11 st0) as [st' [[e n]|e|]]; [reflexivity..|].
  destruct Hx as (_ & _ & Hf). destruct Hf.
Defined.

Lemma replay_total_witness : exists r,
  parse_plaintext_entries crc0 (drop 3 log0) 0 5 8 [] false st0 = Some r.
Proof.
  pose proof (replay_total crc0 st0 (drop 3 log0) 0 5 8 false ltac:(by vm_compute)
    ltac:(by vm_compute) st0_wf) as (off & es & st' & oe & E & _).
  eexists. exact E.
Defined.

Lemma replay_written_log_witness :
  parse_plaintext_entries crc0 (log0 ++ zeros 40) 0 13 8 [] false st0 =
    Some (blen log0, wanted 8 (map (rec_entry crc0 st0 13) records0), st0, None).
Proof.
  apply (replay_written_log crc0 crc0_u32 st0 (log0 ++ zeros 40) 0 13 8 false records0 40 log0);
    [by vm_compute|apply st0_wf|by vm_compute|apply records0_ok|apply write_log0|apply at_off_0].
Defined.

Lemma replay_torn_tail_witness :
  parse_plaintext_entries crc0 (log0 ++ take 20 log0) 0 13 1 [] true st0 =
    Some (blen log0, wanted 1 (map (rec_entry crc0 st0 13) records0), st0, None).
Proof.
  apply (replay_torn_tail crc0 crc0_u32 st0 (log0 ++ take 20 log0) 0 13 1 true records0 (take 20 log0) log0);
    [by vm_compute|apply st0_wf|by vm_compute|apply records0_ok|apply write_log0|apply at_off_0
    |split; by vm_compute|by vm_compute].
Defined.

(** *** Directories *)
Definition old_ring : WalKeyring := single_versioned aes 1.
Definition new_ring : WalKeyring := rotating aes 1 chacha 2.
Definition source0 : WalCipherSource := SourceKeyring new_ring.
Definition data_of (r : record) : bytes := rec_bytes crc0 st0 r.
Definition batch_of (rs : list record) : list (bytes * bytes) := map (fun r => (nonce0, data_of r)) rs.

Lemma batch_of_ok rs : Forall (rec_ok st0) rs -> Forall2 (batch_entry crc0 st0) (batch_of rs) rs.
Proof.
  induction 1 as [|r rs (_ & _ & Hw) _ IH]; constructor; [|done].
  split; [done|]. by apply serialize_operation_ok.
Qed.

Definition wf0 : i_wf st0 := st0_wf.
Definition file_of (kr : option WalKeyring) (rs : list record) : bytes :=
  match flush_batch kr (batch_of rs) (segment_header kr) with Ok b => b | _ => [] end.

Definition rs1 : list record := take 2 records0.
Definition rs2 : list record := drop 2 records0.
Lemma rs1_ok : Forall (rec_ok st0) rs1.
Proof. apply Forall_take, records0_ok. Qed.
Lemma rs2_ok : Forall (rec_ok st0) rs2.
Proof. apply Forall_drop, records0_ok. Qed.
Definition file1 : bytes := file_of (Some old_ring) rs1.
Definition file2 : bytes := file_of (Some new_ring) rs2.
Definition file3 : bytes := file_of None rs2.

Lemma file1_eq : flush_batch (Some old_ring) (batch_of rs1) (segment_header (Some old_ring)) = Ok file1.
Proof. by vm_compute. Qed.
Lemma file2_eq : flush_batch (Some new_ring) (batch_of rs2) (segment_header (Some new_ring)) = Ok file2.
Proof. by vm_compute. Qed.
Lemma file3_eq : flush_batch None (batch_of rs2) (segment_header None) = Ok file3.
Proof. by vm_compute. Qed.

Lemma written1 : segment_written crc0 st0 source0 (Some (file1 ++ zeros 5)) rs1.
Proof.
  exists (Some old_ring), (batch_of rs1), file1, 5%nat.
  split_and!; [done|apply batch_of_ok, rs1_ok|apply file1_eq|by vm_compute|].
  exists aes. split_and!; [done|apply aes_ok|done|done].
Qed.
Lemma written3 : segment_written crc0 st0 source0 (Some (file3 ++ zeros 0)) rs2.
Proof.
  exists None, (batch_of rs2), file3, 0%nat.
  split_and!; [done|apply batch_of_ok, rs2_ok|apply file3_eq|by vm_compute|done].
Qed.

Lemma log_recovery_witness :
  read_entries_from_dir crc0 [(5, Some (file3 ++ zeros 0)); (2, Some (file1 ++ zeros 5))] 1 source0 true st0 =
    Some (st0, Ok (sort_by_key Wal.lsn (entries_of crc0 st0 1 [rs1; rs2]), false)).
Proof.
  apply (log_recovery crc0 crc0_u32 st0 source0 _
    [(2, Some (file1 ++ zeros 5)); (5, Some (file3 ++ zeros 0))] [rs1; rs2] 1 true wf0).
  - apply Forall2_cons_2; [split; [exact written1|exact rs1_ok]|].
    apply Forall2_cons_2; [split; [exact written3|exact rs2_ok]|constructor].
  - apply SSorted_cons; [apply SSorted_cons; [apply SSorted_nil|constructor]|].
    constructor; [reflexivity|constructor].
  - apply perm_swap.
Defined.

(** The segment of [rs1], then a segment cut inside its next entry header. *)
Definition segs1 : list (Z * option bytes) := [(2, Some (file1 ++ zeros 5))].
Definition torn2 : option bytes := Some (segment_header None ++ log_bytes crc0 st0 rs2 ++ take 9 log0).
Lemma segs1_written : segments_written crc0 st0 source0 segs1 [rs1].
Proof. apply Forall2_cons_2; [split; [exact written1|exact rs1_ok]|constructor]. Qed.
Lemma torn2_torn : segment_torn crc0 st0 torn2 rs2.
Proof.
  exists (take 9 log0).
  split; [reflexivity|]. split; [by vm_compute|]. split; [split; by vm_compute|by vm_compute].
Qed.

Lemma torn_log_recovery_witness :
  read_entries_from_dir crc0 (segs1 ++ [(3, torn2)]) 1 source0 true st0 =
    Some (st0, Ok (sort_by_key Wal.lsn (entries_of crc0 st0 1 [rs1; rs2]), false)).
Proof.
  apply (torn_log_recovery crc0 crc0_u32 st0 source0 (segs1 ++ [(3, torn2)]) segs1 [rs1] 3 torn2 rs2 1 true
    wf0 segs1_written torn2_torn rs2_ok).
  - apply SSorted_cons; [apply SSorted_cons; [apply SSorted_nil|constructor]|].
    constructor; [reflexivity|constructor].
  - apply Permutation_refl.
Defined.

Lemma torn_tail_blocks_later_recovery_witness :
  read_entries_from_dir crc0 (segs1 ++ (3, torn2) :: [(4, Some (file3 ++ zeros 0))]) 1 source0 true st0 =
    Some (st0, Err corrupted).
Proof.
  apply (torn_tail_blocks_later_recovery crc0 crc0_u32 st0 source0
    (segs1 ++ (3, torn2) :: [(4, Some (file3 ++ zeros 0))]) segs1 [rs1] 3 torn2 rs2
    [(4, Some (file3 ++ zeros 0))] 1 true wf0 segs1_written torn2_torn rs2_ok).
  - discriminate.
  - apply SSorted_cons; [apply SSorted_cons; [apply SSorted_cons; [apply SSorted_nil|constructor]|]|].
    + constructor; [reflexivity|constructor].
    + constructor; [reflexivity|]. constructor; [reflexivity|constructor].
  - apply Permutation_refl.
Defined.

Lemma source0_ok : source_ok source0.
Proof.
  intros kv c. unfold source0, new_ring. simpl resolve. unfold cipher_for_segment, rotating. simpl.
  destruct kv as [kv|]; intros Hc; [|vm_compute in Hc; injection Hc as <-; apply aes_ok].
  unfold find_generation in Hc. vm_compute generations in Hc. simpl in Hc.
  repeat (case_decide; simplify_eq/=); [apply aes_ok|apply chacha_ok].
Qed.

Lemma recovery_total_witness : exists st' r,
  read_entries_from_dir crc0 [(1, Some (take 70 file1)); (2, torn2); (3, None)] 1 source0 true st0 = Some (st', r).
Proof.
  pose proof (recovery_total crc0 st0 source0 [(1, Some (take 70 file1)); (2, torn2); (3, None)] 1 true
    source0_ok wf0) as (st' & r & E & _).
  exists st', r. exact E.
Defined.

Lemma segment_versions_witness :
  is_supported_segment_version 16 = true /\ is_encrypted_version (payload_version 16) = false.
Proof.
  split; [reflexivity|].
  apply (segment_versions 16); [discriminate|reflexivity].
Defined.

Definition dir0 : list (Z * option bytes) := [(1, Some file3); (2, torn2)].
Lemma seed_covers_replay_witness : exists S' m,
  max_lsn_in_dir crc0 dir0 None st0 = Some (S', m) /\
  Forall (fun e => exists x, m = Some x /\ Wal.lsn e <= x)
    (sort_by_key Wal.lsn (entries_of crc0 st0 1 [rs2; rs2])).
Proof.
  assert (read_entries_from_dir crc0 dir0 1 (source_of None) true st0 =
    Some (st0, Ok (sort_by_key Wal.lsn (entries_of crc0 st0 1 [rs2; rs2]), false))) as E by (by vm_compute).
  apply (seed_covers_replay crc0 st0 dir0 1 None true st0 _ false); [discriminate|apply wf0|exact E].
Defined.

Lemma aes_rejects_chacha : rejects aes chacha.
Proof.
  intros nonce p aad ct Hn E. apply (toy_wrong_key (bof 1) (bof 2) nonce p aad ct); [|exact Hn|exact E].
  discriminate.
Qed.

Lemma rotation_under_seeds_witness :
  max_lsn_in_dir crc0 [(1, Some file1); (2, Some file2)] (Some aes) st0 = Some (st0, Some 8) /\
  exists e, e ∈ entries_of crc0 st0 1 [rs1; rs2] /\ Wal.lsn e = 10.
Proof.
  pose proof (rotation_under_seeds crc0 crc0_u32 st0 aes chacha 1 2 (batch_of rs1) rs1 file1 (batch_of rs2)
    rs2 file2 1 true wf0 aes_ok chacha_ok aes_rejects_chacha ltac:(lia) ltac:(mlia) ltac:(mlia)
    (batch_of_ok rs1 rs1_ok) rs1_ok file1_eq ltac:(by vm_compute)
    (batch_of_ok rs2 rs2_ok) rs2_ok ltac:(discriminate) file2_eq ltac:(by vm_compute)) as [_ Hm].
  split; [exact Hm|].
  exists (rec_entry crc0 st0 13 (10, ts0, CommitTx 9 2 ts0)). split; [|reflexivity].
  unfold entries_of, wanted. apply list_elem_of_filter. split; [discriminate|].
  do 3 right. left.
Defined.
End LogWitness.
