(* ===== verification/TxFrames.v ===== *)
(** * Transaction frames: the write buffer, its log frame and its recovery

    [src/api/transaction/write_buffer.rs], [src/api/transaction/write/wal.rs],
    [ConcurrentWal::append_batch] of [src/storage/wal/concurrent.rs] and
    [resolve_transaction_frames] of [src/storage/recovery.rs]: the writes a
    transaction buffers, the [BeginTx .. CommitTx] band it logs in one atomic LSN
    allocation, and the recovery step that keeps exactly the committed bands. *)

From S2P Require Import Prelude.
From S2P Require Import Bytes.
From S2P Require Import Errors.
From S2P Require Import Hlc.
From S2P Require Import Ids.
From S2P Require Import Lsn.
From S2P Require Import Interning.
From S2P Require Import Vectors.
From S2P Require Import Property.
From S2P Require Import PropMap.
From S2P Require Import Provenance.
From S2P Require Import Wal.
From S2P Require Import WalRead.
From S2P Require Import WalFields.
From S2P Require Import WalReplay.
From S2P Require Import WalCrypt.
From S2P Require Import WalSegment.
From S2P Require Import WalRecovery.
From S2P Require Import WalWitness.

Module WriteBuf.
Import PropMap Prov.

Inductive BufferedWrite :=
  | CreateNode (node_id : NodeId) (version_id : VersionId) (label : Z)
      (properties : PropertyMap) (valid_from : HybridTimestamp) (provenance : option Provenance)
  | CreateEdge (edge_id : EdgeId) (version_id : VersionId) (source target : NodeId) (label : Z)
      (properties : PropertyMap) (valid_from : HybridTimestamp) (provenance : option Provenance)
  | UpdateNode (node_id : NodeId) (version_id : VersionId) (label : Z)
      (properties : PropertyMap) (valid_from : HybridTimestamp) (provenance : option Provenance)
  | UpdateEdge (edge_id : EdgeId) (version_id : VersionId) (source target : NodeId) (label : Z)
      (properties : PropertyMap) (valid_from : HybridTimestamp) (provenance : option Provenance)
  | DeleteNode (node_id : NodeId) (valid_from : HybridTimestamp) (provenance : option Provenance)
  | DeleteEdge (edge_id : EdgeId) (valid_from : HybridTimestamp) (provenance : option Provenance)
  | RetractNode (node_id : NodeId) (valid_to : HybridTimestamp) (provenance : option Provenance)
  | RetractEdge (edge_id : EdgeId) (valid_to : HybridTimestamp) (provenance : option Provenance).

(** [BufferedWrite::node_id] *)
Definition node_id (w : BufferedWrite) : option NodeId :=
  match w with
  | CreateNode n _ _ _ _ _ | UpdateNode n _ _ _ _ _ | DeleteNode n _ _ | RetractNode n _ _ => Some n
  | _ => None
  end.

(** [BufferedWrite::edge_id] *)
Definition edge_id (w : BufferedWrite) : option EdgeId :=
  match w with
  | CreateEdge e _ _ _ _ _ _ _ | UpdateEdge e _ _ _ _ _ _ _ | DeleteEdge e _ _ | RetractEdge e _ _ => Some e
  | _ => None
  end.

Definition properties (w : BufferedWrite) : option PropertyMap :=
  match w with
  | CreateNode _ _ _ p _ _ | UpdateNode _ _ _ p _ _
  | CreateEdge _ _ _ _ _ p _ _ | UpdateEdge _ _ _ _ _ p _ _ => Some p
  | _ => None
  end.

Definition is_edge_structure_modification (w : BufferedWrite) : bool :=
  match w with
  | CreateEdge _ _ _ _ _ _ _ _ | DeleteEdge _ _ _ | RetractEdge _ _ _ => true
  | _ => false
  end.

(** [PropertyMap::contains_vector] *)
Definition contains_vector (m : PropertyMap) : bool :=
  existsb (fun kv => match kv.2 with PVector _ | PSparse _ => true | _ => false end)
    (map_to_list (inner m)).

Definition DEFAULT_MAX_OPERATIONS : Z := 50000.

Record WriteBuffer := mkBuffer {
  operations : list BufferedWrite;
  modified_nodes : gmap NodeId nat;
  modified_edges : gmap EdgeId nat;
  max_operations : Z;
  has_vector_operations : bool;
  has_edge_operations : bool }.

Definition with_max_operations (n : Z) : WriteBuffer := mkBuffer [] ∅ ∅ n false false.
Definition new : WriteBuffer := with_max_operations DEFAULT_MAX_OPERATIONS.

Definition len (b : WriteBuffer) : Z := Z.of_nat (length (operations b)).

Definition add (b : WriteBuffer) (w : BufferedWrite) : WriteBuffer * res Error unit :=
  if max_operations b <=? len b
  then (b, Err (EStorage (CapacityExceeded (len b) (max_operations b))))
  else
    let index := length (operations b) in
    (mkBuffer (operations b ++ [w])
       (match node_id w with Some n => <[n := index]> (modified_nodes b) | None => modified_nodes b end)
       (match node_id w with
        | Some _ => modified_edges b
        | None => match edge_id w with
                  | Some e => <[e := index]> (modified_edges b)
                  | None => modified_edges b
                  end
        end)
       (max_operations b)
       (match properties w with
        | Some p => has_vector_operations b || contains_vector p
        | None => has_vector_operations b
        end)
       (if is_edge_structure_modification w then true else has_edge_operations b), Ok tt).

Definition has_modified_node (b : WriteBuffer) (n : NodeId) : bool :=
  bool_decide (is_Some (modified_nodes b !! n)).
Definition has_modified_edge (b : WriteBuffer) (e : EdgeId) : bool :=
  bool_decide (is_Some (modified_edges b !! e)).

(** The index [self.operations[index]] panics when out of range. *)
Definition get_node_write (b : WriteBuffer) (n : NodeId) : res Error (option BufferedWrite) :=
  match modified_nodes b !! n with
  | Some index => w ← expect (operations b !! index); Ok (Some w)
  | None => Ok None
  end.
Definition get_edge_write (b : WriteBuffer) (e : EdgeId) : res Error (option BufferedWrite) :=
  match modified_edges b !! e with
  | Some index => w ← expect (operations b !! index); Ok (Some w)
  | None => Ok None
  end.

Definition clear (b : WriteBuffer) : WriteBuffer :=
  mkBuffer [] ∅ ∅ (max_operations b) false false.

(** [impl From<&BufferedWrite> for WalOperation] *)
Definition to_wal (w : BufferedWrite) : Wal.WalOperation :=
  match w with
  | CreateNode n _ l p vf pr => Wal.CreateNode n l p vf pr
  | CreateEdge e _ s t l p vf pr => Wal.CreateEdge e s t l p vf pr
  | UpdateNode n v l p vf pr => Wal.UpdateNode n v l p vf pr
  | UpdateEdge e v _ _ l p vf pr => Wal.UpdateEdge e v l p vf pr
  | DeleteNode n vf pr => Wal.DeleteNode n vf None pr
  | DeleteEdge e vf pr => Wal.DeleteEdge e vf None pr
  | RetractNode n vt pr => Wal.RetractNode n vt None pr
  | RetractEdge e vt pr => Wal.RetractEdge e vt None pr
  end.
End WriteBuf.

Module TxLog.
Import Wal.

(** The loop of [log_operations_to_wal] that stamps the pre-generated tombstone
    ids on the deletes and retractions, in buffer order. *)
Fixpoint stamp_ops (buffered : list WriteBuf.BufferedWrite) (closing_ids : list VersionId) :
    list WalOperation :=
  match buffered with
  | [] => []
  | bw :: rest =>
      match WriteBuf.to_wal bw with
      | DeleteNode n vf _ pr => DeleteNode n vf (head closing_ids) pr :: stamp_ops rest (tail closing_ids)
      | DeleteEdge e vf _ pr => DeleteEdge e vf (head closing_ids) pr :: stamp_ops rest (tail closing_ids)
      | RetractNode n vt _ pr => RetractNode n vt (head closing_ids) pr :: stamp_ops rest (tail closing_ids)
      | RetractEdge e vt _ pr => RetractEdge e vt (head closing_ids) pr :: stamp_ops rest (tail closing_ids)
      | op => op :: stamp_ops rest closing_ids
      end
  end.

(** [BeginTx, ..data ops.., CommitTx]; the count is [buffered.len() as u32]. *)
Definition frame_operations (tx_id : Z) (buffered : list WriteBuf.BufferedWrite)
    (commit_timestamp : HybridTimestamp) (closing_version_ids : list VersionId) : list WalOperation :=
  BeginTx tx_id :: stamp_ops buffered closing_version_ids ++
    [CommitTx tx_id (Z.of_nat (length buffered) mod 2 ^ 32) commit_timestamp].

Section Append.
Context {St : Type} `{Interner St}.
Variable crc32 : bytes -> Z.

(** [ConcurrentWal::serialize_entry]; [timestamp] is what [time::now] returns. *)
Definition serialize_entry (st : St) (lsn : LSN) (timestamp : HybridTimestamp) (op : WalOperation) :
    res Error bytes :=
  let estimated_capacity := estimate_entry_capacity st op in
  if MAX_WAL_ENTRY_SIZE <? estimated_capacity
  then Err (EStorage (CapacityExceeded estimated_capacity MAX_WAL_ENTRY_SIZE))
  else serialize_operation_into crc32 st lsn timestamp op [].

Fixpoint serialize_all (st : St) (lsn : LSN) (now : list HybridTimestamp) (ops : list WalOperation) :
    res Error (list (LSN * bytes)) :=
  match ops, now with
  | [], _ => Ok []
  | op :: ops, t :: now =>
      data ← serialize_entry st lsn t op;
      rest ← serialize_all st (lsn + 1) now ops;
      Ok ((lsn, data) :: rest)
  | _ :: _, [] => Panic
  end.

(** The allocation and the serializing phase of [append_batch]: the allocator and
    the entries handed to the stripe. [now] has one reading per operation. *)
Definition append_batch (st : St) (a : Lsn.LsnAllocator) (now : list HybridTimestamp)
    (ops : list WalOperation) : Lsn.LsnAllocator * res Error (list (LSN * bytes)) :=
  match ops with
  | [] => (a, Ok [])
  | _ =>
      match Lsn.allocate_batch a (Z.of_nat (length ops)) with
      | (a', Ok (first_lsn, _)) => (a', serialize_all st first_lsn now ops)
      | (a', _) => (a', Panic)
      end
  end.

Definition log_operations_to_wal (st : St) (a : Lsn.LsnAllocator) (now : list HybridTimestamp)
    (tx_id : Z) (buffered : list WriteBuf.BufferedWrite) (commit_timestamp : HybridTimestamp)
    (closing_version_ids : list VersionId) : Lsn.LsnAllocator * res Error (list (LSN * bytes)) :=
  match buffered with
  | [] => (a, Ok [])
  | _ => append_batch st a now (frame_operations tx_id buffered commit_timestamp closing_version_ids)
  end.
End Append.
End TxLog.

Module Frames.
Import Wal.

Fixpoint lsns_contiguous (pending : list (LSN * WalOperation)) : bool :=
  match pending with
  | w0 :: ((w1 :: _) as rest) => (w1.1 =? u64_wrapping_add w0.1 1) && lsns_contiguous rest
  | _ => true
  end.

(** The [CommitTx] arm for an open frame: is the buffered band intact? *)
Definition frame_valid (open_id : Z) (begin_lsn : LSN) (pending : list (LSN * WalOperation))
    (tx_id entry_count : Z) (entry_lsn : LSN) : bool :=
  let brackets_ok :=
    bool_decide (fst <$> head pending = Some (u64_wrapping_add begin_lsn 1)) &&
    bool_decide ((fun p => u64_wrapping_add p.1 1) <$> last pending = Some entry_lsn) in
  (open_id =? tx_id) && (Z.of_nat (length pending) =? entry_count) &&
  lsns_contiguous pending && brackets_ok.

Fixpoint resolve_loop (entries : list WalEntry) (resolved : list (WalOperation * HybridTimestamp))
    (pending : list (LSN * WalOperation)) (open_tx : option (Z * LSN)) :
    list (WalOperation * HybridTimestamp) :=
  match entries with
  | [] => resolved
  | entry :: rest =>
      if negb (framed entry)
      then resolve_loop rest (resolved ++ [(operation entry, timestamp entry)]) pending open_tx
      else
        match operation entry with
        | BeginTx tx_id => resolve_loop rest resolved [] (Some (tx_id, lsn entry))
        | CommitTx tx_id entry_count commit_timestamp =>
            match open_tx with
            | None => resolve_loop rest resolved pending None
            | Some (open_id, begin_lsn) =>
                if frame_valid open_id begin_lsn pending tx_id entry_count (lsn entry)
                then resolve_loop rest
                       (resolved ++ map (fun p => (p.2, commit_timestamp)) pending) [] None
                else resolve_loop rest resolved [] None
            end
        | (Checkpoint _ _ | DeclareUniqueConstraint _ _ | DropUniqueConstraint _ _) as op =>
            resolve_loop rest (resolved ++ [(op, timestamp entry)]) [] None
        | op =>
            match open_tx with
            | Some _ => resolve_loop rest resolved (pending ++ [(lsn entry, op)]) open_tx
            | None => resolve_loop rest (resolved ++ [(op, timestamp entry)]) pending open_tx
            end
        end
  end.

Definition resolve_transaction_frames (entries : list WalEntry) :
    list (WalOperation * HybridTimestamp) := resolve_loop entries [] [] None.
End Frames.

(** ** The write buffer *)
Section BufferFacts.
Import WriteBuf.

(** The last write for which [f] gives [k], by position. *)
Definition last_write (f : BufferedWrite -> option Z) (k : Z) (ws : list BufferedWrite) :
    option BufferedWrite := last (filter (fun w => f w = Some k) ws).

Definition edge_key (w : BufferedWrite) : option EdgeId :=
  match node_id w with Some _ => None | None => edge_id w end.

(** The index map of one kind of entity: it points at the last write of each. *)
Definition indexes (f : BufferedWrite -> option Z) (m : gmap Z nat) (ws : list BufferedWrite) : Prop :=
  forall k, match m !! k with
            | Some i => ws !! i = last_write f k ws /\ (i < length ws)%nat
            | None => last_write f k ws = None
            end.

Definition buffer_wf (b : WriteBuffer) : Prop :=
  indexes node_id (modified_nodes b) (operations b) /\
  indexes edge_key (modified_edges b) (operations b) /\ len b <= max_operations b.

Lemma last_write_snoc f k ws w :
  last_write f k (ws ++ [w]) = if decide (f w = Some k) then Some w else last_write f k ws.
Proof.
  unfold last_write. rewrite filter_app, filter_cons, filter_nil. case_decide.
  - by rewrite last_snoc.
  - by rewrite app_nil_r.
Qed.

Lemma indexes_snoc f m ws w :
  indexes f m ws ->
  indexes f (match f w with Some k => <[k := length ws]> m | None => m end) (ws ++ [w]).
Proof.
  intros Hm k. specialize (Hm k). rewrite length_app. simpl. rewrite last_write_snoc.
  destruct (decide (f w = Some k)) as [E|E].
  - rewrite E, lookup_insert_eq. rewrite lookup_app_r, Nat.sub_diag by done. split; [done|lia].
  - assert (match f w with Some k => <[k := length ws]> m | None => m end !! k = m !! k) as ->.
    { destruct (f w) as [j|]; [|done]. rewrite lookup_insert_ne by congruence. done. }
    destruct (m !! k) as [i|]; [|done]. destruct Hm as [Hi Hl]. rewrite lookup_app_l by done.
    split; [done|lia].
Qed.

Lemma add_wf b w b' r : buffer_wf b -> add b w = (b', r) -> buffer_wf b'.
Proof.
  intros (Hn & He & Hl). unfold add. case_goal; intros [= <- <-]; [done|]. bool_to_prop.
  split_and!; simpl.
  - by apply indexes_snoc.
  - pose proof (indexes_snoc edge_key _ _ w He) as Hx. unfold edge_key in *.
    destruct (node_id w); [done|]. by destruct (edge_id w).
  - unfold len in *. simpl. rewrite length_app. simpl. lia.
Qed.

Lemma index_lookup f (m : gmap Z nat) ws k :
  indexes f m ws ->
  match m !! k with
  | Some i => w ← expect (ws !! i); Ok (Some w)
  | None => Ok None
  end = Ok (E := Error) (last_write f k ws).
Proof.
  intros Hm. specialize (Hm k). destruct (m !! k) as [i|]; [|by rewrite Hm].
  destruct Hm as [<- Hi]. by apply lookup_lt_is_Some_2 in Hi as [w ->].
Qed.

(** The writes of a sequence of [add] calls that the buffer accepts. *)
Fixpoint add_all (b : WriteBuffer) (ws : list BufferedWrite) : WriteBuffer :=
  match ws with [] => b | w :: ws => add_all (add b w).1 ws end.

Lemma add_all_spec b ws :
  buffer_wf b -> buffer_wf (add_all b ws) /\ max_operations (add_all b ws) = max_operations b /\
  operations (add_all b ws) =
    operations b ++ take (Z.to_nat (max_operations b) - length (operations b)) ws.
Proof.
  revert b. induction ws as [|w ws IH]; intros b Hb; simpl.
  { by rewrite take_nil, app_nil_r. }
  destruct (add b w) as [b' r] eqn:E. simpl. pose proof (add_wf _ _ _ _ Hb E) as Hb'.
  destruct (IH b' Hb') as (H1 & H2 & H3). split; [done|].
  unfold add in E. destruct Hb as (_ & _ & Hl). unfold len in *.
  destruct (max_operations b <=? Z.of_nat (length (operations b))) eqn:Ec;
    injection E as <- <-; bool_to_prop; simpl in *; (split; [done|]); rewrite H3.
  - by replace (Z.to_nat _ - length (operations b))%nat with 0%nat by lia.
  - destruct (Z.to_nat (max_operations b) - length (operations b))%nat as [|n] eqn:En; [lia|].
    rewrite length_app. simpl. replace (Z.to_nat _ - _)%nat with n by lia. by rewrite <-app_assoc.
Qed.
End BufferFacts.

Section BufferProperties.
Import WriteBuf.

(** Read-your-writes in a transaction: after any sequence of [add] calls on a
    fresh buffer, exactly the writes up to the limit are kept, in order, and the
    lookup by node or edge never indexes out of range and returns the last kept
    write of that entity. *)
Theorem write_buffer_last_write (limit : Z) (ws : list BufferedWrite) (n : NodeId) (e : EdgeId) :
  0 <= limit ->
  let b := add_all (with_max_operations limit) ws in
  operations b = take (Z.to_nat limit) ws /\
  get_node_write b n = Ok (last_write node_id n (operations b)) /\
  get_edge_write b e = Ok (last_write edge_key e (operations b)).
Proof.
  intros Hl b. destruct (add_all_spec (with_max_operations limit) ws) as ((Hn & He & _) & _ & Ho).
  { split_and!; [intros k; cbn; by rewrite lookup_empty..|done]. }
  simpl in Ho. rewrite Nat.sub_0_r in Ho. split; [done|]. fold b in Hn, He.
  split; by apply index_lookup.
Qed.
End BufferProperties.

(** ** Bands and their recovery *)
Section BandFacts.
Import Wal WalRead Frames TxLog.
Context {St : Type} `{Interner St}.
Variable crc32 : bytes -> Z.
Variable st : St.

(** The records of consecutive operations from [lsn] on, stamped one by one. *)
Fixpoint band (lsn : LSN) (now : list HybridTimestamp) (ops : list WalOperation) {struct ops} : list record :=
  match ops, now with
  | op :: ops, t :: now => (lsn, t, op) :: band (lsn + 1) now ops
  | _, _ => []
  end.

(** The buffered part of a band: its operations with their LSNs. *)
Fixpoint numbered (lsn : LSN) (ops : list WalOperation) : list (LSN * WalOperation) :=
  match ops with [] => [] | op :: ops => (lsn, op) :: numbered (lsn + 1) ops end.

Lemma numbered_length l ops : length (numbered l ops) = length ops.
Proof. revert l. induction ops as [|op ops IH]; intros l; simpl; auto. Qed.
Lemma numbered_effect {B} (f : WalOperation -> B) l ops :
  map (fun p => f p.2) (numbered l ops) = map f ops.
Proof. revert l. induction ops as [|op ops IH]; intros l; simpl; by rewrite ?IH. Qed.
Lemma numbered_snoc l ops op : numbered l (ops ++ [op]) = numbered l ops ++ [(l + Z.of_nat (length ops), op)].
Proof.
  revert l. induction ops as [|x ops IH]; intros l; simpl; [by rewrite Z.add_0_r|].
  rewrite IH. do 4 f_equal. lia.
Qed.

Lemma wrapping_succ l : 0 <= l < u64_max -> u64_wrapping_add l 1 = l + 1.
Proof. intros. unfold u64_wrapping_add. rewrite Z.mod_small; mlia. Qed.

Lemma numbered_contiguous l ops :
  0 <= l -> l + Z.of_nat (length ops) <= u64_max -> lsns_contiguous (numbered l ops) = true.
Proof.
  revert l. induction ops as [|x ops IH]; intros l Hl Hu; simpl; [done|].
  simpl in Hu. destruct ops as [|y ops]; [done|]. cbn [numbered].
  change ((l + 1, y) :: numbered (l + 1 + 1) ops) with (numbered (l + 1) (y :: ops)).
  rewrite IH by lia. simpl. rewrite wrapping_succ, Z.eqb_refl by (simpl in *; lia). done.
Qed.

Lemma numbered_valid tx l ops :
  0 <= l -> ops <> [] -> l + Z.of_nat (length ops) + 1 <= u64_max ->
  frame_valid tx l (numbered (l + 1) ops) tx (Z.of_nat (length ops)) (l + Z.of_nat (length ops) + 1) = true.
Proof.
  intros Hl Hne Hu. unfold frame_valid.
  rewrite numbered_length, !Z.eqb_refl, numbered_contiguous by lia. simpl.
  destruct ops as [|x ops0] eqn:E0 using rev_ind; [done|]. clear IHops0.
  rewrite length_app in *. simpl length in *. apply andb_true_iff. split; apply bool_decide_eq_true.
  - rewrite wrapping_succ by lia. by destruct ops0.
  - rewrite numbered_snoc, last_snoc. simpl. rewrite wrapping_succ by lia. f_equal. lia.
Qed.

Definition is_control (op : WalOperation) : bool :=
  match op with
  | Checkpoint _ _ | DeclareUniqueConstraint _ _ | DropUniqueConstraint _ _ => true
  | _ => false
  end.
Definition is_data (op : WalOperation) : bool :=
  match op with BeginTx _ | CommitTx _ _ _ => false | _ => negb (is_control op) end.

Lemma stamp_ops_data ws ids : Forall (fun op => is_data op = true) (stamp_ops ws ids).
Proof.
  revert ids. induction ws as [|w ws IH]; intros ids; simpl; [constructor|].
  destruct w; simpl; constructor; auto.
Qed.
Lemma stamp_ops_length ws ids : length (stamp_ops ws ids) = length ws.
Proof.
  revert ids. induction ws as [|w ws IH]; intros ids; simpl; [done|].
  destruct w; simpl; by rewrite IH.
Qed.

Lemma band_length l now ops : length now = length ops -> length (band l now ops) = length ops.
Proof.
  revert l now. induction ops as [|op ops IH]; intros l [|t now] E; simpl in *; try done.
  by rewrite IH by lia.
Qed.

Lemma band_app l now ops1 ops2 :
  length now = length (ops1 ++ ops2) ->
  band l now (ops1 ++ ops2) =
    band l (take (length ops1) now) ops1 ++ band (l + Z.of_nat (length ops1)) (drop (length ops1) now) ops2.
Proof.
  revert l now. induction ops1 as [|op ops1 IH]; intros l now E.
  { cbn [app length take drop band Z.of_nat]. by rewrite Z.add_0_r. }
  destruct now as [|t now]; [done|]. simpl in *. rewrite IH by lia. do 3 f_equal. lia.
Qed.

(** *** The resolver on a band *)
Variable v : Z.
Hypothesis v_framed : is_framed_version v = true.
Abbreviation ent := (rec_entry crc32 st v).

Lemma loop_begin l t tx rest resolved pending open :
  resolve_loop (ent (l, t, BeginTx tx) :: rest) resolved pending open =
  resolve_loop rest resolved [] (Some (tx, l)).
Proof. cbn. by rewrite v_framed. Qed.

Lemma loop_commit l t tx n ts rest resolved pending b :
  resolve_loop (ent (l, t, CommitTx tx n ts) :: rest) resolved pending (Some (tx, b)) =
  resolve_loop rest (resolved ++ if frame_valid tx b pending tx n l
                                 then map (fun p => (p.2, ts)) pending else []) [] None.
Proof. cbn [resolve_loop]. cbn. rewrite v_framed. cbn. case_match; by rewrite ?app_nil_r. Qed.

Lemma loop_data l t op rest resolved pending o :
  is_data op = true ->
  resolve_loop (ent (l, t, op) :: rest) resolved pending (Some o) =
  resolve_loop rest resolved (pending ++ [(l, op)]) (Some o).
Proof. intros. destruct op; try done; cbn; by rewrite v_framed. Qed.

Lemma loop_control l t op rest resolved pending open :
  is_control op = true ->
  resolve_loop (ent (l, t, op) :: rest) resolved pending open =
  resolve_loop rest (resolved ++ [(op, t)]) [] None.
Proof. intros. destruct op; try done; cbn; by rewrite v_framed. Qed.

Lemma resolve_data l now ops rest resolved pending tx b :
  Forall (fun op => is_data op = true) ops -> length now = length ops ->
  resolve_loop (map ent (band l now ops) ++ rest) resolved pending (Some (tx, b)) =
  resolve_loop rest resolved (pending ++ numbered l ops) (Some (tx, b)).
Proof.
  intros Hd. revert l now pending. induction Hd as [|op ops Ho _ IH]; intros l [|t now] pending E;
    simpl in E; try done; cbn [band map app numbered]; [by rewrite app_nil_r|].
  rewrite loop_data by done. rewrite IH by lia. by rewrite <-app_assoc.
Qed.

Definition frame_effect (ops : list WalOperation) (ts : HybridTimestamp) :
    list (WalOperation * HybridTimestamp) := map (fun op => (op, ts)) ops.

(** A whole band commits its operations at the marker's time, whatever was open. *)
Lemma resolve_band l now tx ops ts rest resolved pending open :
  0 <= l -> l + Z.of_nat (length ops) + 1 <= u64_max ->
  Forall (fun op => is_data op = true) ops -> length now = (length ops + 2)%nat ->
  resolve_loop (map ent (band l now (BeginTx tx :: ops ++ [CommitTx tx (Z.of_nat (length ops)) ts])) ++ rest)
    resolved pending open =
  resolve_loop rest (resolved ++ frame_effect ops ts) [] None.
Proof.
  intros Hl Hu Hd E. destruct now as [|t0 now]; [simpl in E; lia|]. simpl in E.
  cbn [band map app]. rewrite loop_begin.
  rewrite band_app by (rewrite length_app; simpl; lia). rewrite map_app, <-app_assoc.
  rewrite resolve_data by (done || (rewrite length_take; lia)).
  destruct (drop (length ops) now) as [|t1 now1] eqn:Ed.
  { apply (f_equal length) in Ed. rewrite length_drop in Ed. simpl in Ed. lia. }
  cbn [band map app]. rewrite loop_commit. unfold frame_effect.
  destruct ops as [|op ops]; [by destruct (frame_valid _ _ _ _ _ _)|].
  replace (l + 1 + Z.of_nat (length (op :: ops))) with (l + Z.of_nat (length (op :: ops)) + 1) by lia.
  rewrite numbered_valid by done. f_equal. f_equal.
  apply (numbered_effect (fun op => (op, ts))).
Qed.

(** A proper prefix of a band has no effect. *)
Lemma resolve_prefix l now tx ops ts k rest resolved pending open :
  (k < length ops + 2)%nat ->
  Forall (fun op => is_data op = true) ops -> length now = (length ops + 2)%nat ->
  exists pending' open',
  resolve_loop (map ent (take k (band l now (BeginTx tx :: ops ++ [CommitTx tx (Z.of_nat (length ops)) ts]))) ++ rest)
    resolved pending open = resolve_loop rest resolved pending' open'.
Proof.
  intros Hk Hd E. destruct now as [|t0 now]; [simpl in E; lia|]. simpl in E.
  cbn [band]. destruct k as [|k]; [by exists pending, open|]. cbn [take map app]. rewrite loop_begin.
  rewrite band_app by (rewrite length_app; simpl; lia).
  rewrite take_app_le by (rewrite band_length; [lia|rewrite length_take; lia]).
  assert (take k (band (l + 1) (take (length ops) now) ops) =
            band (l + 1) (take k now) (take k ops)) as ->.
  { assert (length (take (length ops) now) = length ops) as El by (rewrite length_take; lia).
    assert (take k now = take k (take (length ops) now)) as -> by (rewrite take_take; f_equal; lia).
    revert El. generalize (take (length ops) now) (l + 1). clear. revert k.
    induction ops as [|op ops IH]; intros [|k] [|t now] l E; simpl in *; try done. by rewrite IH by lia. }
  rewrite resolve_data; [by eauto|by apply Forall_take|].
  rewrite !length_take. lia.
Qed.

(** *** What a crash leaves *)

(** A durable item of the log: of a transaction's band the first [k] entries (a
    stripe is a queue, so a drain takes a prefix), or one self-committing
    operation. *)
Inductive item :=
  | Txn (base : LSN) (now : list HybridTimestamp) (tx_id : Z) (buffered : list WriteBuf.BufferedWrite)
      (commit_timestamp : HybridTimestamp) (closing : list VersionId) (k : nat)
  | Control (r : record).

Definition item_records (i : item) : list record :=
  match i with
  | Txn base now tx ws ts closing k => take k (band base now (frame_operations tx ws ts closing))
  | Control r => [r]
  end.

Definition item_ok (i : item) : Prop :=
  match i with
  | Txn base now tx ws ts closing k =>
      0 <= base /\ base + Z.of_nat (length ws) + 1 <= u64_max /\
      Z.of_nat (length ws) < 2 ^ 32 /\ length now = (length ws + 2)%nat
  | Control r => is_control r.2 = true
  end.

(** All or nothing: a band takes effect, at its commit time, iff its last entry
    (the commit marker) is durable. *)
Definition item_effect (i : item) : list (WalOperation * HybridTimestamp) :=
  match i with
  | Txn _ _ _ ws ts closing k =>
      if (k <? length ws + 2)%nat then [] else frame_effect (stamp_ops ws closing) ts
  | Control r => [(r.2, r.1.2)]
  end.

Definition log_records (items : list item) : list record := concat (map item_records items).
Definition log_effect (items : list item) : list (WalOperation * HybridTimestamp) :=
  concat (map item_effect items).

Lemma resolve_item i rest resolved pending open :
  item_ok i -> exists pending' open',
  resolve_loop (map ent (item_records i) ++ rest) resolved pending open =
  resolve_loop rest (resolved ++ item_effect i) pending' open'.
Proof.
  destruct i as [base now tx ws ts closing k|[[l t] op]]; cbn [item_ok item_records item_effect].
  - intros (Hb & Hu & Hn & Hl). unfold frame_operations. rewrite Z.mod_small by lia.
    rewrite <-(stamp_ops_length ws closing) in *. pose proof (stamp_ops_data ws closing) as Hd.
    revert Hb Hu Hn Hl Hd. generalize (stamp_ops ws closing). intros ops Hb Hu Hn Hl Hd.
    destruct (k <? length ops + 2)%nat eqn:Ek.
    + apply Nat.ltb_lt in Ek. rewrite app_nil_r. by apply resolve_prefix.
    + apply Nat.ltb_ge in Ek. rewrite take_ge.
      * rewrite resolve_band by done. by eexists _, _.
      * rewrite band_length; simpl; rewrite length_app; simpl; lia.
  - intros Hc. cbn [map app]. rewrite loop_control by done. by eexists _, _.
Qed.

Lemma resolve_items items resolved pending open :
  Forall item_ok items ->
  resolve_loop (map ent (log_records items)) resolved pending open = resolved ++ log_effect items.
Proof.
  intros Hi. revert resolved pending open. unfold log_records, log_effect.
  induction Hi as [|i items Ho _ IH]; intros resolved pending open; simpl; [by rewrite app_nil_r|].
  rewrite map_app. destruct (resolve_item i (map ent (concat (map item_records items)))
    resolved pending open Ho) as (p & o & ->). by rewrite IH, <-app_assoc.
Qed.
End BandFacts.

Definition rec_lsn (r : record) : Wal.LSN := r.1.1.

Section SortedLog.
Import Wal WalRead Segment.
Context {St : Type} `{Interner St}.
Variable crc32 : bytes -> Z.
Variable st : St.
Abbreviation ent := (rec_entry crc32 st WAL_VERSION_STRING_LABELS).

Lemma sorted_entries_inj rs x y :
  StronglySorted Z.lt (map rec_lsn rs) ->
  x ∈ map ent rs -> y ∈ map ent rs -> Wal.lsn x = Wal.lsn y -> x = y.
Proof.
  induction rs as [|r rs IH]; intros Hs Hx Hy E; [by apply not_elem_of_nil in Hx|].
  cbn [map] in *. apply StronglySorted_inv in Hs as [Hs Hf].
  apply (Stdlib.Lists.List.Forall_map rec_lsn) in Hf. rewrite Forall_forall in Hf.
  assert (forall z, z ∈ map ent rs -> rec_lsn r < Wal.lsn z) as Hlt.
  { intros z Hz. apply list_elem_of_In, in_map_iff in Hz as (r' & <- & Hr').
    apply (Hf r'). by apply list_elem_of_In. }
  apply elem_of_cons in Hx. apply elem_of_cons in Hy.
  destruct Hx as [->|Hx], Hy as [->|Hy]; auto; apply Hlt in Hx || apply Hlt in Hy; unfold rec_lsn in *; simpl in *; lia.
Qed.

(** The entries read at or above [start], sorted, are those of the sorted suffix. *)
Lemma sort_entries_of start rss below above_ :
  concat rss ≡ₚ below ++ above_ ->
  Forall (fun r => rec_lsn r < start) below ->
  Forall (fun r => start <= rec_lsn r) above_ ->
  StronglySorted Z.lt (map rec_lsn above_) ->
  sort_by_key Wal.lsn (entries_of crc32 st start rss) = map ent above_.
Proof.
  intros Hp Hb Ha Hs.
  assert (sort_by_key Wal.lsn (entries_of crc32 st start rss) ≡ₚ map ent above_) as Hps.
  { rewrite sort_by_key_perm. unfold entries_of, wanted. rewrite Hp, map_app, filter_app.
    rewrite (filter_none _ (map ent below)), (filter_all _ (map ent above_)); [done|..].
    - apply (Stdlib.Lists.List.Forall_map ent). eapply Forall_impl; [exact Ha|]. done.
    - apply (Stdlib.Lists.List.Forall_map ent). eapply Forall_impl; [exact Hb|]. unfold rec_lsn. intros r Hr.
      cbn in *. lia. }
  apply (StronglySorted_unique_strong (fun a b => Wal.lsn a <= Wal.lsn b)); [| | |done].
  - intros x y Hx Hy Hxy Hyx. rewrite Hps in Hx. apply (sorted_entries_inj above_); [done..|lia].
  - apply sort_by_key_sorted.
  - clear -Hs. induction above_ as [|x l IH]; [constructor|]. cbn [map] in *.
    apply StronglySorted_inv in Hs as [? Hf]. apply (Stdlib.Lists.List.Forall_map rec_lsn) in Hf.
    constructor; [by apply IH|]. apply (Stdlib.Lists.List.Forall_map ent). eapply Forall_impl; [exact Hf|].
    unfold rec_lsn. intros r Hr. cbn in *. lia.
Qed.
End SortedLog.

Section FrameProperties.
Import Crypt Wal WalRead Segment Frames TxLog.
Context {St : Type} `{Interner St}.
Variable crc32 : bytes -> Z.
Hypothesis crc32_u32 : forall b, in_u32 (crc32 b).


End FrameProperties.

Module FrameWitness.
Import Crypt Wal WalRead Segment Frames TxLog.
Import MapWitness CryptWitness LogWitness.

Definition ws0 : list WriteBuf.BufferedWrite :=
  [WriteBuf.CreateNode 3 1 0 props0 ts0 (Some prov0); WriteBuf.DeleteNode 3 ts0 None].

Lemma write_buffer_witness :
  WriteBuf.get_node_write (add_all (WriteBuf.with_max_operations 2) (ws0 ++ ws0)) 3 =
    Ok (Some (WriteBuf.DeleteNode 3 ts0 None)).
Proof.
  assert (0 <= 2) as Hl by lia.
  destruct (write_buffer_last_write 2 (ws0 ++ ws0) 3 0 Hl) as (Ho & -> & _).
  rewrite Ho. reflexivity.
Defined.


(** A committed transaction, and the first entry of a second one. *)
Definition items0 : list item :=
  [Txn 7 [ts0; ts0; ts0; ts0] 9 ws0 ts0 [4] 4; Txn 11 [ts0; ts0; ts0; ts0] 10 ws0 ts0 [5] 1].
Definition rs3 : list record := rs2 ++ [(11, ts0, BeginTx 10)].
Definition torn3 : option bytes := Some (segment_header None ++ log_bytes crc0 st0 rs3 ++ take 9 log0).
Lemma rs3_ok : Forall (rec_ok st0) rs3.
Proof.
  apply Forall_app. split; [apply rs2_ok|]. apply Forall_cons_2; [|constructor].
  split; [simpl; mlia|]. split; [apply ts0_valid|]. simpl. mlia.
Qed.
Lemma torn3_torn : segment_torn crc0 st0 torn3 rs3.
Proof.
  exists (take 9 log0).
  split; [reflexivity|]. split; [by vm_compute|]. split; [split; by vm_compute|by vm_compute].
Qed.

End FrameWitness.
