(* ===== verification/TemporalIndex.v ===== *)
(** * Temporal indexes: [src/index/temporal/mod.rs]

    Per entity, two timelines sorted by start, one over valid time and one over
    transaction time, that share the metadata of the versions; point and range
    queries, closing of open ends, batch insertion with its duplicate policies, and
    the extent maintained on every write.  [debug_assert!] is off, as in a release
    build.  The locks of an entity and of the extent make every operation two atomic
    steps; here it is one. *)

From S2P Require Import Prelude.
From S2P Require Import SliceOps.
From S2P Require Import Errors.
From S2P Require Import Hlc.
From S2P Require Import Temporal.
From S2P Require Import Ids.

#[global] Instance EntityId_countable : Countable EntityId.
Proof.
  refine (inj_countable' (fun e => match e with ENode n => inl n | EEdge n => inr n end)
            (fun s => match s with inl n => ENode n | inr n => EEdge n end) _). by intros [].
Defined.

Module TIdx.
Import Search Sort.

Definition ts_min (a b : HybridTimestamp) : HybridTimestamp := if ts_leb a b then a else b.
Definition ts_max (a b : HybridTimestamp) : HybridTimestamp := if ts_leb a b then b else a.

(** ** The extent *)
Record ExtentAggregate := mkExtent {
  valid_earliest : option HybridTimestamp;
  valid_latest : option HybridTimestamp;
  tx_earliest : option HybridTimestamp;
  tx_latest : option HybridTimestamp }.
Definition empty_extent : ExtentAggregate := mkExtent None None None None.

Definition opt_min (o : option HybridTimestamp) (t : HybridTimestamp) : option HybridTimestamp :=
  Some (match o with Some e => ts_min e t | None => t end).
Definition opt_max (o : option HybridTimestamp) (t : HybridTimestamp) : option HybridTimestamp :=
  Some (match o with Some l => ts_max l t | None => t end).

(** [observe_range] on one dimension *)
Definition observe_range (d : option HybridTimestamp * option HybridTimestamp) (start end_ : HybridTimestamp) :
    option HybridTimestamp * option HybridTimestamp :=
  let candidate := if ts_eqb end_ TIMESTAMP_MAX then start else end_ in
  (opt_min d.1 start, opt_max d.2 candidate).
Definition observe_interval (x : ExtentAggregate) (i : BiTemporalInterval) : ExtentAggregate :=
  let v := observe_range (valid_earliest x, valid_latest x) (start (valid_time i)) (end_ (valid_time i)) in
  let t := observe_range (tx_earliest x, tx_latest x) (start (transaction_time i)) (end_ (transaction_time i)) in
  mkExtent v.1 v.2 t.1 t.2.
Definition merge_dim (d o : option HybridTimestamp * option HybridTimestamp) :
    option HybridTimestamp * option HybridTimestamp :=
  (match o.1 with Some e => opt_min d.1 e | None => d.1 end,
   match o.2 with Some l => opt_max d.2 l | None => d.2 end).
Definition merge (x o : ExtentAggregate) : ExtentAggregate :=
  let v := merge_dim (valid_earliest x, valid_latest x) (valid_earliest o, valid_latest o) in
  let t := merge_dim (tx_earliest x, tx_latest x) (tx_earliest o, tx_latest o) in
  mkExtent v.1 v.2 t.1 t.2.
Definition observe_closed_end (latest : option HybridTimestamp) (new_end : HybridTimestamp) : option HybridTimestamp :=
  if ts_eqb new_end TIMESTAMP_MAX then latest else opt_max latest new_end.

(** ** One timeline *)
Inductive DeduplicationPolicy := FirstOccurrence | LastOccurrence | Reject.
#[export] Instance policy_eq_dec : EqDecision DeduplicationPolicy.
Proof. solve_decision. Defined.

Record TimelineEntry := mkEntry {
  entry_start : HybridTimestamp;
  entry_end : HybridTimestamp;
  metadata_idx : Z }.
Record EntityTimeline := mkTimeline {
  versions : list TimelineEntry;
  metadata_to_position : gmap Z nat }.
Definition empty_timeline : EntityTimeline := mkTimeline [] ∅.

(** [(start, metadata_idx)], compared as a tuple *)
Definition key_ltb (a b : TimelineEntry) : bool :=
  ts_ltb (entry_start a) (entry_start b) ||
  (ts_eqb (entry_start a) (entry_start b) && (metadata_idx a <? metadata_idx b)).
Definition key_leb (a b : TimelineEntry) : bool := negb (key_ltb b a).

(** The positions of the entries of [l] from [pos] on. *)
Fixpoint record_positions (pos : nat) (l : list TimelineEntry) (m : gmap Z nat) : gmap Z nat :=
  match l with
  | [] => m
  | e :: l => record_positions (S pos) l (<[metadata_idx e := pos]> m)
  end.

Definition insert (tl : EntityTimeline) (start end_ : HybridTimestamp) (idx : Z) : EntityTimeline :=
  let entry := mkEntry start end_ idx in
  if match last (versions tl) with Some l => key_leb l entry | None => true end
  then mkTimeline (versions tl ++ [entry]) (<[idx := length (versions tl)]> (metadata_to_position tl))
  else
    let i := partition_point (fun e => key_ltb e entry) (versions tl) in
    let vs := take i (versions tl) ++ entry :: drop i (versions tl) in
    mkTimeline vs (<[idx := i]> (record_positions (S i) (drop (S i) vs) (metadata_to_position tl))).

Definition rebuild_position_map (vs : list TimelineEntry) : EntityTimeline :=
  mkTimeline vs (record_positions 0 vs ∅).

Definition set_end (t : HybridTimestamp) (e : TimelineEntry) : TimelineEntry := mkEntry (entry_start e) t (metadata_idx e).
Definition update_end_time (tl : EntityTimeline) (idx : Z) (new_end : HybridTimestamp) : EntityTimeline * bool :=
  match metadata_to_position tl !! idx with
  | Some position =>
      match versions tl !! position with
      | Some entry => (mkTimeline (<[position := set_end new_end entry]> (versions tl)) (metadata_to_position tl), true)
      | None => (tl, false)
      end
  | None => (tl, false)
  end.

(** [retain(|entry| seen.insert(entry.metadata_idx))] *)
Fixpoint retain_unseen (seen : gset Z) (l : list TimelineEntry) : list TimelineEntry :=
  match l with
  | [] => []
  | e :: l => if bool_decide (metadata_idx e ∈ seen) then retain_unseen seen l
              else e :: retain_unseen ({[metadata_idx e]} ∪ seen) l
  end.
(** The first index the batch repeats. *)
Fixpoint repeated (seen : gset Z) (l : list TimelineEntry) : option Z :=
  match l with
  | [] => None
  | e :: l => if bool_decide (metadata_idx e ∈ seen) then Some (metadata_idx e)
              else repeated ({[metadata_idx e]} ∪ seen) l
  end.
Definition insert_batch (tl : EntityTimeline) (entries : list TimelineEntry) (policy : DeduplicationPolicy) :
    EntityTimeline * res Error unit :=
  if bool_decide (entries = []) then (tl, Ok tt)
  else
    let reject := if bool_decide (policy = Reject)
                  then match repeated ∅ entries with
                       | Some idx => Some idx
                       | None => head (filter (fun idx => is_Some (metadata_to_position tl !! idx)) (List.map metadata_idx entries))
                       end
                  else None in
    match reject with
    | Some idx => (tl, Err (EStorage (DuplicateId idx)))
    | None =>
        let sorted := sort_by key_leb (versions tl ++ entries) in
        (rebuild_position_map
           (match policy with
            | FirstOccurrence => retain_unseen ∅ sorted
            | LastOccurrence => reverse (retain_unseen ∅ (reverse sorted))
            | Reject => sorted
            end), Ok tt)
    end.

Definition find_indices_in_range (tl : EntityTimeline) (range : TimeRange) : list Z :=
  let cutoff := partition_point (fun e => ts_ltb (entry_start e) (end_ range)) (versions tl) in
  List.map metadata_idx (filter (fun e => ts_ltb (start range) (entry_end e) = true) (take cutoff (versions tl))).
Definition find_indices_at_point (tl : EntityTimeline) (t : HybridTimestamp) : list Z :=
  let cutoff := partition_point (fun e => ts_leb (entry_start e) t) (versions tl) in
  List.map metadata_idx (filter (fun e => ts_ltb t (entry_end e) = true) (take cutoff (versions tl))).

(** ** One entity *)
Record EntityTimelines := mkTimelines {
  version_metadata : list VersionId;
  version_id_to_idx : gmap VersionId Z;
  valid : EntityTimeline;
  tx : EntityTimeline }.
Definition empty_timelines : EntityTimelines := mkTimelines [] ∅ empty_timeline empty_timeline.
Definition with_valid tl t : EntityTimelines := mkTimelines (version_metadata t) (version_id_to_idx t) tl (tx t).
Definition with_tx tl t : EntityTimelines := mkTimelines (version_metadata t) (version_id_to_idx t) (valid t) tl.

Definition version_metadata_count (t : EntityTimelines) : Z := Z.of_nat (length (version_metadata t)).
Definition add_version_metadata (t : EntityTimelines) (v : VersionId) : EntityTimelines * res Error Z :=
  let index := version_metadata_count t in
  if u32_max <? index then (t, Err (EStorage (CapacityExceeded index u32_max)))
  else (mkTimelines (version_metadata t ++ [v]) (<[v := index]> (version_id_to_idx t)) (valid t) (tx t), Ok index).
Definition resolve_version_id (t : EntityTimelines) (idx : Z) : res Error VersionId :=
  expect (version_metadata t !! Z.to_nat idx).
Definition resolve_version_ids (t : EntityTimelines) (indices : list Z) : res Error (list VersionId) :=
  mapM (resolve_version_id t) indices.
Definition find_metadata_index (t : EntityTimelines) (v : VersionId) : option Z := version_id_to_idx t !! v.

Definition update_valid_time_end (t : EntityTimelines) (v : VersionId) (new_end : HybridTimestamp) : EntityTimelines * bool :=
  match find_metadata_index t v with
  | Some idx => let '(tl, b) := update_end_time (valid t) idx new_end in (with_valid tl t, b)
  | None => (t, false)
  end.
Definition update_transaction_time_end (t : EntityTimelines) (v : VersionId) (new_end : HybridTimestamp) : EntityTimelines * bool :=
  match find_metadata_index t v with
  | Some idx => let '(tl, b) := update_end_time (tx t) idx new_end in (with_tx tl t, b)
  | None => (t, false)
  end.

(** ** All entities *)
Record TemporalIndexes := mkIndexes {
  index : gmap EntityId EntityTimelines;
  max_versions_per_entity : Z;
  extent_aggregate : ExtentAggregate }.
Definition with_config (max_versions : Z) : TemporalIndexes := mkIndexes ∅ max_versions empty_extent.
Definition new : TemporalIndexes := with_config 1000000.
Definition set_timelines (e : EntityId) (t : EntityTimelines) (s : TemporalIndexes) : TemporalIndexes :=
  mkIndexes (<[e := t]> (index s)) (max_versions_per_entity s) (extent_aggregate s).
Definition set_extent (x : ExtentAggregate) (s : TemporalIndexes) : TemporalIndexes :=
  mkIndexes (index s) (max_versions_per_entity s) x.

(** [self.index.entry(entity_id).or_default()]: the entry stays, whatever follows. *)
Definition insert_version (e : EntityId) (v : VersionId) (i : BiTemporalInterval) : SM TemporalIndexes Error unit := fun s =>
  let t := default empty_timelines (index s !! e) in
  let s := set_timelines e t s in
  let current_count := version_metadata_count t in
  if max_versions_per_entity s <=? current_count
  then (s, Err (EStorage (CapacityExceeded current_count (max_versions_per_entity s))))
  else if bool_decide (is_Some (find_metadata_index t v)) then (s, Err (EStorage (DuplicateId v)))
  else
    match add_version_metadata t v with
    | (t, Ok idx) =>
        let t := with_valid (insert (valid t) (start (valid_time i)) (end_ (valid_time i)) idx) t in
        let t := with_tx (insert (tx t) (start (transaction_time i)) (end_ (transaction_time i)) idx) t in
        (set_extent (observe_interval (extent_aggregate s) i) (set_timelines e t s), Ok tt)
    | (t, Err err) => (set_timelines e t s, Err err)
    | (t, Panic) => (set_timelines e t s, Panic)
    end.

(** The loop of [insert_versions_batch]. *)
Fixpoint batch_loop (vs : list (VersionId * BiTemporalInterval)) (seen : gmap VersionId Z) (t : EntityTimelines)
    (valid_entries tx_entries : list TimelineEntry) (x : ExtentAggregate) :
    EntityTimelines * res Error (list TimelineEntry * list TimelineEntry * ExtentAggregate) :=
  match vs with
  | [] => (t, Ok (valid_entries, tx_entries, x))
  | (v, i) :: vs =>
      let '(t, r) := match seen !! v with
                     | Some idx => (t, Ok idx)
                     | None => match find_metadata_index t v with
                               | Some idx => (t, Ok idx)
                               | None => add_version_metadata t v
                               end
                     end in
      match r with
      | Ok idx =>
          batch_loop vs (<[v := idx]> seen) t
            (valid_entries ++ [mkEntry (start (valid_time i)) (end_ (valid_time i)) idx])
            (tx_entries ++ [mkEntry (start (transaction_time i)) (end_ (transaction_time i)) idx])
            (observe_interval x i)
      | Err err => (t, Err err)
      | Panic => (t, Panic)
      end
  end.
Definition insert_versions_batch (e : EntityId) (vs : list (VersionId * BiTemporalInterval)) (policy : DeduplicationPolicy) :
    SM TemporalIndexes Error unit := fun s =>
  if bool_decide (vs = []) then (s, Ok tt)
  else
    let t := default empty_timelines (index s !! e) in
    let new_count := version_metadata_count t + Z.of_nat (length vs) in
    if max_versions_per_entity s <? new_count
    then (set_timelines e t s, Err (EStorage (CapacityExceeded new_count (max_versions_per_entity s))))
    else
      match batch_loop vs ∅ t [] [] empty_extent with
      | (t, Ok (valid_entries, tx_entries, batch_extent)) =>
          match insert_batch (valid t) valid_entries policy with
          | (tl, Ok _) =>
              let t := with_valid tl t in
              match insert_batch (tx t) tx_entries policy with
              | (tl, Ok _) => (set_extent (merge (extent_aggregate s) batch_extent) (set_timelines e (with_tx tl t) s), Ok tt)
              | (tl, r) => (set_timelines e (with_tx tl t) s, r)
              end
          | (tl, r) => (set_timelines e (with_valid tl t) s, r)
          end
      | (t, Err err) => (set_timelines e t s, Err err)
      | (t, Panic) => (set_timelines e t s, Panic)
      end.

Definition update_entity_valid_time_end (e : EntityId) (v : VersionId) (new_end : HybridTimestamp) (s : TemporalIndexes) :
    TemporalIndexes :=
  match index s !! e with
  | Some t =>
      let '(t, updated) := update_valid_time_end t v new_end in
      let s := set_timelines e t s in
      let x := extent_aggregate s in
      if updated then set_extent (mkExtent (valid_earliest x) (observe_closed_end (valid_latest x) new_end)
                                    (tx_earliest x) (tx_latest x)) s else s
  | None => s
  end.
Definition update_entity_transaction_time_end (e : EntityId) (v : VersionId) (new_end : HybridTimestamp)
    (s : TemporalIndexes) : TemporalIndexes :=
  match index s !! e with
  | Some t =>
      let '(t, updated) := update_transaction_time_end t v new_end in
      let s := set_timelines e t s in
      let x := extent_aggregate s in
      if updated then set_extent (mkExtent (valid_earliest x) (valid_latest x) (tx_earliest x)
                                    (observe_closed_end (tx_latest x) new_end)) s else s
  | None => s
  end.

Definition insert_node_version (n : NodeId) := insert_version (ENode n).
Definition insert_edge_version (n : EdgeId) := insert_version (EEdge n).
Definition insert_node_versions_batch (n : NodeId) vs := insert_versions_batch (ENode n) vs FirstOccurrence.
Definition insert_edge_versions_batch (n : EdgeId) vs := insert_versions_batch (EEdge n) vs FirstOccurrence.

(** ** Queries *)
Definition find_versions_in_valid_time_range (s : TemporalIndexes) (e : EntityId) (range : TimeRange) :
    res Error (list VersionId) :=
  match index s !! e with
  | Some t => resolve_version_ids t (find_indices_in_range (valid t) range)
  | None => Ok []
  end.
Definition find_versions_in_transaction_time_range (s : TemporalIndexes) (e : EntityId) (range : TimeRange) :
    res Error (list VersionId) :=
  match index s !! e with
  | Some t => resolve_version_ids t (find_indices_in_range (tx t) range)
  | None => Ok []
  end.

(** Both branches of [intersect_metadata_indices] for short lists, and the hashed one. *)
Definition intersect_metadata_indices (a b : list Z) : list Z :=
  let max_len := Nat.max (length a) (length b) in
  if bool_decide (max_len < 16)%nat then
    if bool_decide (length a <= length b)%nat then filter (fun v => v ∈ b) a
    else filter (fun v => v ∈ a) b
  else
    let b_set : gset Z := list_to_set b in
    filter (fun v => v ∈ b_set) a.
Definition find_version_at_point (s : TemporalIndexes) (e : EntityId) (vt tt : HybridTimestamp) : res Error (list VersionId) :=
  match index s !! e with
  | Some t =>
      resolve_version_ids t
        (intersect_metadata_indices (find_indices_at_point (valid t) vt) (find_indices_at_point (tx t) tt))
  | None => Ok []
  end.

Definition extent (s : TemporalIndexes) : option (HybridTimestamp * HybridTimestamp * HybridTimestamp * HybridTimestamp) :=
  let x := extent_aggregate s in
  match valid_earliest x, valid_latest x, tx_earliest x, tx_latest x with
  | Some a, Some b, Some c, Some d => Some (a, b, c, d)
  | _, _, _, _ => None
  end.
Definition merge_extent_bounds (a b c d : option HybridTimestamp) (s : TemporalIndexes) : TemporalIndexes :=
  set_extent (merge (extent_aggregate s) (mkExtent a b c d)) s.
Definition version_count (s : TemporalIndexes) : Z :=
  foldr (fun p acc => version_metadata_count p.2 + acc) 0 (map_to_list (index s)).
Definition entity_ids (s : TemporalIndexes) : gset EntityId := dom (index s).
Definition clear (s : TemporalIndexes) : TemporalIndexes := mkIndexes ∅ (max_versions_per_entity s) empty_extent.
End TIdx.
