(* ===== verification/Timelines.v ===== *)
(** * Theory of the temporal indexes

    A timeline stands for a finite map from metadata indexes to ranges; an entity's
    pair of timelines for its versions with a valid and a transaction range each.
    The index refines a specification on those maps, and its extent is the fold over
    all of them. *)

From S2P Require Import Prelude.
From S2P Require Import SliceOps.
From S2P Require Import Errors.
From S2P Require Import Hlc.
From S2P Require Import Temporal.
From S2P Require Import Ids.
From S2P Require Import TemporalIndex.

Section Timeline.
Import Search Sort TIdx.
Implicit Types (e x y : TimelineEntry) (l vs : list TimelineEntry).

Definition range_of e : TimeRange := mkRange (entry_start e) (entry_end e).
Abbreviation key_sorted := (StronglySorted (fun x y => key_leb x y = true)).

(** The keys are totally ordered. *)
Lemma key_leb_spec x y :
  key_leb x y = true <-> (entry_start x < entry_start y)%ts \/ (entry_start x = entry_start y /\ metadata_idx x <= metadata_idx y).
Proof.
  unfold key_leb, key_ltb. rewrite negb_true_iff, orb_false_iff, andb_false_iff, Z.ltb_ge. split.
  - intros [H1 H2]. ts_norm. destruct (ts_lt_trichotomy (entry_start x) (entry_start y)) as [|[E|]]; [by left| |done].
    right. split; [done|]. destruct H2 as [H2|]; [|done]. exfalso. ts_norm. by rewrite E in H2.
  - intros [H|[E H]].
    + split; [ts_norm; ts_lia|]. left. apply not_true_iff_false. rewrite ts_eqb_eq. intros E. rewrite E in H. ts_lia.
    + split; [rewrite E; ts_norm; ts_lia|by right].
Qed.
Lemma key_ltb_leb x y : key_ltb x y = negb (key_leb y x).
Proof. unfold key_leb. by rewrite negb_involutive. Qed.
Lemma key_leb_total x y : key_leb x y = false -> key_leb y x = true.
Proof.
  intros H. apply not_true_iff_false in H. rewrite key_leb_spec in *.
  destruct (ts_lt_trichotomy (entry_start x) (entry_start y)) as [|[|]]; [tauto| |by left].
  right. split; [done|]. destruct (decide (metadata_idx x <= metadata_idx y)); [tauto|lia].
Qed.
Lemma key_leb_trans x y z : key_leb x y = true -> key_leb y z = true -> key_leb x z = true.
Proof.
  rewrite !key_leb_spec. intros [H1|[H1 ?]] [H2|[H2 ?]]; [left; by etrans| | |].
  - left. by rewrite <- H2.
  - left. by rewrite H1.
  - right. split; [congruence|lia].
Qed.

(** *** The position map *)
Definition positions_of (vs : list TimelineEntry) (m : gmap Z nat) : Prop :=
  forall i p, m !! i = Some p <-> exists e, vs !! p = Some e /\ metadata_idx e = i.
Abbreviation idxs := (List.map metadata_idx).

Lemma record_positions_spec pos l m i p :
  NoDup (idxs l) ->
  record_positions pos l m !! i = Some p <->
  (exists k e, l !! k = Some e /\ metadata_idx e = i /\ p = (pos + k)%nat) \/ (i ∉ idxs l /\ m !! i = Some p).
Proof.
  revert pos m. induction l as [|x l IH]; intros pos m Hnd; cbn [record_positions].
  - split; [intros H; right; split; [apply not_elem_of_nil|done]|]. intros [(k & e & Hk & _)|[_ H]]; [done|done].
  - cbn [List.map] in Hnd. apply NoDup_cons in Hnd as [Hx Hnd]. rewrite IH by done. cbn [List.map].
    rewrite not_elem_of_cons. split.
    + intros [(k & e & Hk & He & ->)|[Hi Hm]].
      * left. exists (S k), e. split_and!; [done|done|lia].
      * destruct (decide (i = metadata_idx x)) as [->|Hne].
        -- rewrite lookup_insert_eq in Hm. simplify_eq. left. exists 0%nat, x. split_and!; [done|done|lia].
        -- rewrite lookup_insert_ne in Hm by done. by right.
    + intros [([|k] & e & Hk & He & ->)|[[Hne Hi] Hm]].
      * simpl in Hk. simplify_eq. right. split; [done|]. by rewrite lookup_insert_eq, Nat.add_0_r.
      * left. exists k, e. split_and!; [done|done|lia].
      * right. split; [done|]. by rewrite lookup_insert_ne.
Qed.

Lemma rebuild_positions vs : NoDup (idxs vs) -> positions_of vs (metadata_to_position (rebuild_position_map vs)).
Proof.
  intros Hnd i p. unfold rebuild_position_map. simpl. rewrite record_positions_spec by done. split.
  - intros [(k & e & Hk & He & ->)|[_ H]]; [by exists e|]. by rewrite lookup_empty in H.
  - intros (e & Hk & He). left. by exists p, e.
Qed.

Record timeline_ok (tl : EntityTimeline) : Prop := {
  ok_sorted : key_sorted (versions tl);
  ok_nodup : NoDup (idxs (versions tl));
  ok_positions : positions_of (versions tl) (metadata_to_position tl) }.

Lemma empty_timeline_ok : timeline_ok empty_timeline.
Proof. split; [constructor|constructor|]. intros i p. simpl. rewrite lookup_empty. split; [done|]. by intros (e & He & _). Qed.

Lemma rebuild_ok vs : key_sorted vs -> NoDup (idxs vs) -> timeline_ok (rebuild_position_map vs).
Proof. intros. split; [done|done|]. by apply rebuild_positions. Qed.

(** *** [insert] *)
Lemma insert_versions tl lo hi i :
  versions (insert tl lo hi i) ≡ₚ mkEntry lo hi i :: versions tl.
Proof.
  unfold insert. case_goal; simpl.
  - by rewrite Permutation_app_comm.
  - set (k := partition_point _ _). rewrite <- (take_drop k (versions tl)) at 3.
    by rewrite Permutation_middle.
Qed.

Lemma sorted_partitioned x l : key_sorted l -> partitioned (fun e => key_ltb e x) l.
Proof.
  intros Hs i j a b Hij Ha Hb. rewrite !key_ltb_leb, !negb_true_iff. intros Hxb.
  destruct (decide (i = j)) as [->|]; [by simplify_eq|].
  assert (Hab : key_leb a b = true).
  { rewrite <- (take_drop (S i) l) in Hs. apply (StronglySorted_app_1_elem_of _ _ _ _ _ Hs).
    - apply list_elem_of_lookup. exists i. rewrite lookup_take_lt by lia. done.
    - apply list_elem_of_lookup. exists (j - S i)%nat. rewrite lookup_drop. replace (S i + (j - S i))%nat with j by lia. done. }
  destruct (key_leb x a) eqn:E; [|done]. by rewrite (key_leb_trans _ _ _ E Hab) in Hxb.
Qed.

Lemma insert_ok tl lo hi i :
  timeline_ok tl -> i ∉ idxs (versions tl) -> timeline_ok (insert tl lo hi i).
Proof.
  intros [Hs Hn Hp] Hi. set (x := mkEntry lo hi i).
  assert (Hn' : NoDup (idxs (versions (insert tl lo hi i)))).
  { assert (idxs (versions (insert tl lo hi i)) ≡ₚ i :: idxs (versions tl)) as -> by (by rewrite insert_versions).
    by constructor. }
  revert Hn'. unfold insert. fold x. case_goal; simpl; intros Hn'; split; simpl; try done.
  - apply StronglySorted_app. split_and!; [|done|repeat constructor]. intros a b Ha ->%list_elem_of_singleton.
    destruct (last (versions tl)) as [z|] eqn:El; [|by apply last_None in El; rewrite El in Ha; apply not_elem_of_nil in Ha].
    apply last_Some in El as [l El]. rewrite El in Ha, Hs. apply elem_of_app in Ha as [Ha| ->%list_elem_of_singleton]; [|done].
    eapply key_leb_trans; [|done]. apply (StronglySorted_app_1_elem_of _ _ _ _ _ Hs Ha). by constructor.
  - intros j p. destruct (decide (j = i)) as [->|Hne].
    + rewrite lookup_insert_eq. split.
      * intros [= <-]. exists x. split; [|done]. by rewrite lookup_app_r, Nat.sub_diag by done.
      * intros (z & Hz & Hzi). f_equal. apply lookup_app_Some in Hz as [Hz|[Hl Hz]].
        -- destruct Hi. rewrite <- Hzi. apply list_elem_of_fmap. exists z. split; [done|]. by eapply list_elem_of_lookup_2.
        -- apply list_lookup_singleton_Some in Hz as [? _]. lia.
    + rewrite lookup_insert_ne by done. rewrite (Hp j p). split; intros (z & Hz & Hzi); exists z; (split; [|done]).
      * by apply lookup_app_l_Some.
      * apply lookup_app_Some in Hz as [Hz|[Hl Hz]]; [done|]. apply list_lookup_singleton_Some in Hz as [_ <-]. by destruct Hne.
  - set (k := partition_point _ _).
    destruct (partition_point_spec _ _ (sorted_partitioned x _ Hs)) as (_ & H1 & H2). fold k in H1, H2.
    rewrite Forall_forall in H1, H2. apply StronglySorted_app. rewrite <- (take_drop k (versions tl)) in Hs.
    apply StronglySorted_app in Hs as (Hc & Hs1 & Hs2). split_and!; [|done|].
    + intros a b Ha Hb. apply elem_of_cons in Hb as [->|Hb]; [|by apply Hc].
      specialize (H1 a Ha). rewrite key_ltb_leb in H1. apply key_leb_total. by apply negb_true_iff.
    + constructor; [done|]. apply Forall_forall. intros b Hb. specialize (H2 b Hb). rewrite key_ltb_leb in H2.
      by apply negb_false_iff in H2.
  - set (k := partition_point _ _) in *. set (vs := take k (versions tl) ++ x :: drop k (versions tl)) in *.
    assert (Hlen : (k <= length (versions tl))%nat) by apply (partition_point_spec _ _ (sorted_partitioned x _ Hs)).
    assert (Hk : vs !! k = Some x /\ drop (S k) vs = drop k (versions tl)).
    { split; subst vs.
      - rewrite lookup_app_r; rewrite length_take; [|lia]. by replace (k - Nat.min k (length (versions tl)))%nat with 0%nat by lia.
      - rewrite drop_app_ge; rewrite length_take; [|lia]. by replace (S k - Nat.min k (length (versions tl)))%nat with 1%nat by lia. }
    destruct Hk as [Hk Hd]. rewrite Hd.
    assert (Hnd : NoDup (idxs (drop k (versions tl)))).
    { rewrite <- (take_drop k (versions tl)) in Hn. rewrite map_app in Hn. by apply NoDup_app in Hn as (_ & _ & ?). }
    intros j p. destruct (decide (j = i)) as [->|Hne].
    + rewrite lookup_insert_eq. split; [intros [= <-]; by exists x|]. intros (z & Hz & Hzi). f_equal.
      eapply (NoDup_lookup (idxs vs) _ _ i Hn'); change (idxs vs) with (metadata_idx <$> vs); rewrite list_lookup_fmap;
        [by rewrite Hk|by rewrite Hz, <- Hzi].
    + rewrite lookup_insert_ne, record_positions_spec by done. split.
      * intros [(q & z & Hz & Hzi & ->)|[Hj Hm]].
        -- exists z. split; [|done]. rewrite <- Hd, lookup_drop in Hz. done.
        -- apply Hp in Hm as (z & Hz & Hzi). exists z. split; [|done]. subst vs. apply lookup_app_l_Some.
           destruct (decide (p < k)%nat) as [Hlt|Hge]; [by rewrite lookup_take_lt|]. exfalso. apply Hj.
           apply list_elem_of_fmap. exists z. split; [done|]. apply list_elem_of_lookup. exists (p - k)%nat.
           rewrite lookup_drop. by replace (k + (p - k))%nat with p by lia.
      * intros (z & Hz & Hzi). destruct (decide (p < k)%nat) as [Hlt|Hge].
        -- right. assert (Hz' : versions tl !! p = Some z).
           { subst vs. rewrite lookup_app_l in Hz by (rewrite length_take; lia). by rewrite lookup_take_lt in Hz. }
           split; [|by apply Hp; eauto]. intros (w & Hw & Hin)%list_elem_of_fmap. apply list_elem_of_lookup in Hin as [q Hq].
           rewrite lookup_drop in Hq. assert (p = k + q)%nat; [|lia].
           eapply (NoDup_lookup (idxs (versions tl)) _ _ j Hn); change (idxs (versions tl)) with (metadata_idx <$> versions tl);
             rewrite list_lookup_fmap; [by rewrite Hz', <- Hzi|by rewrite Hq, Hw].
        -- left. destruct (decide (p = k)) as [->|]; [by rewrite Hk in Hz; simplify_eq|]. exists (p - S k)%nat, z.
           rewrite <- Hd, lookup_drop. replace (S k + (p - S k))%nat with p by lia. split_and!; [done|done|lia].
Qed.

(** *** [update_end_time] *)
Definition key e : HybridTimestamp * Z := (entry_start e, metadata_idx e).
Lemma key_leb_key x y x' y' : key x = key x' -> key y = key y' -> key_leb x y = key_leb x' y'.
Proof. unfold key, key_leb, key_ltb. intros [= -> ->] [= -> ->]. done. Qed.
Lemma key_sorted_key l l' : List.map key l = List.map key l' -> key_sorted l -> key_sorted l'.
Proof.
  intros Hk Hs. revert l' Hk. induction Hs as [|x l Hs IH Hf]; intros [|y l'] Hk; cbn [List.map] in Hk; try done; [constructor|].
  injection Hk as Hx Hi Hl. assert (Hxy : key x = key y) by (unfold key; by rewrite Hx, Hi).
  constructor; [by apply IH|]. apply Forall_forall. intros z Hz.
  assert (Hz' : key z ∈ List.map key l) by (rewrite Hl; by apply list_elem_of_fmap_2).
  apply list_elem_of_fmap in Hz' as (w & Hw & Hin). rewrite Forall_forall in Hf.
  rewrite <- (key_leb_key x w y z); [by apply Hf|done|done].
Qed.
Lemma set_end_idxs vs p t x : vs !! p = Some x -> idxs (<[p := set_end t x]> vs) = idxs vs.
Proof.
  intros Hp. change (metadata_idx <$> <[p := set_end t x]> vs = metadata_idx <$> vs). rewrite list_fmap_insert. simpl.
  apply list_insert_id. by rewrite list_lookup_fmap, Hp.
Qed.

Lemma update_end_ok tl i t tl' b :
  timeline_ok tl -> update_end_time tl i t = (tl', b) ->
  timeline_ok tl' /\ idxs (versions tl') = idxs (versions tl) /\ (b = true <-> i ∈ idxs (versions tl)) /\
  (forall e, e ∈ versions tl' <->
     exists e', e' ∈ versions tl /\ e = if bool_decide (metadata_idx e' = i) then set_end t e' else e').
Proof.
  intros [Hs Hn Hp]. unfold update_end_time. destruct (metadata_to_position tl !! i) as [p|] eqn:E.
  - apply Hp in E as E'. destruct E' as (x & Hx & Hxi). rewrite Hx. intros [= <- <-]. simpl.
    assert (Hids : idxs (<[p := set_end t x]> (versions tl)) = idxs (versions tl)) by (by apply set_end_idxs).
    assert (Hlook : forall q z, <[p := set_end t x]> (versions tl) !! q = Some z <->
              exists z', versions tl !! q = Some z' /\ z = if bool_decide (metadata_idx z' = i) then set_end t z' else z').
    { intros q z. destruct (decide (q = p)) as [->|Hne].
      - rewrite list_lookup_insert_eq by (by eapply lookup_lt_Some). split.
        + intros [= <-]. exists x. split; [done|]. by rewrite bool_decide_eq_true_2.
        + intros (z' & Hz' & ->). simplify_eq. by rewrite bool_decide_eq_true_2.
      - rewrite list_lookup_insert_ne by done. split.
        + intros Hz. exists z. split; [done|]. rewrite bool_decide_eq_false_2; [done|]. intros Hzi. destruct Hne.
          eapply (NoDup_lookup (idxs (versions tl)) _ _ i Hn); change (idxs (versions tl)) with (metadata_idx <$> versions tl);
            rewrite list_lookup_fmap; [by rewrite Hz, <- Hzi|by rewrite Hx, <- Hxi].
        + intros (z' & Hz' & ->). rewrite bool_decide_eq_false_2; [done|]. intros Hzi. destruct Hne.
          eapply (NoDup_lookup (idxs (versions tl)) _ _ i Hn); change (idxs (versions tl)) with (metadata_idx <$> versions tl);
            rewrite list_lookup_fmap; [by rewrite Hz', <- Hzi|by rewrite Hx, <- Hxi]. }
    split_and!; [split; simpl|done| |].
    + eapply key_sorted_key, Hs. change (key <$> versions tl = key <$> <[p := set_end t x]> (versions tl)).
      rewrite list_fmap_insert. symmetry. apply list_insert_id. by rewrite list_lookup_fmap, Hx.
    + by rewrite Hids.
    + intros j q. rewrite (Hp j q). split.
      * intros (z & Hz & Hzi). eexists. split; [apply Hlook; by exists z|]. by case_bool_decide.
      * intros (z & (z' & Hz' & ->)%Hlook & Hzi). exists z'. split; [done|]. by case_bool_decide.
    + split; [|done]. intros _. rewrite <- Hxi. apply list_elem_of_fmap. exists x. split; [done|]. by eapply list_elem_of_lookup_2.
    + intros e. rewrite !list_elem_of_lookup. setoid_rewrite Hlook. split.
      * intros (q & z' & Hz' & ->). exists z'. split; [by eapply list_elem_of_lookup_2|done].
      * intros (z' & (q & Hq)%list_elem_of_lookup & ->). exists q, z'. done.
  - intros [= <- <-]. assert (Hi : i ∉ idxs (versions tl)).
    { intros (x & Hx & Hin)%list_elem_of_fmap. apply list_elem_of_lookup in Hin as [q Hq].
      assert (metadata_to_position tl !! i = Some q); [apply Hp; by exists x|congruence]. }
    split_and!; [by split|done|split; [done|by intros ?%Hi]|]. intros e. split.
    + intros He. exists e. split; [done|]. rewrite bool_decide_eq_false_2; [done|]. intros <-. apply Hi.
      by apply list_elem_of_fmap_2.
    + intros (e' & He' & ->). rewrite bool_decide_eq_false_2; [done|]. intros <-. apply Hi. by apply list_elem_of_fmap_2.
Qed.

(** *** Queries *)
Lemma start_partitioned l (f : HybridTimestamp -> bool) :
  key_sorted l -> (forall a b, (a <= b)%ts -> f b = true -> f a = true) -> partitioned (fun e => f (entry_start e)) l.
Proof.
  intros Hs Hf i j a b Hij Ha Hb. apply Hf. destruct (decide (i = j)) as [->|]; [simplify_eq; by right|].
  assert (Hab : key_leb a b = true).
  { rewrite <- (take_drop (S i) l) in Hs. apply (StronglySorted_app_1_elem_of _ _ _ _ _ Hs).
    - apply list_elem_of_lookup. exists i. rewrite lookup_take_lt by lia. done.
    - apply list_elem_of_lookup. exists (j - S i)%nat. rewrite lookup_drop. by replace (S i + (j - S i))%nat with j by lia. }
  apply key_leb_spec in Hab as [|[E _]]; [by left|by right].
Qed.

Lemma query_spec tl (f g : HybridTimestamp -> bool) i :
  timeline_ok tl -> (forall a b, (a <= b)%ts -> f b = true -> f a = true) ->
  let q := List.map metadata_idx (filter (fun e => g (entry_end e) = true)
             (take (partition_point (fun e => f (entry_start e)) (versions tl)) (versions tl))) in
  NoDup q /\ (i ∈ q <-> exists e, e ∈ versions tl /\ metadata_idx e = i /\ f (entry_start e) = true /\ g (entry_end e) = true).
Proof.
  intros [Hs Hn _] Hf. simpl. rewrite partition_point_filter by (by apply start_partitioned). split.
  - eapply sublist_NoDup; [exact Hn|]. apply fmap_sublist. etrans; apply sublist_filter.
  - rewrite list_elem_of_fmap. setoid_rewrite list_elem_of_filter. setoid_rewrite list_elem_of_filter.
    split; [intros (e & -> & ? & ? & ?); by exists e|intros (e & ? & <- & ? & ?); by exists e].
Qed.

Lemma point_spec tl t i :
  timeline_ok tl ->
  NoDup (find_indices_at_point tl t) /\
  (i ∈ find_indices_at_point tl t <-> exists e, e ∈ versions tl /\ metadata_idx e = i /\ Range.contains (range_of e) t = true).
Proof.
  intros Hok. destruct (query_spec tl (fun s => ts_leb s t) (fun z => ts_ltb t z) i Hok) as [H1 H2]; [intros; ts_lia|].
  split; [exact H1|]. etrans; [exact H2|]. unfold Range.contains, range_of. simpl. by setoid_rewrite andb_true_iff.
Qed.

Lemma range_spec tl r i :
  timeline_ok tl ->
  NoDup (find_indices_in_range tl r) /\
  (i ∈ find_indices_in_range tl r <->
     exists e, e ∈ versions tl /\ metadata_idx e = i /\ ts_ltb (entry_start e) (end_ r) = true /\ ts_ltb (start r) (entry_end e) = true).
Proof. intros Hok. apply (query_spec tl (fun s => ts_ltb s (end_ r)) (fun z => ts_ltb (start r) z) i Hok). intros; ts_lia. Qed.

(** *** The entry of an index, and [insert_batch] *)
Definition entry_of (i : Z) vs : option TimelineEntry := head (filter (fun e => metadata_idx e = i) vs).

Lemma filter_idx_nodup i vs :
  NoDup (idxs vs) -> filter (fun e => metadata_idx e = i) vs = option_list (entry_of i vs).
Proof.
  unfold entry_of. induction vs as [|x vs IH]; [done|]. cbn [List.map]. intros [Hx Hn]%NoDup_cons. rewrite filter_cons.
  destruct (decide (metadata_idx x = i)) as [Hi|]; [|by apply IH]. simpl. f_equal. apply filter_none, Forall_forall.
  intros y Hy Hyi. apply Hx. rewrite Hi, <- Hyi. by apply list_elem_of_fmap_2.
Qed.
Lemma entry_of_some i vs e : NoDup (idxs vs) -> entry_of i vs = Some e <-> e ∈ vs /\ metadata_idx e = i.
Proof.
  intros Hn. assert (He : e ∈ filter (fun e => metadata_idx e = i) vs <-> entry_of i vs = Some e).
  { rewrite filter_idx_nodup by done. destruct (entry_of i vs) as [x|]; simpl.
    - rewrite list_elem_of_singleton. split; congruence.
    - split; [by intros ?%not_elem_of_nil|done]. }
  rewrite <- He, list_elem_of_filter. tauto.
Qed.
Lemma entry_of_none i vs : entry_of i vs = None <-> i ∉ idxs vs.
Proof.
  unfold entry_of. rewrite head_None. split.
  - intros Hf (x & -> & Hx)%list_elem_of_fmap.
    assert (Hx' : x ∈ filter (fun e => metadata_idx e = metadata_idx x) vs) by (by apply list_elem_of_filter).
    rewrite Hf in Hx'. by apply not_elem_of_nil in Hx'.
  - intros Hi. apply filter_none, Forall_forall. intros x Hx <-. by apply Hi, list_elem_of_fmap_2.
Qed.

Lemma retain_unseen_filter seen l i :
  filter (fun e => metadata_idx e = i) (retain_unseen seen l) =
  if bool_decide (i ∈ seen) then [] else take 1 (filter (fun e => metadata_idx e = i) l).
Proof.
  revert seen. induction l as [|x l IH]; intros seen; simpl; [by case_bool_decide|].
  rewrite (filter_cons _ x l). destruct (decide (metadata_idx x ∈ seen)) as [Hx|Hx].
  - rewrite bool_decide_eq_true_2, IH by done. destruct (decide (metadata_idx x = i)) as [<-|]; [|done].
    by rewrite bool_decide_eq_true_2.
  - rewrite (bool_decide_eq_false_2 (metadata_idx x ∈ seen)) by done. rewrite filter_cons, IH.
    destruct (decide (metadata_idx x = i)) as [<-|Hne].
    + rewrite bool_decide_eq_true_2 by set_solver. by rewrite bool_decide_eq_false_2.
    + by rewrite (bool_decide_ext (i ∈ {[metadata_idx x]} ∪ seen) (i ∈ seen)) by set_solver.
Qed.
Lemma retain_unseen_sub seen l : sublist (retain_unseen seen l) l.
Proof. revert seen. induction l as [|x l IH]; intros seen; simpl; [constructor|]. case_goal; by constructor. Qed.
Lemma retain_unseen_nodup seen l :
  NoDup (idxs (retain_unseen seen l)) /\ (forall i, i ∈ idxs (retain_unseen seen l) -> i ∉ seen).
Proof.
  revert seen. induction l as [|x l IH]; intros seen; simpl.
  - split; [constructor|]. by intros i ?%not_elem_of_nil.
  - case_bool_decide as Hx; [apply IH|]. destruct (IH ({[metadata_idx x]} ∪ seen)) as [H1 H2]. cbn [List.map]. split.
    + apply NoDup_cons. split; [|done]. intros Hin. specialize (H2 _ Hin). set_solver.
    + intros i [->|Hi]%elem_of_cons; [done|]. specialize (H2 _ Hi). set_solver.
Qed.

Lemma repeated_none seen l :
  repeated seen l = None <-> NoDup (idxs l) /\ (forall i, i ∈ idxs l -> i ∉ seen).
Proof.
  revert seen. induction l as [|x l IH]; intros seen; simpl.
  - split; [intros _; split; [constructor|by intros i ?%not_elem_of_nil]|done].
  - cbn [List.map]. rewrite NoDup_cons. case_bool_decide as Hx.
    + split; [done|]. intros [_ H]. destruct (H (metadata_idx x)); [by constructor|done].
    + rewrite IH. split.
      * intros [H1 H2]. split_and!; [|done|]; [intros Hin; specialize (H2 _ Hin); set_solver|].
        intros i [->|Hi]%elem_of_cons; [done|]. specialize (H2 _ Hi). set_solver.
      * intros [[H1 H2] H3]. split; [done|]. intros i Hi.
        assert (i <> metadata_idx x) by (by intros ->). specialize (H3 i). rewrite elem_of_cons in H3. set_solver.
Qed.

(** Which entry of an index a policy keeps: the earliest start, or the latest. *)
Definition keep (policy : DeduplicationPolicy) : option TimelineEntry -> TimelineEntry -> option TimelineEntry :=
  match policy with LastOccurrence => last_largest key_leb | _ => first_smallest key_leb end.

Lemma entry_of_sorted i vs l :
  NoDup (idxs vs) ->
  filter (fun e => metadata_idx e = i) (sort_by key_leb (vs ++ l)) =
  sort_by key_leb (option_list (entry_of i vs) ++ filter (fun e => metadata_idx e = i) l).
Proof.
  intros Hn. rewrite sort_by_filter by eauto using key_leb_total, key_leb_trans.
  by rewrite filter_app, filter_idx_nodup.
Qed.

Lemma sublist_reverse l l' : sublist l l' -> sublist (reverse l) (reverse l').
Proof.
  induction 1; [done| |]; rewrite !reverse_cons; [by apply sublist_app|by apply sublist_inserts_r].
Qed.
Lemma key_sorted_sublist l l' : sublist l l' -> key_sorted l' -> key_sorted l.
Proof.
  induction 1 as [|x l l' Hl IH|x l l' Hl IH]; [done| |]; intros [Hf Hs]%StronglySorted_cons; [|by apply IH].
  constructor; [by apply IH|]. rewrite Forall_forall in *. intros y Hy. apply Hf. by eapply elem_of_sublist.
Qed.

(** What each policy makes of the sorted entries. *)
Lemma dedup_spec vs l policy :
  NoDup (idxs vs) -> (policy = Reject -> NoDup (idxs l) /\ forall i, i ∈ idxs l -> i ∉ idxs vs) ->
  let sorted := sort_by key_leb (vs ++ l) in
  let kept := match policy with
              | FirstOccurrence => retain_unseen ∅ sorted
              | LastOccurrence => reverse (retain_unseen ∅ (reverse sorted))
              | Reject => sorted
              end in
  key_sorted kept /\ NoDup (idxs kept) /\
  forall i, entry_of i kept = foldl (keep policy) (entry_of i vs) (filter (fun e => metadata_idx e = i) l).
Proof.
  intros Hn Hr sorted kept.
  assert (Hs : key_sorted sorted) by (apply sort_by_sorted; eauto using key_leb_total, key_leb_trans).
  assert (Hf : forall i, head (filter (fun e => metadata_idx e = i) sorted) =
            foldl (first_smallest key_leb) (entry_of i vs) (filter (fun e => metadata_idx e = i) l)).
  { intros i. subst sorted. rewrite entry_of_sorted by done. apply sort_by_first; eauto using key_leb_total, key_leb_trans. }
  assert (Hl : forall i, last (filter (fun e => metadata_idx e = i) sorted) =
            foldl (last_largest key_leb) (entry_of i vs) (filter (fun e => metadata_idx e = i) l)).
  { intros i. subst sorted. rewrite entry_of_sorted by done. apply sort_by_last; eauto using key_leb_total, key_leb_trans. }
  destruct policy; subst kept; simpl.
  - split_and!; [by eapply key_sorted_sublist, Hs; apply retain_unseen_sub|apply retain_unseen_nodup|]. intros i.
    rewrite <- Hf. unfold entry_of. rewrite retain_unseen_filter, bool_decide_eq_false_2 by set_solver.
    by destruct (filter _ sorted).
  - split_and!.
    + eapply key_sorted_sublist, Hs. rewrite <- (reverse_involutive sorted) at 2. apply sublist_reverse.
      apply retain_unseen_sub.
    + change (NoDup (metadata_idx <$> reverse (retain_unseen ∅ (reverse sorted)))). rewrite fmap_reverse.
      rewrite reverse_Permutation. apply retain_unseen_nodup.
    + intros i. rewrite <- Hl. unfold entry_of.
      rewrite filter_reverse, retain_unseen_filter, bool_decide_eq_false_2, filter_reverse by set_solver.
      rewrite <- head_reverse. by destruct (reverse (filter _ sorted)).
  - destruct (Hr eq_refl) as [H1 H2]. split_and!; [done| |done].
    assert (idxs sorted ≡ₚ idxs vs ++ idxs l) as ->.
    { subst sorted. rewrite sort_by_perm. by rewrite map_app. }
    apply NoDup_app. split_and!; [done| |done]. intros i Hi Hi'. by apply (H2 i).
Qed.

Lemma insert_batch_spec tl entries policy tl' r :
  timeline_ok tl -> insert_batch tl entries policy = (tl', r) ->
  match r with
  | Ok _ => timeline_ok tl' /\
      (forall i, entry_of i (versions tl') = foldl (keep policy) (entry_of i (versions tl)) (filter (fun e => metadata_idx e = i) entries)) /\
      (policy = Reject -> NoDup (idxs entries) /\ forall i, i ∈ idxs entries -> i ∉ idxs (versions tl))
  | Err _ => tl' = tl /\ policy = Reject /\
      ~ (NoDup (idxs entries) /\ forall i, i ∈ idxs entries -> i ∉ idxs (versions tl))
  | Panic => False
  end.
Proof.
  intros [Hs Hn Hp]. unfold insert_batch. case_bool_decide as He.
  { intros [= <- <-]. subst. split_and!; [by split|done|]. intros _. split; [constructor|by intros i ?%not_elem_of_nil]. }
  set (reject := if bool_decide (policy = Reject) then _ else _).
  assert (Hrej : match reject with
    | Some _ => policy = Reject /\ ~ (NoDup (idxs entries) /\ forall i, i ∈ idxs entries -> i ∉ idxs (versions tl))
    | None => policy = Reject -> NoDup (idxs entries) /\ forall i, i ∈ idxs entries -> i ∉ idxs (versions tl)
    end).
  { assert (Hin : forall i, is_Some (metadata_to_position tl !! i) <-> i ∈ idxs (versions tl)).
    { intros i. split.
      - intros [p (x & Hx & <-)%Hp]. apply list_elem_of_fmap_2. by eapply list_elem_of_lookup_2.
      - intros (x & -> & Hx)%list_elem_of_fmap. apply list_elem_of_lookup in Hx as [p Hx]. exists p. apply Hp. eauto. }
    subst reject. case_bool_decide as Hr; [|done]. destruct (repeated ∅ entries) as [i|] eqn:Er.
    - split; [done|]. intros [H _]. assert (repeated ∅ entries = None) by (apply repeated_none; split; [done|set_solver]). congruence.
    - apply repeated_none in Er as [Hnd _]. destruct (head _) as [i|] eqn:Eh.
      + split; [done|]. intros [_ H]. apply head_Some_elem_of in Eh. apply list_elem_of_filter in Eh as [H1 H2].
        by apply (H i H2), Hin.
      + intros _. split; [done|]. intros i Hi Hi'. apply head_None in Eh.
        assert (Hc : i ∈ filter (fun idx => is_Some (metadata_to_position tl !! idx)) (idxs entries))
          by (apply list_elem_of_filter; split; [by apply Hin|done]). rewrite Eh in Hc. by apply not_elem_of_nil in Hc. }
  destruct reject as [i|]; intros [= <- <-]; [done|]. unfold rebuild_position_map. simpl.
  destruct (dedup_spec (versions tl) entries policy Hn Hrej) as (H1 & H2 & H3).
  split_and!; [by apply rebuild_ok|done|done].
Qed.

(** *** The operations by entry *)
Lemma entry_of_insert tl lo hi i j :
  timeline_ok tl -> i ∉ idxs (versions tl) ->
  entry_of j (versions (insert tl lo hi i)) = if decide (j = i) then Some (mkEntry lo hi i) else entry_of j (versions tl).
Proof.
  intros Hok Hi. pose proof (ok_nodup _ (insert_ok tl lo hi i Hok Hi)) as Hn. pose proof (ok_nodup _ Hok) as Hn0.
  apply option_eq. intros x. rewrite entry_of_some, insert_versions, elem_of_cons by done.
  destruct (decide (j = i)) as [->|Hne].
  - split; [intros [[->|Hx] Hxi]; [done|]|intros [= <-]; split; [by left|done]].
    destruct Hi. rewrite <- Hxi. by apply list_elem_of_fmap_2.
  - rewrite entry_of_some by done. split; [|tauto]. intros [[->|Hx] Hxi]; [by destruct Hne|done].
Qed.

Lemma entry_of_update tl i t tl' b j :
  timeline_ok tl -> update_end_time tl i t = (tl', b) ->
  entry_of j (versions tl') = (if decide (j = i) then set_end t else Datatypes.id) <$> entry_of j (versions tl).
Proof.
  intros Hok Hu. destruct (update_end_ok _ _ _ _ _ Hok Hu) as (Hok' & Hids & _ & Hin).
  apply option_eq. intros x. rewrite entry_of_some, Hin by apply Hok'. rewrite fmap_Some.
  setoid_rewrite (entry_of_some j (versions tl)); [|apply Hok]. split.
  - intros [(y & Hy & ->) Hj]. exists y. case_bool_decide as Hyi.
    + simpl in Hj. subst. by rewrite decide_True.
    + rewrite decide_False by congruence. done.
  - intros (y & [Hy Hyj] & ->). destruct (decide (j = i)) as [->|]; (split; [|done]); exists y; (split; [done|]).
    + by rewrite bool_decide_eq_true_2.
    + rewrite bool_decide_eq_false_2 by congruence. done.
Qed.

Lemma entry_query tl (P : TimelineEntry -> Prop) i :
  timeline_ok tl ->
  (exists e, e ∈ versions tl /\ metadata_idx e = i /\ P e) <-> (exists e, entry_of i (versions tl) = Some e /\ P e).
Proof. intros Hok. setoid_rewrite entry_of_some; [|apply Hok]. firstorder. Qed.
End Timeline.

(** ** The specification: for each entity its versions, each with two ranges *)
Module TimelineSpec.
Import TIdx.

Record History := mkHistory {
  known : list VersionId;
  valid_of : gmap VersionId TimeRange;
  tx_of : gmap VersionId TimeRange }.
Definition no_history : History := mkHistory [] ∅ ∅.

Definition full (h : History) : bool := u32_max <? Z.of_nat (length (known h)).
Fixpoint register (vs : list VersionId) (l : list VersionId) : list VersionId * bool :=
  match vs with
  | [] => (l, true)
  | v :: vs => if bool_decide (v ∈ l) then register vs l
               else if u32_max <? Z.of_nat (length l) then (l, false)
               else register vs (l ++ [v])
  end.

(** The range a policy keeps for a version given twice: the earliest start (the
    first given of these), or the latest start (the last given of these). *)
Definition keep_range (policy : DeduplicationPolicy) (acc : option TimeRange) (r : TimeRange) : option TimeRange :=
  match acc with
  | None => Some r
  | Some r0 =>
      match policy with
      | LastOccurrence => if ts_leb (start r0) (start r) then Some r else Some r0
      | _ => if ts_leb (start r0) (start r) then Some r0 else Some r
      end
  end.
Definition place (policy : DeduplicationPolicy) (m : gmap VersionId TimeRange) (p : VersionId * TimeRange) :
    gmap VersionId TimeRange := partial_alter (fun acc => keep_range policy acc p.2) p.1 m.
Definition place_all policy m (ps : list (VersionId * TimeRange)) := foldl (place policy) m ps.
Definition clash (m : gmap VersionId TimeRange) (vs : list VersionId) : bool :=
  negb (bool_decide (NoDup vs)) || bool_decide (Exists (fun v => is_Some (m !! v)) vs).

Abbreviation Spec := (gmap EntityId History).
Definition get (a : Spec) (e : EntityId) : History := default no_history (a !! e).

Inductive op :=
  | Insert (e : EntityId) (v : VersionId) (i : BiTemporalInterval)
  | Batch (e : EntityId) (vs : list (VersionId * BiTemporalInterval)) (policy : DeduplicationPolicy)
  | CloseValid (e : EntityId) (v : VersionId) (t : HybridTimestamp)
  | CloseTx (e : EntityId) (v : VersionId) (t : HybridTimestamp)
  | Clear.

Definition close (t : HybridTimestamp) (r : TimeRange) : TimeRange := mkRange (start r) t.

(** What an operation does, and whether it is accepted. *)
Definition spec_step (max : Z) (a : Spec) (o : op) : Spec * bool :=
  match o with
  | Insert e v i =>
      let h := get a e in
      if (max <=? Z.of_nat (length (known h))) || bool_decide (v ∈ known h) || full h then (<[e := h]> a, false)
      else (<[e := mkHistory (known h ++ [v]) (<[v := valid_time i]> (valid_of h)) (<[v := transaction_time i]> (tx_of h))]> a, true)
  | Batch e vs policy =>
      let h := get a e in
      if bool_decide (vs = []) then (a, true)
      else if max <? Z.of_nat (length (known h)) + Z.of_nat (length vs) then (<[e := h]> a, false)
      else
        let '(known', ok) := register vs.*1 (known h) in
        if negb ok || (bool_decide (policy = Reject) && clash (valid_of h) vs.*1)
        then (<[e := mkHistory known' (valid_of h) (tx_of h)]> a, false)
        else (<[e := mkHistory known'
                 (place_all policy (valid_of h) (List.map (fun p => (p.1, valid_time p.2)) vs))
                 (place_all policy (tx_of h) (List.map (fun p => (p.1, transaction_time p.2)) vs))]> a, true)
  | CloseValid e v t => (alter (fun h => mkHistory (known h) (alter (close t) v (valid_of h)) (tx_of h)) e a, true)
  | CloseTx e v t => (alter (fun h => mkHistory (known h) (valid_of h) (alter (close t) v (tx_of h))) e a, true)
  | Clear => (∅, true)
  end.

Definition index_step (s : TemporalIndexes) (o : op) : TemporalIndexes * res Error unit :=
  match o with
  | Insert e v i => insert_version e v i s
  | Batch e vs policy => insert_versions_batch e vs policy s
  | CloseValid e v t => (update_entity_valid_time_end e v t s, Ok tt)
  | CloseTx e v t => (update_entity_transaction_time_end e v t s, Ok tt)
  | Clear => (clear s, Ok tt)
  end.

Fixpoint run_spec (max : Z) (a : Spec) (os : list op) : Spec * list bool :=
  match os with
  | [] => (a, [])
  | o :: os => let '(a, b) := spec_step max a o in let '(a, bs) := run_spec max a os in (a, b :: bs)
  end.
Fixpoint run_index (s : TemporalIndexes) (os : list op) : TemporalIndexes * list (res Error unit) :=
  match os with
  | [] => (s, [])
  | o :: os => let '(s, r) := index_step s o in let '(s, rs) := run_index s os in (s, r :: rs)
  end.

(** What a version of an entity is known to hold. *)
Definition visible (a : Spec) (e : EntityId) (vt tt : HybridTimestamp) (v : VersionId) : Prop :=
  exists r1 r2, valid_of (get a e) !! v = Some r1 /\ tx_of (get a e) !! v = Some r2 /\
    Range.contains r1 vt = true /\ Range.contains r2 tt = true.
Definition meets (m : gmap VersionId TimeRange) (range : TimeRange) (v : VersionId) : Prop :=
  exists r, m !! v = Some r /\ (start r < end_ range)%ts /\ (start range < end_ r)%ts.
End TimelineSpec.

Section Refinement.
Import TIdx TimelineSpec.
Implicit Types (t : EntityTimelines) (h : History) (ids : gmap VersionId Z).

Definition ids_ok (known : list VersionId) ids : Prop :=
  NoDup known /\ forall v i, ids !! v = Some i <-> 0 <= i /\ known !! Z.to_nat i = Some v.

Record dim_rep ids (tl : EntityTimeline) (m : gmap VersionId TimeRange) : Prop := {
  d_ok : timeline_ok tl;
  d_lookup v : m !! v = (i ← ids !! v; range_of <$> entry_of i (versions tl));
  d_known i : i ∈ List.map metadata_idx (versions tl) -> exists v, ids !! v = Some i }.

Record entity_rep t h : Prop := {
  r_meta : version_metadata t = known h;
  r_ids : ids_ok (known h) (version_id_to_idx t);
  r_valid : dim_rep (version_id_to_idx t) (valid t) (valid_of h);
  r_tx : dim_rep (version_id_to_idx t) (tx t) (tx_of h);
  r_dom v : is_Some (valid_of h !! v) <-> is_Some (tx_of h !! v) }.

Definition rep (max : Z) (s : TemporalIndexes) (a : gmap EntityId History) : Prop :=
  max_versions_per_entity s = max /\ forall e, option_Forall2 entity_rep (index s !! e) (a !! e).

Lemma ids_inj known ids v w i : ids_ok known ids -> ids !! v = Some i -> ids !! w = Some i -> v = w.
Proof. intros [_ H] [_ Hv]%H [_ Hw]%H. congruence. Qed.
Lemma ids_known known ids v : ids_ok known ids -> is_Some (ids !! v) <-> v ∈ known.
Proof.
  intros [_ H]. split.
  - intros [i [_ Hi]%H]. by eapply list_elem_of_lookup_2.
  - intros [i Hi]%list_elem_of_lookup. exists (Z.of_nat i). apply H. rewrite Nat2Z.id. split; [lia|done].
Qed.
Lemma ids_snoc known ids v :
  ids_ok known ids -> v ∉ known -> ids_ok (known ++ [v]) (<[v := Z.of_nat (length known)]> ids) /\ ids ⊆ <[v := Z.of_nat (length known)]> ids.
Proof.
  intros Hok Hv. assert (Hn : ids !! v = None) by (apply eq_None_not_Some; by rewrite ids_known).
  split; [|by apply insert_subseteq]. destruct Hok as [Hnd H]. split.
  - apply NoDup_app. split_and!; [done| |apply NoDup_singleton]. by intros w Hw ->%list_elem_of_singleton.
  - intros w i. destruct (decide (w = v)) as [->|Hne].
    + rewrite lookup_insert_eq. split.
      * intros [= <-]. split; [lia|]. by rewrite Nat2Z.id, lookup_app_r, Nat.sub_diag by done.
      * intros [Hi [Hl|[Hl Hl']]%lookup_app_Some]; [by destruct Hv; eapply list_elem_of_lookup_2|].
        apply list_lookup_singleton_Some in Hl' as [? _]. f_equal. lia.
    + rewrite lookup_insert_ne, H by done. split; intros [Hi Hl]; (split; [done|]); [by apply lookup_app_l_Some|].
      apply lookup_app_Some in Hl as [Hl|[_ Hl]]; [done|]. apply list_lookup_singleton_Some in Hl as [_ ->]. done.
Qed.

Lemma dim_rep_weaken known ids ids' tl m :
  ids_ok known ids' -> ids ⊆ ids' -> dim_rep ids tl m -> dim_rep ids' tl m.
Proof.
  intros Hok Hsub [H1 H2 H3]. split; [done| |].
  - intros v. rewrite H2. destruct (ids !! v) as [i|] eqn:E; simpl.
    + by rewrite (lookup_weaken _ _ _ _ E Hsub).
    + destruct (ids' !! v) as [i|] eqn:E'; [|done]. simpl. destruct (entry_of i (versions tl)) eqn:Ee; [|done].
      assert (Hi : i ∈ List.map metadata_idx (versions tl)).
      { destruct (decide (i ∈ List.map metadata_idx (versions tl))) as [|Hn]; [done|]. apply entry_of_none in Hn. congruence. }
      apply H3 in Hi as [w Hw]. pose proof (lookup_weaken _ _ _ _ Hw Hsub).
      assert (v = w) by (by eapply ids_inj). congruence.
  - intros i [v Hv]%H3. exists v. by eapply lookup_weaken.
Qed.

Lemma dim_rep_known known ids tl m v : ids_ok known ids -> dim_rep ids tl m -> is_Some (m !! v) -> v ∈ known.
Proof.
  intros Hok Hd [r Hr]. rewrite (d_lookup _ _ _ Hd) in Hr. apply bind_Some in Hr as (i & Hi & _).
  apply (ids_known _ _ _ Hok). by exists i.
Qed.

Lemma dim_rep_insert known ids tl m v i r :
  ids_ok known ids -> dim_rep ids tl m -> ids !! v = Some i -> m !! v = None ->
  dim_rep ids (insert tl (start r) (end_ r) i) (<[v := r]> m).
Proof.
  intros Hok [H1 H2 H3] Hv Hm. assert (Hi : i ∉ List.map metadata_idx (versions tl)).
  { apply entry_of_none. rewrite H2, Hv in Hm. simpl in Hm. by apply fmap_None in Hm. }
  split; [by apply insert_ok| |].
  - intros w. destruct (ids !! w) as [j|] eqn:E; simpl.
    + rewrite entry_of_insert by done. destruct (decide (j = i)) as [->|Hne].
      * assert (w = v) as -> by (by eapply ids_inj). rewrite lookup_insert_eq. by destruct r.
      * rewrite lookup_insert_ne by congruence. by rewrite H2, E.
    + rewrite lookup_insert_ne by congruence. by rewrite H2, E.
  - intros j (x & -> & Hx)%list_elem_of_fmap. rewrite insert_versions in Hx. apply elem_of_cons in Hx as [->|Hx]; [by exists v|].
    apply H3. by apply list_elem_of_fmap_2.
Qed.

Lemma dim_rep_close known ids tl m v i z tl' b :
  ids_ok known ids -> dim_rep ids tl m -> ids !! v = Some i -> update_end_time tl i z = (tl', b) ->
  dim_rep ids tl' (alter (close z) v m).
Proof.
  intros Hok [H1 H2 H3] Hv Hu. destruct (update_end_ok _ _ _ _ _ H1 Hu) as (Hok' & Hids & _ & _). split; [done| |].
  - intros w. destruct (ids !! w) as [j|] eqn:E; simpl.
    + rewrite (entry_of_update _ _ _ _ _ j H1 Hu). destruct (decide (j = i)) as [->|Hne].
      * assert (w = v) as -> by (by eapply ids_inj). rewrite lookup_alter_eq, H2, E. simpl.
        by destruct (entry_of i (versions tl)).
      * rewrite lookup_alter_ne by congruence. rewrite H2, E. simpl. by rewrite option_fmap_id.
    + destruct (decide (w = v)) as [->|]; [congruence|]. rewrite lookup_alter_ne by done. by rewrite H2, E.
  - rewrite Hids. done.
Qed.

(** *** Batches *)
Definition entry_in ids (p : VersionId * TimeRange) : TimelineEntry :=
  mkEntry (start p.2) (end_ p.2) (default 0 (ids !! p.1)).
Definition pairs (f : BiTemporalInterval -> TimeRange) (vs : list (VersionId * BiTemporalInterval)) : list (VersionId * TimeRange) :=
  List.map (fun p => (p.1, f p.2)) vs.

Lemma entries_mono ids ids' ps :
  ids ⊆ ids' -> Forall (fun p => is_Some (ids !! p.1)) ps -> List.map (entry_in ids') ps = List.map (entry_in ids) ps.
Proof.
  intros Hsub. induction 1 as [|p ps [i Hp] _ IH]; [done|]. cbn [List.map]. rewrite IH. f_equal. unfold entry_in.
  by rewrite Hp, (lookup_weaken _ _ _ _ Hp Hsub).
Qed.

Lemma batch_loop_spec vs seen t ve te x :
  ids_ok (version_metadata t) (version_id_to_idx t) -> seen ⊆ version_id_to_idx t ->
  let '(t', r) := batch_loop vs seen t ve te x in
  valid t' = valid t /\ tx t' = tx t /\ version_metadata t' = (register vs.*1 (version_metadata t)).1 /\
  ids_ok (version_metadata t') (version_id_to_idx t') /\ version_id_to_idx t ⊆ version_id_to_idx t' /\
  match r with
  | Ok (ve', te', x') =>
      (register vs.*1 (version_metadata t)).2 = true /\ Forall (fun p => is_Some (version_id_to_idx t' !! p.1)) vs /\
      ve' = ve ++ List.map (entry_in (version_id_to_idx t')) (pairs valid_time vs) /\
      te' = te ++ List.map (entry_in (version_id_to_idx t')) (pairs transaction_time vs) /\
      x' = foldl observe_interval x vs.*2
  | Err _ => (register vs.*1 (version_metadata t)).2 = false
  | Panic => False
  end.
Proof.
  revert seen t ve te x. induction vs as [|[v i] vs IH]; intros seen t ve te x Hok Hseen; cbn [batch_loop].
  { split_and!; try done; [by rewrite app_nil_r..]. }
  change ((v, i) :: vs).*1 with (v :: vs.*1).
  assert (Hstep : let '(t1, r) := match seen !! v with
                     | Some idx => (t, Ok idx)
                     | None => match find_metadata_index t v with
                               | Some idx => (t, Ok idx)
                               | None => add_version_metadata t v
                               end
                     end in
    match r with
    | Ok idx => valid t1 = valid t /\ tx t1 = tx t /\ ids_ok (version_metadata t1) (version_id_to_idx t1) /\
        version_id_to_idx t ⊆ version_id_to_idx t1 /\ version_id_to_idx t1 !! v = Some idx /\
        register (v :: vs.*1) (version_metadata t) = register vs.*1 (version_metadata t1)
    | Err _ => t1 = t /\ register (v :: vs.*1) (version_metadata t) = (version_metadata t, false)
    | Panic => False
    end).
  { assert (Hin : forall idx, version_id_to_idx t !! v = Some idx ->
      register (v :: vs.*1) (version_metadata t) = register vs.*1 (version_metadata t)).
    { intros idx Hidx. cbn [register]. rewrite bool_decide_eq_true_2; [done|]. by apply (ids_known _ _ _ Hok); exists idx. }
    destruct (seen !! v) as [idx|] eqn:Es.
    { pose proof (lookup_weaken _ _ _ _ Es Hseen). split_and!; try done. by eapply Hin. }
    unfold find_metadata_index. destruct (version_id_to_idx t !! v) as [idx|] eqn:Ei; [split_and!; try done; by eapply Hin|].
    assert (Hv : v ∉ version_metadata t) by (rewrite <- (ids_known _ _ _ Hok), Ei; by intros []).
    unfold add_version_metadata, version_metadata_count. cbn [register]. rewrite (bool_decide_eq_false_2 (v ∈ version_metadata t)) by done.
    destruct (u32_max <? _); [done|]. destruct (ids_snoc _ _ _ Hok Hv). split_and!; try done. simpl. apply lookup_insert_eq. }
  destruct (match seen !! v with Some _ => _ | None => _ end) as [t1 [idx|err|]]; [|destruct Hstep as [-> ->]; split_and!; done|done].
  destruct Hstep as (H1 & H2 & H3 & H4 & H5 & Hreg). 
  assert (Hseen' : <[v := idx]> seen ⊆ version_id_to_idx t1).
  { apply insert_subseteq_l; [done|]. by etrans. }
  specialize (IH (<[v := idx]> seen) t1 (ve ++ [mkEntry (start (valid_time i)) (end_ (valid_time i)) idx])
                (te ++ [mkEntry (start (transaction_time i)) (end_ (transaction_time i)) idx]) (observe_interval x i) H3 Hseen').
  destruct (batch_loop _ _ _ _ _ _) as [t' r]. destruct IH as (G1 & G2 & G3 & G4 & G5 & G6).
  rewrite Hreg.
  split_and!; [congruence|congruence|done|done|by etrans|].
  destruct r as [[[ve' te'] x']|err|]; [|done|done]. destruct G6 as (G7 & G8 & -> & -> & ->).
  assert (Hv : version_id_to_idx t' !! v = Some idx) by (by eapply lookup_weaken).
  split_and!; [done| | | |done].
  - constructor; [by exists idx|done].
  - rewrite <- app_assoc. simpl. unfold entry_in at 2. simpl. by rewrite Hv.
  - rewrite <- app_assoc. simpl. unfold entry_in at 2. simpl. by rewrite Hv.
Qed.

Lemma place_all_lookup policy m ps v :
  place_all policy m ps !! v = foldl (keep_range policy) (m !! v) (List.map snd (filter (fun p => p.1 = v) ps)).
Proof.
  unfold place_all. revert m. induction ps as [|[w r] ps IH]; intros m; [done|]. simpl. rewrite IH, filter_cons.
  unfold place. simpl. destruct (decide (w = v)) as [->|Hne].
  - by rewrite lookup_partial_alter_eq.
  - by rewrite lookup_partial_alter_ne.
Qed.

(** Within one index the policy compares starts only. *)
Lemma keep_ranges policy i acc l :
  Forall (fun e => metadata_idx e = i) (option_list acc ++ l) ->
  range_of <$> foldl (keep policy) acc l = foldl (keep_range policy) (range_of <$> acc) (List.map range_of l).
Proof.
  revert acc. induction l as [|x l IH]; intros acc Hall; [done|]. cbn [foldl List.map].
  apply Forall_app in Hall as [Hacc [Hx Hl]%Forall_cons].
  assert (Hcmp : forall y, metadata_idx y = i -> key_leb y x = ts_leb (entry_start y) (entry_start x)).
  { intros y Hy. apply eq_true_iff_eq. rewrite key_leb_spec, ts_leb_le, Hy, Hx. unfold ts_le. split; [tauto|].
    intros [|]; [by left|right; split; [done|lia]]. }
  assert (Hstep : range_of <$> keep policy acc x = keep_range policy (range_of <$> acc) (range_of x) /\
                  Forall (fun e => metadata_idx e = i) (option_list (keep policy acc x))).
  { destruct acc as [y|]; simpl in *.
    - rewrite Forall_singleton in Hacc. unfold keep, first_smallest, last_largest, keep_range, range_of at 2. simpl.
      rewrite <- (Hcmp y Hacc). destruct policy; simpl; destruct (key_leb y x); simpl; (split; [done|by repeat constructor]).
    - destruct policy; simpl; (split; [done|by repeat constructor]). }
  destruct Hstep as [Hs1 Hs2]. rewrite IH by (by apply Forall_app). by rewrite Hs1.
Qed.

Lemma dim_rep_batch known ids tl m ps policy tl' u :
  ids_ok known ids -> dim_rep ids tl m -> Forall (fun p => is_Some (ids !! p.1)) ps ->
  insert_batch tl (List.map (entry_in ids) ps) policy = (tl', Ok u) ->
  dim_rep ids tl' (place_all policy m ps).
Proof.
  intros Hok [H1 H2 H3] Hps Hb. destruct (insert_batch_spec _ _ _ _ _ H1 Hb) as (Hok' & Hent & _).
  assert (Hfil : forall v i, ids !! v = Some i ->
    filter (fun e => metadata_idx e = i) (List.map (entry_in ids) ps) = List.map (entry_in ids) (filter (fun p => p.1 = v) ps)).
  { intros v i Hv. clear Hb Hent. induction Hps as [|p ps [j Hj] _ IH]; [done|]. cbn [List.map]. rewrite !filter_cons, IH.
    assert (Hiff : metadata_idx (entry_in ids p) = i <-> p.1 = v).
    { unfold entry_in. simpl. rewrite Hj. simpl. split; [intros ->; by eapply ids_inj|intros <-; congruence]. }
    destruct (decide (metadata_idx (entry_in ids p) = i)), (decide (p.1 = v)); tauto || done. }
  split; [done| |].
  - intros v. rewrite place_all_lookup. destruct (ids !! v) as [i|] eqn:E; simpl.
    + rewrite Hent, (Hfil v i E), H2, E. simpl. rewrite (keep_ranges policy i).
      * rewrite map_map. f_equal. apply map_ext. intros [w r]. by destruct r.
      * apply Forall_app. split.
        -- destruct (entry_of i (versions tl)) as [y|] eqn:Ey; [|constructor]. simpl. rewrite Forall_singleton.
           apply entry_of_some in Ey as [_ Ey]; [done|apply H1].
        -- apply Forall_map, Forall_forall. intros p [<- Hp]%list_elem_of_filter. simpl. by rewrite E.
    + rewrite filter_none; [by rewrite H2, E|]. eapply Forall_impl; [exact Hps|]. simpl. intros p [j Hj] <-. congruence.
  - intros i Hi. destruct (entry_of i (versions tl')) as [y|] eqn:Ey; [|by apply entry_of_none in Ey].
    destruct (decide (i ∈ List.map metadata_idx (versions tl))) as [|Hn]; [by apply H3|].
    apply entry_of_none in Hn. rewrite Hent, Hn in Ey.
    destruct (filter (fun e => metadata_idx e = i) (List.map (entry_in ids) ps)) as [|z zs] eqn:Ez; [done|].
    assert (Hz : z ∈ filter (fun e => metadata_idx e = i) (List.map (entry_in ids) ps)) by (rewrite Ez; by constructor).
    apply list_elem_of_filter in Hz as [Hzi (p & -> & Hp)%list_elem_of_fmap]. rewrite Forall_forall in Hps.
    destruct (Hps p Hp) as [j Hj]. exists p.1. rewrite Hj. unfold entry_in in Hzi. simpl in Hzi. rewrite Hj in Hzi. by subst.
Qed.

Lemma entries_clash known ids tl m ps :
  ids_ok known ids -> dim_rep ids tl m -> Forall (fun p => is_Some (ids !! p.1)) ps ->
  let es := List.map metadata_idx (List.map (entry_in ids) ps) in
  (NoDup es /\ forall i, i ∈ es -> i ∉ List.map metadata_idx (versions tl)) <-> clash m ps.*1 = false.
Proof.
  intros Hok Hd Hps es. unfold clash. rewrite orb_false_iff, negb_false_iff, bool_decide_eq_true, bool_decide_eq_false.
  assert (Hes : es = List.map (fun v => default 0 (ids !! v)) ps.*1).
  { subst es. clear. induction ps as [|p ps IH]; [done|]. simpl. by f_equal. }
  assert (Hsome : forall v, v ∈ ps.*1 -> exists i, ids !! v = Some i).
  { intros v (p & -> & Hp)%list_elem_of_fmap. rewrite Forall_forall in Hps. by apply Hps. }
  assert (H1 : NoDup es <-> NoDup ps.*1).
  { rewrite Hes. generalize Hsome. clear -Hok. induction ps.*1 as [|v vs IH]; intros Hs; cbn [List.map]; [split; constructor|].
    rewrite !NoDup_cons, IH by (intros w Hw; apply Hs; by constructor). apply and_iff_compat_r, not_iff_compat. split.
    - intros (w & Hw & Hin)%list_elem_of_fmap. destruct (Hs v) as [i Hi]; [by constructor|].
      destruct (Hs w) as [j Hj]; [by constructor|]. rewrite Hi, Hj in Hw. simpl in Hw. subst. by rewrite (ids_inj _ _ _ _ _ Hok Hi Hj).
    - intros Hin. apply list_elem_of_fmap. by exists v. }
  assert (H2 : (forall i, i ∈ es -> i ∉ List.map metadata_idx (versions tl)) <-> ~ Exists (fun v => is_Some (m !! v)) ps.*1).
  { assert (Hm : forall v i, ids !! v = Some i -> is_Some (m !! v) <-> i ∈ List.map metadata_idx (versions tl)).
    { intros v i Hi. rewrite (d_lookup _ _ _ Hd), Hi. simpl. rewrite fmap_is_Some.
      destruct (entry_of i (versions tl)) eqn:E; [|by rewrite <- not_eq_None_Some, entry_of_none in *; split].
      split; [|eauto]. intros _. destruct (decide (i ∈ List.map metadata_idx (versions tl))) as [|Hn]; [done|].
      apply entry_of_none in Hn. congruence. }
    rewrite Exists_exists, Hes. split.
    - intros H (v & Hv & Hsv). destruct (Hsome v Hv) as [i Hi]. apply (H i); [|by apply (Hm v i Hi)].
      apply list_elem_of_fmap. exists v. by rewrite Hi.
    - intros H i (v & -> & Hv)%list_elem_of_fmap Hin. apply H. exists v. split; [done|]. destruct (Hsome v Hv) as [i Hi].
      rewrite Hi in Hin. by apply (Hm v i Hi). }
  by rewrite H1, H2.
Qed.

Lemma dim_batch known ids tl m ps policy tl' r :
  ids_ok known ids -> dim_rep ids tl m -> Forall (fun p => is_Some (ids !! p.1)) ps ->
  insert_batch tl (List.map (entry_in ids) ps) policy = (tl', r) ->
  if bool_decide (policy = Reject) && clash m ps.*1 then tl' = tl /\ exists err, r = Err err
  else r = Ok tt /\ dim_rep ids tl' (place_all policy m ps).
Proof.
  intros Hok Hd Hps Hb. pose proof (entries_clash _ _ _ _ _ Hok Hd Hps) as Hc. simpl in Hc.
  pose proof (insert_batch_spec _ _ _ _ _ (d_ok _ _ _ Hd) Hb) as Hspec. destruct r as [[]|err|]; [|..|done].
  - destruct Hspec as (_ & _ & Hr). case_goal; bool_to_prop.
    + apply bool_decide_eq_true in H. apply Hr, Hc in H. congruence.
    + split; [done|]. by eapply dim_rep_batch.
  - destruct Hspec as (-> & -> & Hn). rewrite bool_decide_eq_true_2 by done. simpl.
    destruct (clash m ps.*1); [eauto|]. by destruct Hn; apply Hc.
Qed.

Lemma empty_rep : entity_rep empty_timelines no_history.
Proof.
  assert (Hd : dim_rep ∅ empty_timeline ∅).
  { split; [apply empty_timeline_ok|intros v; by rewrite !lookup_empty|by intros i ?%not_elem_of_nil]. }
  split; [done| |done|done|done]. split; [constructor|]. intros v i. simpl. rewrite lookup_empty. split; [done|]. by intros [_ ?].
Qed.
Lemma get_rep max s a e : rep max s a -> entity_rep (default empty_timelines (index s !! e)) (get a e).
Proof. intros [_ H]. unfold get. destruct (H e); [done|]. apply empty_rep. Qed.
Lemma set_rep max s a e t h : rep max s a -> entity_rep t h -> rep max (set_timelines e t s) (<[e := h]> a).
Proof.
  intros [Hm H] Ht. split; [done|]. intros e'. simpl. destruct (decide (e = e')) as [->|].
  - rewrite !lookup_insert_eq. by constructor.
  - by rewrite !lookup_insert_ne.
Qed.
Lemma extent_rep max s a x : rep max s a -> rep max (set_extent x s) a.
Proof. done. Qed.
Lemma set_set_rep max s a e t t' h : rep max s a -> entity_rep t h -> rep max (set_timelines e t (set_timelines e t' s)) (<[e := h]> a).
Proof. intros Hr Ht. unfold set_timelines. simpl. rewrite insert_insert_eq. by apply (set_rep max s a e t h). Qed.

Lemma insert_step_rep max s a e v i :
  rep max s a ->
  let '(s', r) := insert_version e v i s in let '(a', b) := spec_step max a (Insert e v i) in
  rep max s' a' /\ r <> Panic /\ is_ok r = b.
Proof.
  intros Hr. pose proof (get_rep _ _ _ e Hr) as He. destruct He as [Hmeta Hids Hv Ht Hdom] eqn:E. clear E.
  unfold insert_version, spec_step. set (t := default empty_timelines (index s !! e)) in *. set (h := get a e) in *.
  assert (Ht0 : entity_rep t h) by done. unfold version_metadata_count at 1 2. cbn [max_versions_per_entity set_timelines].
  rewrite Hmeta. replace (max_versions_per_entity s) with max by (symmetry; apply Hr).
  destruct (max <=? _); cbn [orb]; [split; [by apply set_rep|by split]|].
  assert (Hknown : bool_decide (is_Some (find_metadata_index t v)) = bool_decide (v ∈ known h)).
  { apply bool_decide_ext. by apply ids_known. }
  rewrite Hknown. destruct (decide (v ∈ known h)) as [Hin|Hin].
  { rewrite !(bool_decide_eq_true_2 _ Hin). cbn [orb]. split; [by apply set_rep|by split]. }
  rewrite !(bool_decide_eq_false_2 _ Hin). cbn [orb].
  unfold add_version_metadata, version_metadata_count, full. rewrite Hmeta.
  destruct (u32_max <? _); [split; [by apply set_set_rep|by split]|].
  destruct (ids_snoc _ _ v Hids Hin) as [Hids' Hsub]. set (idx := Z.of_nat (length (known h))) in *.
  assert (Hnone : forall tl m, dim_rep (version_id_to_idx t) tl m -> m !! v = None).
  { intros tl m Hd. apply eq_None_not_Some. intros Hs. by apply Hin, (dim_rep_known _ _ _ _ _ Hids Hd). }
  split; [|by split]. apply extent_rep, set_set_rep; [done|]. split; simpl.
  - done.
  - done.
  - eapply dim_rep_insert; [exact Hids'|by eapply dim_rep_weaken|apply lookup_insert_eq|by eapply Hnone].
  - eapply dim_rep_insert; [exact Hids'|by eapply dim_rep_weaken|apply lookup_insert_eq|by eapply Hnone].
  - intros w. destruct (decide (w = v)) as [->|]; [by rewrite !lookup_insert_eq|by rewrite !lookup_insert_ne].
Qed.

Lemma place_all_dom policy m ps v : is_Some (place_all policy m ps !! v) <-> is_Some (m !! v) \/ v ∈ ps.*1.
Proof.
  unfold place_all. revert m. induction ps as [|[w r] ps IH]; intros m; simpl.
  - split; [by left|]. by intros [|?%not_elem_of_nil].
  - rewrite IH, elem_of_cons. unfold place. simpl. destruct (decide (v = w)) as [->|Hne].
    + rewrite lookup_partial_alter_eq. split; [tauto|]. intros _. left. unfold keep_range.
      destruct (m !! w); [|done]. by destruct policy, (ts_leb _ _).
    + rewrite lookup_partial_alter_ne by done. tauto.
Qed.
Lemma pairs_fst f (vs : list (VersionId * BiTemporalInterval)) : (pairs f vs).*1 = vs.*1.
Proof. induction vs as [|p vs IH]; [done|]. simpl. by f_equal. Qed.
Lemma register_sub vs l v : v ∈ l -> v ∈ (register vs l).1.
Proof.
  revert l. induction vs as [|w vs IH]; intros l Hv; [done|]. simpl. case_bool_decide; [by apply IH|].
  case_goal; [done|]. apply IH. apply elem_of_app. by left.
Qed.

Lemma batch_step_rep max s a e vs policy :
  rep max s a ->
  let '(s', r) := insert_versions_batch e vs policy s in let '(a', b) := spec_step max a (Batch e vs policy) in
  rep max s' a' /\ r <> Panic /\ is_ok r = b.
Proof.
  intros Hr. pose proof (get_rep _ _ _ e Hr) as Ht0. pose proof Ht0 as [Hmeta Hids Hv Ht Hdom].
  unfold insert_versions_batch, spec_step. set (t := default empty_timelines (index s !! e)) in *. set (h := get a e) in *.
  destruct (decide (vs = [])) as [Hnil|Hnil].
  { rewrite !(bool_decide_eq_true_2 _ Hnil). split; [done|by split]. }
  rewrite !(bool_decide_eq_false_2 _ Hnil). unfold version_metadata_count. rewrite Hmeta.
  replace (max_versions_per_entity s) with max by (symmetry; apply Hr).
  destruct (max <? _); [split; [by apply set_rep|by split]|].
  pose proof (batch_loop_spec vs ∅ t [] [] empty_extent) as Hloop. rewrite Hmeta in Hloop.
  specialize (Hloop Hids (map_empty_subseteq _)).
  destruct (batch_loop _ _ _ _ _ _) as [t' r]. destruct (register vs.*1 (known h)) as [known' ok] eqn:Ereg.
  cbn [fst snd] in Hloop. destruct Hloop as (H1 & H2 & H3 & H4 & H5 & H6). rewrite H3 in H4.
  assert (Hv' : dim_rep (version_id_to_idx t') (valid t') (valid_of h)) by (rewrite H1; by eapply dim_rep_weaken).
  assert (Ht' : dim_rep (version_id_to_idx t') (tx t') (tx_of h)) by (rewrite H2; by eapply dim_rep_weaken).
  assert (Hmeta' : entity_rep t' (mkHistory known' (valid_of h) (tx_of h))) by by split.
  destruct r as [[[ve te] x]|err|]; [|by rewrite H6; split; [by apply set_rep|by split]|done].
  destruct H6 as (-> & Hsome & -> & -> & ->). cbn [negb orb app].
  assert (Hps : forall f, Forall (fun p => is_Some (version_id_to_idx t' !! p.1)) (pairs f vs)) by (intros f; by apply Forall_map).
  assert (Hclash : clash (tx_of h) vs.*1 = clash (valid_of h) vs.*1).
  { unfold clash. f_equal. apply bool_decide_ext. rewrite !Exists_exists. by setoid_rewrite Hdom. }
  destruct (insert_batch (valid t') _ policy) as [tl1 r1] eqn:E1.
  pose proof (dim_batch _ _ _ _ _ _ _ _ H4 Hv' (Hps valid_time) E1) as D1. rewrite pairs_fst in D1.
  destruct (bool_decide (policy = Reject) && clash (valid_of h) vs.*1) eqn:Ec.
  { destruct D1 as (-> & err & ->). split; [|by split]. apply set_rep; [done|]. by destruct t'. }
  destruct D1 as [-> D1]. destruct (insert_batch (tx (with_valid tl1 t')) _ policy) as [tl2 r2] eqn:E2.
  pose proof (dim_batch _ _ _ _ _ _ _ _ H4 Ht' (Hps transaction_time) E2) as D2. rewrite pairs_fst, Hclash, Ec in D2.
  destruct D2 as [-> D2]. split; [|by split]. apply extent_rep, set_rep; [done|]. split; try done.
  intros w. simpl. change (List.map (fun p => (p.1, valid_time p.2)) vs) with (pairs valid_time vs).
  change (List.map (fun p => (p.1, transaction_time p.2)) vs) with (pairs transaction_time vs).
  by rewrite !place_all_dom, !pairs_fst, Hdom.
Qed.

Lemma rep_missing max s a e : rep max s a -> index s !! e = None -> a !! e = None.
Proof. intros [_ H] E. specialize (H e). rewrite E in H. by inversion H. Qed.
Lemma alter_insert (a : gmap EntityId History) e (h : History) f : a !! e = Some h -> alter f e a = <[e := f h]> a.
Proof.
  intros He. apply map_eq. intros e'. destruct (decide (e = e')) as [->|].
  - by rewrite lookup_alter_eq, lookup_insert_eq, He.
  - by rewrite lookup_alter_ne, lookup_insert_ne.
Qed.
Lemma alter_absent (a : gmap EntityId History) e f : a !! e = None -> alter f e a = a.
Proof. intros He. apply map_eq. intros e'. destruct (decide (e = e')) as [->|];
    [by rewrite lookup_alter_eq, He|by rewrite lookup_alter_ne]. Qed.

Lemma close_dim known ids tl m v z :
  ids_ok known ids -> dim_rep ids tl m ->
  dim_rep ids (match ids !! v with Some i => (update_end_time tl i z).1 | None => tl end) (alter (close z) v m) /\
  (forall w, is_Some (alter (close z) v m !! w) <-> is_Some (m !! w)).
Proof.
  intros Hok Hd. split; [|intros w; apply lookup_alter_is_Some]. destruct (ids !! v) as [i|] eqn:E.
  - destruct (update_end_time tl i z) as [tl' b] eqn:Eu. by eapply dim_rep_close.
  - assert (Hm : m !! v = None) by (by rewrite (d_lookup _ _ _ Hd), E). replace (alter (close z) v m) with m; [done|].
    apply map_eq. intros w. destruct (decide (v = w)) as [->|]; [by rewrite lookup_alter_eq, Hm|by rewrite lookup_alter_ne].
Qed.

Lemma close_step_rep max s a e v z :
  rep max s a ->
  rep max (update_entity_valid_time_end e v z s) (spec_step max a (CloseValid e v z)).1 /\
  rep max (update_entity_transaction_time_end e v z s) (spec_step max a (CloseTx e v z)).1.
Proof.
  intros Hr. pose proof Hr as [Hmax H]. specialize (H e). unfold update_entity_valid_time_end, update_entity_transaction_time_end.
  simpl. inversion H as [t h Hth Et Eh|Et Eh].
  - pose proof Hth as [Hmeta Hids Hv Ht Hdom]. rewrite !(alter_insert _ _ h) by done.
    destruct (close_dim _ _ _ _ v z Hids Hv) as [V1 V2]. destruct (close_dim _ _ _ _ v z Hids Ht) as [T1 T2].
    unfold update_valid_time_end, update_transaction_time_end, find_metadata_index. split.
    + assert (Hnew : entity_rep (match version_id_to_idx t !! v with Some i => with_valid (update_end_time (valid t) i z).1 t | None => t end)
                       (mkHistory (known h) (alter (close z) v (valid_of h)) (tx_of h))).
      { split; try (by destruct (version_id_to_idx t !! v)).
        intros w. simpl. by rewrite V2. }
      destruct (version_id_to_idx t !! v) as [i|]; [destruct (update_end_time (valid t) i z) as [tl b]|];
        [destruct b|]; try apply extent_rep; by apply set_rep.
    + assert (Hnew : entity_rep (match version_id_to_idx t !! v with Some i => with_tx (update_end_time (tx t) i z).1 t | None => t end)
                       (mkHistory (known h) (valid_of h) (alter (close z) v (tx_of h)))).
      { split; try (by destruct (version_id_to_idx t !! v)).
        intros w. simpl. by rewrite T2. }
      destruct (version_id_to_idx t !! v) as [i|]; [destruct (update_end_time (tx t) i z) as [tl b]|];
        [destruct b|]; try apply extent_rep; by apply set_rep.
  - by rewrite !alter_absent by done.
Qed.

Lemma step_rep max s a o :
  rep max s a ->
  let '(s', r) := index_step s o in let '(a', b) := spec_step max a o in rep max s' a' /\ r <> Panic /\ is_ok r = b.
Proof.
  intros Hr. destruct o as [e v i|e vs policy|e v z|e v z|]; [by apply insert_step_rep|by apply batch_step_rep| | |]; simpl.
  - split; [by apply close_step_rep|by split].
  - split; [by apply close_step_rep|by split].
  - split; [|by split]. split; [apply Hr|]. intros e. simpl. rewrite !lookup_empty. constructor.
Qed.

Lemma run_rep max s a os :
  rep max s a ->
  let '(s', rs) := run_index s os in let '(a', bs) := run_spec max a os in
  rep max s' a' /\ Forall2 (fun r b => r <> Panic /\ is_ok r = b) rs bs.
Proof.
  revert s a. induction os as [|o os IH]; intros s a Hr; simpl; [by split|].
  pose proof (step_rep max s a o Hr) as Hs. destruct (index_step s o) as [s1 r], (spec_step max a o) as [a1 b].
  destruct Hs as (Hr1 & Hs1 & Hs2). specialize (IH _ _ Hr1).
  destruct (run_index s1 os) as [s2 rs], (run_spec max a1 os) as [a2 bs]. destruct IH as [H1 H2]. split; [done|by constructor].
Qed.
Lemma init_rep max : rep max (with_config max) ∅.
Proof. split; [done|]. intros e. simpl. rewrite !lookup_empty. constructor. Qed.
End Refinement.
