(* ===== verification/TimelineLaws.v ===== *)
(** * What the temporal indexes promise

    The index answers every query as its specification does, its extent is the fold
    over everything it holds, and a rejected batch leaves versions behind that can
    never be indexed. *)

From S2P Require Import Prelude.
From S2P Require Import SliceOps.
From S2P Require Import Errors.
From S2P Require Import Hlc.
From S2P Require Import Temporal.
From S2P Require Import Ids.
From S2P Require Import TemporalIndex.
From S2P Require Import Timelines.

Section Queries.
Import TIdx TimelineSpec.

Lemma intersect_spec a b :
  NoDup a -> NoDup b ->
  NoDup (intersect_metadata_indices a b) /\ forall i, i ∈ intersect_metadata_indices a b <-> i ∈ a /\ i ∈ b.
Proof.
  intros Ha Hb. unfold intersect_metadata_indices. case_bool_decide; [case_bool_decide|];
    (split; [by apply NoDup_filter|]); intros i; rewrite list_elem_of_filter, ?elem_of_list_to_set; tauto.
Qed.

Lemma resolve_spec t h l :
  entity_rep t h -> NoDup l -> (forall i, i ∈ l -> exists v, version_id_to_idx t !! v = Some i) ->
  exists vs, resolve_version_ids t l = Ok vs /\ NoDup vs /\ forall v, v ∈ vs <-> exists i, i ∈ l /\ version_id_to_idx t !! v = Some i.
Proof.
  intros Ht. unfold resolve_version_ids. induction l as [|i l IH]; intros Hn Hin.
  - exists []. split_and!; [done|constructor|]. intros v. split; [by intros ?%not_elem_of_nil|]. by intros (i & ?%not_elem_of_nil & _).
  - apply NoDup_cons in Hn as [Hi Hn]. destruct IH as (vs & Hvs & Hnd & Hel); [done|intros; apply Hin; by constructor|].
    destruct (Hin i) as [v Hv]; [by constructor|]. destruct (r_ids _ _ Ht) as [_ Hids].
    apply Hids in Hv as Hv'. destruct Hv' as [_ Hk]. exists (v :: vs). split_and!.
    + assert (Hres : resolve_version_id t i = Ok v).
      { unfold resolve_version_id. rewrite (r_meta _ _ Ht). exact (f_equal expect Hk). }
      simpl. rewrite Hres. simpl. by rewrite Hvs.
    + apply NoDup_cons. split; [|done]. intros (j & Hj & Hvj)%Hel. congruence.
    + intros w. rewrite elem_of_cons, Hel. split.
      * intros [->|(j & Hj & Hw)]; [exists i; split; [by constructor|done]|exists j; split; [by constructor|done]].
      * intros (j & [->|Hj]%elem_of_cons & Hw); [left; by eapply ids_inj; [apply Ht|..]|right; eauto].
Qed.

Lemma dim_entries ids tl m (P : TimeRange -> Prop) v :
  dim_rep ids tl m ->
  (exists i, ids !! v = Some i /\ exists e, entry_of i (versions tl) = Some e /\ P (range_of e)) <-> exists r, m !! v = Some r /\ P r.
Proof.
  intros Hd. rewrite (d_lookup _ _ _ Hd). destruct (ids !! v) as [i|]; simpl.
  - split.
    + intros (j & [= <-] & e & -> & HP). by exists (range_of e).
    + intros (r & Hr & HP). exists i. split; [done|]. destruct (entry_of i (versions tl)) as [e|]; simplify_eq/=. eauto.
  - split; [by intros (i & ? & _)|by intros (r & ? & _)].
Qed.

Lemma find_at_point_spec max s a e vt tt :
  rep max s a ->
  exists l, find_version_at_point s e vt tt = Ok l /\ NoDup l /\ forall v, v ∈ l <-> visible a e vt tt v.
Proof.
  intros [_ Hr]. specialize (Hr e). unfold find_version_at_point, visible, get. inversion Hr as [t h Ht Et Eh|Et Eh]; simpl.
  - pose proof Ht as [Hmeta Hids Hv Htx Hdom]. destruct (intersect_spec (find_indices_at_point (valid t) vt) (find_indices_at_point (tx t) tt)) as [Hn Hin].
    { by apply (point_spec _ _ 0), Hv. } { by apply (point_spec _ _ 0), Htx. }
    assert (Hiv : forall i, i ∈ find_indices_at_point (valid t) vt <->
              exists e, entry_of i (versions (valid t)) = Some e /\ Range.contains (range_of e) vt = true).
    { intros i. rewrite (proj2 (point_spec _ _ i (d_ok _ _ _ Hv))). apply (entry_query _ (fun e => Range.contains (range_of e) vt = true)), Hv. }
    assert (Hit : forall i, i ∈ find_indices_at_point (tx t) tt <->
              exists e, entry_of i (versions (tx t)) = Some e /\ Range.contains (range_of e) tt = true).
    { intros i. rewrite (proj2 (point_spec _ _ i (d_ok _ _ _ Htx))). apply (entry_query _ (fun e => Range.contains (range_of e) tt = true)), Htx. }
    destruct (resolve_spec t h _ Ht Hn) as (l & Hl & Hnd & Hel).
    { intros i [(x & Hx & _)%Hiv _]%Hin. apply (d_known _ _ _ Hv), list_elem_of_fmap.
      apply entry_of_some in Hx as [Hx <-]; [by exists x|apply Hv]. }
    exists l. split_and!; [done|done|]. intros v. rewrite Hel.
    pose proof (dim_entries _ _ _ (fun r => Range.contains r vt = true) v Hv) as D1.
    pose proof (dim_entries _ _ _ (fun r => Range.contains r tt = true) v Htx) as D2. split.
    + intros (i & [Hi1%Hiv Hi2%Hit]%Hin & Hvi). destruct (proj1 D1) as (r1 & ? & ?); [eauto|]. destruct (proj1 D2) as (r2 & ? & ?); [eauto|].
      by exists r1, r2.
    + intros (r1 & r2 & H1 & H2 & H3 & H4). destruct (proj2 D1) as (i & Hi & He1); [eauto|]. destruct (proj2 D2) as (j & Hj & He2); [eauto|].
      rewrite Hi in Hj. simplify_eq. exists j. split; [|done]. apply Hin. split; [by apply Hiv|by apply Hit].
  - exists []. split_and!; [done|constructor|]. intros v. split; [by intros ?%not_elem_of_nil|].
    intros (r1 & r2 & H & _). simpl in H. by rewrite lookup_empty in H.
Qed.

Lemma range_query_spec t h ids tl m range :
  entity_rep t h -> ids = version_id_to_idx t -> dim_rep ids tl m ->
  exists l, resolve_version_ids t (find_indices_in_range tl range) = Ok l /\ NoDup l /\ forall v, v ∈ l <-> meets m range v.
Proof.
  intros Ht -> Hd. pose proof (fun i => range_spec tl range i (d_ok _ _ _ Hd)) as Hq.
  destruct (resolve_spec t h _ Ht (proj1 (Hq 0))) as (l & Hl & Hnd & Hel).
  { intros i (x & Hx & <- & _)%Hq. apply (d_known _ _ _ Hd). by apply list_elem_of_fmap_2. }
  exists l. split_and!; [done|done|]. intros v. rewrite Hel. unfold meets.
  rewrite <- (dim_entries _ _ _ (fun r => (start r < end_ range)%ts /\ (start range < end_ r)%ts) v Hd). unfold range_of. simpl.
  split; intros (i & H1 & H2); exists i.
  - split; [done|]. apply Hq in H1. setoid_rewrite ts_ltb_lt in H1.
    apply (entry_query _ (fun e => (entry_start e < end_ range)%ts /\ (start range < entry_end e)%ts) i (d_ok _ _ _ Hd)) in H1. done.
  - split; [|done]. apply Hq. setoid_rewrite ts_ltb_lt.
    by apply (entry_query _ (fun e => (entry_start e < end_ range)%ts /\ (start range < entry_end e)%ts) i (d_ok _ _ _ Hd)).
Qed.

Lemma find_in_range_spec max s a e range :
  rep max s a ->
  (exists l, find_versions_in_valid_time_range s e range = Ok l /\ NoDup l /\ forall v, v ∈ l <-> meets (valid_of (get a e)) range v) /\
  (exists l, find_versions_in_transaction_time_range s e range = Ok l /\ NoDup l /\ forall v, v ∈ l <-> meets (tx_of (get a e)) range v).
Proof.
  intros [_ Hr]. specialize (Hr e). unfold find_versions_in_valid_time_range, find_versions_in_transaction_time_range, get.
  inversion Hr as [t h Ht Et Eh|Et Eh]; simpl.
  - split; (eapply range_query_spec; [exact Ht|done|apply Ht]).
  - split; exists []; (split_and!; [done|constructor|]); intros v; (split; [by intros ?%not_elem_of_nil|]);
      intros (r & H & _); simpl in H; by rewrite lookup_empty in H.
Qed.

(** C13: The index refines its specification: after any sequence of insertions, batches
    under each duplicate policy, closings and clearings, every operation was
    accepted exactly when the specification accepts it and none panicked; a point
    query answers with exactly the versions whose two recorded ranges contain the
    point, each once, and a range query with those whose range meets it. *)
Theorem temporal_index_refines max os :
  let '(s, rs) := run_index (with_config max) os in let '(a, bs) := run_spec max ∅ os in
  Forall2 (fun r b => r <> Panic /\ is_ok r = b) rs bs /\
  forall e,
    (forall vt tt, exists l, find_version_at_point s e vt tt = Ok l /\ NoDup l /\ forall v, v ∈ l <-> visible a e vt tt v) /\
    (forall range,
      (exists l, find_versions_in_valid_time_range s e range = Ok l /\ NoDup l /\
                 forall v, v ∈ l <-> meets (valid_of (get a e)) range v) /\
      (exists l, find_versions_in_transaction_time_range s e range = Ok l /\ NoDup l /\
                 forall v, v ∈ l <-> meets (tx_of (get a e)) range v)).
Proof.
  pose proof (run_rep max _ _ os (init_rep max)) as H.
  destruct (run_index _ os) as [s rs], (run_spec max ∅ os) as [a bs]. destruct H as [Hr Hf]. split; [done|]. intros e. split.
  - intros vt tt. by eapply find_at_point_spec.
  - intros range. by eapply find_in_range_spec.
Qed.
End Queries.

(** ** The extent *)
Section Extent.
Import TIdx TimelineSpec.
Implicit Types (P Q : TimeRange -> Prop) (r : TimeRange).

(** What a range contributes: an open one only its start. *)
Definition latest_of r : HybridTimestamp := if ts_eqb (end_ r) TIMESTAMP_MAX then start r else end_ r.

(** The fold from scratch over the ranges in [P]: least start, greatest end. *)
Definition fold_of P (d : option HybridTimestamp * option HybridTimestamp) : Prop :=
  match d with
  | (None, None) => forall r, ~ P r
  | (Some lo, Some hi) =>
      (forall r, P r -> (lo <= start r)%ts /\ (latest_of r <= hi)%ts) /\
      (exists r, P r /\ start r = lo) /\ (exists r, P r /\ latest_of r = hi)
  | _ => False
  end.
Definition valid_ranges (a : gmap EntityId History) r : Prop := exists e v, valid_of (get a e) !! v = Some r.
Definition tx_ranges (a : gmap EntityId History) r : Prop := exists e v, tx_of (get a e) !! v = Some r.
Definition extent_exact (s : TemporalIndexes) (a : gmap EntityId History) : Prop :=
  fold_of (valid_ranges a) (valid_earliest (extent_aggregate s), valid_latest (extent_aggregate s)) /\
  fold_of (tx_ranges a) (tx_earliest (extent_aggregate s), tx_latest (extent_aggregate s)).

(** Single insertions, and closings of an open end at or after its start. *)
Definition closes_open (m : gmap VersionId TimeRange) (v : VersionId) (t : HybridTimestamp) : Prop :=
  forall r, m !! v = Some r -> end_ r = TIMESTAMP_MAX /\ (start r <= t)%ts.
Definition widening (a : gmap EntityId History) (o : op) : Prop :=
  match o with
  | Insert _ _ _ | Clear => True
  | CloseValid e v t => closes_open (valid_of (get a e)) v t
  | CloseTx e v t => closes_open (tx_of (get a e)) v t
  | Batch _ _ _ => False
  end.
Fixpoint widening_run (max : Z) (a : gmap EntityId History) (os : list op) : Prop :=
  match os with
  | [] => True
  | o :: os => widening a o /\ widening_run max (spec_step max a o).1 os
  end.

Lemma ts_min_spec a b c : (c <= ts_min a b)%ts <-> (c <= a)%ts /\ (c <= b)%ts.
Proof. unfold ts_min. case_goal; ts_lia. Qed.
Lemma tmin_le a b : (ts_min a b <= a)%ts /\ (ts_min a b <= b)%ts /\ (ts_min a b = a \/ ts_min a b = b).
Proof. unfold ts_min. destruct (ts_leb a b) eqn:E; (split_and!; [ts_lia|ts_lia|tauto]). Qed.
Lemma ts_max_le a b : (a <= ts_max a b)%ts /\ (b <= ts_max a b)%ts /\ (ts_max a b = a \/ ts_max a b = b).
Proof. unfold ts_max. destruct (ts_leb a b) eqn:E; (split_and!; [ts_lia|ts_lia|tauto]). Qed.

Lemma fold_of_ext P Q d : (forall r, P r <-> Q r) -> fold_of P d -> fold_of Q d.
Proof.
  intros He. destruct d as [[lo|] [hi|]]; simpl; [|done|done|].
  - intros (H1 & (r1 & ? & ?) & (r2 & ? & ?)). split_and!; [intros r Hr; by apply H1, He| |]; [exists r1|exists r2]; by rewrite <- He.
  - intros H r Hr. by eapply H, He.
Qed.

Lemma fold_of_insert P Q d r0 :
  (forall r, Q r <-> r = r0 \/ P r) -> fold_of P d -> fold_of Q (observe_range d (start r0) (end_ r0)).
Proof.
  intros HQ. unfold observe_range. fold (latest_of r0). destruct d as [[lo|] [hi|]]; simpl; [|done|done|].
  - intros (H1 & (r1 & HP1 & E1) & (r2 & HP2 & E2)). destruct (tmin_le lo (start r0)) as (A1 & A2 & A3).
    destruct (ts_max_le hi (latest_of r0)) as (B1 & B2 & B3). split_and!.
    + intros r [->|Hr]%HQ; [done|]. destruct (H1 r Hr). split; [etrans; [exact A1|done]|etrans; [done|exact B1]].
    + destruct A3 as [->| ->]; [exists r1|exists r0]; (split; [apply HQ; tauto|done]).
    + destruct B3 as [->| ->]; [exists r2|exists r0]; (split; [apply HQ; tauto|done]).
  - intros HP. split_and!.
    + intros r [->|Hr]%HQ; [by split; reflexivity|by destruct (HP r)].
    + exists r0. split; [apply HQ; tauto|done].
    + exists r0. split; [apply HQ; tauto|done].
Qed.

Lemma fold_of_close P Q R d r0 t :
  (forall r, P r <-> r = r0 \/ R r) -> (forall r, Q r <-> r = close t r0 \/ R r) ->
  end_ r0 = TIMESTAMP_MAX -> (start r0 <= t)%ts -> fold_of P d -> fold_of Q (d.1, observe_closed_end d.2 t).
Proof.
  intros HP HQ Hopen Ht. assert (H0 : latest_of r0 = start r0) by (unfold latest_of; by rewrite Hopen, (proj2 (ts_eqb_eq _ _))).
  unfold observe_closed_end. destruct d as [[lo|] [hi|]]; simpl; [|done| |].
  - intros (H1 & (r1 & HP1 & E1) & (r2 & HP2 & E2)).
    assert (Hlo : exists r, Q r /\ start r = lo).
    { apply HP in HP1 as [->|HR]; [exists (close t r0)|exists r1]; (split; [apply HQ; tauto|done]). }
    destruct (ts_eqb t TIMESTAMP_MAX) eqn:Em.
    + assert (Hc : latest_of (close t r0) = start r0) by (unfold latest_of; simpl; by rewrite Em).
      split_and!; [|done|].
      * intros r [->|Hr]%HQ; [|by apply H1, HP; right]. rewrite Hc. simpl. rewrite <- H0 at 2. apply H1, HP. by left.
      * apply HP in HP2 as [->|HR]; [exists (close t r0); split; [apply HQ; tauto|congruence]|exists r2; split; [apply HQ; tauto|done]].
    + assert (Hc : latest_of (close t r0) = t) by (unfold latest_of; simpl; by rewrite Em).
      destruct (ts_max_le hi t) as (B1 & B2 & B3). split_and!; [|done|].
      * intros r [->|Hr]%HQ; [rewrite Hc; simpl; split; [|done]; by apply H1, HP; left|].
        destruct (H1 r) as [? ?]; [apply HP; by right|]. split; [done|etrans; [done|exact B1]].
      * destruct B3 as [B3|B3]; rewrite B3; [|exists (close t r0); split; [apply HQ; tauto|done]].
        apply HP in HP2 as [->|HR]; [|exists r2; split; [apply HQ; tauto|done]].
        exists (close t r0). split; [apply HQ; tauto|]. rewrite Hc, <- E2, H0. rewrite B3, <- E2, H0 in B2.
        destruct (ts_lt_trichotomy t (start r0)) as [Hlt|[->|Hlt]]; [|done|]; exfalso; ts_lia.
  - done.
  - intros H. exfalso. apply (H r0), HP. by left.
Qed.

(** One accepted or rejected insertion, one closing, seen from the ranges. *)
Lemma get_insert (a : gmap EntityId History) e h e' : get (<[e := h]> a) e' = if decide (e' = e) then h else get a e'.
Proof. unfold get. destruct (decide (e' = e)) as [->|]; [by rewrite lookup_insert_eq|by rewrite lookup_insert_ne]. Qed.
Lemma get_alter f (a : gmap EntityId History) e e' : f no_history = no_history -> get (alter f e a) e' = if decide (e' = e) then f (get a e') else get a e'.
Proof.
  intros Hf. unfold get. destruct (decide (e' = e)) as [->|]; [|by rewrite lookup_alter_ne].
  rewrite lookup_alter_eq. by destruct (a !! e).
Qed.

(** Ranges of all entities in one dimension [dim], by entity and version. *)
Definition ranges_by (dim : History -> gmap VersionId TimeRange) (a : gmap EntityId History) r : Prop :=
  exists e v, dim (get a e) !! v = Some r.

Lemma ranges_insert dim (a a' : gmap EntityId History) e v r0 :
  (forall e' w, dim (get a' e') !! w = if decide (e' = e /\ w = v) then Some r0 else dim (get a e') !! w) ->
  dim (get a e) !! v = None ->
  forall r, ranges_by dim a' r <-> r = r0 \/ ranges_by dim a r.
Proof.
  intros H Hn r. unfold ranges_by. setoid_rewrite H. split.
  - intros (e' & w & Hr). destruct (decide _); [left; congruence|right; eauto].
  - intros [->|(e' & w & Hr)].
    + exists e, v. by rewrite decide_True.
    + exists e', w. rewrite decide_False; [done|]. intros [-> ->]. congruence.
Qed.

Lemma ranges_close dim (a a' : gmap EntityId History) e v r0 r1 :
  (forall e' w, dim (get a' e') !! w = if decide (e' = e /\ w = v) then Some r1 else dim (get a e') !! w) ->
  dim (get a e) !! v = Some r0 ->
  let R := fun r => exists e' w, ~ (e' = e /\ w = v) /\ dim (get a e') !! w = Some r in
  (forall r, ranges_by dim a r <-> r = r0 \/ R r) /\ (forall r, ranges_by dim a' r <-> r = r1 \/ R r).
Proof.
  intros H Hv R. unfold ranges_by, R. split; intros r.
  - split.
    + intros (e' & w & Hr). destruct (decide (e' = e /\ w = v)) as [[-> ->]|]; [left; congruence|right; eauto].
    + intros [->|(e' & w & _ & Hr)]; eauto.
  - setoid_rewrite H. split.
    + intros (e' & w & Hr). destruct (decide _); [left; congruence|right; eauto].
    + intros [->|(e' & w & Hne & Hr)]; [exists e, v; by rewrite decide_True|exists e', w; by rewrite decide_False].
Qed.

Lemma insert_extent max s a e v i :
  rep max s a -> extent_exact s a ->
  extent_exact (insert_version e v i s).1 (spec_step max a (Insert e v i)).1.
Proof.
  intros Hr Hx. pose proof (insert_step_rep max s a e v i Hr) as Hstep.
  pose proof (get_rep _ _ _ e Hr) as Ht. pose proof Ht as [Hmeta Hids Hv Htx Hdom].
  unfold insert_version, spec_step in *. set (t := default empty_timelines (index s !! e)) in *. set (h := get a e) in *.
  assert (Hsame : forall s', extent_aggregate s' = extent_aggregate s -> extent_exact s' (<[e := h]> a)).
  { intros s' He. unfold extent_exact. rewrite He. assert (Hg : forall e', get (<[e := h]> a) e' = get a e').
    { intros e'. rewrite get_insert. by destruct (decide (e' = e)) as [->|]. }
    destruct Hx as [H1 H2]. split; (eapply fold_of_ext; [|eassumption]); intros r; unfold valid_ranges, tx_ranges;
      by setoid_rewrite Hg. }
  destruct (max_versions_per_entity (set_timelines e t s) <=? version_metadata_count t) eqn:E1.
  { destruct ((_ || _) || _) eqn:E2; [by apply Hsame|]. by destruct Hstep as (_ & _ & ?). }
  destruct (bool_decide (is_Some (find_metadata_index t v))) eqn:E2.
  { destruct ((_ || _) || _) eqn:E3; [by apply Hsame|]. by destruct Hstep as (_ & _ & ?). }
  destruct (add_version_metadata t v) as [t1 [idx|err|]] eqn:E3.
  2, 3: destruct ((_ || _) || _) eqn:E4; [by apply Hsame|]; by destruct Hstep as (_ & _ & ?).
  destruct ((_ || _) || _) eqn:E4; [by destruct Hstep as (_ & _ & ?)|]. clear Hstep. cbn [fst].
  apply bool_decide_eq_false in E2. unfold find_metadata_index in E2. rewrite (ids_known _ _ _ Hids) in E2.
  assert (Hnone : forall m tl, dim_rep (version_id_to_idx t) tl m -> m !! v = None).
  { intros m tl Hd. apply eq_None_not_Some. intros Hs. by apply E2, (dim_rep_known _ _ _ _ _ Hids Hd). }
  set (a' := <[e := _]> a). assert (Hg : forall e', get a' e' = if decide (e' = e) then
    mkHistory (known h ++ [v]) (<[v := valid_time i]> (valid_of h)) (<[v := transaction_time i]> (tx_of h)) else get a e')
    by (intros e'; apply get_insert).
  destruct Hx as [H1 H2]. unfold extent_exact, set_extent, observe_interval. simpl. split.
  - refine (fold_of_insert _ _ _ (valid_time i) _ H1). apply (ranges_insert valid_of a a' e v); [|by eapply Hnone].
    intros e' w. rewrite Hg. destruct (decide (e' = e)) as [->|]; simpl.
    + destruct (decide (w = v)) as [->|]; [rewrite decide_True by done; apply lookup_insert_eq|].
      rewrite decide_False by tauto. by rewrite lookup_insert_ne.
    + by rewrite decide_False by tauto.
  - refine (fold_of_insert _ _ _ (transaction_time i) _ H2). apply (ranges_insert tx_of a a' e v); [|by eapply Hnone].
    intros e' w. rewrite Hg. destruct (decide (e' = e)) as [->|]; simpl.
    + destruct (decide (w = v)) as [->|]; [rewrite decide_True by done; apply lookup_insert_eq|].
      rewrite decide_False by tauto. by rewrite lookup_insert_ne.
    + by rewrite decide_False by tauto.
Qed.

(** A closing in one dimension: [dim] of the entity is altered at [v]. *)
Lemma close_dim_extent dim (a a' : gmap EntityId History) e v z d (updated : bool) :
  (forall e', dim (get a' e') = if decide (e' = e) then alter (close z) v (dim (get a e)) else dim (get a e')) ->
  closes_open (dim (get a e)) v z -> (updated = true <-> is_Some (dim (get a e) !! v)) ->
  fold_of (ranges_by dim a) d ->
  fold_of (ranges_by dim a') (d.1, if updated then observe_closed_end d.2 z else d.2).
Proof.
  intros Hg Hopen Hu Hf. destruct (dim (get a e) !! v) as [r0|] eqn:Ev.
  - assert (updated = true) as -> by (apply Hu; eauto). destruct (Hopen r0 Ev) as [Ho Hz].
    destruct (ranges_close dim a a' e v r0 (close z r0)) as [R1 R2]; [|done|exact (fold_of_close _ _ _ d r0 z R1 R2 Ho Hz Hf)].
    intros e' w. rewrite Hg. destruct (decide (e' = e)) as [->|]; [|by rewrite decide_False by tauto].
    destruct (decide (w = v)) as [->|]; [rewrite decide_True by done; by rewrite lookup_alter_eq, Ev|].
    rewrite decide_False by tauto. by rewrite lookup_alter_ne by congruence.
  - assert (updated = false) as -> by (destruct updated; [destruct (proj1 Hu eq_refl); congruence|done]).
    destruct d as [d1 d2]. eapply fold_of_ext, Hf. intros r. unfold ranges_by.
    assert (Hsame : forall e', dim (get a' e') = dim (get a e')).
    { intros e'. rewrite Hg. destruct (decide (e' = e)) as [->|]; [|done]. apply map_eq. intros w.
      destruct (decide (v = w)) as [->|]; [by rewrite lookup_alter_eq, Ev|by rewrite lookup_alter_ne]. }
    by setoid_rewrite Hsame.
Qed.

Lemma updated_spec known ids tl m v z :
  ids_ok known ids -> dim_rep ids tl m ->
  (match ids !! v with Some i => (update_end_time tl i z).2 | None => false end) = true <-> is_Some (m !! v).
Proof.
  intros Hok Hd. rewrite (d_lookup _ _ _ Hd). destruct (ids !! v) as [i|] eqn:E; simpl; [|by split; [|intros []]].
  destruct (update_end_time tl i z) as [tl' b] eqn:Eu. destruct (update_end_ok _ _ _ _ _ (d_ok _ _ _ Hd) Eu) as (_ & _ & Hb & _).
  simpl. rewrite Hb, fmap_is_Some, <- not_eq_None_Some, entry_of_none. split; [tauto|].
  intros Hn. by destruct (decide (i ∈ List.map metadata_idx (versions tl))).
Qed.

Lemma close_extent max s a e v z :
  rep max s a -> extent_exact s a ->
  (closes_open (valid_of (get a e)) v z ->
   extent_exact (update_entity_valid_time_end e v z s) (spec_step max a (CloseValid e v z)).1) /\
  (closes_open (tx_of (get a e)) v z ->
   extent_exact (update_entity_transaction_time_end e v z s) (spec_step max a (CloseTx e v z)).1).
Proof.
  intros Hr [H1 H2]. pose proof (get_rep _ _ _ e Hr) as [_ Hids Hv Htx _]. pose proof (proj2 Hr e) as He.
  pose proof (updated_spec _ _ _ _ v z Hids Hv) as U1. pose proof (updated_spec _ _ _ _ v z Hids Htx) as U2.
  unfold update_entity_valid_time_end, update_entity_transaction_time_end, update_valid_time_end, update_transaction_time_end,
    find_metadata_index. simpl. split; intros Hc.
  - set (a' := alter _ e a). assert (Hg : forall e', get a' e' = if decide (e' = e)
      then mkHistory (known (get a e)) (alter (close z) v (valid_of (get a e))) (tx_of (get a e)) else get a e').
    { intros e'. unfold a'. rewrite get_alter by (unfold no_history; simpl; by rewrite alter_empty).
      by destruct (decide (e' = e)) as [->|]. }
    pose proof (close_dim_extent valid_of a a' e v z _ _ ltac:(intros e'; rewrite Hg; by destruct (decide (e' = e))) Hc U1 H1) as F1.
    assert (F2 : fold_of (tx_ranges a') (tx_earliest (extent_aggregate s), tx_latest (extent_aggregate s))).
    { eapply fold_of_ext, H2. intros r. unfold tx_ranges. assert (Ht : forall e', tx_of (get a' e') = tx_of (get a e')).
      { intros e'. rewrite Hg. by destruct (decide (e' = e)) as [->|]. } by setoid_rewrite Ht. }
    destruct (index s !! e) as [t|]; simpl in F1; [|by split].
    destruct (version_id_to_idx t !! v) as [i|]; [|by split]. destruct (update_end_time (valid t) i z) as [tl []]; by split.
  - set (a' := alter _ e a). assert (Hg : forall e', get a' e' = if decide (e' = e)
      then mkHistory (known (get a e)) (valid_of (get a e)) (alter (close z) v (tx_of (get a e))) else get a e').
    { intros e'. unfold a'. rewrite get_alter by (unfold no_history; simpl; by rewrite alter_empty).
      by destruct (decide (e' = e)) as [->|]. }
    pose proof (close_dim_extent tx_of a a' e v z _ _ ltac:(intros e'; rewrite Hg; by destruct (decide (e' = e))) Hc U2 H2) as F1.
    assert (F2 : fold_of (valid_ranges a') (valid_earliest (extent_aggregate s), valid_latest (extent_aggregate s))).
    { eapply fold_of_ext, H1. intros r. unfold valid_ranges. assert (Ht : forall e', valid_of (get a' e') = valid_of (get a e')).
      { intros e'. rewrite Hg. by destruct (decide (e' = e)) as [->|]. } by setoid_rewrite Ht. }
    destruct (index s !! e) as [t|]; simpl in F1; [|by split].
    destruct (version_id_to_idx t !! v) as [i|]; [|by split]. destruct (update_end_time (tx t) i z) as [tl []]; by split.
Qed.

Lemma extent_run max s a os :
  rep max s a -> extent_exact s a -> widening_run max a os ->
  extent_exact (run_index s os).1 (run_spec max a os).1.
Proof.
  revert s a. induction os as [|o os IH]; intros s a Hr Hx Hw; [done|]. simpl in *. destruct Hw as [Hw Hws].
  pose proof (step_rep max s a o Hr) as Hs.
  assert (Hx' : extent_exact (index_step s o).1 (spec_step max a o).1).
  { destruct o as [e v i|e vs policy|e v z|e v z|]; [by apply insert_extent|done| | |].
    - by apply (close_extent max s a e v z Hr Hx).
    - by apply (close_extent max s a e v z Hr Hx).
    - split; intros r (e & v & Hv); unfold get in Hv; simpl in Hv; rewrite !lookup_empty in Hv; by simpl in Hv; rewrite ?lookup_empty in Hv. }
  destruct (index_step s o) as [s1 r], (spec_step max a o) as [a1 b]. destruct Hs as (Hr1 & _).
  specialize (IH s1 a1 Hr1 Hx' Hws). by destruct (run_index s1 os), (run_spec max a1 os).
Qed.

(** The extent maintained write by write equals the fold over every range the index
    holds, for single insertions and closings of open ends. *)
Theorem extent_is_fold max os :
  widening_run max ∅ os ->
  extent_exact (run_index (with_config max) os).1 (run_spec max ∅ os).1.
Proof.
  intros Hw. apply extent_run; [apply init_rep| |done].
  split; intros r (e & v & Hv); unfold get in Hv; rewrite lookup_empty in Hv; simpl in Hv; by rewrite lookup_empty in Hv.
Qed.
End Extent.

Module TimelineWitness.
Import TIdx TimelineSpec.

Definition at_ (w : Z) : HybridTimestamp := mkTs w 0.
Definition open_from (v t : Z) : BiTemporalInterval := mkInterval (mkRange (at_ v) TIMESTAMP_MAX) (mkRange (at_ t) TIMESTAMP_MAX).
Definition n1 : EntityId := ENode 1.
Definition closings : list op :=
  [Insert n1 1 (open_from 10 100); CloseTx n1 1 (at_ 200); Insert n1 2 (open_from 5 200); CloseValid n1 2 (at_ 7)].

Lemma extent_is_fold_witness :
  extent (run_index (with_config 10) closings).1 = Some (at_ 5, at_ 10, at_ 100, at_ 200) /\
  extent_exact (run_index (with_config 10) closings).1 (run_spec 10 ∅ closings).1.
Proof.
  split; [vm_compute; reflexivity|]. apply (extent_is_fold 10 closings).
  split; [done|]. split; [|split; [done|split; [|done]]]; intros r Hr; vm_compute in Hr; injection Hr as <-; (split; [done|]); left; left; done.
Defined.

(** A batch rejected for one duplicate leaves its other versions registered but in no
    timeline: a later insertion of such a version is refused as a duplicate, and no
    query ever returns it. *)
Theorem rejected_batch_loses_version :
  let '(s, rs) := run_index (with_config 10)
    [Insert n1 1 (open_from 10 100); Batch n1 [(2, open_from 20 100); (1, open_from 10 100)] Reject;
     Insert n1 2 (open_from 20 100)] in
  rs = [Ok tt; Err (EStorage (DuplicateId 0)); Err (EStorage (DuplicateId 2))] /\
  find_version_at_point s n1 (at_ 50) (at_ 150) = Ok [1].
Proof. vm_compute. split; reflexivity. Qed.
End TimelineWitness.
