(* ===== verification/Csr.v ===== *)
(** * Compressed adjacency: [src/index/adjacency.rs]

    The immutable CSR layer of the graph: built from a list of edges by sorting and
    a single pass, read by binary search, exported to three arrays and imported
    from them.  The theory describes an index by its runs, one per source node. *)

From S2P Require Import Prelude.
From S2P Require Import SliceOps.
From S2P Require Import Ids.

Module Csr.
Import Search.

Record AdjacencyEntry := mkEntry { target : NodeId; edge_id : EdgeId; label : Z }.
#[export] Instance entry_eq_dec : EqDecision AdjacencyEntry.
Proof. solve_decision. Defined.

Record AdjacencyIndex := mkIndex {
  node_ids : list NodeId;
  offsets : list Z;
  edges : list AdjacencyEntry;
  max_node_id : Z }.

(** The tuple [build] receives: source, target, edge, label. *)
Definition row : Type := NodeId * AdjacencyEntry.
Definition row_le (a b : row) : Prop :=
  a.1 < b.1 \/ (a.1 = b.1 /\ (target a.2 < target b.2 \/
    (target a.2 = target b.2 /\ edge_id a.2 <= edge_id b.2))).
#[export] Instance row_le_dec a b : Decision (row_le a b).
Proof. unfold row_le. apply _. Defined.

(** What [build] needs of the unstable (parallel) sort by (source, target, edge id):
    any ordering of rows with equal keys is allowed. *)
Class RowSort (sort : list row -> list row) := {
  sort_perm l : sort l ≡ₚ l;
  sort_sorted l : Sorted row_le (sort l) }.

Definition new : AdjacencyIndex := mkIndex [] [0] [] 0.

(** [&edges[start..end]]; out of range it panics. *)
Definition slice_range {A} (l : list A) (start end_ : Z) : res unit (list A) :=
  if (0 <=? start) && (start <=? end_) && (end_ <=? Z.of_nat (length l))
  then Ok (take (Z.to_nat (end_ - start)) (drop (Z.to_nat start) l))
  else Panic.

Definition find_node_index (c : AdjacencyIndex) (node : NodeId) : option nat :=
  binary_search_by (fun probe => probe ?= node) (node_ids c).
Definition adjacency_slice_at (c : AdjacencyIndex) (idx : nat) : res unit (list AdjacencyEntry) :=
  start ← expect (offsets c !! idx);
  end_ ← expect (offsets c !! S idx);
  slice_range (edges c) start end_.
Definition get_adjacency (c : AdjacencyIndex) (node : NodeId) : res unit (list AdjacencyEntry) :=
  match find_node_index c node with
  | Some idx => adjacency_slice_at c idx
  | None => Ok []
  end.
Definition get_adjacency_with_label (c : AdjacencyIndex) (node : NodeId) (l : Z) : res unit (list AdjacencyEntry) :=
  es ← get_adjacency c node; Ok (filter (fun e => label e = l) es).
Definition degree (c : AdjacencyIndex) (node : NodeId) : res unit Z :=
  es ← get_adjacency c node; Ok (Z.of_nat (length es)).
Definition has_edges (c : AdjacencyIndex) (node : NodeId) : res unit bool :=
  d ← degree c node; Ok (0 <? d).
Definition edge_count (c : AdjacencyIndex) : Z := Z.of_nat (length (edges c)).
Definition node_count (c : AdjacencyIndex) : Z := Z.of_nat (length (node_ids c)).
Definition iter_nodes (c : AdjacencyIndex) : list NodeId := node_ids c.

Section Build.
Variable sort : list row -> list row.

(** The single pass over the sorted rows; the vectors grow at their end. *)
Fixpoint build_loop (rows : list row) (current_source : NodeId) (ids : list NodeId) (offs : list Z)
    (flat : list AdjacencyEntry) (mx : Z) : AdjacencyIndex :=
  match rows with
  | [] => mkIndex ids (offs ++ [Z.of_nat (length flat)]) flat mx
  | (source, e) :: rows =>
      let mx := if mx <? source then source else mx in
      let mx := if mx <? target e then target e else mx in
      if negb (source =? current_source)
      then build_loop rows source (ids ++ [source]) (offs ++ [Z.of_nat (length flat)]) (flat ++ [e]) mx
      else build_loop rows current_source ids offs (flat ++ [e]) mx
  end.
Definition build (rows : list row) : AdjacencyIndex :=
  match rows with
  | [] => new
  | _ =>
      let rows := sort rows in
      match rows with
      | [] => mkIndex [] [0] [] 0
      | (source, _) :: _ => build_loop rows source [source] [0] [] 0
      end
  end.
End Build.

(** ** Persistence *)
Definition export_csr (c : AdjacencyIndex) : list Z * list Z * list Z :=
  (node_ids c, offsets c, List.map edge_id (edges c)).

(** [l.windows(2)] *)
Fixpoint windows2 {A} (l : list A) : list (A * A) :=
  match l with
  | x :: ((y :: _) as rest) => (x, y) :: windows2 rest
  | _ => []
  end.

Inductive CsrError := OffsetsLength | FirstOffset | OffsetsDecrease | NodesNotIncreasing | LastOffset.
Definition validate_csr_invariants (ids offs eids : list Z) : res CsrError unit :=
  _ ← guard_err (negb (length offs =? S (length ids))%nat) OffsetsLength;
  _ ← guard_err (match head offs with Some f => negb (f =? 0) | None => false end) FirstOffset;
  _ ← guard_err (existsb (fun w => w.2 <? w.1) (windows2 offs)) OffsetsDecrease;
  _ ← guard_err (existsb (fun w => w.2 <=? w.1) (windows2 ids)) NodesNotIncreasing;
  guard_err (match last offs with Some l => negb (l =? Z.of_nat (length eids)) | None => false end) LastOffset.

(** The entries of one run whose edge the persisted edge list knows. *)
Definition resolve (edges_map : gmap EdgeId (NodeId * Z)) (eids : list EdgeId) : list AdjacencyEntry :=
  omap (fun id => (fun tl => mkEntry tl.1 id tl.2) <$> edges_map !! id) eids.

Fixpoint import_loop (ws : list (Z * Z)) (eids : list EdgeId) (edges_map : gmap EdgeId (NodeId * Z))
    (offs : list Z) (entries : list AdjacencyEntry) : res unit (list Z * list AdjacencyEntry) :=
  match ws with
  | [] => Ok (offs ++ [Z.of_nat (length entries)], entries)
  | (lo, hi) :: ws =>
      run ← slice_range eids lo hi;
      import_loop ws eids edges_map (offs ++ [Z.of_nat (length entries)]) (entries ++ resolve edges_map run)
  end.
Definition import_csr (ids offs eids : list Z) (edges_map : gmap EdgeId (NodeId * Z)) : res unit AdjacencyIndex :=
  if bool_decide (offs = []) || bool_decide (eids = []) then Ok new
  else
    match validate_csr_invariants ids offs eids with
    | Ok _ =>
        '(offs, entries) ← import_loop (windows2 offs) eids edges_map [] [];
        Ok (mkIndex ids offs entries (foldr Z.max 0 ids))
    | _ => Panic
    end.
End Csr.

(** ** Theory *)
Module CsrFacts.
Import Search Csr.

(** A run: a source node with its entries. *)
Abbreviation runs := (list (NodeId * list AdjacencyEntry)).

Fixpoint offs (k : Z) (rs : list (list AdjacencyEntry)) : list Z :=
  match rs with
  | [] => [k]
  | r :: rs => k :: offs (k + Z.of_nat (length r)) rs
  end.
Definition of_runs (gs : runs) (mx : Z) : AdjacencyIndex :=
  mkIndex (List.map fst gs) (offs 0 (List.map snd gs)) (concat (List.map snd gs)) mx.
Definition rows_of (gs : runs) : list row := concat (List.map (fun g => List.map (pair g.1) g.2) gs).
Definition increasing (gs : runs) : Prop := StronglySorted Z.lt (List.map fst gs).

(** The entries of a node among a list of rows. *)
Definition of_node (n : NodeId) (rows : list row) : list AdjacencyEntry :=
  List.map snd (filter (fun r : row => r.1 = n) rows).

(** What an index stands for: its rows, in order of (source, target, edge id). *)
Definition csr_of (c : AdjacencyIndex) (rows : list row) : Prop :=
  exists gs mx, c = of_runs gs mx /\ increasing gs /\ rows = rows_of gs.

Lemma of_node_app n l1 l2 : of_node n (l1 ++ l2) = of_node n l1 ++ of_node n l2.
Proof. unfold of_node. by rewrite filter_app, map_app. Qed.

Lemma of_node_run n m (es : list AdjacencyEntry) :
  of_node n (List.map (pair m) es) = if decide (m = n) then es else [].
Proof.
  induction es as [|e es IH]; [by destruct (decide _)|]. unfold of_node in *. cbn [List.map].
  rewrite filter_cons. simpl. destruct (decide (m = n)); simpl; by rewrite IH.
Qed.

Lemma rows_of_cons g gs : rows_of (g :: gs) = List.map (pair g.1) g.2 ++ rows_of gs.
Proof. done. Qed.
Lemma rows_of_app gs1 gs2 : rows_of (gs1 ++ gs2) = rows_of gs1 ++ rows_of gs2.
Proof. unfold rows_of. by rewrite map_app, concat_app. Qed.

Lemma of_node_none gs n : n ∉ List.map fst gs -> of_node n (rows_of gs) = [].
Proof.
  induction gs as [|[m es] gs IH]; [done|]. cbn [List.map fst]. intros Hn.
  apply not_elem_of_cons in Hn as [H1 H2].
  rewrite rows_of_cons, of_node_app, of_node_run, IH by done. by destruct (decide _).
Qed.

Lemma of_node_lookup gs i n es :
  increasing gs -> gs !! i = Some (n, es) -> of_node n (rows_of gs) = es.
Proof.
  unfold increasing. revert i. induction gs as [|[m es'] gs IH]; intros i Hs Hi; [done|].
  inversion Hs as [|? ? Hs' Hall]; subst. rewrite rows_of_cons, of_node_app, of_node_run. simpl.
  destruct i as [|i]; simpl in Hi; simplify_eq.
  - rewrite decide_True by done. rewrite of_node_none; [by rewrite app_nil_r|].
    intros Hn. rewrite Forall_forall in Hall. specialize (Hall n Hn). simpl in Hall. lia.
  - rewrite (IH i Hs' Hi). destruct (decide (m = n)) as [->|]; [|done].
    rewrite Forall_forall in Hall. specialize (Hall n). simpl in Hall.
    assert (n < n); [|lia]. apply Hall, list_elem_of_lookup. exists i.
    change (List.map fst gs) with (fst <$> gs). by rewrite list_lookup_fmap, Hi.
Qed.

Lemma slice_range_app {A} (l1 l2 l3 : list A) :
  slice_range (l1 ++ l2 ++ l3) (Z.of_nat (length l1)) (Z.of_nat (length l1) + Z.of_nat (length l2)) = Ok l2.
Proof.
  unfold slice_range. rewrite !length_app.
  assert ((0 <=? Z.of_nat (length l1)) && (Z.of_nat (length l1) <=? Z.of_nat (length l1) + Z.of_nat (length l2)) &&
    (Z.of_nat (length l1) + Z.of_nat (length l2) <=? Z.of_nat (length l1 + (length l2 + length l3))) = true) as ->.
  { rewrite !andb_true_iff, !Z.leb_le. lia. }
  f_equal. replace (Z.to_nat (Z.of_nat (length l1) + Z.of_nat (length l2) - Z.of_nat (length l1))) with (length l2) by lia.
  rewrite Nat2Z.id, drop_app_length, take_app_length. done.
Qed.

Lemma offs_lookup rs k i r :
  rs !! i = Some r ->
  offs k rs !! i = Some (k + Z.of_nat (length (concat (take i rs)))) /\
  offs k rs !! S i = Some (k + Z.of_nat (length (concat (take i rs))) + Z.of_nat (length r)).
Proof.
  revert k i. induction rs as [|r' rs IH]; intros k i Hi; [done|]. destruct i as [|i]; simpl in Hi; simplify_eq; simpl.
  - split; [f_equal; lia|]. destruct rs; simpl; f_equal; lia.
  - destruct (IH (k + Z.of_nat (length r')) i Hi) as [H1 H2]. rewrite H1, H2, length_app. split; f_equal; lia.
Qed.

Lemma concat_split (rs : list (list AdjacencyEntry)) i r :
  rs !! i = Some r -> concat rs = concat (take i rs) ++ r ++ concat (drop (S i) rs).
Proof. intros Hi. rewrite <- (take_drop_middle rs i r Hi) at 1. by rewrite concat_app. Qed.

Lemma slice_at_run gs mx i n es :
  gs !! i = Some (n, es) -> adjacency_slice_at (of_runs gs mx) i = Ok es.
Proof.
  intros Hi. assert (Hr : List.map snd gs !! i = Some es).
  { change (List.map snd gs) with (snd <$> gs). by rewrite list_lookup_fmap, Hi. }
  unfold adjacency_slice_at, of_runs. simpl. destruct (offs_lookup _ 0 _ _ Hr) as [-> ->]. simpl.
  rewrite (concat_split _ _ _ Hr). apply slice_range_app.
Qed.

Lemma strongly_sorted_lookup (l : list Z) i j x y :
  StronglySorted Z.lt l -> (i < j)%nat -> l !! i = Some x -> l !! j = Some y -> x < y.
Proof.
  intros Hs. revert i j. induction Hs as [|z l Hs IH Hall]; intros i j Hij Hi Hj; [done|].
  destruct j as [|j]; [lia|]. simpl in Hj. destruct i as [|i]; simpl in Hi; [|apply (IH i j); [lia|done..]].
  simplify_eq. rewrite Forall_forall in Hall. apply Hall, list_elem_of_lookup. eauto.
Qed.

Lemma sorted_ascending (l : list Z) n : StronglySorted Z.lt l -> ascending (fun p => p ?= n) l.
Proof.
  intros Hs i j x y Hij Hx Hy. assert (x <= y).
  { destruct (decide (i = j)) as [->|]; [rewrite Hx in Hy; simplify_eq; lia|].
    assert (Hlt : (i < j)%nat) by lia. pose proof (strongly_sorted_lookup _ _ _ _ _ Hs Hlt Hx Hy). lia. }
  rewrite !Z.compare_gt_iff, !Z.compare_lt_iff. lia.
Qed.

(** Reading a node gives exactly its rows. *)
Lemma csr_get c rows n : csr_of c rows -> get_adjacency c n = Ok (of_node n rows).
Proof.
  intros (gs & mx & -> & Hs & ->). unfold get_adjacency, find_node_index. simpl.
  destruct (binary_search_by _ _) as [i|] eqn:Hb.
  - apply binary_search_found in Hb as (m & Hm & Hc). apply Z.compare_eq_iff in Hc as ->.
    change (List.map fst gs) with (fst <$> gs) in Hm.
    rewrite list_lookup_fmap in Hm. destruct (gs !! i) as [[m es]|] eqn:Hi; simplify_eq/=.
    rewrite (slice_at_run _ _ _ _ _ Hi). f_equal. symmetry. by eapply of_node_lookup.
  - rewrite of_node_none; [done|]. intros Hn.
    eapply (binary_search_missing (fun p => p ?= n)); [by apply sorted_ascending|done|exact Hn|].
    by apply Z.compare_refl.
Qed.

(** *** Building *)
Lemma offs_snoc rs k r : offs k (rs ++ [r]) = offs k rs ++ [k + Z.of_nat (length (concat (rs ++ [r])))].
Proof.
  revert k. induction rs as [|r' rs IH]; intros k; simpl.
  - rewrite app_nil_r. done.
  - rewrite IH. simpl. f_equal. f_equal. rewrite !length_app. f_equal. lia.
Qed.

Lemma increasing_snoc gs src r :
  increasing gs -> Forall (fun g : NodeId * list AdjacencyEntry => g.1 < src) gs -> increasing (gs ++ [(src, r)]).
Proof.
  unfold increasing. rewrite map_app. intros Hs Hall. induction Hall as [|g gs Hg Hall IH]; simpl.
  - by repeat constructor.
  - inversion Hs as [|? ? Hs' Hg']; subst. constructor; [by apply IH|].
    apply Forall_app. split; [done|]. by repeat constructor.
Qed.

Definition by_source (rows : list row) : Prop := StronglySorted (fun a b : row => a.1 <= b.1) rows.

Lemma build_loop_spec rows gs src r mx :
  increasing (gs ++ [(src, r)]) -> Forall (fun g : NodeId * list AdjacencyEntry => g.1 < src) gs ->
  Forall (fun a : row => src <= a.1) rows -> by_source rows ->
  exists gs' mx',
    build_loop rows src (List.map fst (gs ++ [(src, r)])) (offs 0 (List.map snd gs))
      (concat (List.map snd (gs ++ [(src, r)]))) mx = of_runs gs' mx' /\
    increasing gs' /\ rows_of gs' = rows_of (gs ++ [(src, r)]) ++ rows.
Proof.
  revert gs src r mx. induction rows as [|[s e] rows IH]; intros gs src r mx Hinc Hlt Hle Hs.
  - exists (gs ++ [(src, r)]), mx. rewrite app_nil_r. split; [|done]. simpl. unfold of_runs. f_equal.
    rewrite !map_app. simpl. rewrite offs_snoc. done.
  - inversion Hle as [|? ? Hse Hle']; subst. inversion Hs as [|? ? Hs' Hall]; subst. simpl in Hse. cbn [build_loop].
    case_goal; bool_to_prop.
    + assert (Hsrc : src < s) by lia.
      destruct (IH (gs ++ [(src, r)]) s [e] (let mx := if mx <? s then s else mx in if mx <? target e then target e else mx))
        as (gs' & mx' & E & Hi & Hr).
      * apply increasing_snoc; [done|]. apply Forall_app. split; [|by repeat constructor].
        eapply Forall_impl; [exact Hlt|]. simpl. lia.
      * apply Forall_app. split; [|by repeat constructor]. eapply Forall_impl; [exact Hlt|]. simpl. lia.
      * exact Hall.
      * exact Hs'.
      * exists gs', mx'. split_and!; [|done|].
        -- rewrite <- E. f_equal.
           ++ by rewrite !map_app.
           ++ rewrite !map_app. simpl. by rewrite offs_snoc.
           ++ rewrite (map_app _ (gs ++ _)), concat_app. done.
        -- rewrite Hr, (rows_of_app (gs ++ _)), <- app_assoc. done.
    + subst s. destruct (IH gs src (r ++ [e]) (let mx := if mx <? src then src else mx in if mx <? target e then target e else mx))
        as (gs' & mx' & E & Hi & Hr); [|done..|].
      * unfold increasing in *. by rewrite map_app in Hinc |- *.
      * exists gs', mx'. split_and!; [|done|].
        -- rewrite <- E. rewrite !map_app, !concat_app. simpl. by rewrite !app_nil_r, app_assoc.
        -- rewrite Hr, !rows_of_app, !rows_of_cons. simpl. rewrite map_app. unfold rows_of. simpl.
           by rewrite !app_nil_r, <- !app_assoc.
Qed.

Lemma row_le_source rows : Sorted row_le rows -> by_source rows.
Proof.
  intros Hs. apply Sorted_StronglySorted in Hs.
  - unfold by_source. induction Hs as [|a l Hs IH Hall]; constructor; [done|].
    eapply Forall_impl; [exact Hall|]. intros b Hab. unfold row_le in Hab. simpl. lia.
  - intros a b c H1 H2. unfold row_le in *. lia.
Qed.

Lemma build_rows (sort : list row -> list row) `{!RowSort sort} rows : csr_of (build sort rows) (sort rows).
Proof.
  destruct rows as [|x rows].
  - exists [], 0. split_and!; [done|constructor|]. pose proof (sort_perm []) as Hp.
    apply Permutation_nil_r in Hp. by rewrite Hp.
  - unfold build. pose proof (sort_sorted (x :: rows)) as Hs. destruct (sort (x :: rows)) as [|[src e] l].
    + exists [], 0. split_and!; [done|constructor|done].
    + pose proof (row_le_source _ Hs) as Hs'. inversion Hs' as [|? ? Hs'' Hall]; subst.
      destruct (build_loop_spec ((src, e) :: l) [] src [] 0) as (gs & mx & E & Hi & Hr); [..|done|].
      * repeat constructor.
      * constructor.
      * constructor; [simpl; lia|exact Hall].
      * exists gs, mx. split_and!; [exact E|done|by rewrite Hr].
Qed.

(** *** Collecting the rows back, filtered *)
Lemma csr_collect (keep : AdjacencyEntry -> bool) c rows :
  csr_of c rows ->
  (ls ← mapM (fun n => slice ← get_adjacency c n; Ok (List.map (pair n) (List.filter keep slice))) (iter_nodes c);
   Ok (concat ls)) = Ok (E := unit) (List.filter (fun r : row => keep r.2) rows).
Proof.
  intros Hc. pose proof (csr_get c rows) as Hg. destruct Hc as (gs & mx & -> & Hs & ->). unfold iter_nodes. simpl.
  assert (Hall : forall n es, (n, es) ∈ gs -> get_adjacency (of_runs gs mx) n = Ok es).
  { intros n es Hin. rewrite Hg by (by exists gs, mx). f_equal. apply list_elem_of_lookup in Hin as [i Hi].
    by eapply of_node_lookup. }
  clear Hg Hs. revert Hall. generalize (of_runs gs mx). intros c Hall.
  assert (Hm : mapM (fun n => slice ← get_adjacency c n; Ok (List.map (pair n) (List.filter keep slice))) (List.map fst gs)
     = Ok (List.map (fun g : NodeId * list AdjacencyEntry => List.map (pair g.1) (List.filter keep g.2)) gs)).
  { induction gs as [|[n es] gs IH]; [done|]. simpl. rewrite (Hall n es) by constructor. simpl.
    rewrite IH; [done|]. intros m es' Hin. apply Hall. by constructor. }
  rewrite Hm. simpl. f_equal. clear. induction gs as [|[n es] gs IH]; [done|].
  rewrite rows_of_cons. simpl. rewrite List.filter_app, IH. f_equal. clear.
  induction es as [|e es IH]; [done|]. simpl. destruct (keep e); simpl; by rewrite IH.
Qed.

Lemma csr_count c rows : csr_of c rows -> edge_count c = Z.of_nat (length rows).
Proof.
  intros (gs & mx & -> & _ & ->). unfold edge_count, rows_of, of_runs. simpl. f_equal.
  induction gs as [|g gs IH]; [done|]. simpl. by rewrite !length_app, IH, length_map.
Qed.

(** *** Validation of persisted arrays *)
Definition id_runs := list (NodeId * list EdgeId).
Fixpoint id_offs (k : Z) (rs : list (list EdgeId)) : list Z :=
  match rs with
  | [] => [k]
  | r :: rs => k :: id_offs (k + Z.of_nat (length r)) rs
  end.

Lemma strictly_increasing_windows l :
  existsb (fun w : Z * Z => w.2 <=? w.1) (windows2 l) = false -> StronglySorted Z.lt l.
Proof.
  intros H. apply Sorted_StronglySorted; [intros x y z; lia|]. induction l as [|x [|y l] IH]; [constructor|by repeat constructor|].
  simpl in H. apply orb_false_iff in H as [H1 H2]. bool_to_prop. constructor; [by apply IH|]. constructor. lia.
Qed.

Lemma windows_split os eids k :
  existsb (fun w : Z * Z => w.2 <? w.1) (windows2 os) = false -> head os = Some k ->
  last os = Some (k + Z.of_nat (length eids)) ->
  exists rs, os = id_offs k rs /\ eids = concat rs.
Proof.
  revert k eids. induction os as [|x [|y os] IH]; intros k eids Hw Hh Hl; [done| |].
  - exists []. simpl in *. injection Hh as ->. injection Hl as Hl. destruct eids; simpl in *; [done|lia].
  - cbn [windows2 existsb] in Hw. apply orb_false_iff in Hw as [H1 H2]. bool_to_prop. cbn [fst snd] in H1.
    simpl in Hh. simplify_eq. rewrite last_cons_cons in Hl.
    assert (Hmono : forall l, existsb (fun w : Z * Z => w.2 <? w.1) (windows2 (y :: l)) = false ->
      forall z, last (y :: l) = Some z -> y <= z).
    { clear. intros l. revert y. induction l as [|y' l IH]; intros y Hw z Hz; [simpl in Hz; simplify_eq; lia|].
      cbn [windows2 existsb] in Hw. apply orb_false_iff in Hw as [H1 H2]. bool_to_prop. cbn [fst snd] in H1.
      rewrite last_cons_cons in Hz. specialize (IH y' H2 z Hz). lia. }
    pose proof (Hmono os H2 _ Hl) as Hyl.
    destruct (IH y (drop (Z.to_nat (y - k)) eids) H2 eq_refl) as (rs & Ho & He).
    { rewrite Hl, length_drop. f_equal. lia. }
    exists (take (Z.to_nat (y - k)) eids :: rs). simpl. split.
    + rewrite length_take. rewrite Ho. do 2 f_equal. lia.
    + by rewrite <- He, take_drop.
Qed.

Lemma guard_bind_ok {E A} (b : bool) (e : E) (f : unit -> res E A) r :
  (guard_err b e ≫= f) = Ok r <-> b = false /\ f tt = Ok r.
Proof. unfold guard_err. destruct b; simpl; naive_solver. Qed.

Section Import.
Variable m : gmap EdgeId (NodeId * Z).

Definition resolved (gs : id_runs) : runs := List.map (fun g => (g.1, resolve m g.2)) gs.

Lemma import_loop_spec rs pre offs0 entries :
  import_loop (windows2 (id_offs (Z.of_nat (length pre)) rs)) (pre ++ concat rs) m offs0 entries =
  Ok (offs0 ++ offs (Z.of_nat (length entries)) (List.map (resolve m) rs), entries ++ concat (List.map (resolve m) rs)).
Proof.
  revert pre offs0 entries. induction rs as [|r rs IH]; intros pre offs0 entries; cbn [id_offs].
  - simpl. by rewrite app_nil_r.
  - assert (Hw : windows2 (Z.of_nat (length pre) :: id_offs (Z.of_nat (length pre) + Z.of_nat (length r)) rs) =
      (Z.of_nat (length pre), Z.of_nat (length pre) + Z.of_nat (length r)) ::
      windows2 (id_offs (Z.of_nat (length pre) + Z.of_nat (length r)) rs)) by (by destruct rs).
    rewrite Hw. cbn [import_loop concat]. rewrite slice_range_app. cbn [mbind res_bind].
    replace (Z.of_nat (length pre) + Z.of_nat (length r)) with (Z.of_nat (length (pre ++ r))) by (rewrite length_app; lia).
    rewrite app_assoc, IH, <- !app_assoc. simpl. rewrite length_app, Nat2Z.inj_add. done.
Qed.

Lemma import_loop_all rs :
  import_loop (windows2 (id_offs 0 rs)) (concat rs) m [] [] =
  Ok (offs 0 (List.map (resolve m) rs), concat (List.map (resolve m) rs)).
Proof. exact (import_loop_spec rs [] [] []). Qed.

Lemma validate_runs ids os eids :
  validate_csr_invariants ids os eids = Ok tt -> os <> [] ->
  exists gs : id_runs, ids = List.map fst gs /\ os = id_offs 0 (List.map snd gs) /\ eids = concat (List.map snd gs) /\
    StronglySorted Z.lt ids.
Proof.
  unfold validate_csr_invariants. intros H Hne. destruct os as [|k os]; [done|]. cbn [head] in H.
  rewrite !guard_bind_ok in H. destruct H as (Hlen & Hk & Hw & Hids & Hl).
  apply negb_false_iff, Nat.eqb_eq in Hlen. bool_to_prop. subst k.
  destruct (last (0 :: os)) as [z|] eqn:Hlast; [|by apply last_None in Hlast].
  unfold guard_err in Hl. case_hyp Hl; [done|]. bool_to_prop. subst z.
  destruct (windows_split (0 :: os) eids 0) as (rs & Ho & He); [done|done|by rewrite Hlast|].
  assert (Hrs : length rs = length ids).
  { assert (Hl' : length (0 :: os) = S (length rs)).
    { rewrite Ho. generalize 0. clear. induction rs; intros k; [done|]. simpl. by f_equal. }
    simpl in *. lia. }
  exists (zip ids rs).
  assert (H1 : List.map fst (zip ids rs : id_runs) = ids) by (apply fst_zip; by rewrite Hrs).
  assert (H2 : List.map snd (zip ids rs : id_runs) = rs) by (apply snd_zip; by rewrite Hrs).
  rewrite H1, H2. split_and!; [done..|]. by apply strictly_increasing_windows.
Qed.

Lemma import_runs ids os eids c :
  import_csr ids os eids m = Ok c -> os <> [] -> eids <> [] ->
  exists gs : id_runs, ids = List.map fst gs /\ os = id_offs 0 (List.map snd gs) /\ eids = concat (List.map snd gs) /\
    csr_of c (rows_of (resolved gs)).
Proof.
  unfold import_csr. intros H Ho He. rewrite !bool_decide_eq_false_2 in H by done. simpl in H.
  destruct (validate_csr_invariants ids os eids) as [[]|?|] eqn:Hv; try done.
  destruct (validate_runs _ _ _ Hv Ho) as (gs & -> & -> & -> & Hs). exists gs. split_and!; [done..|].
  rewrite import_loop_all in H. simpl in H. simplify_eq.
  assert (Hfst : List.map fst (resolved gs) = List.map fst gs) by (unfold resolved; rewrite map_map; done).
  exists (resolved gs), (foldr Z.max 0 (List.map fst gs)). split_and!; [|by unfold increasing; rewrite Hfst|done].
  unfold of_runs. rewrite Hfst. unfold resolved. rewrite !map_map. done.
Qed.
End Import.

Lemma windows_increasing l :
  StronglySorted Z.lt l -> existsb (fun w : Z * Z => w.2 <=? w.1) (windows2 l) = false.
Proof.
  induction 1 as [|x l Hs IH Hall]; [done|]. destruct l as [|y l]; [done|]. cbn [windows2 existsb] in *.
  rewrite IH, orb_false_r. apply Forall_cons in Hall as [? _]. cbn [fst snd]. apply Z.leb_gt. lia.
Qed.

Lemma validate_of_runs gs mx :
  increasing gs -> validate_csr_invariants (List.map fst gs) (offs 0 (List.map snd gs)) (List.map edge_id (edges (of_runs gs mx))) = Ok tt.
Proof.
  intros Hs. unfold validate_csr_invariants, guard_err.
  assert (Hlen : length (offs 0 (List.map snd gs)) = S (length (List.map fst gs))).
  { generalize 0. clear. induction gs; intros k; [done|]. simpl. by f_equal. }
  rewrite Hlen, Nat.eqb_refl. simpl.
  assert (head (offs 0 (List.map snd gs)) = Some 0) as -> by (by destruct gs). simpl.
  assert (existsb (fun w => w.2 <? w.1) (windows2 (offs 0 (List.map snd gs))) = false) as ->.
  { generalize 0. clear. induction gs as [|g gs IH]; intros k; [done|]. simpl.
    specialize (IH (k + Z.of_nat (length g.2))). destruct gs; simpl in *; rewrite ?IH, orb_false_r; apply Z.ltb_ge; lia. }
  cbn [guard_err mbind res_bind]. rewrite (windows_increasing _ Hs).
  simpl. assert (last (offs 0 (List.map snd gs)) = Some (Z.of_nat (length (concat (List.map snd gs))))) as ->.
  { assert (Hl : forall k, last (offs k (List.map snd gs)) = Some (k + Z.of_nat (length (concat (List.map snd gs))))); [|apply Hl].
    clear. induction gs as [|g gs IH]; intros k; simpl; [f_equal; lia|].
    specialize (IH (k + Z.of_nat (length g.2))). rewrite length_app.
    destruct (offs (k + Z.of_nat (length g.2)) (List.map snd gs)) eqn:E; [by destruct gs|].
    rewrite last_cons_cons, IH. f_equal. lia. }
  by rewrite length_map, Z.eqb_refl.
Qed.

Lemma resolve_known m (es : list AdjacencyEntry) :
  Forall (fun e => m !! edge_id e = Some (target e, label e)) es -> resolve m (List.map edge_id es) = es.
Proof.
  induction 1 as [|e es He Hes IH]; [done|]. unfold resolve in *. simpl. rewrite He. simpl. f_equal; [by destruct e|exact IH].
Qed.
End CsrFacts.

Section CsrProperties.
Import Csr CsrFacts.

(** The index built from any list of edges returns, for every node, exactly the
    edges out of that node, ordered by target and edge id, and never indexes out
    of range. *)
Theorem csr_build_reads (sort : list row -> list row) `{!RowSort sort} rows n :
  get_adjacency (build sort rows) n = Ok (of_node n (sort rows)) /\
  of_node n (sort rows) ≡ₚ of_node n rows /\
  edge_count (build sort rows) = Z.of_nat (length rows).
Proof.
  pose proof (build_rows sort rows) as Hc. split_and!.
  - by apply csr_get.
  - unfold of_node. by rewrite (sort_perm rows).
  - rewrite (csr_count _ _ Hc). by rewrite (sort_perm rows).
Qed.

(** Importing three untrusted arrays panics unless they form a CSR; when it
    succeeds the arrays are the runs of strictly increasing nodes, and reading a
    node gives its persisted run without the edges the persisted edge list does
    not know (never an entry of another node, never out of range). *)
Theorem import_untrusted (m : gmap EdgeId (NodeId * Z)) ids os eids :
  os <> [] -> eids <> [] ->
  match import_csr ids os eids m with
  | Ok c => exists gs : id_runs, ids = List.map fst gs /\ eids = concat (List.map snd gs) /\
      (forall n run, (n, run) ∈ gs -> get_adjacency c n = Ok (resolve m run)) /\
      (forall n, n ∉ ids -> get_adjacency c n = Ok [])
  | Err _ => False
  | Panic => is_ok (validate_csr_invariants ids os eids) = false
  end.
Proof.
  intros Ho He. destruct (import_csr ids os eids m) as [c|[]|] eqn:E.
  { destruct (import_runs _ _ _ _ _ E Ho He) as (gs & Hi & Hos & Hes & Hc). exists gs. split_and!; [done..| |].
    + intros n run Hin. rewrite (csr_get _ _ n Hc). f_equal. apply list_elem_of_lookup in Hin as [i Hi'].
      eapply (of_node_lookup _ i).
      * unfold import_csr in E. rewrite !bool_decide_eq_false_2 in E by done. simpl in E.
        destruct (validate_csr_invariants ids os eids) as [[]| |] eqn:Hv; try done.
        destruct (validate_runs _ _ _ Hv Ho) as (? & _ & _ & _ & Hs). rewrite Hi in Hs.
        unfold increasing, resolved. rewrite map_map. exact Hs.
      * unfold resolved. change (List.map ?f gs) with (f <$> gs). by rewrite list_lookup_fmap, Hi'.
    + intros n Hn. rewrite (csr_get _ _ n Hc), of_node_none; [done|]. unfold resolved. rewrite map_map. rewrite Hi in Hn. exact Hn. }
  all: unfold import_csr in E; rewrite !bool_decide_eq_false_2 in E by done; simpl in E;
    destruct (validate_csr_invariants ids os eids) as [[]| |] eqn:Hv; [|done..];
    destruct (validate_runs _ _ _ Hv Ho) as (gs & -> & -> & -> & Hs);
    by rewrite import_loop_all in E.
Qed.

(** Exporting a built index and importing it against an edge list that knows its
    edges gives back the same arrays (the recorded largest id apart). *)
Theorem csr_persist_roundtrip (sort : list row -> list row) `{!RowSort sort} rows (m : gmap EdgeId (NodeId * Z)) :
  Forall (fun r : row => m !! edge_id r.2 = Some (target r.2, label r.2)) rows ->
  let c := build sort rows in
  let '(ids, os, eids) := export_csr c in
  exists mx, import_csr ids os eids m = Ok (mkIndex (node_ids c) (offsets c) (edges c) mx).
Proof.
  intros Hm c. destruct (build_rows sort rows) as (gs & mx & Hc & Hs & Hr). fold c in Hc. unfold export_csr.
  rewrite Hc. simpl. unfold import_csr.
  assert (Hrows : concat (List.map snd gs) = List.map snd (sort rows)).
  { rewrite Hr. unfold rows_of. clear. induction gs as [|[n es] gs IH]; [done|]. simpl.
    rewrite map_app, IH, map_map. simpl. by rewrite map_id. }
  assert (Hes : Forall (fun e => m !! edge_id e = Some (target e, label e)) (concat (List.map snd gs))).
  { rewrite Hrows. rewrite <- (sort_perm rows) in Hm. by apply Forall_map. }
  destruct (decide (concat (List.map snd gs) = [])) as [He|He].
  { assert (rows = []) as ->.
    { rewrite He in Hrows. symmetry in Hrows. apply map_eq_nil in Hrows. pose proof (sort_perm rows) as Hp.
      rewrite Hrows in Hp. by apply Permutation_nil_l in Hp. }
    rewrite He, (bool_decide_eq_true_2 (List.map edge_id [] = [])), orb_true_r by done. exists 0. change (new = of_runs gs mx) in Hc.
    unfold new, of_runs in Hc. injection Hc as H1 H2 H3 H4. unfold new. do 2 f_equal; done. }
  rewrite !bool_decide_eq_false_2; [|by intros ?%map_eq_nil|by destruct gs]. cbn [orb].
  pose proof (validate_of_runs gs mx Hs) as Hv. unfold of_runs in Hv. simpl in Hv. rewrite Hv.
  assert (Hio : offs 0 (List.map snd gs) = id_offs 0 (List.map (List.map edge_id) (List.map snd gs))).
  { generalize 0. clear. induction gs as [|g gs IH]; intros k; [done|]. simpl. rewrite length_map. by f_equal. }
  pose proof (import_loop_all m (List.map (List.map edge_id) (List.map snd gs))) as Hl.
  rewrite <- concat_map, <- Hio in Hl. rewrite Hl. simpl.
  assert (Hres : List.map (resolve m) (List.map (List.map edge_id) (List.map snd gs)) = List.map snd gs).
  { clear -Hes. induction gs as [|g gs IH]; [done|]. simpl in *. apply Forall_app in Hes as [H1 H2].
    rewrite resolve_known by done. by rewrite IH. }
  rewrite Hres. eauto.
Qed.
End CsrProperties.

Module CsrWitness.
Import Csr CsrFacts.

#[export] Instance row_le_total : Total row_le.
Proof. intros a b. unfold row_le. lia. Qed.

(** A sort that meets the contract. *)
#[export] Instance merge_row_sort : RowSort (merge_sort row_le).
Proof.
  split; [intros l; apply merge_sort_Permutation|].
  intros l. apply (Sorted_merge_sort row_le).
Qed.

Definition rows0 : list row :=
  [(7, mkEntry 3 12 5); (2, mkEntry 9 11 5); (7, mkEntry 1 10 6); (2, mkEntry 9 4 6)].
Definition c0 : AdjacencyIndex := build (merge_sort row_le) rows0.
Definition m0 : gmap EdgeId (NodeId * Z) := {[ 12 := (3, 5); 11 := (9, 5); 10 := (1, 6); 4 := (9, 6) ]}.

Lemma csr_build_reads_witness :
  get_adjacency c0 7 = Ok [mkEntry 1 10 6; mkEntry 3 12 5] /\ get_adjacency c0 5 = Ok [] /\
  (get_adjacency c0 2 = Ok (of_node 2 (merge_sort row_le rows0)) /\
   of_node 2 (merge_sort row_le rows0) ≡ₚ of_node 2 rows0 /\ edge_count c0 = 4).
Proof. split; [by vm_compute|]. split; [by vm_compute|]. exact (csr_build_reads (merge_sort row_le) rows0 2). Defined.

Lemma csr_persist_roundtrip_witness :
  exists mx, import_csr [2; 7] [0; 2; 4] [4; 11; 10; 12] m0 =
    Ok (mkIndex [2; 7] [0; 2; 4] [mkEntry 9 4 6; mkEntry 9 11 5; mkEntry 1 10 6; mkEntry 3 12 5] mx).
Proof.
  assert (H : Forall (fun r : row => m0 !! edge_id r.2 = Some (target r.2, label r.2)) rows0).
  { repeat (apply Forall_cons_2; [vm_compute; reflexivity|]). apply Forall_nil_2. }
  apply (csr_persist_roundtrip (merge_sort row_le)) in H. vm_compute in H. vm_compute. exact H.
Defined.

Lemma import_untrusted_witness :
  match import_csr [2; 7] [0; 2; 4] [4; 99; 10; 12] m0 with
  | Ok c => exists gs : id_runs, [2; 7] = List.map fst gs /\ [4; 99; 10; 12] = concat (List.map snd gs) /\
      (forall n run, (n, run) ∈ gs -> get_adjacency c n = Ok (resolve m0 run)) /\
      (forall n, n ∉ [2; 7] -> get_adjacency c n = Ok [])
  | Err _ => False
  | Panic => is_ok (validate_csr_invariants [2; 7] [0; 2; 4] [4; 99; 10; 12]) = false
  end.
Proof. apply (import_untrusted m0 [2; 7] [0; 2; 4] [4; 99; 10; 12]); discriminate. Defined.

(** The imported index does not keep the largest node id: targets are not counted. *)
Lemma import_shrinks_max_node :
  max_node_id c0 = 9 /\
  max_node_id <$> (match import_csr (node_ids c0) (offsets c0) (List.map edge_id (edges c0)) m0 with Ok c => Some c | _ => None end)
    = Some 7.
Proof. split; by vm_compute. Qed.
End CsrWitness.
