(* ===== verification/Adjacency.v ===== *)
(** * Incremental adjacency: [src/index/incremental_adjacency.rs]

    One direction of the graph's adjacency: an immutable CSR, a delta buffer of
    recent insertions and a set of tombstones.  Readers merge the three without a
    lock while one compaction at a time moves the delta into a new CSR.  Module
    [Incr] holds the state and the sequential operations; module [Interleaved] the
    atomic steps of any number of writers and readers and of the compaction.  The
    wall-clock stamps of tombstones and of the last compaction are not kept. *)

From S2P Require Import Prelude.
From S2P Require Import SliceOps.
From S2P Require Import Ids.
From S2P Require Import Csr.

Module Incr.
Import Search Csr.

(** The fields of [IncrementalAdjacencyIndex] and its [AdjacencyStats]; the [Arc] of
    the frozen CSR is its allocation number and what it holds. *)
Record Index := mkIncr {
  frozen : nat * AdjacencyIndex;
  delta : gmap NodeId (list AdjacencyEntry);
  tombstones : gset EdgeId;
  delta_edge_count : Z;
  tombstone_count : Z;
  frozen_edge_count : Z;
  interrupted_publish : bool;
  publish_window : bool }.

Definition with_config (f : AdjacencyIndex) : Index := mkIncr (0%nat, f) ∅ ∅ 0 0 (edge_count f) false false.
Definition new : Index := with_config Csr.new.

Section Setters.
Implicit Types x : Index.
Definition set_delta d x : Index :=
  mkIncr (frozen x) d (tombstones x) (delta_edge_count x) (tombstone_count x) (frozen_edge_count x)
    (interrupted_publish x) (publish_window x).
Definition set_tombstones t x : Index :=
  mkIncr (frozen x) (delta x) t (delta_edge_count x) (tombstone_count x) (frozen_edge_count x)
    (interrupted_publish x) (publish_window x).
Definition set_delta_count n x : Index :=
  mkIncr (frozen x) (delta x) (tombstones x) n (tombstone_count x) (frozen_edge_count x)
    (interrupted_publish x) (publish_window x).
Definition set_tombstone_count n x : Index :=
  mkIncr (frozen x) (delta x) (tombstones x) (delta_edge_count x) n (frozen_edge_count x)
    (interrupted_publish x) (publish_window x).
Definition set_interrupted b x : Index :=
  mkIncr (frozen x) (delta x) (tombstones x) (delta_edge_count x) (tombstone_count x) (frozen_edge_count x)
    b (publish_window x).
Definition set_window b x : Index :=
  mkIncr (frozen x) (delta x) (tombstones x) (delta_edge_count x) (tombstone_count x) (frozen_edge_count x)
    (interrupted_publish x) b.

(** The swap of the CSR, a new allocation, and the store of its edge count. *)
Definition publish (c : AdjacencyIndex) x : Index :=
  mkIncr (S (frozen x).1, c) (delta x) (tombstones x) (delta_edge_count x) (tombstone_count x) (edge_count c)
    (interrupted_publish x) (publish_window x).
End Setters.

(** ** Writing: the counter first, then the map *)
Definition count_insert (x : Index) : Index := set_delta_count (delta_edge_count x + 1) x.
Definition push (source : NodeId) (e : AdjacencyEntry) (x : Index) : Index :=
  set_delta (<[source := default [] (delta x !! source) ++ [e]]> (delta x)) x.
Definition insert (source : NodeId) (e : AdjacencyEntry) (x : Index) : Index := push source e (count_insert x).

Definition count_delete (x : Index) : Index := set_tombstone_count (tombstone_count x + 1) x.
Definition mark (id : EdgeId) (x : Index) : Index := set_tombstones ({[id]} ∪ tombstones x) x.
Definition delete_edge (id : EdgeId) (x : Index) : Index := mark id (count_delete x).

(** ** Reading *)
Record MergedAdjacencyGuard := mkGuard {
  node : NodeId;
  g_frozen : nat * AdjacencyIndex;
  g_delta : option (list AdjacencyEntry);
  g_window : bool;
  fast_path : bool;
  tombstones_empty : bool }.

Definition get_adjacency (x : Index) (n : NodeId) : MergedAdjacencyGuard :=
  let delta_empty := delta_edge_count x =? 0 in
  let tombs_empty := tombstone_count x =? 0 in
  if delta_empty && tombs_empty then mkGuard n (frozen x) None false true true
  else mkGuard n (frozen x) (delta x !! n) (publish_window x) false tombs_empty.

Definition frozen_slice (g : MergedAdjacencyGuard) : res unit (list AdjacencyEntry) :=
  Csr.get_adjacency (g_frozen g).2 (node g).
Definition delta_slice (g : MergedAdjacencyGuard) : list AdjacencyEntry := default [] (g_delta g).

Definition entry_key (e : AdjacencyEntry) : Z * Z := (target e, edge_id e).
Definition frozen_slice_contains (slice : list AdjacencyEntry) (e : AdjacencyEntry) : bool :=
  match binary_search_by (fun probe => pair_cmp (entry_key probe) (entry_key e)) slice with
  | Some _ => true
  | None => false
  end.

(** [iter]; [tombs] is what the tombstone map holds while it runs. *)
Definition iter (tombs : gset EdgeId) (g : MergedAdjacencyGuard) : res unit (list AdjacencyEntry) :=
  fs ← frozen_slice g;
  let ds := delta_slice g in
  if tombstones_empty g && (negb (g_window g) || bool_decide (ds = [])) then Ok (fs ++ ds)
  else
    let live e := tombstones_empty g || negb (bool_decide (edge_id e ∈ tombs)) in
    Ok (List.filter live fs ++
        List.filter (fun e => live e && negb (g_window g && frozen_slice_contains fs e)) ds).

Definition len (tombs : gset EdgeId) (g : MergedAdjacencyGuard) : res unit Z :=
  es ← iter tombs g; Ok (Z.of_nat (length es)).
Definition is_empty (tombs : gset EdgeId) (g : MergedAdjacencyGuard) : res unit bool :=
  es ← iter tombs g; Ok (bool_decide (es = [])).
Definition get (tombs : gset EdgeId) (g : MergedAdjacencyGuard) (index : nat) : res unit (option AdjacencyEntry) :=
  es ← iter tombs g; Ok (es !! index).
Definition capacity_hint (g : MergedAdjacencyGuard) : res unit Z :=
  fs ← frozen_slice g; Ok (Z.of_nat (length fs) + Z.of_nat (length (delta_slice g))).
Definition fast_len (g : MergedAdjacencyGuard) : res unit (option Z) :=
  if fast_path g then (fs ← frozen_slice g; Ok (Some (Z.of_nat (length fs)))) else Ok None.
Definition as_slice (tombs : gset EdgeId) (g : MergedAdjacencyGuard) : res unit (option (list AdjacencyEntry)) :=
  if bool_decide (g_delta g = None) && bool_decide (tombs = ∅) then (fs ← frozen_slice g; Ok (Some fs)) else Ok None.
Definition is_tombstoned (tombs : gset EdgeId) (g : MergedAdjacencyGuard) (id : EdgeId) : bool :=
  negb (tombstones_empty g) && bool_decide (id ∈ tombs).

Definition frozen_view (x : Index) : option (nat * AdjacencyIndex) :=
  if 0 <? delta_edge_count x then None
  else if 0 <? tombstone_count x then None
  else Some (frozen x).

(** ** Compaction *)
Definition flatten (chunks : list (NodeId * list AdjacencyEntry)) : list row :=
  concat (List.map (fun c => List.map (pair c.1) c.2) chunks).

(** Steps 3 and 4: what the new CSR holds. *)
Definition merge (f : AdjacencyIndex) (local_tombstones : gset EdgeId) (local_delta : list row) (recovering : bool) :
    res unit (list row) :=
  let delta_ids := if recovering then list_to_set (List.map (fun r : row => edge_id r.2) local_delta) else (∅ : gset EdgeId) in
  ls ← mapM (fun n =>
         slice ← Csr.get_adjacency f n;
         Ok (List.map (pair n) (List.filter (fun adj =>
               negb (bool_decide (edge_id adj ∈ local_tombstones)) &&
               negb (recovering && bool_decide (edge_id adj ∈ delta_ids))) slice))) (iter_nodes f);
  Ok (concat ls ++ List.filter (fun r : row => negb (bool_decide (edge_id r.2 ∈ local_tombstones))) local_delta).

(** The grouping of [retire_delta]: consecutive rows of one source. *)
Fixpoint per_node (merged : list row) : list (NodeId * gset EdgeId) :=
  match merged with
  | [] => []
  | (source, adj) :: rest =>
      match per_node rest with
      | (n, ids) :: groups => if n =? source then (n, {[edge_id adj]} ∪ ids) :: groups
                              else (source, {[edge_id adj]}) :: (n, ids) :: groups
      | [] => [(source, {[edge_id adj]})]
      end
  end.

(** [entries.retain(..)] under [get_mut], then [remove_if]: two accesses of the map. *)
Definition retain (source : NodeId) (ids : gset EdgeId) (d : gmap NodeId (list AdjacencyEntry)) :
    gmap NodeId (list AdjacencyEntry) * Z :=
  match d !! source with
  | Some entries =>
      let kept := List.filter (fun e => negb (bool_decide (edge_id e ∈ ids))) entries in
      (<[source := kept]> d, Z.of_nat (length entries) - Z.of_nat (length kept))
  | None => (d, 0)
  end.
Definition remove_if_empty (source : NodeId) (d : gmap NodeId (list AdjacencyEntry)) : gmap NodeId (list AdjacencyEntry) :=
  match d !! source with Some [] => delete source d | _ => d end.
Definition retire_delta (merged : list row) (d : gmap NodeId (list AdjacencyEntry)) : gmap NodeId (list AdjacencyEntry) * Z :=
  foldl (fun st g => let '(d, retired) := retain g.1 g.2 st.1 in (remove_if_empty g.1 d, st.2 + retired)) (d, 0) (per_node merged).

Definition retire_tombstones (merged tombs : gset EdgeId) : gset EdgeId * Z :=
  (tombs ∖ merged, Z.of_nat (size (tombs ∩ merged))).

(** [counter.saturating_sub(amount)] of two [usize]. *)
Definition saturating_sub (counter amount : Z) : Z := Z.max 0 (counter - amount).

Section Compact.
Variable sort : list row -> list row.

(** Steps 1 to 7: snapshot both layers, merge, open the window, swap the CSR in. *)
Definition publish_merged (x : Index) : res unit (Index * gset EdgeId * list row) :=
  let local_tombstones := tombstones x in
  let local_delta := flatten (map_to_list (delta x)) in
  let recovering := interrupted_publish x in
  let x := set_interrupted false x in
  rows ← merge (frozen x).2 local_tombstones local_delta recovering;
  let x := if bool_decide (local_delta = []) then x else set_window true x in
  Ok (publish (build sort rows) x, local_tombstones, local_delta).

(** [compact_locked] with nothing interleaved; [exclusive] is what
    [wait_until_exclusive] answers. *)
Definition compact_locked (exclusive : bool) (x : Index) : res unit Index :=
  if bool_decide (flatten (map_to_list (delta x)) = []) && bool_decide (tombstones x = ∅) then Ok x
  else
    '(x, local_tombstones, local_delta) ← publish_merged x;
    let '(d, retired) := retire_delta local_delta (delta x) in
    let x := set_delta_count (saturating_sub (delta_edge_count x) retired) (set_delta d x) in
    let x := if bool_decide (local_delta = []) then x else set_window false x in
    Ok (if negb (bool_decide (local_tombstones = ∅)) && exclusive then
          let '(t, retired) := retire_tombstones local_tombstones (tombstones x) in
          set_tombstone_count (saturating_sub (tombstone_count x) retired) (set_tombstones t x)
        else x).

(** A panic between the swap and the retiring: the window guard is dropped while
    unwinding ([PublishWindow::drop]), the worker catches it. *)
Definition unwind (x : Index) : Index := set_window false (set_interrupted true x).
Definition compact_panicking (x : Index) : res unit Index :=
  if bool_decide (flatten (map_to_list (delta x)) = []) then Ok x
  else '(x, _, _) ← publish_merged x; Ok (unwind x).

(** [import_frozen_csr_locked] and its checked variant *)
Definition import_frozen_csr (c : AdjacencyIndex) (x : Index) : Index :=
  mkIncr (S (frozen x).1, c) ∅ ∅ 0 0 (edge_count c) (interrupted_publish x) (publish_window x).
Definition try_import_frozen_csr (c : AdjacencyIndex) (x : Index) : Index * res unit unit :=
  if (0 <? Z.of_nat (size (delta x))) || (0 <? Z.of_nat (size (tombstones x))) then (x, Err tt)
  else (import_frozen_csr c x, Ok tt).
End Compact.
End Incr.

(** ** Interleavings

    Every access of an atomic or of a concurrent map is a step.  A reader that got a
    delta reference pins that entry until it is done (the map's shard lock), so no
    writer or compaction changes it meanwhile.  Iterating the two maps in a
    compaction is a step per entry: entries present from the start of the iteration
    to its end are visited. *)
Module Interleaved.
Import Search Csr Incr.

Inductive Compaction :=
  | Idle
  | ScanTombstones (f : nat * AdjacencyIndex) (lt : gset EdgeId)
  | ScanDelta (f : nat * AdjacencyIndex) (lt : gset EdgeId) (ld : list row) (todo seen : gset NodeId)
  | Built (c : AdjacencyIndex) (lt : gset EdgeId) (ld : list row)
  | Opened (c : AdjacencyIndex) (lt : gset EdgeId) (ld : list row)
  | Retain (previous : nat) (lt : gset EdgeId) (todo : list (NodeId * gset EdgeId)) (retired : Z)
  | Remove (previous : nat) (lt : gset EdgeId) (n : NodeId) (todo : list (NodeId * gset EdgeId)) (retired : Z)
  | Close (previous : nat) (lt : gset EdgeId)
  | Wait (previous : nat) (lt : gset EdgeId)
  | RetireTombstones (lt : gset EdgeId) (todo : list EdgeId) (retired : Z)
  | CompactionPanicked.

Inductive Phase :=
  | Begun
  | CountedDelta (delta_empty : bool)
  | Counted (delta_empty tombs_empty : bool)
  | Pinned (tombs_empty : bool) (d : option (list AdjacencyEntry))
  | Loaded (tombs_empty : bool) (d : option (list AdjacencyEntry)) (f : nat * AdjacencyIndex)
  | Iterating (g : MergedAdjacencyGuard) (todo out : list AdjacencyEntry)
  | Finished (out : list AdjacencyEntry)
  | ReaderPanicked.

(** A reader, with what had been inserted and deleted, and the CSR current, when it
    began. *)
Record Reader := mkReader {
  reads : NodeId;
  phase : Phase;
  inserted0 : list row;
  deleted0 : gset EdgeId;
  version0 : nat }.

(** The index, the compaction, the readers; the insertions and deletions that have
    counted but not yet written, and those completed. *)
Record State := mkState {
  index : Index;
  compaction : Compaction;
  readers : gmap nat Reader;
  inserting : list row;
  deleting : list EdgeId;
  inserted : list row;
  deleted : gset EdgeId }.

Definition init : State := mkState Incr.new Idle ∅ [] [] [] ∅.

Inductive Action :=
  | InsertCount (n : NodeId) (e : AdjacencyEntry)
  | InsertPush (n : NodeId) (e : AdjacencyEntry)
  | DeleteCount (id : EdgeId)
  | DeleteMark (id : EdgeId)
  | CompactStart
  | CompactTombstone (id : EdgeId)
  | CompactDelta (n : NodeId)
  | CompactAdvance
  | CompactGiveUp
  | ReadBegin (r : nat) (n : NodeId)
  | ReadNext (r : nat).

Definition set_index x s : State :=
  mkState x (compaction s) (readers s) (inserting s) (deleting s) (inserted s) (deleted s).
Definition set_compaction c s : State :=
  mkState (index s) c (readers s) (inserting s) (deleting s) (inserted s) (deleted s).
Definition set_reader r rd s : State :=
  mkState (index s) (compaction s) (<[r := rd]> (readers s)) (inserting s) (deleting s) (inserted s) (deleted s).
Definition set_phase p rd : Reader := mkReader (reads rd) p (inserted0 rd) (deleted0 rd) (version0 rd).

(** The delta reference and the CSR a phase holds. *)
Definition pin (p : Phase) : option (list AdjacencyEntry) :=
  match p with Pinned _ d | Loaded _ d _ => d | Iterating g _ _ => g_delta g | _ => None end.
Definition holds (p : Phase) : option nat :=
  match p with Loaded _ _ f => Some f.1 | Iterating g _ _ => Some (g_frozen g).1 | _ => None end.

Definition pinned (s : State) (n : NodeId) : bool :=
  existsb (fun rd => bool_decide (reads rd = n) && bool_decide (is_Some (pin (phase rd)))) (map_to_list (readers s)).*2.
Definition held (s : State) (v : nat) : bool :=
  existsb (fun rd => bool_decide (holds (phase rd) = Some v)) (map_to_list (readers s)).*2.

(** What a guard will emit, tombstones apart. *)
Definition candidates (g : MergedAdjacencyGuard) : res unit (list AdjacencyEntry) :=
  fs ← frozen_slice g;
  Ok (fs ++ List.filter (fun e => negb (g_window g && frozen_slice_contains fs e)) (delta_slice g)).

Definition start_iterating (g : MergedAdjacencyGuard) : Phase :=
  match candidates g with Ok todo => Iterating g todo [] | _ => ReaderPanicked end.

(** The next access of a reader. *)
Definition read_step (x : Index) (n : NodeId) (p : Phase) : option Phase :=
  match p with
  | Begun => Some (CountedDelta (delta_edge_count x =? 0))
  | CountedDelta de => Some (Counted de (tombstone_count x =? 0))
  | Counted true true => Some (start_iterating (mkGuard n (frozen x) None false true true))
  | Counted de te => Some (Pinned te (delta x !! n))
  | Pinned te d => Some (Loaded te d (frozen x))
  | Loaded te d f => Some (start_iterating (mkGuard n f d (publish_window x) false te))
  | Iterating g (e :: todo) out =>
      Some (Iterating g todo
              (if tombstones_empty g || negb (bool_decide (edge_id e ∈ tombstones x)) then out ++ [e] else out))
  | Iterating g [] out => Some (Finished out)
  | Finished _ | ReaderPanicked => None
  end.

Section Steps.
Variable sort : list row -> list row.

(** The next access of the compaction ([CompactAdvance]). *)
Definition compact_step (s : State) : option State :=
  let x := index s in
  match compaction s with
  | ScanTombstones f lt => Some (set_compaction (ScanDelta f lt [] (dom (delta x)) ∅) s)
  | ScanDelta f lt ld todo _ =>
      if bool_decide (todo = ∅) then
        if bool_decide (ld = []) && bool_decide (lt = ∅) then Some (set_compaction Idle s)
        else Some (set_index (set_interrupted false x)
               (set_compaction (match merge f.2 lt ld (interrupted_publish x) with
                                | Ok rows => Built (build sort rows) lt ld
                                | _ => CompactionPanicked
                                end) s))
      else None
  | Built c lt ld =>
      Some (set_index (if bool_decide (ld = []) then x else set_window true x) (set_compaction (Opened c lt ld) s))
  | Opened c lt ld => Some (set_index (publish c x) (set_compaction (Retain (frozen x).1 lt (per_node ld) 0) s))
  | Retain v lt ((n, ids) :: todo) retired =>
      if pinned s n then None
      else let '(d, k) := retain n ids (delta x) in
           Some (set_index (set_delta d x)
             (set_compaction (if bool_decide (d !! n = Some []) then Remove v lt n todo (retired + k)
                              else Retain v lt todo (retired + k)) s))
  | Remove v lt n todo retired =>
      if pinned s n then None
      else Some (set_index (set_delta (remove_if_empty n (delta x)) x) (set_compaction (Retain v lt todo retired) s))
  | Retain v lt [] retired =>
      Some (set_index (set_delta_count (saturating_sub (delta_edge_count x) retired) x) (set_compaction (Close v lt) s))
  | Close v lt => Some (set_index (set_window false x) (set_compaction (Wait v lt) s))
  | Wait v lt =>
      if bool_decide (lt = ∅) then Some (set_compaction Idle s)
      else if held s v then None
      else Some (set_compaction (RetireTombstones lt (elements lt) 0) s)
  | RetireTombstones lt (id :: todo) retired =>
      Some (set_index (set_tombstones (tombstones x ∖ {[id]}) x)
             (set_compaction (RetireTombstones lt todo
                (if bool_decide (id ∈ tombstones x) then retired + 1 else retired)) s))
  | RetireTombstones lt [] retired =>
      Some (set_index (set_tombstone_count (saturating_sub (tombstone_count x) retired) x) (set_compaction Idle s))
  | Idle | CompactionPanicked => None
  end.

(** One step, if it is enabled.  Edge ids are inserted once and deleted once, after
    their insertion (they come from a generator, and [CurrentIndexes::remove_edge]
    deletes only what it removed from the edge map). *)
Definition exec (s : State) (a : Action) : option State :=
  let x := index s in
  match a with
  | InsertCount n e =>
      if bool_decide (edge_id e ∈ List.map (fun r : row => edge_id r.2) (inserting s ++ inserted s)) then None
      else Some (mkState (count_insert x) (compaction s) (readers s) ((n, e) :: inserting s) (deleting s)
                   (inserted s) (deleted s))
  | InsertPush n e =>
      if bool_decide ((n, e) ∈ inserting s) && negb (pinned s n)
      then Some (mkState (push n e x) (compaction s) (readers s)
                   (filter (fun r => r <> (n, e)) (inserting s)) (deleting s) ((n, e) :: inserted s) (deleted s))
      else None
  | DeleteCount id =>
      if bool_decide (id ∈ List.map (fun r : row => edge_id r.2) (inserted s)) &&
         negb (bool_decide (id ∈ deleting s)) && negb (bool_decide (id ∈ deleted s))
      then Some (mkState (count_delete x) (compaction s) (readers s) (inserting s) (id :: deleting s)
                   (inserted s) (deleted s))
      else None
  | DeleteMark id =>
      if bool_decide (id ∈ deleting s)
      then Some (mkState (mark id x) (compaction s) (readers s) (inserting s)
                   (filter (fun i => i <> id) (deleting s)) (inserted s) ({[id]} ∪ deleted s))
      else None
  | CompactStart =>
      match compaction s with Idle => Some (set_compaction (ScanTombstones (frozen x) ∅) s) | _ => None end
  | CompactTombstone id =>
      match compaction s with
      | ScanTombstones f lt =>
          if bool_decide (id ∈ tombstones x) then Some (set_compaction (ScanTombstones f ({[id]} ∪ lt)) s) else None
      | _ => None
      end
  | CompactDelta n =>
      match compaction s with
      | ScanDelta f lt ld todo seen =>
          if bool_decide (n ∈ seen) then None
          else Some (set_compaction (ScanDelta f lt (ld ++ List.map (pair n) (default [] (delta x !! n)))
                                       (todo ∖ {[n]}) ({[n]} ∪ seen)) s)
      | _ => None
      end
  | CompactAdvance => compact_step s
  | CompactGiveUp => match compaction s with Wait _ _ => Some (set_compaction Idle s) | _ => None end
  | ReadBegin r n =>
      match readers s !! r with
      | Some _ => None
      | None => Some (set_reader r (mkReader n Begun (inserted s) (deleted s) (frozen x).1) s)
      end
  | ReadNext r =>
      match readers s !! r with
      | Some rd => (fun p => set_reader r (set_phase p rd) s) <$> read_step x (reads rd) (phase rd)
      | None => None
      end
  end.

Fixpoint run (s : State) (acts : list Action) : option State :=
  match acts with
  | [] => Some s
  | a :: acts => s' ← exec s a; run s' acts
  end.
Definition reachable (s : State) : Prop := exists acts, run init acts = Some s.
End Steps.
End Interleaved.
