(* ===== verification/Compaction.v ===== *)
(** * Layers of the adjacency index and their compaction

    The rows held by the delta buffer and by the frozen CSR, what retiring and
    merging do to them, and the sequential contract: reading a node gives its live
    edges, before and after a compaction. *)

From S2P Require Import Prelude.
From S2P Require Import SliceOps.
From S2P Require Import Ids.
From S2P Require Import Csr.
From S2P Require Import Adjacency.

Section Layers.
Import Search Csr CsrFacts Incr.
Implicit Types (d : gmap NodeId (list AdjacencyEntry)) (r : row).

Definition row_id (r : row) : EdgeId := edge_id r.2.
Definition delta_rows d : list row := flatten (map_to_list d).

Lemma elem_bfilter {A} (f : A -> bool) l x : x ∈ List.filter f l <-> f x = true /\ x ∈ l.
Proof. rewrite !list_elem_of_In, List.filter_In. tauto. Qed.
Lemma NoDup_bfilter {A} (f : A -> bool) l : NoDup l -> NoDup (List.filter f l).
Proof. rewrite !NoDup_ListNoDup. apply List.NoDup_filter. Qed.
Lemma elem_pairs n (l : list AdjacencyEntry) r : r ∈ List.map (pair n) l <-> r.1 = n /\ r.2 ∈ l.
Proof.
  change (List.map (pair n) l) with (pair n <$> l). rewrite list_elem_of_fmap. destruct r as [m e]. simpl.
  split; [intros (x & E & H); by simplify_eq|intros [-> H]; eauto].
Qed.

Lemma flatten_app c1 c2 : flatten (c1 ++ c2) = flatten c1 ++ flatten c2.
Proof. unfold flatten. by rewrite map_app, concat_app. Qed.

Lemma flatten_perm c1 c2 : c1 ≡ₚ c2 -> flatten c1 ≡ₚ flatten c2.
Proof.
  induction 1 as [|x l l' _ IH|x y l|l1 l2 l3 _ IH1 _ IH2]; unfold flatten in *; simpl; [done|by rewrite IH| |by rewrite IH1].
  rewrite !app_assoc. apply Permutation_app_tail, Permutation_app_comm.
Qed.

Lemma delta_rows_split d n l :
  d !! n = Some l -> delta_rows d ≡ₚ List.map (pair n) l ++ delta_rows (delete n d).
Proof.
  intros Hl. unfold delta_rows. rewrite (flatten_perm _ _ (symmetry (map_to_list_delete d n l Hl))). done.
Qed.

Lemma delta_rows_insert d n l :
  delta_rows (<[n := l]> d) ≡ₚ List.map (pair n) l ++ delta_rows (delete n d).
Proof. rewrite (delta_rows_split _ n l) by (by rewrite lookup_insert_eq). by rewrite delete_insert_eq. Qed.

Lemma elem_delta_rows d r : r ∈ delta_rows d <-> exists l, d !! r.1 = Some l /\ r.2 ∈ l.
Proof.
  assert (Hc : forall cs, r ∈ flatten cs <-> exists l, (r.1, l) ∈ cs /\ r.2 ∈ l).
  { induction cs as [|[n l] cs IH]; unfold flatten in *; simpl.
    - split; [by intros ?%not_elem_of_nil|]. intros (l & H & _). by apply not_elem_of_nil in H.
    - rewrite elem_of_app, elem_pairs, IH. setoid_rewrite elem_of_cons. split.
      + intros [[-> H]|(l' & H1 & H2)]; eauto.
      + intros (l' & [H|H] & H2); [simplify_eq; by left|right; eauto]. }
  unfold delta_rows. rewrite Hc. by setoid_rewrite elem_of_map_to_list.
Qed.

Lemma push_rows n e x : delta_rows (delta (push n e x)) ≡ₚ (n, e) :: delta_rows (delta x).
Proof.
  simpl. rewrite delta_rows_insert, map_app. simpl. destruct (delta x !! n) as [l|] eqn:E; simpl.
  - rewrite (delta_rows_split _ _ _ E). rewrite <- app_assoc. simpl. by rewrite Permutation_middle.
  - by rewrite delete_id by done.
Qed.

(** Retiring: exactly the rows of [n] whose id is listed go. *)
Definition unlisted (n : NodeId) (ids : gset EdgeId) (r : row) : bool :=
  negb (bool_decide (r.1 = n) && bool_decide (row_id r ∈ ids)).

Lemma unlisted_true n ids r : unlisted n ids r = true <-> ~ (r.1 = n /\ row_id r ∈ ids).
Proof. unfold unlisted. by rewrite <- bool_decide_and, negb_true_iff, bool_decide_eq_false. Qed.

Lemma filter_pairs n ids (l : list AdjacencyEntry) :
  List.filter (unlisted n ids) (List.map (pair n) l) =
  List.map (pair n) (List.filter (fun e => negb (bool_decide (edge_id e ∈ ids))) l).
Proof.
  induction l as [|e l IH]; [done|]. cbn [List.map List.filter]. unfold unlisted at 1, row_id. cbn [fst snd].
  rewrite bool_decide_eq_true_2 by done. simpl. case_bool_decide; simpl; by rewrite IH.
Qed.

Lemma bfilter_perm {A} (f : A -> bool) l1 l2 : l1 ≡ₚ l2 -> List.filter f l1 ≡ₚ List.filter f l2.
Proof.
  induction 1 as [|x l l' _ IH|x y l|l1 l2 l3 _ IH1 _ IH2]; simpl; [done| | |by rewrite IH1].
  - by destruct (f x); rewrite IH.
  - destruct (f x), (f y); [apply Permutation_swap|done..].
Qed.
Lemma bfilter_all {A} (f : A -> bool) l : (forall x, x ∈ l -> f x = true) -> List.filter f l = l.
Proof.
  induction l as [|x l IH]; [done|]. intros H. simpl. rewrite H by constructor. rewrite IH; [done|].
  intros y Hy. apply H. by constructor.
Qed.

Lemma others_unlisted d n ids : List.filter (unlisted n ids) (delta_rows (delete n d)) = delta_rows (delete n d).
Proof.
  apply bfilter_all. intros r Hr. apply elem_delta_rows in Hr as (l & Hl & _). apply lookup_delete_Some in Hl as [Hn _].
  unfold unlisted. by rewrite bool_decide_eq_false_2 by done.
Qed.

Lemma retain_rows n ids d :
  delta_rows (retain n ids d).1 ≡ₚ List.filter (unlisted n ids) (delta_rows d) /\
  (retain n ids d).2 = Z.of_nat (length (delta_rows d)) - Z.of_nat (length (delta_rows (retain n ids d).1)) /\
  (forall m, m <> n -> (retain n ids d).1 !! m = d !! m).
Proof.
  unfold retain. destruct (d !! n) as [l|] eqn:E; cbn [fst snd].
  - split_and!.
    + rewrite delta_rows_insert. rewrite (bfilter_perm _ _ _ (delta_rows_split _ _ _ E)), List.filter_app.
      by rewrite filter_pairs, others_unlisted.
    + rewrite (Permutation_length (delta_rows_split _ _ _ E)), (Permutation_length (delta_rows_insert _ _ _)).
      rewrite !length_app, !length_map. lia.
    + intros m Hm. by rewrite lookup_insert_ne.
  - split_and!; [|lia|done]. rewrite bfilter_all; [done|]. intros r Hr. apply elem_delta_rows in Hr as (l & Hl & _).
    unfold unlisted. case_bool_decide; [congruence|done].
Qed.

Lemma remove_rows n d : delta_rows (remove_if_empty n d) ≡ₚ delta_rows d /\ (forall m, m <> n -> remove_if_empty n d !! m = d !! m).
Proof.
  unfold remove_if_empty. destruct (d !! n) as [[|e l]|] eqn:E; [|done..]. split.
  - by rewrite (delta_rows_split _ _ _ E).
  - intros m Hm. by rewrite lookup_delete_ne.
Qed.

(** The groups [retire_delta] walks list exactly the merged rows. *)
Definition listed (todo : list (NodeId * gset EdgeId)) (r : row) : Prop :=
  exists ids, (r.1, ids) ∈ todo /\ row_id r ∈ ids.

Lemma listed_cons n ids todo r : listed ((n, ids) :: todo) r <-> (r.1 = n /\ row_id r ∈ ids) \/ listed todo r.
Proof.
  unfold listed. setoid_rewrite elem_of_cons. split.
  - intros (ids' & [E|E] & Hi); [simplify_eq; by left|right; eauto].
  - intros [[-> Hi]|(ids' & E & Hi)]; eauto.
Qed.

Lemma listed_per_node ld r : listed (per_node ld) r <-> exists r', r' ∈ ld /\ r'.1 = r.1 /\ row_id r' = row_id r.
Proof.
  induction ld as [|[n e] ld IH]; simpl.
  - split; [intros (? & H & _)|intros (? & H & _)]; by apply not_elem_of_nil in H.
  - assert (Hc : (exists r', r' ∈ (n, e) :: ld /\ r'.1 = r.1 /\ row_id r' = row_id r) <->
      (r.1 = n /\ row_id r = edge_id e) \/ listed (per_node ld) r).
    { rewrite IH. setoid_rewrite elem_of_cons. split.
      - intros (r' & [->|Hin] & H1 & H2); [left; by rewrite <- H1, <- H2|right; eauto].
      - intros [[H1 H2]|(r' & Hin & H1 & H2)]; [exists (n, e); simpl; unfold row_id at 1; simpl|]; eauto. }
    rewrite Hc. destruct (per_node ld) as [|[m ids] groups] eqn:E; [|case_goal; bool_to_prop].
    + rewrite listed_cons. set_solver.
    + subst m. rewrite !listed_cons. set_solver.
    + rewrite (listed_cons n). set_solver.
Qed.

(** Merging: the frozen rows and the delta rows without the tombstoned ones. *)
Definition alive (lt : gset EdgeId) (r : row) : bool := negb (bool_decide (row_id r ∈ lt)).

Definition ids_of (rows : list row) : gset EdgeId := list_to_set (List.map row_id rows).
Definition kept (lt : gset EdgeId) (recovering : bool) (ld : list row) (r : row) : bool :=
  alive lt r && negb (recovering && bool_decide (row_id r ∈ ids_of ld)).

Lemma res_mapM_ext {E A B} (g h : A -> res E B) l : (forall x, g x = h x) -> mapM g l = mapM h l.
Proof. intros H. induction l as [|x l IH]; [done|]. simpl. by rewrite H, IH. Qed.

Lemma merge_rows f F lt ld recovering :
  csr_of f F ->
  merge f lt ld recovering = Ok (List.filter (kept lt recovering ld) F ++ List.filter (alive lt) ld).
Proof.
  intros Hf. unfold merge.
  pose proof (csr_collect (fun adj => kept lt recovering ld (0, adj)) f F Hf) as Hc.
  match goal with |- context [mapM ?g ?l] => assert (Hm : mapM g l =
    mapM (fun n => slice ← Csr.get_adjacency f n;
            Ok (List.map (pair n) (List.filter (fun adj => kept lt recovering ld (0, adj)) slice))) l) end.
  { apply res_mapM_ext. intros n. destruct (Csr.get_adjacency f n) as [es| |]; simpl; [|done..]. do 2 f_equal.
    apply List.filter_ext. intros e. unfold kept, alive, row_id, ids_of. simpl. by destruct recovering. }
  rewrite Hm. clear Hm. destruct (mapM _ (iter_nodes f)) as [ls| |]; simpl in Hc; try done. simpl. do 2 f_equal.
  by injection Hc.
Qed.

Lemma kept_alive lt ld r : kept lt false ld r = alive lt r.
Proof. unfold kept. simpl. by rewrite andb_true_r. Qed.

(** *** What a guard emits *)
Definition distinct (known : list row) : Prop := NoDup (List.map row_id known).

Lemma distinct_eq known r r' : distinct known -> r ∈ known -> r' ∈ known -> row_id r = row_id r' -> r = r'.
Proof.
  unfold distinct. intros Hd H1 H2 He. apply list_elem_of_lookup in H1 as [i Hi]. apply list_elem_of_lookup in H2 as [j Hj].
  assert (i = j) as ->; [|congruence].
  change (List.map row_id known) with (row_id <$> known) in Hd. eapply (NoDup_lookup _ i j (row_id r) Hd); rewrite list_lookup_fmap.
  - by rewrite Hi.
  - rewrite Hj. simpl. by rewrite He.
Qed.

Lemma elem_of_node n F e : e ∈ of_node n F <-> (n, e) ∈ F.
Proof.
  unfold of_node. change (List.map snd ?l) with (snd <$> l). rewrite list_elem_of_fmap. split.
  - intros ([m e'] & -> & H). apply list_elem_of_filter in H as [Hm H]. simpl in *. by subst.
  - intros H. exists (n, e). split; [done|]. by apply list_elem_of_filter.
Qed.

Lemma NoDup_of_node n F : NoDup F -> NoDup (of_node n F).
Proof.
  unfold of_node. induction 1 as [|[m e] F Hin HN IH]; [constructor|]. rewrite filter_cons. simpl.
  destruct (decide (m = n)) as [->|]; [|done]. simpl. constructor; [|done].
  intros H. apply Hin. by apply elem_of_node.
Qed.

Lemma entries_ascending n F k : Sorted row_le F -> ascending (fun probe => pair_cmp (entry_key probe) k) (of_node n F).
Proof.
  intros Hs. apply Sorted_StronglySorted in Hs; [|intros a b c; unfold row_le; lia].
  assert (Hn : StronglySorted (fun a b => row_le (n, a) (n, b)) (of_node n F)).
  { unfold of_node. induction Hs as [|[m e] F Hs IH Hall]; [constructor|]. rewrite filter_cons. simpl.
    destruct (decide (m = n)) as [->|]; [|done]. simpl. constructor; [done|].
    rewrite Forall_forall in Hall. apply Forall_forall. intros e' He'. apply Hall. by apply elem_of_node. }
  intros i j x y Hij Hx Hy. assert (Hle : x = y \/ row_le (n, x) (n, y)).
  { clear -Hn Hij Hx Hy. revert i j Hij Hx Hy. induction Hn as [|z l Hn IH Hall]; intros i j Hij Hx Hy; [done|].
    destruct j as [|j]; destruct i as [|i]; simpl in *; try lia; simplify_eq; [by left| |by apply (IH i j); [lia|..]].
    right. rewrite Forall_forall in Hall. apply Hall, list_elem_of_lookup. eauto. }
  destruct Hle as [->|Hle]; [done|]. unfold row_le, pair_cmp, entry_key in *. simpl in *.
  destruct (Z.compare_spec (target x) k.1), (Z.compare_spec (target y) k.1), (Z.compare_spec (edge_id x) k.2),
    (Z.compare_spec (edge_id y) k.2); split; intros; try done; lia.
Qed.

Lemma contains_iff n F known e :
  Sorted row_le F -> distinct known -> F ⊆ known -> (n, e) ∈ known ->
  frozen_slice_contains (of_node n F) e = true <-> e ∈ of_node n F.
Proof.
  intros Hs Hd Hsub He. unfold frozen_slice_contains. destruct (binary_search_by _ _) as [i|] eqn:E; split; try done; intros H.
  - apply binary_search_found in E as (e' & Hi & Hc).
    assert (edge_id e' = edge_id e) as Hid.
    { unfold pair_cmp, entry_key in Hc. simpl in Hc. destruct (Z.compare_spec (target e') (target e)); try done.
      by apply Z.compare_eq_iff in Hc. }
    assert (He' : e' ∈ of_node n F) by (apply list_elem_of_lookup; eauto).
    assert (Heq : (n, e') = (n, e)); [|by simplify_eq].
    apply (distinct_eq known); [done|apply Hsub; by apply elem_of_node|done|done].
  - exfalso. eapply (binary_search_missing _ _ e); [by apply entries_ascending|exact E|done|].
    unfold pair_cmp, entry_key. simpl. by rewrite !Z.compare_refl.
Qed.

Definition passes (tombs : gset EdgeId) (g : MergedAdjacencyGuard) (e : AdjacencyEntry) : bool :=
  tombstones_empty g || negb (bool_decide (edge_id e ∈ tombs)).

(** Iterating emits the candidates that pass the tombstones, in order. *)
Lemma iter_candidates tombs g cand :
  Interleaved.candidates g = Ok cand -> iter tombs g = Ok (List.filter (passes tombs g) cand).
Proof.
  unfold Interleaved.candidates, iter. destruct (frozen_slice g) as [fs| |]; simpl; [|done..]. intros E. simplify_eq.
  rewrite List.filter_app.
  destruct (tombstones_empty g && (negb (g_window g) || bool_decide (delta_slice g = []))) eqn:Hb.
  - apply andb_true_iff in Hb as [Ht Hw]. assert (Hp : forall e, passes tombs g e = true) by (intros; unfold passes; by rewrite Ht).
    rewrite !(bfilter_all (passes tombs g)) by done. do 2 f_equal. apply orb_true_iff in Hw as [Hw|Hw].
    + apply negb_true_iff in Hw. rewrite Hw. by rewrite bfilter_all.
    + apply bool_decide_eq_true in Hw. by rewrite Hw.
  - do 2 f_equal. unfold passes. clear. induction (delta_slice g) as [|e l IH]; [done|]. simpl.
    destruct (negb (g_window g && frozen_slice_contains fs e)) eqn:Ew; simpl; rewrite ?andb_true_r, ?andb_false_r, IH; done.
Qed.

Lemma candidates_spec g F known :
  csr_of (g_frozen g).2 F -> Sorted row_le F -> NoDup F -> distinct known -> F ⊆ known ->
  (forall e, e ∈ delta_slice g -> (node g, e) ∈ known) -> NoDup (delta_slice g) ->
  exists cand, Interleaved.candidates g = Ok cand /\
    ((forall e, e ∈ delta_slice g -> (node g, e) ∈ F -> g_window g = true) -> NoDup cand) /\
    forall e, e ∈ cand <-> (node g, e) ∈ F \/ e ∈ delta_slice g.
Proof.
  intros Hc Hs Hn Hd Hsub Hds Hdn. unfold Interleaved.candidates, frozen_slice. rewrite (csr_get _ _ _ Hc). simpl.
  eexists. split; [done|]. split.
  - intros Hw. apply NoDup_app. split_and!; [by apply NoDup_of_node| |by apply NoDup_bfilter].
    intros e He Hin. apply elem_bfilter in Hin as [Hf Hin]. rewrite (Hw e) in Hf by (done || by apply elem_of_node).
    simpl in Hf. apply negb_true_iff in Hf. rewrite (proj2 (contains_iff _ _ known _ Hs Hd Hsub (Hds e Hin)) He) in Hf. done.
  - intros e. rewrite elem_of_app, elem_bfilter, elem_of_node. split; [tauto|]. intros [H|H]; [by left|].
    destruct (g_window g && frozen_slice_contains (of_node (node g) F) e) eqn:E; [|right; done].
    left. apply andb_true_iff in E as [_ E]. by apply (contains_iff _ _ known), elem_of_node in E; auto.
Qed.
End Layers.

(** ** The index refines a set of live edges *)
Section Refinement.
Import Search Csr CsrFacts Incr.
Context (sort : list row -> list row) `{!RowSort sort}.
Implicit Types (x : Index) (r : row).

Inductive op :=
  | Insert (n : NodeId) (e : AdjacencyEntry)
  | Delete (id : EdgeId)
  | Compact (exclusive : bool)
  | CompactPanics.

Definition apply (x : Index) (o : op) : res unit Index :=
  match o with
  | Insert n e => Ok (insert n e x)
  | Delete id => Ok (delete_edge id x)
  | Compact exclusive => compact_locked sort exclusive x
  | CompactPanics => compact_panicking sort x
  end.

(** The specification: the live edges, and every edge there ever was. *)
Record Live := mkLive { live : list row; known : list row }.
Definition spec (a : Live) (o : op) : option Live :=
  match o with
  | Insert n e =>
      if bool_decide (edge_id e ∈ List.map row_id (known a)) then None
      else Some (mkLive ((n, e) :: live a) ((n, e) :: known a))
  | Delete id =>
      if bool_decide (id ∈ List.map row_id (live a))
      then Some (mkLive (List.filter (fun r => negb (row_id r =? id)) (live a)) (known a))
      else None
  | Compact _ | CompactPanics => Some a
  end.

Fixpoint run_index (x : Index) (ops : list op) : res unit Index :=
  match ops with [] => Ok x | o :: ops => x ← apply x o; run_index x ops end.
Fixpoint run_spec (a : Live) (ops : list op) : option Live :=
  match ops with [] => Some a | o :: ops => a ← spec a o; run_spec a ops end.

Record layers (x : Index) (F : list row) (kn : list row) : Prop := {
  l_csr : csr_of (frozen x).2 F;
  l_sorted : Sorted row_le F;
  l_frozen : NoDup F /\ F ⊆ kn;
  l_delta : NoDup (delta_rows (delta x)) /\ delta_rows (delta x) ⊆ kn;
  l_known : distinct kn;
  l_disjoint : interrupted_publish x = false -> forall r, r ∈ F -> r ∉ delta_rows (delta x);
  l_window : publish_window x = false;
  l_counts : delta_edge_count x = Z.of_nat (length (delta_rows (delta x))) /\
             tombstone_count x = Z.of_nat (size (tombstones x)) }.

Definition represents (x : Index) (a : Live) : Prop :=
  exists F, layers x F (known a) /\
    (forall r, r ∈ live a <-> (r ∈ F \/ r ∈ delta_rows (delta x)) /\ row_id r ∉ tombstones x) /\
    (forall id, id ∈ tombstones x -> id ∈ List.map row_id (known a)).

Lemma retire_delta_rows ld d :
  let r' := retire_delta ld d in
  (forall r, r ∈ delta_rows r'.1 <-> r ∈ delta_rows d /\ ~ listed (per_node ld) r) /\
  (NoDup (delta_rows d) -> NoDup (delta_rows r'.1)) /\
  r'.2 = Z.of_nat (length (delta_rows d)) - Z.of_nat (length (delta_rows r'.1)).
Proof.
  unfold retire_delta. assert (Hgen : forall gs d k,
    let r' := foldl (fun st g => let '(d, retired) := retain g.1 g.2 st.1 in (remove_if_empty g.1 d, st.2 + retired)) (d, k) gs in
    (forall r, r ∈ delta_rows r'.1 <-> r ∈ delta_rows d /\ ~ listed gs r) /\
    (NoDup (delta_rows d) -> NoDup (delta_rows r'.1)) /\
    r'.2 = k + Z.of_nat (length (delta_rows d)) - Z.of_nat (length (delta_rows r'.1))).
  { clear ld d. induction gs as [|[n ids] gs IH]; intros d k; cbn [foldl fst snd].
    - split_and!; [|done|lia]. intros r. split; [|tauto]. intros H. split; [done|]. intros (ids & Hin & _).
      by apply not_elem_of_nil in Hin.
    - pose proof (retain_rows n ids d) as (Hr & Hk & _). destruct (retain n ids d) as [d1 k1]. cbn [fst snd] in *.
      pose proof (proj1 (remove_rows n d1)) as Hrem. specialize (IH (remove_if_empty n d1) (k + k1)) as (H1 & H2 & H3).
      assert (Hperm : delta_rows (remove_if_empty n d1) ≡ₚ List.filter (unlisted n ids) (delta_rows d)) by (by rewrite Hrem).
      split_and!.
      + intros r. rewrite H1, Hperm, elem_bfilter, listed_cons, unlisted_true. tauto.
      + intros Hn. apply H2. rewrite Hperm. by apply NoDup_bfilter.
      + rewrite H3, (Permutation_length Hrem). lia. }
  specialize (Hgen (per_node ld) d 0). split_and!; [apply Hgen..|]. destruct Hgen as (_ & _ & H). rewrite H. lia.
Qed.

Lemma retire_all d : delta_rows (retire_delta (delta_rows d) d).1 = [] /\
  (retire_delta (delta_rows d) d).2 = Z.of_nat (length (delta_rows d)).
Proof.
  destruct (retire_delta_rows (delta_rows d) d) as (H1 & _ & H3).
  assert (Hnil : delta_rows (retire_delta (delta_rows d) d).1 = []).
  { destruct (delta_rows (retire_delta _ d).1) as [|r l]; [done|]. exfalso.
    destruct (proj1 (H1 r) ltac:(by constructor)) as [Hin Hl]. apply Hl, listed_per_node. eauto. }
  split; [done|]. rewrite H3, Hnil. simpl. lia.
Qed.

Lemma NoDup_pairs (n : NodeId) (l : list AdjacencyEntry) : NoDup (List.map (pair n) l) -> NoDup l.
Proof. change (List.map (pair n) l) with (pair n <$> l). apply NoDup_fmap_1. Qed.

Lemma delta_rows_node d (n : NodeId) l : d !! n = Some l -> NoDup (delta_rows d) -> NoDup l.
Proof.
  intros Hl. rewrite (delta_rows_split _ _ _ Hl). intros H. apply NoDup_app in H as (H & _ & _). by eapply NoDup_pairs.
Qed.

Lemma delta_slice_rows x n e : e ∈ default [] (delta x !! n) <-> (n, e) ∈ delta_rows (delta x).
Proof.
  rewrite elem_delta_rows. simpl. destruct (delta x !! n) as [l|]; simpl; split.
  - eauto.
  - intros (l' & E & H). by simplify_eq.
  - by intros ?%not_elem_of_nil.
  - intros (l' & E & _). done.
Qed.

Lemma size_zero (t : gset EdgeId) : Z.of_nat (size t) = 0 -> t = ∅.
Proof. intros H. apply leibniz_equiv, size_empty_iff. lia. Qed.
Lemma length_zero {A} (l : list A) : Z.of_nat (length l) = 0 -> l = [].
Proof. destruct l; [done|]. simpl. lia. Qed.

Lemma represents_read x a n :
  represents x a ->
  exists es, iter (tombstones x) (get_adjacency x n) = Ok es /\
    (forall e, e ∈ es <-> (n, e) ∈ live a) /\ (interrupted_publish x = false -> NoDup es).
Proof.
  intros (F & [Hc Hs [HnF HF] [HnD HD] Hk Hdis Hw [Hcd Hct]] & Hlive & _).
  assert (Hx : exists g, get_adjacency x n = g /\ (g_frozen g) = frozen x /\ node g = n /\
    (forall e, e ∈ delta_slice g <-> (n, e) ∈ delta_rows (delta x)) /\ NoDup (delta_slice g) /\
    (tombstones_empty g = true -> tombstones x = ∅)).
  { eexists. split; [done|]. unfold get_adjacency. rewrite Hcd, Hct.
    destruct (Z.of_nat (length (delta_rows (delta x))) =? 0) eqn:E1; destruct (Z.of_nat (size (tombstones x)) =? 0) eqn:E2;
      cbn [andb]; bool_to_prop; (split; [done|]); (split; [done|]).
    - apply length_zero in E1. rewrite E1. split_and!; [intros e; split; by intros ?%not_elem_of_nil|constructor|by intros; apply size_zero].
    - split_and!; [intros e; apply delta_slice_rows| |done]. destruct (delta x !! n) eqn:E; [|constructor].
      simpl. unfold delta_slice. simpl. by eapply delta_rows_node.
    - split_and!; [intros e; apply delta_slice_rows| |by intros; apply size_zero]. destruct (delta x !! n) eqn:E; [|constructor].
      simpl. unfold delta_slice. simpl. by eapply delta_rows_node.
    - split_and!; [intros e; apply delta_slice_rows| |done]. destruct (delta x !! n) eqn:E; [|constructor].
      simpl. unfold delta_slice. simpl. by eapply delta_rows_node. }
  destruct Hx as (g & -> & Hf & Hn & Hds & Hdn & Ht).
  destruct (candidates_spec g F (known a)) as (cand & Hcand & Hnd & Hin); try done.
  - by rewrite Hf.
  - intros e He. rewrite Hn. by apply HD, Hds.
  - rewrite (iter_candidates _ _ _ Hcand). eexists. split; [done|]. split.
    + intros e. rewrite elem_bfilter, Hin, Hlive, Hds, Hn. unfold passes, row_id. cbn [snd].
      rewrite orb_true_iff, negb_true_iff, bool_decide_eq_false.
      split; [|tauto]. intros [[H|H] H']; [|tauto]. rewrite (Ht H). split; [tauto|set_solver].
    + intros Hi. apply NoDup_bfilter, Hnd. intros e He HeF. rewrite Hn in HeF. exfalso.
      eapply Hdis; [done|exact HeF|]. by apply Hds.
Qed.

Lemma alive_true lt r : alive lt r = true <-> row_id r ∉ lt.
Proof. unfold alive. by rewrite negb_true_iff, bool_decide_eq_false. Qed.

Lemma elem_ids_of rows r : row_id r ∈ ids_of rows <-> exists r', r' ∈ rows /\ row_id r' = row_id r.
Proof.
  unfold ids_of. rewrite elem_of_list_to_set. change (List.map row_id rows) with (row_id <$> rows).
  rewrite list_elem_of_fmap. split; intros (y & H1 & H2); eauto.
Qed.

Lemma elem_ids kn id : id ∈ List.map row_id kn <-> exists r, r ∈ kn /\ row_id r = id.
Proof.
  change (List.map row_id kn) with (row_id <$> kn). rewrite list_elem_of_fmap. split; intros (y & H1 & H2); eauto.
Qed.

(** The rows of the new CSR. *)
Definition merged_rows (x : Index) (F : list row) : list row :=
  sort (List.filter (kept (tombstones x) (interrupted_publish x) (delta_rows (delta x))) F ++
        List.filter (alive (tombstones x)) (delta_rows (delta x))).

Lemma merged_spec x F kn :
  layers x F kn ->
  NoDup (merged_rows x F) /\
  forall r, r ∈ merged_rows x F <-> (r ∈ F \/ r ∈ delta_rows (delta x)) /\ row_id r ∉ tombstones x.
Proof.
  intros [_ _ [HnF HF] [HnD HD] Hk Hdis _ _]. unfold merged_rows. split.
  - rewrite (sort_perm _). apply NoDup_app. split_and!; [by apply NoDup_bfilter| |by apply NoDup_bfilter].
    intros r H1 H2. apply elem_bfilter in H1 as [H1 H1']. apply elem_bfilter in H2 as [_ H2].
    unfold kept in H1. apply andb_true_iff in H1 as [_ H1].
    destruct (interrupted_publish x) eqn:E; [|by eapply Hdis]. simpl in H1.
    apply negb_true_iff, bool_decide_eq_false in H1. apply H1, elem_ids_of. eauto.
  - intros r. rewrite (sort_perm _), elem_of_app, !elem_bfilter. unfold kept. rewrite andb_true_iff, alive_true.
    rewrite negb_true_iff, andb_false_iff, bool_decide_eq_false. split; [tauto|]. intros [[H|H] Ht]; [|tauto].
    destruct (decide (r ∈ delta_rows (delta x))) as [|Hn]; [tauto|]. left. split; [|done]. split; [done|]. right.
    intros (r' & Hr' & He)%elem_ids_of. apply Hn. by rewrite <- (distinct_eq kn r' r Hk (HD _ Hr') (HF _ H) He).
Qed.

Lemma publish_merged_ok x F kn :
  layers x F kn ->
  exists c, csr_of c (merged_rows x F) /\
    publish_merged sort x =
      Ok (publish c (if bool_decide (delta_rows (delta x) = []) then set_interrupted false x
                     else set_window true (set_interrupted false x)), tombstones x, delta_rows (delta x)).
Proof.
  intros Hl. eexists. split; [exact (build_rows sort _)|]. unfold publish_merged. fold (delta_rows (delta x)).
  rewrite (merge_rows _ F) by apply Hl. done.
Qed.

Lemma represents_new : represents Incr.new (mkLive [] []).
Proof.
  exists []. split; [|split].
  - split; cbn.
    + exists [], 0. split_and!; [done|constructor|done].
    + constructor.
    + split; [constructor|done].
    + split; [constructor|done].
    + constructor.
    + by intros _ r ?%not_elem_of_nil.
    + done.
    + done.
  - intros r. split; [by intros ?%not_elem_of_nil|]. cbn. intros [[?%not_elem_of_nil|?%not_elem_of_nil] _]; done.
  - cbn. set_solver.
Qed.

Lemma layers_disjoint_F x F kn r : layers x F kn -> r ∈ kn -> forall r', r' ∈ kn -> row_id r = row_id r' -> r = r'.
Proof. intros [] Hr r' Hr' He. by eapply distinct_eq. Qed.

Lemma insert_represents x a n e a' : represents x a -> spec a (Insert n e) = Some a' -> represents (insert n e x) a'.
Proof.
  intros (F & Hl & Hlive & Ht) Hs. unfold spec in Hs. case_bool_decide as Hid; [done|]. simplify_eq.
  destruct Hl as [Hc Hso [HnF HF] [HnD HD] Hk Hdis Hw [Hcd Hct]].
  assert (Hnew : (n, e) ∉ known a) by (intros H; apply Hid, elem_ids; by exists (n, e)).
  exists F. pose proof (push_rows n e (count_insert x)) as Hp.
  change (delta (count_insert x)) with (delta x) in Hp. unfold insert. split; [|split].
  - split; try done.
    + split; [done|]. intros r Hr. constructor. by apply HF.
    + rewrite Hp. split; [constructor; [|done]; intros H; by apply Hnew, HD|].
      intros r Hr. apply elem_of_cons in Hr as [->|Hr]; [constructor|]. constructor. by apply HD.
    + unfold distinct in *. simpl. constructor; [|done]. done.
    + intros Hi r Hr. rewrite Hp. intros [->|H]%elem_of_cons; [by apply Hnew, HF|]. by eapply Hdis.
    + split; [|done]. rewrite (Permutation_length Hp). simpl. lia.
  - intros r. simpl. rewrite elem_of_cons, Hlive. rewrite Hp, elem_of_cons.
    split; [|tauto]. intros [->|[H1 H2]]; [|tauto]. split; [tauto|]. intros Hin%Ht. done.
  - intros id Hin. simpl. right. by apply Ht.
Qed.

Lemma delete_represents x a id a' : represents x a -> spec a (Delete id) = Some a' -> represents (delete_edge id x) a'.
Proof.
  intros (F & Hl & Hlive & Ht) Hs. unfold spec in Hs. case_bool_decide as Hid; [|done]. simplify_eq.
  destruct Hl as [Hc Hso HF HD Hk Hdis Hw [Hcd Hct]]. apply elem_ids in Hid as (r0 & Hr0 & Hid).
  assert (Hnt : id ∉ tombstones x) by (apply Hlive in Hr0 as [_ Hr0]; by subst).
  exists F. unfold delete_edge. split; [|split].
  - split; try done. split; [done|]. cbn. rewrite size_union, size_singleton by set_solver. lia.
  - intros r. cbn. rewrite elem_bfilter, Hlive, negb_true_iff, Z.eqb_neq. set_solver.
  - intros id' Hin. cbn in Hin. apply elem_of_union in Hin as [->%elem_of_singleton|Hin]; [|by apply Ht].
    apply elem_ids. exists r0. split; [|done]. apply Hlive in Hr0 as [[H|H] _]; [by apply HF|by apply HD].
Qed.

(** A state whose CSR is the merge of [x], with the delta retired or, after a panic,
    still there, and with the tombstones kept or retired. *)
Lemma merged_represents x x' F a :
  layers x F (known a) ->
  (forall r, r ∈ live a <-> (r ∈ F \/ r ∈ delta_rows (delta x)) /\ row_id r ∉ tombstones x) ->
  (forall id, id ∈ tombstones x -> id ∈ List.map row_id (known a)) ->
  csr_of (frozen x').2 (merged_rows x F) ->
  (delta_rows (delta x') = [] /\ (tombstones x' = tombstones x \/ tombstones x' = ∅)) \/
  (delta x' = delta x /\ interrupted_publish x' = true /\ tombstones x' = tombstones x) ->
  delta_edge_count x' = Z.of_nat (length (delta_rows (delta x'))) ->
  tombstone_count x' = Z.of_nat (size (tombstones x')) -> publish_window x' = false ->
  represents x' a.
Proof.
  intros Hl Hlive Ht Hc Hd Hcd Hct Hw. destruct (merged_spec _ _ _ Hl) as [HnM HM].
  destruct Hl as [_ _ [_ HF] [HnD HD] Hk _ _ _]. exists (merged_rows x F). split; [|split].
  - split; try done.
    + unfold merged_rows. apply sort_sorted.
    + split; [done|]. intros r [[H|H] _]%HM; [by apply HF|by apply HD].
    + destruct Hd as [[-> _]|[-> _]]; [split; [constructor|by intros r ?%not_elem_of_nil]|done].
    + intros Hi r _. destruct Hd as [[-> _]|(_ & Hi' & _)]; [by intros ?%not_elem_of_nil|congruence].
  - intros r. rewrite Hlive, HM. destruct Hd as [[-> [->| ->]]|(-> & _ & ->)].
    + split; [tauto|]. intros [[H|?%not_elem_of_nil] _]; [tauto|done].
    + split; [set_solver|]. intros [[H|?%not_elem_of_nil] _]; [tauto|done].
    + tauto.
  - intros id Hid. destruct Hd as [[_ [Hd|Hd]]|(_ & _ & Hd)]; rewrite Hd in Hid; [by apply Ht|set_solver|by apply Ht].
Qed.

Lemma retire_tombstones_all t : retire_tombstones t t = (∅, Z.of_nat (size t)).
Proof. unfold retire_tombstones. by rewrite difference_diag_L, intersection_idemp_L. Qed.

Lemma compact_represents x a exclusive :
  represents x a -> exists x', compact_locked sort exclusive x = Ok x' /\ represents x' a.
Proof.
  intros (F & Hl & Hlive & Ht). unfold compact_locked. fold (delta_rows (delta x)).
  destruct (_ && _); [exists x; split; [done|]; by exists F|].
  destruct (publish_merged_ok x F _ Hl) as (c & Hc & ->). pose proof (retire_all (delta x)) as [Hnil Hlen].
  assert (Hcd := l_counts _ _ _ Hl). assert (Hw := l_window _ _ _ Hl). destruct Hcd as [Hcd Hct]. cbn [mbind res_bind].
  destruct (bool_decide (delta_rows (delta x) = []));
    cbn [delta tombstones publish set_window set_interrupted set_delta_count set_delta];
    destruct (retire_delta (delta_rows (delta x)) (delta x)) as [d k]; cbn [fst snd] in *; subst k;
    cbn [tombstones publish set_window set_interrupted set_delta_count set_delta]; rewrite retire_tombstones_all;
    destruct (negb (bool_decide (tombstones x = ∅)) && exclusive);
    (eexists; split; [reflexivity|]); apply (merged_represents x _ F a Hl Hlive Ht);
    cbn [frozen delta tombstones delta_edge_count tombstone_count interrupted_publish publish_window
         publish set_window set_interrupted set_delta_count set_delta set_tombstones set_tombstone_count]; try done.
  all: try (left; split; [done|tauto]).
  all: rewrite ?Hnil, ?size_empty; unfold saturating_sub; simpl; lia.
Qed.

Lemma panicking_represents x a :
  represents x a -> exists x', compact_panicking sort x = Ok x' /\ represents x' a.
Proof.
  intros (F & Hl & Hlive & Ht). unfold compact_panicking. fold (delta_rows (delta x)).
  case_bool_decide as Hd; [exists x; split; [done|]; by exists F|].
  destruct (publish_merged_ok x F _ Hl) as (c & Hc & ->). rewrite bool_decide_eq_false_2 by done.
  eexists. split; [reflexivity|]. assert (Hcd := l_counts _ _ _ Hl).
  apply (merged_represents x _ F a Hl Hlive Ht); try done; [by right|apply Hcd..].
Qed.

Lemma apply_represents x a o a' :
  represents x a -> spec a o = Some a' -> exists x', apply x o = Ok x' /\ represents x' a'.
Proof.
  intros Hr Hs. destruct o as [n e|id|exclusive|].
  - eexists. split; [done|]. by eapply insert_represents.
  - eexists. split; [done|]. by eapply delete_represents.
  - cbn in Hs. simplify_eq. by apply compact_represents.
  - cbn in Hs. simplify_eq. by apply panicking_represents.
Qed.

Lemma run_represents ops x a a' :
  represents x a -> run_spec a ops = Some a' -> exists x', run_index x ops = Ok x' /\ represents x' a'.
Proof.
  revert x a. induction ops as [|o ops IH]; intros x a Hr Hs; simpl in *; [simplify_eq; eauto|].
  destruct (spec a o) as [a1|] eqn:E; [|done]. simpl in Hs.
  destruct (apply_represents _ _ _ _ Hr E) as (x1 & -> & Hr1). simpl. by eapply IH.
Qed.

Lemma compact_settles x a x' :
  represents x a -> compact_locked sort true x = Ok x' -> frozen_view x' = Some (frozen x').
Proof.
  intros (F & Hl & _ & _) H. assert (Hcd := l_counts _ _ _ Hl). destruct Hcd as [Hcd Hct].
  assert (Hz : delta_edge_count x' = 0 /\ tombstone_count x' = 0); [|unfold frozen_view; by destruct Hz as [-> ->]].
  revert H. unfold compact_locked. fold (delta_rows (delta x)).
  destruct (bool_decide (delta_rows (delta x) = []) && bool_decide (tombstones x = ∅)) eqn:E.
  - intros. simplify_eq. apply andb_true_iff in E as [E1%bool_decide_eq_true E2%bool_decide_eq_true].
    by rewrite Hcd, Hct, E1, E2, size_empty.
  - destruct (publish_merged_ok x F _ Hl) as (c & Hc & ->). pose proof (retire_all (delta x)) as [_ Hlen]. cbn [mbind res_bind].
    destruct (bool_decide (delta_rows (delta x) = []));
      cbn [delta tombstones publish set_window set_interrupted set_delta_count set_delta];
      destruct (retire_delta (delta_rows (delta x)) (delta x)) as [d k]; cbn [fst snd] in *; subst k;
      cbn [tombstones publish set_window set_interrupted set_delta_count set_delta]; rewrite retire_tombstones_all;
      (destruct (bool_decide (tombstones x = ∅)) eqn:Et; [apply bool_decide_eq_true in Et|]); cbn [negb andb];
      intros; simplify_eq; unfold saturating_sub; simpl; rewrite ?Hcd, ?Hct, ?Et, ?size_empty; lia.
Qed.

(** The lock-free view, when it is offered, reads the same. *)
Lemma frozen_read x a n es f :
  represents x a -> iter (tombstones x) (get_adjacency x n) = Ok es -> frozen_view x = Some f -> Csr.get_adjacency f.2 n = Ok es.
Proof.
  intros Hr He. unfold frozen_view. do 2 (case_goal; bool_to_prop; [done|]). intros. simplify_eq.
  destruct Hr as (F & Hl & _ & _). destruct (l_counts _ _ _ Hl) as [Hcd Hct].
  assert (Hz : delta_edge_count x = 0 /\ tombstone_count x = 0) by lia. destruct Hz as [Hz1 Hz2].
  revert He. unfold get_adjacency. rewrite Hz1, Hz2. simpl. unfold iter, frozen_slice. simpl.
  destruct (Csr.get_adjacency _ _); simpl; [|done..]. rewrite app_nil_r. done.
Qed.

End Refinement.

Module CompactionWitness.
Import Csr CsrFacts CsrWitness Incr.

Definition e1 := mkEntry 2 10 0.
Definition e2 := mkEntry 3 11 0.
Definition e3 := mkEntry 2 12 0.
Definition ops0 : list op :=
  [Insert 1 e1; Insert 1 e2; CompactPanics; Delete 10; Insert 5 e3; Compact false; Insert 1 (mkEntry 1 13 0); Compact true].

End CompactionWitness.
