(* ===== verification/AdjacencyRaces.v ===== *)
(** * Reads of the adjacency index under concurrency

    For every interleaving of the atomic steps of writers, readers and the
    compaction ([Adjacency.Interleaved]): what a finished read has emitted.  The
    invariant relates the layers of the index to the completed insertions and
    deletions, per phase of the compaction and of each reader. *)

From S2P Require Import Prelude.
From S2P Require Import SliceOps.
From S2P Require Import Ids.
From S2P Require Import Csr.
From S2P Require Import Adjacency.
From S2P Require Import Compaction.

Section Races.
Import Search Csr CsrFacts Incr Interleaved.
Implicit Types (s : State) (r : row) (F : list row) (rd : Reader).

Definition rows s : list row := delta_rows (delta (index s)).
Definition version s : nat := (frozen (index s)).1.
Definition tombs s : gset EdgeId := tombstones (index s).
Definition disjoint F s : Prop := forall r, r ∈ F -> r ∉ rows s.

(** ** The compaction *)
Definition merged F (lt : gset EdgeId) (ld : list row) (c : AdjacencyIndex) : Prop :=
  exists F', csr_of c F' /\ Sorted row_le F' /\ NoDup F' /\
    forall r, r ∈ F' <-> (r ∈ F \/ r ∈ ld) /\ row_id r ∉ lt.

Definition scanned s (lt : gset EdgeId) (ld : list row) : Prop :=
  lt ⊆ tombs s /\ NoDup ld /\ ld ⊆ rows s /\ forall r, r ∈ rows s -> row_id r ∈ lt -> r ∈ ld.

Definition retiring F s (v : nat) (lt : gset EdgeId) (todo : list (NodeId * gset EdgeId)) : Prop :=
  version s = S v /\ lt ⊆ tombs s /\ (forall r, r ∈ F -> row_id r ∉ lt) /\
  (forall r, r ∈ rows s -> r ∈ F \/ row_id r ∈ lt -> listed todo r) /\
  (forall r, r ∈ rows s -> listed todo r -> r ∈ F \/ row_id r ∈ lt) /\
  (forall r, listed todo r -> exists r', r' ∈ inserted s /\ row_id r' = row_id r) /\
  (publish_window (index s) = true \/ disjoint F s).

Definition settled F s (v : nat) (lt : gset EdgeId) : Prop :=
  version s = S v /\ lt ⊆ deleted s /\ (forall r, r ∈ F \/ r ∈ rows s -> row_id r ∉ lt) /\ disjoint F s.

Definition compaction_ok F s : Prop :=
  let x := index s in
  match compaction s with
  | Idle => disjoint F s
  | ScanTombstones f lt => f = frozen x /\ lt ⊆ tombs s /\ disjoint F s
  | ScanDelta f lt ld todo seen =>
      f = frozen x /\ lt ⊆ tombs s /\ disjoint F s /\ NoDup ld /\ ld ⊆ rows s /\
      (forall r, r ∈ ld -> r.1 ∈ seen) /\ (forall r, r ∈ rows s -> row_id r ∈ lt -> r ∈ ld \/ r.1 ∈ todo)
  | Built c lt ld => disjoint F s /\ scanned s lt ld /\ merged F lt ld c
  | Opened c lt ld => disjoint F s /\ scanned s lt ld /\ merged F lt ld c /\ (ld = [] \/ publish_window x = true)
  | Retain v lt todo k | Remove v lt _ todo k => retiring F s v lt todo /\ 0 <= k
  | Close v lt | Wait v lt => lt ⊆ tombs s /\ settled F s v lt
  | RetireTombstones lt todo k =>
      (exists v, settled F s v lt /\ forall i rd, readers s !! i = Some rd -> holds (phase rd) <> Some v) /\
      NoDup todo /\ (forall id, id ∈ todo -> id ∈ tombs s /\ id ∈ lt) /\ 0 <= k
  | CompactionPanicked => False
  end.

(** What the counters are still above the maps by. *)
Definition retired_delta (c : Compaction) : Z := match c with Retain _ _ _ k | Remove _ _ _ _ k => k | _ => 0 end.
Definition retired_tombs (c : Compaction) : Z := match c with RetireTombstones _ _ k => k | _ => 0 end.

Record base F s : Prop := {
  b_known : distinct (inserting s ++ inserted s);
  b_csr : csr_of (frozen (index s)).2 F;
  b_sorted : Sorted row_le F;
  b_frozen : NoDup F /\ F ⊆ inserted s;
  b_delta : NoDup (rows s) /\ rows s ⊆ inserted s;
  b_live : forall r, r ∈ inserted s -> row_id r ∉ deleted s -> r ∈ F \/ r ∈ rows s;
  b_dead : forall r, r ∈ inserted s -> row_id r ∈ deleted s -> row_id r ∈ tombs s \/ (r ∉ F /\ r ∉ rows s);
  b_deleted : tombs s ⊆ deleted s /\ (forall id, id ∈ deleted s -> exists r, r ∈ inserted s /\ row_id r = id);
  b_deleting : NoDup (deleting s) /\ (forall id, id ∈ deleting s -> id ∉ deleted s /\ exists r, r ∈ inserted s /\ row_id r = id);
  b_counts : delta_edge_count (index s) =
               Z.of_nat (length (rows s)) + Z.of_nat (length (inserting s)) + retired_delta (compaction s) /\
             tombstone_count (index s) =
               Z.of_nat (size (tombs s)) + Z.of_nat (length (deleting s)) + retired_tombs (compaction s);
  b_interrupted : interrupted_publish (index s) = false;
  b_compaction : compaction_ok F s }.

(** ** The readers *)
Definition expected s rd (e : AdjacencyEntry) : Prop := (reads rd, e) ∈ inserted0 rd /\ edge_id e ∉ deleted s.
Definition recent s rd : Prop := (version s <= S (version0 rd))%nat.
Definition pin_ok s rd (d : option (list AdjacencyEntry)) : Prop :=
  forall l, d = Some l -> delta (index s) !! reads rd = Some l.
Definition csr_held F s rd (f : nat * AdjacencyIndex) Ff : Prop :=
  csr_of f.2 Ff /\ Sorted row_le Ff /\ NoDup Ff /\ Ff ⊆ inserted s /\
  (version0 rd <= f.1 <= version s)%nat /\ (f.1 = version s -> Ff = F).
Definition masked s rd (te : bool) (e : AdjacencyEntry) : Prop :=
  edge_id e ∈ deleted0 rd -> te = false /\ (recent s rd -> edge_id e ∈ tombs s).
Definition no_deleted s rd (out : list AdjacencyEntry) : Prop :=
  forall e, e ∈ out -> edge_id e ∈ deleted0 rd -> ~ recent s rd.
Definition gone F s rd : Prop :=
  forall r, r ∈ inserted0 rd -> row_id r ∈ deleted0 rd -> r ∉ F /\ r ∉ rows s.
Definition frozen_all F s rd : Prop := forall r, r ∈ inserted0 rd -> row_id r ∉ deleted s -> r ∈ F.

Definition phase_ok F s rd : Prop :=
  let n := reads rd in
  match phase rd with
  | Begun => True
  | CountedDelta de => de = true -> frozen_all F s rd
  | Counted de te => (de = true -> frozen_all F s rd) /\ (te = true -> gone F s rd)
  | Pinned te d =>
      (te = true -> gone F s rd) /\ pin_ok s rd d /\
      forall e, expected s rd e -> e ∈ default [] d \/ (n, e) ∈ F
  | Loaded te d f =>
      pin_ok s rd d /\ exists Ff, csr_held F s rd f Ff /\
      (forall e, expected s rd e -> e ∈ default [] d \/ (n, e) ∈ Ff) /\
      (forall e, e ∈ default [] d -> (n, e) ∈ Ff -> f.1 = version s) /\
      (forall e, e ∈ default [] d \/ (n, e) ∈ Ff -> masked s rd te e)
  | Iterating g todo out =>
      pin_ok s rd (g_delta g) /\ exists Ff, csr_held F s rd (g_frozen g) Ff /\
      (forall e, e ∈ todo -> e ∈ default [] (g_delta g) \/ (n, e) ∈ Ff) /\
      NoDup (out ++ todo) /\ (forall e, e ∈ out ++ todo -> (n, e) ∈ inserted s) /\
      (forall e, expected s rd e -> e ∈ out ++ todo) /\
      (forall e, e ∈ todo -> masked s rd (tombstones_empty g) e) /\ no_deleted s rd out
  | Finished out =>
      NoDup out /\ (forall e, e ∈ out -> (n, e) ∈ inserted s) /\
      (forall e, expected s rd e -> e ∈ out) /\ no_deleted s rd out
  | ReaderPanicked => False
  end.

Record reader_ok F s rd : Prop := {
  r_inserted : inserted0 rd ⊆ inserted s;
  r_deleted : deleted0 rd ⊆ deleted s /\ (forall id, id ∈ deleted0 rd -> exists r, r ∈ inserted0 rd /\ row_id r = id);
  r_version : (version0 rd <= version s)%nat;
  r_phase : phase_ok F s rd }.

Definition inv s : Prop := exists F, base F s /\ forall i rd, readers s !! i = Some rd -> reader_ok F s rd.

(** *** What the other steps guarantee to a reader *)
Record env F s F' s' rd : Prop := {
  e_inserted : inserted s ⊆ inserted s';
  e_deleted : deleted s ⊆ deleted s';
  e_version : (version s <= version s')%nat;
  e_live : forall r, r ∈ F -> row_id r ∉ deleted s' -> r ∈ F';
  e_gone : forall r, r ∈ inserted s -> row_id r ∈ deleted s -> r ∉ F /\ r ∉ rows s -> r ∉ F' /\ r ∉ rows s';
  e_pin : is_Some (pin (phase rd)) -> delta (index s') !! reads rd = delta (index s) !! reads rd;
  e_same : version s' = version s -> F' = F;
  e_publish : version s' <> version s -> disjoint F s;
  e_tombs : forall id, id ∈ tombs s -> id ∉ tombs s' ->
    version s' = version s /\ (forall r, r ∈ F \/ r ∈ rows s -> row_id r <> id) /\
    exists v, version s = S v /\ holds (phase rd) <> Some v }.

Lemma pinned_rows s rd d e : pin_ok s rd d -> e ∈ default [] d -> (reads rd, e) ∈ rows s.
Proof.
  intros Hp He. destruct d as [l|]; [|by apply not_elem_of_nil in He]. apply elem_delta_rows. exists l.
  split; [|done]. by apply Hp.
Qed.

Lemma expected_mono s s' rd e : deleted s ⊆ deleted s' -> expected s' rd e -> expected s rd e.
Proof. intros Hd [H1 H2]. split; [done|]. by intros ?%Hd. Qed.

Lemma csr_held_env F s F' s' rd f Ff : env F s F' s' rd -> csr_held F s rd f Ff -> csr_held F' s' rd f Ff.
Proof.
  intros [] (H1 & H2 & H3 & H4 & H5 & H6). unfold csr_held. split_and!; try done; [by etrans|lia|lia|].
  intros Hv. destruct (decide (version s' = version s)) as [E|E]; [rewrite e_same0 by done; apply H6; lia|lia].
Qed.

Lemma masked_env F s F' s' rd f Ff d te e :
  env F s F' s' rd -> csr_held F s rd f Ff -> pin_ok s rd d -> holds (phase rd) = Some f.1 ->
  e ∈ default [] d \/ (reads rd, e) ∈ Ff -> masked s rd te e -> masked s' rd te e.
Proof.
  intros [] (_ & _ & _ & _ & H5 & H6) Hp Hh Hin Hm Hd. destruct (Hm Hd) as [Hte Ht]. split; [done|]. intros Hr.
  assert (Hr' : recent s rd) by (unfold recent in *; lia). specialize (Ht Hr').
  destruct (decide (edge_id e ∈ tombs s')) as [|Hn]; [done|]. exfalso.
  destruct (e_tombs0 _ Ht Hn) as (Hv & Hrow & v & Hs & Hhold). rewrite Hh in Hhold.
  assert (Hf : f.1 = version s) by (unfold recent in *; destruct (decide (f.1 = v)); [congruence|lia]).
  apply (Hrow (reads rd, e)); [|done]. rewrite H6 in Hin by done. destruct Hin as [Hin|Hin]; [right|by left].
  by eapply pinned_rows.
Qed.

Lemma pin_ok_env F s F' s' rd d : env F s F' s' rd -> pin (phase rd) = d -> pin_ok s rd d -> pin_ok s' rd d.
Proof. intros [] Hpin Hp l ->. rewrite e_pin0 by (rewrite Hpin; eauto). by apply Hp. Qed.

Lemma reader_env F s F' s' rd : env F s F' s' rd -> reader_ok F s rd -> reader_ok F' s' rd.
Proof.
  intros He [H1 [H2 H2'] H3 H4]. pose proof He as Henv. destruct He.
  assert (Hall : frozen_all F s rd -> frozen_all F' s' rd).
  { intros H r Hr Hd. apply e_live0; [|done]. apply H; [done|]. by intros ?%e_deleted0. }
  assert (Hgone : gone F s rd -> gone F' s' rd).
  { intros H r Hr Hd. apply e_gone0; [by apply H1|by apply H2|by apply H]. }
  assert (Hno : forall out, no_deleted s rd out -> no_deleted s' rd out).
  { intros out H e Hi Hd Hrec. apply (H e Hi Hd). unfold recent in *. lia. }
  assert (Hexp : forall e, expected s' rd e -> expected s rd e) by (intros; by eapply expected_mono).
  split; [by etrans|split; [by etrans|done]|lia|].
  unfold phase_ok in *. destruct (phase rd) as [|de|de te|te d|te d f|g todo out|out|] eqn:Ep; try done.
  - auto.
  - destruct H4 as [Ha Hb]. auto.
  - destruct H4 as (Ha & Hb & Hc). split_and!; [auto|eapply pin_ok_env; [done|by rewrite Ep|done]|].
    intros e Hx. destruct (Hc e (Hexp e Hx)) as [|HF]; [by left|right]. apply e_live0; [done|apply Hx].
  - destruct H4 as (Hp & Ff & Hc & Hx & Ho & Hm). split; [eapply pin_ok_env; [done|by rewrite Ep|done]|].
    exists Ff. split_and!; [by eapply csr_held_env|auto| |].
    + intros e Hd HF. pose proof (Ho e Hd HF) as Hv. destruct (decide (version s' = version s)) as [|Hne]; [congruence|].
      exfalso. apply (e_publish0 Hne (reads rd, e)); [|by eapply pinned_rows].
      destruct Hc as (_ & _ & _ & _ & _ & Hsame). by rewrite <- Hsame.
    + intros e Hin. eapply masked_env; [done..|by rewrite Ep|done|by apply Hm].
  - destruct H4 as (Hp & Ff & Hc & Hsrc & Hnd & Hins & Hx & Hm & Ho). split; [eapply pin_ok_env; [done|by rewrite Ep|done]|].
    exists Ff. split_and!; [by eapply csr_held_env|done|done|by intros e Hin; apply e_inserted0, Hins|auto| |auto].
    intros e Hin. eapply masked_env; [done..|by rewrite Ep|by apply Hsrc|by apply Hm].
  - destruct H4 as (Hnd & Hins & Hx & Ho). split_and!; [done|by intros e Hin; apply e_inserted0, Hins|auto|auto].
Qed.

(** *** A reader's own steps *)
Lemma retired_nonneg F s : compaction_ok F s -> 0 <= retired_delta (compaction s) /\ 0 <= retired_tombs (compaction s).
Proof. unfold compaction_ok, retired_delta, retired_tombs. destruct (compaction s); naive_solver lia. Qed.

Lemma overlap_window F s r : compaction_ok F s -> r ∈ F -> r ∈ rows s -> publish_window (index s) = true.
Proof.
  unfold compaction_ok, settled, retiring, disjoint. intros Hc HF Hr.
  assert (Hd : ~ (forall r, r ∈ F -> r ∉ rows s)) by (intros H; by apply (H r)).
  destruct (compaction s); naive_solver.
Qed.

Lemma deleted0_row F s rd r :
  base F s -> reader_ok F s rd -> r ∈ inserted s -> row_id r ∈ deleted0 rd -> r ∈ inserted0 rd.
Proof.
  intros [] [Hi [_ Hd] _ _] Hr Hid. destruct (Hd _ Hid) as (r' & Hr' & He).
  rewrite <- (distinct_eq _ r' r b_known0); [done| | |done]; apply elem_of_app; right; [by apply Hi|done].
Qed.

Lemma start_iterating_ok F s rd g Ff :
  base F s -> reader_ok F s rd -> node g = reads rd -> pin_ok s rd (g_delta g) ->
  csr_held F s rd (g_frozen g) Ff ->
  (forall e, expected s rd e -> e ∈ default [] (g_delta g) \/ (reads rd, e) ∈ Ff) ->
  (forall e, e ∈ default [] (g_delta g) -> (reads rd, e) ∈ Ff -> g_window g = true) ->
  (forall e, e ∈ default [] (g_delta g) \/ (reads rd, e) ∈ Ff -> masked s rd (tombstones_empty g) e) ->
  reader_ok F s (set_phase (start_iterating g) rd).
Proof.
  intros Hb Hr Hn Hp Hc Hx Hw Hm. pose proof Hc as (Hcsr & Hs & HN & Hsub & _).
  assert (Hds : forall e, e ∈ delta_slice g -> (reads rd, e) ∈ inserted s).
  { intros e He. destruct (b_delta _ _ Hb) as [_ HD]. apply HD. by eapply pinned_rows. }
  destruct (candidates_spec g Ff (inserting s ++ inserted s)) as (cand & Hcand & Hnd & Hin); try done.
  - apply Hb.
  - intros r Hr'. apply elem_of_app. right. by apply Hsub.
  - intros e He. rewrite Hn. apply elem_of_app. right. by apply Hds.
  - unfold delta_slice. destruct (g_delta g) as [l|] eqn:E; [|constructor]. simpl.
    eapply delta_rows_node; [by apply Hp|]. apply Hb.
  - unfold start_iterating. rewrite Hcand. rewrite Hn in Hin, Hnd.
    destruct Hr as [Hr1 Hr2 Hr3 _]. split; try done. unfold phase_ok. cbn [phase set_phase reads].
    split; [done|]. exists Ff. split_and!; try done.
    + intros e He%Hin. tauto.
    + simpl. by apply Hnd.
    + simpl. intros e [He|He]%Hin; [by apply Hsub|by apply Hds].
    + simpl. intros e He. apply Hin. destruct (Hx e He); tauto.
    + intros e He%Hin. apply Hm. tauto.
    + by intros e ?%not_elem_of_nil.
Qed.

Lemma read_step_ok F s rd p :
  base F s -> reader_ok F s rd -> read_step (index s) (reads rd) (phase rd) = Some p ->
  reader_ok F s (set_phase p rd).
Proof.
  intros Hb Hr Hstep. pose proof Hb as [Hk Hcsr Hsort [HNF HF] [HND HD] Hlive Hdead [Hdel _] _ [Hcd Hct] _ Hcomp].
  destruct (retired_nonneg _ _ Hcomp) as [Hk1 Hk2]. pose proof Hr as [Hi [Hd Hd'] Hv Hph]. unfold phase_ok in Hph.
  assert (Hcur : csr_held F s rd (frozen (index s)) F) by (unfold csr_held; split_and!; try done; unfold version in *; lia).
  assert (Hexp : forall e, expected s rd e -> (reads rd, e) ∈ F \/ (reads rd, e) ∈ rows s)
    by (intros e [H1 H2]; apply Hlive; [by apply Hi|done]).
  destruct (phase rd) as [|de|de te|te d|te d f|g todo out|out|] eqn:Ep; simpl in Hstep.
  - simplify_eq. split; try done. unfold phase_ok. simpl. intros E%Z.eqb_eq r Hr' Hn.
    destruct (Hlive r (Hi _ Hr') Hn) as [|Hrow]; [done|]. assert (Hl : rows s = []) by (apply length_zero; lia).
    rewrite Hl in Hrow. by apply not_elem_of_nil in Hrow.
  - simplify_eq. split; try done. unfold phase_ok. simpl. split; [done|]. intros E%Z.eqb_eq r Hr' Hid.
    assert (Ht : tombs s = ∅) by (apply size_zero; lia).
    destruct (Hdead r (Hi _ Hr') (Hd _ Hid)) as [H|]; [|done]. rewrite Ht in H. set_solver.
  - destruct Hph as [Ha Hg].
    assert (Hpin : Some (Pinned te (delta (index s) !! reads rd)) = Some p -> reader_ok F s (set_phase p rd)).
    { intros. simplify_eq. split; try done. unfold phase_ok. simpl. split_and!; [done|by intros l|].
      intros e He. rewrite delta_slice_rows. destruct (Hexp e He); tauto. }
    destruct de, te; try by apply Hpin. simplify_eq.
    apply (start_iterating_ok F s rd _ F); simpl; try done.
    + intros e [H1 H2]. right. by apply Ha.
    + by intros e ?%not_elem_of_nil.
    + intros e [?%not_elem_of_nil|HeF] Hid; [done|]. exfalso.
      assert (Hin0 : (reads rd, e) ∈ inserted0 rd) by (apply (deleted0_row F s); [done..|by apply HF|done]).
      by destruct (Hg eq_refl _ Hin0 Hid).
  - simplify_eq. destruct Hph as (Hg & Hp & Hx). split; try done. unfold phase_ok. simpl. split; [done|].
    exists F. split_and!; try done. intros e He Hid.
    assert (He' : (reads rd, e) ∈ F \/ (reads rd, e) ∈ rows s) by (destruct He; [right; by eapply pinned_rows|by left]).
    assert (Hins : (reads rd, e) ∈ inserted s) by (destruct He'; [by apply HF|by apply HD]).
    pose proof (deleted0_row _ _ _ _ Hb Hr Hins Hid) as Hin0. split.
    + destruct te; [|done]. exfalso. destruct (Hg eq_refl _ Hin0 Hid). tauto.
    + intros _. destruct (Hdead _ Hins (Hd _ Hid)) as [|[]]; [done|tauto].
  - simplify_eq. destruct Hph as (Hp & Ff & Hc & Hx & Ho & Hm).
    apply (start_iterating_ok F s rd _ Ff); simpl; try done.
    intros e He HeF. pose proof (Ho e He HeF) as Hfv. destruct Hc as (_ & _ & _ & _ & _ & Hsame).
    eapply overlap_window; [done|rewrite <- (Hsame Hfv); exact HeF|by eapply pinned_rows].
  - destruct Hph as (Hp & Ff & Hc & Hsrc & Hnd & Hins & Hx & Hm & Ho). destruct todo as [|e todo]; simplify_eq.
    + split; try done. unfold phase_ok. simpl. rewrite app_nil_r in *. done.
    + split; try done. unfold phase_ok. simpl. split; [done|]. exists Ff. split_and!; try done.
      * intros e' He'. apply Hsrc. by constructor.
      * case_goal; [by rewrite <- app_assoc|]. apply NoDup_app in Hnd as (H1 & H2 & H3). apply NoDup_cons in H3 as [_ H3].
        apply NoDup_app. split_and!; [done| |done]. intros e' He' H. apply (H2 e' He'). by constructor.
      * intros e' He'. apply Hins. case_hyp He'; [by rewrite <- app_assoc in He'|].
        apply elem_of_app in He' as [?|?]; apply elem_of_app; [by left|right; by constructor].
      * intros e' He'. specialize (Hx e' He'). case_goal; [by rewrite <- app_assoc|].
        apply elem_of_app in Hx as [Hx|Hx]; [apply elem_of_app; by left|]. apply elem_of_app. right.
        apply elem_of_cons in Hx as [->|]; [|done]. exfalso.
        apply orb_false_iff in Heqb as [_ Hn]. apply negb_false_iff, bool_decide_eq_true in Hn.
        apply He'. by apply Hdel.
      * intros e' He'. apply Hm. by constructor.
      * case_goal; [|done]. intros e' [He'| ->%list_elem_of_singleton]%elem_of_app Hid; [exact (Ho e' He' Hid)|]. intros Hrec.
        destruct (Hm e ltac:(by constructor) Hid) as [Hte Ht]. rewrite Hte in Heqb. simpl in Heqb.
        apply negb_true_iff, bool_decide_eq_false in Heqb. by apply Heqb, Ht.
  - done.
  - done.
Qed.

(** *** Steps that leave the frozen layer alone *)
Lemma pinned_false s n i rd :
  pinned s n = false -> readers s !! i = Some rd -> reads rd = n -> pin (phase rd) = None.
Proof.
  unfold pinned. intros Hp Hi Hn. destruct (pin (phase rd)) eqn:E; [|done]. exfalso.
  rewrite <- not_true_iff_false in Hp. apply Hp, existsb_exists. exists rd. split.
  - apply list_elem_of_In. change (rd ∈ snd <$> map_to_list (readers s)). apply list_elem_of_fmap. exists (i, rd).
    split; [done|]. by apply elem_of_map_to_list.
  - by rewrite !bool_decide_eq_true_2 by (done || rewrite E; eauto).
Qed.

Lemma held_false s v i rd : held s v = false -> readers s !! i = Some rd -> holds (phase rd) <> Some v.
Proof.
  unfold held. intros Hp Hi E. rewrite <- not_true_iff_false in Hp. apply Hp, existsb_exists. exists rd. split.
  - apply list_elem_of_In. change (rd ∈ snd <$> map_to_list (readers s)). apply list_elem_of_fmap. exists (i, rd).
    split; [done|]. by apply elem_of_map_to_list.
  - by rewrite bool_decide_eq_true_2.
Qed.

Lemma env_quiet F s s' rd :
  inserted s ⊆ inserted s' -> deleted s ⊆ deleted s' -> frozen (index s') = frozen (index s) ->
  (forall r, r ∈ rows s' -> r ∈ rows s \/ r ∉ inserted s) ->
  (is_Some (pin (phase rd)) -> delta (index s') !! reads rd = delta (index s) !! reads rd) ->
  (forall id, id ∈ tombs s -> id ∈ tombs s') -> env F s F s' rd.
Proof.
  intros H1 H2 H3 H4 H5 H6. unfold version. split; unfold version; rewrite ?H3; try done.
  - intros r Hr Hd [HF Hrow]. split; [done|]. intros [|]%H4; done.
  - intros id Hi Hn. exfalso. by apply Hn, H6.
Qed.

(** Writers: what was recorded stays, new rows have fresh ids. *)
Lemma compaction_ok_mono F s s' :
  compaction s' = compaction s -> readers s' = readers s -> frozen (index s') = frozen (index s) ->
  publish_window (index s') = publish_window (index s) ->
  tombs s ⊆ tombs s' -> deleted s ⊆ deleted s' -> tombs s' ⊆ deleted s' -> inserted s ⊆ inserted s' -> rows s ⊆ rows s' ->
  (forall r, r ∈ rows s' -> r ∈ rows s \/
     (row_id r ∉ deleted s' /\ r ∉ F /\ forall r', r' ∈ inserted s -> row_id r' <> row_id r)) ->
  compaction_ok F s -> compaction_ok F s'.
Proof.
  intros Hc Hrd Hf Hw Ht Hd Htd Hi Hr Hnew. unfold compaction_ok. rewrite Hc, Hf.
  assert (Hdis : disjoint F s -> disjoint F s').
  { intros H r HF Hr'. destruct (Hnew r Hr') as [Ho|(_ & Hn & _)]; [by apply (H r)|done]. }
  assert (Hsc : forall lt ld, scanned s lt ld -> scanned s' lt ld).
  { intros lt ld (H1 & H2 & H3 & H4). unfold scanned. split_and!; [by etrans|done|by etrans|].
    intros r Hr' Hid. destruct (Hnew r Hr') as [Ho|(Hn & _ & _)]; [by apply H4|]. exfalso. by apply Hn, Htd, Ht, H1. }
  assert (Hset : forall v lt, settled F s v lt -> settled F s' v lt).
  { intros v lt (H1 & H2 & H3 & H4). unfold settled, version. rewrite Hf. split_and!; [done|by etrans| |by apply Hdis].
    intros r [HF|Hr']; [by apply H3; left|]. destruct (Hnew r Hr') as [Ho|(Hn & _ & _)]; [by apply H3; right|].
    intros Hl. by apply Hn, Hd, H2. }
  assert (Hret : forall v lt todo, retiring F s v lt todo -> retiring F s' v lt todo).
  { intros v lt todo (H1 & H2 & H3 & H4 & H5 & H6 & H7). unfold retiring, version. rewrite Hf, Hw. split_and!.
    - done.
    - by etrans.
    - done.
    - intros r Hr' Hor. destruct (Hnew r Hr') as [Ho|(Hn & HnF & _)]; [by apply H4|]. exfalso.
      destruct Hor as [|Hl]; [done|]. by apply Hn, Htd, Ht, H2.
    - intros r Hr' Hl. destruct (Hnew r Hr') as [Ho|(_ & _ & Hf')]; [by apply H5|]. exfalso.
      destruct (H6 r Hl) as (r' & Hin & He). by apply (Hf' r').
    - intros r Hl. destruct (H6 r Hl) as (r' & Hin & He). exists r'. split; [by apply Hi|done].
    - destruct H7; [by left|right; by apply Hdis]. }
  destruct (compaction s) as [|f lt|f lt ld todo seen|c lt ld|c lt ld|v lt todo k|v lt n todo k|v lt|v lt|lt todo k|]; try done.
  - intros (H1 & H2 & H3). split_and!; [done|by etrans|by apply Hdis].
  - intros (H1 & H2 & H3 & H4 & H5 & H6 & H7). split_and!; [done|by etrans|by apply Hdis|done|by etrans|done|].
    intros r Hr' Hid. destruct (Hnew r Hr') as [Ho|(Hn & _ & _)]; [by apply H7|]. exfalso. by apply Hn, Htd, Ht, H2.
  - intros (H1 & H2 & H3). split_and!; [by apply Hdis|by apply Hsc|done].
  - intros (H1 & H2 & H3 & H4). rewrite Hw. split_and!; [by apply Hdis|by apply Hsc|done|done].
  - intros (H1 & H2). split; [by apply Hret|done].
  - intros (H1 & H2). split; [by apply Hret|done].
  - intros (H1 & H2). split; [by etrans|by apply Hset].
  - intros (H1 & H2). split; [by etrans|by apply Hset].
  - intros ((v & H1 & H2) & H3 & H4 & H5). split_and!; [|done| |done].
    + exists v. rewrite Hrd. split; [by apply Hset|done].
    + intros id Hid. destruct (H4 id Hid). split; [by apply Ht|done].
Qed.

Lemma filter_remove {A} `{EqDecision A} (l : list A) x : NoDup l -> x ∈ l -> l ≡ₚ x :: filter (fun y => y <> x) l.
Proof.
  induction 1 as [|y l Hin HN IH]; intros Hx; [by apply not_elem_of_nil in Hx|]. rewrite filter_cons.
  destruct (decide (y <> x)) as [Hne|Heq].
  - apply elem_of_cons in Hx as [->|Hx]; [done|]. rewrite (IH Hx) at 1. apply Permutation_swap.
  - apply dec_stable in Heq. subst. f_equiv. rewrite filter_all; [done|]. apply Forall_forall. by intros z Hz ->.
Qed.

Lemma distinct_perm l1 l2 : l1 ≡ₚ l2 -> distinct l1 -> distinct l2.
Proof. unfold distinct. by intros ->. Qed.
Lemma distinct_nodup l : distinct l -> NoDup l.
Proof. unfold distinct. change (List.map row_id l) with (row_id <$> l). apply NoDup_fmap_1. Qed.

Definition others_ok F s F' s' : Prop := forall i rd, readers s !! i = Some rd -> env F s F' s' rd.

Lemma races_inv_step F s F' s' :
  (forall i rd, readers s !! i = Some rd -> reader_ok F s rd) -> readers s' = readers s ->
  base F' s' -> others_ok F s F' s' -> inv s'.
Proof. intros Hr Hsame Hb He. exists F'. split; [done|]. intros i rd Hi. rewrite Hsame in Hi. eapply reader_env; [by eapply He|by eapply Hr]. Qed.

Section Steps.
Context (sort : list row -> list row) `{!RowSort sort}.

Lemma insert_count_ok F s n e s' : base F s -> exec sort s (InsertCount n e) = Some s' -> base F s' /\ others_ok F s F s'.
Proof.
  intros Hb H. simpl in H. case_bool_decide as Hid; [done|]. simplify_eq. split; [|by intros i rd _; apply env_quiet; auto].
  destruct Hb as [Hk ? ? ? ? ? ? ? ? [Hcd Hct] ? Hc]. split; try done.
  - unfold distinct in *. simpl. by constructor.
  - split; [|done]. change (delta_edge_count (index s) + 1 = Z.of_nat (length (rows s)) +
      Z.of_nat (S (length (inserting s))) + retired_delta (compaction s)). lia.
Qed.

Lemma insert_push_ok F s n e s' : base F s -> exec sort s (InsertPush n e) = Some s' -> base F s' /\ others_ok F s F s'.
Proof.
  intros Hb H. simpl in H. case_bool_decide as Hin; [|done]. destruct (pinned s n) eqn:Hp; [done|]. simpl in H. simplify_eq.
  destruct Hb as [Hk Hcsr Hso [HNF HF] [HND HD] Hli Hde [Hdt Hdr] [Hdl Hdl'] [Hcd Hct] Hint Hc].
  pose proof (push_rows n e (index s)) as Hrows. set (s' := mkState _ _ _ _ _ _ _).
  assert (Hrows' : rows s' ≡ₚ (n, e) :: rows s) by exact Hrows.
  assert (HNI : NoDup (inserting s)) by (apply distinct_nodup in Hk; by apply NoDup_app in Hk as [? _]).
  pose proof (filter_remove _ _ HNI Hin) as Hperm.
  assert (Hfresh : forall r', r' ∈ inserted s -> row_id r' <> row_id (n, e)).
  { intros r' Hr' He. assert (Heq : r' = (n, e)).
    { apply (distinct_eq _ _ _ Hk); [apply elem_of_app; by right|apply elem_of_app; by left|done]. }
    subst r'. apply distinct_nodup in Hk. apply NoDup_app in Hk as (_ & Hno & _). by apply (Hno _ Hin). }
  assert (Hni : (n, e) ∉ inserted s) by (intros Hr; by apply (Hfresh _ Hr)).
  assert (Hnd : row_id (n, e) ∉ deleted s) by (intros Hd; destruct (Hdr _ Hd) as (r' & Hr' & He); by apply (Hfresh r')).
  split.
  - split; try done.
    + eapply distinct_perm; [|exact Hk]. simpl. rewrite Hperm at 1. simpl. by rewrite Permutation_middle.
    + split; [done|]. intros r Hr. simpl. right. by apply HF.
    + rewrite Hrows'. split; [constructor; [by intros Hr; apply Hni, HD|done]|]. intros r Hr. simpl in *.
      apply elem_of_cons in Hr as [->|Hr]; [left|right; by apply HD].
    + intros r Hr Hd. simpl in Hr, Hd. rewrite Hrows'. apply elem_of_cons in Hr as [->|Hr]; [right; left|].
      destruct (Hli r Hr Hd); [by left|right; by right].
    + intros r Hr Hd. simpl in Hr, Hd. apply elem_of_cons in Hr as [->|Hr]; [done|].
      destruct (Hde r Hr Hd) as [|[H1 H2]]; [by left|right]. split; [done|]. rewrite Hrows'.
      intros [->|]%elem_of_cons; done.
    + split; [done|]. intros id Hd. destruct (Hdr id Hd) as (r & Hr & He). exists r. split; [by right|done].
    + split; [done|]. intros id Hd. destruct (Hdl' id Hd) as (Hn & r & Hr & He). split; [done|]. exists r. split; [by right|done].
    + split; [|done]. rewrite (Permutation_length Hrows').
      apply Permutation_length in Hperm. cbn [length] in *.
      change (delta_edge_count (index s) = Z.of_nat (S (length (rows s))) +
        Z.of_nat (length (filter (fun r => r <> (n, e)) (inserting s))) + retired_delta (compaction s)). lia.
    + apply (compaction_ok_mono F s); try done.
      * intros r Hr. by right.
      * intros r Hr. rewrite Hrows'. by right.
      * intros r Hr. rewrite Hrows' in Hr. apply elem_of_cons in Hr as [->|Hr]; [right|by left].
        split_and!; [done| |done]. intros HnF. by apply Hni, HF.
  - intros i rd Hi. apply env_quiet; try done.
    + intros r Hr. by right.
    + intros r Hr. rewrite Hrows' in Hr. apply elem_of_cons in Hr as [->|Hr]; [by right|by left].
    + intros Hpin. simpl. rewrite lookup_insert_ne; [done|]. intros ->.
      rewrite (pinned_false _ _ _ _ Hp Hi eq_refl) in Hpin. by destruct Hpin.
Qed.

Lemma delete_count_ok F s id s' : base F s -> exec sort s (DeleteCount id) = Some s' -> base F s' /\ others_ok F s F s'.
Proof.
  intros Hb H. simpl in H. case_bool_decide as Hin; [|done]. case_bool_decide as H1; [done|]. case_bool_decide as H2; [done|].
  simpl in H. simplify_eq. split; [|by intros i rd _; apply env_quiet; auto].
  destruct Hb as [? ? ? ? ? ? ? ? [Hdl Hdl'] [Hcd Hct] ? Hc]. split; try done.
  - split; [by constructor|]. intros j [->|Hj]%elem_of_cons; [|by apply Hdl']. split; [done|].
    apply elem_ids in Hin as (r & Hr & He). by exists r.
  - split; [done|]. change (tombstone_count (index s) + 1 = Z.of_nat (size (tombs s)) +
      Z.of_nat (S (length (deleting s))) + retired_tombs (compaction s)). lia.
Qed.

Lemma delete_mark_ok F s id s' : base F s -> exec sort s (DeleteMark id) = Some s' -> base F s' /\ others_ok F s F s'.
Proof.
  intros Hb H. simpl in H. case_bool_decide as Hin; [|done]. simplify_eq.
  destruct Hb as [Hk Hcsr Hso HF HD Hli Hde [Hdt Hdr] [Hdl Hdl'] [Hcd Hct] Hint Hc]. destruct (Hdl' id Hin) as (Hnd & Hrow).
  assert (Hnt : id ∉ tombs s) by (intros H; by apply Hnd, Hdt).
  split.
  - split; try done.
    + intros r Hr Hn. apply Hli; [done|]. cbn in Hn. set_solver.
    + intros r Hr Hd. cbn in Hd. unfold tombs. cbn. apply elem_of_union in Hd as [->%elem_of_singleton|Hd]; [left; set_solver|].
      destruct (Hde r Hr Hd) as [H|H]; [left; unfold tombs in H; set_solver|by right].
    + split; [unfold tombs in *; cbn; set_solver|]. intros j Hj. cbn in Hj.
      apply elem_of_union in Hj as [->%elem_of_singleton|Hj]; [done|by apply Hdr].
    + split; [by apply NoDup_filter|]. intros j Hj. apply list_elem_of_filter in Hj as [Hne Hj]. cbn.
      destruct (Hdl' j Hj). split; [set_solver|done].
    + split; [done|]. pose proof (Permutation_length (filter_remove _ _ Hdl Hin)) as Hl. cbn [length] in Hl.
      assert (Hsz : size ({[id]} ∪ tombs s) = S (size (tombs s))) by (rewrite size_union, size_singleton by set_solver; lia).
      change (tombstone_count (index s) = Z.of_nat (size ({[id]} ∪ tombs s)) +
        Z.of_nat (length (filter (fun i => i <> id) (deleting s))) + retired_tombs (compaction s)). lia.
    + apply (compaction_ok_mono F s); try done; unfold tombs in *; cbn; try (by intros r Hr; left); set_solver.
  - intros i rd Hi. apply env_quiet; try done; try (by intros r Hr; left); unfold tombs; cbn; set_solver.
Qed.

(** *** The compaction *)
(** A step of the compaction that only changes its own record. *)
Lemma phase_change F s c :
  base F s -> retired_delta c = retired_delta (compaction s) -> retired_tombs c = retired_tombs (compaction s) ->
  compaction_ok F (set_compaction c s) -> base F (set_compaction c s) /\ others_ok F s F (set_compaction c s).
Proof.
  intros [] H1 H2 Hc. split; [|by intros i rd _; apply env_quiet; auto]. split; try done. cbn. by rewrite H1, H2.
Qed.

Lemma compact_start_ok F s s' : base F s -> exec sort s CompactStart = Some s' -> base F s' /\ others_ok F s F s'.
Proof.
  intros Hb H. simpl in H. pose proof (b_compaction _ _ Hb) as Hc. unfold compaction_ok in Hc.
  destruct (compaction s) eqn:E; simplify_eq. apply phase_change; by rewrite ?E.
Qed.

Lemma compact_tombstone_ok F s id s' : base F s -> exec sort s (CompactTombstone id) = Some s' -> base F s' /\ others_ok F s F s'.
Proof.
  intros Hb H. simpl in H. pose proof (b_compaction _ _ Hb) as Hc. unfold compaction_ok in Hc.
  destruct (compaction s) as [|f lt| | | | | | | | |] eqn:E; simplify_eq. case_bool_decide as Hid; simplify_eq.
  destruct Hc as (H1 & H2 & H3). apply phase_change; rewrite ?E; try done.
  unfold compaction_ok. simpl. split_and!; [done|unfold tombs in *; set_solver|done].
Qed.

Lemma compact_delta_ok F s n s' : base F s -> exec sort s (CompactDelta n) = Some s' -> base F s' /\ others_ok F s F s'.
Proof.
  intros Hb H. simpl in H. pose proof (b_compaction _ _ Hb) as Hc. unfold compaction_ok in Hc.
  destruct (compaction s) as [| |f lt ld todo seen| | | | | | | |] eqn:E; simplify_eq. case_bool_decide as Hid; simplify_eq.
  destruct Hc as (H1 & H2 & H3 & H4 & H5 & H6 & H7). apply phase_change; rewrite ?E; try done.
  assert (Hn : forall r, r ∈ List.map (pair n) (default [] (delta (index s) !! n)) <-> r.1 = n /\ r ∈ rows s).
  { intros r. rewrite elem_pairs, delta_slice_rows. destruct r as [m e]. simpl. naive_solver. }
  unfold compaction_ok. simpl. split_and!; try done.
  - apply NoDup_app. split_and!; [done| |].
    + intros r Hr [Hrn _]%Hn. apply Hid. rewrite <- Hrn. by apply H6.
    + destruct (delta (index s) !! n) as [l|] eqn:El; [|constructor]. simpl.
      change (List.map (pair n) l) with (pair n <$> l). apply NoDup_fmap_2; [by intros x y ?; simplify_eq|].
      eapply delta_rows_node; [done|]. apply Hb.
  - intros r [Hr|Hr]%elem_of_app; [by apply H5|]. by apply Hn in Hr as [_ Hr].
  - intros r [Hr|Hr]%elem_of_app; [apply H6 in Hr; set_solver|]. apply Hn in Hr as [-> _]. set_solver.
  - intros r Hr Hl. destruct (H7 r Hr Hl) as [|Ht]; [left; apply elem_of_app; by left|].
    destruct (decide (r.1 = n)) as [Hrn|Hrn]; [left; apply elem_of_app; right; by apply Hn|right; set_solver].
Qed.

Lemma scan_tombstones_ok F s f lt s' :
  base F s -> compaction s = ScanTombstones f lt -> compact_step sort s = Some s' -> base F s' /\ others_ok F s F s'.
Proof.
  intros Hb E H. unfold compact_step in H. pose proof (b_compaction _ _ Hb) as Hc. unfold compaction_ok in Hc.
  rewrite E in H, Hc. simplify_eq. destruct Hc as (H1 & H2 & H3). apply phase_change; rewrite ?E; try done.
  unfold compaction_ok. simpl. split_and!; try done; [constructor|by intros r ?%not_elem_of_nil|by intros r ?%not_elem_of_nil|].
  intros r Hr _. right. apply elem_of_dom. unfold rows in Hr. apply elem_delta_rows in Hr as (l & Hl & _). by exists l.
Qed.

Lemma merged_build F lt ld s :
  NoDup F -> NoDup ld -> disjoint F s -> ld ⊆ rows s ->
  merged F lt ld (build sort (List.filter (alive lt) F ++ List.filter (alive lt) ld)).
Proof.
  intros HF Hl Hd Hsub. eexists. split_and!; [exact (build_rows sort _)|apply sort_sorted| |].
  - rewrite (sort_perm _). apply NoDup_app. split_and!; [by apply NoDup_bfilter| |by apply NoDup_bfilter].
    intros r [_ H1]%elem_bfilter [_ H2]%elem_bfilter. by apply (Hd r), Hsub.
  - intros r. rewrite (sort_perm _), elem_of_app, !elem_bfilter, !alive_true. tauto.
Qed.

Lemma scan_delta_ok F s f lt ld todo seen s' :
  base F s -> compaction s = ScanDelta f lt ld todo seen -> compact_step sort s = Some s' -> base F s' /\ others_ok F s F s'.
Proof.
  intros Hb E H. unfold compact_step in H. pose proof (b_compaction _ _ Hb) as Hc. unfold compaction_ok in Hc.
  rewrite E in H, Hc. destruct Hc as (H1 & H2 & H3 & H4 & H5 & H6 & H7). case_bool_decide as Ht; [|done]. subst todo.
  destruct (bool_decide (ld = []) && bool_decide (lt = ∅)); simplify_eq; [apply phase_change; by rewrite ?E|].
  rewrite (b_interrupted _ _ Hb), (merge_rows _ F) by apply Hb.
  rewrite (List.filter_ext _ _ (kept_alive lt ld)).
  destruct Hb as [? ? ? [HNF ?] ? ? ? ? ? [Hcd Hct] Hint _]. rewrite E in Hcd, Hct. split; [|by intros i rd _; apply env_quiet; auto].
  split; try done. unfold compaction_ok. simpl. split_and!; [done| |by apply (merged_build F lt ld s)].
  unfold scanned. split_and!; try done. intros r Hr Hl. destruct (H7 r Hr Hl); [done|set_solver].
Qed.

Lemma built_ok F s c lt ld s' :
  base F s -> compaction s = Built c lt ld -> compact_step sort s = Some s' -> base F s' /\ others_ok F s F s'.
Proof.
  intros Hb E H. unfold compact_step in H. pose proof (b_compaction _ _ Hb) as Hc. unfold compaction_ok in Hc.
  rewrite E in H, Hc. destruct Hc as (H1 & H2 & H3). destruct Hb as [? ? ? ? ? ? ? ? ? [Hcd Hct] Hint _]. rewrite E in Hcd, Hct.
  case_bool_decide as Hl; simplify_eq; (split; [|by intros i rd _; apply env_quiet; auto]); split; try done;
    unfold compaction_ok; simpl; split_and!; auto.
Qed.

Lemma opened_ok F s c lt ld s' :
  base F s -> compaction s = Opened c lt ld -> compact_step sort s = Some s' ->
  exists F', base F' s' /\ others_ok F s F' s'.
Proof.
  intros Hb E H. unfold compact_step in H. pose proof (b_compaction _ _ Hb) as Hc. unfold compaction_ok in Hc.
  rewrite E in H, Hc. simplify_eq. destruct Hc as (Hdis & (Hlt & HNl & Hls & Hlc) & (F' & Hcsr' & Hso' & HN' & HF') & Hw).
  destruct Hb as [Hk Hcsr Hso [HNF HF] [HND HD] Hli Hde [Hdt Hdr] Hdl [Hcd Hct] Hint _]. rewrite E in Hcd, Hct.
  assert (Hsub : F' ⊆ inserted s) by (intros r [[H|H] _]%HF'; [by apply HF|by apply HD, Hls]).
  exists F'. split.
  - split; try done.
    + intros r Hr Hn. destruct (Hli r Hr Hn) as [H|H]; [left; apply HF'|by right]. split; [by left|].
      intros Hl. by apply Hn, Hdt, Hlt.
    + intros r Hr Hd. destruct (Hde r Hr Hd) as [|[H1 H2]]; [by left|right]. split; [|done].
      intros [[H|H] _]%HF'; [done|]. by apply H2, Hls.
    + unfold compaction_ok. simpl. split; [|done]. unfold retiring. split_and!; try done.
      * by intros r [_ H]%HF'.
      * intros r Hr Hor. apply listed_per_node. exists r. split; [|done].
        destruct Hor as [[[H|H] _]%HF'|H]; [by apply Hdis in H|done|by apply Hlc].
      * intros r Hr (r' & Hr' & Hn & Hi)%listed_per_node. assert (r' = r) as ->.
        { apply (distinct_eq _ r' r Hk); [apply elem_of_app; right; by apply HD, Hls|apply elem_of_app; right; by apply HD|done]. }
        destruct (decide (row_id r ∈ lt)); [by right|left]. apply HF'. split; [by right|done].
      * intros r (r' & Hr' & _ & Hi)%listed_per_node. exists r'. split; [by apply HD, Hls|done].
      * destruct Hw as [->|Hw]; [right|by left]. intros r [[H|H] _]%HF'; [by apply Hdis|by apply not_elem_of_nil in H].
  - intros i rd _. split; try done; unfold version; simpl; try lia.
    + intros r Hr Hn. apply HF'. split; [by left|]. intros Hl. by apply Hn, Hdt, Hlt.
    + intros r Hr Hd [H1 H2]. split; [|done]. intros [[H|H] _]%HF'; [done|]. by apply H2, Hls.
Qed.

(** Changing the delta entry of a node no reader has pinned. *)
Lemma env_delta F s s' n rd i :
  readers s !! i = Some rd -> pinned s n = false ->
  inserted s' = inserted s -> deleted s' = deleted s -> frozen (index s') = frozen (index s) -> tombs s' = tombs s ->
  (forall r, r ∈ rows s' -> r ∈ rows s) ->
  (forall m, m <> n -> delta (index s') !! m = delta (index s) !! m) -> env F s F s' rd.
Proof.
  intros Hi Hp H1 H2 H3 H4 H5 H6. apply env_quiet; rewrite ?H1, ?H2, ?H4; try done.
  - intros r Hr. left. by apply H5.
  - intros Hpin. apply H6. intros Heq. rewrite (pinned_false _ _ _ _ Hp Hi Heq) in Hpin. by destruct Hpin.
Qed.

Lemma retain_ok F s v lt n ids todo k s' :
  base F s -> compaction s = Retain v lt ((n, ids) :: todo) k -> compact_step sort s = Some s' ->
  base F s' /\ others_ok F s F s'.
Proof.
  intros Hb E H. unfold compact_step in H. pose proof (b_compaction _ _ Hb) as Hc. unfold compaction_ok in Hc.
  rewrite E in H, Hc. destruct (pinned s n) eqn:Hp; [done|]. destruct Hc as ((H1 & H2 & H3 & H4 & H5 & H6 & H7) & Hk0).
  pose proof (retain_rows n ids (delta (index s))) as (Hrows & Hk & Hother).
  destruct (retain n ids (delta (index s))) as [d k'] eqn:Er. cbn [fst snd] in *. injection H as <-.
  assert (Hc' : exists c', c' = (if bool_decide (d !! n = Some []) then Remove v lt n todo (k + k') else Retain v lt todo (k + k')) /\
    (c' = Remove v lt n todo (k + k') \/ c' = Retain v lt todo (k + k'))) by (eexists; split; [done|]; case_bool_decide; tauto).
  destruct Hc' as (c' & <- & Hc').
  set (s' := set_index _ _). assert (Hrows' : rows s' ≡ₚ List.filter (unlisted n ids) (rows s)) by exact Hrows.
  assert (Hin : forall r, r ∈ rows s' <-> r ∈ rows s /\ ~ (r.1 = n /\ row_id r ∈ ids))
    by (intros r; rewrite Hrows', elem_bfilter, unlisted_true; tauto).
  destruct Hb as [Hkn Hcsr Hso HF [HND HD] Hli Hde [Hdt Hdr] Hdl [Hcd Hct] Hint _]. rewrite E in Hcd, Hct. cbn in Hcd, Hct.
  fold (rows s) in Hk.
  assert (Hlen : (length (rows s') <= length (rows s))%nat).
  { rewrite (Permutation_length Hrows'). clear. induction (rows s) as [|r l IH]; [done|]. simpl. case_goal; simpl; lia. }
  split.
  - split; try done.
    + rewrite Hrows'. split; [by apply NoDup_bfilter|]. intros r [_ Hr]%elem_bfilter. by apply HD.
    + intros r Hr Hn. destruct (Hli r Hr Hn) as [|Hrow]; [by left|]. rewrite Hin.
      destruct (decide (r.1 = n /\ row_id r ∈ ids)) as [Hl|]; [left|by right].
      destruct (H5 r Hrow) as [|Hlt]; [apply listed_cons; by left|done|]. exfalso. by apply Hn, Hdt, H2.
    + intros r Hr Hd. destruct (Hde r Hr Hd) as [|[Ha Hb]]; [by left|right]. split; [done|]. by intros [Hx _]%Hin.
    + assert (Hret : retired_delta c' = k + k') by (by destruct Hc' as [->| ->]).
      split; [|by destruct Hc' as [->| ->]].
      change (delta_edge_count (index s) = Z.of_nat (length (rows s')) + Z.of_nat (length (inserting s)) + retired_delta c').
      rewrite Hret.
      change (length (delta_rows d)) with (length (rows s')) in Hk. lia.
    + enough (retiring F s' v lt todo /\ 0 <= k + k') as Hok by (unfold compaction_ok; simpl; by destruct Hc' as [->| ->]).
      split; [|change (length (delta_rows d)) with (length (rows s')) in Hk; lia].
      unfold retiring. split_and!; try done.
      * intros r Hr%Hin Hor. destruct Hr as [Hr Hnl]. destruct (proj1 (listed_cons _ _ _ _) (H4 r Hr Hor)); [done|done].
      * intros r [Hr _]%Hin Hl. apply H5; [done|]. apply listed_cons. by right.
      * intros r Hl. apply H6, listed_cons. by right.
      * destruct H7 as [|Hd]; [by left|right]. intros r HrF [Hr _]%Hin. by apply (Hd r).
  - intros i rd Hi. apply (env_delta F s s' n rd i); try done. by intros r [Hr _]%Hin.
Qed.

Lemma races_remove_ok F s v lt n todo k s' :
  base F s -> compaction s = Remove v lt n todo k -> compact_step sort s = Some s' ->
  base F s' /\ others_ok F s F s'.
Proof.
  intros Hb E H. unfold compact_step in H. pose proof (b_compaction _ _ Hb) as Hc. unfold compaction_ok in Hc.
  rewrite E in H, Hc. destruct (pinned s n) eqn:Hp; [done|]. simplify_eq. destruct Hc as ((H1 & H2 & H3 & H4 & H5 & H6 & H7) & Hk0).
  pose proof (remove_rows n (delta (index s))) as [Hrows Hother].
  set (s' := set_index _ _). assert (Hrows' : rows s' ≡ₚ rows s) by exact Hrows.
  assert (Hin : forall r, r ∈ rows s' <-> r ∈ rows s) by (intros r; by rewrite Hrows').
  destruct Hb as [Hkn Hcsr Hso HF [HND HD] Hli Hde [Hdt Hdr] Hdl [Hcd Hct] Hint _]. rewrite E in Hcd, Hct.
  split.
  - split; try done.
    + by rewrite Hrows'.
    + intros r. rewrite Hin. apply Hli.
    + intros r. rewrite Hin. apply Hde.
    + by rewrite (Permutation_length Hrows').
    + unfold compaction_ok. simpl. split; [|done]. unfold retiring. split_and!; try done.
      * intros r. rewrite Hin. apply H4.
      * intros r. rewrite Hin. apply H5.
      * destruct H7 as [|Hd]; [by left|right]. intros r HrF. rewrite Hin. by apply Hd.
  - intros i rd Hi. apply (env_delta F s s' n rd i); try done. by intros r ?%Hin.
Qed.

Lemma late_steps_ok F s s' :
  base F s ->
  match compaction s with Retain _ _ [] _ | Close _ _ | Wait _ _ => True | _ => False end ->
  exec sort s CompactAdvance = Some s' \/ exec sort s CompactGiveUp = Some s' -> base F s' /\ others_ok F s F s'.
Proof.
  intros Hb Hph H. pose proof Hb as [Hkn Hcsr Hso HF HD Hli Hde [Hdt Hdr] Hdl [Hcd Hct] Hint Hc]. unfold compaction_ok in Hc.
  simpl in H. unfold compact_step in H.
  destruct (compaction s) as [| | | | |v lt [|] k| |v lt|v lt| |] eqn:E; try done.
  - destruct H as [H|H]; simplify_eq. destruct Hc as ((H1 & H2 & H3 & H4 & H5 & H6 & H7) & Hk0). cbn in Hcd, Hct.
    split; [|by intros i rd _; apply env_quiet; auto]. split; try done.
    + split; [|done]. change (saturating_sub (delta_edge_count (index s)) k = Z.of_nat (length (rows s)) + Z.of_nat (length (inserting s)) + 0).
      unfold saturating_sub. lia.
    + unfold compaction_ok. simpl. split; [done|]. unfold settled. split_and!; try done; [by etrans| |].
      * intros r [HrF|Hr] Hid; [by apply (H3 r)|]. destruct (H4 r Hr (or_intror Hid)) as (? & Hn & _). by apply not_elem_of_nil in Hn.
      * intros r HrF Hr. destruct (H4 r Hr (or_introl HrF)) as (? & Hn & _). by apply not_elem_of_nil in Hn.
  - destruct H as [H|H]; simplify_eq. split; [|by intros i rd _; apply env_quiet; auto]. by split.
  - destruct Hc as [H1 H2]. destruct H as [H|H]; [|simplify_eq; apply phase_change; rewrite ?E; try done; by destruct H2 as (_ & _ & _ & ?)].
    case_bool_decide; [simplify_eq; apply phase_change; rewrite ?E; try done; by destruct H2 as (_ & _ & _ & ?)|].
    destruct (held s v) eqn:Eh; simplify_eq. apply phase_change; rewrite ?E; try done. unfold compaction_ok. simpl. split_and!; [|apply NoDup_elements| |done].
    + exists v. split; [done|]. intros i rd Hi. by eapply held_false.
    + intros id Hid%elem_of_elements. split; [by apply H1|done].
Qed.

Lemma retire_tombstones_ok F s lt todo k s' :
  base F s -> compaction s = RetireTombstones lt todo k -> compact_step sort s = Some s' ->
  base F s' /\ others_ok F s F s'.
Proof.
  intros Hb E H. unfold compact_step in H. pose proof (b_compaction _ _ Hb) as Hc. unfold compaction_ok in Hc.
  rewrite E in H, Hc. destruct Hc as ((v & Hset & Hhold) & Hnd & Htodo & Hk0). pose proof Hset as (Hv & Hlt & Hno & Hdis).
  destruct Hb as [Hkn Hcsr Hso HF HD Hli Hde [Hdt Hdr] Hdl [Hcd Hct] Hint _]. rewrite E in Hcd, Hct. cbn in Hcd, Hct.
  destruct todo as [|id todo]; simplify_eq.
  - split; [|by intros i rd _; apply env_quiet; auto]. split; try done. split; [done|].
    change (saturating_sub (tombstone_count (index s)) k = Z.of_nat (size (tombs s)) + Z.of_nat (length (deleting s)) + 0).
    unfold saturating_sub. lia.
  - destruct (Htodo id ltac:(by left)) as [Hid1 Hid2]. apply NoDup_cons in Hnd as [Hni Hnd].
    rewrite (bool_decide_eq_true_2 (id ∈ tombstones (index s))) by exact Hid1.
    assert (Hsz : size (tombs s) = S (size (tombs s ∖ {[id]}))).
    { rewrite (union_difference_singleton_L id (tombs s) Hid1) at 1. rewrite size_union, size_singleton by set_solver. lia. }
    split.
    + split; try done.
      * intros r Hr Hd. destruct (Hde r Hr Hd) as [Ht|]; [|by right]. destruct (decide (row_id r = id)) as [Heq|Hne].
        -- right. split; intros Hx; (apply (Hno r); [|by rewrite Heq]); [by left|by right].
        -- left. unfold tombs in *. cbn. set_solver.
      * split; [|done]. unfold tombs in *. cbn. set_solver.
      * split; [done|]. change (tombstone_count (index s) = Z.of_nat (size (tombs s ∖ {[id]})) + Z.of_nat (length (deleting s)) + (k + 1)). lia.
      * unfold compaction_ok. simpl. split_and!; [exists v; exact (conj Hset Hhold)|done| |lia]. intros j Hj.
        destruct (Htodo j ltac:(by right)) as [Hj1 Hj2]. split; [|done]. unfold tombs in *. cbn.
        apply elem_of_difference. split; [done|]. by intros ->%elem_of_singleton.
    + intros i rd Hi. split; try done. intros j Hj1 Hj2. unfold tombs in *. cbn in Hj2.
      assert (j = id) as -> by (destruct (decide (j = id)); [done|set_solver]). split_and!; [done| |].
      * intros r Hr <-. by apply (Hno r).
      * exists v. split; [done|]. by eapply Hhold.
Qed.

(** *** All steps *)
Lemma reader_change F s i rd :
  base F s -> (forall v, version s = S v -> holds (phase rd) <> Some v) -> base F (set_reader i rd s).
Proof.
  intros [? ? ? ? ? ? ? ? ? ? ? Hc] Hh. split; try done. unfold compaction_ok in *. simpl.
  destruct (compaction s) eqn:E; try done. destruct Hc as ((v & Hs & Hold) & Hrest). split; [|done].
  exists v. split; [done|]. intros j rd' [[<- <-]|[_ Hj]]%(lookup_insert_Some (readers s)); [|by eapply Hold].
  apply Hh, Hs.
Qed.

Lemma read_begin_inv s i n s' : inv s -> exec sort s (ReadBegin i n) = Some s' -> inv s'.
Proof.
  intros (F & Hb & Hr) H. simpl in H. destruct (readers s !! i) eqn:E; [done|]. simplify_eq. exists F. split.
  - apply reader_change; done.
  - intros j rd [[<- <-]|[_ Hj]]%(lookup_insert_Some (readers s)); [|by apply Hr in Hj as []; split].
    split; try done. split; [done|]. intros id Hid. apply Hb, Hid.
Qed.

Lemma read_holds s n p p' :
  read_step (index s) n p = Some p' -> forall v, holds p' = Some v -> holds p = Some v \/ v = version s.
Proof.
  assert (Hst : forall g v, holds (start_iterating g) = Some v -> v = (g_frozen g).1).
  { intros g v. unfold start_iterating. destruct (candidates g); simpl; intros; by simplify_eq. }
  destruct p as [|de|de te|te d|te d f|g todo out|out|]; simpl; intros H v Hv.
  - by simplify_eq.
  - by simplify_eq.
  - destruct de, te; simplify_eq; try done. right. by apply Hst in Hv.
  - simplify_eq. simpl in Hv. simplify_eq. by right.
  - simplify_eq. apply Hst in Hv. left. by rewrite Hv.
  - destruct todo; simplify_eq; simpl in *; try done. by left.
  - done.
  - done.
Qed.

Lemma read_next_inv s i s' : inv s -> exec sort s (ReadNext i) = Some s' -> inv s'.
Proof.
  intros (F & Hb & Hr) H. simpl in H. destruct (readers s !! i) as [rd|] eqn:E; [|done].
  destruct (read_step (index s) (reads rd) (phase rd)) as [p|] eqn:Ep; simpl in H; [|done]. simplify_eq.
  pose proof (read_step_ok F s rd p Hb (Hr _ _ E) Ep) as Hok. exists F. split.
  - destruct Hb as [? ? ? ? ? ? ? ? ? ? ? Hc]. split; try done. unfold compaction_ok in *. simpl.
    destruct (compaction s) eqn:Ec; try done. destruct Hc as ((v & Hs & Hold) & Hrest). split; [|done].
    exists v. split; [done|]. intros j rd' [[<- <-]|[_ Hj]]%(lookup_insert_Some (readers s)); [|by eapply Hold].
    simpl. intros Hv. destruct (read_holds _ _ _ _ Ep v Hv) as [Hh|Hh]; [by eapply Hold|].
    destruct Hs as [Hs _]. lia.
  - intros j rd' [[<- <-]|[_ Hj]]%(lookup_insert_Some (readers s)); [by destruct Hok; split|by apply Hr in Hj as []; split].
Qed.

Lemma compact_advance_ok F s s' :
  base F s -> exec sort s CompactAdvance = Some s' -> exists F', base F' s' /\ others_ok F s F' s'.
Proof.
  intros Hb H. simpl in H.
  destruct (compaction s) as [|f lt|f lt ld todo seen|c lt ld|c lt ld|v lt todo k|v lt n todo k|v lt|v lt|lt todo k|] eqn:E.
  - unfold compact_step in H. by rewrite E in H.
  - exists F. by eapply scan_tombstones_ok.
  - exists F. by eapply scan_delta_ok.
  - exists F. by eapply built_ok.
  - by eapply opened_ok.
  - destruct todo as [|[n ids] todo]; exists F; [|by eapply retain_ok].
    apply late_steps_ok; [done|by rewrite E|by left].
  - exists F. by eapply races_remove_ok.
  - exists F. apply late_steps_ok; [done|by rewrite E|by left].
  - exists F. apply late_steps_ok; [done|by rewrite E|by left].
  - exists F. by eapply retire_tombstones_ok.
  - unfold compact_step in H. by rewrite E in H.
Qed.

Lemma compact_readers s s' : compact_step sort s = Some s' -> readers s' = readers s.
Proof. unfold compact_step. intros H. repeat case_hyp H; by simplify_eq. Qed.

Lemma exec_inv s a s' : inv s -> exec sort s a = Some s' -> inv s'.
Proof.
  intros Hinv H. destruct a as [n e|n e|id|id| |id|n| | |i n|i];
    [..|by eapply read_begin_inv|by eapply read_next_inv]; destruct Hinv as (F & Hb & Hr).
  - destruct (insert_count_ok _ _ _ _ _ Hb H). simpl in H. case_bool_decide; simplify_eq. by eapply races_inv_step.
  - destruct (insert_push_ok _ _ _ _ _ Hb H). simpl in H. case_hyp H; simplify_eq. by eapply races_inv_step.
  - destruct (delete_count_ok _ _ _ _ Hb H). simpl in H. case_hyp H; simplify_eq. by eapply races_inv_step.
  - destruct (delete_mark_ok _ _ _ _ Hb H). simpl in H. case_hyp H; simplify_eq. by eapply races_inv_step.
  - destruct (compact_start_ok _ _ _ Hb H). simpl in H. case_hyp H; simplify_eq. by eapply races_inv_step.
  - destruct (compact_tombstone_ok _ _ _ _ Hb H). simpl in H. repeat case_hyp H; simplify_eq. by eapply races_inv_step.
  - destruct (compact_delta_ok _ _ _ _ Hb H). simpl in H. repeat case_hyp H; simplify_eq. by eapply races_inv_step.
  - destruct (compact_advance_ok _ _ _ Hb H) as (F' & ? & ?). eapply races_inv_step; [done|by apply compact_readers|done..].
  - assert (Hp : base F s' /\ others_ok F s F s').
    { apply late_steps_ok; [done| |by right]. simpl in H. by destruct (compaction s). }
    destruct Hp. simpl in H. destruct (compaction s); simplify_eq. by eapply races_inv_step.
Qed.

Lemma races_init_inv : inv init.
Proof.
  exists []. split; [|by intros i rd ?].
  apply Build_base; try (by intros r ?%not_elem_of_nil); try done.
  all: try (by constructor); try (split; [by constructor|by intros ? ?%not_elem_of_nil]).
  exists [], 0. split_and!; [done|constructor|done].
Qed.

Lemma races_run_inv acts s s' : inv s -> run sort s acts = Some s' -> inv s'.
Proof.
  revert s. induction acts as [|a acts IH]; intros s Hi H; simpl in H; [by simplify_eq|].
  destruct (exec sort s a) as [s1|] eqn:E; [|done]. simpl in H. eapply IH; [by eapply exec_inv|done].
Qed.
End Steps.

Section ReadProperty.
Context (sort : list row -> list row) `{!RowSort sort}.

(** C18: Whatever the interleaving of writers, readers and compactions, a read of a node
    neither panics nor tears: it emits each edge at most once, only edges that were
    inserted at that node, every edge inserted before it began and not deleted by
    the time it is done, and no edge deleted before it began, as long as at most one
    new CSR was published since; the compaction itself never panics. *)
Theorem concurrent_reads acts s i rd :
  run sort init acts = Some s -> readers s !! i = Some rd ->
  phase rd <> ReaderPanicked /\ compaction s <> CompactionPanicked /\
  forall out, phase rd = Finished out ->
    NoDup out /\
    (forall e, e ∈ out -> (reads rd, e) ∈ inserted s) /\
    (forall e, (reads rd, e) ∈ inserted0 rd -> edge_id e ∉ deleted s -> e ∈ out) /\
    (((frozen (index s)).1 <= S (version0 rd))%nat -> forall e, e ∈ out -> edge_id e ∉ deleted0 rd).
Proof.
  intros Hrun Hi. destruct (races_run_inv sort _ _ _ races_init_inv Hrun) as (F & Hb & Hr).
  destruct (Hr _ _ Hi) as [_ _ _ Hp]. unfold phase_ok in Hp. split_and!.
  - intros E. by rewrite E in Hp.
  - intros E. pose proof (b_compaction _ _ Hb) as Hc. unfold compaction_ok in Hc. by rewrite E in Hc.
  - intros out E. rewrite E in Hp. destruct Hp as (H1 & H2 & H3 & H4). split_and!; [done|done| |].
    + intros e He Hd. apply H3. by split.
    + intros Hrec e He Hd. by apply (H4 e He Hd).
Qed.
End ReadProperty.
End Races.

Module RaceWitness.
Import Csr CsrFacts CsrWitness Incr Interleaved.

Definition e1 := mkEntry 2 10 0.
Definition e2 := mkEntry 3 11 0.
Definition e3 := mkEntry 4 12 0.
Definition insertion (n : NodeId) (e : AdjacencyEntry) : list Action := [InsertCount n e; InsertPush n e].
Definition deletion (id : EdgeId) : list Action := [DeleteCount id; DeleteMark id].

(** A whole compaction from the tombstone scan on: it merges the delta of [ns]. *)
Definition rest_of_compaction (ns : list NodeId) (retire : nat) : list Action :=
  [CompactAdvance] ++ List.map CompactDelta ns ++ repeat CompactAdvance (3 + 2 * length ns + 3 + retire)%nat.

(** A reader of node 1 runs across the publication of a new CSR: it pins the delta
    before, loads the CSR after, and so meets the edge in both layers. *)
Definition racing : list Action :=
  insertion 1 e1 ++ insertion 1 e2 ++ deletion 11 ++
  [ReadBegin 0 1; ReadNext 0; ReadNext 0; ReadNext 0; CompactStart; CompactTombstone 11; CompactAdvance; CompactDelta 1;
   CompactAdvance; CompactAdvance; CompactAdvance; ReadNext 0; ReadNext 0; ReadNext 0; ReadNext 0; ReadNext 0].
Definition racing_end : State := default init (run (merge_sort row_le) init racing).
Definition reader0 : Reader := default (mkReader 0 Begun [] ∅ 0) (readers racing_end !! 0%nat).

Lemma concurrent_reads_witness :
  phase reader0 = Finished [e1] /\ version0 reader0 = 0%nat /\
  (phase reader0 <> ReaderPanicked /\ compaction racing_end <> CompactionPanicked /\
   forall out, phase reader0 = Finished out ->
    NoDup out /\
    (forall e, e ∈ out -> (reads reader0, e) ∈ inserted racing_end) /\
    (forall e, (reads reader0, e) ∈ inserted0 reader0 -> edge_id e ∉ deleted racing_end -> e ∈ out) /\
    (((frozen (index racing_end)).1 <= S (version0 reader0))%nat -> forall e, e ∈ out -> edge_id e ∉ deleted0 reader0)).
Proof.
  assert (Hrun : run (merge_sort row_le) init racing = Some racing_end) by (vm_compute; reflexivity).
  assert (Hrd : readers racing_end !! 0%nat = Some reader0) by (vm_compute; reflexivity).
  split; [vm_compute; reflexivity|]. split; [vm_compute; reflexivity|].
  exact (concurrent_reads (merge_sort row_le) racing racing_end 0%nat reader0 Hrun Hrd).
Defined.

(** Edge 10 is frozen; a compaction has scanned the (empty) tombstones when the edge
    is deleted; a reader starts and loads the CSR that still holds it; that
    compaction and a second one publish; the second retires the tombstone, because
    nobody holds the CSR it replaced itself; then the reader iterates. *)
Definition stale : list Action :=
  insertion 1 e1 ++ [CompactStart] ++ rest_of_compaction [1] 0 ++ insertion 5 e3 ++
  [CompactStart; CompactAdvance] ++ deletion 10 ++
  [ReadBegin 0 1; ReadNext 0; ReadNext 0; ReadNext 0; ReadNext 0; ReadNext 0] ++
  [CompactDelta 5] ++ repeat CompactAdvance 8 ++
  [CompactStart; CompactTombstone 10] ++ rest_of_compaction [] 2 ++ [ReadNext 0; ReadNext 0].

(** A read that began after the deletion of an edge was complete returns the edge:
    a tombstone is retired once nobody holds the CSR that was replaced last, although
    a reader may still hold an older one. *)
Theorem stale_read_resurrects :
  exists s rd, run (merge_sort row_le) init stale = Some s /\ readers s !! 0%nat = Some rd /\
    10 ∈ deleted0 rd /\ phase rd = Finished [e1] /\ (frozen (index s)).1 = S (S (version0 rd)).
Proof.
  set (s := default init (run (merge_sort row_le) init stale)).
  set (rd := default (mkReader 0 Begun [] ∅ 0) (readers s !! 0%nat)).
  exists s, rd. split_and!; vm_compute; reflexivity.
Qed.
End RaceWitness.
