(* ===== verification/CurrentIndex.v ===== *)
(** * The current graph: [src/core/graph.rs], [src/index/current.rs]

    Nodes and edges as stored, and the indexes of the live graph: the maps by id, the
    headers, both directions of the adjacency, the namespace memberships and the
    property index.  The process-wide interner of namespaces is a field here. *)

From S2P Require Import Prelude.
From S2P Require Import Bytes.
From S2P Require Import Errors.
From S2P Require Import Ids.
From S2P Require Import Interning.
From S2P Require Import Property.
From S2P Require Import PropMap.
From S2P Require Import Namespaces.
From S2P Require Import Csr.
From S2P Require Import Adjacency.

Module Graph.
Record VersionMetadata := mkMeta { created_by_tx : TxId; commit_timestamp : option HybridTimestamp }.
#[global] Instance VersionMetadata_eq_dec : EqDecision VersionMetadata.
Proof. solve_decision. Defined.
Definition meta_new (tx : TxId) (t : HybridTimestamp) : VersionMetadata := mkMeta tx (Some t).
Definition uncommitted (tx : TxId) : VersionMetadata := mkMeta tx None.
Definition default_for_existing : VersionMetadata := mkMeta 0 (Some (mkTs 0 0)).

Record Node := mkNode {
  n_id : NodeId;
  n_label : Z;
  n_properties : PropMap.PropertyMap;
  n_current_version : VersionId;
  n_metadata : VersionMetadata }.
Record Edge := mkEdge {
  e_id : EdgeId;
  e_label : Z;
  e_source : NodeId;
  e_target : NodeId;
  e_properties : PropMap.PropertyMap;
  e_current_version : VersionId;
  e_metadata : VersionMetadata }.
Definition node_new (id : NodeId) (label : Z) (properties : PropMap.PropertyMap) (v : VersionId) : Node :=
  mkNode id label properties v default_for_existing.
Definition edge_new (id : EdgeId) (label : Z) (source target : NodeId) (properties : PropMap.PropertyMap) (v : VersionId) : Edge :=
  mkEdge id label source target properties v default_for_existing.
Definition stamp_node (t : HybridTimestamp) (n : Node) : Node :=
  mkNode (n_id n) (n_label n) (n_properties n) (n_current_version n) (mkMeta (created_by_tx (n_metadata n)) (Some t)).
Definition stamp_edge (t : HybridTimestamp) (e : Edge) : Edge :=
  mkEdge (e_id e) (e_label e) (e_source e) (e_target e) (e_properties e) (e_current_version e)
    (mkMeta (created_by_tx (e_metadata e)) (Some t)).

Record NodeHeader := mkHeader { h_id : NodeId; h_label : Z }.
Definition header_of (n : Node) : NodeHeader := mkHeader (n_id n) (n_label n).
End Graph.

Module PropIndex.
(** [src/index/property_index.rs] *)
Inductive ValueKey :=
  | KBool (b : bool)
  | KInt (i : Z)
  | KStr (s : bytes).
#[global] Instance ValueKey_eq_dec : EqDecision ValueKey.
Proof. solve_decision. Defined.
#[global] Program Instance ValueKey_countable : Countable ValueKey :=
  inj_countable' (fun k => match k with KBool b => inl (inl b) | KInt i => inl (inr i) | KStr s => inr s end)
    (fun k : bool + Z + bytes => match k with inl (inl b) => KBool b | inl (inr i) => KInt i | inr s => KStr s end) _.
Next Obligation. by intros []. Qed.

Definition value_key (v : PropertyValue) : option ValueKey :=
  match v with
  | PBool b => Some (KBool b)
  | PInt i => Some (KInt i)
  | PString s => Some (KStr s)
  | _ => None
  end.
End PropIndex.

Module CurIdx.
Import Graph PropIndex.

Record CurrentIndexes := mkCur {
  nodes : gmap NodeId Node;
  node_headers : gmap NodeId NodeHeader;
  edges : gmap EdgeId Edge;
  outgoing : Incr.Index;
  incoming : Incr.Index;
  max_node_id : Z;
  ns_nodes : gmap Z (gset Z);
  ns_edges : gmap Z (gset Z);
  prop_index_enabled : gset (Z * Z);
  prop_index : gmap (Z * Z * ValueKey) (gset Z);
  ns_interner : Ns.NamespaceInterner }.

Definition new (i : Ns.NamespaceInterner) : CurrentIndexes := mkCur ∅ ∅ ∅ Incr.new Incr.new 0 ∅ ∅ ∅ ∅ i.

Section Setters.
Implicit Types x : CurrentIndexes.
Definition set_nodes m x := mkCur m (node_headers x) (edges x) (outgoing x) (incoming x) (max_node_id x) (ns_nodes x) (ns_edges x) (prop_index_enabled x) (prop_index x) (ns_interner x).
Definition set_headers m x := mkCur (nodes x) m (edges x) (outgoing x) (incoming x) (max_node_id x) (ns_nodes x) (ns_edges x) (prop_index_enabled x) (prop_index x) (ns_interner x).
Definition set_edges m x := mkCur (nodes x) (node_headers x) m (outgoing x) (incoming x) (max_node_id x) (ns_nodes x) (ns_edges x) (prop_index_enabled x) (prop_index x) (ns_interner x).
Definition set_adjacency o i x := mkCur (nodes x) (node_headers x) (edges x) o i (max_node_id x) (ns_nodes x) (ns_edges x) (prop_index_enabled x) (prop_index x) (ns_interner x).
Definition set_max n x := mkCur (nodes x) (node_headers x) (edges x) (outgoing x) (incoming x) n (ns_nodes x) (ns_edges x) (prop_index_enabled x) (prop_index x) (ns_interner x).
Definition set_ns_nodes m x := mkCur (nodes x) (node_headers x) (edges x) (outgoing x) (incoming x) (max_node_id x) m (ns_edges x) (prop_index_enabled x) (prop_index x) (ns_interner x).
Definition set_ns_edges m x := mkCur (nodes x) (node_headers x) (edges x) (outgoing x) (incoming x) (max_node_id x) (ns_nodes x) m (prop_index_enabled x) (prop_index x) (ns_interner x).
Definition set_enabled s x := mkCur (nodes x) (node_headers x) (edges x) (outgoing x) (incoming x) (max_node_id x) (ns_nodes x) (ns_edges x) s (prop_index x) (ns_interner x).
Definition set_prop_index m x := mkCur (nodes x) (node_headers x) (edges x) (outgoing x) (incoming x) (max_node_id x) (ns_nodes x) (ns_edges x) (prop_index_enabled x) m (ns_interner x).
Definition set_interner i x := mkCur (nodes x) (node_headers x) (edges x) (outgoing x) (incoming x) (max_node_id x) (ns_nodes x) (ns_edges x) (prop_index_enabled x) (prop_index x) i.
End Setters.

(** The set stored under a key; a missing entry is the empty set. *)
Definition members `{Countable K} (k : K) (m : gmap K (gset Z)) : gset Z := default ∅ (m !! k).
(** [map.entry(key).or_default().insert(id)] on a map of sets *)
Definition add_member `{Countable K} (k : K) (id : Z) (m : gmap K (gset Z)) : gmap K (gset Z) :=
  <[k := {[id]} ∪ default ∅ (m !! k)]> m.
(** [set.remove(&id)], then [remove_if] of the set when it is empty *)
Definition remove_member `{Countable K} (k : K) (id : Z) (m : gmap K (gset Z)) : gmap K (gset Z) :=
  match m !! k with
  | Some members => let members := members ∖ {[id]} in
                    if bool_decide (members = ∅) then delete k m else <[k := members]> m
  | None => m
  end.

(** The key of a property of a node, if it is of an indexed kind. *)
Definition key_of (p : PropMap.PropertyMap) (key : Z) : option ValueKey :=
  PropMap.get_by_interned_key p key ≫= value_key.

Definition prop_index_remove (k : Z * Z * ValueKey) (id : NodeId) (x : CurrentIndexes) : CurrentIndexes :=
  set_prop_index (remove_member k id (prop_index x)) x.
Definition prop_index_add (k : Z * Z * ValueKey) (id : NodeId) (x : CurrentIndexes) : CurrentIndexes :=
  set_prop_index (add_member k id (prop_index x)) x.

(** The body of the loop of [reindex_node_property]. *)
Definition reindex_pair (id : NodeId) (old_label : option Z) (old_props : option PropMap.PropertyMap) (new_label : Z)
    (new_props : PropMap.PropertyMap) (x : CurrentIndexes) (pair : Z * Z) : CurrentIndexes :=
  let '(lbl, key) := pair in
  let is_old := bool_decide (Some lbl = old_label) in
  let is_new := lbl =? new_label in
  let old_vk := old_props ≫= (fun p => key_of p key) in
  let new_vk := key_of new_props key in
  let remove x := match old_vk with Some ov => prop_index_remove (lbl, key, ov) id x | None => x end in
  let add x := match new_vk with Some nv => prop_index_add (lbl, key, nv) id x | None => x end in
  if negb is_old && negb is_new then x
  else if is_old && is_new then if bool_decide (old_vk = new_vk) then x else add (remove x)
  else if is_old then remove x
  else add x.
Definition reindex_node_property (id : NodeId) (old_label : option Z) (old_props : option PropMap.PropertyMap) (new_label : Z)
    (new_props : PropMap.PropertyMap) (x : CurrentIndexes) : CurrentIndexes :=
  foldl (reindex_pair id old_label old_props new_label new_props) x (elements (prop_index_enabled x)).

Section Writes.
Context {St : Type} `{Interner St}.
Variable st : St.

Definition insert_node (node : Node) (x : CurrentIndexes) : CurrentIndexes :=
  let header := header_of node in
  let x := set_max (Z.max (max_node_id x) ((n_id node + 1) mod 2 ^ 64)) x in
  let '(interner, ns_id) := Ns.intern_namespace (ns_interner x) (Ns.namespace_of st (n_properties node)) in
  let x := set_interner interner x in
  let reindex := if bool_decide (prop_index_enabled x = ∅) then None
                 else Some ((fun prior => (n_label prior, n_properties prior)) <$> nodes x !! n_id node) in
  let x := set_nodes (<[n_id node := node]> (nodes x)) x in
  let x := match reindex with
           | Some old => reindex_node_property (n_id node) (fst <$> old) (snd <$> old) (n_label node) (n_properties node) x
           | None => x
           end in
  let x := set_headers (<[n_id node := header]> (node_headers x)) x in
  set_ns_nodes (add_member ns_id (n_id node) (ns_nodes x)) x.

Definition insert_edge (edge : Edge) (x : CurrentIndexes) : CurrentIndexes :=
  match edges x !! e_id edge with
  | Some _ => set_edges (<[e_id edge := edge]> (edges x)) x
  | None =>
      let '(interner, ns_id) := Ns.intern_namespace (ns_interner x) (Ns.namespace_of st (e_properties edge)) in
      let x := set_interner interner x in
      let x := set_edges (<[e_id edge := edge]> (edges x)) x in
      let x := set_adjacency
                 (Incr.insert (e_source edge) (Csr.mkEntry (e_target edge) (e_id edge) (e_label edge)) (outgoing x))
                 (Incr.insert (e_target edge) (Csr.mkEntry (e_source edge) (e_id edge) (e_label edge)) (incoming x)) x in
      set_ns_edges (add_member ns_id (e_id edge) (ns_edges x)) x
  end.

Definition remove_node (id : NodeId) (x : CurrentIndexes) : CurrentIndexes * option Node :=
  match nodes x !! id with
  | None => (x, None)
  | Some node =>
      let x := set_nodes (delete id (nodes x)) x in
      let x := set_headers (delete id (node_headers x)) x in
      let '(interner, ns_id) := Ns.intern_namespace (ns_interner x) (Ns.namespace_of st (n_properties node)) in
      let x := set_interner interner x in
      let x := set_ns_nodes (remove_member ns_id id (ns_nodes x)) x in
      let x := foldl (fun x (pair : Z * Z) =>
                 if negb (pair.1 =? n_label node) then x
                 else match key_of (n_properties node) pair.2 with
                      | Some vk => prop_index_remove (pair.1, pair.2, vk) id x
                      | None => x
                      end) x (elements (prop_index_enabled x)) in
      (x, Some node)
  end.

Definition remove_edge (id : EdgeId) (x : CurrentIndexes) : CurrentIndexes * option Edge :=
  match edges x !! id with
  | None => (x, None)
  | Some edge =>
      let x := set_edges (delete id (edges x)) x in
      let x := set_adjacency (Incr.delete_edge id (outgoing x)) (Incr.delete_edge id (incoming x)) x in
      let '(interner, ns_id) := Ns.intern_namespace (ns_interner x) (Ns.namespace_of st (e_properties edge)) in
      let x := set_interner interner x in
      (set_ns_edges (remove_member ns_id id (ns_edges x)) x, Some edge)
  end.
End Writes.

(** [f] keeps the id of the entry it is given. *)
Definition with_node_mut (id : NodeId) (f : Node -> Node) (x : CurrentIndexes) : CurrentIndexes :=
  match nodes x !! id with
  | Some n => set_headers (<[id := header_of (f n)]> (node_headers x)) (set_nodes (<[id := f n]> (nodes x)) x)
  | None => x
  end.
Definition with_edge_mut (id : EdgeId) (f : Edge -> Edge) (x : CurrentIndexes) : CurrentIndexes :=
  match edges x !! id with
  | Some e => set_edges (<[id := f e]> (edges x)) x
  | None => x
  end.

(** ** Reads *)
Definition max_node_id_exclusive (x : CurrentIndexes) : Z := max_node_id x.
Definition get_node (id : NodeId) (x : CurrentIndexes) : option Node := nodes x !! id.
Definition get_edge (id : EdgeId) (x : CurrentIndexes) : option Edge := edges x !! id.
Definition with_node {R} (id : NodeId) (f : Node -> R) (x : CurrentIndexes) : option R := f <$> nodes x !! id.
Definition with_edge {R} (id : EdgeId) (f : Edge -> R) (x : CurrentIndexes) : option R := f <$> edges x !! id.
Definition get_node_label (id : NodeId) (x : CurrentIndexes) : option Z := n_label <$> nodes x !! id.
Definition check_node_label (id : NodeId) (expected : Z) (x : CurrentIndexes) : bool :=
  match nodes x !! id with Some n => n_label n =? expected | None => false end.
Definition get_edge_endpoints (id : EdgeId) (x : CurrentIndexes) : option (NodeId * NodeId) :=
  (fun e => (e_source e, e_target e)) <$> edges x !! id.
Definition get_edge_label (id : EdgeId) (x : CurrentIndexes) : option Z := e_label <$> edges x !! id.
Definition get_edge_source (id : EdgeId) (x : CurrentIndexes) : option NodeId := e_source <$> edges x !! id.
Definition get_edge_target (id : EdgeId) (x : CurrentIndexes) : option NodeId := e_target <$> edges x !! id.
Definition get_node_property_by_key (id : NodeId) (key : Z) (x : CurrentIndexes) : option PropertyValue :=
  nodes x !! id ≫= fun n => PropMap.get_by_interned_key (n_properties n) key.
Definition get_edge_property_by_key (id : EdgeId) (key : Z) (x : CurrentIndexes) : option PropertyValue :=
  edges x !! id ≫= fun e => PropMap.get_by_interned_key (e_properties e) key.
Definition get_node_header (id : NodeId) (x : CurrentIndexes) : option NodeHeader := node_headers x !! id.
Definition filter_nodes_by_label (label : Z) (x : CurrentIndexes) : list NodeId :=
  fst <$> filter (fun p : NodeId * NodeHeader => h_label p.2 = label) (map_to_list (node_headers x)).
Definition node_count (x : CurrentIndexes) : Z := Z.of_nat (size (nodes x)).
Definition edge_count (x : CurrentIndexes) : Z := Z.of_nat (size (edges x)).
Definition contains_node (id : NodeId) (x : CurrentIndexes) : bool := bool_decide (is_Some (nodes x !! id)).
Definition contains_edge (id : EdgeId) (x : CurrentIndexes) : bool := bool_decide (is_Some (edges x !! id)).
Definition iter_node_ids (x : CurrentIndexes) : list NodeId := (map_to_list (nodes x)).*1.
Definition iter_edge_ids (x : CurrentIndexes) : list EdgeId := (map_to_list (edges x)).*1.

(** ** Namespaces *)
Definition namespace_node_ids (ns : Ns.Namespace) (x : CurrentIndexes) : CurrentIndexes * list NodeId :=
  let '(i, id) := Ns.intern_namespace (ns_interner x) ns in (set_interner i x, elements (members id (ns_nodes x))).
Definition namespace_edge_ids (ns : Ns.Namespace) (x : CurrentIndexes) : CurrentIndexes * list EdgeId :=
  let '(i, id) := Ns.intern_namespace (ns_interner x) ns in (set_interner i x, elements (members id (ns_edges x))).
Definition node_in_namespace_id (id : NodeId) (ns_id : Z) (x : CurrentIndexes) : bool :=
  bool_decide (id ∈ members ns_id (ns_nodes x)).
Definition edge_in_namespace_id (id : EdgeId) (ns_id : Z) (x : CurrentIndexes) : bool :=
  bool_decide (id ∈ members ns_id (ns_edges x)).
Definition node_in_namespace (id : NodeId) (ns : Ns.Namespace) (x : CurrentIndexes) : CurrentIndexes * bool :=
  let '(i, ns_id) := Ns.intern_namespace (ns_interner x) ns in (set_interner i x, node_in_namespace_id id ns_id x).
Definition edge_in_namespace (id : EdgeId) (ns : Ns.Namespace) (x : CurrentIndexes) : CurrentIndexes * bool :=
  let '(i, ns_id) := Ns.intern_namespace (ns_interner x) ns in (set_interner i x, edge_in_namespace_id id ns_id x).
Definition namespace_node_count (ns : Ns.Namespace) (x : CurrentIndexes) : CurrentIndexes * Z :=
  let '(i, id) := Ns.intern_namespace (ns_interner x) ns in (set_interner i x, Z.of_nat (size (members id (ns_nodes x)))).
Definition namespace_edge_count (ns : Ns.Namespace) (x : CurrentIndexes) : CurrentIndexes * Z :=
  let '(i, id) := Ns.intern_namespace (ns_interner x) ns in (set_interner i x, Z.of_nat (size (members id (ns_edges x)))).
Definition populated_in (i : Ns.NamespaceInterner) (m : gmap Z (gset Z)) : gset Ns.Namespace :=
  list_to_set (omap (fun p : Z * gset Z => if bool_decide (p.2 = ∅) then None else Ns.resolve_namespace_id i p.1) (map_to_list m)).
Definition populated_namespaces (x : CurrentIndexes) : gset Ns.Namespace :=
  populated_in (ns_interner x) (ns_nodes x) ∪ populated_in (ns_interner x) (ns_edges x).

(** ** The property index *)
Definition drop_pair (label key : Z) (m : gmap (Z * Z * ValueKey) (gset Z)) : gmap (Z * Z * ValueKey) (gset Z) :=
  filter (fun p => ~ (p.1.1.1 = label /\ p.1.1.2 = key)) m.
Definition index_node (label key : Z) (m : gmap (Z * Z * ValueKey) (gset Z)) (p : NodeId * Node) :=
  if negb (n_label p.2 =? label) then m
  else match key_of (n_properties p.2) key with
       | Some vk => add_member (label, key, vk) (n_id p.2) m
       | None => m
       end.
Definition enable_property_index (label key : Z) (x : CurrentIndexes) : CurrentIndexes * bool :=
  if bool_decide ((label, key) ∈ prop_index_enabled x) then (x, false)
  else
    let m := foldl (index_node label key) (drop_pair label key (prop_index x)) (map_to_list (nodes x)) in
    (set_enabled ({[(label, key)]} ∪ prop_index_enabled x) (set_prop_index m x), true).
Definition disable_property_index (label key : Z) (x : CurrentIndexes) : CurrentIndexes * bool :=
  if bool_decide ((label, key) ∈ prop_index_enabled x)
  then (set_prop_index (drop_pair label key (prop_index x)) (set_enabled (prop_index_enabled x ∖ {[(label, key)]}) x), true)
  else (x, false).
Definition has_property_index (label key : Z) (x : CurrentIndexes) : bool := bool_decide ((label, key) ∈ prop_index_enabled x).
Definition property_index_pairs (x : CurrentIndexes) : list (Z * Z) := elements (prop_index_enabled x).
Definition find_nodes_by_property_indexed (label key : Z) (value : ValueKey) (x : CurrentIndexes) : list NodeId :=
  elements (members (label, key, value) (prop_index x)).

(** ** Adjacency *)
Definition adjacent (a : Incr.Index) (n : NodeId) : res unit (list Csr.AdjacencyEntry) :=
  Incr.iter (Incr.tombstones a) (Incr.get_adjacency a n).
Definition with_label (label : Z) (es : list Csr.AdjacencyEntry) : list Csr.AdjacencyEntry :=
  List.filter (fun e => Csr.label e =? label) es.
Definition get_outgoing (source : NodeId) (x : CurrentIndexes) := adjacent (outgoing x) source.
Definition get_incoming (target : NodeId) (x : CurrentIndexes) := adjacent (incoming x) target.
Definition get_outgoing_with_label (source : NodeId) (label : Z) (x : CurrentIndexes) :=
  es ← get_outgoing source x; Ok (with_label label es).
Definition get_incoming_with_label (target : NodeId) (label : Z) (x : CurrentIndexes) :=
  es ← get_incoming target x; Ok (with_label label es).
Definition out_degree (n : NodeId) (x : CurrentIndexes) : res unit Z := Incr.len (Incr.tombstones (outgoing x)) (Incr.get_adjacency (outgoing x) n).
Definition in_degree (n : NodeId) (x : CurrentIndexes) : res unit Z := Incr.len (Incr.tombstones (incoming x)) (Incr.get_adjacency (incoming x) n).
Definition frozen_outgoing_view (x : CurrentIndexes) := Incr.frozen_view (outgoing x).
Definition frozen_incoming_view (x : CurrentIndexes) := Incr.frozen_view (incoming x).

Section Compaction.
Variable sort : list Csr.row -> list Csr.row.
Definition compact_adjacency (exclusive : bool * bool) (x : CurrentIndexes) : res unit CurrentIndexes :=
  o ← Incr.compact_locked sort exclusive.1 (outgoing x);
  i ← Incr.compact_locked sort exclusive.2 (incoming x);
  Ok (set_adjacency o i x).
End Compaction.
End CurIdx.
