(* ===== verification/CurrentLaws.v ===== *)
(** * The indexes of the current graph agree with the graph

    Invariant of [CurrentIndex]: headers, namespace memberships, the property index
    and both adjacency directions are functions of the stored nodes and edges, and
    every operation keeps them so. *)

From S2P Require Import Prelude.
From S2P Require Import Bytes.
From S2P Require Import Errors.
From S2P Require Import Ids.
From S2P Require Import Interning.
From S2P Require Import Property.
From S2P Require Import PropMap.
From S2P Require Import Namespaces.
From S2P Require Import SliceOps.
From S2P Require Import Csr.
From S2P Require Import Adjacency.
From S2P Require Import Compaction.
From S2P Require Import CurrentIndex.

Section Members.
Import CurIdx.
Context `{Countable K}.
Implicit Types (m : gmap K (gset Z)) (k : K).

Definition no_empty m : Prop := forall k s, m !! k = Some s -> s <> ∅.

Lemma members_add m k id k' j :
  j ∈ members k' (add_member k id m) <-> (k' = k /\ j = id) \/ j ∈ members k' m.
Proof.
  unfold members, add_member. destruct (decide (k' = k)) as [->|Hne].
  - rewrite lookup_insert_eq. simpl. set_solver.
  - rewrite lookup_insert_ne by done. naive_solver.
Qed.
Lemma members_remove m k id k' j :
  j ∈ members k' (remove_member k id m) <-> ~ (k' = k /\ j = id) /\ j ∈ members k' m.
Proof.
  unfold members, remove_member. destruct (m !! k) as [s|] eqn:E.
  - case_bool_decide as He; (destruct (decide (k' = k)) as [->|Hne];
      [rewrite ?lookup_delete_eq, ?lookup_insert_eq, E|rewrite ?lookup_delete_ne, ?lookup_insert_ne by done]); simpl; set_solver.
  - split; [intros Hj|tauto]. split; [|done]. intros [-> ->]. rewrite E in Hj. simpl in Hj. set_solver.
Qed.
Lemma no_empty_add m k id : no_empty m -> no_empty (add_member k id m).
Proof. intros Hm k' s. unfold add_member. intros [[<- <-]|[? ?]]%lookup_insert_Some; [set_solver|by eapply Hm]. Qed.
Lemma no_empty_remove m k id : no_empty m -> no_empty (remove_member k id m).
Proof.
  intros Hm. unfold remove_member. destruct (m !! k) as [s|]; [|done]. case_bool_decide as He; intros k' s'.
  - intros [_ Hs]%lookup_delete_Some. by eapply Hm.
  - intros [[<- <-]|[? ?]]%lookup_insert_Some; [done|by eapply Hm].
Qed.
End Members.

(** ** Sweeping the enabled pairs of the property index *)
Section Sweep.
Import Graph PropIndex CurIdx.
Implicit Types (x : CurrentIndexes) (p : Z * Z).

(** What the property index holds. *)
Definition indexed x p vk j : Prop := j ∈ members (p, vk) (prop_index x).

Lemma set_prop_index_id x : x = set_prop_index (prop_index x) x.
Proof. by destruct x. Qed.

(** A step that only settles the entries of [id] under one pair. *)
Definition settles (id : NodeId) (want : Z * Z -> ValueKey -> Prop) (pre : CurrentIndexes -> Z * Z -> Prop)
    (f : CurrentIndexes -> Z * Z -> CurrentIndexes) : Prop :=
  forall x p, pre x p -> no_empty (prop_index x) ->
    (exists m, f x p = set_prop_index m x /\ no_empty m) /\
    forall q vk j, indexed (f x p) q vk j <-> (if decide (q = p /\ j = id) then want p vk else indexed x q vk j).

Lemma sweep id want pre f :
  settles id want pre f ->
  (forall x y p, (forall vk, indexed x p vk id <-> indexed y p vk id) -> pre x p -> pre y p) ->
  forall l x, NoDup l -> (forall p, p ∈ l -> pre x p) -> no_empty (prop_index x) ->
  (exists m, foldl f x l = set_prop_index m x /\ no_empty m) /\
  forall q vk j, indexed (foldl f x l) q vk j <-> (if decide (q ∈ l /\ j = id) then want q vk else indexed x q vk j).
Proof.
  intros Hf Hpre. induction l as [|p l IH]; intros x Hnd Hp Hne; cbn [foldl].
  - split; [exists (prop_index x); split; [apply set_prop_index_id|done]|]. intros q vk j. destruct (decide _) as [[[]%not_elem_of_nil _]|]; done.
  - apply NoDup_cons in Hnd as [Hpl Hnd]. destruct (Hf x p (Hp p ltac:(by left)) Hne) as ((m & Em & Hm) & Hi).
    assert (forall q, q ∈ l -> pre (f x p) q) as Hp'.
    { intros q Hq. apply (Hpre x); [|apply Hp; by right]. intros vk. rewrite Hi. destruct (decide _) as [[-> _]|]; done. }
    assert (no_empty (prop_index (f x p))) as Hne' by (by rewrite Em).
    destruct (IH (f x p) Hnd Hp' Hne') as ((m' & Em' & Hm') & Hi'). split.
    + exists m'. split; [|done]. by rewrite Em', Em.
    + intros q vk j. rewrite Hi'. case_decide; [|rewrite Hi]; repeat case_decide; rewrite ?elem_of_cons in *; naive_solver.
Qed.

(** The entry a node has under a pair. *)
Definition entry_of (label : Z) (props : PropMap.PropertyMap) p vk : Prop :=
  p.1 = label /\ key_of props p.2 = Some vk.
Definition had (old : option (Z * PropMap.PropertyMap)) p vk : Prop :=
  match old with Some (l, ps) => entry_of l ps p vk | None => False end.
Definition holds_old id old x p : Prop := forall vk, indexed x p vk id <-> had old p vk.

Lemma indexed_add x k id p vk j : indexed (prop_index_add k id x) p vk j <-> ((p, vk) = k /\ j = id) \/ indexed x p vk j.
Proof. apply members_add. Qed.
Lemma indexed_remove x k id p vk j : indexed (prop_index_remove k id x) p vk j <-> ~ ((p, vk) = k /\ j = id) /\ indexed x p vk j.
Proof. apply members_remove. Qed.

Lemma reindex_settles id old label props :
  settles id (entry_of label props) (holds_old id old) (reindex_pair id (fst <$> old) (snd <$> old) label props).
Proof.
  intros x [l k] Hold Hne. unfold reindex_pair. set (ov := (snd <$> old) ≫= _). remember (key_of props k) as nv eqn:Env. symmetry in Env.
  assert (Hhad : forall vk, indexed x (l, k) vk id <-> Some l = (fst <$> old) /\ ov = Some vk).
  { intros vk. rewrite (Hold vk). subst ov. destruct old as [[l0 p0]|]; simpl; [|naive_solver]. unfold entry_of. simpl. naive_solver. }
  clearbody ov.
  assert (Hrm : forall y, no_empty (prop_index y) -> exists m, (match ov with Some o => prop_index_remove (l, k, o) id y | None => y end) = set_prop_index m y /\ no_empty m).
  { intros y Hy. destruct ov; eexists; (split; [reflexivity || apply set_prop_index_id|]); [by apply no_empty_remove|done]. }
  assert (Had : forall y, no_empty (prop_index y) -> exists m, (match nv with Some o => prop_index_add (l, k, o) id y | None => y end) = set_prop_index m y /\ no_empty m).
  { intros y Hy. destruct nv; eexists; (split; [reflexivity || apply set_prop_index_id|]); [by apply no_empty_add|done]. }
  assert (Hself : exists m, x = set_prop_index m x /\ no_empty m) by (exists (prop_index x); split; [apply set_prop_index_id|done]).
  destruct (bool_decide (Some l = fst <$> old)) eqn:Eo; [apply bool_decide_eq_true in Eo|apply bool_decide_eq_false in Eo];
    (destruct (l =? label) eqn:En; [apply Z.eqb_eq in En|apply Z.eqb_neq in En]); simpl.
  - case_bool_decide as Eq.
    + split; [done|]. intros q vk j. destruct (decide _) as [[-> ->]|]; [|done]. rewrite Hhad, Eq. unfold entry_of. simpl. naive_solver.
    + destruct (Hrm x Hne) as (m1 & E1 & N1). destruct (Had (set_prop_index m1 x) N1) as (m2 & E2 & N2). split.
      { exists m2. split; [|done]. by rewrite E1, E2. }
      clear E1 E2 Had Hrm. intros q vk j. unfold entry_of.
      destruct (decide _) as [[-> ->]|Hn]; simpl; rewrite ?Env; destruct nv as [n|], ov as [o|];
        rewrite ?indexed_add, ?indexed_remove, ?Hhad; naive_solver.
  - split; [by apply Hrm|]. intros q vk j. unfold entry_of. destruct (decide _) as [[-> ->]|Hn]; simpl;
      destruct ov as [o|]; rewrite ?indexed_remove, ?Hhad; naive_solver.
  - split; [by apply Had|]. intros q vk j. unfold entry_of. destruct (decide _) as [[-> ->]|Hn]; simpl; rewrite ?Env;
      destruct nv as [n|]; rewrite ?indexed_add, ?Hhad; naive_solver.
  - split; [done|]. intros q vk j. unfold entry_of. simpl. destruct (decide _) as [[-> ->]|Hn]; [|done]. rewrite Hhad. naive_solver.
Qed.

Definition unindex_pair (id : NodeId) (node : Node) x p : CurrentIndexes :=
  if negb (p.1 =? n_label node) then x
  else match key_of (n_properties node) p.2 with Some vk => prop_index_remove (p.1, p.2, vk) id x | None => x end.
Lemma unindex_settles id node :
  settles id (fun _ _ => False) (holds_old id (Some (n_label node, n_properties node))) (unindex_pair id node).
Proof.
  intros x [l k] Hold Hne. unfold unindex_pair. simpl.
  assert (Hself : exists m, x = set_prop_index m x /\ no_empty m) by (exists (prop_index x); split; [apply set_prop_index_id|done]).
  assert (Hhad : forall vk, indexed x (l, k) vk id <-> l = n_label node /\ key_of (n_properties node) k = Some vk) by apply Hold.
  destruct (l =? n_label node) eqn:En; [apply Z.eqb_eq in En|apply Z.eqb_neq in En]; simpl.
  - destruct (key_of (n_properties node) k) as [o|] eqn:Ek.
    + split; [eexists; split; [reflexivity|by apply no_empty_remove]|].
      intros q vk j. destruct (decide _) as [[-> ->]|Hn]; rewrite indexed_remove, ?Hhad; naive_solver.
    + split; [done|]. intros q vk j. destruct (decide _) as [[-> ->]|Hn]; [|done]. rewrite Hhad. naive_solver.
  - split; [done|]. intros q vk j. destruct (decide _) as [[-> ->]|Hn]; [|done]. rewrite Hhad. naive_solver.
Qed.
End Sweep.

(** ** Memberships *)
Section Memberships.
Import CurIdx.
Context {A : Type} (ns_of : A -> Ns.Namespace).
Implicit Types (m : gmap Z A) (mem : gmap Z (gset Z)) (i : Ns.NamespaceInterner).

Record memberships m i mem : Prop := {
  ms_ne : no_empty mem;
  ms_known j a : m !! j = Some a -> is_Some (id_of i (ns_of a));
  ms_iff k j : j ∈ members k mem <-> exists a, m !! j = Some a /\ id_of i (ns_of a) = Some k }.

Lemma ms_grows m i i' mem : grows i i' -> memberships m i mem -> memberships m i' mem.
Proof.
  intros Hg [Hne Hk Hi]. assert (Hsame : forall j a, m !! j = Some a -> id_of i' (ns_of a) = id_of i (ns_of a)).
  { intros j a Ha. destruct (Hk j a Ha) as [k E]. rewrite E. by apply Hg. }
  split; [done|..].
  - intros j a Ha. rewrite (Hsame j a Ha). by eapply Hk.
  - intros k j. rewrite Hi. split; intros (a & Ha & E); exists a; (split; [done|]); specialize (Hsame j a Ha); congruence.
Qed.
Lemma ms_empty i : memberships ∅ i ∅.
Proof.
  split.
  - intros k s Hl. by rewrite lookup_empty in Hl.
  - intros j a Hl. by rewrite lookup_empty in Hl.
  - intros k j. unfold members. rewrite !lookup_empty. simpl. split; [by intros ?%not_elem_of_empty|by intros (? & ? & _)].
Qed.
Lemma ms_insert m i mem j a k :
  id_of i (ns_of a) = Some k -> (forall a0, m !! j = Some a0 -> ns_of a0 = ns_of a) ->
  memberships m i mem -> memberships (<[j := a]> m) i (add_member k j mem).
Proof.
  intros Hid Hold [Hne Hk Hi]. split; [by apply no_empty_add|..].
  - intros j' a' [[<- <-]|[_ Ha]]%lookup_insert_Some; [by rewrite Hid|by eapply Hk].
  - intros k' j'. rewrite members_add, Hi. destruct (decide (j' = j)) as [->|Hne'].
    + rewrite lookup_insert_eq. split; [intros [[-> _]|(a0 & Ha & E)]; exists a; (split; [done|])|].
      * done.
      * by rewrite <- (Hold a0 Ha).
      * intros (a' & [= <-] & E). left. split; [congruence|done].
    + rewrite lookup_insert_ne by done. naive_solver.
Qed.
Lemma ms_delete m i mem j a k :
  m !! j = Some a -> id_of i (ns_of a) = Some k -> memberships m i mem -> memberships (delete j m) i (remove_member k j mem).
Proof.
  intros Ha Hid [Hne Hk Hi]. split; [by apply no_empty_remove|..].
  - intros j' a' [_ Ha']%lookup_delete_Some. by eapply Hk.
  - intros k' j'. rewrite members_remove, Hi. destruct (decide (j' = j)) as [->|Hne'].
    + rewrite lookup_delete_eq. split; [|naive_solver]. intros [Hn (a' & Ha' & E)]. exfalso. apply Hn. split; [congruence|done].
    + rewrite lookup_delete_ne by done. naive_solver.
Qed.
Lemma ms_update m i mem j a a' : m !! j = Some a -> ns_of a' = ns_of a -> memberships m i mem -> memberships (<[j := a']> m) i mem.
Proof.
  intros Ha Hns [Hne Hk Hi]. split; [done|..].
  - intros j' b [[<- <-]|[_ Hb]]%lookup_insert_Some; [rewrite Hns; by eapply Hk|by eapply Hk].
  - intros k j'. rewrite Hi. destruct (decide (j' = j)) as [->|Hne']; [|by rewrite lookup_insert_ne].
    rewrite lookup_insert_eq. split; [intros (b & Hb & E)|intros (b & [= <-] & E)]; eexists; (split; [done|]); congruence.
Qed.

(** The members of the id of a namespace are the entities of that namespace. *)
Lemma ms_members m i mem ns k j :
  ns_wf i -> id_of i ns = Some k -> memberships m i mem ->
  j ∈ members k mem <-> exists a, m !! j = Some a /\ ns_of a = ns.
Proof.
  intros W Hid [_ _ Hi]. rewrite Hi. split; intros (a & Ha & E); exists a; (split; [done|]); [by eapply nw_inj|congruence].
Qed.
End Memberships.

(** ** One direction of the adjacency mirrors the edges *)
Section Mirror.
Import Csr CsrFacts Incr Graph CurIdx.
Context (sort : list row -> list row) `{!RowSort sort} (row_of : Edge -> row) (Hrow : forall e, row_id (row_of e) = e_id e).
Implicit Types (es : gmap EdgeId Edge) (ix : Index).

Definition keyed es : Prop := forall j e, es !! j = Some e -> e_id e = j.
Definition mirrors es (issued : gset EdgeId) ix : Prop :=
  interrupted_publish ix = false /\ exists a, represents ix a /\
    (forall r, r ∈ live a <-> exists e, es !! row_id r = Some e /\ r = row_of e) /\
    (forall id, id ∈ List.map row_id (known a) <-> id ∈ issued).

Lemma mirrors_new : mirrors ∅ ∅ Incr.new.
Proof.
  split; [done|]. exists (mkLive [] []). split; [apply (represents_new sort)|]. split; intros; simpl.
  - rewrite lookup_empty. split; [intros []%not_elem_of_nil|by intros (? & ? & _)].
  - split; [intros []%not_elem_of_nil|set_solver].
Qed.

Lemma mirrors_insert es issued ix e r :
  r = row_of e -> keyed es -> e_id e ∉ issued -> mirrors es issued ix ->
  mirrors (<[e_id e := e]> es) ({[e_id e]} ∪ issued) (insert r.1 r.2 ix).
Proof.
  intros -> Hk Hn [Hq (a & Hr & Hl & Hi)]. pose proof (Hrow e) as He. unfold row_id in He. split; [done|].
  assert (Hs : spec a (Insert (row_of e).1 (row_of e).2) = Some (mkLive ((row_of e) :: live a) ((row_of e) :: known a))).
  { unfold spec. rewrite He, bool_decide_eq_false_2 by (by rewrite Hi). by destruct (row_of e). }
  eexists. split; [by eapply insert_represents|]. simpl.
  assert (Hfresh : es !! e_id e = None).
  { destruct (es !! e_id e) as [e'|] eqn:E; [|done]. exfalso. apply Hn, Hi.
    destruct Hr as (F & Hlay & Hlive & _). assert (Hin : row_of e' ∈ live a) by (apply Hl; exists e'; rewrite Hrow, (Hk _ _ E); done).
    apply Hlive in Hin as [Hin _]. apply elem_ids. exists (row_of e').
    rewrite Hrow, (Hk _ _ E). split; [|done]. destruct Hlay as [_ _ [_ HF] [_ HD] _ _ _ _]. destruct Hin as [Hin|Hin]; [by apply HF|by apply HD]. }
  split.
  - intros r. rewrite elem_of_cons, Hl. split.
    + intros [->|(e' & He' & ->)].
      * exists e. by rewrite Hrow, lookup_insert_eq.
      * exists e'. split; [|done]. rewrite lookup_insert_ne; [done|]. intros E. rewrite <- E in He'. congruence.
    + intros (e' & [[E <-]|[_ He']]%lookup_insert_Some & ->); [by left|right; eauto].
  - intros id. rewrite elem_of_cons, Hi, Hrow. set_solver.
Qed.

Lemma mirrors_delete es issued ix id e :
  keyed es -> es !! id = Some e -> mirrors es issued ix -> mirrors (delete id es) issued (delete_edge id ix).
Proof.
  intros Hk He [Hq (a & Hr & Hl & Hi)]. split; [done|].
  assert (Hin : id ∈ List.map row_id (live a)).
  { apply elem_ids. exists (row_of e). rewrite Hl, !Hrow, (Hk _ _ He). eauto. }
  assert (Hs : spec a (Delete id) = Some (mkLive (List.filter (fun r => negb (row_id r =? id)) (live a)) (known a))).
  { unfold spec. by rewrite bool_decide_eq_true_2. }
  eexists. split; [by apply (delete_represents sort _ _ _ _ Hr Hs)|]. simpl. split; [|done].
  intros r. rewrite elem_bfilter, negb_true_iff, Z.eqb_neq, Hl. split.
  - intros [Hne (e' & He' & ->)]. exists e'. by rewrite lookup_delete_ne by congruence.
  - intros (e' & [Hne He']%lookup_delete_Some & ->). split; [congruence|eauto].
Qed.

Lemma mirrors_update es issued ix j e e' :
  es !! j = Some e -> row_of e' = row_of e -> mirrors es issued ix -> mirrors (<[j := e']> es) issued ix.
Proof.
  intros He Hrw [Hq (a & Hr & Hl & Hi)]. split; [done|]. exists a. split; [done|]. split; [|done].
  intros r. rewrite Hl. destruct (decide (row_id r = j)) as [->|Hne].
  - rewrite lookup_insert_eq, He. split; intros (x & [= <-] & ->); eexists; (split; [done|]); congruence.
  - by rewrite lookup_insert_ne.
Qed.

Lemma mirrors_compact es issued ix exclusive :
  mirrors es issued ix -> exists ix', compact_locked sort exclusive ix = Ok ix' /\ mirrors es issued ix'.
Proof.
  intros [Hq (a & Hr & Hl & Hi)]. destruct (compact_represents sort ix a exclusive Hr) as (ix' & Hc & Hr').
  exists ix'. split; [done|]. split; [|by exists a]. clear - Hc Hq. revert Hc. unfold compact_locked.
  destruct (_ && _); [by intros [= <-]|]. unfold publish_merged. destruct (merge _ _ _ _) as [rows| |]; simpl; try done.
  destruct (retire_delta _ _) as [d k]. intros E.
  destruct (negb _ && exclusive), (bool_decide (flatten _ = [])); injection E as <-; done.
Qed.

Lemma mirrors_read es issued ix n :
  mirrors es issued ix ->
  exists l, adjacent ix n = Ok l /\ NoDup l /\
    forall e', e' ∈ l <-> exists e, es !! edge_id e' = Some e /\ row_of e = (n, e').
Proof.
  intros [Hq (a & Hr & Hl & _)]. destruct (represents_read sort ix a n Hr) as (l & Hread & Hin & Hnd).
  exists l. split; [done|]. split; [by apply Hnd|]. intros e'. rewrite Hin, Hl. unfold row_id. simpl.
  split; intros (e & He & E); exists e; done.
Qed.
End Mirror.

(** ** The contract: a graph and what was ever inserted *)
Module GraphSpec.
Import Graph PropIndex CurIdx.

Record GraphState := mkGraph {
  g_nodes : gmap NodeId Node;
  g_edges : gmap EdgeId Edge;
  g_enabled : gset (Z * Z);
  g_issued : gset EdgeId }.
Definition empty : GraphState := mkGraph ∅ ∅ ∅ ∅.

Inductive op :=
  | InsertNode (n : Node)
  | InsertEdge (e : Edge)
  | RemoveNode (id : NodeId)
  | RemoveEdge (id : EdgeId)
  | StampNode (id : NodeId) (t : HybridTimestamp)
  | StampEdge (id : EdgeId) (t : HybridTimestamp)
  | EnableIndex (label key : Z)
  | DisableIndex (label key : Z)
  | Compact (exclusive : bool * bool).

Section Spec.
Context {St : Type} `{Interner St}.
Variables (st : St) (sort : list Csr.row -> list Csr.row).

Definition apply (o : op) (x : CurrentIndexes) : res unit CurrentIndexes :=
  match o with
  | InsertNode n => Ok (insert_node st n x)
  | InsertEdge e => Ok (insert_edge st e x)
  | RemoveNode id => Ok (remove_node st id x).1
  | RemoveEdge id => Ok (remove_edge st id x).1
  | StampNode id t => Ok (with_node_mut id (stamp_node t) x)
  | StampEdge id t => Ok (with_edge_mut id (stamp_edge t) x)
  | EnableIndex label key => Ok (enable_property_index label key x).1
  | DisableIndex label key => Ok (disable_property_index label key x).1
  | Compact exclusive => compact_adjacency sort exclusive x
  end.
Fixpoint run (os : list op) (x : CurrentIndexes) : res unit CurrentIndexes :=
  match os with [] => Ok x | o :: os => x ← apply o x; run os x end.

Definition node_ns (n : Node) : Ns.Namespace := Ns.namespace_of st (n_properties n).
Definition edge_ns (e : Edge) : Ns.Namespace := Ns.namespace_of st (e_properties e).
Definition ends (e : Edge) : NodeId * NodeId * Z := (e_source e, e_target e, e_label e).

(** What the writers of the store respect: ids are valid, a replacement keeps the
    namespace, and the ends and label of an edge; an edge id is not used again. *)
Definition admissible (g : GraphState) (o : op) : Prop :=
  match o with
  | InsertNode n => 0 <= n_id n <= MAX_VALID_ID /\ forall old, g_nodes g !! n_id n = Some old -> node_ns old = node_ns n
  | InsertEdge e => match g_edges g !! e_id e with
                    | Some old => edge_ns old = edge_ns e /\ ends old = ends e
                    | None => e_id e ∉ g_issued g
                    end
  | _ => True
  end.
Definition spec_step (g : GraphState) (o : op) : GraphState :=
  match o with
  | InsertNode n => mkGraph (<[n_id n := n]> (g_nodes g)) (g_edges g) (g_enabled g) (g_issued g)
  | InsertEdge e => mkGraph (g_nodes g) (<[e_id e := e]> (g_edges g)) (g_enabled g) ({[e_id e]} ∪ g_issued g)
  | RemoveNode id => mkGraph (delete id (g_nodes g)) (g_edges g) (g_enabled g) (g_issued g)
  | RemoveEdge id => mkGraph (g_nodes g) (delete id (g_edges g)) (g_enabled g) (g_issued g)
  | StampNode id t => mkGraph (alter (stamp_node t) id (g_nodes g)) (g_edges g) (g_enabled g) (g_issued g)
  | StampEdge id t => mkGraph (g_nodes g) (alter (stamp_edge t) id (g_edges g)) (g_enabled g) (g_issued g)
  | EnableIndex label key => mkGraph (g_nodes g) (g_edges g) ({[(label, key)]} ∪ g_enabled g) (g_issued g)
  | DisableIndex label key => mkGraph (g_nodes g) (g_edges g) (g_enabled g ∖ {[(label, key)]}) (g_issued g)
  | Compact _ => g
  end.
Fixpoint admissible_run (g : GraphState) (os : list op) : Prop :=
  match os with [] => True | o :: os => admissible g o /\ admissible_run (spec_step g o) os end.
Definition run_spec (g : GraphState) (os : list op) : GraphState := foldl spec_step g os.

Definition out_row (e : Edge) : Csr.row := (e_source e, Csr.mkEntry (e_target e) (e_id e) (e_label e)).
Definition in_row (e : Edge) : Csr.row := (e_target e, Csr.mkEntry (e_source e) (e_id e) (e_label e)).

Definition prop_exact (ns : gmap NodeId Node) (enabled : gset (Z * Z)) (x : CurrentIndexes) : Prop :=
  no_empty (prop_index x) /\
  forall p vk (j : NodeId), indexed x p vk j <-> p ∈ enabled /\ exists n, ns !! j = Some n /\ entry_of (n_label n) (n_properties n) p vk.

Record coherent (g : GraphState) (x : CurrentIndexes) : Prop := {
  co_nodes : nodes x = g_nodes g;
  co_edges : edges x = g_edges g;
  co_enabled : prop_index_enabled x = g_enabled g;
  co_nkey (j : NodeId) n : nodes x !! j = Some n -> n_id n = j;
  co_ekey : keyed (edges x);
  co_headers : node_headers x = header_of <$> nodes x;
  co_max (j : NodeId) n : nodes x !! j = Some n -> j < max_node_id x;
  co_wf : ns_wf (ns_interner x);
  co_ns : memberships node_ns (nodes x) (ns_interner x) (ns_nodes x);
  co_ens : memberships edge_ns (edges x) (ns_interner x) (ns_edges x);
  co_prop : prop_exact (nodes x) (prop_index_enabled x) x;
  co_out : mirrors out_row (edges x) (g_issued g) (outgoing x);
  co_in : mirrors in_row (edges x) (g_issued g) (incoming x) }.
End Spec.
End GraphSpec.

Section Preservation.
Import Graph PropIndex CurIdx GraphSpec.
Context {St : Type} `{Interner St} (st : St) (sort : list Csr.row -> list Csr.row) `{!Csr.RowSort sort}.
Implicit Types (x : CurrentIndexes) (g : GraphState).

Definition room x : Prop := Ns.next (ns_interner x) + 1 < 2 ^ 32.
(** What a step gives: a coherent state that interned at most one name. *)
Definition kept g' x x' : Prop :=
  coherent st g' x' /\ Ns.next (ns_interner x') <= Ns.next (ns_interner x) + 1.

Lemma entries_of_old ns enabled x (id : NodeId) p :
  prop_exact ns enabled x -> p ∈ enabled -> holds_old id ((fun n => (n_label n, n_properties n)) <$> ns !! id) x p.
Proof.
  intros [_ Hx] Hp vk. rewrite Hx. destruct (ns !! id) as [n|]; simpl; naive_solver.
Qed.
Lemma holds_old_ext id old x y p : (forall vk, indexed x p vk id <-> indexed y p vk id) -> holds_old id old x p -> holds_old id old y p.
Proof. intros E Ho vk. by rewrite <- E. Qed.

Lemma reindex_exact ns n y :
  prop_exact ns (prop_index_enabled y) y ->
  exists m,
    match (if bool_decide (prop_index_enabled y = ∅) then None else Some ((fun prior => (n_label prior, n_properties prior)) <$> ns !! n_id n)) with
    | Some old => reindex_node_property (n_id n) (fst <$> old) (snd <$> old) (n_label n) (n_properties n) y
    | None => y
    end = set_prop_index m y /\ prop_exact (<[n_id n := n]> ns) (prop_index_enabled y) (set_prop_index m y).
Proof.
  intros He. pose proof He as [Hne Hx]. case_bool_decide as Hen.
  - exists (prop_index y). split; [apply set_prop_index_id|]. split; [done|]. intros p vk j.
    change (indexed y p vk j <-> p ∈ prop_index_enabled y /\ exists n', <[n_id n := n]> ns !! j = Some n' /\ entry_of (n_label n') (n_properties n') p vk).
    rewrite Hx, Hen. set_solver.
  - unfold reindex_node_property.
    destruct (sweep (n_id n) _ _ _ (reindex_settles (n_id n) ((fun prior => (n_label prior, n_properties prior)) <$> ns !! n_id n) (n_label n) (n_properties n))
      (holds_old_ext _ _)
      (elements (prop_index_enabled y)) y (NoDup_elements _)) as ((m & Em & Hm) & Hi); [|done|].
    { intros p Hp%elem_of_elements. by apply (entries_of_old _ _ _ _ _ He). }
    exists m. split; [exact Em|]. split; [done|]. intros p vk j. rewrite <- Em, Hi.
    case_decide as Hd; rewrite elem_of_elements in Hd.
    + destruct Hd as [Hp ->]. rewrite lookup_insert_eq. naive_solver.
    + rewrite Hx. destruct (decide (j = n_id n)) as [->|Hj]; [|by rewrite lookup_insert_ne by done].
      split; [intros [Hp _]|intros [Hp _]]; by destruct Hd.
Qed.

Lemma unindex_exact ns n y id :
  ns !! id = Some n -> prop_exact ns (prop_index_enabled y) y ->
  exists m, foldl (unindex_pair id n) y (elements (prop_index_enabled y)) = set_prop_index m y /\
    prop_exact (delete id ns) (prop_index_enabled y) (set_prop_index m y).
Proof.
  intros Hn He. pose proof He as [Hne Hx].
  destruct (sweep id _ _ _ (unindex_settles id n) (holds_old_ext _ _)
      (elements (prop_index_enabled y)) y (NoDup_elements _)) as ((m & Em & Hm) & Hi); [|done|].
  { intros p Hp%elem_of_elements. pose proof (entries_of_old _ _ _ id p He Hp) as Ho. by rewrite Hn in Ho. }
  exists m. split; [exact Em|]. split; [done|]. intros p vk j. rewrite <- Em, Hi.
  case_decide as Hd; rewrite elem_of_elements in Hd.
  - destruct Hd as [Hp ->]. rewrite lookup_delete_eq. naive_solver.
  - rewrite Hx. destruct (decide (j = id)) as [->|Hj]; [|by rewrite lookup_delete_ne by done].
    split; [intros [Hp _]|intros [Hp _]]; by destruct Hd.
Qed.

Lemma insert_node_coherent g n x :
  coherent st g x -> room x -> admissible st g (InsertNode n) -> kept (spec_step g (InsertNode n)) x (insert_node st n x).
Proof.
  intros C Hroom [Hid Hns]. destruct C. unfold kept, insert_node, room in *.
  destruct (Ns.intern_namespace (ns_interner x) (Ns.namespace_of st (n_properties n))) as [i k] eqn:Ei. cbn [ns_interner set_max]. rewrite Ei.
  destruct (intern_ok _ _ _ _ co_wf0 Hroom Ei) as (W & Hg & Hk & Hnext).
  set (y := set_nodes (<[n_id n := n]> (nodes x)) (set_interner i (set_max (Z.max (max_node_id x) ((n_id n + 1) mod 2 ^ 64)) x))).
  destruct (reindex_exact (nodes x) n y) as (m & Em & Hp); [done|].
  match goal with |- context [match ?o with Some old => _ | None => ?b end] => set (z := match o with Some old => _ | None => b end) end.
  assert (z = set_prop_index m y) as -> by exact Em. clear Em. simpl. split; [|done]. split; simpl; try done.
  - by rewrite co_nodes0.
  - intros j n' [[<- <-]|[_ Hj]]%lookup_insert_Some; [done|by apply co_nkey0].
  - by rewrite co_headers0, fmap_insert.
  - intros j n' [[<- <-]|[_ Hj]]%lookup_insert_Some.
    + rewrite Z.mod_small by (unfold MAX_VALID_ID, u64_max in *; lia). lia.
    + apply co_max0 in Hj. lia.
  - apply ms_insert; [done| |by eapply ms_grows]. intros a0 Ha. apply Hns. by rewrite <- co_nodes0.
  - by eapply ms_grows.
Qed.

Lemma out_row_id e : row_id (out_row e) = e_id e. Proof. done. Qed.
Lemma in_row_id e : row_id (in_row e) = e_id e. Proof. done. Qed.

Lemma keyed_insert es e : keyed es -> keyed (<[e_id e := e]> es).
Proof. intros Hk j e' [[<- <-]|[_ Hj]]%lookup_insert_Some; [done|by apply Hk]. Qed.
Lemma keyed_delete es id : keyed es -> keyed (delete id es).
Proof. intros Hk j e' [_ Hj]%lookup_delete_Some. by apply Hk. Qed.

Lemma insert_edge_coherent g e x :
  coherent st g x -> room x -> admissible st g (InsertEdge e) -> kept (spec_step g (InsertEdge e)) x (insert_edge st e x).
Proof.
  intros C Hroom Ha. destruct C. unfold kept, insert_edge, room, admissible in *. rewrite <- co_edges0 in Ha.
  destruct (edges x !! e_id e) as [old|] eqn:Eo.
  - destruct Ha as [Hns Hends]. injection Hends as Hs Ht Hl.
    pose proof (co_ekey0 _ _ Eo) as Hid.
    assert (Hiss : g_issued g = {[e_id e]} ∪ g_issued g).
    { destruct co_out0 as (_ & a & Hr & Hlive & Hk). apply set_eq. intros id. rewrite elem_of_union, elem_of_singleton.
      split; [by right|]. intros [->|]; [|done]. apply Hk. destruct Hr as (F & [_ _ [_ HF] [_ HD] _ _ _ _] & Hli & _).
      assert (Hin : out_row old ∈ live a) by (apply Hlive; exists old; rewrite out_row_id, Hid; done).
      apply Hli in Hin as [Hin _]. apply elem_ids. exists (out_row old). rewrite out_row_id. split; [|done].
      destruct Hin as [Hin|Hin]; [by apply HF|by apply HD]. }
    split; [|simpl; lia]. split; simpl; try done; rewrite <- ?Hiss.
    + by rewrite co_edges0.
    + by apply keyed_insert.
    + by eapply ms_update.
    + apply (mirrors_update _ _ _ _ _ old); [done| |done]. unfold out_row. by rewrite Hs, Ht, Hl, Hid.
    + apply (mirrors_update _ _ _ _ _ old); [done| |done]. unfold in_row. by rewrite Hs, Ht, Hl, Hid.
  - destruct (Ns.intern_namespace (ns_interner x) (Ns.namespace_of st (e_properties e))) as [i k] eqn:Ei.
    destruct (intern_ok _ _ _ _ co_wf0 Hroom Ei) as (W & Hg & Hk & Hnext).
    split; [|done]. split; simpl; try done.
    + by rewrite co_edges0.
    + by apply keyed_insert.
    + by eapply ms_grows.
    + apply ms_insert; [done| |by eapply ms_grows]. intros a0 Ha0. pose proof (eq_trans (eq_sym Eo) Ha0). done.
    + by apply (mirrors_insert sort out_row out_row_id _ _ _ e (out_row e)).
    + by apply (mirrors_insert sort in_row in_row_id _ _ _ e (in_row e)).
Qed.

Lemma remove_node_coherent g id x :
  coherent st g x -> room x -> kept (spec_step g (RemoveNode id)) x (remove_node st id x).1.
Proof.
  intros C Hroom. pose proof C as C'. destruct C. unfold kept, remove_node, room in *.
  destruct (nodes x !! id) as [n|] eqn:En; cbn [fst].
  - destruct (Ns.intern_namespace _ _) as [i k] eqn:Ei. cbn [ns_interner set_headers set_nodes] in Ei.
    destruct (intern_ok _ _ _ _ co_wf0 Hroom Ei) as (W & Hg & Hk & Hnext).
    set (y := set_ns_nodes _ _). change (prop_index_enabled y) with (prop_index_enabled x).
    destruct (unindex_exact (nodes x) n y id En) as (m & Em & Hp); [done|].
    cbn [fst]. fold (unindex_pair id n). assert (foldl (unindex_pair id n) y (elements (prop_index_enabled x)) = set_prop_index m y) as -> by exact Em.
    simpl. split; [|done]. split; simpl; try done.
    + by rewrite co_nodes0.
    + intros j n' [_ Hj]%lookup_delete_Some. by apply co_nkey0.
    + by rewrite co_headers0, fmap_delete.
    + intros j n' [_ Hj]%lookup_delete_Some. by eapply co_max0.
    + eapply ms_delete; [done|done|by eapply ms_grows].
    + by eapply ms_grows.
  - split; [|lia]. destruct C'. split; simpl; try done. rewrite delete_id; [done|]. by rewrite <- co_nodes0.
Qed.

Lemma remove_edge_coherent g id x :
  coherent st g x -> room x -> kept (spec_step g (RemoveEdge id)) x (remove_edge st id x).1.
Proof.
  intros C Hroom. pose proof C as C'. destruct C. unfold kept, remove_edge, room in *.
  destruct (edges x !! id) as [e|] eqn:En; cbn [fst].
  - destruct (Ns.intern_namespace _ _) as [i k] eqn:Ei. cbn [ns_interner set_adjacency set_edges] in Ei.
    destruct (intern_ok _ _ _ _ co_wf0 Hroom Ei) as (W & Hg & Hk & Hnext).
    simpl. split; [|done]. split; simpl; try done.
    + by rewrite co_edges0.
    + by apply keyed_delete.
    + by eapply ms_grows.
    + eapply ms_delete; [done|done|by eapply ms_grows].
    + by eapply (mirrors_delete sort out_row out_row_id).
    + by eapply (mirrors_delete sort in_row in_row_id).
  - split; [|lia]. destruct C'. split; simpl; try done. rewrite delete_id; [done|]. by rewrite <- co_edges0.
Qed.

Lemma alter_insert_Some {A} (f : A -> A) (m : gmap Z A) j a : m !! j = Some a -> alter f j m = <[j := f a]> m.
Proof.
  intros Ha. apply map_eq. intros k. destruct (decide (k = j)) as [->|Hne].
  - by rewrite lookup_alter_eq, lookup_insert_eq, Ha.
  - by rewrite lookup_alter_ne, lookup_insert_ne.
Qed.
Lemma alter_none {A} (f : A -> A) (m : gmap Z A) j : m !! j = None -> alter f j m = m.
Proof.
  intros Ha. apply map_eq. intros k. destruct (decide (k = j)) as [->|Hne].
  - by rewrite lookup_alter_eq, Ha.
  - by rewrite lookup_alter_ne.
Qed.

Lemma stamp_node_coherent g id t x : coherent st g x -> kept (spec_step g (StampNode id t)) x (with_node_mut id (stamp_node t) x).
Proof.
  intros C. unfold kept, with_node_mut. destruct (nodes x !! id) as [n|] eqn:En; (split; [|simpl; lia]).
  - destruct C. pose proof (co_nkey0 _ _ En) as Hid. split; simpl; try done.
    + rewrite <- co_nodes0. by rewrite (alter_insert_Some _ _ _ _ En).
    + intros j n' [[<- <-]|[_ Hj]]%lookup_insert_Some; [done|by apply co_nkey0].
    + by rewrite co_headers0, fmap_insert.
    + intros j n' [[<- <-]|[_ Hj]]%lookup_insert_Some; by eapply co_max0.
    + by eapply ms_update.
    + destruct co_prop0 as [Hne Hx]. split; [done|]. intros p vk j.
      change (indexed x p vk j <-> p ∈ prop_index_enabled x /\ exists n', <[id := stamp_node t n]> (nodes x) !! j = Some n' /\ entry_of (n_label n') (n_properties n') p vk).
      rewrite Hx. destruct (decide (j = id)) as [->|Hj]; [|by rewrite lookup_insert_ne by done].
      rewrite lookup_insert_eq, En. naive_solver.
  - destruct C. split; simpl; try done. rewrite alter_none; [done|]. by rewrite <- co_nodes0.
Qed.

Lemma stamp_edge_coherent g id t x : coherent st g x -> kept (spec_step g (StampEdge id t)) x (with_edge_mut id (stamp_edge t) x).
Proof.
  intros C. unfold kept, with_edge_mut. destruct (edges x !! id) as [e|] eqn:En; (split; [|simpl; lia]).
  - destruct C. pose proof (co_ekey0 _ _ En) as Hid. split; simpl; try done.
    + rewrite <- co_edges0. by rewrite (alter_insert_Some _ _ _ _ En).
    + intros j e' [[<- <-]|[_ Hj]]%lookup_insert_Some; [done|by apply co_ekey0].
    + by eapply ms_update.
    + by apply (mirrors_update _ _ _ _ _ e).
    + by apply (mirrors_update _ _ _ _ _ e).
  - destruct C. split; simpl; try done. rewrite alter_none; [done|]. by rewrite <- co_edges0.
Qed.

Lemma members_drop (label key : Z) (m : gmap (Z * Z * ValueKey) (gset Z)) (p : Z * Z) vk (j : NodeId) :
  j ∈ members (p, vk) (drop_pair label key m) <-> p <> (label, key) /\ j ∈ members (p, vk) m.
Proof.
  unfold members, drop_pair. rewrite map_lookup_filter. destruct (m !! (p, vk)) as [s|]; simpl.
  - destruct p as [l k]. simpl. case_guard as Hg; simpl.
    + split; [|by intros [_ ?]]. intros Hj. split; [|done]. intros [= -> ->]. by apply Hg.
    + split; [by intros ?%not_elem_of_empty|]. intros [Hne _]. exfalso. destruct Hg as [-> ->]. done.
  - split; [by intros ?%not_elem_of_empty|by intros [_ ?%not_elem_of_empty]].
Qed.
Lemma no_empty_drop (label key : Z) (m : gmap (Z * Z * ValueKey) (gset Z)) : no_empty m -> no_empty (drop_pair label key m).
Proof. intros Hm k s [Hk _]%map_lookup_filter_Some. by eapply Hm. Qed.

Lemma index_nodes (label key : Z) (l : list (NodeId * Node)) : forall m,
  no_empty m -> (forall j n, (j, n) ∈ l -> n_id n = j) ->
  no_empty (foldl (index_node label key) m l) /\
  forall p vk (j : NodeId), j ∈ members (p, vk) (foldl (index_node label key) m l) <->
    j ∈ members (p, vk) m \/ (p = (label, key) /\ exists n, (j, n) ∈ l /\ entry_of (n_label n) (n_properties n) p vk).
Proof.
  induction l as [|[j0 n0] l IH]; intros m Hm Hl; cbn [foldl].
  - split; [done|]. intros p vk j. split; [by left|]. intros [?|(_ & n & []%not_elem_of_nil & _)]. done.
  - pose proof (Hl j0 n0 ltac:(by left)) as Hid. assert (forall j n, (j, n) ∈ l -> n_id n = j) as Hl' by (intros; apply Hl; by right).
    assert (Hstep : no_empty (index_node label key m (j0, n0)) /\ forall p vk j, j ∈ members (p, vk) (index_node label key m (j0, n0)) <->
      j ∈ members (p, vk) m \/ (p = (label, key) /\ j = j0 /\ entry_of (n_label n0) (n_properties n0) p vk)).
    { unfold index_node. simpl. destruct (n_label n0 =? label) eqn:El; [apply Z.eqb_eq in El|apply Z.eqb_neq in El]; simpl.
      - destruct (key_of (n_properties n0) key) as [k|] eqn:Ek.
        + split; [by apply no_empty_add|]. intros p vk j. rewrite members_add, Hid. unfold entry_of. naive_solver.
        + split; [done|]. intros p vk j. unfold entry_of. naive_solver.
      - split; [done|]. intros p vk j. unfold entry_of. naive_solver. }
    destruct Hstep as [Hm1 H1]. destruct (IH _ Hm1 Hl') as [Hm2 H2]. split; [done|].
    intros p vk j. rewrite H2, H1. setoid_rewrite elem_of_cons. naive_solver.
Qed.

Lemma enable_coherent g (label key : Z) x :
  coherent st g x -> kept (spec_step g (EnableIndex label key)) x (enable_property_index label key x).1.
Proof.
  intros C. unfold kept, enable_property_index. destruct C. case_bool_decide as Hin; simpl; (split; [|lia]).
  - split; simpl; try done. rewrite <- co_enabled0. set_solver.
  - destruct co_prop0 as [Hne Hx].
    destruct (index_nodes label key (map_to_list (nodes x)) (drop_pair label key (prop_index x))) as [Hm Hi].
    { by apply no_empty_drop. }
    { intros j n Hj%elem_of_map_to_list. by apply co_nkey0. }
    split; simpl; try done; [by rewrite co_enabled0|]. split; [exact Hm|]. intros p vk j. unfold indexed. simpl.
    rewrite Hi, members_drop. setoid_rewrite elem_of_map_to_list. rewrite elem_of_union, elem_of_singleton.
    pose proof (Hx p vk j) as Hxj. unfold indexed in Hxj. rewrite Hxj. split.
    + intros [(Hp & Hp' & n & Hn & E)|(-> & n & Hn & E)]; (split; [tauto|]); by exists n.
    + intros [[->|Hp] (n & Hn & E)]; [right; split; [done|]; by exists n|].
      destruct (decide (p = (label, key))) as [->|Hpn]; [right; split; [done|]; by exists n|left].
      split; [done|]. split; [done|]. by exists n.
Qed.

Lemma disable_coherent g (label key : Z) x :
  coherent st g x -> kept (spec_step g (DisableIndex label key)) x (disable_property_index label key x).1.
Proof.
  intros C. unfold kept, disable_property_index. destruct C. case_bool_decide as Hin; simpl; (split; [|lia]).
  - destruct co_prop0 as [Hne Hx]. split; simpl; try done; [by rewrite co_enabled0|].
    split; [by apply no_empty_drop|]. intros p vk j. unfold indexed. simpl.
    rewrite members_drop, elem_of_difference, elem_of_singleton. pose proof (Hx p vk j) as Hxj. unfold indexed in Hxj. rewrite Hxj. tauto.
  - split; simpl; try done. rewrite <- co_enabled0. set_solver.
Qed.

Lemma compact_coherent g exclusive x :
  coherent st g x -> exists x', compact_adjacency sort exclusive x = Ok x' /\ kept g x x'.
Proof.
  intros C. destruct C. unfold compact_adjacency.
  destruct (mirrors_compact sort out_row _ _ _ exclusive.1 co_out0) as (o & -> & Ho).
  destruct (mirrors_compact sort in_row _ _ _ exclusive.2 co_in0) as (i & -> & Hi). simpl.
  eexists. split; [done|]. split; [|simpl; lia]. by split.
Qed.

Lemma apply_coherent g o x :
  coherent st g x -> room x -> admissible st g o -> exists x', apply st sort o x = Ok x' /\ kept (spec_step g o) x x'.
Proof.
  intros C R A. destruct o; [..|by apply compact_coherent]; (eexists; split; [reflexivity|]).
  - by apply insert_node_coherent.
  - by apply insert_edge_coherent.
  - by apply remove_node_coherent.
  - by apply remove_edge_coherent.
  - by apply stamp_node_coherent.
  - by apply stamp_edge_coherent.
  - by apply enable_coherent.
  - by apply disable_coherent.
Qed.

Lemma run_coherent os : forall g x,
  coherent st g x -> Ns.next (ns_interner x) + Z.of_nat (length os) < 2 ^ 32 -> admissible_run st g os ->
  exists x', run st sort os x = Ok x' /\ coherent st (run_spec g os) x' /\
    Ns.next (ns_interner x') <= Ns.next (ns_interner x) + Z.of_nat (length os).
Proof.
  induction os as [|o os IH]; intros g x C Hr Ha; cbn [run run_spec foldl length admissible_run] in *.
  - exists x. split_and!; [done..|lia].
  - destruct Ha as [Ha Has]. destruct (apply_coherent g o x C) as (x1 & -> & C1 & N1); [unfold room; lia|done|]. simpl.
    destruct (IH _ x1 C1) as (x2 & E2 & C2 & N2); [lia|done|]. exists x2. split_and!; [done..|lia].
Qed.

Lemma new_coherent i : ns_wf i -> coherent st empty (new i).
Proof.
  intros W. split; simpl; try done; try (intros ? ? Hl; by rewrite lookup_empty in Hl).
  - by apply ms_empty.
  - by apply ms_empty.
  - split; [intros k s Hl; simpl in Hl; by rewrite lookup_empty in Hl|]. intros p vk j.
    unfold indexed, members. simpl. rewrite lookup_empty. simpl.
    split; [by intros ?%not_elem_of_empty|by intros [?%not_elem_of_empty _]].
  - by apply (mirrors_new sort).
  - by apply (mirrors_new sort).
Qed.
End Preservation.

(** ** Reads *)
Section Reads.
Import Graph PropIndex CurIdx GraphSpec.
Context {St : Type} `{Interner St} (st : St) (sort : list Csr.row -> list Csr.row) `{!Csr.RowSort sort}.
Implicit Types (x : CurrentIndexes) (g : GraphState).

Lemma label_read x g l :
  coherent st g x ->
  NoDup (filter_nodes_by_label l x) /\
  forall id, id ∈ filter_nodes_by_label l x <-> exists n, nodes x !! id = Some n /\ n_label n = l.
Proof.
  intros []. unfold filter_nodes_by_label. split.
  - apply (sublist_NoDup _ (fst <$> map_to_list (node_headers x))); [apply NoDup_fst_map_to_list|apply fmap_sublist, sublist_filter].
  - intros id. rewrite list_elem_of_fmap. setoid_rewrite list_elem_of_filter. rewrite co_headers0. split.
    + intros ([k h] & -> & Hl & Hk%elem_of_map_to_list). rewrite lookup_fmap in Hk. simpl in *.
      destruct (nodes x !! k) as [n|] eqn:En; simplify_eq/=. by exists n.
    + intros (n & Hn & Hl). exists (id, header_of n). split; [done|]. split; [done|].
      apply elem_of_map_to_list. rewrite lookup_fmap. pose proof (f_equal (fmap header_of) Hn) as E. exact E.
Qed.

Lemma namespace_read {A} (ns_of : A -> Ns.Namespace) (m : gmap Z A) i mem ns id :
  ns_wf i -> Ns.next i + 1 < 2 ^ 32 -> memberships ns_of m i mem ->
  bool_decide (id ∈ members (Ns.intern_namespace i ns).2 mem) = true <-> exists a, m !! id = Some a /\ ns_of a = ns.
Proof.
  intros W Hn Hm. destruct (Ns.intern_namespace i ns) as [i' k] eqn:E.
  destruct (intern_ok _ _ _ _ W Hn E) as (W' & Hg & Hk & _). simpl. rewrite bool_decide_eq_true.
  by apply (ms_members ns_of m i' mem ns k id W' Hk), (ms_grows _ _ i).
Qed.

Lemma property_read x g l k vk :
  coherent st g x -> has_property_index l k x = true ->
  NoDup (find_nodes_by_property_indexed l k vk x) /\
  forall id, id ∈ find_nodes_by_property_indexed l k vk x <->
    exists n, nodes x !! id = Some n /\ n_label n = l /\ key_of (n_properties n) k = Some vk.
Proof.
  intros [] Hi%bool_decide_eq_true. unfold find_nodes_by_property_indexed. split; [apply NoDup_elements|].
  intros id. rewrite elem_of_elements. destruct co_prop0 as [_ Hx]. pose proof (Hx (l, k) vk id) as Hj. unfold indexed in Hj.
  rewrite Hj. unfold entry_of. simpl. split; [intros (_ & n & ? & ? & ?)|intros (n & ? & ? & ?); split; [done|]]; by exists n.
Qed.

End Reads.
