(* ===== verification/CurrentStore.v ===== *)
(** * Current storage: [src/storage/current/mod.rs]

    The store of the live graph around its indexes: id generation, the writes of a
    commit, the reads.  No vector index is enabled.  Reads while a commit publishes
    are not interleaved here. *)

From S2P Require Import Prelude.
From S2P Require Import SliceOps.
From S2P Require Import Bytes.
From S2P Require Import Errors.
From S2P Require Import Ids.
From S2P Require Import Interning.
From S2P Require Import Property.
From S2P Require Import PropMap.
From S2P Require Import Namespaces.
From S2P Require Import Csr.
From S2P Require Import Adjacency.
From S2P Require Import Compaction.
From S2P Require Import CurrentIndex.
From S2P Require Import CurrentLaws.

Module CurStore.
Import Graph PropIndex.

Record CurrentStorage := mkStore {
  indexes : CurIdx.CurrentIndexes;
  node_id_gen : Id.IdGenerator;
  edge_id_gen : Id.IdGenerator;
  version_id_gen : Id.IdGenerator }.
Definition new (i : Ns.NamespaceInterner) : CurrentStorage := mkStore (CurIdx.new i) Id.gen_new Id.gen_new Id.gen_new.

Definition set_indexes ix (c : CurrentStorage) : CurrentStorage := mkStore ix (node_id_gen c) (edge_id_gen c) (version_id_gen c).
Definition set_node_gen g (c : CurrentStorage) : CurrentStorage := mkStore (indexes c) g (edge_id_gen c) (version_id_gen c).
Definition set_edge_gen g (c : CurrentStorage) : CurrentStorage := mkStore (indexes c) (node_id_gen c) g (version_id_gen c).
Definition set_version_gen g (c : CurrentStorage) : CurrentStorage := mkStore (indexes c) (node_id_gen c) (edge_id_gen c) g.

Definition init_node_id_generator (start : Z) (c : CurrentStorage) : CurrentStorage := set_node_gen (Id.reset_to (node_id_gen c) start) c.
Definition init_edge_id_generator (start : Z) (c : CurrentStorage) : CurrentStorage := set_edge_gen (Id.reset_to (edge_id_gen c) start) c.
Definition init_version_id_generator (start : Z) (c : CurrentStorage) : CurrentStorage := set_version_gen (Id.reset_to (version_id_gen c) start) c.
Definition ensure_version_id_generator_at_least (v : Z) (c : CurrentStorage) : CurrentStorage :=
  set_version_gen (Id.ensure_at_least (version_id_gen c) v) c.
Definition get_version_id_generator_current (c : CurrentStorage) : Z := Id.current (version_id_gen c).

Section Ops.
Context {St : Type} `{Interner St}.

(** The store and the process-wide interner of strings. *)
Definition next_node_id : SM (St * CurrentStorage) Error NodeId := fun '(st, c) =>
  let '(g, r) := Id.next (node_id_gen c) in ((st, set_node_gen g c), map_err EStorage r).
Definition next_edge_id : SM (St * CurrentStorage) Error EdgeId := fun '(st, c) =>
  let '(g, r) := Id.next (edge_id_gen c) in ((st, set_edge_gen g c), map_err EStorage r).
Definition next_version_id : SM (St * CurrentStorage) Error VersionId := fun '(st, c) =>
  let '(g, r) := Id.next (version_id_gen c) in ((st, set_version_gen g c), map_err EStorage r).
Definition intern_label (label : bytes) : SM (St * CurrentStorage) Error Z := fun '(st, c) =>
  let '(st, r) := i_intern st label in ((st, c), r).
Definition update_indexes (f : St -> CurIdx.CurrentIndexes -> CurIdx.CurrentIndexes) : SM (St * CurrentStorage) Error unit :=
  fun '(st, c) => ((st, set_indexes (f st (indexes c)) c), Ok tt).

Definition create_node (label : bytes) (properties : PropMap.PropertyMap) : SM (St * CurrentStorage) Error NodeId :=
  node_id ← next_node_id;
  version_id ← next_version_id;
  label_interned ← intern_label label;
  _ ← update_indexes (fun st => CurIdx.insert_node st (node_new node_id label_interned properties version_id));
  mret node_id.

Definition require_node (id : NodeId) : SM (St * CurrentStorage) Error unit := fun '(st, c) =>
  ((st, c), if CurIdx.contains_node id (indexes c) then Ok tt else Err (EStorage (NodeNotFound id))).
Definition create_edge (source target : NodeId) (label : bytes) (properties : PropMap.PropertyMap) :
    SM (St * CurrentStorage) Error EdgeId :=
  _ ← require_node source;
  _ ← require_node target;
  edge_id ← next_edge_id;
  version_id ← next_version_id;
  label_interned ← intern_label label;
  _ ← update_indexes (fun st => CurIdx.insert_edge st (edge_new edge_id label_interned source target properties version_id));
  mret edge_id.

Variable st : St.

Definition delete_node (id : NodeId) : SM CurrentStorage Error Node := fun c =>
  let '(ix, r) := CurIdx.remove_node st id (indexes c) in
  (set_indexes ix c, match r with Some n => Ok n | None => Err (EStorage (NodeNotFound id)) end).
Definition delete_edge (id : EdgeId) : SM CurrentStorage Error Edge := fun c =>
  let '(ix, r) := CurIdx.remove_edge st id (indexes c) in
  (set_indexes ix c, match r with Some e => Ok e | None => Err (EStorage (EdgeNotFound id)) end).

(** ** The writes of a commit *)
Definition insert_node_direct (node : Node) : SM CurrentStorage Error unit := fun c =>
  (set_indexes (CurIdx.insert_node st node (indexes c)) c, Ok tt).
Definition insert_edge_direct (edge : Edge) : SM CurrentStorage Error unit := fun c =>
  (set_indexes (CurIdx.insert_edge st edge (indexes c)) c, Ok tt).
Definition update_node_direct (node : Node) : SM CurrentStorage Error unit := fun c =>
  (set_indexes (CurIdx.insert_node st node (indexes c)) c, Ok tt).
Definition update_edge_direct (edge : Edge) : SM CurrentStorage Error unit := fun c =>
  (set_indexes (CurIdx.insert_edge st edge (indexes c)) c, Ok tt).
Definition delete_node_direct (id : NodeId) : SM CurrentStorage Error unit := _ ← delete_node id; mret tt.
Definition delete_edge_direct (id : EdgeId) : SM CurrentStorage Error unit := _ ← delete_edge id; mret tt.
End Ops.

Definition set_node_commit_timestamp (id : NodeId) (t : HybridTimestamp) (c : CurrentStorage) : CurrentStorage :=
  set_indexes (CurIdx.with_node_mut id (stamp_node t) (indexes c)) c.
Definition set_edge_commit_timestamp (id : EdgeId) (t : HybridTimestamp) (c : CurrentStorage) : CurrentStorage :=
  set_indexes (CurIdx.with_edge_mut id (stamp_edge t) (indexes c)) c.

(** ** Reads *)
Definition found {A} (e : StorageError) (o : option A) : res Error A := match o with Some a => Ok a | None => Err (EStorage e) end.
Definition get_node (id : NodeId) (c : CurrentStorage) : res Error Node := found (NodeNotFound id) (CurIdx.get_node id (indexes c)).
Definition with_node {R} (id : NodeId) (f : Node -> R) (c : CurrentStorage) : res Error R :=
  found (NodeNotFound id) (CurIdx.with_node id f (indexes c)).
Definition get_edge (id : EdgeId) (c : CurrentStorage) : res Error Edge := found (EdgeNotFound id) (CurIdx.get_edge id (indexes c)).
Definition get_edge_target (id : EdgeId) (c : CurrentStorage) : res Error NodeId := found (EdgeNotFound id) (CurIdx.get_edge_target id (indexes c)).
Definition get_edge_source (id : EdgeId) (c : CurrentStorage) : res Error NodeId := found (EdgeNotFound id) (CurIdx.get_edge_source id (indexes c)).
Definition get_edge_endpoints (id : EdgeId) (c : CurrentStorage) : res Error (NodeId * NodeId) :=
  found (EdgeNotFound id) (CurIdx.get_edge_endpoints id (indexes c)).
Definition get_edge_label (id : EdgeId) (c : CurrentStorage) : res Error Z := found (EdgeNotFound id) (CurIdx.get_edge_label id (indexes c)).
Definition get_node_label (id : NodeId) (c : CurrentStorage) : res Error Z := found (NodeNotFound id) (CurIdx.get_node_label id (indexes c)).
Definition node_has_label (node_id label_id : Z) (c : CurrentStorage) : bool :=
  match Id.new_node node_id with
  | Ok id => match CurIdx.get_node_header id (indexes c) with Some h => h_label h =? label_id | None => false end
  | _ => false
  end.
Definition contains_node (node_id : Z) (c : CurrentStorage) : bool :=
  match Id.new_node node_id with
  | Ok id => bool_decide (is_Some (CurIdx.get_node_header id (indexes c)))
  | _ => false
  end.
Definition get_max_node_id (c : CurrentStorage) : Z := CurIdx.max_node_id_exclusive (indexes c).
Definition node_count (c : CurrentStorage) : Z := CurIdx.node_count (indexes c).
Definition edge_count (c : CurrentStorage) : Z := CurIdx.edge_count (indexes c).

(** The ids of the entries, through the frozen view when it is offered. *)
Definition edges_through (view : option (nat * Csr.AdjacencyIndex)) (n : NodeId) (merged : res unit (list Csr.AdjacencyEntry)) :
    res unit (list EdgeId) :=
  match view with
  | Some frozen => es ← Csr.get_adjacency frozen.2 n; Ok (List.map Csr.edge_id es)
  | None => es ← merged; Ok (List.map Csr.edge_id es)
  end.
Definition get_outgoing_edges (source : NodeId) (c : CurrentStorage) : res unit (list EdgeId) :=
  edges_through (CurIdx.frozen_outgoing_view (indexes c)) source (CurIdx.get_outgoing source (indexes c)).
Definition get_incoming_edges (target : NodeId) (c : CurrentStorage) : res unit (list EdgeId) :=
  edges_through (CurIdx.frozen_incoming_view (indexes c)) target (CurIdx.get_incoming target (indexes c)).
Definition out_degree (n : NodeId) (c : CurrentStorage) : res unit Z := CurIdx.out_degree n (indexes c).
Definition in_degree (n : NodeId) (c : CurrentStorage) : res unit Z := CurIdx.in_degree n (indexes c).
Definition get_outgoing_targets (source : NodeId) (c : CurrentStorage) : res unit (list NodeId) :=
  es ← CurIdx.get_outgoing source (indexes c); Ok (List.map Csr.target es).
Definition get_incoming_sources (target : NodeId) (c : CurrentStorage) : res unit (list NodeId) :=
  es ← CurIdx.get_incoming target (indexes c); Ok (List.map Csr.target es).

Section Labelled.
Context {St : Type} `{Interner St}.
Variable st : St.
(** A label that was never interned has no edges. *)
Definition labelled {A} (f : Csr.AdjacencyEntry -> A) (label : bytes) (es : res unit (list Csr.AdjacencyEntry)) : res unit (list A) :=
  match i_get_id st label with
  | None => Ok []
  | Some label_id => es ← es; Ok (List.map f (CurIdx.with_label label_id es))
  end.
Definition get_outgoing_edges_with_label (source : NodeId) (label : bytes) (c : CurrentStorage) : res unit (list EdgeId) :=
  labelled Csr.edge_id label (CurIdx.get_outgoing source (indexes c)).
Definition get_incoming_edges_with_label (target : NodeId) (label : bytes) (c : CurrentStorage) : res unit (list EdgeId) :=
  labelled Csr.edge_id label (CurIdx.get_incoming target (indexes c)).
Definition get_outgoing_targets_with_label (source : NodeId) (label : bytes) (c : CurrentStorage) : res unit (list NodeId) :=
  labelled Csr.target label (CurIdx.get_outgoing source (indexes c)).
Definition get_incoming_sources_with_label (target : NodeId) (label : bytes) (c : CurrentStorage) : res unit (list NodeId) :=
  labelled Csr.target label (CurIdx.get_incoming target (indexes c)).

Definition get_nodes_by_label (label : bytes) (c : CurrentStorage) : list Node :=
  match i_get_id st label with
  | None => []
  | Some label_id => filter (fun n => n_label n = label_id) (snd <$> map_to_list (CurIdx.nodes (indexes c)))
  end.
Definition get_node_ids_by_label (label : bytes) (c : CurrentStorage) : list NodeId := n_id <$> get_nodes_by_label label c.

(** [v == property_value]; [ptr_eq] as in [Property.partial_eq]. *)
Variable ptr_eq : PropertyValue -> PropertyValue -> bool.
Definition find_nodes_by_property (label property_key : bytes) (property_value : PropertyValue) (c : CurrentStorage) : list NodeId :=
  match i_get_id st label, i_get_id st property_key with
  | Some label_id, Some key_id =>
      let covered_value := match value_key property_value with
                           | Some vk => if CurIdx.has_property_index label_id key_id (indexes c) then Some vk else None
                           | None => None
                           end in
      match covered_value with
      | Some vk => CurIdx.find_nodes_by_property_indexed label_id key_id vk (indexes c)
      | None =>
          n_id <$> List.filter (fun n => match PropMap.get_by_interned_key (n_properties n) key_id with
                                         | Some v => default false (Property.partial_eq ptr_eq v property_value)
                                         | None => false
                                         end)
                     (filter (fun n => n_label n = label_id) (snd <$> map_to_list (CurIdx.nodes (indexes c))))
      end
  | _, _ => []
  end.
End Labelled.

(** ** Pages of ids.  [BinaryHeap] as the list of its elements in descending order. *)
Definition push (v : Z) (heap : list Z) : list Z := Sort.insert_sorted Z.geb v heap.
Definition consider (after : option Z) (limit : nat) (heap : list Z) (value : Z) : list Z :=
  if match after with Some a => value <=? a | None => false end then heap
  else if (length heap <? limit)%nat then push value heap
  else match heap with
       | current_max :: rest => if value <? current_max then push value rest else heap
       | [] => heap
       end.
(** [ids]: the ids of the chosen scan in its order of iteration. *)
Definition collect_page (after : option Z) (limit : nat) (ids : list NodeId) : list NodeId * Z :=
  if (limit =? 0)%nat then ([], 0)
  else
    let heap := foldl (consider after limit) [] ids in
    (List.filter (fun v => v <=? MAX_VALID_ID) (rev heap), Z.of_nat (length ids)).
Definition collect_node_id_page_counted (after : option Z) (limit : nat) (label : option Z) (c : CurrentStorage) : list NodeId * Z :=
  collect_page after limit
    (match label with
     | Some label_id => CurIdx.filter_nodes_by_label label_id (indexes c)
     | None => CurIdx.iter_node_ids (indexes c)
     end).
Definition collect_node_id_page (after : option Z) (limit : nat) (label : option Z) (c : CurrentStorage) : list NodeId :=
  (collect_node_id_page_counted after limit label c).1.
End CurStore.

(** ** The property index changes no answer *)
Lemma bfilter_sublist {A} (f : A -> bool) l : List.filter f l `sublist_of` l.
Proof. induction l as [|x l IH]; simpl; [done|]. destruct (f x); by constructor. Qed.

Section FindByProperty.
Import Graph PropIndex CurIdx GraphSpec CurStore.
Context {St : Type} `{Interner St} (st : St) (ptr_eq : PropertyValue -> PropertyValue -> bool).
Hypothesis ptr_sound : forall a b, ptr_eq a b = true -> a = b.

Lemma value_key_eq v w vk : value_key v = Some vk -> value_key w = Some vk <-> value_eq ptr_eq w v = true.
Proof.
  destruct v as [|b|i|f|s|s|l|l|sv]; simpl; try done; intros [= <-]; destruct w as [|b'|i'|f'|s'|s'|l'|l'|sv']; simpl; try done.
  - rewrite Bool.eqb_true_iff. naive_solver.
  - rewrite Z.eqb_eq. naive_solver.
  - rewrite orb_true_iff, bool_decide_eq_true. split; [intros [= ->]; by right|].
    intros [E%ptr_sound| ->]; [|done]. by injection E as ->.
Qed.

(** What the scan looks for. *)
Definition matches_property (label key : bytes) (v : PropertyValue) (n : Node) : Prop :=
  i_get_id st label = Some (n_label n) /\
  exists k w, i_get_id st key = Some k /\ PropMap.get_by_interned_key (n_properties n) k = Some w /\ value_eq ptr_eq w v = true.

Lemma scan_exact g c l k v :
  coherent st g (indexes c) ->
  let found := n_id <$> List.filter (fun n => match PropMap.get_by_interned_key (n_properties n) k with
                                              | Some w => default false (Property.partial_eq ptr_eq w v)
                                              | None => false
                                              end)
                          (filter (fun n => n_label n = l) (snd <$> map_to_list (nodes (indexes c)))) in
  NoDup found /\
  forall id, id ∈ found <-> exists n, nodes (indexes c) !! id = Some n /\ Some l = Some (n_label n) /\
    exists k' w, Some k = Some k' /\ PropMap.get_by_interned_key (n_properties n) k' = Some w /\ value_eq ptr_eq w v = true.
Proof.
  intros C found. assert (Hkey : forall id n, nodes (indexes c) !! id = Some n -> n_id n = id) by (intros id n; apply (co_nkey _ _ _ C)).
  assert (Hids : n_id <$> (snd <$> map_to_list (nodes (indexes c))) = fst <$> map_to_list (nodes (indexes c))).
  { rewrite <- list_fmap_compose. apply list_fmap_ext. intros i [id n] Hi. simpl. apply Hkey, elem_of_map_to_list. by eapply list_elem_of_lookup_2. }
  split.
  - apply (sublist_NoDup _ (n_id <$> (snd <$> map_to_list (nodes (indexes c))))); [rewrite Hids; apply NoDup_fst_map_to_list|].
    apply fmap_sublist. etransitivity; [apply bfilter_sublist|apply sublist_filter].
  - intros id. unfold found. rewrite list_elem_of_fmap. setoid_rewrite elem_bfilter. setoid_rewrite list_elem_of_filter. split.
    + intros (n & -> & Hw & Hl & ([id' n'] & -> & Hn%elem_of_map_to_list)%list_elem_of_fmap). simpl in *.
      rewrite (Hkey _ _ Hn). exists n'. split; [done|]. split; [by rewrite Hl|].
      destruct (PropMap.get_by_interned_key (n_properties n') k) as [w|] eqn:Ew; [|done]. exists k, w.
      rewrite partial_eq_spec in Hw. done.
    + intros (n & Hn & [= ->] & k' & w & [= <-] & Hw & He). exists n. split; [by rewrite (Hkey _ _ Hn)|].
      rewrite Hw, partial_eq_spec. split; [done|]. split; [done|]. apply list_elem_of_fmap. exists (id, n). split; [done|]. by apply elem_of_map_to_list.
Qed.

(** C30: Looking up the nodes that carry a property answers the same with and without an
    index over it: exactly the nodes of the label whose value equals the one asked for. *)
Theorem find_by_property_exact g c label key v :
  coherent st g (indexes c) ->
  NoDup (find_nodes_by_property st ptr_eq label key v c) /\
  forall id, id ∈ find_nodes_by_property st ptr_eq label key v c <->
    exists n, g_nodes g !! id = Some n /\ matches_property label key v n.
Proof.
  intros C. rewrite <- (co_nodes _ _ _ C). unfold find_nodes_by_property, matches_property.
  destruct (i_get_id st label) as [l|]; [|split; [constructor|intros id; split; [by intros ?%not_elem_of_nil|by intros (? & ? & ? & ?)]]].
  destruct (i_get_id st key) as [k|];
    [|split; [constructor|intros id; split; [by intros ?%not_elem_of_nil|by intros (? & ? & ? & ? & ? & ? & ?)]]].
  destruct (value_key v) as [vk|] eqn:Ev; [destruct (has_property_index l k (indexes c)) eqn:Eh|].
  - destruct (property_read st (indexes c) g l k vk C Eh) as [Hnd Hin]. split; [done|]. intros id. rewrite Hin.
    unfold key_of, PropMap.get_by_interned_key. split.
    + intros (n & Hn & <- & Hk). destruct (PropMap.inner (n_properties n) !! k) as [w|] eqn:Ew; [|done].
      exists n. split; [done|]. split; [done|]. exists k, w. split_and!; [done..|]. by apply (value_key_eq v w vk Ev).
    + intros (n & Hn & [= ->] & k' & w & [= <-] & Hw & He). exists n. rewrite Hw. split_and!; [done..|]. simpl. by apply (value_key_eq v w vk Ev).
  - by apply (scan_exact g).
  - by apply (scan_exact g).
Qed.
End FindByProperty.

(** ** The edges of a node *)
Section NodeEdges.
Import Graph CurIdx GraphSpec CurStore.
Context {St : Type} `{Interner St} (st : St) (sort : list Csr.row -> list Csr.row) `{!Csr.RowSort sort}.

Lemma edges_through_read (row_of : Edge -> Csr.row) es issued ix (n : NodeId) :
  (forall e, Csr.edge_id (row_of e).2 = e_id e) -> keyed es -> mirrors row_of es issued ix ->
  exists ids, edges_through (Incr.frozen_view ix) n (adjacent ix n) = Ok ids /\
    forall id, id ∈ ids <-> exists e, es !! id = Some e /\ (row_of e).1 = n.
Proof.
  intros Hid Hk Hm. pose proof Hm as [_ (a & Hr & _)]. destruct (mirrors_read sort row_of _ _ _ n Hm) as (l & Hl & _ & Hin).
  exists (List.map Csr.edge_id l). split.
  - unfold edges_through. destruct (Incr.frozen_view ix) as [f|] eqn:Ef; [|by rewrite Hl].
    by rewrite (frozen_read ix a n l f Hr Hl Ef).
  - intros id. rewrite list_elem_of_fmap. setoid_rewrite Hin. split.
    + intros (r & -> & e & He & Hre). exists e. split; [done|]. by rewrite Hre.
    + intros (e & He & Hn). exists (row_of e).2. rewrite Hid, (Hk _ _ He). split; [done|]. exists e. split; [done|].
      by rewrite <- Hn, <- surjective_pairing.
Qed.
Lemma edge_ids_read g c (n : NodeId) :
  coherent st g (indexes c) ->
  exists out inc, get_outgoing_edges n c = Ok out /\ get_incoming_edges n c = Ok inc /\
    (forall id, id ∈ out <-> exists e, edges (indexes c) !! id = Some e /\ e_source e = n) /\
    (forall id, id ∈ inc <-> exists e, edges (indexes c) !! id = Some e /\ e_target e = n).
Proof.
  intros C. destruct (edges_through_read out_row _ _ _ n ltac:(done) (co_ekey _ _ _ C) (co_out _ _ _ C)) as (out & Ho & Io).
  destruct (edges_through_read in_row _ _ _ n ltac:(done) (co_ekey _ _ _ C) (co_in _ _ _ C)) as (inc & Hi & Ii).
  exists out, inc. by split_and!.
Qed.
End NodeEdges.

(** ** Pages *)
Section Paging.
Import CurStore.
Implicit Types (ids s : list Z) (limit : nat).

(** The ids above [after], in ascending order. *)
Definition above (after : option Z) v : bool := match after with Some a => a <? v | None => true end.
Definition ids_above (after : option Z) ids : list Z := Sort.sort_by Z.leb (List.filter (above after) ids).

(** The heap holds the smallest of the ids seen. *)
Record smallest (limit : nat) (seen heap rest : list Z) : Prop := {
  sm_perm : seen ≡ₚ heap ++ rest;
  sm_below h r : h ∈ heap -> r ∈ rest -> h <= r;
  sm_size : (length heap <= limit)%nat;
  sm_full : rest = [] \/ length heap = limit;
  sm_desc : StronglySorted (fun a b => Z.geb a b = true) heap }.

Lemma geb_total x y : Z.geb x y = false -> Z.geb y x = true. Proof. rewrite !Z.geb_leb. lia. Qed.
Lemma geb_trans x y z : Z.geb x y = true -> Z.geb y z = true -> Z.geb x z = true. Proof. rewrite !Z.geb_leb. lia. Qed.

Lemma smallest_step limit seen heap rest v :
  (0 < limit)%nat -> smallest limit seen heap rest ->
  exists heap' rest', smallest limit (v :: seen) heap' rest' /\
    heap' = if (length heap <? limit)%nat then push v heap
            else match heap with m :: tl => if v <? m then push v tl else heap | [] => heap end.
Proof.
  intros Hl [Hp Hb Hs Hf Hd].
  destruct (length heap <? limit)%nat eqn:E; [apply Nat.ltb_lt in E|apply Nat.ltb_ge in E].
  - destruct Hf as [->|Hf]; [|lia]. exists (push v heap), []. split; [|done]. unfold push. split.
    + rewrite Hp, !app_nil_r. by rewrite insert_sorted_perm.
    + intros h r _ []%not_elem_of_nil.
    + rewrite (Permutation_length (insert_sorted_perm _ _ _)). simpl. lia.
    + by left.
    + by apply insert_sorted_sorted; [apply geb_total|apply geb_trans|].
  - destruct heap as [|m tl]; [simpl in E; lia|]. inversion Hd as [|? ? Hd' Hm]; subst.
    rewrite Forall_forall in Hm. destruct (v <? m) eqn:Evm; [apply Z.ltb_lt in Evm|apply Z.ltb_ge in Evm].
    + exists (push v tl), (m :: rest). split; [|done]. unfold push. split.
      * rewrite Hp, insert_sorted_perm. simpl. by rewrite <- Permutation_middle.
      * intros h r. rewrite insert_sorted_perm. intros [->|Hh]%elem_of_cons [->|Hr]%elem_of_cons; [lia|..].
        -- pose proof (Hb m r ltac:(by left) Hr). lia.
        -- pose proof (Hm _ Hh) as Hg. rewrite Z.geb_leb in Hg. lia.
        -- apply Hb; [by right|done].
      * rewrite (Permutation_length (insert_sorted_perm _ _ _)). done.
      * right. rewrite (Permutation_length (insert_sorted_perm _ _ _)). simpl in *. lia.
      * by apply insert_sorted_sorted; [apply geb_total|apply geb_trans|].
    + exists (m :: tl), (v :: rest). split; [|done]. split; [| |done| |done].
      * by rewrite Hp, <- (Permutation_middle (m :: tl)).
      * intros h r Hh [->|Hr]%elem_of_cons; [|by apply Hb].
        assert (h <= m). { apply elem_of_cons in Hh as [->|Hh]; [done|]. pose proof (Hm _ Hh) as Hg. rewrite Z.geb_leb in Hg. lia. }
        lia.
      * right. simpl in *. lia.
Qed.

Lemma heap_smallest after limit ids : forall seen heap rest,
  (0 < limit)%nat -> smallest limit seen heap rest ->
  exists rest', smallest limit (List.filter (above after) ids ++ seen) (foldl (consider after limit) heap ids) rest'.
Proof.
  induction ids as [|v ids IH]; intros seen heap rest Hl Hs; cbn [foldl List.filter]; [by exists rest|].
  assert (Hc : consider after limit heap v = if above after v then
    (if (length heap <? limit)%nat then push v heap
     else match heap with m :: tl => if v <? m then push v tl else heap | [] => heap end) else heap).
  { unfold consider, above. destruct after as [a|]; [|done]. rewrite Z.leb_antisym. by destruct (a <? v). }
  rewrite Hc. destruct (above after v); [|by apply (IH seen heap rest)].
  destruct (smallest_step limit seen heap rest v Hl Hs) as (heap' & rest' & Hs' & <-).
  destruct (IH (v :: seen) heap' rest' Hl Hs') as (rest'' & []). exists rest''. split; try done.
  rewrite <- sm_perm0. simpl. by rewrite <- Permutation_middle.
Qed.

Lemma leb_false x y : Z.leb x y = false -> Z.leb y x = true. Proof. lia. Qed.
Lemma leb_trans x y z : Z.leb x y = true -> Z.leb y z = true -> Z.leb x z = true. Proof. lia. Qed.

Lemma smallest_take limit seen heap rest : smallest limit seen heap rest -> rev heap = take limit (Sort.sort_by Z.leb seen).
Proof.
  intros [Hp Hb Hs Hf Hd].
  assert (E : Sort.sort_by Z.leb seen = rev heap ++ Sort.sort_by Z.leb rest).
  { apply (StronglySorted_unique_strong (fun a b => Z.leb a b = true)).
    - intros x y _ _ Hxy Hyx. lia.
    - apply sort_by_sorted; [apply leb_false|apply leb_trans].
    - apply StronglySorted_app_2.
      + intros a b Ha Hbr. rewrite <- Permutation_rev in Ha. rewrite sort_by_perm in Hbr. specialize (Hb _ _ Ha Hbr). lia.
      + clear -Hd. induction Hd as [|a l Hd IH Hf]; simpl; [constructor|]. apply StronglySorted_app_2; [|done|repeat constructor].
        intros x y Hx ->%list_elem_of_singleton. rewrite <- Permutation_rev in Hx. rewrite Forall_forall in Hf.
        specialize (Hf _ Hx). rewrite Z.geb_leb in Hf. done.
      + apply sort_by_sorted; [apply leb_false|apply leb_trans].
    - by rewrite !sort_by_perm, Hp, <- Permutation_rev. }
  rewrite E. destruct Hf as [->|Hf].
  - simpl. rewrite app_nil_r, take_ge; [done|]. by rewrite length_rev.
  - rewrite take_app_le by (rewrite length_rev; lia). rewrite take_ge; [done|]. rewrite length_rev. lia.
Qed.

Lemma page_above after limit ids :
  (0 < limit)%nat -> Forall (fun v => v <= MAX_VALID_ID) ids ->
  collect_page after limit ids = (take limit (ids_above after ids), Z.of_nat (length ids)).
Proof.
  intros Hl Hv. unfold collect_page. rewrite (proj2 (Nat.eqb_neq limit 0)) by lia. f_equal.
  destruct (heap_smallest after limit ids [] [] [] Hl) as (rest & Hs).
  { split; [done|by intros ? ? ?%not_elem_of_nil|simpl; lia|by left|constructor]. }
  rewrite app_nil_r in Hs. rewrite (smallest_take _ _ _ _ Hs).
  apply bfilter_all. intros v Hin. apply Z.leb_le. rewrite Forall_forall in Hv. apply Hv.
  assert (Hin' : v ∈ ids_above after ids) by (by eapply subseteq_take).
  unfold ids_above in Hin'. rewrite sort_by_perm in Hin'. apply elem_bfilter in Hin'. apply Hin'.
Qed.

(** C31: Each page holds the smallest ids above the position it starts from, in ascending
    order; going on from the last id of any page, an empty last page apart, continues
    the ascending enumeration of all ids exactly where it stopped. *)
Theorem pages_enumerate ids limit :
  (0 < limit)%nat -> NoDup ids -> Forall (fun v => v <= MAX_VALID_ID) ids ->
  (collect_page None limit ids).1 = take limit (ids_above None ids) /\
  forall k a, last (take k (ids_above None ids)) = Some a ->
    (collect_page (Some a) limit ids).1 = take limit (drop k (ids_above None ids)).
Proof.
  intros Hl Hnd Hv. rewrite !page_above by done. split; [done|]. intros k a Ha. rewrite page_above by done. simpl. f_equal.
  unfold ids_above in *. assert (Hall : List.filter (above None) ids = ids) by (by apply bfilter_all).
  rewrite Hall in *. assert (Hbf : forall l, List.filter (above (Some a)) l = filter (fun v => a < v) l).
  { clear. intros l. induction l as [|x l IH]; [done|]. rewrite filter_cons. simpl. rewrite IH.
    destruct (a <? x) eqn:E; bool_to_prop; [by rewrite decide_True|by rewrite decide_False by lia]. }
  rewrite Hbf, <- (sort_by_filter Z.leb leb_false leb_trans).
  set (s := Sort.sort_by Z.leb ids) in *.
  assert (Hs : StronglySorted (fun x y => Z.leb x y = true) s) by (apply sort_by_sorted; [apply leb_false|apply leb_trans]).
  assert (Hn : NoDup s) by (unfold s; by rewrite sort_by_perm).
  rewrite <- (take_drop k s) at 1. rewrite filter_app.
  rewrite <- (take_drop k s) in Hs, Hn. apply StronglySorted_app in Hs as (Hx & Hs1 & _). apply NoDup_app in Hn as (_ & Hd & _).
  assert (Ha' : a ∈ take k s) by (apply last_Some in Ha as (l & ->); set_solver).
  assert (H1 : filter (fun v => a < v) (take k s) = []).
  { apply filter_none, Forall_forall. intros v Hin Hlt. apply last_Some in Ha as (l & E). rewrite E in Hs1, Hin.
    apply StronglySorted_app in Hs1 as (Hle & _). apply elem_of_app in Hin as [Hin| ->%list_elem_of_singleton]; [|lia].
    specialize (Hle v a Hin ltac:(set_solver)). lia. }
  rewrite H1. simpl. apply filter_all, Forall_forall. intros v Hin.
  specialize (Hx a v Ha' Hin). assert (a <> v) by (intros ->; by apply (Hd v)). lia.
Qed.
End Paging.

Module CurrentWitness.
Import Csr CsrFacts CsrWitness Graph PropIndex CurIdx GraphSpec CurStore.

Definition st0 : Interning.StringInterner :=
  (Interning.intern (Interning.intern (Interning.with_max_capacity 10) (Ns.of_literal "Person")).1 (Ns.of_literal "age")).1.
Definition aged (z : Z) : PropMap.PropertyMap := PropMap.mkMap {[ 1 := PInt z ]} 20.
Definition person (id z : Z) : Node := node_new id 0 (aged z) id.
Definition knows (id s t : Z) : Edge := edge_new id 0 s t PropMap.new id.
Definition os0 : list op :=
  [InsertNode (person 1 30); InsertNode (person 2 40); EnableIndex 0 1; InsertNode (person 3 30); InsertEdge (knows 7 1 2);
   InsertEdge (knows 8 1 3); InsertNode (person 2 30); Compact (true, true); RemoveEdge 7; RemoveNode 1; StampNode 2 (mkTs 5 0)].

Lemma empty_interner : ns_wf Ns.interner_new.
Proof. split; simpl; [lia|..]; intros s id; rewrite ?lookup_empty; done. Qed.
Lemma os0_admissible : admissible_run st0 empty os0.
Proof.
  cbn [admissible_run os0]. repeat match goal with |- _ /\ _ => split end; try done; try (vm_compute; done).
  all: try (intros old Ho; vm_compute in Ho; try discriminate; injection Ho as <-; vm_compute; reflexivity).
  all: vm_compute; by split.
Qed.


Definition no_ptr : PropertyValue -> PropertyValue -> bool := fun _ _ => false.
Lemma find_by_property_exact_witness : exists x, coherent st0 (run_spec empty os0) (indexes x) /\
  NoDup (find_nodes_by_property st0 no_ptr (Ns.of_literal "Person") (Ns.of_literal "age") (PInt 30) x).
Proof.
  destruct (run_coherent st0 (merge_sort row_le) os0 empty (CurIdx.new Ns.interner_new)) as (x & _ & C & _).
  - by apply (new_coherent st0 (merge_sort row_le)), empty_interner.
  - vm_compute. reflexivity.
  - apply os0_admissible.
  - exists (mkStore x Id.gen_new Id.gen_new Id.gen_new). split; [exact C|].
    apply (find_by_property_exact st0 no_ptr ltac:(done) (run_spec empty os0)). exact C.
Defined.

Lemma pages_enumerate_witness :
  (collect_page None 2 [5; 3; 9; 1]).1 = take 2 (ids_above None [5; 3; 9; 1]) /\
  (collect_page (Some 3) 2 [5; 3; 9; 1]).1 = take 2 (drop 2 (ids_above None [5; 3; 9; 1])).
Proof.
  destruct (pages_enumerate [5; 3; 9; 1] 2) as [H1 H2]; [lia| | |].
  - repeat (constructor; [set_solver by lia|]). constructor.
  - repeat constructor; by vm_compute.
  - split; [exact H1|]. apply (H2 2%nat 3). reflexivity.
Defined.

(** An edge stored again under an id whose deletion is not yet compacted stays out of
    the adjacency, and the compaction drops it for good. *)
Theorem reinserted_edge_hidden :
  let os := [InsertNode (person 1 30); InsertNode (person 2 40); InsertEdge (knows 7 1 2); RemoveEdge 7; InsertEdge (knows 7 1 2)] in
  let view r := match r with Ok x => (is_Some (edges x !! 7), get_outgoing 1 x) | _ => (False, Panic) end in
  view (run st0 (merge_sort row_le) os (CurIdx.new Ns.interner_new)) = (is_Some (Some (knows 7 1 2)), Ok []) /\
  view (run st0 (merge_sort row_le) (os ++ [Compact (true, true)]) (CurIdx.new Ns.interner_new)) = (is_Some (Some (knows 7 1 2)), Ok []).
Proof. vm_compute. split; reflexivity. Qed.
End CurrentWitness.
