(* ===== verification/IndexedHistory.v ===== *)
(** * The historical store with its temporal index

    [src/storage/historical/mod.rs], [slices.rs]: the same writes as in [History] and
    [Slices], with the temporal index the store was given ([set_temporal_indexes])
    told of every interval they close.  The index never decides anything: every write
    does to the store exactly what it does without one ([shadows]). *)

From S2P Require Import Prelude.
From S2P Require Import Bytes.
From S2P Require Import Errors.
From S2P Require Import Hlc.
From S2P Require Import Temporal.
From S2P Require Import Ids.
From S2P Require Import Interning.
From S2P Require Import Property.
From S2P Require Import PropMap.
From S2P Require Import Provenance.
From S2P Require Import Delta.
From S2P Require Import History.
From S2P Require Import Slices.
From S2P Require Import TemporalIndex.

Module IxHist.
Import PropMap Prov History Slices.

Section Ops.
Context {St : Type} `{Interner St} {X : Type}.
Variable it : St.
Variable ptr_eq : PropertyValue -> PropertyValue -> bool.
Variable map_ptr_eq : PropertyMap -> PropertyMap -> bool.
Variable config : Config.
Variable pre_anchor_hooks : Z -> HybridTimestamp -> PropertyMap -> option Z.
(** [EntityId::Node] or [EntityId::Edge] *)
Variable ent : Z -> EntityId.

Abbreviation M := (SM (Store X * TIdx.TemporalIndexes) Error).
Abbreviation add := (History.add_version_with_interval it ptr_eq map_ptr_eq config pre_anchor_hooks).

(** A step that does not touch the index. *)
Definition on_store {A} (m : SM (Store X) Error A) : M A := fun '(s, ix) =>
  let '(s, r) := m s in ((s, ix), r).

Definition close_version_transaction_time (vid : VersionId) (end_timestamp : HybridTimestamp) : M unit := fun '(s, ix) =>
  match History.close_version_transaction_time vid end_timestamp s with
  | (s', Ok u) =>
      ((s', match versions s !! vid with
            | Some v => TIdx.update_entity_transaction_time_end (ent (entity v)) vid end_timestamp ix
            | None => ix
            end), Ok u)
  | (s', r) => ((s', ix), r)
  end.

(** What the index is told about the version the new one is linked behind. *)
Definition follow (e : Z) (prev_id : VersionId) (old_temporal new_temporal : BiTemporalInterval) (ix : TIdx.TemporalIndexes) :
    TIdx.TemporalIndexes :=
  let ix := if bool_decide (end_ (valid_time old_temporal) = end_ (valid_time new_temporal)) then ix
            else TIdx.update_entity_valid_time_end (ent e) prev_id (end_ (valid_time new_temporal)) ix in
  if bool_decide (end_ (transaction_time old_temporal) = end_ (transaction_time new_temporal)) then ix
  else TIdx.update_entity_transaction_time_end (ent e) prev_id (end_ (transaction_time new_temporal)) ix.

(** [add_node_version_with_interval] / [add_edge_version_with_interval] *)
Definition add_version_with_interval (e : Z) (version_id : VersionId) (t : BiTemporalInterval) (label : Z) (ends : X)
    (properties : PropertyMap) (prov : option Provenance) : M unit := fun '(s, ix) =>
  match add e version_id t label ends properties prov s with
  | (s', Ok u) =>
      ((s', match version_heads s !! e with
            | Some prev_id =>
                match versions s !! prev_id with
                | Some prev => follow e prev_id (temporal prev) (temporal (close_previous_version_intervals prev version_id t).1) ix
                | None => ix
                end
            | None => ix
            end), Ok u)
  | (s', r) => ((s', ix), r)
  end.

Definition add_version_with_provenance (e : Z) (version_id : VersionId) (valid_from tx_time : HybridTimestamp)
    (label : Z) (ends : X) (properties : PropertyMap) (is_tombstone : bool) (prov : option Provenance) : M unit :=
  t ← lift (temporal_err (BiTemporal.with_valid_time valid_from tx_time));
  t ← lift (if is_tombstone then temporal_err (BiTemporal.close_valid_time t valid_from) else Ok t);
  add_version_with_interval e version_id t label ends properties prov.

Definition add_retracted_version_with_provenance (e : Z) (version_id : VersionId)
    (valid_from valid_to tx_time : HybridTimestamp) (label : Z) (ends : X) (properties : PropertyMap)
    (prov : option Provenance) : M unit :=
  t ← lift (temporal_err (BiTemporal.with_valid_time valid_from tx_time));
  t ← lift (temporal_err (BiTemporal.close_valid_time t valid_to));
  add_version_with_interval e version_id t label ends properties prov.

Fixpoint close_recorded (to_close : list VersionId) (commit : HybridTimestamp) : M unit :=
  match to_close with
  | [] => mret tt
  | vid :: rest =>
      s ← on_store get_store;
      _ ← (if match versions s !! vid with
              | Some v => BiTemporal.is_currently_recorded (temporal v)
              | None => false
              end
           then close_version_transaction_time vid commit else mret tt);
      close_recorded rest commit
  end.

Definition append_carry (e : Z) (valid_from commit : HybridTimestamp) (ends : X) (carry : option payload) : M (list slice) :=
  match carry with
  | Some (id, from, c_label, props, prov) =>
      t ← lift (temporal_err (BiTemporal.with_valid_time from commit));
      t ← lift (temporal_err (BiTemporal.close_valid_time t valid_from));
      _ ← add_version_with_interval e id t c_label ends props prov;
      mret [(id, t)]
  | None => mret []
  end.

Definition append_new (e : Z) (plan : UpdatePlan) (valid_from commit : HybridTimestamp) (version_id : VersionId)
    (label : Z) (ends : X) (properties : PropertyMap) (prov : option Provenance) : M (list slice) :=
  t ← lift (temporal_err (BiTemporal.with_valid_time valid_from commit));
  t ← lift (match new_valid_to plan with
            | Some e => temporal_err (BiTemporal.close_valid_time t e)
            | None => Ok t
            end);
  _ ← add_version_with_interval e version_id t label ends properties prov;
  mret [(version_id, t)].

Definition append_reassert (e : Z) (commit : HybridTimestamp) (ends : X) (re : option payload) :
    M (list slice * option (VersionId * Z * PropertyMap)) :=
  match re with
  | Some (id, from, h_label, props, prov) =>
      t ← lift (temporal_err (BiTemporal.with_valid_time from commit));
      _ ← add_version_with_interval e id t h_label ends props prov;
      mret ([(id, t)], Some (id, h_label, props))
  | None => mret ([], None)
  end.

(** [apply_node_update] / [apply_edge_update] *)
Definition apply_update (e : Z) (plan : UpdatePlan) (valid_from commit : HybridTimestamp) (version_id : VersionId)
    (label : Z) (ends : X) (properties : PropertyMap) (prov : option Provenance)
    (carry_id reassert_id : option VersionId) : M AppliedUpdate :=
  s ← on_store get_store;
  _ ← lift (check_update_capacity config (logical_version_count s e) 1);
  carry ← on_store (gather_carry it config plan carry_id);
  re ← on_store (gather_reassert it config plan reassert_id);
  s ← on_store get_store;
  _ ← close_recorded (superseded s e plan) commit;
  a1 ← append_carry e valid_from commit ends carry;
  a2 ← append_new e plan valid_from commit version_id label ends properties prov;
  '(a3, r) ← append_reassert e commit ends re;
  mret (mkApplied (a1 ++ a2 ++ a3) r).

(** [close_all_node_slices] / [close_all_edge_slices] *)
Definition close_all_slices (e : Z) (commit : HybridTimestamp) : M unit :=
  s ← on_store get_store;
  close_recorded (node_open_slices s e ++ option_list (version_heads s !! e)) commit.
End Ops.

(** ** Reads a transaction makes of the store *)
Section Reads.
Context {X : Type}.
Implicit Types s : Store X.

(** [get_current_node_version], [get_node_version]; the same for edges. *)
Definition get_current_version s (e : Z) : option VersionId := version_heads s !! e.
Definition get_version s (vid : VersionId) : option (Version X) := versions s !! vid.

(** The walk of [node_creation_time] from [vid] back to the first version; [fuel]
    bounds the versions it passes. *)
Fixpoint creation_loop (fuel : nat) s (vid : VersionId) : option HybridTimestamp :=
  match fuel with
  | O => None
  | S fuel =>
      match get_version s vid with
      | None => None
      | Some version =>
          match prev_version version with
          | Some prev => creation_loop fuel s prev
          | None => Some (start (valid_time (temporal version)))
          end
      end
  end.
Definition creation_time s (e : Z) : option HybridTimestamp :=
  get_current_version s e ≫= creation_loop (S (size (versions s))) s.

(** [find_node_version_at_time] / [find_edge_version_at_time] with the index: the first
    of its answers that the version itself confirms. *)
Definition find_version_at_time (ent : Z -> EntityId) s (ix : TIdx.TemporalIndexes) (e : Z) (vt tt : HybridTimestamp) :
    res Error (option VersionId) :=
  ids ← TIdx.find_version_at_point ix (ent e) vt tt;
  Ok (List.find (fun vid => match versions s !! vid with
                            | Some v => BiTemporal.is_visible_at (temporal v) vt tt
                            | None => false
                            end) ids).
End Reads.
End IxHist.
