(* ===== verification/IndexedLaws.v ===== *)
(** * The temporal index beside the historical store

    The index never decides what a write does to the store ([shadows_*]); and it is kept
    in step with it: for every entity it holds the versions the store holds, with their
    intervals. *)

From S2P Require Import Prelude.
From S2P Require Import Bytes.
From S2P Require Import Errors.
From S2P Require Import Hlc.
From S2P Require Import Temporal.
From S2P Require Import Ids.
From S2P Require Import Interning.
From S2P Require Import Property.
From S2P Require Import PropMap.
From S2P Require Import Provenance.
From S2P Require Import Delta.
From S2P Require Import History.
From S2P Require Import Slices.
From S2P Require Import TemporalIndex.

From S2P Require Import HistoryFacts.
From S2P Require Import IndexedHistory.

(** ** The store does not depend on the index *)
Section Shadow.
Import PropMap Prov History Slices.
Context {St : Type} `{Interner St} {X : Type}.
Variable it : St.
Variable ptr_eq : PropertyValue -> PropertyValue -> bool.
Variable map_ptr_eq : PropertyMap -> PropertyMap -> bool.
Variable config : Config.
Variable pre_anchor_hooks : Z -> HybridTimestamp -> PropertyMap -> option Z.
Variable ent : Z -> EntityId.

(** [m] does to the store what [m0] does, and answers the same, whatever the index. *)
Definition shadows {A} (m : SM (Store X * TIdx.TemporalIndexes) Error A) (m0 : SM (Store X) Error A) : Prop :=
  forall s ix, exists ix', m (s, ix) = (((m0 s).1, ix'), (m0 s).2).

Lemma shadows_bind {A B} (m : SM _ Error A) m0 (f : A -> SM _ Error B) f0 :
  shadows m m0 -> (forall a, shadows (f a) (f0 a)) -> shadows (m ≫= f) (m0 ≫= f0).
Proof.
  intros Hm Hf s ix. destruct (Hm s ix) as [ix1 E]. unfold mbind, sm_bind. rewrite E.
  destruct (m0 s) as [s1 [a|e|]]; simpl; [apply Hf|by exists ix1..].
Qed.
Lemma shadows_store {A} (m0 : SM (Store X) Error A) : shadows (IxHist.on_store m0) m0.
Proof. intros s ix. exists ix. simpl. by destruct (m0 s). Qed.
Lemma shadows_ret {A} (a : A) : shadows (mret a) (mret a).
Proof. intros s ix. by exists ix. Qed.
Lemma shadows_lift {A} (r : res Error A) : shadows (lift r) (lift r).
Proof. intros s ix. by exists ix. Qed.
Lemma shadows_close vid t : shadows (IxHist.close_version_transaction_time ent vid t) (History.close_version_transaction_time vid t).
Proof.
  intros s ix. unfold IxHist.close_version_transaction_time.
  destruct (History.close_version_transaction_time vid t s) as [s' [u|e|]]; by eexists.
Qed.
Lemma shadows_add e vid t l en p prov :
  shadows (IxHist.add_version_with_interval it ptr_eq map_ptr_eq config pre_anchor_hooks ent e vid t l en p prov)
    (History.add_version_with_interval it ptr_eq map_ptr_eq config pre_anchor_hooks e vid t l en p prov).
Proof.
  intros s ix. unfold IxHist.add_version_with_interval.
  destruct (History.add_version_with_interval _ _ _ _ _ e vid t l en p prov s) as [s' [u|er|]]; by eexists.
Qed.
#[local] Hint Resolve shadows_store shadows_ret shadows_lift shadows_close shadows_add : core.
Ltac shadow := repeat first [solve [auto]|apply shadows_bind; [|intros ?]
  |match goal with |- shadows (match ?x with _ => _ end) _ => destruct x end
  |match goal with |- shadows (let '(_, _) := ?x in _) _ => destruct x end].

Lemma shadows_add_provenance e vid vf tx l en p tomb prov :
  shadows (IxHist.add_version_with_provenance it ptr_eq map_ptr_eq config pre_anchor_hooks ent e vid vf tx l en p tomb prov)
    (History.add_version_with_provenance it ptr_eq map_ptr_eq config pre_anchor_hooks e vid vf tx l en p tomb prov).
Proof. unfold IxHist.add_version_with_provenance, History.add_version_with_provenance. shadow. Qed.
Lemma shadows_add_retracted e vid vf vt tx l en p prov :
  shadows (IxHist.add_retracted_version_with_provenance it ptr_eq map_ptr_eq config pre_anchor_hooks ent e vid vf vt tx l en p prov)
    (History.add_retracted_version_with_provenance it ptr_eq map_ptr_eq config pre_anchor_hooks e vid vf vt tx l en p prov).
Proof. unfold IxHist.add_retracted_version_with_provenance, History.add_retracted_version_with_provenance. shadow. Qed.
Lemma shadows_close_recorded l c : shadows (IxHist.close_recorded ent l c) (Slices.close_recorded l c).
Proof. induction l as [|v l IH]; simpl; shadow. Qed.
#[local] Hint Resolve shadows_close_recorded : core.
Lemma shadows_update e plan vf c vid l en p prov o1 o2 :
  shadows (IxHist.apply_update it ptr_eq map_ptr_eq config pre_anchor_hooks ent e plan vf c vid l en p prov o1 o2)
    (Slices.apply_update it ptr_eq map_ptr_eq config pre_anchor_hooks e plan vf c vid l en p prov o1 o2).
Proof.
  unfold IxHist.apply_update, Slices.apply_update, IxHist.append_carry, Slices.append_carry, IxHist.append_new, Slices.append_new,
    IxHist.append_reassert, Slices.append_reassert. shadow.
Qed.
Lemma shadows_close_all e c : shadows (IxHist.close_all_slices ent e c) (Slices.close_all_slices e c).
Proof. unfold IxHist.close_all_slices, Slices.close_all_slices. shadow. Qed.
End Shadow.
