(* ===== verification/Transactions.v ===== *)
(** * Transactions: [src/api/transaction/]

    The shared state of the database, the snapshots and the MVCC visibility rule
    ([visibility.rs]), the write transaction with its buffering operations and its
    reads ([write/mod.rs], [write/cas.rs], [write/validation.rs]), and the reads of a
    read transaction ([read_tx.rs]).  [Commit] models the commit. *)

From S2P Require Import Prelude.
From S2P Require Import SliceOps.
From S2P Require Import Bytes.
From S2P Require Import Errors.
From S2P Require Import Hlc.
From S2P Require Import Temporal.
From S2P Require Import Ids.
From S2P Require Import Lsn.
From S2P Require Import Interning.
From S2P Require Import Property.
From S2P Require Import PropMap.
From S2P Require Import Namespaces.
From S2P Require Import Provenance.
From S2P Require Import Delta.
From S2P Require Import History.
From S2P Require Import Wal.
From S2P Require Import TxFrames.
From S2P Require Import TemporalIndex.
From S2P Require Import CurrentIndex.
From S2P Require Import CurrentStore.
From S2P Require Import IndexedHistory.

Module Visibility.
Record TransactionSnapshot := mkSnapshot {
  snapshot_timestamp : HybridTimestamp;
  active_transactions : option (gset TxId) }.

Definition snapshot_active_len (s : TransactionSnapshot) : Z := from_option (fun a : gset TxId => Z.of_nat (size a)) 0 (active_transactions s).
Definition is_active (s : TransactionSnapshot) (tx_id : TxId) : bool :=
  match active_transactions s with Some a => bool_decide (tx_id ∈ a) | None => false end.
Definition is_visible (s : TransactionSnapshot) (created_by_tx : TxId) (commit_timestamp : option HybridTimestamp) : bool :=
  match commit_timestamp with
  | None => false
  | Some ts => ts_ltb ts (snapshot_timestamp s) && negb (is_active s created_by_tx)
  end.

(** The set of active transactions and the length kept next to it. *)
Record TxVisibilityManager := mkManager { active : gset TxId; active_len : Z }.
Definition new : TxVisibilityManager := mkManager ∅ 0.
Definition mutate (edit : gset TxId -> gset TxId) (m : TxVisibilityManager) : TxVisibilityManager :=
  let next := edit (active m) in mkManager next (Z.of_nat (size next)).
Definition register_active (tx_id : TxId) : TxVisibilityManager -> TxVisibilityManager := mutate (fun a => {[ tx_id ]} ∪ a).
Definition register_commit (tx_id : TxId) : TxVisibilityManager -> TxVisibilityManager := mutate (fun a => a ∖ {[ tx_id ]}).
Definition register_abort (tx_id : TxId) : TxVisibilityManager -> TxVisibilityManager := mutate (fun a => a ∖ {[ tx_id ]}).
Definition capture_snapshot (t : HybridTimestamp) (m : TxVisibilityManager) : TransactionSnapshot :=
  mkSnapshot t (if active_len m =? 0 then None else Some (active m)).
Definition is_visible_with_embedded_ts (s : TransactionSnapshot) (created_by_tx : TxId) (commit_timestamp : option HybridTimestamp) : bool :=
  if created_by_tx =? 0 then true else is_visible s created_by_tx commit_timestamp.
End Visibility.

(** ** The state transactions share *)
Module Db.
Record Db := mkDb {
  current : CurStore.CurrentStorage;
  node_history : History.Store unit;
  edge_history : History.Store (NodeId * NodeId);
  temporal_indexes : TIdx.TemporalIndexes;
  current_timestamp : HybridTimestamp;
  allocator : Lsn.LsnAllocator;
  log : list (Wal.LSN * bytes);
  node_id_gen : Id.IdGenerator;
  edge_id_gen : Id.IdGenerator;
  version_id_gen : Id.IdGenerator;
  visibility_manager : Visibility.TxVisibilityManager }.

Definition empty (i : Ns.NamespaceInterner) (max_versions : Z) : Db :=
  mkDb (CurStore.new i) (History.empty_store unit) (History.empty_store (NodeId * NodeId)) (TIdx.with_config max_versions)
    (mkTs 0 0) Lsn.new [] Id.gen_new Id.gen_new Id.gen_new Visibility.new.

Definition set_current c d : Db := mkDb c (node_history d) (edge_history d) (temporal_indexes d) (current_timestamp d)
  (allocator d) (log d) (node_id_gen d) (edge_id_gen d) (version_id_gen d) (visibility_manager d).
Definition set_node_history h ix d : Db := mkDb (current d) h (edge_history d) ix (current_timestamp d)
  (allocator d) (log d) (node_id_gen d) (edge_id_gen d) (version_id_gen d) (visibility_manager d).
Definition set_edge_history h ix d : Db := mkDb (current d) (node_history d) h ix (current_timestamp d)
  (allocator d) (log d) (node_id_gen d) (edge_id_gen d) (version_id_gen d) (visibility_manager d).
Definition set_timestamp t d : Db := mkDb (current d) (node_history d) (edge_history d) (temporal_indexes d) t
  (allocator d) (log d) (node_id_gen d) (edge_id_gen d) (version_id_gen d) (visibility_manager d).
Definition set_log a l d : Db := mkDb (current d) (node_history d) (edge_history d) (temporal_indexes d) (current_timestamp d)
  a l (node_id_gen d) (edge_id_gen d) (version_id_gen d) (visibility_manager d).
Definition set_node_gen g d : Db := mkDb (current d) (node_history d) (edge_history d) (temporal_indexes d) (current_timestamp d)
  (allocator d) (log d) g (edge_id_gen d) (version_id_gen d) (visibility_manager d).
Definition set_edge_gen g d : Db := mkDb (current d) (node_history d) (edge_history d) (temporal_indexes d) (current_timestamp d)
  (allocator d) (log d) (node_id_gen d) g (version_id_gen d) (visibility_manager d).
Definition set_version_gen g d : Db := mkDb (current d) (node_history d) (edge_history d) (temporal_indexes d) (current_timestamp d)
  (allocator d) (log d) (node_id_gen d) (edge_id_gen d) g (visibility_manager d).
Definition set_visibility m d : Db := mkDb (current d) (node_history d) (edge_history d) (temporal_indexes d) (current_timestamp d)
  (allocator d) (log d) (node_id_gen d) (edge_id_gen d) (version_id_gen d) m.

(** Steps on one part of the state. *)
Abbreviation M := (SM Db Error).
Definition on_current {A} (m : SM CurStore.CurrentStorage Error A) : M A := fun d =>
  let '(c, r) := m (current d) in (set_current c d, r).
Definition on_nodes {A} (m : SM (History.Store unit * TIdx.TemporalIndexes) Error A) : M A := fun d =>
  let '((h, ix), r) := m (node_history d, temporal_indexes d) in (set_node_history h ix d, r).
Definition on_edges {A} (m : SM (History.Store (NodeId * NodeId) * TIdx.TemporalIndexes) Error A) : M A := fun d =>
  let '((h, ix), r) := m (edge_history d, temporal_indexes d) in (set_edge_history h ix d, r).
Definition get_db : M Db := fun d => (d, Ok d).
Definition next_node_id : M NodeId := fun d =>
  let '(g, r) := Id.next (node_id_gen d) in (set_node_gen g d, map_err EStorage r).
Definition next_edge_id : M EdgeId := fun d =>
  let '(g, r) := Id.next (edge_id_gen d) in (set_edge_gen g d, map_err EStorage r).
Definition next_version_id : M VersionId := fun d =>
  let '(g, r) := Id.next (version_id_gen d) in (set_version_gen g d, map_err EStorage r).
End Db.

Module Tx.
Import PropMap Prov WriteBuf.
Notation Node := Graph.Node (only parsing).
Notation Edge := Graph.Edge (only parsing).

Inductive TxState := Active | Preparing | Committed | Aborted.
#[global] Instance TxState_eq_dec : EqDecision TxState.
Proof. solve_decision. Defined.

(** [write/cas.rs] *)
Inductive CasTarget := TNode (id : NodeId) | TEdge (id : EdgeId).
#[global] Instance CasTarget_eq_dec : EqDecision CasTarget.
Proof. solve_decision. Defined.
Record LeaseCondition := mkLease { lease_until_key : bytes }.
Record FenceCondition := mkFence { fence_key : bytes; new_fence : Z }.
Record CasPrecondition := mkCas {
  target : CasTarget;
  expected_version : VersionId;
  lease : option LeaseCondition;
  fence : option FenceCondition }.

Record WriteRequestOptions := mkOptions {
  opt_valid_from : option HybridTimestamp;
  opt_provenance : option Provenance;
  opt_namespace : option Ns.Namespace }.
Definition default_options : WriteRequestOptions := mkOptions None None None.

Record WriteTransaction := mkTx {
  tx_id : TxId;
  start_timestamp : HybridTimestamp;
  state : TxState;
  snapshot : Visibility.TransactionSnapshot;
  buffer : WriteBuffer;
  cas_preconditions : list CasPrecondition }.

(** [WriteTransaction::new]; [now] is the wall clock. *)
Definition new (tx_id : TxId) (now : HybridTimestamp) (s : Visibility.TransactionSnapshot) : WriteTransaction :=
  mkTx tx_id now Active s WriteBuf.new [].
Definition set_state st t : WriteTransaction := mkTx (tx_id t) (start_timestamp t) st (snapshot t) (buffer t) (cas_preconditions t).
Definition set_buffer b t : WriteTransaction := mkTx (tx_id t) (start_timestamp t) (state t) (snapshot t) b (cas_preconditions t).
Definition push_precondition p t : WriteTransaction :=
  mkTx (tx_id t) (start_timestamp t) (state t) (snapshot t) (buffer t) (cas_preconditions t ++ [p]).

(** ** [write/validation.rs] *)
Definition MAX_VALID_TIME_FUTURE_OFFSET_US : Z := 365 * 24 * 60 * 60 * 1000000.
Definition validate_valid_from_future (current valid_from : HybridTimestamp) : res Error unit :=
  let future_offset := wallclock valid_from - wallclock current in
  if MAX_VALID_TIME_FUTURE_OFFSET_US <? future_offset
  then Err (ETemporal (ValidTimeTooFarInFuture valid_from current MAX_VALID_TIME_FUTURE_OFFSET_US))
  else Ok tt.
Definition validate_valid_from_not_before_creation (entity_creation_time valid_from : HybridTimestamp) : res Error unit :=
  if ts_ltb valid_from entity_creation_time
  then Err (ETemporal (ValidTimeBeforeEntityCreation valid_from entity_creation_time))
  else Ok tt.

(** ** What the transaction itself wrote *)
Definition pending (t : WriteTransaction) : Graph.VersionMetadata := Graph.mkMeta (tx_id t) None.

(** [Some] when the buffer decides the answer; a write index out of range panics. *)
Definition buffered_node (t : WriteTransaction) (id : NodeId) : option (res Error Node) :=
  match get_node_write (buffer t) id with
  | Ok (Some w) =>
      match w with
      | CreateNode n v l p _ _ | UpdateNode n v l p _ _ => Some (Ok (Graph.mkNode n l p v (pending t)))
      | DeleteNode _ _ _ | RetractNode _ _ _ => Some (Err (EStorage (NodeNotFound id)))
      | _ => None
      end
  | Ok None => None
  | _ => Some Panic
  end.
Definition buffered_edge (t : WriteTransaction) (id : EdgeId) : option (res Error Edge) :=
  match get_edge_write (buffer t) id with
  | Ok (Some w) =>
      match w with
      | CreateEdge e v s d l p _ _ | UpdateEdge e v s d l p _ _ => Some (Ok (Graph.mkEdge e l s d p v (pending t)))
      | DeleteEdge _ _ _ | RetractEdge _ _ _ => Some (Err (EStorage (EdgeNotFound id)))
      | _ => None
      end
  | Ok None => None
  | _ => Some Panic
  end.
Definition read_own_node (t : WriteTransaction) (d : Db.Db) (id : NodeId) : res Error Node :=
  match buffered_node t id with Some r => r | None => CurStore.get_node id (Db.current d) end.
Definition read_own_edge (t : WriteTransaction) (d : Db.Db) (id : EdgeId) : res Error Edge :=
  match buffered_edge t id with Some r => r | None => CurStore.get_edge id (Db.current d) end.

Definition buffered_node_version (t : WriteTransaction) (id : NodeId) : res Error (option VersionId) :=
  w ← get_node_write (buffer t) id;
  Ok (match w with Some (CreateNode _ v _ _ _ _) | Some (UpdateNode _ v _ _ _ _) => Some v | _ => None end).
Definition buffered_edge_version (t : WriteTransaction) (id : EdgeId) : res Error (option VersionId) :=
  w ← get_edge_write (buffer t) id;
  Ok (match w with Some (CreateEdge _ v _ _ _ _ _ _) | Some (UpdateEdge _ v _ _ _ _ _ _) => Some v | _ => None end).

(** [buffered_connected_edges] *)
Definition buffered_connected_edges (t : WriteTransaction) (n : NodeId) : list EdgeId :=
  omap (fun w => match w with
                 | CreateEdge e _ s d _ _ _ _ =>
                     if (s =? n) || (d =? n)
                     then match buffered_edge t e with Some (Ok _) => Some e | _ => None end
                     else None
                 | _ => None
                 end) (operations (buffer t)).

(** [WriteBuffer::mark_has_vector_operations] *)
Definition mark_has_vector_operations (b : WriteBuffer) : WriteBuffer :=
  mkBuffer (operations b) (modified_nodes b) (modified_edges b) (max_operations b) true (has_edge_operations b).

(** ** The valid-time ends a retraction reports *)
Section Heads.
Context {X : Type}.
Implicit Types h : History.Store X.
Definition head_interval h (e : Z) : option BiTemporalInterval :=
  History.temporal <$> (IxHist.get_current_version h e ≫= IxHist.get_version h).
Definition head_valid_from h (e : Z) (t : WriteTransaction) : HybridTimestamp :=
  from_option (fun i => start (valid_time i)) (start_timestamp t) (head_interval h e).
Definition closed_valid_interval h (e : Z) : option TimeRange :=
  match head_interval h e with
  | Some i => if Range.is_current (valid_time i) then None else Some (valid_time i)
  | None => None
  end.
End Heads.

Record RetractionResult := mkRetraction {
  r_valid_from : HybridTimestamp;
  r_valid_to : HybridTimestamp;
  already_retracted : bool;
  edges_retracted : Z }.

(** ** The buffering operations *)
Section Ops.
Context {St : Type} `{Interner St}.
(** The order in which a hash map of properties is iterated. *)
Variable iter : PropertyMap -> list (Z * PropertyValue).

Record Session := mkSession { interner : St; db : Db.Db; tx : WriteTransaction }.
Abbreviation M := (SM Session Error).

Definition get_session : M Session := fun s => (s, Ok s).
Definition on_db {A} (m : SM Db.Db Error A) : M A := fun s =>
  let '(d, r) := m (db s) in (mkSession (interner s) d (tx s), r).
Definition on_interner {A} (m : SM St Error A) : M A := fun s =>
  let '(i, r) := m (interner s) in (mkSession i (db s) (tx s), r).
Definition on_tx (f : WriteTransaction -> WriteTransaction) : M unit := fun s =>
  (mkSession (interner s) (db s) (f (tx s)), Ok tt).
Definition buffer_add (w : BufferedWrite) : M unit := fun s =>
  let '(b, r) := WriteBuf.add (buffer (tx s)) w in (mkSession (interner s) (db s) (set_buffer b (tx s)), r).
Definition intern (s : bytes) : M Z := on_interner (fun i => i_intern i s).
Definition ns_check (r : res NamespaceError unit) : M unit := lift (map_err ENamespace r).

Definition require_active : M unit := s ← get_session;
  lift (if bool_decide (state (tx s) = Active) then Ok tt else Err (ETransaction InvalidState)).
Definition reject_reserved_keys (p : PropertyMap) : M unit := s ← get_session;
  ns_check (Ns.reject_reserved_keys (interner s) (iter p)).
Definition own_node (id : NodeId) : M Node := s ← get_session; lift (read_own_node (tx s) (db s) id).
Definition own_edge (id : EdgeId) : M Edge := s ← get_session; lift (read_own_edge (tx s) (db s) id).
Definition valid_from_of (o : WriteRequestOptions) : M HybridTimestamp := s ← get_session;
  mret (default (start_timestamp (tx s)) (opt_valid_from o)).
Definition provenance_of (p : option Provenance) : option Provenance :=
  match p with Some p => if Prov.is_empty p then None else Some p | None => None end.
Definition mark_vectors (ps : list PropertyMap) : M unit :=
  on_tx (fun t => if negb (has_vector_operations (buffer t)) && existsb contains_vector ps
                  then set_buffer (mark_has_vector_operations (buffer t)) t else t).

(** [validate_valid_from_future], then the check against the creation of the entity. *)
Definition check_creation (creation : option HybridTimestamp) (valid_from : HybridTimestamp) : res Error unit :=
  match creation with Some c => validate_valid_from_not_before_creation c valid_from | None => Ok tt end.
Definition check_node_valid_from (now : HybridTimestamp) (id : NodeId) (valid_from : HybridTimestamp) : M unit :=
  _ ← lift (validate_valid_from_future now valid_from);
  s ← get_session; lift (check_creation (IxHist.creation_time (Db.node_history (db s)) id) valid_from).
Definition check_edge_valid_from (now : HybridTimestamp) (id : EdgeId) (valid_from : HybridTimestamp) : M unit :=
  _ ← lift (validate_valid_from_future now valid_from);
  s ← get_session; lift (check_creation (IxHist.creation_time (Db.edge_history (db s)) id) valid_from).

(** [builder.insert_by_key] panics where [try_insert_by_key] fails. *)
Fixpoint insert_entries (i : St) (es : list (Z * PropertyValue)) (b : PropertyMapBuilder) : res Error PropertyMapBuilder :=
  match es with
  | [] => Ok b
  | (k, v) :: es => match try_insert_by_key i b k v with Ok b => insert_entries i es b | _ => Panic end
  end.
Definition merge (existing properties : PropertyMap) : M PropertyMap := s ← get_session;
  lift (b ← insert_entries (interner s) (iter properties) (from_map existing); Ok (PropMap.build b)).
Definition restamp (new_properties existing : PropertyMap) : M PropertyMap :=
  on_interner (Ns.restamp_namespace new_properties existing).

Definition create_node_with_options (now : HybridTimestamp) (label : bytes) (properties : PropertyMap)
    (options : WriteRequestOptions) : M NodeId :=
  _ ← require_active;
  _ ← reject_reserved_keys properties;
  node_id ← on_db Db.next_node_id;
  version_id ← on_db Db.next_version_id;
  label_interned ← intern label;
  properties ← on_interner (Ns.stamp_namespace properties (default Ns.default_ns (opt_namespace options)));
  valid_from ← valid_from_of options;
  _ ← lift (validate_valid_from_future now valid_from);
  _ ← buffer_add (CreateNode node_id version_id label_interned properties valid_from (provenance_of (opt_provenance options)));
  mret node_id.

Definition create_edge_with_options (now : HybridTimestamp) (source target : NodeId) (label : bytes) (properties : PropertyMap)
    (options : WriteRequestOptions) : M EdgeId :=
  _ ← require_active;
  _ ← reject_reserved_keys properties;
  edge_id ← on_db Db.next_edge_id;
  version_id ← on_db Db.next_version_id;
  label_interned ← intern label;
  properties ← on_interner (Ns.stamp_namespace properties (default Ns.default_ns (opt_namespace options)));
  valid_from ← valid_from_of options;
  _ ← lift (validate_valid_from_future now valid_from);
  _ ← buffer_add (CreateEdge edge_id version_id source target label_interned properties valid_from
                    (provenance_of (opt_provenance options)));
  mret edge_id.

(** An entity that is not there is a failed precondition. *)
Definition or_mismatch {A} (expected : VersionId) (r : res Error A) : res Error A :=
  match r with Err _ => Err (ETransaction (CasMismatch expected None)) | r => r end.
Definition cas_node_impl (now : HybridTimestamp) (id : NodeId) (expected : VersionId) (properties : PropertyMap)
    (lease : option LeaseCondition) (fence : option FenceCondition) (options : WriteRequestOptions) : M VersionId :=
  _ ← require_active;
  _ ← ns_check (Ns.reject_namespace_on_update (opt_namespace options));
  _ ← reject_reserved_keys properties;
  s ← get_session;
  node ← lift (or_mismatch expected (read_own_node (tx s) (db s) id));
  version_id ← on_db Db.next_version_id;
  valid_from ← valid_from_of options;
  _ ← check_node_valid_from now id valid_from;
  properties ← restamp properties (Graph.n_properties node);
  _ ← buffer_add (UpdateNode id version_id (Graph.n_label node) properties valid_from
                    (provenance_of (opt_provenance options)));
  _ ← on_tx (push_precondition (mkCas (TNode id) expected lease fence));
  mret version_id.
Definition cas_edge_impl (now : HybridTimestamp) (id : EdgeId) (expected : VersionId) (properties : PropertyMap)
    (options : WriteRequestOptions) : M VersionId :=
  _ ← require_active;
  _ ← ns_check (Ns.reject_namespace_on_update (opt_namespace options));
  _ ← reject_reserved_keys properties;
  s ← get_session;
  edge ← lift (or_mismatch expected (read_own_edge (tx s) (db s) id));
  version_id ← on_db Db.next_version_id;
  valid_from ← valid_from_of options;
  _ ← check_edge_valid_from now id valid_from;
  properties ← restamp properties (Graph.e_properties edge);
  _ ← buffer_add (UpdateEdge id version_id (Graph.e_source edge) (Graph.e_target edge) (Graph.e_label edge) properties
                    valid_from (provenance_of (opt_provenance options)));
  _ ← on_tx (push_precondition (mkCas (TEdge id) expected None None));
  mret version_id.

(** The lease properties written on top of the caller's. *)
Definition with_entries (properties : PropertyMap) (es : list (Z * PropertyValue)) : M PropertyMap := s ← get_session;
  lift (b ← insert_entries (interner s) es (from_map properties); Ok (PropMap.build b)).
Definition claim_with_lease_impl (now : HybridTimestamp) (id : NodeId) (expected : VersionId)
    (lease_owner_key lease_until_key : bytes) (owner : PropertyValue) (lease_until : HybridTimestamp)
    (properties : PropertyMap) (options : WriteRequestOptions) : M VersionId :=
  owner_key ← intern lease_owner_key;
  until_key ← intern lease_until_key;
  claimed ← with_entries properties [(owner_key, owner); (until_key, PInt (wallclock lease_until))];
  cas_node_impl now id expected claimed (Some (mkLease lease_until_key)) None options.
Definition claim_with_lease_fenced_impl (lease_now now : HybridTimestamp) (id : NodeId) (expected : VersionId)
    (lease_owner_key lease_until_key fence_key : bytes) (owner : PropertyValue) (lease_ttl_us : Z) (new_fence : Z)
    (properties : PropertyMap) (options : WriteRequestOptions) : M VersionId :=
  let ttl_us := Z.min lease_ttl_us i64_max in
  let lease_until_us := saturate i64_min i64_max (wallclock lease_now + ttl_us) in
  owner_key ← intern lease_owner_key;
  until_key ← intern lease_until_key;
  fkey ← intern fence_key;
  claimed ← with_entries properties [(owner_key, owner); (until_key, PInt lease_until_us); (fkey, PInt new_fence)];
  cas_node_impl now id expected claimed (Some (mkLease lease_until_key)) (Some (mkFence fence_key new_fence)) options.

Definition update_node_with_options (now : HybridTimestamp) (id : NodeId) (properties : PropertyMap)
    (options : WriteRequestOptions) : M unit :=
  _ ← require_active;
  _ ← ns_check (Ns.reject_namespace_on_update (opt_namespace options));
  _ ← reject_reserved_keys properties;
  node ← own_node id;
  version_id ← on_db Db.next_version_id;
  merged ← merge (Graph.n_properties node) properties;
  merged ← restamp merged (Graph.n_properties node);
  _ ← mark_vectors [Graph.n_properties node; merged];
  valid_from ← valid_from_of options;
  _ ← check_node_valid_from now id valid_from;
  buffer_add (UpdateNode id version_id (Graph.n_label node) merged valid_from (provenance_of (opt_provenance options))).
Definition update_edge_with_options (now : HybridTimestamp) (id : EdgeId) (properties : PropertyMap)
    (options : WriteRequestOptions) : M unit :=
  _ ← require_active;
  _ ← ns_check (Ns.reject_namespace_on_update (opt_namespace options));
  _ ← reject_reserved_keys properties;
  edge ← own_edge id;
  version_id ← on_db Db.next_version_id;
  merged ← merge (Graph.e_properties edge) properties;
  merged ← restamp merged (Graph.e_properties edge);
  valid_from ← valid_from_of options;
  _ ← check_edge_valid_from now id valid_from;
  buffer_add (UpdateEdge id version_id (Graph.e_source edge) (Graph.e_target edge) (Graph.e_label edge) merged valid_from
                (provenance_of (opt_provenance options))).

Definition buffer_node_replace (now : HybridTimestamp) (id : NodeId) (label : Z) (properties : PropertyMap)
    (options : WriteRequestOptions) : M unit :=
  _ ← require_active;
  existing ← own_node id;
  version_id ← on_db Db.next_version_id;
  properties ← restamp properties (Graph.n_properties existing);
  _ ← mark_vectors [Graph.n_properties existing; properties];
  valid_from ← valid_from_of options;
  _ ← check_node_valid_from now id valid_from;
  buffer_add (UpdateNode id version_id label properties valid_from (provenance_of (opt_provenance options))).
Definition buffer_edge_replace (now : HybridTimestamp) (edge : Edge) (properties : PropertyMap) (options : WriteRequestOptions) : M unit :=
  _ ← require_active;
  version_id ← on_db Db.next_version_id;
  properties ← restamp properties (Graph.e_properties edge);
  _ ← mark_vectors [Graph.e_properties edge; properties];
  valid_from ← valid_from_of options;
  _ ← check_edge_valid_from now (Graph.e_id edge) valid_from;
  buffer_add (UpdateEdge (Graph.e_id edge) version_id (Graph.e_source edge) (Graph.e_target edge) (Graph.e_label edge) properties
                valid_from (provenance_of (opt_provenance options))).
Definition replace_node_with_options (now : HybridTimestamp) (id : NodeId) (label : bytes) (properties : PropertyMap)
    (options : WriteRequestOptions) : M unit :=
  _ ← require_active;
  _ ← ns_check (Ns.reject_namespace_on_update (opt_namespace options));
  _ ← reject_reserved_keys properties;
  label_interned ← intern label;
  buffer_node_replace now id label_interned properties options.
Definition replace_edge_with_options (now : HybridTimestamp) (id : EdgeId) (properties : PropertyMap)
    (options : WriteRequestOptions) : M unit :=
  _ ← require_active;
  _ ← ns_check (Ns.reject_namespace_on_update (opt_namespace options));
  _ ← reject_reserved_keys properties;
  edge ← own_edge id;
  buffer_edge_replace now edge properties options.

Definition reject_reserved_key (key : bytes) : M unit :=
  ns_check (if Ns.is_reserved_property_key key then Err (ReservedPropertyKey key) else Ok tt).
(** [builder.remove(key)] panics where [try_remove] fails. *)
Definition without_key (properties : PropertyMap) (key : bytes) : M PropertyMap := s ← get_session;
  lift (match try_remove (interner s) (from_map properties) key with Ok b => Ok (PropMap.build b) | _ => Panic end).
Definition remove_node_property (now : HybridTimestamp) (id : NodeId) (key : bytes) : M unit :=
  _ ← reject_reserved_key key;
  _ ← require_active;
  node ← own_node id;
  s ← get_session;
  if negb (contains_key (interner s) (Graph.n_properties node) key) then mret tt
  else
    new_properties ← without_key (Graph.n_properties node) key;
    buffer_node_replace now id (Graph.n_label node) new_properties default_options.
Definition remove_edge_property (now : HybridTimestamp) (id : EdgeId) (key : bytes) : M unit :=
  _ ← reject_reserved_key key;
  _ ← require_active;
  edge ← own_edge id;
  s ← get_session;
  if negb (contains_key (interner s) (Graph.e_properties edge) key) then mret tt
  else
    new_properties ← without_key (Graph.e_properties edge) key;
    buffer_edge_replace now edge new_properties default_options.

Definition delete_node_with_options (now : HybridTimestamp) (id : NodeId) (options : WriteRequestOptions) : M unit :=
  _ ← require_active;
  node ← own_node id;
  _ ← mark_vectors [Graph.n_properties node];
  valid_from ← valid_from_of options;
  _ ← check_node_valid_from now id valid_from;
  buffer_add (DeleteNode id valid_from (provenance_of (opt_provenance options))).
Definition delete_edge_with_options (now : HybridTimestamp) (id : EdgeId) (options : WriteRequestOptions) : M unit :=
  _ ← require_active;
  edge ← own_edge id;
  _ ← mark_vectors [Graph.e_properties edge];
  valid_from ← valid_from_of options;
  _ ← check_edge_valid_from now id valid_from;
  buffer_add (DeleteEdge id valid_from (provenance_of (opt_provenance options))).

(** ** Reads of a write transaction *)
Definition visible_in (s : Visibility.TransactionSnapshot) (m : Graph.VersionMetadata) : bool :=
  Visibility.is_visible_with_embedded_ts s (Graph.created_by_tx m) (Graph.commit_timestamp m).
Definition get_node (t : WriteTransaction) (d : Db.Db) (id : NodeId) : res Error Node :=
  match buffered_node t id with
  | Some r => r
  | None => node ← CurStore.get_node id (Db.current d);
            if negb (visible_in (snapshot t) (Graph.n_metadata node)) then Err (EStorage (NodeNotFound id)) else Ok node
  end.
Definition get_edge (t : WriteTransaction) (d : Db.Db) (id : EdgeId) : res Error Edge :=
  match buffered_edge t id with
  | Some r => r
  | None => edge ← CurStore.get_edge id (Db.current d);
            if negb (visible_in (snapshot t) (Graph.e_metadata edge)) then Err (EStorage (EdgeNotFound id)) else Ok edge
  end.
(** The adjacency reads of the store fail only by panicking. *)
Definition no_error {A} (r : res unit A) : res Error A := match r with Ok a => Ok a | _ => Panic end.
Definition get_outgoing_edges (t : WriteTransaction) (d : Db.Db) (id : NodeId) : res Error (list EdgeId) :=
  _ ← get_node t d id; no_error (CurStore.get_outgoing_edges id (Db.current d)).
Definition get_incoming_edges (t : WriteTransaction) (d : Db.Db) (id : NodeId) : res Error (list EdgeId) :=
  _ ← get_node t d id; no_error (CurStore.get_incoming_edges id (Db.current d)).
Definition get_outgoing_edges_with_label (t : WriteTransaction) (i : St) (d : Db.Db) (id : NodeId) (label : bytes) :
    res Error (list EdgeId) :=
  _ ← get_node t d id; no_error (CurStore.get_outgoing_edges_with_label i id label (Db.current d)).

Section Find.
Variable ptr_eq : PropertyValue -> PropertyValue -> bool.
(** A committed match stays when the buffer does not touch it and the snapshot sees it. *)
Definition keeps (t : WriteTransaction) (d : Db.Db) (id : NodeId) : bool :=
  negb (has_modified_node (buffer t) id) &&
  match CurStore.get_node id (Db.current d) with
  | Ok node => visible_in (snapshot t) (Graph.n_metadata node)
  | _ => false
  end.
(** One buffered write in the scan that follows. *)
Definition buffered_match (label_id key_id : Z) (property_value : PropertyValue) (w : BufferedWrite) : option NodeId :=
  match w with
  | CreateNode n _ l p _ _ | UpdateNode n _ l p _ _ =>
      if negb (l =? label_id) then None
      else match get_by_interned_key p key_id with
           | Some v => if default false (Property.partial_eq ptr_eq v property_value) then Some n else None
           | None => None
           end
  | _ => None
  end.
Definition find_nodes_by_property (t : WriteTransaction) (i : St) (d : Db.Db) (label property_key : bytes)
    (property_value : PropertyValue) : list NodeId :=
  let results := List.filter (keeps t d) (CurStore.find_nodes_by_property i ptr_eq label property_key property_value (Db.current d)) in
  match i_get_id i label, i_get_id i property_key with
  | Some label_id, Some key_id => results ++ omap (buffered_match label_id key_id property_value) (operations (buffer t))
  | _, _ => results
  end.
End Find.

(** [edge_ids.sort_unstable(); edge_ids.dedup()] *)
Fixpoint dedup (l : list Z) : list Z :=
  match l with
  | a :: ((b :: _) as rest) => if a =? b then dedup rest else a :: dedup rest
  | l => l
  end.
Definition sorted_ids (l : list EdgeId) : list EdgeId := dedup (Sort.sort_by Z.leb l).
Fixpoint delete_edges (now : list HybridTimestamp) (ids : list EdgeId) (options : WriteRequestOptions) : M (list HybridTimestamp) :=
  match ids, now with
  | [], now => mret now
  | id :: ids, n :: now => _ ← delete_edge_with_options n id options; delete_edges now ids options
  | _ :: _, [] => lift Panic
  end.
(** [now] has one reading per deletion. *)
Definition delete_node_cascade_with_options (now : list HybridTimestamp) (id : NodeId) (options : WriteRequestOptions) : M unit :=
  _ ← require_active;
  _ ← own_node id;
  s ← get_session;
  out ← lift (get_outgoing_edges (tx s) (db s) id);
  inc ← lift (get_incoming_edges (tx s) (db s) id);
  now ← delete_edges now (sorted_ids (out ++ inc ++ buffered_connected_edges (tx s) id)) options;
  match now with
  | n :: _ => delete_node_with_options n id options
  | [] => lift Panic
  end.

(** ** Retractions *)
Definition retract_node_with_provenance (now : HybridTimestamp) (id : NodeId) (valid_to : HybridTimestamp)
    (provenance : option Provenance) : M RetractionResult :=
  _ ← require_active;
  s ← get_session;
  w ← lift (get_node_write (buffer (tx s)) id);
  match w with
  | Some (RetractNode _ buffered_valid_to _) =>
      mret (mkRetraction (head_valid_from (Db.node_history (db s)) id (tx s)) buffered_valid_to true 0)
  | Some (DeleteNode _ deleted_at _) => mret (mkRetraction deleted_at deleted_at true 0)
  | _ =>
      match read_own_node (tx s) (db s) id with
      | Ok node =>
          _ ← mark_vectors [Graph.n_properties node];
          let valid_from := head_valid_from (Db.node_history (db s)) id (tx s) in
          _ ← lift (validate_valid_from_future now valid_to);
          _ ← lift (validate_valid_from_not_before_creation valid_from valid_to);
          _ ← buffer_add (RetractNode id valid_to (provenance_of provenance));
          mret (mkRetraction valid_from valid_to false 0)
      | Err err =>
          match closed_valid_interval (Db.node_history (db s)) id with
          | Some interval => mret (mkRetraction (start interval) (end_ interval) true 0)
          | None => lift (Err err)
          end
      | Panic => lift Panic
      end
  end.
Definition retract_edge_with_provenance (now : HybridTimestamp) (id : EdgeId) (valid_to : HybridTimestamp)
    (provenance : option Provenance) : M RetractionResult :=
  _ ← require_active;
  s ← get_session;
  w ← lift (get_edge_write (buffer (tx s)) id);
  match w with
  | Some (RetractEdge _ buffered_valid_to _) =>
      mret (mkRetraction (head_valid_from (Db.edge_history (db s)) id (tx s)) buffered_valid_to true 0)
  | Some (DeleteEdge _ deleted_at _) => mret (mkRetraction deleted_at deleted_at true 0)
  | _ =>
      match read_own_edge (tx s) (db s) id with
      | Ok edge =>
          _ ← mark_vectors [Graph.e_properties edge];
          let valid_from := head_valid_from (Db.edge_history (db s)) id (tx s) in
          _ ← lift (validate_valid_from_future now valid_to);
          _ ← lift (validate_valid_from_not_before_creation valid_from valid_to);
          _ ← buffer_add (RetractEdge id valid_to (provenance_of provenance));
          mret (mkRetraction valid_from valid_to false 0)
      | Err err =>
          match closed_valid_interval (Db.edge_history (db s)) id with
          | Some interval => mret (mkRetraction (start interval) (end_ interval) true 0)
          | None => lift (Err err)
          end
      | Panic => lift Panic
      end
  end.

(** [WriteTransaction::rollback] *)
Definition rollback : M unit := fun s =>
  let t := tx s in
  if bool_decide (state t = Committed) then (s, Err (ETransaction (AlreadyCommitted (tx_id t))))
  else (mkSession (interner s)
          (Db.set_visibility (Visibility.register_abort (tx_id t) (Db.visibility_manager (db s))) (db s))
          (set_state Aborted (set_buffer (WriteBuf.clear (buffer t)) t)), Ok tt).
End Ops.
End Tx.

(** ** Read transactions: [read_tx.rs] *)
Module ReadTx.
Import PropMap.
Section Reads.
Context {St : Type} `{Interner St}.
Variable it : St.
Variable config : History.Config.
Variable ptr_eq : PropertyValue -> PropertyValue -> bool.
Variable snapshot : Visibility.TransactionSnapshot.

Abbreviation M := (SM Db.Db Error).
Definition at_snapshot : HybridTimestamp := Visibility.snapshot_timestamp snapshot.

(** [get_node_from_historical] / [get_edge_from_historical]: the version believed and
    valid at the snapshot, with its properties. *)
Definition from_historical {X} (ent : Z -> EntityId) (not_found : Error) (e : Z) :
    SM (History.Store X * TIdx.TemporalIndexes) Error (History.Version X * PropertyMap) := fun '(s, ix) =>
  match IxHist.find_version_at_time ent s ix e at_snapshot at_snapshot with
  | Ok (Some vid) =>
      match History.versions s !! vid with
      | None => ((s, ix), Err (EStorage (VersionNotFound vid)))
      | Some v => let '(s, r) := History.reconstruct it config vid s in ((s, ix), p ← r; Ok (v, p))
      end
  | Ok None => ((s, ix), Err not_found)
  | _ => ((s, ix), Panic)
  end.
(** Historical versions do not keep their creating transaction. *)
Definition historical_meta {X} (v : History.Version X) : Graph.VersionMetadata :=
  Graph.meta_new 0 (start (transaction_time (History.temporal v))).
Definition get_node_from_historical (id : NodeId) : M Graph.Node :=
  '(v, p) ← Db.on_nodes (from_historical ENode (EStorage (NodeNotFound id)) id);
  mret (Graph.mkNode id (History.label v) p (History.id v) (historical_meta v)).
Definition get_edge_from_historical (id : EdgeId) : M Graph.Edge :=
  '(v, p) ← Db.on_edges (from_historical EEdge (EStorage (EdgeNotFound id)) id);
  mret (Graph.mkEdge id (History.label v) (History.ends v).1 (History.ends v).2 p (History.id v) (historical_meta v)).

Definition get_node (id : NodeId) : M Graph.Node := d ← Db.get_db;
  match CurStore.get_node id (Db.current d) with
  | Ok node => if Tx.visible_in snapshot (Graph.n_metadata node) then mret node else get_node_from_historical id
  | _ => get_node_from_historical id
  end.
Definition get_edge (id : EdgeId) : M Graph.Edge := d ← Db.get_db;
  match CurStore.get_edge id (Db.current d) with
  | Ok edge => if Tx.visible_in snapshot (Graph.e_metadata edge) then mret edge else get_edge_from_historical id
  | _ => get_edge_from_historical id
  end.

Definition visible_edge (d : Db.Db) (id : EdgeId) : bool :=
  match CurStore.get_edge id (Db.current d) with Ok edge => Tx.visible_in snapshot (Graph.e_metadata edge) | _ => false end.
Definition visible_node (d : Db.Db) (id : NodeId) : bool :=
  match CurStore.get_node id (Db.current d) with Ok node => Tx.visible_in snapshot (Graph.n_metadata node) | _ => false end.
Definition edges_of (id : NodeId) (read : CurStore.CurrentStorage -> res unit (list EdgeId)) : M (list EdgeId) :=
  _ ← get_node id;
  d ← Db.get_db;
  es ← lift (Tx.no_error (read (Db.current d)));
  mret (List.filter (visible_edge d) es).
Definition get_outgoing_edges (id : NodeId) : M (list EdgeId) := edges_of id (CurStore.get_outgoing_edges id).
Definition get_incoming_edges (id : NodeId) : M (list EdgeId) := edges_of id (CurStore.get_incoming_edges id).
Definition get_outgoing_edges_with_label (id : NodeId) (label : bytes) : M (list EdgeId) :=
  edges_of id (CurStore.get_outgoing_edges_with_label it id label).
Definition find_nodes_by_property (d : Db.Db) (label property_key : bytes) (property_value : PropertyValue) : list NodeId :=
  List.filter (visible_node d) (CurStore.find_nodes_by_property it ptr_eq label property_key property_value (Db.current d)).
End Reads.
End ReadTx.
