(* ===== verification/Commit.v ===== *)
(** * The commit of a write transaction

    [src/api/transaction/write/mod.rs] ([commit_with_timestamp_inner]) and its steps:
    [validation.rs], [conflict.rs], [cas.rs], [wal.rs], [apply.rs]; the start of a
    transaction in [src/db/transaction.rs].

    The commit clock is its frontier here ([CommitClock] models the word and its
    readers): the commit timestamp is fixed while the lock is held, and stays consumed
    when the commit fails.  What the code does between taking the lock and releasing it
    is [locked]; [prepare] is what runs before, without it. *)

From S2P Require Import Prelude.
From S2P Require Import Bytes.
From S2P Require Import Errors.
From S2P Require Import Hlc.
From S2P Require Import Temporal.
From S2P Require Import Ids.
From S2P Require Import Lsn.
From S2P Require Import Interning.
From S2P Require Import Property.
From S2P Require Import PropMap.
From S2P Require Import Provenance.
From S2P Require Import Delta.
From S2P Require Import History.
From S2P Require Import Slices.
From S2P Require Import Wal.
From S2P Require Import TxFrames.
From S2P Require Import TemporalIndex.
From S2P Require Import CurrentIndex.
From S2P Require Import CurrentStore.
From S2P Require Import IndexedHistory.
From S2P Require Import Transactions.

Module Commit.
Import PropMap Prov WriteBuf Graph Tx.

(** What a commit reads from its environment: the wall clock, the microseconds since
    the clock was last advanced, the self-heal switch, and the clock readings that go
    into the logged entries. *)
Record Environment := mkEnv {
  wall : Z;
  elapsed_us : Z;
  self_heal_clock_skew : bool;
  entry_times : list HybridTimestamp }.

Abbreviation M := (SM Db.Db Error).
(** A check that reads the live graph only. *)
Definition guard (g : CurStore.CurrentStorage -> res Error unit) : M unit := fun d => (d, g (Db.current d)).

(** A check of every buffered write, in order. *)
Fixpoint each (f : BufferedWrite -> res Error unit) (ws : list BufferedWrite) : res Error unit :=
  match ws with
  | [] => Ok tt
  | w :: ws => _ ← f w; each f ws
  end.

(** ** [validation.rs] *)
Definition is_ok {E A} (r : res E A) : bool := match r with Ok _ => true | _ => false end.
Definition closes (w : option BufferedWrite) : bool :=
  match w with
  | Some (DeleteNode _ _ _) | Some (RetractNode _ _ _) | Some (DeleteEdge _ _ _) | Some (RetractEdge _ _ _) => true
  | _ => false
  end.
Definition validation_failed {A} : res Error A := Err (ETransaction ValidationFailed).

Definition node_exists (t : WriteTransaction) (c : CurStore.CurrentStorage) (n : NodeId) : res Error bool :=
  if has_modified_node (buffer t) n
  then w ← get_node_write (buffer t) n; Ok (negb (closes w))
  else Ok (is_ok (CurStore.get_node n c)).

Definition validate_write (t : WriteTransaction) (c : CurStore.CurrentStorage) (w : BufferedWrite) : res Error unit :=
  match w with
  | CreateEdge e _ source target _ _ _ _ | UpdateEdge e _ source target _ _ _ _ =>
      last ← get_edge_write (buffer t) e;
      if closes last then Ok tt
      else
        src ← node_exists t c source;
        if negb src then validation_failed
        else
          dst ← node_exists t c target;
          if negb dst then validation_failed else Ok tt
  | _ => Ok tt
  end.
Definition validate (t : WriteTransaction) (c : CurStore.CurrentStorage) : res Error unit := each (validate_write t c) (operations (buffer t)).

(** ** [conflict.rs] *)
Definition head_of (c : CurStore.CurrentStorage) (target : CasTarget) : option VersionId :=
  match target with
  | TNode n => match CurStore.get_node n c with Ok node => Some (n_current_version node) | _ => None end
  | TEdge e => match CurStore.get_edge e c with Ok edge => Some (e_current_version edge) | _ => None end
  end.
Definition cas_mismatch (p : CasPrecondition) (actual : option VersionId) : Error :=
  ETransaction (CasMismatch (expected_version p) actual).
(** The pre-lock fast path: pure compare-and-set only. *)
Fixpoint reject_stale_cas (c : CurStore.CurrentStorage) (ps : list CasPrecondition) : res Error unit :=
  match ps with
  | [] => Ok tt
  | p :: ps =>
      match lease p with
      | Some _ => reject_stale_cas c ps
      | None =>
          let actual := head_of c (target p) in
          if bool_decide (actual <> Some (expected_version p)) then Err (cas_mismatch p actual)
          else reject_stale_cas c ps
      end
  end.

Definition created_nodes (ws : list BufferedWrite) : gset NodeId :=
  list_to_set (omap (fun w => match w with CreateNode n _ _ _ _ _ => Some n | _ => None end) ws).
Definition created_edges (ws : list BufferedWrite) : gset EdgeId :=
  list_to_set (omap (fun w => match w with CreateEdge e _ _ _ _ _ _ _ => Some e | _ => None end) ws).
Definition cas_target_nodes (t : WriteTransaction) : gset NodeId :=
  list_to_set (omap (fun p => match target p with TNode n => Some n | TEdge _ => None end) (cas_preconditions t)).
Definition cas_target_edges (t : WriteTransaction) : gset EdgeId :=
  list_to_set (omap (fun p => match target p with TEdge e => Some e | TNode _ => None end) (cas_preconditions t)).

(** Was the version committed after the snapshot?  [missing] is the answer for an
    entity that is no longer there. *)
Definition conflict_with (t : WriteTransaction) (missing : res Error unit) (r : res Error VersionMetadata) : res Error unit :=
  match r with
  | Ok m => match commit_timestamp m with
            | Some commit_ts =>
                if ts_ltb (Visibility.snapshot_timestamp (snapshot t)) commit_ts then Err (ETransaction SerializationFailure) else Ok tt
            | None => Ok tt
            end
  | _ => missing
  end.
Definition node_meta (c : CurStore.CurrentStorage) (n : NodeId) : res Error VersionMetadata := node ← CurStore.get_node n c; Ok (n_metadata node).
Definition edge_meta (c : CurStore.CurrentStorage) (e : EdgeId) : res Error VersionMetadata := edge ← CurStore.get_edge e c; Ok (e_metadata edge).
Definition serialization_failure : res Error unit := Err (ETransaction SerializationFailure).
Definition conflict_of (t : WriteTransaction) (c : CurStore.CurrentStorage) (w : BufferedWrite) : res Error unit :=
  let ws := operations (buffer t) in
  match w with
  | UpdateNode n _ _ _ _ _ =>
      if bool_decide (n ∈ created_nodes ws) || bool_decide (n ∈ cas_target_nodes t) then Ok tt
      else conflict_with t serialization_failure (node_meta c n)
  | UpdateEdge e _ _ _ _ _ _ _ =>
      if bool_decide (e ∈ created_edges ws) || bool_decide (e ∈ cas_target_edges t) then Ok tt
      else conflict_with t serialization_failure (edge_meta c e)
  | DeleteNode n _ _ => if bool_decide (n ∈ created_nodes ws) then Ok tt else conflict_with t (Ok tt) (node_meta c n)
  | DeleteEdge e _ _ => if bool_decide (e ∈ created_edges ws) then Ok tt else conflict_with t (Ok tt) (edge_meta c e)
  | RetractNode n _ _ => if bool_decide (n ∈ created_nodes ws) then Ok tt else conflict_with t serialization_failure (node_meta c n)
  | RetractEdge e _ _ => if bool_decide (e ∈ created_edges ws) then Ok tt else conflict_with t serialization_failure (edge_meta c e)
  | _ => Ok tt
  end.
Definition detect_conflicts (t : WriteTransaction) (c : CurStore.CurrentStorage) : res Error unit :=
  _ ← reject_stale_cas c (cas_preconditions t);
  each (conflict_of t c) (operations (buffer t)).

(** ** Closing version ids *)
Definition num_closing (ws : list BufferedWrite) : nat := length (List.filter (fun w => closes (Some w)) ws).
Fixpoint next_version_ids (n : nat) : M (list VersionId) :=
  match n with
  | O => mret []
  | S n => id ← Db.next_version_id; ids ← next_version_ids n; mret (id :: ids)
  end.
Definition pregenerate_closing_version_ids (t : WriteTransaction) : M (list VersionId) :=
  next_version_ids (num_closing (operations (buffer t))).

(** ** The commit timestamp *)
Definition advance_clock (env : Environment) : M HybridTimestamp := fun d =>
  let frontier := Db.current_timestamp d in
  let adaptive_forward_limit_us := saturate i64_min i64_max (Hlc.MAX_FORWARD_JUMP_US + elapsed_us env) in
  let r := decision ← map_err (fun v => ETransaction (ClockSkew (wall env) (wallclock frontier) (Hlc.v_drift_us v) (Hlc.v_max_allowed v)))
                        (Hlc.evaluate_clock_skew (wall env) (wallclock frontier) (Some adaptive_forward_limit_us) (self_heal_clock_skew env));
           Hlc.send_with_overflow_self_heal frontier (Hlc.effective_wallclock decision) (self_heal_clock_skew env)
             (fun _ => ETransaction CommitFailed) in
  (match r with Ok commit => Db.set_timestamp commit d | _ => d end, r).

(** ** The guards under the lock: [apply.rs], [cas.rs] *)
Definition closed_edges (ws : list BufferedWrite) : gset EdgeId :=
  list_to_set (omap (fun w => match w with DeleteEdge e _ _ | RetractEdge e _ _ => Some e | _ => None end) ws).
(** Is the edge one that a transaction unknown to this one committed? *)
Definition concurrent_edge (t : WriteTransaction) (c : CurStore.CurrentStorage) (e : EdgeId) : bool :=
  match edge_meta c e with
  | Ok m => match commit_timestamp m with
            | Some commit_ts => ts_ltb (Visibility.snapshot_timestamp (snapshot t)) commit_ts
            | None => false
            end
  | _ => false
  end.
Definition orphans (t : WriteTransaction) (c : CurStore.CurrentStorage) (w : BufferedWrite) : res Error unit :=
  match w with
  | DeleteNode n _ _ | RetractNode n _ _ =>
      out ← no_error (CurStore.get_outgoing_edges n c);
      inc ← no_error (CurStore.get_incoming_edges n c);
      if existsb (fun e => negb (bool_decide (e ∈ closed_edges (operations (buffer t)))) && concurrent_edge t c e)
           (sorted_ids (out ++ inc))
      then validation_failed else Ok tt
  | _ => Ok tt
  end.
Definition detect_delete_orphan_write_skew (t : WriteTransaction) (c : CurStore.CurrentStorage) : res Error unit :=
  each (orphans t c) (operations (buffer t)).

Definition endpoint_present (t : WriteTransaction) (c : CurStore.CurrentStorage) (n : NodeId) : res Error bool :=
  if has_modified_node (buffer t) n
  then w ← get_node_write (buffer t) n;
       Ok (match w with Some (CreateNode _ _ _ _ _ _) | Some (UpdateNode _ _ _ _ _ _) => true | _ => false end)
  else Ok (is_ok (CurStore.get_node n c)).
Definition dangles (t : WriteTransaction) (c : CurStore.CurrentStorage) (w : BufferedWrite) : res Error unit :=
  match w with
  | CreateEdge e _ source target _ _ _ _ =>
      last ← get_edge_write (buffer t) e;
      if closes last then Ok tt
      else
        src ← endpoint_present t c source;
        if negb src then validation_failed
        else
          dst ← endpoint_present t c target;
          if negb dst then validation_failed else Ok tt
  | _ => Ok tt
  end.
Definition detect_create_edge_dangling_endpoint (t : WriteTransaction) (c : CurStore.CurrentStorage) : res Error unit :=
  each (dangles t c) (operations (buffer t)).

Section Interned.
Context {St : Type} `{Interner St}.
(** The interner of strings; a commit only reads it. *)
Variable it : St.

Definition int_property (c : CurStore.CurrentStorage) (n : NodeId) (key : bytes) : option Z :=
  match CurStore.get_node n c with
  | Ok node => match PropMap.get it (n_properties node) key with Some (PInt z) => Some z | _ => None end
  | _ => None
  end.
Definition lease_until_expired_at (until_us : option Z) (commit_wallclock : Z) : bool :=
  match until_us with Some until_us => until_us <=? commit_wallclock | None => true end.
Definition node_lease_expired (c : CurStore.CurrentStorage) (n : NodeId) (lease_until_key : bytes) (commit_timestamp : HybridTimestamp) : bool :=
  is_ok (CurStore.get_node n c) &&
  lease_until_expired_at (int_property c n lease_until_key) (wallclock commit_timestamp).
Definition node_stored_fence (c : CurStore.CurrentStorage) (n : NodeId) (fence_key : bytes) : Z := default i64_min (int_property c n fence_key).
Definition fence_beats_stored (new_fence stored : Z) : bool := stored <? new_fence.

Definition check_fence (c : CurStore.CurrentStorage) (n : NodeId) (f : option FenceCondition) : res Error unit :=
  match f with
  | Some f =>
      let stored := node_stored_fence c n (fence_key f) in
      if negb (fence_beats_stored (new_fence f) stored)
      then Err (ETransaction (FenceTooLow (fence_key f) (new_fence f) stored)) else Ok tt
  | None => Ok tt
  end.
Definition check_precondition (commit_timestamp : HybridTimestamp) (c : CurStore.CurrentStorage) (p : CasPrecondition) : res Error unit :=
  let actual := head_of c (target p) in
  match target p with
  | TNode n =>
      let claim_ok := bool_decide (actual = Some (expected_version p)) ||
                      match lease p with
                      | Some l => node_lease_expired c n (lease_until_key l) commit_timestamp
                      | None => false
                      end in
      if negb claim_ok then Err (cas_mismatch p actual) else check_fence c n (fence p)
  | TEdge e => if bool_decide (actual = Some (expected_version p)) then Ok tt else Err (cas_mismatch p actual)
  end.
Fixpoint check_preconditions (commit_timestamp : HybridTimestamp) (c : CurStore.CurrentStorage) (ps : list CasPrecondition) : res Error unit :=
  match ps with
  | [] => Ok tt
  | p :: ps => _ ← check_precondition commit_timestamp c p; check_preconditions commit_timestamp c ps
  end.
Definition detect_cas_precondition_violations (t : WriteTransaction) (commit_timestamp : HybridTimestamp) (c : CurStore.CurrentStorage) : res Error unit :=
  check_preconditions commit_timestamp c (cas_preconditions t).

(** ** Logging *)
Variable crc32 : bytes -> Z.
Definition log_operations (t : WriteTransaction) (env : Environment) (commit_timestamp : HybridTimestamp)
    (closing_version_ids : list VersionId) : M unit := fun d =>
  match TxLog.log_operations_to_wal crc32 it (Db.allocator d) (entry_times env) (tx_id t) (operations (buffer t))
          commit_timestamp closing_version_ids with
  | (a, Ok entries) => (Db.set_log a (Db.log d ++ entries) d, Ok tt)
  | (a, Err e) => (Db.set_log a (Db.log d) d, Err e)
  | (a, Panic) => (Db.set_log a (Db.log d) d, Panic)
  end.

(** ** [apply.rs] *)
Variable ptr_eq : PropertyValue -> PropertyValue -> bool.
Variable map_ptr_eq : PropertyMap -> PropertyMap -> bool.
Variable config : History.Config.
Variable pre_anchor_hooks : Z -> HybridTimestamp -> PropertyMap -> option Z.

Definition create_temporal_interval (valid_from tx_time : HybridTimestamp) (is_tombstone : bool) : res Error BiTemporalInterval :=
  History.temporal_err
    (t ← BiTemporal.with_valid_time valid_from tx_time;
     if is_tombstone then BiTemporal.close_valid_time t valid_from else Ok t).

Definition structural_id : M VersionId :=
  id ← Db.next_version_id; lift (map_err EStorage (Id.structural id)).
Definition when_some {A} (o : option A) : M (option VersionId) :=
  match o with Some _ => id ← structural_id; mret (Some id) | None => mret None end.
Definition allocate_structural_ids (plan : Slices.UpdatePlan) : M (option VersionId * option VersionId) :=
  carry_id ← when_some (Slices.carry_from plan);
  reassert_id ← when_some (Slices.reassert plan);
  mret (carry_id, reassert_id).

(** The insertions into the temporal index, one by one. *)
Fixpoint index_appended {X} (e : EntityId) (vs : list (VersionId * BiTemporalInterval)) : SM (History.Store X * TIdx.TemporalIndexes) Error unit :=
  match vs with
  | [] => mret tt
  | (vid, t) :: vs =>
      _ ← (fun '(s, ix) => let '(ix, r) := TIdx.insert_version e vid t ix in ((s, ix), r));
      index_appended e vs
  end.

(** [apply_node_write]; the vector indexes are not part of the model. *)
Definition apply_node_write (t : WriteTransaction) (is_create : bool) (id : NodeId) (version_id : VersionId) (label : Z)
    (properties : PropertyMap) (valid_from commit : HybridTimestamp) (prov : option Provenance) : M unit :=
  let metadata := uncommitted (tx_id t) in
  if is_create then
    _ ← Db.on_current (CurStore.insert_node_direct it (mkNode id label properties version_id metadata));
    _ ← Db.on_nodes (IxHist.add_version_with_provenance it ptr_eq map_ptr_eq config pre_anchor_hooks ENode id version_id
                       valid_from commit label tt properties false prov);
    temporal ← lift (create_temporal_interval valid_from commit false);
    Db.on_nodes (index_appended (ENode id) [(version_id, temporal)])
  else
    d ← Db.get_db;
    let plan := Slices.plan_entity_update (Db.node_history d) id valid_from in
    '(carry_id, reassert_id) ← allocate_structural_ids plan;
    applied ← Db.on_nodes (IxHist.apply_update it ptr_eq map_ptr_eq config pre_anchor_hooks ENode id plan valid_from commit
                             version_id label tt properties prov carry_id reassert_id);
    let node := match Slices.reasserted applied with
                | Some (head_id, head_label, head_properties) => mkNode id head_label head_properties head_id metadata
                | None => mkNode id label properties version_id metadata
                end in
    _ ← Db.on_current (CurStore.update_node_direct it node);
    Db.on_nodes (index_appended (ENode id) (Slices.appended applied)).

Definition apply_edge_write (t : WriteTransaction) (is_create : bool) (id : EdgeId) (version_id : VersionId)
    (source target : NodeId) (label : Z) (properties : PropertyMap) (valid_from commit : HybridTimestamp)
    (prov : option Provenance) : M unit :=
  let metadata := uncommitted (tx_id t) in
  if is_create then
    _ ← Db.on_current (CurStore.insert_edge_direct it (mkEdge id label source target properties version_id metadata));
    _ ← Db.on_edges (IxHist.add_version_with_provenance it ptr_eq map_ptr_eq config pre_anchor_hooks EEdge id version_id
                       valid_from commit label (source, target) properties false prov);
    temporal ← lift (create_temporal_interval valid_from commit false);
    Db.on_edges (index_appended (EEdge id) [(version_id, temporal)])
  else
    d ← Db.get_db;
    let plan := Slices.plan_entity_update (Db.edge_history d) id valid_from in
    '(carry_id, reassert_id) ← allocate_structural_ids plan;
    applied ← Db.on_edges (IxHist.apply_update it ptr_eq map_ptr_eq config pre_anchor_hooks EEdge id plan valid_from commit
                             version_id label (source, target) properties prov carry_id reassert_id);
    let edge := match Slices.reasserted applied with
                | Some (head_id, head_label, head_properties) => mkEdge id head_label source target head_properties head_id metadata
                | None => mkEdge id label source target properties version_id metadata
                end in
    _ ← Db.on_current (CurStore.update_edge_direct it edge);
    Db.on_edges (index_appended (EEdge id) (Slices.appended applied)).

Definition apply_node_delete (id : NodeId) (valid_from commit : HybridTimestamp) (tombstone_id : VersionId) (prov : option Provenance) : M unit :=
  d ← Db.get_db;
  node ← lift (CurStore.get_node id (Db.current d));
  _ ← Db.on_nodes (IxHist.close_all_slices ENode id commit);
  tombstone_temporal ← lift (create_temporal_interval valid_from commit true);
  _ ← Db.on_nodes (IxHist.add_version_with_provenance it ptr_eq map_ptr_eq config pre_anchor_hooks ENode id tombstone_id
                     valid_from commit (n_label node) tt (n_properties node) true prov);
  _ ← Db.on_nodes (index_appended (ENode id) [(tombstone_id, tombstone_temporal)]);
  Db.on_current (CurStore.delete_node_direct it id).
Definition apply_edge_delete (id : EdgeId) (valid_from commit : HybridTimestamp) (tombstone_id : VersionId) (prov : option Provenance) : M unit :=
  d ← Db.get_db;
  edge ← lift (CurStore.get_edge id (Db.current d));
  _ ← Db.on_edges (IxHist.close_all_slices EEdge id commit);
  tombstone_temporal ← lift (create_temporal_interval valid_from commit true);
  _ ← Db.on_edges (IxHist.add_version_with_provenance it ptr_eq map_ptr_eq config pre_anchor_hooks EEdge id tombstone_id
                     valid_from commit (e_label edge) (e_source edge, e_target edge) (e_properties edge) true prov);
  _ ← Db.on_edges (index_appended (EEdge id) [(tombstone_id, tombstone_temporal)]);
  Db.on_current (CurStore.delete_edge_direct it id).

(** The start of the head's valid time, and its closing. *)
Definition retracted_from {X} (h : History.Store X) (e : Z) (commit : HybridTimestamp) : HybridTimestamp :=
  from_option (fun i => start (valid_time i)) commit (head_interval h e).
Definition close_head {X} (ent : Z -> EntityId) (head : option VersionId) (commit : HybridTimestamp) :
    SM (History.Store X * TIdx.TemporalIndexes) Error unit :=
  match head with Some vid => IxHist.close_version_transaction_time ent vid commit | None => mret tt end.
Definition retraction_interval (valid_from commit valid_to : HybridTimestamp) : res Error BiTemporalInterval :=
  History.temporal_err (t ← BiTemporal.with_valid_time valid_from commit; BiTemporal.close_valid_time t valid_to).

Definition apply_node_retract (id : NodeId) (valid_to commit : HybridTimestamp) (retraction_version_id : VersionId)
    (prov : option Provenance) : M unit :=
  d ← Db.get_db;
  node ← lift (CurStore.get_node id (Db.current d));
  let valid_from := retracted_from (Db.node_history d) id commit in
  _ ← Db.on_nodes (close_head ENode (IxHist.get_current_version (Db.node_history d) id) commit);
  _ ← Db.on_nodes (IxHist.add_retracted_version_with_provenance it ptr_eq map_ptr_eq config pre_anchor_hooks ENode id
                     retraction_version_id valid_from valid_to commit (n_label node) tt (n_properties node) prov);
  temporal ← lift (retraction_interval valid_from commit valid_to);
  _ ← Db.on_nodes (index_appended (ENode id) [(retraction_version_id, temporal)]);
  Db.on_current (CurStore.delete_node_direct it id).
Definition apply_edge_retract (id : EdgeId) (valid_to commit : HybridTimestamp) (retraction_version_id : VersionId)
    (prov : option Provenance) : M unit :=
  d ← Db.get_db;
  edge ← lift (CurStore.get_edge id (Db.current d));
  let valid_from := retracted_from (Db.edge_history d) id commit in
  _ ← Db.on_edges (close_head EEdge (IxHist.get_current_version (Db.edge_history d) id) commit);
  _ ← Db.on_edges (IxHist.add_retracted_version_with_provenance it ptr_eq map_ptr_eq config pre_anchor_hooks EEdge id
                     retraction_version_id valid_from valid_to commit (e_label edge) (e_source edge, e_target edge)
                     (e_properties edge) prov);
  temporal ← lift (retraction_interval valid_from commit valid_to);
  _ ← Db.on_edges (index_appended (EEdge id) [(retraction_version_id, temporal)]);
  Db.on_current (CurStore.delete_edge_direct it id).

(** [tombstone_ids.next()] *)
Definition next_tombstone (ids : list VersionId) : res Error (VersionId * list VersionId) :=
  match ids with [] => Err (EStorage InconsistentState) | id :: ids => Ok (id, ids) end.
Definition apply_single_write (t : WriteTransaction) (w : BufferedWrite) (commit : HybridTimestamp) (tombstone_ids : list VersionId) :
    M (list VersionId) :=
  match w with
  | CreateNode n v l p vf pr => _ ← apply_node_write t true n v l p vf commit pr; mret tombstone_ids
  | UpdateNode n v l p vf pr => _ ← apply_node_write t false n v l p vf commit pr; mret tombstone_ids
  | CreateEdge e v s d l p vf pr => _ ← apply_edge_write t true e v s d l p vf commit pr; mret tombstone_ids
  | UpdateEdge e v s d l p vf pr => _ ← apply_edge_write t false e v s d l p vf commit pr; mret tombstone_ids
  | DeleteNode n vf pr => '(id, ids) ← lift (next_tombstone tombstone_ids); _ ← apply_node_delete n vf commit id pr; mret ids
  | DeleteEdge e vf pr => '(id, ids) ← lift (next_tombstone tombstone_ids); _ ← apply_edge_delete e vf commit id pr; mret ids
  | RetractNode n vt pr => '(id, ids) ← lift (next_tombstone tombstone_ids); _ ← apply_node_retract n vt commit id pr; mret ids
  | RetractEdge e vt pr => '(id, ids) ← lift (next_tombstone tombstone_ids); _ ← apply_edge_retract e vt commit id pr; mret ids
  end.
Fixpoint apply_writes (t : WriteTransaction) (ws : list BufferedWrite) (commit : HybridTimestamp) (tombstone_ids : list VersionId) :
    M unit :=
  match ws with
  | [] => mret tt
  | w :: ws => ids ← apply_single_write t w commit tombstone_ids; apply_writes t ws commit ids
  end.
Definition apply_changes (t : WriteTransaction) (commit : HybridTimestamp) (closing_version_ids : list VersionId) : M unit :=
  _ ← lift (History.temporal_err (BiTemporal.current commit));
  apply_writes t (operations (buffer t)) commit closing_version_ids.

(** [finalize_current_commit_timestamps] *)
Definition finalize_write (commit : HybridTimestamp) (c : CurStore.CurrentStorage) (w : BufferedWrite) : CurStore.CurrentStorage :=
  match w with
  | CreateNode n _ _ _ _ _ | UpdateNode n _ _ _ _ _ => CurStore.set_node_commit_timestamp n commit c
  | CreateEdge e _ _ _ _ _ _ _ | UpdateEdge e _ _ _ _ _ _ _ => CurStore.set_edge_commit_timestamp e commit c
  | _ => c
  end.
Definition finalize_current_commit_timestamps (t : WriteTransaction) (commit : HybridTimestamp) : M unit :=
  Db.on_current (fun c => (foldl (finalize_write commit) c (operations (buffer t)), Ok tt)).

(** ** The commit *)

(** Before the lock is taken. *)
Definition prepare (t : WriteTransaction) : M (list VersionId) :=
  _ ← guard (validate t);
  _ ← guard (detect_conflicts t);
  pregenerate_closing_version_ids t.

(** Under the lock: the timestamp, the guards, the log, the stores. *)
Definition guards (t : WriteTransaction) (commit : HybridTimestamp) : M unit :=
  _ ← guard (detect_delete_orphan_write_skew t);
  _ ← guard (detect_create_edge_dangling_endpoint t);
  guard (detect_cas_precondition_violations t commit).
Definition locked (t : WriteTransaction) (env : Environment) (closing_version_ids : list VersionId) : M HybridTimestamp :=
  commit ← advance_clock env;
  _ ← guards t commit;
  _ ← log_operations t env commit closing_version_ids;
  _ ← apply_changes t commit closing_version_ids;
  _ ← finalize_current_commit_timestamps t commit;
  mret commit.

Definition with_visibility (f : Visibility.TxVisibilityManager -> Visibility.TxVisibilityManager) : M unit := fun d =>
  (Db.set_visibility (f (Db.visibility_manager d)) d, Ok tt).
(** [Drop for WriteTransaction] on a transaction that did not reach [Committed]. *)
Definition abort (t : WriteTransaction) (d : Db.Db) : Db.Db :=
  Db.set_visibility (Visibility.register_abort (tx_id t) (Db.visibility_manager d)) d.
Definition drop_unless_ok {A} (t : WriteTransaction) (m : M A) : M A := fun d =>
  match m d with (d, Ok a) => (d, Ok a) | (d, r) => (abort t d, r) end.

(** [commit_with_timestamp], with the [Drop] of the transaction it consumes. *)
Definition commit_with_timestamp (t : WriteTransaction) (env : Environment) : M HybridTimestamp :=
  match state t with
  | Active =>
      drop_unless_ok t
        (closing_version_ids ← prepare t;
         commit ← locked t env closing_version_ids;
         _ ← with_visibility (Visibility.register_commit (tx_id t));
         mret commit)
  | Preparing => fun d => (abort t d, Err (ETransaction InvalidState))
  | _ => lift (Err (ETransaction InvalidState))
  end.
End Interned.

(** [AletheiaDB::write_transaction]; the timestamp is what [snapshot_for_read] gave. *)
Definition write_transaction (tx_id : TxId) (snapshot_timestamp now : HybridTimestamp) : M WriteTransaction :=
  _ ← with_visibility (Visibility.register_active tx_id);
  d ← Db.get_db;
  mret (Tx.new tx_id now (Visibility.capture_snapshot snapshot_timestamp (Db.visibility_manager d))).
End Commit.
