(* ===== verification/CommitLaws.v ===== *)
(** * What a commit guarantees

    Every step of a commit is classified by the parts of the database it leaves alone;
    the order of logging and applying ([write_ahead]) and the effect of a successful
    commit on the live graph ([commit_effect]) follow. *)

From S2P Require Import Prelude.
From S2P Require Import Bytes.
From S2P Require Import Errors.
From S2P Require Import Hlc.
From S2P Require Import Temporal.
From S2P Require Import Ids.
From S2P Require Import Interning.
From S2P Require Import Property.
From S2P Require Import PropMap.
From S2P Require Import Provenance.
From S2P Require Import Delta.
From S2P Require Import History.
From S2P Require Import Slices.
From S2P Require Import HistoryFacts.
From S2P Require Import Wal.
From S2P Require Import TxFrames.
From S2P Require Import TemporalIndex.
From S2P Require Import Csr.
From S2P Require Import CurrentIndex.
From S2P Require Import CurrentLaws.
From S2P Require Import CurrentStore.
From S2P Require Import IndexedHistory.
From S2P Require Import Transactions.
From S2P Require Import Commit.

(** ** Frames: what a step leaves alone *)
Section Frames.
Import Db.

Definition same_stores d d' : Prop :=
  current d' = current d /\ node_history d' = node_history d /\ edge_history d' = edge_history d /\
  temporal_indexes d' = temporal_indexes d.
Definition same_log d d' : Prop :=
  log d' = log d /\ allocator d' = allocator d /\ current_timestamp d' = current_timestamp d /\
  visibility_manager d' = visibility_manager d.
Definition same_graph d d' : Prop := current d' = current d /\ same_log d d'.

#[local] Instance same_stores_refl : Reflexive same_stores. Proof. by intros d. Qed.
#[local] Instance same_stores_trans : Transitive same_stores.
Proof. intros a b c (?&?&?&?) (?&?&?&?). split_and!; congruence. Qed.
#[local] Instance same_log_refl : Reflexive same_log. Proof. by intros d. Qed.
#[local] Instance same_log_trans : Transitive same_log.
Proof. intros a b c (?&?&?&?) (?&?&?&?). split_and!; congruence. Qed.
#[local] Instance same_graph_refl : Reflexive same_graph. Proof. by intros d. Qed.
#[local] Instance same_graph_trans : Transitive same_graph.
Proof. intros a b c [? ?] [? ?]. split; [congruence|by etrans]. Qed.

Lemma on_nodes_graph {A} (m : SM _ Error A) : moves same_graph (on_nodes m).
Proof. intros d. unfold on_nodes. by destruct (m _) as [[h ix] r]. Qed.
Lemma on_edges_graph {A} (m : SM _ Error A) : moves same_graph (on_edges m).
Proof. intros d. unfold on_edges. by destruct (m _) as [[h ix] r]. Qed.
Lemma next_version_graph : moves same_graph next_version_id.
Proof. intros d. unfold next_version_id. by destruct (Id.next _) as [g r]. Qed.
Lemma next_version_stores : moves same_stores next_version_id.
Proof. intros d. unfold next_version_id. by destruct (Id.next _) as [g r]. Qed.
Lemma on_current_log {A} (m : SM _ Error A) : moves same_log (on_current m).
Proof. intros d. unfold on_current. by destruct (m _) as [c r]. Qed.
Lemma graph_log {A} (m : M A) : moves same_graph m -> moves same_log m.
Proof. intros Hm d. apply Hm. Qed.
Lemma guard_same R `{!Reflexive R} g : moves R (Commit.guard g).
Proof. intros d. simpl. done. Qed.
End Frames.
#[export] Hint Resolve on_nodes_graph on_edges_graph next_version_graph next_version_stores on_current_log : frames.
#[export] Hint Extern 1 (moves same_log _) => (apply graph_log; solve [auto with frames nocore]) : frames.

#[global] Existing Instances same_stores_refl same_stores_trans same_log_refl same_log_trans same_graph_refl same_graph_trans.

(** Walks a computation: binds, returns, lifted results, then the hints. *)
Ltac frame := repeat match goal with
  | |- moves _ (mbind _ _) => apply moves_bind; [typeclasses eauto|..|intros ?]
  | |- moves _ (mret _) => apply moves_ret; typeclasses eauto
  | |- moves _ (lift _) => apply moves_lift; typeclasses eauto
  | |- moves _ Db.get_db => intros ?; reflexivity
  | |- moves _ (Commit.guard _) => apply guard_same; typeclasses eauto
  | |- moves _ (match ?x with _ => _ end) => destruct x
  | |- moves _ (let '(_, _) := ?x in _) => destruct x
  | |- _ => solve [auto with frames nocore]
  end.

Section CommitFrames.
Import Commit Tx WriteBuf.
Context {St : Type} `{Interner St}.
Variable it : St.
Variable crc32 : bytes -> Z.
Variable ptr_eq : PropertyValue -> PropertyValue -> bool.
Variable map_ptr_eq : PropMap.PropertyMap -> PropMap.PropertyMap -> bool.
Variable config : History.Config.
Variable pre_anchor_hooks : Z -> HybridTimestamp -> PropMap.PropertyMap -> option Z.
Abbreviation apply_writes := (apply_writes it ptr_eq map_ptr_eq config pre_anchor_hooks).
Abbreviation apply_single_write := (apply_single_write it ptr_eq map_ptr_eq config pre_anchor_hooks).

Lemma ids_same R `{!Reflexive R, !Transitive R} n : moves R Db.next_version_id -> moves R (next_version_ids n).
Proof. intros Hn. induction n as [|n IH]; simpl; frame. Qed.

Lemma structural_graph : moves same_graph structural_id.
Proof. unfold structural_id. frame. Qed.
Lemma when_some_graph {A} (o : option A) : moves same_graph (when_some o).
Proof. destruct o; simpl; [|frame]. apply moves_bind; [typeclasses eauto|apply structural_graph|intros ?; frame]. Qed.
Lemma allocate_graph plan : moves same_graph (allocate_structural_ids plan).
Proof. unfold allocate_structural_ids. repeat (apply moves_bind; [typeclasses eauto|apply when_some_graph|intros ?]). frame. Qed.
#[local] Hint Resolve allocate_graph : frames.

Lemma single_log t w c ids : moves same_log (apply_single_write t w c ids).
Proof.
  destruct w; simpl; unfold apply_node_write, apply_edge_write, apply_node_delete, apply_edge_delete, apply_node_retract, apply_edge_retract; frame.
Qed.
Lemma writes_log t ws c : forall ids, moves same_log (apply_writes t ws c ids).
Proof.
  induction ws as [|w ws IH]; intros ids; simpl; [frame|]. apply moves_bind; [typeclasses eauto|apply single_log|exact IH].
Qed.
Lemma prepare_same t : moves (fun d d' => same_stores d d' /\ same_log d d') (prepare t).
Proof.
  assert (Hs : forall R : Db.Db -> Db.Db -> Prop, Reflexive R -> Transitive R -> moves R Db.next_version_id -> moves R (prepare t)).
  { intros R ?? Hn. unfold prepare. frame. by apply ids_same. }
  intros d. split.
  - apply Hs; [typeclasses eauto..|apply next_version_stores].
  - apply Hs; [typeclasses eauto..|apply graph_log, next_version_graph].
Qed.
Lemma guards_same t c d : (guards it t c d).1 = d.
Proof.
  unfold guards, mbind, sm_bind, guard. destruct (detect_delete_orphan_write_skew t _); try done.
  by destruct (detect_create_edge_dangling_endpoint t _).
Qed.

(** The frame of the transaction was logged at [c], after every check had passed. *)
Record logged (t : WriteTransaction) (env : Environment) d d' (c : HybridTimestamp) : Prop := {
  lg_active : state t = Active;
  lg_later : (Db.current_timestamp d < c)%ts;
  lg_stamp : Db.current_timestamp d' = c;
  lg_valid : validate t (Db.current d) = Ok tt;
  lg_conflict : detect_conflicts t (Db.current d) = Ok tt;
  lg_orphan : detect_delete_orphan_write_skew t (Db.current d) = Ok tt;
  lg_dangling : detect_create_edge_dangling_endpoint t (Db.current d) = Ok tt;
  lg_cas : detect_cas_precondition_violations it t c (Db.current d) = Ok tt;
  lg_frame : exists closing a entries,
    TxLog.log_operations_to_wal crc32 it (Db.allocator d) (entry_times env) (tx_id t) (operations (buffer t)) c closing = (a, Ok entries) /\
    Db.log d' = Db.log d ++ entries /\ Db.allocator d' = a }.

Lemma guards_inv t c d d' : guards it t c d = (d', Ok tt) ->
  d' = d /\ detect_delete_orphan_write_skew t (Db.current d) = Ok tt /\
  detect_create_edge_dangling_endpoint t (Db.current d) = Ok tt /\
  detect_cas_precondition_violations it t c (Db.current d) = Ok tt.
Proof.
  unfold guards, mbind, sm_bind, guard. destruct (detect_delete_orphan_write_skew t _) as [[]|e|]; try done.
  destruct (detect_create_edge_dangling_endpoint t _) as [[]|e|]; try done. by intros [= <- ->].
Qed.
Lemma prepare_inv t d d' ids : prepare t d = (d', Ok ids) ->
  validate t (Db.current d) = Ok tt /\ detect_conflicts t (Db.current d) = Ok tt /\
  pregenerate_closing_version_ids t d = (d', Ok ids).
Proof.
  unfold prepare, mbind at 1 2, sm_bind, guard. destruct (validate t _) as [[]|e|]; try done.
  by destruct (detect_conflicts t _) as [[]|e|].
Qed.
Lemma self_heal_lt {E} f w heal (g : Hlc.SendWithSelfHealError -> E) t' :
  ts_wf f -> in_i64 w -> Hlc.send_with_overflow_self_heal f w heal g = Ok t' -> ts_wf t' /\ (f < t')%ts.
Proof.
  intros Hf Hw. unfold Hlc.send_with_overflow_self_heal. destruct (Hlc.send f w) as [t1|e|] eqn:E1; [|destruct e; try done|done].
  - intros [= <-]. by apply send_lt in E1 as (? & ? & _).
  - destruct heal; [|done]. intros (w' & Hw' & H2%map_err_ok)%bind_ok.
    destruct (i64_checked_add _ 1) as [z|] eqn:Ez; [|done]. injection Hw' as ->. apply checked_some in Ez as [-> Hi].
    by apply send_lt in H2 as (? & ? & _).
Qed.
Lemma skew_effective w f lim heal dec :
  Hlc.evaluate_clock_skew w f lim heal = Ok dec -> Hlc.effective_wallclock dec = w \/ Hlc.effective_wallclock dec = f.
Proof.
  unfold Hlc.evaluate_clock_skew. intros ([eff h] & H1 & ([eff' h'] & H2 & [= <-])%bind_ok)%bind_ok. simpl.
  repeat case_match; simplify_eq; auto.
Qed.
Lemma advance_inv env d d' c :
  ts_wf (Db.current_timestamp d) -> in_i64 (wall env) -> advance_clock env d = (d', Ok c) ->
  d' = Db.set_timestamp c d /\ ts_wf c /\ (Db.current_timestamp d < c)%ts.
Proof.
  intros Hf Hw. unfold advance_clock. intros [= <- E]. rewrite E. split; [done|].
  apply bind_ok in E as (dec & Hd%map_err_ok & E). eapply self_heal_lt; [done| |exact E].
  destruct (skew_effective _ _ _ _ _ Hd) as [->| ->]; [done|apply Hf].
Qed.

Abbreviation locked := (locked it crc32 ptr_eq map_ptr_eq config pre_anchor_hooks).
Abbreviation commit_with_timestamp := (commit_with_timestamp it crc32 ptr_eq map_ptr_eq config pre_anchor_hooks).

Lemma finalize_log t c : moves same_log (finalize_current_commit_timestamps t c).
Proof. unfold finalize_current_commit_timestamps. frame. Qed.
Lemma apply_log t c ids : moves same_log (apply_changes it ptr_eq map_ptr_eq config pre_anchor_hooks t c ids).
Proof. unfold apply_changes. frame. apply writes_log. Qed.

(** The locked part ends before the frame is logged, or after. *)
Lemma locked_cases t env ids d d' r :
  ts_wf (Db.current_timestamp d) -> in_i64 (wall env) -> locked t env ids d = (d', r) ->
  (same_stores d d' /\ Db.log d' = Db.log d /\ forall c, r <> Ok c) \/
  exists c a entries d1,
    (Db.current_timestamp d < c)%ts /\ guards it t c (Db.set_timestamp c d) = (Db.set_timestamp c d, Ok tt) /\
    TxLog.log_operations_to_wal crc32 it (Db.allocator d) (entry_times env) (tx_id t) (operations (buffer t)) c ids = (a, Ok entries) /\
    d1 = Db.set_log a (Db.log d ++ entries) (Db.set_timestamp c d) /\ same_log d1 d' /\
    (forall c', r = Ok c' -> c' = c /\ exists d2,
       apply_changes it ptr_eq map_ptr_eq config pre_anchor_hooks t c ids d1 = (d2, Ok tt) /\
       finalize_current_commit_timestamps t c d2 = (d', Ok tt)).
Proof.
  intros Hf Hw. unfold locked, mbind at 1, sm_bind. destruct (advance_clock env d) as [d1 [c|e|]] eqn:Ea; cycle 1.
  { intros [= <- <-]. left. unfold advance_clock in Ea. injection Ea as <- Er. rewrite Er. by split_and!. }
  { intros [= <- <-]. left. unfold advance_clock in Ea. injection Ea as <- Er. rewrite Er. by split_and!. }
  apply advance_inv in Ea as (-> & Hc & Hlt); [|done..]. unfold mbind at 1, sm_bind.
  destruct (guards it t c (Db.set_timestamp c d)) as [d2 rg] eqn:Eg. pose proof (guards_same t c (Db.set_timestamp c d)) as Hd2.
  rewrite Eg in Hd2. simpl in Hd2. subst d2. destruct rg as [[]|e|]; [|intros [= <- <-]; left; by split_and!..].
  unfold mbind at 1, sm_bind. unfold log_operations at 1. simpl Db.allocator.
  destruct (TxLog.log_operations_to_wal _ _ _ _ _ _ _ _) as [a [entries|e|]] eqn:El; [|intros [= <- <-]; left; by split_and!..].
  intros Hr. right. exists c, a, entries. eexists. split; [done|]. split; [done|]. split; [done|]. split; [done|].
  revert Hr. set (d1 := Db.set_log _ _ _). unfold mbind at 1, sm_bind. pose proof (apply_log t c ids d1) as H1.
  destruct (apply_changes _ _ _ _ _ t c ids d1) as [d2 [[]|e|]] eqn:E2; simpl in H1; [|intros [= <- <-]; by split..].
  pose proof (finalize_log t c d2) as H3. unfold mbind at 1, sm_bind.
  destruct (finalize_current_commit_timestamps t c d2) as [d3 [[]|e|]] eqn:E3; simpl in H3;
    intros [= <- <-]; (split; [by etrans|]); intros c' [= <-]. split; [done|]. by exists d2.
Qed.

(** C5: Write-ahead order: whatever a commit returns, either nothing it touches is
    changed, nothing is logged and it failed, or every check held on the state it
    found, and the frame with all its writes went to the log, at one timestamp above
    every earlier commit, before anything else changed. *)
Theorem write_ahead t env d d' r :
  ts_wf (Db.current_timestamp d) -> in_i64 (wall env) -> commit_with_timestamp t env d = (d', r) ->
  (same_stores d d' /\ Db.log d' = Db.log d /\ forall c, r <> Ok c) \/
  exists c, logged t env d d' c /\ forall c', r = Ok c' -> c' = c.
Proof.
  intros Hf Hw. unfold commit_with_timestamp. destruct (state t) eqn:Es; [|intros [= <- <-]; left; by split_and!..].
  unfold drop_unless_ok, mbind at 1, sm_bind. pose proof (prepare_same t d) as Hp.
  destruct (prepare t d) as [d1 [ids|e|]] eqn:E1; simpl in Hp; destruct Hp as [Hs (Hl & Hal & Ht & _)];
    [|intros [= <- <-]; left; by split_and!..].
  apply prepare_inv in E1 as (Hv & Hc & _). unfold mbind at 1, sm_bind.
  destruct (locked t env ids d1) as [d2 r2] eqn:E2. apply locked_cases in E2; [|by rewrite Ht|done].
  destruct E2 as [(Hs2 & Hl2 & Hn)|(c & a & entries & d3 & Hlt & Hg & Hlog & -> & (H1 & H2 & H3 & _) & Hok)].
  - intros Hr. left. assert (same_stores d d2) by (by etrans). destruct r2 as [c|e|]; [by destruct (Hn c)|..]; injection Hr as <- <-;
      (split; [done|]); simpl; (split; [congruence|done]).
  - intros Hr. right. exists c. assert (Hd' : Db.current_timestamp d' = c /\ Db.log d' = Db.log d ++ entries /\ Db.allocator d' = a /\ forall c', r = Ok c' -> c' = c).
    { simpl in *. rewrite Hl in H1. destruct r2 as [c2|e|]; simpl in Hr; injection Hr as <- <-; simpl; split_and!; try done.
      intros c' [= <-]. by apply (Hok c2). }
    destruct Hd' as (Ht' & Hl' & Ha' & Hr'). split; [|done].
    apply guards_inv in Hg as (_ & Ho & Hd & Hcas). simpl in *. destruct Hs as (Hcur & _). rewrite Hcur in *. rewrite Ht in Hlt. rewrite Hal in Hlog.
    split; try done. exists ids, a, entries. by split_and!.
Qed.
End CommitFrames.
