(* ===== verification/CommitEffect.v ===== *)
(** * The effect of a commit on the live graph

    The writes of a buffer, applied and stamped, are a sequence of the graph operations
    of [GraphSpec]; the last write of each entity decides what is left of it. *)

From S2P Require Import Prelude.
From S2P Require Import Bytes.
From S2P Require Import Errors.
From S2P Require Import Hlc.
From S2P Require Import Temporal.
From S2P Require Import Ids.
From S2P Require Import Interning.
From S2P Require Import Property.
From S2P Require Import PropMap.
From S2P Require Import Namespaces.
From S2P Require Import Provenance.
From S2P Require Import Delta.
From S2P Require Import History.
From S2P Require Import Slices.
From S2P Require Import HistoryFacts.
From S2P Require Import TxFrames.
From S2P Require Import TemporalIndex.
From S2P Require Import Csr.
From S2P Require Import CurrentIndex.
From S2P Require Import CurrentLaws.
From S2P Require Import CurrentStore.
From S2P Require Import IndexedHistory.
From S2P Require Import Transactions.
From S2P Require Import Commit.
From S2P Require Import CommitLaws.

Section Maps.
Import Graph CurIdx GraphSpec.
Context {St : Type} `{Interner St} (st : St) (sort : list Csr.row -> list Csr.row).
Implicit Types x : CurrentIndexes.

(** The two maps of a state follow the specification whatever is written. *)
Definition same_maps (g : GraphState) x : Prop := nodes x = g_nodes g /\ edges x = g_edges g.

Lemma foldl_maps {A} (f : CurrentIndexes -> A -> CurrentIndexes) l : forall x,
  (forall y a, nodes (f y a) = nodes y /\ edges (f y a) = edges y) ->
  nodes (foldl f x l) = nodes x /\ edges (foldl f x l) = edges x.
Proof.
  induction l as [|a l IH]; intros x Hf; simpl; [done|]. destruct (IH (f x a) Hf) as [-> ->]. apply Hf.
Qed.
Lemma reindex_maps (id : NodeId) old_label old_props label props x :
  nodes (reindex_node_property id old_label old_props label props x) = nodes x /\
  edges (reindex_node_property id old_label old_props label props x) = edges x.
Proof. apply foldl_maps. intros y [l k]. unfold reindex_pair. repeat case_match; done. Qed.

Lemma insert_node_maps n x :
  nodes (insert_node st n x) = <[n_id n := n]> (nodes x) /\ edges (insert_node st n x) = edges x.
Proof.
  unfold insert_node. destruct (Ns.intern_namespace _ _) as [i id]. cbn [set_ns_nodes set_headers nodes edges].
  case_bool_decide; simpl; [done|]. by split; rewrite ?(proj1 (reindex_maps _ _ _ _ _ _)), ?(proj2 (reindex_maps _ _ _ _ _ _)).
Qed.
Lemma insert_edge_maps e x :
  nodes (insert_edge st e x) = nodes x /\ edges (insert_edge st e x) = <[e_id e := e]> (edges x).
Proof. unfold insert_edge. destruct (edges x !! e_id e); [done|]. by destruct (Ns.intern_namespace _ _). Qed.
Lemma remove_node_maps (id : NodeId) x :
  nodes (remove_node st id x).1 = delete id (nodes x) /\ edges (remove_node st id x).1 = edges x.
Proof.
  unfold remove_node. destruct (nodes x !! id) as [n|] eqn:E; [|simpl; by rewrite delete_id].
  destruct (Ns.intern_namespace _ _) as [i ns]. simpl.
  match goal with |- nodes (foldl ?f ?y ?l) = _ /\ _ => destruct (foldl_maps f l y) as [-> ->] end; [|done].
  intros y a. by repeat case_match.
Qed.
Lemma remove_edge_maps (id : EdgeId) x :
  nodes (remove_edge st id x).1 = nodes x /\ edges (remove_edge st id x).1 = delete id (edges x).
Proof.
  unfold remove_edge. destruct (edges x !! id) as [n|] eqn:E; [|simpl; by rewrite delete_id]. by destruct (Ns.intern_namespace _ _).
Qed.

Lemma apply_maps o g x x' : same_maps g x -> apply st sort o x = Ok x' -> same_maps (spec_step g o) x'.
Proof.
  intros [Hn He]. unfold same_maps. destruct o; cbn [apply spec_step g_nodes g_edges].
  - intros [= <-]. destruct (insert_node_maps n x) as [-> ->]. by rewrite Hn, He.
  - intros [= <-]. destruct (insert_edge_maps e x) as [-> ->]. by rewrite Hn, He.
  - intros [= <-]. destruct (remove_node_maps id x) as [-> ->]. by rewrite Hn, He.
  - intros [= <-]. destruct (remove_edge_maps id x) as [-> ->]. by rewrite Hn, He.
  - intros [= <-]. unfold with_node_mut. rewrite Hn. destruct (g_nodes g !! id) as [n|] eqn:E; simpl.
    + split; [|done]. by rewrite (alter_insert_Some _ _ _ _ E).
    + rewrite <- Hn in *. by rewrite (alter_none _ _ _ E).
  - intros [= <-]. unfold with_edge_mut. rewrite He. destruct (g_edges g !! id) as [n|] eqn:E; simpl.
    + split; [done|]. by rewrite (alter_insert_Some _ _ _ _ E).
    + rewrite <- He in *. by rewrite (alter_none _ _ _ E).
  - intros [= <-]. unfold enable_property_index. by case_match.
  - intros [= <-]. unfold disable_property_index. by case_match.
  - unfold compact_adjacency. by intros (o & _ & (i & _ & [= <-])%bind_ok)%bind_ok.
Qed.
Lemma run_maps os : forall g x x', same_maps g x -> run st sort os x = Ok x' -> same_maps (run_spec g os) x'.
Proof.
  induction os as [|o os IH]; intros g x x' Hg; simpl; [by intros [= <-]|].
  intros (x1 & H1 & H2)%bind_ok. eapply IH; [|exact H2]. by eapply apply_maps.
Qed.
Lemma run_ops_app os1 os2 x x1 x2 : run st sort os1 x = Ok x1 -> run st sort os2 x1 = Ok x2 -> run st sort (os1 ++ os2) x = Ok x2.
Proof.
  revert x. induction os1 as [|o os IH]; intros x; simpl; [by intros [= ->]|].
  intros (y & H1 & H2)%bind_ok H3. rewrite H1. simpl. by apply IH.
Qed.
End Maps.

Lemma structural_ok seq id : Id.structural seq = Ok id -> Id.is_structural id = true.
Proof.
  unfold Id.structural, Id.new_version. case_goal; [done|]. intros [= <-].
  by rewrite is_structural_testbit, Z.lor_spec, orb_true_r.
Qed.

(** Splits a successful computation at its first bind. *)
Lemma ret_inv {S E A} (a b : A) (s s' : S) : mret (M := SM S E) a s = (s', Ok b) -> s' = s /\ b = a.
Proof. by intros [= <- <-]. Qed.
Lemma lift_inv {S E A} (r : res E A) (a : A) (s s' : S) : lift r s = (s', Ok a) -> s' = s /\ r = Ok a.
Proof. by intros [= <- ->]. Qed.
Ltac split_bind H := apply sm_bind_inv in H as (? & ? & ? & H).
Ltac split_binds := repeat match goal with
  | H : mbind _ _ _ = (_, Ok _) |- _ => split_bind H
  | H : mret _ _ = (_, Ok _) |- _ => apply ret_inv in H as [-> ?]
  | H : lift _ _ = (_, Ok _) |- _ => apply lift_inv in H as [-> H]
  | H : (let '(_, _) := ?x in _) _ = (_, Ok _) |- _ => destruct x
  end; simplify_eq/=.

Lemma last_write_in key k (ws : list WriteBuf.BufferedWrite) w : last_write key k ws = Some w -> w ∈ ws /\ key w = Some k.
Proof. unfold last_write. intros [? Hw]%last_Some. assert (Hi : w ∈ filter (fun w => key w = Some k) ws) by (rewrite Hw; set_solver). by apply list_elem_of_filter in Hi as [??]. Qed.

Lemma last_write_none key k (ws : list WriteBuf.BufferedWrite) w : last_write key k ws = None -> w ∈ ws -> key w <> Some k.
Proof.
  unfold last_write. intros Hl%last_None Hw Hk. assert (Hi : w ∈ filter (fun w => key w = Some k) ws) by (by apply list_elem_of_filter).
  rewrite Hl in Hi. by apply not_elem_of_nil in Hi.
Qed.

Section Effect.
Import Commit Tx WriteBuf Graph CurIdx GraphSpec.
Context {St : Type} `{Interner St}.
Variable it : St.
Variable sort : list Csr.row -> list Csr.row.
Variable crc32 : bytes -> Z.
Variable ptr_eq : PropertyValue -> PropertyValue -> bool.
Variable map_ptr_eq : PropMap.PropertyMap -> PropMap.PropertyMap -> bool.
Variable config : History.Config.
Variable pre_anchor_hooks : Z -> HybridTimestamp -> PropMap.PropertyMap -> option Z.
Abbreviation apply_writes := (apply_writes it ptr_eq map_ptr_eq config pre_anchor_hooks).
Abbreviation apply_single_write := (apply_single_write it ptr_eq map_ptr_eq config pre_anchor_hooks).

Definition graph d : CurrentIndexes := CurStore.indexes (Db.current d).

(** The graph operation a buffered write amounts to.  An update that belongs before the
    head of its entity leaves the head in place, under a structural version. *)
Inductive written (t : WriteTransaction) : BufferedWrite -> op -> Prop :=
  | W_create_node n v l p vf pr : written t (CreateNode n v l p vf pr) (InsertNode (mkNode n l p v (uncommitted (tx_id t))))
  | W_update_node n v l p vf pr : written t (UpdateNode n v l p vf pr) (InsertNode (mkNode n l p v (uncommitted (tx_id t))))
  | W_backfill_node n v l p vf pr v' l' p' : Id.is_structural v' = true ->
      written t (UpdateNode n v l p vf pr) (InsertNode (mkNode n l' p' v' (uncommitted (tx_id t))))
  | W_delete_node n vf pr : written t (DeleteNode n vf pr) (RemoveNode n)
  | W_retract_node n vt pr : written t (RetractNode n vt pr) (RemoveNode n)
  | W_create_edge e v s d l p vf pr : written t (CreateEdge e v s d l p vf pr) (InsertEdge (mkEdge e l s d p v (uncommitted (tx_id t))))
  | W_update_edge e v s d l p vf pr : written t (UpdateEdge e v s d l p vf pr) (InsertEdge (mkEdge e l s d p v (uncommitted (tx_id t))))
  | W_backfill_edge e v s d l p vf pr v' l' p' : Id.is_structural v' = true ->
      written t (UpdateEdge e v s d l p vf pr) (InsertEdge (mkEdge e l' s d p' v' (uncommitted (tx_id t))))
  | W_delete_edge e vf pr : written t (DeleteEdge e vf pr) (RemoveEdge e)
  | W_retract_edge e vt pr : written t (RetractEdge e vt pr) (RemoveEdge e).

Lemma on_current_inv {A} (m : SM _ Error A) d d' a :
  Db.on_current m d = (d', Ok a) -> m (Db.current d) = (Db.current d', Ok a).
Proof. unfold Db.on_current. destruct (m (Db.current d)) as [c r]. by intros [= <- ->]. Qed.
Lemma graph_moves {A} (m : SM Db.Db Error A) d d' a : moves same_graph m -> m d = (d', Ok a) -> graph d' = graph d.
Proof. intros Hm E. specialize (Hm d). rewrite E in Hm. unfold graph. destruct Hm as [Hm _]. simpl in Hm. by rewrite Hm. Qed.

Lemma when_some_structural {A} (o : option A) d d' id : when_some o d = (d', Ok (Some id)) -> Id.is_structural id = true.
Proof.
  destruct o; [|done]. simpl. unfold structural_id. intros Hm. split_binds.
  match goal with Hs : map_err _ _ = Ok _ |- _ => apply map_err_ok in Hs; by eapply structural_ok end.
Qed.
Lemma on_store_inv {X A} (m : SM (History.Store X) Error A) s s' a :
  IxHist.on_store m s = (s', Ok a) -> m s.1 = (s'.1, Ok a) /\ s'.2 = s.2.
Proof. destruct s as [h ix]. simpl. destruct (m h) as [h' r]. by intros [= <- ->]. Qed.
Lemma update_reassert_id {X} ent (e : Z) plan vf c vid lbl (en : X) props prov o1 o2 s s' a id l p :
  IxHist.apply_update it ptr_eq map_ptr_eq config pre_anchor_hooks ent e plan vf c vid lbl en props prov o1 o2 s = (s', Ok a) ->
  Slices.reasserted a = Some (id, l, p) -> o2 = Some id.
Proof.
  unfold IxHist.apply_update. intros Hm Hr. split_binds.
  match goal with Hg : IxHist.on_store (Slices.gather_reassert _ _ _ _) _ = _ |- _ => apply on_store_inv in Hg as [Hg _] end.
  match goal with Ha : IxHist.append_reassert _ _ _ _ _ _ _ _ _ ?re _ = _ |- _ => unfold IxHist.append_reassert in Ha; destruct re as [[[[[? ?] ?] ?] ?]|]; [|done] end.
  match goal with Hg : Slices.gather_reassert _ _ _ _ _ = _ |- _ => apply (gather_reassert_id it config) in Hg end.
  by split_binds.
Qed.

(** The steps of a write on the live graph. *)
Lemma insert_node_step n d d' u : Db.on_current (CurStore.insert_node_direct it n) d = (d', Ok u) -> graph d' = insert_node it n (graph d).
Proof. intros [= E]%on_current_inv. unfold graph. by rewrite <- E. Qed.
Lemma update_node_step n d d' u : Db.on_current (CurStore.update_node_direct it n) d = (d', Ok u) -> graph d' = insert_node it n (graph d).
Proof. intros [= E]%on_current_inv. unfold graph. by rewrite <- E. Qed.
Lemma insert_edge_step e d d' u : Db.on_current (CurStore.insert_edge_direct it e) d = (d', Ok u) -> graph d' = insert_edge it e (graph d).
Proof. intros [= E]%on_current_inv. unfold graph. by rewrite <- E. Qed.
Lemma update_edge_step e d d' u : Db.on_current (CurStore.update_edge_direct it e) d = (d', Ok u) -> graph d' = insert_edge it e (graph d).
Proof. intros [= E]%on_current_inv. unfold graph. by rewrite <- E. Qed.
Lemma delete_node_step (n : NodeId) d d' u : Db.on_current (CurStore.delete_node_direct it n) d = (d', Ok u) -> graph d' = (remove_node it n (graph d)).1.
Proof.
  intros E%on_current_inv. unfold graph, CurStore.delete_node_direct, CurStore.delete_node, mbind, sm_bind in *.
  destruct (remove_node it n _) as [ix [r|]]; [|done]. injection E as <-. done.
Qed.
Lemma delete_edge_step (n : EdgeId) d d' u : Db.on_current (CurStore.delete_edge_direct it n) d = (d', Ok u) -> graph d' = (remove_edge it n (graph d)).1.
Proof.
  intros E%on_current_inv. unfold graph, CurStore.delete_edge_direct, CurStore.delete_edge, mbind, sm_bind in *.
  destruct (remove_edge it n _) as [ix [r|]]; [|done]. injection E as <-. done.
Qed.

(** Splits a write into its steps and composes their effects on the live graph. *)
Ltac step_graph H lem := let E := fresh "Eg" in pose proof H as E; apply graph_moves in E; [|lem]; revert H.
Ltac graph_steps := split_binds; repeat match goal with
  | H : Db.get_db _ = (_, Ok _) |- _ => injection H as <- <-
  | H : Db.on_nodes _ _ = (_, Ok _) |- _ => step_graph H ltac:(apply on_nodes_graph)
  | H : Db.on_edges _ _ = (_, Ok _) |- _ => step_graph H ltac:(apply on_edges_graph)
  | H : allocate_structural_ids _ _ = (_, Ok _) |- _ => step_graph H ltac:(apply allocate_graph)
  | H : Db.on_current (CurStore.insert_node_direct _ _) _ = _ |- _ => apply insert_node_step in H
  | H : Db.on_current (CurStore.update_node_direct _ _) _ = _ |- _ => apply update_node_step in H
  | H : Db.on_current (CurStore.insert_edge_direct _ _) _ = _ |- _ => apply insert_edge_step in H
  | H : Db.on_current (CurStore.update_edge_direct _ _) _ = _ |- _ => apply update_edge_step in H
  | H : Db.on_current (CurStore.delete_node_direct _ _) _ = _ |- _ => apply delete_node_step in H
  | H : Db.on_current (CurStore.delete_edge_direct _ _) _ = _ |- _ => apply delete_edge_step in H
  end; intros.
Ltac same_graph_now := repeat match goal with E : graph ?d = _ |- context [graph ?d] => rewrite E; clear E end; try done.

Lemma allocated_structural plan d d' o1 o2 : allocate_structural_ids plan d = (d', Ok (o1, o2)) ->
  forall id, o2 = Some id -> Id.is_structural id = true.
Proof.
  unfold allocate_structural_ids. intros Hm id ->. split_binds.
  by match goal with Hw : when_some (Slices.reassert _) _ = _ |- _ => apply when_some_structural in Hw end.
Qed.

Lemma on_nodes_inv {A} (m : SM _ Error A) d d' a : Db.on_nodes m d = (d', Ok a) -> exists s, m (Db.node_history d, Db.temporal_indexes d) = (s, Ok a).
Proof. unfold Db.on_nodes. destruct (m _) as [[h ix] r]. intros [= <- ->]. by exists (h, ix). Qed.
Lemma on_edges_inv {A} (m : SM _ Error A) d d' a : Db.on_edges m d = (d', Ok a) -> exists s, m (Db.edge_history d, Db.temporal_indexes d) = (s, Ok a).
Proof. unfold Db.on_edges. destruct (m _) as [[h ix] r]. intros [= <- ->]. by exists (h, ix). Qed.

(** What is left at the head by a write: what it says, or the head it belongs before. *)
Definition head_after (create : bool) (said left_ : Z * PropMap.PropertyMap * VersionId) : Prop :=
  left_ = said \/ create = false /\ Id.is_structural left_.2 = true.

Lemma node_write_effect t create n v l p vf c pr d d' u :
  apply_node_write it ptr_eq map_ptr_eq config pre_anchor_hooks t create n v l p vf c pr d = (d', Ok u) ->
  exists l' p' v', graph d' = insert_node it (mkNode n l' p' v' (uncommitted (tx_id t))) (graph d) /\ head_after create (l, p, v) (l', p', v').
Proof.
  unfold apply_node_write. destruct create; intros Hm; graph_steps.
  - exists l, p, v. split; [same_graph_now|by left].
  - match goal with Ha : Db.on_nodes (IxHist.apply_update _ _ _ _ _ _ _ _ _ _ _ _ _ _ _ ?o1 ?o2) _ = (_, Ok ?a), Hs : allocate_structural_ids _ _ = _ |- _ =>
      apply on_nodes_inv in Ha as [s Ha]; destruct (Slices.reasserted a) as [[[v' l'] p']|] eqn:Er;
      [exists l', p', v'; split; [same_graph_now|right; split; [done|]]|exists l, p, v; split; [same_graph_now|by left]];
      apply (allocated_structural _ _ _ _ _ Hs); by eapply update_reassert_id
    end.
Qed.
Lemma edge_write_effect t create e v s0 d0 l p vf c pr d d' u :
  apply_edge_write it ptr_eq map_ptr_eq config pre_anchor_hooks t create e v s0 d0 l p vf c pr d = (d', Ok u) ->
  exists l' p' v', graph d' = insert_edge it (mkEdge e l' s0 d0 p' v' (uncommitted (tx_id t))) (graph d) /\ head_after create (l, p, v) (l', p', v').
Proof.
  unfold apply_edge_write. destruct create; intros Hm; graph_steps.
  - exists l, p, v. split; [same_graph_now|by left].
  - match goal with Ha : Db.on_edges (IxHist.apply_update _ _ _ _ _ _ _ _ _ _ _ _ _ _ _ ?o1 ?o2) _ = (_, Ok ?a), Hs : allocate_structural_ids _ _ = _ |- _ =>
      apply on_edges_inv in Ha as [s Ha]; destruct (Slices.reasserted a) as [[[v' l'] p']|] eqn:Er;
      [exists l', p', v'; split; [same_graph_now|right; split; [done|]]|exists l, p, v; split; [same_graph_now|by left]];
      apply (allocated_structural _ _ _ _ _ Hs); by eapply update_reassert_id
    end.
Qed.

Lemma single_written t w c ids d d' ids' : apply_single_write t w c ids d = (d', Ok ids') ->
  exists o, written t w o /\ apply it sort o (graph d) = Ok (graph d').
Proof.
  destruct w; unfold Commit.apply_single_write, apply_node_delete, apply_edge_delete, apply_node_retract, apply_edge_retract; intros Hm.
  all: try (split_bind Hm; apply ret_inv in Hm as [-> _];
    match goal with Hw : _ = (_, Ok _) |- _ => first [apply node_write_effect in Hw|apply edge_write_effect in Hw];
      destruct Hw as (l' & p' & v' & Hg & [[= -> -> ->]|[? Hs]]); try done end;
    eexists; (split; [by constructor|simpl; by rewrite Hg])).
  all: graph_steps; eexists; split; [by constructor|simpl; f_equal; symmetry; same_graph_now].
Qed.

(** The graph operations a whole buffer amounts to, applied and then stamped. *)
Lemma writes_written t ws c : forall ids d d', apply_writes t ws c ids d = (d', Ok tt) ->
  exists os, Forall2 (written t) ws os /\ run it sort os (graph d) = Ok (graph d').
Proof.
  induction ws as [|w ws IH]; intros ids d d'; cbn [Commit.apply_writes].
  - intros [-> _]%ret_inv. exists []. by split.
  - intros Hm. split_bind Hm. match goal with Hw : _ = (_, Ok _) |- _ => apply single_written in Hw as (o & Ho & Hg) end.
    apply IH in Hm as (os & Hos & Hr). exists (o :: os). split; [by constructor|]. simpl. by rewrite Hg.
Qed.

Definition stamp_of (c : HybridTimestamp) (w : BufferedWrite) : option op :=
  match w with
  | CreateNode n _ _ _ _ _ | UpdateNode n _ _ _ _ _ => Some (StampNode n c)
  | CreateEdge e _ _ _ _ _ _ _ | UpdateEdge e _ _ _ _ _ _ _ => Some (StampEdge e c)
  | _ => None
  end.
Lemma finalize_run t c d d' : finalize_current_commit_timestamps t c d = (d', Ok tt) ->
  run it sort (omap (stamp_of c) (operations (buffer t))) (graph d) = Ok (graph d').
Proof.
  unfold finalize_current_commit_timestamps. intros [= E]%on_current_inv. unfold graph. rewrite <- E. generalize (Db.current d). clear.
  induction (operations (buffer t)) as [|w ws IH]; intros cu; simpl; [done|].
  destruct w; simpl; by rewrite <- IH.
Qed.

(** Committed by [t] at [c]. *)
Definition committed (t : WriteTransaction) (c : HybridTimestamp) : VersionMetadata := mkMeta (tx_id t) (Some c).
(** What a node or edge is after a commit, by the last write to it: as written, or
    gone; an update that belongs before the head leaves a head under a structural
    version. *)
Definition node_after t (c : HybridTimestamp) (w : BufferedWrite) (r : option Node) : Prop :=
  match w with
  | CreateNode n v l p _ _ => r = Some (mkNode n l p v (committed t c))
  | UpdateNode n v l p _ _ => exists l' p' v', r = Some (mkNode n l' p' v' (committed t c)) /\ head_after false (l, p, v) (l', p', v')
  | _ => r = None
  end.
Definition edge_after t (c : HybridTimestamp) (w : BufferedWrite) (r : option Edge) : Prop :=
  match w with
  | CreateEdge e v s d l p _ _ => r = Some (mkEdge e l s d p v (committed t c))
  | UpdateEdge e v s d l p _ _ => exists l' p' v', r = Some (mkEdge e l' s d p' v' (committed t c)) /\ head_after false (l, p, v) (l', p', v')
  | _ => r = None
  end.

Section OneMap.
Context {A : Type}.
Variable proj : GraphState -> gmap Z A.
Variable key : BufferedWrite -> option Z.
Variable left_ : op -> option A.
Variable stamp : A -> A.
Variable stamp_op : Z -> op.
Variables (t : WriteTransaction) (c : HybridTimestamp).
Hypothesis step_key : forall g w o k, written t w o -> proj (spec_step g o) !! k = if decide (key w = Some k) then left_ o else proj g !! k.
Hypothesis stamp_key : forall g w o k, stamp_of c w = Some o ->
  proj (spec_step g o) !! k = proj g !! k /\ o <> stamp_op k \/ o = stamp_op k /\ key w = Some k /\ proj (spec_step g o) !! k = stamp <$> (proj g !! k).
Hypothesis stamp_twice : forall a, stamp (stamp a) = stamp a.

Lemma last_left g ws os k : Forall2 (written t) ws os ->
  match last_write key k ws with
  | None => proj (run_spec g os) !! k = proj g !! k
  | Some w => exists o, written t w o /\ proj (run_spec g os) !! k = left_ o
  end.
Proof.
  revert os. induction ws as [|w ws IH] using rev_ind; intros os Hos.
  - by apply Forall2_nil_inv_l in Hos as ->.
  - apply Forall2_app_inv_l in Hos as (os1 & os2 & H1 & (o & ? & Ho & ->%Forall2_nil_inv_l & ->)%Forall2_cons_inv_l & ->).
    rewrite last_write_snoc. unfold run_spec. rewrite foldl_app. simpl. rewrite (step_key _ w) by done. case_decide; [by exists o|].
    by apply IH.
Qed.
Lemma stamps_left g ws k :
  let r := proj (run_spec g (omap (stamp_of c) ws)) !! k in
  (r = proj g !! k /\ forall w, w ∈ ws -> stamp_of c w <> Some (stamp_op k)) \/
  (r = stamp <$> (proj g !! k) /\ last_write key k ws <> None).
Proof.
  induction ws as [|w ws IH] using rev_ind; simpl; [left; split; [done|by intros w ?%not_elem_of_nil]|].
  rewrite omap_app. unfold run_spec. rewrite foldl_app, last_write_snoc. simpl. destruct (stamp_of c w) as [o|] eqn:Eo; simpl.
  - destruct (stamp_key (run_spec g (omap (stamp_of c) ws)) w o k Eo) as [[Hs Hn]|(Hs & Hk & Hr)].
    + fold (run_spec g (omap (stamp_of c) ws)). rewrite Hs. destruct IH as [[-> Hw]|[-> Hl]]; [left|right]; (split; [done|]).
      * intros w' [?| ->%list_elem_of_singleton]%elem_of_app; [by apply Hw|congruence].
      * by case_decide.
    + right. fold (run_spec g (omap (stamp_of c) ws)). rewrite Hr, decide_True by done. split; [|done].
      destruct IH as [[-> _]|[-> _]]; [done|]. destruct (proj g !! k); simpl; [by rewrite stamp_twice|done].
  - destruct IH as [[Hr Hw]|[Hr Hl]]; [left|right]; (split; [done|]).
    + intros w' [?| ->%list_elem_of_singleton]%elem_of_app; [by apply Hw|congruence].
    + by case_decide.
Qed.
End OneMap.


Definition node_left (o : op) : option Node := match o with InsertNode n => Some n | _ => None end.
Definition edge_left (o : op) : option Edge := match o with InsertEdge e => Some e | _ => None end.
Lemma node_step g t w o (k : NodeId) : written t w o -> g_nodes (spec_step g o) !! k = if decide (node_id w = Some k) then node_left o else g_nodes g !! k.
Proof.
  intros Hw. destruct Hw; case_decide; simplify_eq/=; rewrite ?lookup_insert_eq, ?lookup_delete_eq, ?lookup_insert_ne, ?lookup_delete_ne by congruence; done.
Qed.
Lemma edge_step g t w o (k : EdgeId) : written t w o -> g_edges (spec_step g o) !! k = if decide (edge_key w = Some k) then edge_left o else g_edges g !! k.
Proof.
  intros Hw. unfold edge_key. destruct Hw; case_decide; simplify_eq/=; rewrite ?lookup_insert_eq, ?lookup_delete_eq, ?lookup_insert_ne, ?lookup_delete_ne by congruence; done.
Qed.
Lemma node_stamp c g w o (k : NodeId) : stamp_of c w = Some o ->
  g_nodes (spec_step g o) !! k = g_nodes g !! k /\ o <> StampNode k c \/
  o = StampNode k c /\ node_id w = Some k /\ g_nodes (spec_step g o) !! k = stamp_node c <$> (g_nodes g !! k).
Proof.
  destruct w; simpl; intros [= <-]; simpl; try (by left);
    (match goal with |- context [alter _ ?n _] => destruct (decide (n = k)) as [->|Hn] end;
      [right; by rewrite lookup_alter_eq|left; rewrite lookup_alter_ne by done; split; congruence]).
Qed.
Lemma edge_stamp c g w o (k : EdgeId) : stamp_of c w = Some o ->
  g_edges (spec_step g o) !! k = g_edges g !! k /\ o <> StampEdge k c \/
  o = StampEdge k c /\ edge_key w = Some k /\ g_edges (spec_step g o) !! k = stamp_edge c <$> (g_edges g !! k).
Proof.
  destruct w; simpl; intros [= <-]; simpl; try (by left);
    (match goal with |- context [alter _ ?n _] => destruct (decide (n = k)) as [->|Hn] end;
      [right; by rewrite lookup_alter_eq|left; rewrite lookup_alter_ne by done; split; congruence]).
Qed.

Lemma nodes_after t c g ws os (k : NodeId) : Forall2 (written t) ws os ->
  let r := g_nodes (run_spec g (os ++ omap (stamp_of c) ws)) !! k in
  match last_write node_id k ws with None => r = g_nodes g !! k | Some w => node_after t c w r end.
Proof.
  intros Hos r. pose proof (last_left g_nodes node_id node_left t (fun g w o k => node_step g t w o k) g ws os k Hos) as Hl.
  destruct (stamps_left g_nodes node_id (stamp_node c) (fun k => StampNode k c) c (node_stamp c) ltac:(done) (run_spec g os) ws k) as [[Hr Hw]|[Hr Hw]];
    (match type of Hr with _ = ?x => assert (E : r = x) by (subst r; unfold run_spec; rewrite foldl_app; exact Hr) end);
    clearbody r; subst r; destruct (last_write node_id k ws) as [w|] eqn:El; try done.
  - apply last_write_in in El as [Hin Hk]. specialize (Hw w Hin). destruct Hl as (o & Ho & ->).
    destruct Ho; simplify_eq/=; done.
  - apply last_write_in in El as [Hin Hk]. destruct Hl as (o & Ho & ->).
    destruct Ho; simplify_eq/=; try done; (do 3 eexists; split; [done|]; unfold head_after; auto).
Qed.
Lemma edges_after t c g ws os (k : EdgeId) : Forall2 (written t) ws os ->
  let r := g_edges (run_spec g (os ++ omap (stamp_of c) ws)) !! k in
  match last_write edge_key k ws with None => r = g_edges g !! k | Some w => edge_after t c w r end.
Proof.
  intros Hos r. pose proof (last_left g_edges edge_key edge_left t (fun g w o k => edge_step g t w o k) g ws os k Hos) as Hl.
  destruct (stamps_left g_edges edge_key (stamp_edge c) (fun k => StampEdge k c) c (edge_stamp c) ltac:(done) (run_spec g os) ws k) as [[Hr Hw]|[Hr Hw]];
    (match type of Hr with _ = ?x => assert (E : r = x) by (subst r; unfold run_spec; rewrite foldl_app; exact Hr) end);
    clearbody r; subst r; destruct (last_write edge_key k ws) as [w|] eqn:El; try done.
  - apply last_write_in in El as [Hin Hk]. specialize (Hw w Hin). destruct Hl as (o & Ho & ->).
    unfold edge_key in Hk; destruct Ho; simplify_eq/=; done.
  - apply last_write_in in El as [Hin Hk]. destruct Hl as (o & Ho & ->).
    unfold edge_key in Hk; destruct Ho; simplify_eq/=; try done; (do 3 eexists; split; [done|]; unfold head_after; auto).
Qed.

Abbreviation commit_with_timestamp := (commit_with_timestamp it crc32 ptr_eq map_ptr_eq config pre_anchor_hooks).

Lemma advance_current env : moves same_stores (advance_clock env).
Proof. intros d. unfold advance_clock. cbn [fst]. by case_match. Qed.
Lemma log_current t env c ids : moves same_stores (log_operations it crc32 t env c ids).
Proof. intros d. unfold log_operations. by destruct (TxLog.log_operations_to_wal _ _ _ _ _ _ _ _) as [a [x|e|]]. Qed.

Abbreviation locked := (locked it crc32 ptr_eq map_ptr_eq config pre_anchor_hooks).
(** The steps of what runs under the lock, when it succeeds. *)
Lemma locked_steps t env ids d d' c : locked t env ids d = (d', Ok c) ->
  exists d1 d2, Db.current d1 = Db.current d /\
    detect_delete_orphan_write_skew t (Db.current d) = Ok tt /\
    detect_create_edge_dangling_endpoint t (Db.current d) = Ok tt /\
    detect_cas_precondition_violations it t c (Db.current d) = Ok tt /\
    apply_changes it ptr_eq map_ptr_eq config pre_anchor_hooks t c ids d1 = (d2, Ok tt) /\
    finalize_current_commit_timestamps t c d2 = (d', Ok tt).
Proof.
  intros Hl. unfold Commit.locked in Hl. apply sm_bind_inv in Hl as (d1 & c1 & Ha & Hl).
  pose proof (advance_current env d) as [Hc1 _]. rewrite Ha in Hc1.
  apply sm_bind_inv in Hl as (d2 & [] & Hg & Hl). pose proof (guards_inv it t _ _ _ Hg) as (-> & Hg1 & Hg2 & Hg3).
  apply sm_bind_inv in Hl as (d3 & [] & Hw & Hl). pose proof (log_current t env c1 ids d1) as [Hc3 _]. rewrite Hw in Hc3.
  apply sm_bind_inv in Hl as (d4 & [] & Hap & Hl). apply sm_bind_inv in Hl as (d5 & [] & Hf & [-> <-]%ret_inv).
  simpl in *. exists d3, d4. rewrite Hc1 in Hg1, Hg2, Hg3. split_and!; try done; congruence.
Qed.
Lemma commit_locked t env d d' c : commit_with_timestamp t env d = (d', Ok c) ->
  exists ids d0 d1, Db.current d0 = Db.current d /\ validate t (Db.current d) = Ok tt /\ detect_conflicts t (Db.current d) = Ok tt /\
    locked t env ids d0 = (d1, Ok c) /\ Db.current d' = Db.current d1.
Proof.
  unfold Commit.commit_with_timestamp. destruct (state t); try done. unfold drop_unless_ok.
  intros Hm. match type of Hm with match ?x with _ => _ end = _ => destruct x as [dx [cx|e|]] eqn:E end; try done.
  injection Hm as -> ->.
  apply sm_bind_inv in E as (d0 & ids & Hp & E). pose proof (prepare_same t d) as [(Hc0 & _) _]. rewrite Hp in Hc0.
  apply prepare_inv in Hp as (Hv & Hd & _).
  apply sm_bind_inv in E as (d6 & c6 & Hl & E). apply sm_bind_inv in E as (d7 & u7 & [= <- <-] & [-> <-]%ret_inv).
  by exists ids, d0, d6.
Qed.
Lemma apply_changes_writes t c ids d d' : apply_changes it ptr_eq map_ptr_eq config pre_anchor_hooks t c ids d = (d', Ok tt) ->
  apply_writes t (operations (buffer t)) c ids d = (d', Ok tt).
Proof. unfold apply_changes. intros Hm. by apply sm_bind_inv in Hm as (d1 & a & [-> _]%lift_inv & Hm). Qed.

(** The effect of what runs under the lock. *)
Definition effect t c d d' : Prop :=
  let ws := operations (buffer t) in
  (exists os, Forall2 (written t) ws os /\
     run it sort (os ++ omap (stamp_of c) ws) (graph d) = Ok (graph d')) /\
  (forall n, let r := nodes (graph d') !! n in
     match last_write node_id n ws with None => r = nodes (graph d) !! n | Some w => node_after t c w r end) /\
  (forall e, let r := edges (graph d') !! e in
     match last_write edge_key e ws with None => r = edges (graph d) !! e | Some w => edge_after t c w r end).
Lemma locked_effect t env ids d d' c : locked t env ids d = (d', Ok c) -> effect t c d d'.
Proof.
  intros (d1 & d2 & Hd1 & _ & _ & _ & Ha & Hf)%locked_steps. unfold effect. set (ws := operations (buffer t)).
  apply apply_changes_writes, writes_written in Ha as (os & Hos & Hr). apply finalize_run in Hf.
  assert (Hrun : run it sort (os ++ omap (stamp_of c) ws) (graph d) = Ok (graph d')).
  { replace (graph d) with (graph d1) by (unfold graph; by rewrite Hd1). by eapply run_ops_app. }
  split; [by exists os|].
  pose proof (run_maps it sort _ (mkGraph (nodes (graph d)) (edges (graph d)) ∅ ∅) _ _ ltac:(done) Hrun) as [Hn He].
  split; [intros n; rewrite Hn|intros e; rewrite He].
  - exact (nodes_after t c (mkGraph (nodes (graph d)) (edges (graph d)) ∅ ∅) ws os n Hos).
  - exact (edges_after t c (mkGraph (nodes (graph d)) (edges (graph d)) ∅ ∅) ws os e Hos).
Qed.

Lemma commit_has_effect t env d d' c : commit_with_timestamp t env d = (d', Ok c) -> effect t c d d'.
Proof.
  intros (ids & d0 & d1 & H0 & _ & _ & Hl & H1)%commit_locked. apply locked_effect in Hl.
  unfold effect, graph in *. by rewrite H0, <- H1 in Hl.
Qed.

End Effect.
