(* ===== verification/CommitSafety.v ===== *)
(** * What a commit keeps safe

    The guards that run under the commit lock leave no write skew, and a transaction
    reads before its commit what the commit then leaves. *)

From S2P Require Import Prelude.
From S2P Require Import SliceOps.
From S2P Require Import Bytes.
From S2P Require Import Errors.
From S2P Require Import Hlc.
From S2P Require Import Temporal.
From S2P Require Import Ids.
From S2P Require Import Interning.
From S2P Require Import Property.
From S2P Require Import PropMap.
From S2P Require Import Namespaces.
From S2P Require Import Provenance.
From S2P Require Import Delta.
From S2P Require Import History.
From S2P Require Import Slices.
From S2P Require Import HistoryFacts.
From S2P Require Import TxFrames.
From S2P Require Import TemporalIndex.
From S2P Require Import Csr.
From S2P Require Import CurrentIndex.
From S2P Require Import CurrentLaws.
From S2P Require Import CurrentStore.
From S2P Require Import IndexedHistory.
From S2P Require Import Transactions.
From S2P Require Import Commit.
From S2P Require Import CommitLaws.
From S2P Require Import CommitEffect.

Section Safety.
Import Commit Tx WriteBuf Graph CurIdx GraphSpec.
Context {St : Type} `{Interner St}.
Variable it : St.
Variable sort : list Csr.row -> list Csr.row.
Context `{!Csr.RowSort sort}.
Variable crc32 : bytes -> Z.
Variable ptr_eq : PropertyValue -> PropertyValue -> bool.
Variable map_ptr_eq : PropMap.PropertyMap -> PropMap.PropertyMap -> bool.
Variable config : History.Config.
Variable pre_anchor_hooks : Z -> HybridTimestamp -> PropMap.PropertyMap -> option Z.
Abbreviation locked := (locked it crc32 ptr_eq map_ptr_eq config pre_anchor_hooks).

Lemma each_inv f ws w : each f ws = Ok tt -> w ∈ ws -> f w = Ok tt.
Proof.
  induction ws as [|v ws IH]; [by intros _ ?%not_elem_of_nil|]. simpl. intros ([] & Hv & Hws)%bind_ok [->|Hin]%elem_of_cons; [done|by apply IH].
Qed.
Lemma dedup_elem l x : x ∈ dedup l <-> x ∈ l.
Proof.
  induction l as [|a [|b l] IH]; [done..|]. simpl dedup. destruct (Z.eqb_spec a b) as [->|Hn].
  - rewrite IH. set_solver.
  - rewrite elem_of_cons, IH. by rewrite (elem_of_cons (b :: l)).
Qed.
Lemma sorted_ids_elem l x : x ∈ sorted_ids l <-> x ∈ l.
Proof. unfold sorted_ids. by rewrite dedup_elem, sort_by_perm. Qed.

(** The buffer's index finds the last write. *)
Lemma index_present f (m : gmap Z nat) ws k : indexes f m ws -> is_Some (m !! k) <-> last_write f k ws <> None.
Proof.
  intros Hn. specialize (Hn k). destruct (m !! k) as [i|].
  - destruct Hn as [<- Hi]. split; [intros _|done]. by apply lookup_lt_is_Some_2 in Hi as [w ->].
  - rewrite Hn. split; [by intros [? ?]|done].
Qed.
Lemma node_write b (n : NodeId) : buffer_wf b -> get_node_write b n = Ok (last_write node_id n (operations b)) /\
  (has_modified_node b n = true <-> last_write node_id n (operations b) <> None).
Proof.
  intros (Hn & _ & _). split; [by apply index_lookup|]. unfold has_modified_node. rewrite bool_decide_eq_true. by apply index_present.
Qed.
Lemma edge_write b (e : EdgeId) : buffer_wf b -> get_edge_write b e = Ok (last_write edge_key e (operations b)).
Proof. intros (_ & He & _). by apply index_lookup. Qed.

Lemma get_node_present (n : NodeId) c : is_ok (CurStore.get_node n c) = true -> is_Some (nodes (CurStore.indexes c) !! n).
Proof. unfold CurStore.get_node, CurIdx.get_node. by destruct (nodes _ !! n). Qed.

(** An endpoint that passes the check is there after the commit. *)
Lemma endpoint_after t c d d' (n : NodeId) b :
  buffer_wf (buffer t) -> effect it sort t c d d' -> endpoint_present t (Db.current d) n = Ok b -> b = true -> is_Some (nodes (graph d') !! n).
Proof.
  intros Hb (_ & Hn & _) He ->. specialize (Hn n). unfold endpoint_present in He. destruct (node_write _ n Hb) as [Hw Hm].
  destruct (has_modified_node (buffer t) n).
  - rewrite Hw in He. destruct (last_write _ _ _) as [w|]; [|done].
    destruct w; simpl in He, Hn; try done; first [by rewrite Hn|destruct Hn as (l' & p' & v' & E & _); exact (mk_is_Some _ _ E)].
  - destruct (last_write _ _ _) as [w|]; [assert (false = true) by (by apply Hm); done|]. injection He as He%get_node_present. destruct He as [x Hx]. exists x. by etrans.
Qed.

Definition closes_node (n : NodeId) (w : BufferedWrite) : Prop :=
  match w with DeleteNode m _ _ | RetractNode m _ _ => m = n | _ => False end.
Definition closes_edge (e : EdgeId) (w : BufferedWrite) : Prop :=
  match w with DeleteEdge f _ _ | RetractEdge f _ _ => f = e | _ => False end.
(** Committed after the snapshot of the transaction was taken. *)
Definition unseen t (m : VersionMetadata) : Prop :=
  exists ts, commit_timestamp m = Some ts /\ (Visibility.snapshot_timestamp (snapshot t) < ts)%ts.

Lemma orphan_closed t g d (n : NodeId) w (e : EdgeId) x :
  coherent it g (graph d) -> detect_delete_orphan_write_skew t (Db.current d) = Ok tt ->
  w ∈ operations (buffer t) -> closes_node n w -> edges (graph d) !! e = Some x -> n = e_source x \/ n = e_target x ->
  unseen t (e_metadata x) -> exists w', w' ∈ operations (buffer t) /\ closes_edge e w'.
Proof.
  intros C Hd Hw Hn He Hx (ts & Hts & Hlt). eapply each_inv in Hd; [|exact Hw].
  destruct (edge_ids_read it sort g (Db.current d) n C) as (out & inc & Ho & Hi & Io & Ii).
  assert (Hor : orphans t (Db.current d) w = (out' ← no_error (Ok (E := unit) out); inc' ← no_error (Ok (E := unit) inc);
    if existsb (fun e => negb (bool_decide (e ∈ closed_edges (operations (buffer t)))) && concurrent_edge t (Db.current d) e)
           (sorted_ids (out' ++ inc'))
      then validation_failed else Ok tt)) by (destruct w; simpl in Hn; subst; try done; simpl; by rewrite Ho, Hi).
  rewrite Hor in Hd. simpl in Hd. destruct (existsb _ _) eqn:E; [done|]. apply not_true_iff_false in E.
  destruct (decide (e ∈ closed_edges (operations (buffer t)))) as [Hc|Hc].
  - apply elem_of_list_to_set, list_elem_of_omap in Hc as (w' & Hw' & Hk). exists w'. split; [done|]. by destruct w'; simplify_eq/=.
  - destruct E. apply existsb_exists. exists e. split.
    + apply list_elem_of_In, sorted_ids_elem, elem_of_app. rewrite Io, Ii. destruct Hx; [left|right]; by exists x.
    + rewrite bool_decide_eq_false_2 by done. simpl. unfold concurrent_edge, edge_meta, CurStore.get_edge, CurIdx.get_edge.
      unfold graph in He. rewrite He. simpl. rewrite Hts. by apply ts_ltb_lt.
Qed.


End Safety.
