(* ===== verification/CommitHeads.v ===== *)
(** * The heads a commit leaves

    What the locked part of a commit, whether it succeeds or stops half-way, can make the
    current version of a node or edge: what it was, nothing, a version of the
    transaction's own buffer, or a structural version issued on the spot. *)

From S2P Require Import Prelude.
From S2P Require Import SliceOps.
From S2P Require Import Bytes.
From S2P Require Import Errors.
From S2P Require Import Hlc.
From S2P Require Import Temporal.
From S2P Require Import Ids.
From S2P Require Import Interning.
From S2P Require Import Property.
From S2P Require Import PropMap.
From S2P Require Import Namespaces.
From S2P Require Import Provenance.
From S2P Require Import Delta.
From S2P Require Import History.
From S2P Require Import Slices.
From S2P Require Import HistoryFacts.
From S2P Require Import TxFrames.
From S2P Require Import TemporalIndex.
From S2P Require Import Csr.
From S2P Require Import CurrentIndex.
From S2P Require Import CurrentLaws.
From S2P Require Import CurrentStore.
From S2P Require Import IndexedHistory.
From S2P Require Import Transactions.
From S2P Require Import Commit.
From S2P Require Import CommitLaws.
From S2P Require Import CommitEffect.


(** The number a version id was issued under. *)
Abbreviation seq := Id.strip_structural_tag.
Definition gen (d : Db.Db) : Z := Id.next_id (Db.version_id_gen d).

Lemma next_issue d : 0 <= gen d < 2 ^ 62 -> Db.next_version_id d = (Db.set_version_gen (Id.mkGen (gen d + 1)) d, Ok (gen d)).
Proof.
  unfold gen. intros Hd. unfold Db.next_version_id, Id.next. rewrite (proj2 (Z.ltb_ge MAX_VALID_ID _)) by mlia.
  unfold u64_wrapping_add. rewrite Z.mod_small by mlia. done.
Qed.

Section Heads.
Import Commit Tx WriteBuf Graph CurIdx GraphSpec.
Context {St : Type} `{Interner St}.
Variable it : St.
Variable crc32 : bytes -> Z.
Variable ptr_eq : PropertyValue -> PropertyValue -> bool.
Variable map_ptr_eq : PropMap.PropertyMap -> PropMap.PropertyMap -> bool.
Variable config : History.Config.
Variable pre_anchor_hooks : Z -> HybridTimestamp -> PropMap.PropertyMap -> option Z.
Abbreviation apply_writes := (apply_writes it ptr_eq map_ptr_eq config pre_anchor_hooks).
Abbreviation apply_single_write := (apply_single_write it ptr_eq map_ptr_eq config pre_anchor_hooks).
Abbreviation locked := (locked it crc32 ptr_eq map_ptr_eq config pre_anchor_hooks).

Definition head (d : Db.Db) (k : CasTarget) : option VersionId := head_of (Db.current d) k.
Definition target_of (w : BufferedWrite) : CasTarget :=
  match w with
  | CreateNode n _ _ _ _ _ | UpdateNode n _ _ _ _ _ | DeleteNode n _ _ | RetractNode n _ _ => TNode n
  | CreateEdge e _ _ _ _ _ _ _ | UpdateEdge e _ _ _ _ _ _ _ | DeleteEdge e _ _ | RetractEdge e _ _ => TEdge e
  end.
Definition version_of (w : BufferedWrite) : option VersionId :=
  match w with
  | CreateNode _ v _ _ _ _ | UpdateNode _ v _ _ _ _ | CreateEdge _ v _ _ _ _ _ _ | UpdateEdge _ v _ _ _ _ _ _ => Some v
  | _ => None
  end.

(** A head that a write may leave: none, an id at hand, or one issued since. *)
Definition renewed (ids : list VersionId) (g g' : Z) (h : option VersionId) : Prop :=
  forall v, h = Some v -> v ∈ ids \/ g <= seq v < g'.
Lemma renewed_mono ids ids' g1 g1' g g' h : ids ⊆ ids' -> g <= g1 -> g1' <= g' -> renewed ids g1 g1' h -> renewed ids' g g' h.
Proof. intros Hi H1 H2 Hr v Hv. destruct (Hr v Hv) as [?|?]; [left; by apply Hi|right; lia]. Qed.

(** [m] issues at most [n] ids and changes no head but that of [k], which it renews when
    it succeeds, if [b] says so. *)
Definition touches {A} (b : bool) (n : Z) (k : CasTarget) (ids : list VersionId) (m : SM Db.Db Error A) : Prop :=
  forall d d' r, 0 <= gen d -> gen d + n <= 2 ^ 62 -> m d = (d', r) ->
  gen d <= gen d' <= gen d + n /\
  (forall j, j <> k -> head d' j = head d j) /\
  (renewed ids (gen d) (gen d') (head d' k) \/ head d' k = head d k /\ (b = true -> forall a, r <> Ok a)).

Lemma touches_bind {A B} b1 b2 n1 n2 k ids (m : SM Db.Db Error A) (f : A -> SM Db.Db Error B) :
  0 <= n2 -> touches b1 n1 k ids m -> (forall d d' a, m d = (d', Ok a) -> touches b2 n2 k ids (f a)) ->
  touches (b1 || b2) (n1 + n2) k ids (m ≫= f).
Proof.
  intros Hn2 Hm Hf d d' r H0 Hn. unfold mbind, sm_bind. destruct (m d) as [d1 r1] eqn:E1.
  destruct (Hm d d1 r1 H0 ltac:(lia) E1) as (Hg1 & Ho1 & Hk1). destruct r1 as [a|e|].
  - intros E2. destruct (Hf _ _ _ E1 d1 d' r ltac:(lia) ltac:(lia) E2) as (Hg2 & Ho2 & Hk2). split; [lia|]. split.
    + intros j Hj. by rewrite Ho2, Ho1.
    + destruct Hk2 as [Hk2|[-> Hr]]; [left; by eapply renewed_mono; [..|exact Hk2]; try lia|].
      destruct Hk1 as [Hk1|[Hk1 Hn1]]; [left; by eapply renewed_mono; [..|exact Hk1]; try lia|].
      right. split; [done|]. destruct b1; [by destruct (Hn1 eq_refl a)|]. done.
  - intros [= <- <-]. split; [lia|]. split; [done|]. destruct Hk1 as [?|[? _]]; [by left|by right].
  - intros [= <- <-]. split; [lia|]. split; [done|]. destruct Hk1 as [?|[? _]]; [by left|by right].
Qed.

(** Steps that leave the live graph and the generator alone. *)
Definition quiet (d d' : Db.Db) : Prop := Db.current d' = Db.current d /\ Db.version_id_gen d' = Db.version_id_gen d.
#[local] Instance quiet_refl : Reflexive quiet. Proof. by intros d. Qed.
#[local] Instance quiet_trans : Transitive quiet. Proof. intros a b c [??] [??]. split; congruence. Qed.
Lemma touches_quiet {A} k ids (m : SM Db.Db Error A) : moves quiet m -> touches false 0 k ids m.
Proof.
  intros Hm d d' r H0 _ E. specialize (Hm d). rewrite E in Hm. destruct Hm as [Hc Hg]. unfold gen, head. simpl in *. rewrite Hc, Hg.
  split; [lia|]. split; [done|]. by right.
Qed.
Lemma touches_more {A} b n n' k ids ids' (m : SM Db.Db Error A) : n <= n' -> ids ⊆ ids' -> touches b n k ids m -> touches b n' k ids' m.
Proof.
  intros Hn Hi Hm d d' r H0 Hn' E. destruct (Hm d d' r H0 ltac:(lia) E) as (? & ? & Hk). split; [lia|]. split; [done|].
  destruct Hk as [Hk|Hk]; [left|by right]. by eapply renewed_mono; [..|exact Hk]; try lia.
Qed.
Lemma touches_then {A B} b n k ids (m : SM Db.Db Error A) (f : A -> SM Db.Db Error B) :
  0 <= n -> moves quiet m -> (forall d d' a, m d = (d', Ok a) -> touches b n k ids (f a)) -> touches b n k ids (m ≫= f).
Proof. intros Hn Hm Hf. apply (touches_bind false b 0 n); [done|by apply touches_quiet|done]. Qed.

(** A structural id, when one is needed, is issued for what follows. *)
Lemma touches_issue {A B} b n k ids (o : option A) (f : option VersionId -> SM Db.Db Error B) :
  0 <= n -> (forall a, touches b n k (option_list a ++ ids) (f a)) -> touches b (1 + n) k ids (when_some o ≫= f).
Proof.
  intros Hn Hf d d' r H0 Hr. destruct o as [x|]; simpl.
  - unfold structural_id, mbind, sm_bind. rewrite next_issue by lia. set (d1 := Db.set_version_gen _ d).
    assert (Hg1 : gen d1 = gen d + 1) by done. unfold lift.
    destruct (Id.structural (gen d)) as [v|e|] eqn:Es; simpl; [|intros [= <- <-]; rewrite Hg1; split; [lia|]; split; [done|]; by right..].
    intros E. destruct (Hf (Some v) d1 d' r ltac:(lia) ltac:(lia) E) as (Hg & Ho & Hk). split; [lia|]. split; [done|].
    apply structural_spec in Es as (_ & Es & _); [|mlia]. rewrite (strip_small (gen d)) in Es by lia.
    destruct Hk as [Hk|Hk]; [left|by right]. intros w Hw. destruct (Hk w Hw) as [Hi|Hi]; [|right; lia].
    simpl in Hi. apply elem_of_cons in Hi as [->|Hi]; [right; lia|by left].
  - intros E. destruct (Hf None d d' r H0 ltac:(lia) E) as (Hg & Ho & Hk). simpl in Hk. split; [lia|]. by split.
Qed.

(** ** The steps of a write *)
Lemma head_node d (n : NodeId) : head d (TNode n) = n_current_version <$> (nodes (graph d) !! n).
Proof. unfold head, head_of, CurStore.get_node, CurIdx.get_node, graph. by destruct (nodes _ !! n). Qed.
Lemma head_edge d (e : EdgeId) : head d (TEdge e) = e_current_version <$> (edges (graph d) !! e).
Proof. unfold head, head_of, CurStore.get_edge, CurIdx.get_edge, graph. by destruct (edges _ !! e). Qed.

Lemma on_current_touches (m : SM CurStore.CurrentStorage Error unit) k ids :
  (forall d d' r, Db.on_current m d = (d', r) ->
     (forall j, j <> k -> head d' j = head d j) /\ (renewed ids 0 0 (head d' k) \/ head d' k = head d k /\ forall a, r <> Ok a)) ->
  touches true 0 k ids (Db.on_current m).
Proof.
  intros Hm d d' r H0 _ E. assert (Hg : gen d' = gen d) by (unfold Db.on_current in E; destruct (m _); by injection E as <- _).
  rewrite Hg. split; [lia|]. destruct (Hm _ _ _ E) as [Ho Hk]. split; [done|]. destruct Hk as [Hk|[Hk Hr]]; [left|by right].
  intros v Hv. destruct (Hk v Hv) as [?|?]; [by left|lia].
Qed.
Lemma put_node_touches x ids : n_current_version x ∈ ids ->
  touches true 0 (TNode (n_id x)) ids (Db.on_current (CurStore.insert_node_direct it x)).
Proof.
  intros Hv. apply on_current_touches. intros d d' r [= <- <-]. destruct (insert_node_maps it x (graph d)) as [En Ee]. split.
  - intros [n|e] Hj; [rewrite !head_node; unfold graph in *; simpl; rewrite En, lookup_insert_ne by congruence|rewrite !head_edge; unfold graph in *; simpl; rewrite Ee]; done.
  - left. rewrite head_node. unfold graph in *. simpl. rewrite En, lookup_insert_eq. simpl. intros v [= <-]. by left.
Qed.
Lemma put_edge_touches x ids : e_current_version x ∈ ids ->
  touches true 0 (TEdge (e_id x)) ids (Db.on_current (CurStore.insert_edge_direct it x)).
Proof.
  intros Hv. apply on_current_touches. intros d d' r [= <- <-]. destruct (insert_edge_maps it x (graph d)) as [En Ee]. split.
  - intros [n|e] Hj; [rewrite !head_node; unfold graph in *; simpl; rewrite En|rewrite !head_edge; unfold graph in *; simpl; rewrite Ee, lookup_insert_ne by congruence]; done.
  - left. rewrite head_edge. unfold graph in *. simpl. rewrite Ee, lookup_insert_eq. simpl. intros v [= <-]. by left.
Qed.
Lemma drop_node_touches (n : NodeId) ids : touches true 0 (TNode n) ids (Db.on_current (CurStore.delete_node_direct it n)).
Proof.
  apply on_current_touches. intros d d' r E. destruct (remove_node_maps it n (graph d)) as [En Ee].
  unfold Db.on_current, CurStore.delete_node_direct, CurStore.delete_node, mbind, sm_bind in E. unfold graph in En, Ee.
  destruct (remove_node it n _) as [ix o]. simpl in En, Ee, E. assert (Hg : graph d' = ix) by (destruct o; injection E as <- _; done).
  split; [intros [m|e] Hj; [rewrite !head_node, Hg, En, lookup_delete_ne by congruence|rewrite !head_edge, Hg, Ee]; done|].
  left. rewrite head_node, Hg, En, lookup_delete_eq. done.
Qed.
Lemma drop_edge_touches (e : EdgeId) ids : touches true 0 (TEdge e) ids (Db.on_current (CurStore.delete_edge_direct it e)).
Proof.
  apply on_current_touches. intros d d' r E. destruct (remove_edge_maps it e (graph d)) as [En Ee].
  unfold Db.on_current, CurStore.delete_edge_direct, CurStore.delete_edge, mbind, sm_bind in E. unfold graph in En, Ee.
  destruct (remove_edge it e _) as [ix o]. simpl in En, Ee, E. assert (Hg : graph d' = ix) by (destruct o; injection E as <- _; done).
  split; [intros [m|f] Hj; [rewrite !head_node, Hg, En|rewrite !head_edge, Hg, Ee, lookup_delete_ne by congruence]; done|].
  left. rewrite head_edge, Hg, Ee, lookup_delete_eq. done.
Qed.

Lemma on_nodes_quiet {A} (m : SM _ Error A) : moves quiet (Db.on_nodes m).
Proof. intros d. unfold Db.on_nodes. by destruct (m _) as [[h ix] r]. Qed.
Lemma on_edges_quiet {A} (m : SM _ Error A) : moves quiet (Db.on_edges m).
Proof. intros d. unfold Db.on_edges. by destruct (m _) as [[h ix] r]. Qed.
#[local] Hint Resolve on_nodes_quiet on_edges_quiet : frames.
Ltac quiet_steps := repeat first [apply touches_quiet; solve [frame]|apply touches_then; [lia|solve [frame]|intros ???]].

Lemma touches_first {A B} b n k ids (m : SM Db.Db Error A) (f : A -> SM Db.Db Error B) :
  touches b n k ids m -> (forall a, moves quiet (f a)) -> touches b n k ids (m ≫= f).
Proof.
  intros Hm Hf. rewrite <- (orb_false_r b), <- (Z.add_0_r n). apply touches_bind; [done|done|]. intros d d' a _. apply touches_quiet, Hf.
Qed.
Lemma touches_ext {A} b n k ids (m m' : SM Db.Db Error A) : (forall d, m d = m' d) -> touches b n k ids m' -> touches b n k ids m.
Proof. intros E Hm d d' r. rewrite E. apply Hm. Qed.
Lemma touches_allocate {B} b n k ids plan (f : option VersionId * option VersionId -> SM Db.Db Error B) :
  0 <= n -> (forall o1 o2, touches b n k (option_list o2 ++ option_list o1 ++ ids) (f (o1, o2))) ->
  touches b (2 + n) k ids (allocate_structural_ids plan ≫= f).
Proof.
  intros Hn Hf. apply (touches_ext _ _ _ _ _ (o1 ← when_some (Slices.carry_from plan); o2 ← when_some (Slices.reassert plan); f (o1, o2))).
  - intros d. unfold allocate_structural_ids, mbind, sm_bind. destruct (when_some (Slices.carry_from plan) d) as [d1 [o1|e|]]; [|done..].
    by destruct (when_some (Slices.reassert plan) d1) as [d2 [o2|e|]].
  - replace (2 + n) with (1 + (1 + n)) by lia. apply touches_issue; [lia|]. intros o1. apply touches_issue; [lia|]. intros o2. apply Hf.
Qed.

Lemma node_write_touches t create n v l p vf c pr :
  touches true 2 (TNode n) [v] (apply_node_write it ptr_eq map_ptr_eq config pre_anchor_hooks t create n v l p vf c pr).
Proof.
  unfold apply_node_write. destruct create.
  - apply (touches_more _ 0 _ _ [v]); [lia|done|]. apply touches_first; [|intros a; frame]. apply (put_node_touches (mkNode n l p v _)). by left.
  - apply touches_then; [lia|intros d; reflexivity|]. intros d d' x _. apply (touches_allocate true 0); [lia|]. intros o1 o2.
    apply touches_then; [lia|frame|]. intros d1 d2 a Ha. apply on_nodes_inv in Ha as [s' Ha]. apply touches_first; [|intros u; frame].
    destruct (Slices.reasserted a) as [[[v' l'] p']|] eqn:Er; apply (put_node_touches (mkNode n _ _ _ _)); simpl; [|set_solver].
    eapply update_reassert_id in Ha; [|exact Er]; subst o2; simpl; set_solver.
Qed.
Lemma edge_write_touches t create e v s0 d0 l p vf c pr :
  touches true 2 (TEdge e) [v] (apply_edge_write it ptr_eq map_ptr_eq config pre_anchor_hooks t create e v s0 d0 l p vf c pr).
Proof.
  unfold apply_edge_write. destruct create.
  - apply (touches_more _ 0 _ _ [v]); [lia|done|]. apply touches_first; [|intros a; frame]. apply (put_edge_touches (mkEdge e l s0 d0 p v _)). by left.
  - apply touches_then; [lia|intros d; reflexivity|]. intros d d' x _. apply (touches_allocate true 0); [lia|]. intros o1 o2.
    apply touches_then; [lia|frame|]. intros d1 d2 a Ha. apply on_edges_inv in Ha as [s' Ha]. apply touches_first; [|intros u; frame].
    destruct (Slices.reasserted a) as [[[v' l'] p']|] eqn:Er; apply (put_edge_touches (mkEdge e _ s0 d0 _ _ _)); simpl; [|set_solver].
    eapply update_reassert_id in Ha; [|exact Er]; subst o2; simpl; set_solver.
Qed.

Lemma single_touches t w c ids : touches true 2 (target_of w) (option_list (version_of w)) (apply_single_write t w c ids).
Proof.
  destruct w; unfold Commit.apply_single_write, apply_node_delete, apply_edge_delete, apply_node_retract, apply_edge_retract; simpl target_of; simpl version_of; simpl option_list.
  1-4: apply touches_first; [first [apply node_write_touches|apply edge_write_touches]|intros a; frame].
  all: apply touches_then; [lia|frame|intros ? ? [id rest] _]; apply touches_first; [|intros a; frame].
  all: repeat (apply touches_then; [lia|first [intros d; reflexivity|frame]|intros ???? ]).
  all: apply (touches_more _ 0 _ _ []); [lia|done|]; first [apply drop_node_touches|apply drop_edge_touches].
Qed.

(** Each head is as before, in an entity the writes do not touch when they all succeed,
    or was renewed by one of them. *)
Definition heads_after (ws : list BufferedWrite) (done_ : Prop) d d' : Prop :=
  gen d <= gen d' <= gen d + 2 * Z.of_nat (length ws) /\
  forall k, head d' k = head d k /\ (done_ -> forall w, w ∈ ws -> target_of w <> k) \/
            renewed (omap version_of ws) (gen d) (gen d') (head d' k).
Lemma writes_heads t c ws : forall ids d d' r,
  0 <= gen d -> gen d + 2 * Z.of_nat (length ws) <= 2 ^ 62 -> apply_writes t ws c ids d = (d', r) -> heads_after ws (r = Ok tt) d d'.
Proof.
  induction ws as [|w ws IH]; intros ids d d' r H0 Hn.
  - intros [= <- <-]. split; [simpl; lia|]. intros k. left. split; [done|]. by intros _ w ?%not_elem_of_nil.
  - cbn [Commit.apply_writes length] in *. unfold mbind, sm_bind. destruct (apply_single_write t w c ids d) as [d1 r1] eqn:E1. intros E2.
    destruct (single_touches t w c ids d d1 r1 H0 ltac:(lia) E1) as (Hg1 & Ho1 & Hk1).
    assert (Hs : option_list (version_of w) ⊆ omap version_of (w :: ws)).
    { intros v Hv. apply list_elem_of_omap. exists w. split; [by left|]. by destruct (version_of w); [apply list_elem_of_singleton in Hv as ->|apply not_elem_of_nil in Hv]. }
    destruct r1 as [rest|e|]; cycle 1.
    1-2: injection E2 as <- <-; split; [cbn [length]; lia|]; intros k; destruct (decide (k = target_of w)) as [->|Hk]; [|left; by rewrite Ho1];
      destruct Hk1 as [Hr|[Hr _]]; [right|by left]; by eapply renewed_mono; [..|exact Hr]; try lia.
    apply IH in E2 as (Hg2 & Hk2); [|lia..]. split; [cbn [length]; lia|]. intros k. destruct (Hk2 k) as [[Hh Hd]|Hr].
    + destruct (decide (k = target_of w)) as [->|Hk].
      * rewrite Hh. destruct Hk1 as [Hr|[_ Hr]]; [right; by eapply renewed_mono; [..|exact Hr]; try lia|by destruct (Hr eq_refl rest)].
      * left. rewrite Hh, Ho1 by done. split; [done|]. intros Hr w' [->|Hw]%elem_of_cons; [done|by apply Hd].
    + right. eapply renewed_mono; [..|exact Hr]; try lia. intros v (w' & Hw & Hv)%list_elem_of_omap. apply list_elem_of_omap. exists w'. split; [by right|done].
Qed.

Lemma node_mut_maps (id : NodeId) f x : nodes (with_node_mut id f x) = alter f id (nodes x) /\ edges (with_node_mut id f x) = edges x.
Proof.
  unfold with_node_mut. destruct (nodes x !! id) as [n|] eqn:E; simpl; (split; [|done]); [by rewrite (alter_insert_Some _ _ _ _ E)|].
  by rewrite (alter_none _ _ _ E).
Qed.
Lemma edge_mut_maps (id : EdgeId) f x : nodes (with_edge_mut id f x) = nodes x /\ edges (with_edge_mut id f x) = alter f id (edges x).
Proof.
  unfold with_edge_mut. destruct (edges x !! id) as [n|] eqn:E; simpl; (split; [done|]); [by rewrite (alter_insert_Some _ _ _ _ E)|].
  by rewrite (alter_none _ _ _ E).
Qed.
Lemma stamp_heads c w cu k : head_of (finalize_write c cu w) k = head_of cu k.
Proof.
  assert (Hn : forall (n m : NodeId), head_of (CurStore.set_node_commit_timestamp n c cu) (TNode m) = head_of cu (TNode m) /\
    head_of (CurStore.set_node_commit_timestamp n c cu) (TEdge m) = head_of cu (TEdge m)).
  { intros n m. unfold head_of, CurStore.get_node, CurStore.get_edge, CurIdx.get_node, CurIdx.get_edge, CurStore.set_node_commit_timestamp. simpl.
    destruct (node_mut_maps n (stamp_node c) (CurStore.indexes cu)) as [-> ->]. split; [|done]. rewrite lookup_alter.
    case_decide as E; [subst|done]. by destruct (nodes _ !! _). }
  assert (He : forall (n m : EdgeId), head_of (CurStore.set_edge_commit_timestamp n c cu) (TNode m) = head_of cu (TNode m) /\
    head_of (CurStore.set_edge_commit_timestamp n c cu) (TEdge m) = head_of cu (TEdge m)).
  { intros n m. unfold head_of, CurStore.get_node, CurStore.get_edge, CurIdx.get_node, CurIdx.get_edge, CurStore.set_edge_commit_timestamp. simpl.
    destruct (edge_mut_maps n (stamp_edge c) (CurStore.indexes cu)) as [-> ->]. split; [done|]. rewrite lookup_alter.
    case_decide as E; [subst|done]. by destruct (edges _ !! _). }
  destruct w, k; simpl finalize_write; first [done|apply Hn|apply He].
Qed.
Lemma finalize_heads t c d k : head (finalize_current_commit_timestamps t c d).1 k = head d k.
Proof.
  unfold finalize_current_commit_timestamps, Db.on_current, head. simpl. generalize (Db.current d).
  induction (operations (buffer t)) as [|w ws IH]; intros cu; simpl; [done|]. by rewrite IH, stamp_heads.
Qed.

Lemma advance_quiet env : moves quiet (advance_clock env).
Proof. intros d. unfold advance_clock. cbn [fst]. by case_match. Qed.
Lemma log_quiet t env c ids : moves quiet (log_operations it crc32 t env c ids).
Proof. intros d. unfold log_operations. by destruct (TxLog.log_operations_to_wal _ _ _ _ _ _ _ _) as [a [x|e|]]. Qed.
Lemma quiet_heads d d' k : quiet d d' -> gen d' = gen d /\ head d' k = head d k.
Proof. intros [Hc Hg]. unfold gen, head. by rewrite Hc, Hg. Qed.
Lemma heads_quiet ws (P : Prop) d d' : ~ P -> quiet d d' -> heads_after ws P d d'.
Proof. intros Hp Hq. destruct (quiet_heads d d' (TNode 0) Hq) as [Hg _]. split; [lia|]. intros k. left. split; [by apply quiet_heads|done]. Qed.
Lemma heads_after_ext ws (P Q : Prop) d1 d d' d2 : (Q -> P) -> gen d1 = gen d -> gen d2 = gen d' ->
  (forall k, head d1 k = head d k) -> (forall k, head d2 k = head d' k) -> heads_after ws P d d' -> heads_after ws Q d1 d2.
Proof.
  intros HP Hg Hg' Hh Hh' [H1 H2]. unfold heads_after. rewrite Hg, Hg'. split; [done|]. intros k. rewrite Hh, Hh'.
  destruct (H2 k) as [[? ?]|?]; [left|by right]. split; [done|]. auto.
Qed.

Lemma locked_heads t env ids d d' r :
  0 <= gen d -> gen d + 2 * Z.of_nat (length (operations (buffer t))) <= 2 ^ 62 -> locked t env ids d = (d', r) ->
  heads_after (operations (buffer t)) (exists c, r = Ok c) d d'.
Proof.
  intros H0 Hn. unfold Commit.locked. unfold mbind at 1, sm_bind. pose proof (advance_quiet env d) as Hq1.
  assert (Hbad : forall e : res Error HybridTimestamp, (forall a, e <> Ok a) -> ~ exists c, e = Ok c) by (intros e He [c Hc]; by apply (He c)).
  destruct (advance_clock env d) as [d1 [c|e|]]; simpl in Hq1; [|intros [= <- <-]; by apply heads_quiet; [apply Hbad|]..].
  unfold mbind at 1, sm_bind. pose proof (guards_same it t c d1) as Hq2.
  destruct (guards it t c d1) as [d2 [[]|e|]]; simpl in Hq2; subst d2; [|intros [= <- <-]; by apply heads_quiet; [apply Hbad|]..].
  unfold mbind at 1, sm_bind. pose proof (log_quiet t env c ids d1) as Hq3.
  destruct (log_operations it crc32 t env c ids d1) as [d3 [[]|e|]]; simpl in Hq3;
    [|intros [= <- <-]; apply heads_quiet; [by apply Hbad|by etrans]..].
  assert (Hq : quiet d d3) by (by etrans). unfold mbind at 1, sm_bind.
  destruct (apply_changes it ptr_eq map_ptr_eq config pre_anchor_hooks t c ids d3) as [d4 r4] eqn:E4.
  assert (H4 : heads_after (operations (buffer t)) (r4 = Ok tt) d d4).
  { unfold apply_changes, mbind at 1, sm_bind, lift in E4. destruct (History.temporal_err _) as [i|e|]; [|injection E4 as <- <-; by apply heads_quiet..].
    apply writes_heads in E4; [|rewrite (proj1 (quiet_heads d d3 (TNode 0) Hq)); lia..].
    eapply heads_after_ext; [done|symmetry; by apply (quiet_heads d d3 (TNode 0))|done|intros k; symmetry; by apply (quiet_heads d d3)|done|done]. }
  destruct r4 as [[]|e|]; [|intros [= <- <-]; (eapply heads_after_ext; [..|exact H4]; try done; intros [? ?]; done)..].
  unfold mbind at 1, sm_bind. pose proof (finalize_heads t c d4) as H5.
  assert (Hg5 : gen (finalize_current_commit_timestamps t c d4).1 = gen d4) by done.
  destruct (finalize_current_commit_timestamps t c d4) as [d5 [[]|e|]]; simpl in H5, Hg5; intros [= <- <-]; (eapply heads_after_ext; [|reflexivity|exact Hg5|intros k0; reflexivity|exact H5|exact H4]); by intros.
Qed.
End Heads.
