(* ===== verification/CommitBuffers.v ===== *)
(** * What buffering an operation does to a transaction

    Every operation of a write transaction, run on a session, appends writes to the
    buffer under version ids issued on the spot, adds preconditions only on what it
    writes, and leaves the shared stores and the log alone.  [Buffering] is that promise;
    each operation discharges it, and the interleavings of [CommitRaces] rest on it. *)

From S2P Require Import Prelude.
From S2P Require Import SliceOps.
From S2P Require Import Bytes.
From S2P Require Import Errors.
From S2P Require Import Hlc.
From S2P Require Import Temporal.
From S2P Require Import Ids.
From S2P Require Import Interning.
From S2P Require Import Property.
From S2P Require Import PropMap.
From S2P Require Import Namespaces.
From S2P Require Import Provenance.
From S2P Require Import Delta.
From S2P Require Import History.
From S2P Require Import Slices.
From S2P Require Import HistoryFacts.
From S2P Require Import TxFrames.
From S2P Require Import TemporalIndex.
From S2P Require Import Csr.
From S2P Require Import CurrentIndex.
From S2P Require Import CurrentLaws.
From S2P Require Import CurrentStore.
From S2P Require Import IndexedHistory.
From S2P Require Import Transactions.
From S2P Require Import Commit.
From S2P Require Import CommitLaws.
From S2P Require Import CommitEffect.


From S2P Require Import CommitHeads.

Section Buffering.
Import Commit Tx WriteBuf.
Context {St : Type} `{Interner St}.
Variable iter : PropMap.PropertyMap -> list (Z * PropertyValue).
Abbreviation Session := (Session (St := St)).
Implicit Types s : Session.

Definition writes s : list BufferedWrite := operations (buffer (tx s)).

(** [m] issues at most [n] version ids; the ids of [av] are at hand, the targets of [ts]
    are written already. *)
Definition buffered {A} (n : Z) (av : list VersionId) (ts : list CasTarget) (m : SM Session Error A) : Prop :=
  forall s s' r, 0 <= gen (db s) -> gen (db s) + n <= 2 ^ 62 -> m s = (s', r) ->
  gen (db s) <= gen (db s') <= gen (db s) + n /\ same_stores (db s) (db s') /\
  exists new added, writes s' = writes s ++ new /\ cas_preconditions (tx s') = cas_preconditions (tx s) ++ added /\
    (forall v, v ∈ omap version_of new -> v ∈ av \/ gen (db s) <= v < gen (db s')) /\
    (forall p, p ∈ added -> target p ∈ ts \/ target p ∈ target_of <$> new).

Lemma buffered_bind {A B} n1 n2 av ts (m : SM Session Error A) (f : A -> SM Session Error B) :
  0 <= n2 -> buffered n1 av ts m -> (forall a, buffered n2 av ts (f a)) -> buffered (n1 + n2) av ts (m ≫= f).
Proof.
  intros Hn Hm Hf s s' r H0 Hs. unfold mbind, sm_bind. destruct (m s) as [s1 r1] eqn:E1.
  destruct (Hm s s1 r1 H0 ltac:(lia) E1) as (Hg1 & Hst1 & new1 & add1 & Hw1 & Hp1 & Hv1 & Ht1).
  destruct r1 as [a|e|]; cycle 1.
  1-2: intros [= <- <-]; split; [lia|]; split; [done|]; by exists new1, add1.
  intros E2. destruct (Hf a s1 s' r ltac:(lia) ltac:(lia) E2) as (Hg2 & Hst2 & new2 & add2 & Hw2 & Hp2 & Hv2 & Ht2).
  split; [lia|]. split; [by etrans|]. exists (new1 ++ new2), (add1 ++ add2). split_and!.
  - by rewrite Hw2, Hw1, app_assoc.
  - by rewrite Hp2, Hp1, app_assoc.
  - intros v. rewrite omap_app, elem_of_app. intros [Hv|Hv]; [destruct (Hv1 v Hv) as [?|?]|destruct (Hv2 v Hv) as [?|?]]; try (by left); right; lia.
  - intros p [Hp|Hp]%elem_of_app; [destruct (Ht1 p Hp) as [?|?]|destruct (Ht2 p Hp) as [?|?]]; try (by left); right;
      rewrite fmap_app; apply elem_of_app; auto.
Qed.
Lemma buffered_more {A} n n' av ts (m : SM Session Error A) : n <= n' -> buffered n [] [] m -> buffered n' av ts m.
Proof.
  intros Hn Hm s s' r H0 Hs E. destruct (Hm s s' r H0 ltac:(lia) E) as (? & ? & new & add & ? & ? & Hv & Ht). split; [lia|]. split; [done|].
  exists new, add. split_and!; [done..| |]; [intros v Hin; destruct (Hv v Hin) as [?%not_elem_of_nil|?]|intros p Hin; destruct (Ht p Hin) as [?%not_elem_of_nil|?]]; auto; done.
Qed.

(** Steps that change neither the generator, nor the stores, nor the writes, nor the
    preconditions. *)
Definition silent s s' : Prop :=
  gen (db s') = gen (db s) /\ same_stores (db s) (db s') /\ writes s' = writes s /\ cas_preconditions (tx s') = cas_preconditions (tx s).
#[local] Instance silent_refl : Reflexive silent. Proof. by intros s. Qed.
#[local] Instance silent_trans : Transitive silent.
Proof. intros a b c (?&?&?&?) (?&?&?&?). split_and!; try congruence. by etrans. Qed.
Lemma buffered_silent {A} av ts (m : SM Session Error A) : moves silent m -> buffered 0 av ts m.
Proof.
  intros Hm s s' r H0 _ E. specialize (Hm s). rewrite E in Hm. destruct Hm as (Hg & Hst & Hw & Hp). simpl in *. rewrite Hg.
  split; [lia|]. split; [done|]. exists [], []. rewrite !app_nil_r. split_and!; [done..| |]; by intros ? ?%not_elem_of_nil.
Qed.
Lemma buffered_then {A B} n av ts (m : SM Session Error A) (f : A -> SM Session Error B) :
  0 <= n -> moves silent m -> (forall a, buffered n av ts (f a)) -> buffered n av ts (m ≫= f).
Proof. intros Hn Hm Hf. apply (buffered_bind 0 n); [done|by apply buffered_silent|done]. Qed.

Lemma buffered_next {B} n av ts (f : VersionId -> SM Session Error B) :
  0 <= n -> (forall v, buffered n (v :: av) ts (f v)) -> buffered (1 + n) av ts (on_db Db.next_version_id ≫= f).
Proof.
  intros Hn Hf s s' r H0 Hs. unfold mbind, sm_bind, on_db. rewrite next_issue by lia. intros E.
  match type of E with f ?v ?s1 = _ => destruct (Hf v s1 s' r ltac:(cbn; lia) ltac:(cbn; lia) E) as (Hg & Hst & new & add & Hw & Hp & Hv & Ht) end. cbn in Hg, Hw, Hp. split; [lia|].
  split; [exact Hst|]. exists new, add. split_and!; [done..| |done]. intros v Hin. destruct (Hv v Hin) as [[->|?]%elem_of_cons|Hr]; [right; lia|by left|].
  cbn in Hr. right. lia.
Qed.
Lemma buffered_add {B} n av ts w (f : unit -> SM Session Error B) :
  0 <= n -> (forall v, version_of w = Some v -> v ∈ av) -> (forall u, buffered n av (target_of w :: ts) (f u)) ->
  buffered n av ts (buffer_add w ≫= f).
Proof.
  intros Hn Hw Hf s s' r H0 Hs. unfold mbind, sm_bind, buffer_add, WriteBuf.add. case_goal; [intros [= <- <-]; cbn|intros E].
  - split; [lia|]. split; [done|]. exists [], []. unfold writes. simpl. rewrite !app_nil_r. split_and!; [done..| |]; by intros ? ?%not_elem_of_nil.
  - match type of E with f ?u ?s1 = _ => destruct (Hf u s1 s' r ltac:(cbn; lia) ltac:(cbn; lia) E) as (Hg & Hst & new & add & Hnew & Hp & Hv & Ht) end.
    cbn in Hg, Hp. split; [lia|]. split; [exact Hst|]. exists (w :: new), add. split_and!.
    + rewrite Hnew. unfold writes. simpl. by rewrite <- app_assoc.
    + exact Hp.
    + intros v Hin. apply list_elem_of_omap in Hin as (w' & [->|Hw']%elem_of_cons & Hv'); [left; by apply Hw|].
      apply Hv. apply list_elem_of_omap. by exists w'.
    + intros p Hin. rewrite fmap_cons, elem_of_cons. destruct (Ht p Hin) as [[->|?]%elem_of_cons|?]; auto.
Qed.
Lemma buffered_last n av ts w : 0 <= n -> (forall v, version_of w = Some v -> v ∈ av) -> buffered n av ts (buffer_add w).
Proof.
  intros Hn Hw s s' r H0 Hs E. refine (buffered_add n av ts w (fun _ => mret tt) Hn Hw _ s s' r H0 Hs _).
  - intros u. apply (buffered_more 0); [done|]. apply buffered_silent, moves_ret. typeclasses eauto.
  - unfold mbind, sm_bind. rewrite E. destruct r as [[]|e|]; done.
Qed.
Lemma buffered_push {B} n av ts p (f : unit -> SM Session Error B) :
  0 <= n -> target p ∈ ts -> (forall u, buffered n av ts (f u)) -> buffered n av ts (on_tx (push_precondition p) ≫= f).
Proof.
  intros Hn Hp Hf s s' r H0 Hs E.
  match type of E with (_ ≫= f) _ = _ => destruct (Hf tt (mkSession (interner s) (db s) (push_precondition p (tx s))) s' r H0 Hs E) as (Hg & Hst & new & add & Hw & Ha & Hv & Ht) end.
  split; [exact Hg|]. split; [exact Hst|]. exists new, (p :: add). split_and!; [exact Hw| |exact Hv|].
  - rewrite Ha. simpl. by rewrite <- app_assoc.
  - intros q [->|Hq]%elem_of_cons; [by left|by apply Ht].
Qed.

(** ** The operations *)
Lemma interner_silent {A} (m : SM St Error A) : moves silent (on_interner (A := A) m).
Proof. intros s. unfold on_interner. by destruct (m _). Qed.
Lemma session_silent : moves silent get_session. Proof. intros s. reflexivity. Qed.
Lemma mark_silent ps : moves silent (mark_vectors ps).
Proof. intros s. unfold mark_vectors, on_tx. simpl. by case_match. Qed.
Lemma node_id_silent : moves silent (on_db Db.next_node_id).
Proof. intros s. unfold on_db, Db.next_node_id. by destruct (Id.next _). Qed.
Lemma edge_id_silent : moves silent (on_db Db.next_edge_id).
Proof. intros s. unfold on_db, Db.next_edge_id. by destruct (Id.next _). Qed.
#[local] Hint Resolve interner_silent session_silent mark_silent node_id_silent edge_id_silent : frames.
Ltac silent := unfold require_active, reject_reserved_keys, reject_reserved_key, own_node, own_edge, valid_from_of, check_node_valid_from,
  check_edge_valid_from, merge, restamp, intern, ns_check, with_entries, without_key; frame.

Ltac buffer_step := match goal with
  | |- buffered _ _ _ (mbind _ (on_db Db.next_version_id)) => apply (buffered_next 0); [lia|intros ?]
  | |- buffered _ _ _ (mbind _ (buffer_add _)) => apply buffered_add; [lia|intros ? [= <-]; set_solver|intros ?]
  | |- buffered _ _ _ (mbind _ (on_tx (push_precondition _))) => apply buffered_push; [lia|set_solver|intros ?]
  | |- buffered _ _ _ (buffer_add _) => apply buffered_last; [lia|intros ? [= <-]; set_solver]
  | |- buffered _ _ _ (mbind _ _) => apply buffered_then; [lia|solve [silent]|intros ?]
  | |- buffered _ _ _ (if ?b then _ else _) => destruct b
  | |- buffered _ _ _ (match ?b with _ => _ end) => destruct b
  | |- buffered _ _ _ _ => apply (buffered_more 0); [lia|apply buffered_silent; solve [silent]]
  end.

(** What an operation of a write transaction promises to the transactions it runs
    beside. *)
Class Buffering {A} (m : SM Session Error A) : Prop := buffering_ok : buffered 1 [] [] m.

#[export] Instance create_node_buffers now label props o : Buffering (create_node_with_options iter now label props o).
Proof. unfold Buffering, create_node_with_options. repeat buffer_step. Qed.
#[export] Instance create_edge_buffers now src dst label props o : Buffering (create_edge_with_options iter now src dst label props o).
Proof. unfold Buffering, create_edge_with_options. repeat buffer_step. Qed.
#[export] Instance cas_node_buffers now id expected props l f o : Buffering (cas_node_impl iter now id expected props l f o).
Proof. unfold Buffering, cas_node_impl. repeat buffer_step. Qed.
#[export] Instance cas_edge_buffers now id expected props o : Buffering (cas_edge_impl iter now id expected props o).
Proof. unfold Buffering, cas_edge_impl. repeat buffer_step. Qed.
#[export] Instance claim_buffers now id expected ok uk owner until props o :
  Buffering (claim_with_lease_impl iter now id expected ok uk owner until props o).
Proof. unfold Buffering, claim_with_lease_impl. do 3 buffer_step. apply cas_node_buffers. Qed.
#[export] Instance claim_fenced_buffers ln now id expected ok uk fk owner ttl nf props o :
  Buffering (claim_with_lease_fenced_impl iter ln now id expected ok uk fk owner ttl nf props o).
Proof. unfold Buffering, claim_with_lease_fenced_impl. do 4 buffer_step. apply cas_node_buffers. Qed.
#[export] Instance update_node_buffers now id props o : Buffering (update_node_with_options iter now id props o).
Proof. unfold Buffering, update_node_with_options. repeat buffer_step. Qed.
#[export] Instance update_edge_buffers now id props o : Buffering (update_edge_with_options iter now id props o).
Proof. unfold Buffering, update_edge_with_options. repeat buffer_step. Qed.
#[export] Instance replace_node_buffers now id label props o : Buffering (replace_node_with_options iter now id label props o).
Proof. unfold Buffering, replace_node_with_options, buffer_node_replace. repeat buffer_step. Qed.
#[export] Instance replace_edge_buffers now id props o : Buffering (replace_edge_with_options iter now id props o).
Proof. unfold Buffering, replace_edge_with_options, buffer_edge_replace. repeat buffer_step. Qed.
#[export] Instance remove_node_property_buffers now id key : Buffering (remove_node_property now id key).
Proof. unfold Buffering, remove_node_property, buffer_node_replace. repeat buffer_step. Qed.
#[export] Instance remove_edge_property_buffers now id key : Buffering (remove_edge_property now id key).
Proof. unfold Buffering, remove_edge_property, buffer_edge_replace. repeat buffer_step. Qed.
Lemma delete_node_buffered now id o : buffered 0 [] [] (delete_node_with_options now id o).
Proof. unfold delete_node_with_options. repeat buffer_step. Qed.
Lemma delete_edge_buffered now id o : buffered 0 [] [] (delete_edge_with_options now id o).
Proof. unfold delete_edge_with_options. repeat buffer_step. Qed.
#[export] Instance delete_node_buffers now id o : Buffering (delete_node_with_options now id o).
Proof. eapply buffered_more; [|apply delete_node_buffered]; lia. Qed.
#[export] Instance delete_edge_buffers now id o : Buffering (delete_edge_with_options now id o).
Proof. eapply buffered_more; [|apply delete_edge_buffered]; lia. Qed.
Lemma delete_edges_buffered o es : forall now, buffered 0 [] [] (delete_edges now es o).
Proof.
  induction es as [|e es IH]; intros [|n now]; simpl; try (apply buffered_silent; frame; fail).
  apply (buffered_bind 0 0); [lia|apply delete_edge_buffered|intros _; apply IH].
Qed.
#[export] Instance cascade_buffers now id o : Buffering (delete_node_cascade_with_options now id o).
Proof.
  unfold Buffering, delete_node_cascade_with_options. do 5 buffer_step.
  apply (buffered_bind 0 1); [lia|apply delete_edges_buffered|intros now']. destruct now'; [repeat buffer_step|apply delete_node_buffers].
Qed.
#[export] Instance retract_node_buffers now id vt p : Buffering (retract_node_with_provenance now id vt p).
Proof. unfold Buffering, retract_node_with_provenance. repeat buffer_step. Qed.
#[export] Instance retract_edge_buffers now id vt p : Buffering (retract_edge_with_provenance now id vt p).
Proof. unfold Buffering, retract_edge_with_provenance. repeat buffer_step. Qed.
End Buffering.
