(* ===== verification/CommitRaces.v ===== *)
(** * Interleaved transactions

    Any number of write transactions over one database: each is begun, buffers
    operations one at a time, is prepared (the checks before the commit lock), and then
    takes the lock, succeeding or failing half-way; these steps interleave freely, the
    locked part is one step.  A compare-and-set claim is exclusive in every such run
    ([cas_exclusive]). *)

From S2P Require Import Prelude.
From S2P Require Import SliceOps.
From S2P Require Import Bytes.
From S2P Require Import Errors.
From S2P Require Import Hlc.
From S2P Require Import Temporal.
From S2P Require Import Ids.
From S2P Require Import Interning.
From S2P Require Import Property.
From S2P Require Import PropMap.
From S2P Require Import Namespaces.
From S2P Require Import Provenance.
From S2P Require Import Delta.
From S2P Require Import History.
From S2P Require Import Slices.
From S2P Require Import HistoryFacts.
From S2P Require Import TxFrames.
From S2P Require Import TemporalIndex.
From S2P Require Import Csr.
From S2P Require Import CurrentIndex.
From S2P Require Import CurrentLaws.
From S2P Require Import CurrentStore.
From S2P Require Import IndexedHistory.
From S2P Require Import Transactions.
From S2P Require Import Commit.
From S2P Require Import CommitLaws.
From S2P Require Import CommitEffect.


From S2P Require Import CommitHeads.

From S2P Require Import CommitBuffers.

Section Races.
Import Commit Tx WriteBuf.
Context {St : Type} `{Interner St}.
Variable iter : PropMap.PropertyMap -> list (Z * PropertyValue).
Variable crc32 : bytes -> Z.
Variable ptr_eq : PropertyValue -> PropertyValue -> bool.
Variable map_ptr_eq : PropMap.PropertyMap -> PropMap.PropertyMap -> bool.
Variable config : History.Config.
Variable pre_anchor_hooks : Z -> HybridTimestamp -> PropMap.PropertyMap -> option Z.
Abbreviation locked it := (locked it crc32 ptr_eq map_ptr_eq config pre_anchor_hooks).

(** The running transactions, with the closing ids of those that are prepared. *)
Record System := mkSystem {
  strings : St;
  shared : Db.Db;
  running : gmap TxId (WriteTransaction * option (list VersionId)) }.
Implicit Types s : System.

Definition buffer_len (t : WriteTransaction) : Z := Z.of_nat (length (operations (buffer t))).
(** The ids a step may issue are there: the generator has [2 ^ 62] of them. *)
Definition room s (n : Z) : Prop := gen (shared s) + n <= 2 ^ 62.

(** One step; a commit that succeeds is told with its transaction. *)
Inductive step : System -> option WriteTransaction -> System -> Prop :=
  | S_begin s tau ts now t d' :
      running s !! tau = None -> write_transaction tau ts now (shared s) = (d', Ok t) ->
      step s None (mkSystem (strings s) d' (<[tau := (t, None)]> (running s)))
  | S_buffer s tau t {A} (m : SM (Session (St := St)) Error A) {Hm : Buffering m} i' d' t' r :
      running s !! tau = Some (t, None) -> room s 1 -> m (mkSession (strings s) (shared s) t) = (mkSession i' d' t', r) ->
      step s None (mkSystem i' d' (<[tau := (t', None)]> (running s)))
  | S_prepare s tau t d' ids :
      running s !! tau = Some (t, None) -> room s (buffer_len t) -> prepare t (shared s) = (d', Ok ids) ->
      step s None (mkSystem (strings s) d' (<[tau := (t, Some ids)]> (running s)))
  | S_refuse s tau t d' r :
      running s !! tau = Some (t, None) -> room s (buffer_len t) -> prepare t (shared s) = (d', r) -> (forall ids, r <> Ok ids) ->
      step s None (mkSystem (strings s) (abort t d') (delete tau (running s)))
  | S_commit s tau t ids env d' c :
      running s !! tau = Some (t, Some ids) -> room s (2 * buffer_len t) -> locked (strings s) t env ids (shared s) = (d', Ok c) ->
      step s (Some t) (mkSystem (strings s) (Db.set_visibility (Visibility.register_commit (tx_id t) (Db.visibility_manager d')) d')
                         (delete tau (running s)))
  | S_fail s tau t ids env d' r :
      running s !! tau = Some (t, Some ids) -> room s (2 * buffer_len t) -> locked (strings s) t env ids (shared s) = (d', r) -> (forall c, r <> Ok c) ->
      step s None (mkSystem (strings s) (abort t d') (delete tau (running s)))
  | S_drop s tau t o :
      running s !! tau = Some (t, o) -> step s None (mkSystem (strings s) (abort t (shared s)) (delete tau (running s))).

Inductive steps : System -> list WriteTransaction -> System -> Prop :=
  | steps_nil s : steps s [] s
  | steps_cons s o s' ts s'' : step s o s' -> steps s' ts s'' -> steps s (option_list o ++ ts) s''.

(** The version ids a transaction has buffered. *)
Definition ids_of (t : WriteTransaction) : list VersionId := omap version_of (operations (buffer t)).

(** Heads and buffers use issued ids; no head is the id of a write still buffered, and
    no two transactions buffer the same id. *)
Record consistent s : Prop := {
  cs_gen : 0 <= gen (shared s) <= 2 ^ 62;
  cs_heads k v : head (shared s) k = Some v -> seq v < gen (shared s);
  cs_ids tau t o v : running s !! tau = Some (t, o) -> v ∈ ids_of t -> 0 <= v < gen (shared s);
  cs_apart tau t o v k : running s !! tau = Some (t, o) -> v ∈ ids_of t -> head (shared s) k <> Some v;
  cs_disjoint tau t o tau' t' o' v : running s !! tau = Some (t, o) -> running s !! tau' = Some (t', o') ->
    v ∈ ids_of t -> v ∈ ids_of t' -> tau = tau';
  cs_written tau t o p : running s !! tau = Some (t, o) -> p ∈ cas_preconditions t -> target p ∈ target_of <$> operations (buffer t) }.

(** The version [v] is never going to be the head of [k] again. *)
Definition burned (k : CasTarget) (v : VersionId) s : Prop :=
  seq v < gen (shared s) /\ head (shared s) k <> Some v /\ forall tau t o, running s !! tau = Some (t, o) -> v ∉ ids_of t.

Lemma number_ids s tau t o v : consistent s -> running s !! tau = Some (t, o) -> v ∈ ids_of t -> 0 <= v < gen (shared s) /\ seq v = v.
Proof. intros C Ht Hv. pose proof (cs_ids _ C _ _ _ _ Ht Hv). pose proof (cs_gen _ C). split; [done|]. apply strip_small. lia. Qed.

(** A step that buffers, or does nothing: the ids it adds are new. *)
Lemma extend_ok s s' tau t' o' :
  consistent s -> gen (shared s) <= gen (shared s') <= 2 ^ 62 -> (forall k, head (shared s') k = head (shared s) k) ->
  running s' = <[tau := (t', o')]> (running s) ->
  (forall v, v ∈ ids_of t' -> (exists t o, running s !! tau = Some (t, o) /\ v ∈ ids_of t) \/ gen (shared s) <= v < gen (shared s')) ->
  (forall p, p ∈ cas_preconditions t' -> target p ∈ target_of <$> operations (buffer t')) ->
  consistent s' /\ forall k v, burned k v s -> burned k v s'.
Proof.
  intros C Hg Hh Hr Hids Hw. pose proof (cs_gen _ C) as Hg0. split; [split|].
  - lia.
  - intros k v. rewrite Hh. intros Hv. apply (cs_heads _ C) in Hv. lia.
  - intros tau1 t1 o1 v. rewrite Hr. intros [[-> [= -> ->]]|[Hn H1]]%lookup_insert_Some Hv.
    + destruct (Hids v Hv) as [(t & o & Ht & Hv')|?]; [pose proof (cs_ids _ C _ _ _ _ Ht Hv')|]; lia.
    + pose proof (cs_ids _ C _ _ _ _ H1 Hv). lia.
  - intros tau1 t1 o1 v k. rewrite Hr, Hh. intros [[-> [= -> ->]]|[Hn H1]]%lookup_insert_Some Hv; [|by eapply cs_apart].
    destruct (Hids v Hv) as [(t & o & Ht & Hv')|Hv']; [by eapply cs_apart|]. intros Hk. apply (cs_heads _ C) in Hk.
    rewrite strip_small in Hk; lia.
  - assert (Hx : forall tau2 t2 o2 v, tau2 <> tau -> running s !! tau2 = Some (t2, o2) -> v ∈ ids_of t2 -> v ∈ ids_of t' -> False).
    { intros tau2 t2 o2 v Hne H2 Hv2 Hv. destruct (Hids v Hv) as [(t & o & Ht & Hv')|Hv'].
      - by destruct (Hne (cs_disjoint _ C _ _ _ _ _ _ _ H2 Ht Hv2 Hv')).
      - pose proof (cs_ids _ C _ _ _ _ H2 Hv2). lia. }
    intros tau1 t1 o1 tau2 t2 o2 v. rewrite Hr. intros [[-> [= -> ->]]|[Hn1 H1]]%lookup_insert_Some [[-> [= -> ->]]|[Hn2 H2]]%lookup_insert_Some Hv1 Hv2.
    + done.
    + by destruct (Hx tau2 t2 o2 v).
    + by destruct (Hx tau1 t1 o1 v).
    + by eapply cs_disjoint.
  - intros tau1 t1 o1 p. rewrite Hr. intros [[-> [= -> ->]]|[Hn H1]]%lookup_insert_Some; [apply Hw|by eapply cs_written].
  - intros k v (Hv & Hk & Hall). split; [lia|]. rewrite Hh. split; [done|]. intros tau1 t1 o1. rewrite Hr.
    intros [[-> [= -> ->]]|[Hn H1]]%lookup_insert_Some; [|by eapply Hall]. intros Hin.
    destruct (Hids v Hin) as [(t & o & Ht & Hv')|Hv']; [by destruct (Hall _ _ _ Ht)|]. rewrite strip_small in Hv; lia.
Qed.

(** A step that ends a transaction. *)
Lemma finish_step s s' tau t o P :
  consistent s -> running s !! tau = Some (t, o) -> gen (shared s') <= 2 ^ 62 ->
  heads_after (operations (buffer t)) P (shared s) (shared s') -> running s' = delete tau (running s) ->
  consistent s' /\ (forall k v, burned k v s -> burned k v s') /\
  (P -> forall k v, k ∈ target_of <$> operations (buffer t) -> head (shared s) k = Some v -> burned k v s').
Proof.
  intros C Ht Hroom [Hg Hk] Hr. pose proof (cs_gen _ C) as Hg0.
  assert (Hnew : forall k v, head (shared s') k = Some v -> head (shared s) k = Some v \/ v ∈ ids_of t \/ gen (shared s) <= seq v < gen (shared s')).
  { intros k v Hv. destruct (Hk k) as [[E _]|E]; [left; congruence|right]. by apply E. }
  assert (Hold : forall tau1 t1 o1, running s' !! tau1 = Some (t1, o1) -> tau1 <> tau /\ running s !! tau1 = Some (t1, o1)).
  { intros tau1 t1 o1. rewrite Hr. intros [? ?]%lookup_delete_Some. auto. }
  split; [split|split].
  - lia.
  - intros k v [Hv|[Hv|Hv]]%Hnew; [apply (cs_heads _ C) in Hv; lia| |lia]. destruct (number_ids _ _ _ _ _ C Ht Hv) as [? ->]. lia.
  - intros tau1 t1 o1 v [_ H1]%Hold Hv. pose proof (cs_ids _ C _ _ _ _ H1 Hv). lia.
  - intros tau1 t1 o1 v k [Hne H1]%Hold Hv. intros [Hv'|[Hv'|Hv']]%Hnew.
    + by eapply cs_apart.
    + by destruct (Hne (cs_disjoint _ C _ _ _ _ _ _ _ H1 Ht Hv Hv')).
    + destruct (number_ids _ _ _ _ _ C H1 Hv) as [? E]. lia.
  - intros tau1 t1 o1 tau2 t2 o2 v [_ H1]%Hold [_ H2]%Hold. by eapply cs_disjoint.
  - intros tau1 t1 o1 p [_ H1]%Hold. by eapply cs_written.
  - intros k v (Hv & Hh & Hall). split; [lia|]. split.
    + intros [Hv'|[Hv'|Hv']]%Hnew; [done|by destruct (Hall _ _ _ Ht)|lia].
    + intros tau1 t1 o1 [_ H1]%Hold. by eapply Hall.
  - intros HP k v (w & -> & Hw)%list_elem_of_fmap Hv. pose proof (cs_heads _ C _ _ Hv) as Hlt. split; [lia|]. split.
    + destruct (Hk (target_of w)) as [[_ Hd]|Hn]; [by destruct (Hd HP w Hw)|].
      intros Hv'. destruct (Hn v Hv') as [Hi|?]; [by destruct (cs_apart _ C _ _ _ _ (target_of w) Ht Hi)|lia].
    + intros tau1 t1 o1 [_ H1]%Hold. intros Hi. by destruct (cs_apart _ C _ _ _ _ (target_of w) H1 Hi).
Qed.

Lemma stores_heads d d' k : Db.current d' = Db.current d -> head d' k = head d k.
Proof. unfold head. by intros ->. Qed.
Lemma next_ids_gen n : forall d d' r, 0 <= gen d -> gen d + Z.of_nat n <= 2 ^ 62 -> next_version_ids n d = (d', r) ->
  Db.current d' = Db.current d /\ gen d <= gen d' <= gen d + Z.of_nat n.
Proof.
  induction n as [|n IH]; intros d d' r H0 Hn; simpl; [intros [= <- <-]; split; [done|lia]|].
  unfold mbind, sm_bind at 1. rewrite next_issue by lia. unfold sm_bind. set (d1 := Db.set_version_gen _ d).
  destruct (next_version_ids n d1) as [d2 r2] eqn:E. apply IH in E as [Hc Hg]; [|unfold d1, gen; cbn; fold (gen d); lia..].
  assert (gen d1 = gen d + 1) by done. destruct r2; intros [= <- <-]; (split; [done|lia]).
Qed.
Lemma prepare_gen t d d' r : 0 <= gen d -> gen d + buffer_len t <= 2 ^ 62 -> prepare t d = (d', r) ->
  Db.current d' = Db.current d /\ gen d <= gen d' <= gen d + buffer_len t.
Proof.
  intros H0 Hn. unfold prepare, mbind at 1 2, sm_bind, guard. assert (0 <= buffer_len t) by (unfold buffer_len; lia).
  destruct (validate t _) as [[]|e|]; [|intros [= <- <-]; split; [done|lia]..].
  destruct (detect_conflicts t _) as [[]|e|]; [|intros [= <- <-]; split; [done|lia]..].
  assert (Hl : (num_closing (operations (buffer t)) <= length (operations (buffer t)))%nat) by (unfold num_closing; apply List.filter_length_le).
  intros E. apply next_ids_gen in E as [? ?]; [|unfold buffer_len in Hn; lia..]. split; [done|]. unfold buffer_len. lia.
Qed.

(** What a precondition without a lease says when it holds. *)
Lemma check_pure it c cs ps p : check_preconditions it c cs ps = Ok tt -> p ∈ ps -> lease p = None -> head_of cs (target p) = Some (expected_version p).
Proof.
  induction ps as [|q ps IH]; [by intros _ ?%not_elem_of_nil|]. simpl. intros ([] & Hq & Hps)%bind_ok [->|Hin]%elem_of_cons Hl; [|by apply IH].
  unfold check_precondition in Hq. rewrite Hl in Hq. destruct (target q) as [n|e].
  - rewrite orb_false_r in Hq. by case_bool_decide.
  - by case_bool_decide.
Qed.

Ltac no_commit := match goal with |- ?A /\ ?B /\ _ => cut (A /\ B); [intros [? ?]; split; [done|]; split; [done|]; by intros ? ? [=]|] end.
Lemma step_ok s o s' : consistent s -> step s o s' ->
  consistent s' /\ (forall k v, burned k v s -> burned k v s') /\
  (forall t p, o = Some t -> p ∈ cas_preconditions t -> lease p = None ->
     head (shared s) (target p) = Some (expected_version p) /\ burned (target p) (expected_version p) s').
Proof.
  intros C Hs. pose proof (cs_gen _ C) as Hg0.
  destruct Hs as [s tau ts now t d' Hf Hw|s tau t A m Hm i' d' t' r Ht Hr Hrun|s tau t d' ids Ht Hr Hp|s tau t d' r Ht Hr Hp Hno
                 |s tau t ids env d' c Ht Hr Hl|s tau t ids env d' r Ht Hr Hl Hno|s tau t o Ht].
  - apply sm_bind_inv in Hw as (d1 & u & [= <- <-] & Hw). apply sm_bind_inv in Hw as (d2 & x & [= <- <-] & [= <- <-]).
    no_commit. eapply extend_ok; try done; simpl.
    + exact (conj (Z.le_refl _) (proj2 Hg0)).
    + by intros v ?%not_elem_of_nil.
    + by intros v ?%not_elem_of_nil.
  - unfold room in Hr. destruct (Hm (mkSession (strings s) (shared s) t) _ _ (proj1 Hg0) Hr Hrun) as (Hg & (Hc & _) & new & add & Hw & Ha & Hv & Hp). simpl in *.
    no_commit. eapply extend_ok; try done; simpl; [lia|by intros k; apply stores_heads| |].
    + intros v. unfold ids_of, writes in *. simpl in *. rewrite Hw, omap_app, elem_of_app. intros [Hin|Hin]; [left; by exists t, None|].
      destruct (Hv v Hin) as [?%not_elem_of_nil|?]; [done|by right].
    + intros p. unfold writes in Hw. simpl in Hw. rewrite Ha, Hw, fmap_app, !elem_of_app. intros [Hin|Hin]; [left; by eapply cs_written|].
      destruct (Hp p Hin) as [?%not_elem_of_nil|?]; [done|by right].
  - unfold room in Hr. apply prepare_gen in Hp as [Hc Hg]; [|lia..]. no_commit.
    eapply extend_ok; try done; simpl; [lia|by intros k; apply stores_heads| |]; [intros v Hv; left; by exists t, None|intros p; by eapply cs_written].
  - unfold room in Hr. apply prepare_gen in Hp as [Hc Hg]; [|lia..]. no_commit.
    destruct (finish_step s (mkSystem (strings s) (abort t d') (delete tau (running s))) tau t None False) as (H1 & H2 & _);
      [done|done|change (gen d' <= 2 ^ 62); lia| |done|done].
    split; [change (gen (shared s) <= gen d' <= gen (shared s) + 2 * buffer_len t); lia|]. intros k. left. split; [by apply stores_heads|done].
  - pose proof Hl as Hg. apply locked_steps in Hg as (_ & _ & _ & _ & _ & Hg & _).
    apply locked_heads in Hl; [|unfold room, buffer_len in *; lia..].
    assert (Hle : gen d' <= 2 ^ 62) by (destruct Hl as [Hl _]; unfold room, buffer_len in Hr; lia).
    match goal with |- consistent ?s' /\ _ => destruct (finish_step s s' tau t (Some ids) _ C Ht Hle Hl eq_refl) as (H1 & H2 & H3) end.
    split; [exact H1|]. split; [exact H2|]. intros t' p [= <-] Hp Hlease. pose proof (check_pure _ _ _ _ _ Hg Hp Hlease) as Hhead.
    split; [done|]. apply H3; [by exists c|exact (cs_written _ C _ _ _ _ Ht Hp)|done].
  - apply locked_heads in Hl; [|unfold room, buffer_len in *; lia..]. no_commit.
    assert (Hle : gen d' <= 2 ^ 62) by (destruct Hl as [Hl _]; unfold room, buffer_len in Hr; lia).
    match goal with |- consistent ?s' /\ _ => destruct (finish_step s s' tau t (Some ids) _ C Ht Hle Hl eq_refl) as (H1 & H2 & _) end. by split.
  - no_commit. destruct (finish_step s (mkSystem (strings s) (abort t (shared s)) (delete tau (running s))) tau t o False) as (H1 & H2 & _);
      [done|done|exact (proj2 Hg0)| |done|done].
    split; [change (gen (shared s) <= gen (shared s) <= gen (shared s) + 2 * buffer_len t); unfold buffer_len; lia|].
    intros k. by left.
Qed.

(** C4: Compare-and-set is exclusive, however transactions interleave: of any two
    transactions that commit with a claim (without a lease) on the same node or edge, no two
    expected the same version. *)
Theorem cas_exclusive s ts1 t1 ts2 t2 ts3 s' p1 p2 :
  consistent s -> steps s (ts1 ++ t1 :: ts2 ++ t2 :: ts3) s' ->
  p1 ∈ cas_preconditions t1 -> p2 ∈ cas_preconditions t2 -> lease p1 = None -> lease p2 = None ->
  target p1 = target p2 -> expected_version p1 <> expected_version p2.
Proof.
  intros C Hs Hp1 Hp2 Hl1 Hl2 Ht He.
  assert (Hafter : forall s ts s', steps s ts s' -> consistent s -> burned (target p1) (expected_version p1) s -> forall a b, ts <> a ++ t2 :: b).
  { induction 1 as [s0|s0 o s1 ts s2 Hst Hss IH]; intros C0 Hb a b Hts; [by destruct a|].
    destruct (step_ok _ _ _ C0 Hst) as (C1 & Hb1 & Ho). destruct o as [t|]; [|by eapply (IH C1 (Hb1 _ _ Hb))].
    destruct a as [|x a]; injection Hts as -> Hts; [|by eapply (IH C1 (Hb1 _ _ Hb))].
    destruct (Ho t2 p2 eq_refl Hp2 Hl2) as [Hh _]. destruct Hb as (_ & Hn & _). rewrite Ht, He in Hn. done. }
  remember (ts1 ++ t1 :: ts2 ++ t2 :: ts3) as ts eqn:Ets. revert ts1 Ets. induction Hs as [s0|s0 o s1 ts s2 Hst Hss IH]; intros ts1 Ets; [by destruct ts1|].
  destruct (step_ok _ _ _ C Hst) as (C1 & _ & Ho). destruct o as [t|]; [|by eapply (IH C1)].
  destruct ts1 as [|x ts1]; injection Ets as -> Ets; [|by eapply (IH C1)].
  destruct (Ho t1 p1 eq_refl Hp1 Hl1) as [_ Hb]. by apply (Hafter _ _ _ Hss C1 Hb ts2 ts3).
Qed.
End Races.
