(* ===== verification/CommitRuns.v ===== *)
(** * Runs of commits

    Concrete transactions over a small graph, evaluated: where the commit does not do
    what its documentation says, and the inputs at which the theorems on commits apply. *)

From S2P Require Import Prelude.
From S2P Require Import SliceOps.
From S2P Require Import Bytes.
From S2P Require Import Errors.
From S2P Require Import Hlc.
From S2P Require Import Temporal.
From S2P Require Import Ids.
From S2P Require Import Interning.
From S2P Require Import Property.
From S2P Require Import PropMap.
From S2P Require Import Namespaces.
From S2P Require Import Provenance.
From S2P Require Import Delta.
From S2P Require Import History.
From S2P Require Import Slices.
From S2P Require Import HistoryFacts.
From S2P Require Import TxFrames.
From S2P Require Import TemporalIndex.
From S2P Require Import Csr.
From S2P Require Import CurrentIndex.
From S2P Require Import CurrentLaws.
From S2P Require Import CurrentStore.
From S2P Require Import IndexedHistory.
From S2P Require Import Transactions.
From S2P Require Import Commit.
From S2P Require Import CommitLaws.
From S2P Require Import CommitEffect.
From S2P Require Import CommitSafety.


From S2P Require Import CommitHeads.

From S2P Require Import CommitBuffers.

From S2P Require Import CommitRaces.

Module CommitRuns.
Import PropMap Commit Tx WriteBuf Graph CurIdx.

Abbreviation Session := (Tx.Session (St := Interning.StringInterner)).
Definition iter (p : PropertyMap) : list (Z * PropertyValue) := map_to_list (inner p).
Definition crc0 : bytes -> Z := fun _ => 0.
Definition no_ptr : PropertyValue -> PropertyValue -> bool := fun _ _ => false.
Definition no_map_ptr : PropertyMap -> PropertyMap -> bool := fun _ _ => false.
Definition no_hooks : Z -> HybridTimestamp -> PropertyMap -> option Z := fun _ _ _ => None.
Abbreviation us w := (mkTs w 0).
Abbreviation lit := Ns.of_literal.
Definition env (w : Z) : Environment := mkEnv w 0 false (repeat (us w) 10).
Abbreviation i0 := (Interning.with_max_capacity 100).
Abbreviation d0 := (Db.empty Ns.interner_new 1000).

(** A transaction begun at [w], run, and committed. *)
Definition begin (tau : TxId) (w : Z) (d : Db.Db) : Db.Db * WriteTransaction :=
  match write_transaction tau (us w) (us w) d with
  | (d, Ok t) => (d, t)
  | (d, _) => (d, Tx.new tau (us w) (Visibility.mkSnapshot (us w) None))
  end.
Definition start (tau : TxId) (w : Z) (i : Interning.StringInterner) (d : Db.Db) : Session := let '(d, t) := begin tau w d in mkSession i d t.
Definition then_ {A} (m : SM Session Error A) (s : Session) : Session := (m s).1.
Abbreviation commits t w i d := (commit_with_timestamp i crc0 no_ptr no_map_ptr History.default_config no_hooks t (env w) d).
Abbreviation locks t w i ids d := (locked i crc0 no_ptr no_map_ptr History.default_config no_hooks t (env w) ids d).

(** Two persons, one knows the other, committed at 2000. *)
Definition s1 : Session := Eval vm_compute in
  then_ (create_edge_with_options iter (us 1000) 0 1 (lit "knows") PropMap.new default_options)
    (then_ (create_node_with_options iter (us 1000) (lit "Person") PropMap.new default_options)
      (then_ (create_node_with_options iter (us 1000) (lit "Person") PropMap.new default_options) (start 1 1000 i0 d0))).
Definition d1 : Db.Db := Eval vm_compute in (commits (tx s1) 2000 (interner s1) (db s1)).1.
Definition props (i : Interning.StringInterner) (k : bytes) : Interning.StringInterner * PropertyMap :=
  match try_insert (from_map PropMap.new) k (PInt 1) i with (i, Ok b) => (i, PropMap.build b) | (i, _) => (i, PropMap.new) end.
Definition i1 : Interning.StringInterner := Eval vm_compute in (props (props (interner s1) (lit "a")).1 (lit "b")).1.
Definition pa : PropertyMap := Eval vm_compute in (props i1 (lit "a")).2.
Definition pb : PropertyMap := Eval vm_compute in (props i1 (lit "b")).2.

(** Two transactions that update the same node, begun at 3000. *)
Definition ta : Session := Eval vm_compute in then_ (update_node_with_options iter (us 3000) 0 pa default_options) (start 2 3000 i1 d1).
Definition tb : Session := Eval vm_compute in then_ (update_node_with_options iter (us 3000) 0 pb default_options) (start 3 3000 i1 (db ta)).
Definition da : Db.Db := Eval vm_compute in (locks (tx ta) 4000 i1 [] (db tb)).1.
Definition properties_of (d : Db.Db) (n : NodeId) : option PropertyMap := n_properties <$> nodes (graph d) !! n.


(** A transaction that deletes a node another has deleted meanwhile. *)
Definition tc : Session := Eval vm_compute in
  then_ (delete_node_with_options (us 3000) 0 default_options)
    (then_ (update_node_with_options iter (us 3000) 1 pa default_options) (start 4 3000 i1 d1)).
Definition te : Session := Eval vm_compute in
  then_ (delete_node_with_options (us 3000) 0 default_options)
    (then_ (delete_edge_with_options (us 3000) 0 default_options) (start 5 3000 i1 (db tc))).
Definition de : Db.Db := Eval vm_compute in (commits (tx te) 4000 i1 (db te)).1.
Definition df : Db.Db := Eval vm_compute in (commits (tx tc) 5000 i1 de).1.

(** ** Reads *)
Definition tf : Session := Eval vm_compute in
  then_ (delete_node_with_options (us 3000) 2 default_options)
    (then_ (create_node_with_options iter (us 3000) (lit "Person") pa default_options) (start 4 3000 i1 d1)).
(** A property search of a write transaction answers with a node the transaction has
    itself created and deleted again, which its own [get_node] does not find. *)
Theorem search_finds_deleted :
  find_nodes_by_property no_ptr (tx tf) (interner tf) (db tf) (lit "Person") (lit "a") (PInt 1) = [2] /\
  Tx.get_node (tx tf) (db tf) 2 = Err (EStorage (NodeNotFound 2)).
Proof. split; vm_compute; reflexivity. Qed.

(** A write transaction loses sight of a node that another updates after its snapshot:
    it read the node, and no longer finds it, in any version. *)
Theorem write_read_not_repeatable :
  let t := tx (start 7 3000 i1 d1) in
  Tx.get_node t d1 0 = Ok (mkNode 0 0 PropMap.new 0 (mkMeta 1 (Some (us 2000)))) /\
  Tx.get_node t da 0 = Err (EStorage (NodeNotFound 0)).
Proof. split; vm_compute; reflexivity. Qed.

Definition later (w : Z) : WriteRequestOptions := mkOptions (Some (us w)) None None.
Definition tg : Session := Eval vm_compute in then_ (create_node_with_options iter (us 1000) (lit "Person") pa (later 9000)) (start 1 1000 i1 d0).
Definition dg : Db.Db := Eval vm_compute in (commits (tx tg) 2000 (interner tg) (db tg)).1.
Definition th : Session := Eval vm_compute in then_ (update_node_with_options iter (us 3000) 0 pb (later 9500)) (start 2 3000 (interner tg) dg).
Definition dh : Db.Db := Eval vm_compute in (commits (tx th) 4000 (interner th) (db th)).1.
(** A read transaction does not read the same node twice: valid from a time after the
    snapshot, the node is read from the live graph while its version there is older than
    the snapshot, and looked up at the snapshot, where it is not valid yet, once
    another transaction has updated it. *)
Theorem read_not_repeatable :
  let read d := (ReadTx.get_node (interner th) History.default_config (Visibility.mkSnapshot (us 3000) None) 0 d).2 in
  read dg = Ok (mkNode 0 0 pa 0 (mkMeta 1 (Some (us 2000)))) /\
  read dh = Err (EStorage (NodeNotFound 0)).
Proof. split; vm_compute; reflexivity. Qed.

(** ** Where the theorems apply *)
Lemma buffer_filled ws : buffer_wf (add_all WriteBuf.new ws).
Proof. apply add_all_spec. split_and!; [intros k; cbn; by rewrite lookup_empty..|done]. Qed.
Lemma s1_wf : buffer_wf (buffer (tx s1)).
Proof. replace (buffer (tx s1)) with (add_all WriteBuf.new (operations (buffer (tx s1)))) by (vm_compute; reflexivity). apply buffer_filled. Qed.
Lemma s1_commits : commits (tx s1) 2000 (interner s1) (db s1) = (d1, Ok (us 2000)).
Proof. vm_compute. reflexivity. Qed.

Import CsrWitness.
Abbreviation by_row := (merge_sort Csr.row_le).
Lemma write_ahead_witness : exists c,
  logged (interner s1) crc0 (tx s1) (env 2000) (db s1) d1 c /\ (Db.current_timestamp (db s1) < c)%ts.
Proof.
  destruct (write_ahead (interner s1) crc0 no_ptr no_map_ptr History.default_config no_hooks (tx s1) (env 2000) (db s1) d1 (Ok (us 2000)))
    as [(_ & _ & H)|(c & Hl & _)]; [split; vm_compute; split; discriminate|vm_compute; split; discriminate|exact s1_commits|by destruct (H (us 2000))|].
  exists c. split; [exact Hl|apply Hl].
Defined.
Lemma empty_coherent : GraphSpec.coherent (interner s1) GraphSpec.empty (graph (db s1)).
Proof.
  replace (graph (db s1)) with (CurIdx.new Ns.interner_new) by (vm_compute; reflexivity).
  apply (new_coherent (interner s1) by_row), CurrentWitness.empty_interner.
Qed.

(** Two claims on a node, the second over the version the first left. *)
Abbreviation system := (System (St := Interning.StringInterner)).
Definition sys0 : system := mkSystem i1 d1 ∅.
Lemma sys0_consistent : consistent sys0.
Proof.
  split; simpl; try (intros *; by rewrite lookup_empty).
  - vm_compute. split; discriminate.
  - assert (Hn : map_Forall (fun _ n => Id.strip_structural_tag (n_current_version n) < gen d1) (nodes (graph d1)))
      by (refine (bool_decide_eq_true_1 _ _); vm_compute; reflexivity).
    assert (He : map_Forall (fun _ e => Id.strip_structural_tag (e_current_version e) < gen d1) (edges (graph d1)))
      by (refine (bool_decide_eq_true_1 _ _); vm_compute; reflexivity).
    intros [n|e] v; [rewrite head_node|rewrite head_edge]; intros (x & Hx & ->)%fmap_Some_1; [by apply (Hn n)|by apply (He e)].
Qed.
Abbreviation runs := (steps crc0 no_ptr no_map_ptr History.default_config no_hooks).
Definition committed_state (t : WriteTransaction) (d : Db.Db) : Db.Db := Db.set_visibility (Visibility.register_commit (tx_id t) (Db.visibility_manager d)) d.
Lemma steps_app s ts1 s1 ts2 s2 : runs s ts1 s1 -> runs s1 ts2 s2 -> runs s (ts1 ++ ts2) s2.
Proof. induction 1 as [|? o ? ts ? Hs Hss IH]; intros H2; [done|]. rewrite <- app_assoc. econstructor; [exact Hs|by apply IH]. Qed.
(** One transaction, alone, from its beginning to its commit. *)
Definition play (tau : TxId) (w w' : Z) (i : Interning.StringInterner) (d : Db.Db) {A} (m : SM Session Error A) :
    option (Interning.StringInterner * WriteTransaction * Db.Db) :=
  match write_transaction tau (us w) (us w) d with
  | (d, Ok t) =>
      let s := (m (mkSession i d t)).1 in
      match prepare (tx s) (db s) with
      | (e, Ok ids) =>
          match locks (tx s) w' (interner s) ids e with
          | (e', Ok _) =>
              if (gen d + 1 <=? 2 ^ 62) && (gen (db s) + buffer_len (tx s) <=? 2 ^ 62) && (gen e + 2 * buffer_len (tx s) <=? 2 ^ 62)
              then Some (interner s, tx s, committed_state (tx s) e') else None
          | _ => None
          end
      | _ => None
      end
  | _ => None
  end.
Lemma play_runs tau w w' i d {A} (m : SM Session Error A) {Hm : Buffering m} i' t d' :
  play tau w w' i d m = Some (i', t, d') -> runs (mkSystem i d ∅) [t] (mkSystem i' d' ∅).
Proof.
  unfold play. destruct (write_transaction tau (us w) (us w) d) as [e1 [t1|e|]] eqn:H1; [|done..].
  destruct (m (mkSession i e1 t1)) as [[i2 e2 t2] r] eqn:H2. cbn [fst interner db tx].
  destruct (prepare t2 e2) as [e3 [ids|e|]] eqn:H3; [|done..].
  destruct (locked _ _ _ _ _ _ _ _ _ e3) as [e4 [c|e|]] eqn:H4; [|done..].
  destruct (_ && _) eqn:Hr; [|done]. apply andb_true_iff in Hr as [[G1%Z.leb_le G2%Z.leb_le]%andb_true_iff G3%Z.leb_le]. intros [= <- <- <-].
  change [t2] with (option_list None ++ option_list None ++ option_list None ++ option_list (Some t2) ++ []).
  econstructor; [eapply (S_begin _ _ _ _ _ (mkSystem i d ∅)); [apply lookup_empty|exact H1]|].
  econstructor; [eapply (S_buffer _ _ _ _ _ (mkSystem i e1 _) tau t1 m); [apply lookup_insert_eq|exact G1|exact H2]|].
  econstructor; [eapply (S_prepare _ _ _ _ _ (mkSystem i2 e2 _) tau t2); [apply lookup_insert_eq|exact G2|exact H3]|].
  simpl strings. simpl running. rewrite !insert_insert_eq.
  econstructor; [eapply (S_commit _ _ _ _ _ (mkSystem i2 e3 _) tau t2 ids (env w')); [apply lookup_insert_eq|exact G3|exact H4]|].
  simpl. rewrite delete_insert_eq, delete_empty. constructor.
Qed.

Definition claim (expected : VersionId) (p : PropertyMap) : SM Session Error VersionId := cas_node_impl iter (us 3000) 0 expected p None None default_options.
#[local] Instance claim_buffers expected p : Buffering (claim expected p).
Proof. exact (cas_node_buffers iter (us 3000) 0 expected p None None default_options). Qed.
Definition c1 : Session := Eval vm_compute in then_ (claim 0 pa) (start 2 3000 i1 d1).
Definition dc1 : Db.Db := Eval vm_compute in committed_state (tx c1) (locks (tx c1) 4000 i1 [] (db c1)).1.
Definition c2 : Session := Eval vm_compute in then_ (claim 3 pb) (start 3 5000 i1 dc1).
Definition dc2 : Db.Db := Eval vm_compute in committed_state (tx c2) (locks (tx c2) 6000 i1 [] (db c2)).1.
Lemma cas_exclusive_witness : exists s', runs sys0 [tx c1; tx c2] s' /\ 0 <> 3.
Proof.
  assert (Hr : runs sys0 [tx c1; tx c2] (mkSystem i1 dc2 ∅)).
  { apply (steps_app sys0 [tx c1] (mkSystem i1 dc1 ∅) [tx c2]).
    - apply (play_runs 2 3000 4000 i1 d1 (claim 0 pa) i1 (tx c1) dc1). vm_compute. reflexivity.
    - apply (play_runs 3 5000 6000 i1 dc1 (claim 3 pb) i1 (tx c2) dc2). vm_compute. reflexivity. }
  exists (mkSystem i1 dc2 ∅). split; [exact Hr|].
  apply (cas_exclusive crc0 no_ptr no_map_ptr History.default_config no_hooks sys0 [] (tx c1) [] (tx c2) [] _ (mkCas (TNode 0) 0 None None) (mkCas (TNode 0) 3 None None)
           sys0_consistent Hr); [vm_compute; left|vm_compute; left|reflexivity..].
Defined.
End CommitRuns.
