(* ===== verification/Constraint.v ===== *)
(** * Constraints: [src/core/constraint.rs], [src/api/transaction/write/constraint.rs], and
    their use in [src/db/ops.rs], [src/db/schema_constraint.rs] and
    [src/storage/recovery.rs]

    The registry of uniqueness constraints (the declared pairs and the reservations) and
    of schema constraints, the check a commit makes of it, the guard that gives its
    reservations back, and a commit with a registry.  A registry method is one step. *)

From S2P Require Import Prelude.
From S2P Require Import SliceOps.
From S2P Require Import Bytes.
From S2P Require Import Errors.
From S2P Require Import Hlc.
From S2P Require Import Ids.
From S2P Require Import Interning.
From S2P Require Import Vectors.
From S2P Require Import Property.
From S2P Require Import PropMap.
From S2P Require Import Namespaces.
From S2P Require Import Delta.
From S2P Require Import History.
From S2P Require Import Wal.
From S2P Require Import TxFrames.
From S2P Require Import CurrentIndex.
From S2P Require Import CurrentStore.
From S2P Require Import Transactions.
From S2P Require Import Commit.

Module Constr.
Import Float PropMap Graph.

(** ** Declared types *)

(** [changefeed::EntityKind] *)
Inductive EntityKind := KNode | KEdge.
#[global] Instance EntityKind_eq_dec : EqDecision EntityKind.
Proof. solve_decision. Defined.
#[global] Program Instance EntityKind_countable : Countable EntityKind :=
  inj_countable' (fun k => match k with KNode => true | KEdge => false end) (fun b : bool => if b then KNode else KEdge) _.
Next Obligation. by intros []. Qed.
Definition as_str (k : EntityKind) : string := match k with KNode => "node" | KEdge => "edge" end.

Inductive DeclaredType :=
  | TString | TInteger | TFloat | TBoolean | TTemporal | TBytes
  | TVector (dim : option Z).
#[global] Instance DeclaredType_eq_dec : EqDecision DeclaredType.
Proof. solve_decision. Defined.

(** [DeclaredType::type_name], [PropertyValue::type_name] *)
Definition declared_name (t : DeclaredType) : string :=
  match t with
  | TString => "string" | TInteger => "int" | TFloat => "float" | TBoolean => "bool"
  | TTemporal => "temporal" | TBytes => "bytes" | TVector _ => "vector"
  end.
Definition type_name (v : PropertyValue) : string :=
  match v with
  | PNull => "null" | PBool _ => "bool" | PInt _ => "int" | PFloat _ => "float" | PString _ => "string"
  | PBytes _ => "bytes" | PArray _ => "array" | PVector _ => "vector" | PSparse _ => "sparse_vector"
  end.
Definition type_matches (t : DeclaredType) (value : PropertyValue) : bool :=
  match t, value with
  | TString, PString _ | TInteger, PInt _ | TFloat, PFloat _ | TBoolean, PBool _ | TTemporal, PInt _ | TBytes, PBytes _ => true
  | TVector dim, PVector v => from_option (fun d => Z.of_nat (length v) =? d) true dim
  | _, _ => false
  end.

Record PropertyConstraint := mkConstraint {
  property : Z;
  declared_type : option DeclaredType;
  required : bool;
  nullable : bool }.

(** ** Values as keys *)
Inductive ValueKey :=
  | VBool (b : bool) | VInt (i : Z) | VFloat (bits : Z) | VString (s : bytes) | VBytes (b : bytes).
#[global] Instance ValueKey_eq_dec : EqDecision ValueKey.
Proof. solve_decision. Defined.
#[global] Program Instance ValueKey_countable : Countable ValueKey :=
  inj_countable'
    (fun k => match k with VBool b => inl (inl b) | VInt i => inl (inr (inl i)) | VFloat f => inl (inr (inr f))
                         | VString s => inr (inl s) | VBytes b => inr (inr b) end)
    (fun k : (bool + (Z + Z)) + (bytes + bytes) => match k with inl (inl b) => VBool b | inl (inr (inl i)) => VInt i
                         | inl (inr (inr f)) => VFloat f | inr (inl s) => VString s | inr (inr b) => VBytes b end) _.
Next Obligation. by intros []. Qed.

(** [f64::NAN.to_bits()] *)
Definition NAN_BITS : Z := 9221120237041090560.
Definition from_property_value (v : PropertyValue) : option ValueKey :=
  match v with
  | PBool b => Some (VBool b)
  | PInt i => Some (VInt i)
  | PFloat f => Some (VFloat (if f64_is_nan f then NAN_BITS else f))
  | PString s => Some (VString s)
  | PBytes b => Some (VBytes b)
  | PNull | PVector _ | PSparse _ | PArray _ => None
  end.

Record ReservationKey := mkKey { key_label : Z; key_property : Z; key_value : ValueKey }.
#[global] Instance ReservationKey_eq_dec : EqDecision ReservationKey.
Proof. solve_decision. Defined.
#[global] Program Instance ReservationKey_countable : Countable ReservationKey :=
  inj_countable' (fun k => (key_label k, key_property k, key_value k)) (fun '(l, p, v) => mkKey l p v) _.
Next Obligation. by intros []. Qed.

(** ** The registry *)
Record ConstraintRegistry := mkRegistry {
  declarations : gset (Z * Z);
  reservation_index : gmap ReservationKey NodeId;
  schema_constraints : gmap (EntityKind * Z) (list PropertyConstraint) }.
Implicit Types reg : ConstraintRegistry.

Definition new : ConstraintRegistry := mkRegistry ∅ ∅ ∅.
Definition set_declarations d reg : ConstraintRegistry := mkRegistry d (reservation_index reg) (schema_constraints reg).
Definition set_index i reg : ConstraintRegistry := mkRegistry (declarations reg) i (schema_constraints reg).
Definition set_schema s reg : ConstraintRegistry := mkRegistry (declarations reg) (reservation_index reg) s.

Definition is_constrained (label property : Z) reg : bool := bool_decide ((label, property) ∈ declarations reg).
Definition declare (label property : Z) reg : ConstraintRegistry := set_declarations ({[ (label, property) ]} ∪ declarations reg) reg.
Definition undeclare (label property : Z) reg : ConstraintRegistry :=
  set_index (filter (fun p => ~ (key_label p.1 = label /\ key_property p.1 = property)) (reservation_index reg))
    (set_declarations (declarations reg ∖ {[ (label, property) ]}) reg).

Abbreviation M := (SM ConstraintRegistry ConstraintError).
(** [Ok true]: newly inserted. *)
Definition try_reserve (key : ReservationKey) (node_id : NodeId) (label_str property_str : bytes) : M bool := fun reg =>
  match reservation_index reg !! key with
  | None => (set_index (<[key := node_id]> (reservation_index reg)) reg, Ok true)
  | Some existing =>
      (reg, if existing =? node_id then Ok false else Err (UniqueViolation label_str property_str existing))
  end.

(** [ReservationGuard]: [release] is its [Drop] before [commit]. *)
Record ReservationGuard := mkGuard { added : list ReservationKey; to_remove : gset ReservationKey }.
Definition guard_new : ReservationGuard := mkGuard [] ∅.
Definition push_added (k : ReservationKey) (g : ReservationGuard) : ReservationGuard := mkGuard (added g ++ [k]) (to_remove g).
Definition remove_keys (ks : list ReservationKey) reg : ConstraintRegistry :=
  set_index (foldl (fun m k => delete k m) (reservation_index reg) ks) reg.
Definition commit_guard (g : ReservationGuard) reg : ConstraintRegistry := remove_keys (elements (to_remove g)) reg.
Definition release (g : ReservationGuard) reg : ConstraintRegistry := remove_keys (added g) reg.

(** ** Reserving *)
Definition entry := (Z * PropertyMap * NodeId)%type.

Section Reserve.
Context {St : Type} `{Interner St}.
Variable it : St.
(** The order in which a hash map of properties is iterated. *)
Variable iter : PropertyMap -> list (Z * PropertyValue).

(** [resolve_with(..).unwrap_or_default()] *)
Definition name_of (id : Z) : bytes := default [] (i_resolve it id).

(** The registry with the guard under construction. *)
Abbreviation G := (SM (ConstraintRegistry * ReservationGuard) ConstraintError).
Definition on_registry {A} (m : M A) : G A := fun '(reg, g) => let '(reg, a) := m reg in ((reg, g), a).
Definition on_guard (f : ReservationGuard -> ReservationGuard) : G unit := fun '(reg, g) => ((reg, f g), Ok tt).
Definition the_registry : G ConstraintRegistry := fun s => (s, Ok s.1).

Definition reserve_property (label prop_id : Z) (value : PropertyValue) (node_id : NodeId) (claimed : gset ReservationKey) : G (gset ReservationKey) :=
  reg ← the_registry;
  if negb (is_constrained label prop_id reg) then mret claimed
  else
    match from_property_value value with
    | None => mret claimed
    | Some vk =>
        let key := mkKey label prop_id vk in
        fresh ← on_registry (try_reserve key node_id (name_of label) (name_of prop_id));
        _ ← (if fresh : bool then on_guard (push_added key) else mret tt);
        mret ({[ key ]} ∪ claimed)
    end.
Fixpoint reserve_properties (label : Z) (node_id : NodeId) (props : list (Z * PropertyValue)) (claimed : gset ReservationKey) : G (gset ReservationKey) :=
  match props with
  | [] => mret claimed
  | (prop_id, value) :: props => claimed ← reserve_property label prop_id value node_id claimed; reserve_properties label node_id props claimed
  end.
Fixpoint reserve_added (entries : list entry) (claimed : gset ReservationKey) : G (gset ReservationKey) :=
  match entries with
  | [] => mret claimed
  | (label, props, node_id) :: entries => claimed ← reserve_properties label node_id (iter props) claimed; reserve_added entries claimed
  end.
(** The keys the displaced versions of the nodes hold. *)
Definition displaced_key (label : Z) reg (claimed : gset ReservationKey) (freed : gset ReservationKey) (p : Z * PropertyValue) : gset ReservationKey :=
  if negb (is_constrained label p.1 reg) then freed
  else
    match from_property_value p.2 with
    | Some vk => let key := mkKey label p.1 vk in if bool_decide (key ∈ claimed) then freed else {[ key ]} ∪ freed
    | None => freed
    end.
Definition displaced (entries : list entry) reg (claimed : gset ReservationKey) : gset ReservationKey :=
  foldl (fun freed '(label, props, _) => foldl (displaced_key label reg claimed) freed (iter props)) ∅ entries.

(** On an error the guard is dropped. *)
Definition reserve_for_transaction (added_entries removed_entries : list entry) : M ReservationGuard := fun reg =>
  match reserve_added added_entries ∅ (reg, guard_new) with
  | ((reg, g), Ok claimed) => (reg, Ok (mkGuard (added g) (displaced removed_entries reg claimed)))
  | ((reg, g), Err e) => (release g reg, Err e)
  | ((reg, g), Panic) => (release g reg, Panic)
  end.

(** ** Schema constraints *)
Inductive PropertyCheck := CheckOk | Missing (reason : string) | TypeMismatch (expected actual : string).
Definition check_property (c : PropertyConstraint) (value : option PropertyValue) : PropertyCheck :=
  let is_null := match value with Some PNull => true | _ => false end in
  let present_nonnull := bool_decide (is_Some value) && negb is_null in
  if required c && negb present_nonnull then Missing "missing required key"
  else if is_null then (if negb (nullable c) then Missing "null value not permitted" else CheckOk)
  else
    match declared_type c, value with
    | Some dt, Some v => if negb (type_matches dt v) then TypeMismatch (declared_name dt) (type_name v) else CheckOk
    | _, _ => CheckOk
    end.

Definition schema_constraints_empty reg : bool := bool_decide (schema_constraints reg = ∅).
Definition declare_schema_constraints (k : EntityKind) (label : Z) (cs : list PropertyConstraint) reg : ConstraintRegistry :=
  set_schema (<[(k, label) := cs]> (schema_constraints reg)) reg.
Definition drop_schema_constraints (k : EntityKind) (label : Z) reg : ConstraintRegistry * bool :=
  (set_schema (delete (k, label) (schema_constraints reg)) reg, bool_decide (is_Some (schema_constraints reg !! (k, label)))).
Definition schema_constraints_for (k : EntityKind) (label : Z) reg : option (list PropertyConstraint) := schema_constraints reg !! (k, label).

(** The loop of [check_entity]: a type mismatch returns at once. *)
Fixpoint check_properties (k : EntityKind) (label : Z) (properties : PropertyMap) (cs : list PropertyConstraint) (missing_keys : list bytes) :
    res ConstraintError (list bytes) :=
  match cs with
  | [] => Ok missing_keys
  | c :: cs =>
      match check_property c (get_by_interned_key properties (property c)) with
      | Missing _ => check_properties k label properties cs (missing_keys ++ [name_of (property c)])
      | TypeMismatch expected actual => Err (TypeViolation (as_str k) (name_of label) (name_of (property c)) expected actual)
      | CheckOk => check_properties k label properties cs missing_keys
      end
  end.
Definition check_entity (k : EntityKind) (label : Z) (properties : PropertyMap) reg : res ConstraintError unit :=
  match schema_constraints_for k label reg with
  | None => Ok tt
  | Some cs =>
      missing_keys ← check_properties k label properties cs [];
      match missing_keys with [] => Ok tt | _ => Err (MissingRequiredKey (as_str k) (name_of label) missing_keys) end
  end.
Definition evaluate_conformance (cs : list PropertyConstraint) (properties : PropertyMap) : list (option bytes * string) :=
  omap (fun c =>
    match check_property c (get_by_interned_key properties (property c)) with
    | CheckOk => None
    | Missing reason => Some (Some (name_of (property c)), reason)
    | TypeMismatch expected actual => Some (Some (name_of (property c)), ("expected type " +:+ expected +:+ ", got " +:+ actual)%string)
    end) cs.

(** ** The check of a transaction *)
Import WriteBuf.
Definition check_write (reg : ConstraintRegistry) (w : BufferedWrite) : res ConstraintError unit :=
  match w with
  | CreateNode _ _ label properties _ _ | UpdateNode _ _ label properties _ _ => check_entity KNode label properties reg
  | CreateEdge _ _ _ _ label properties _ _ | UpdateEdge _ _ _ _ label properties _ _ => check_entity KEdge label properties reg
  | _ => Ok tt
  end.
Fixpoint check_writes (reg : ConstraintRegistry) (ws : list BufferedWrite) : res ConstraintError unit :=
  match ws with [] => Ok tt | w :: ws => _ ← check_write reg w; check_writes reg ws end.
Definition added_entry (w : BufferedWrite) : option entry :=
  match w with
  | CreateNode n _ label properties _ _ | UpdateNode n _ label properties _ _ => Some (label, properties, n)
  | _ => None
  end.
Definition entry_of (n : Node) : entry := (n_label n, n_properties n, n_id n).
Definition removed_entry (c : CurStore.CurrentStorage) (w : BufferedWrite) : option entry :=
  match w with
  | UpdateNode n _ _ _ _ _ | DeleteNode n _ _ => match CurStore.get_node n c with Ok node => Some (entry_of node) | _ => None end
  | _ => None
  end.
(** [check_constraints] *)
Definition check_constraints (t : Tx.WriteTransaction) (c : CurStore.CurrentStorage) : M ReservationGuard :=
  let ws := operations (Tx.buffer t) in
  _ ← (fun reg => (reg, if negb (schema_constraints_empty reg) then check_writes reg ws else Ok tt));
  reserve_for_transaction (omap added_entry ws) (omap (removed_entry c) ws).
End Reserve.

(** ** Enabling *)

(** The ids under a key, in the order of the nodes. *)
Definition push_seen (vk : ValueKey) (n : NodeId) (seen : gmap ValueKey (list NodeId)) : gmap ValueKey (list NodeId) :=
  <[vk := default [] (seen !! vk) ++ [n]]> seen.
Fixpoint scan_values (label prop : Z) (label_str property_str : bytes) (nodes : list Node) (seen : gmap ValueKey (list NodeId)) :
    res ConstraintError (gmap ValueKey (list NodeId)) :=
  match nodes with
  | [] => Ok seen
  | node :: nodes =>
      if negb (n_label node =? label) then scan_values label prop label_str property_str nodes seen
      else
        match get_by_interned_key (n_properties node) prop with
        | None | Some PNull => scan_values label prop label_str property_str nodes seen
        | Some pv =>
            match from_property_value pv with
            | None => Err (UnsupportedKeyType label_str property_str (type_name pv))
            | Some vk => scan_values label prop label_str property_str nodes (push_seen vk (n_id node) seen)
            end
        end
  end.
Definition check_no_duplicates (nodes : list Node) (label prop : Z) (label_str property_str : bytes) : res ConstraintError unit :=
  seen ← scan_values label prop label_str property_str nodes ∅;
  match List.find (fun p => (2 <=? length p.2)%nat) (map_to_list seen) with
  | Some (_, ids) => Err (DuplicateOnEnable label_str property_str ids)
  | None => Ok tt
  end.
Definition rebuild_node (label prop : Z) reg (node : Node) : ConstraintRegistry :=
  if negb (n_label node =? label) then reg
  else
    match get_by_interned_key (n_properties node) prop ≫= from_property_value with
    | Some vk => set_index (<[mkKey label prop vk := n_id node]> (reservation_index reg)) reg
    | None => reg
    end.
Definition rebuild_from_nodes (nodes : list Node) (label prop : Z) reg : ConstraintRegistry := foldl (rebuild_node label prop) reg nodes.

Section Enable.
Context {St : Type} `{Interner St}.
(** What the append and the flush of the declaration answer. *)
Variable persisted : res Error unit.

Definition change {S} (f : S -> S) : SM S Error unit := fun s => (f s, Ok tt).

(** [enable_unique_constraint], in the two steps between which other transactions run:
    what is read and reserved, and the declaration once it is durable. *)
Definition scan_and_reserve (c : CurStore.CurrentStorage) (label property : bytes) : SM (St * ConstraintRegistry) Error (Z * Z) := fun '(it, reg) =>
  match i_intern it label with
  | (it, Ok label_id) =>
      match i_intern it property with
      | (it, Ok prop_id) =>
          let nodes := CurStore.get_nodes_by_label it label c in
          match check_no_duplicates nodes label_id prop_id label property with
          | Ok _ => ((it, rebuild_from_nodes nodes label_id prop_id reg), Ok (label_id, prop_id))
          | Err e => ((it, reg), Err (EConstraint e))
          | Panic => ((it, reg), Panic)
          end
      | (it, Err e) => ((it, reg), Err e)
      | (it, Panic) => ((it, reg), Panic)
      end
  | (it, Err e) => ((it, reg), Err e)
  | (it, Panic) => ((it, reg), Panic)
  end.
Definition enable_unique_constraint (c : CurStore.CurrentStorage) (label property : bytes) : SM (St * ConstraintRegistry) Error unit :=
  ids ← scan_and_reserve c label property;
  _ ← lift persisted;
  change (fun '(it, reg) => (it, declare ids.1 ids.2 reg)).
Definition disable_unique_constraint (it : St) (label property : bytes) : SM ConstraintRegistry Error unit :=
  match i_get_id it label, i_get_id it property with
  | Some label_id, Some prop_id =>
      _ ← lift persisted;
      change (undeclare label_id prop_id)
  | _, _ => mret tt
  end.
End Enable.

(** [apply_constraint_declarations] *)
Definition apply_declaration reg (e : Wal.WalEntry) : ConstraintRegistry :=
  match Wal.operation e with
  | Wal.DeclareUniqueConstraint label prop => declare label prop reg
  | Wal.DropUniqueConstraint label prop => undeclare label prop reg
  | _ => reg
  end.
Definition apply_constraint_declarations (entries : list Wal.WalEntry) reg : ConstraintRegistry := foldl apply_declaration reg entries.

(** [list], and the rebuild at start-up of every listed constraint *)
Section Startup.
Context {St : Type} `{Interner St}.
Variable it : St.
Definition list_unique reg : list (bytes * bytes) :=
  omap (fun p => label ← i_resolve it p.1; prop ← i_resolve it p.2; Some (label, prop)) (elements (declarations reg)).
Definition rebuild_listed (c : CurStore.CurrentStorage) reg (p : bytes * bytes) : ConstraintRegistry :=
  match i_get_id it p.1, i_get_id it p.2 with
  | Some label_id, Some prop_id => rebuild_from_nodes (CurStore.get_nodes_by_label it p.1 c) label_id prop_id reg
  | _, _ => reg
  end.
Definition rebuild_reservations (c : CurStore.CurrentStorage) reg : ConstraintRegistry := foldl (rebuild_listed c) reg (list_unique reg).
End Startup.

(** ** A commit with a registry *)
Section Commit.
Import Tx Commit.
Context {St : Type} `{Interner St}.
Variable it : St.
Variable iter : PropertyMap -> list (Z * PropertyValue).
Variable crc32 : bytes -> Z.
Variable ptr_eq : PropertyValue -> PropertyValue -> bool.
Variable map_ptr_eq : PropertyMap -> PropertyMap -> bool.
Variable config : History.Config.
Variable pre_anchor_hooks : Z -> HybridTimestamp -> PropertyMap -> option Z.

Abbreviation W := (SM (Db.Db * ConstraintRegistry) Error).
Definition on_db {A} (m : SM Db.Db Error A) : W A := fun '(d, reg) => let '(d, a) := m d in ((d, reg), a).
Definition check_registry (t : WriteTransaction) : W ReservationGuard := fun '(d, reg) =>
  let '(reg, r) := check_constraints it iter t (Db.current d) reg in ((d, reg), map_err EConstraint r).
Definition with_registry (f : ConstraintRegistry -> ConstraintRegistry) : W unit := change (fun '(d, reg) => (d, f reg)).
(** The guard is dropped when what it guards fails. *)
Definition guarded {A} (g : ReservationGuard) (m : W A) : W A := fun s =>
  match m s with
  | (s, Ok a) => (s, Ok a)
  | ((d, reg), r) => ((d, release g reg), r)
  end.
Definition drop_tx_unless_ok {A} (t : WriteTransaction) (m : W A) : W A := fun s =>
  match m s with (s, Ok a) => (s, Ok a) | ((d, reg), r) => ((abort t d, reg), r) end.

(** [commit_with_timestamp] of a transaction that has a registry *)
Definition commit_constrained (t : WriteTransaction) (env : Environment) : W HybridTimestamp :=
  match state t with
  | Active =>
      drop_tx_unless_ok t
        (_ ← on_db (guard (validate t));
         _ ← on_db (guard (detect_conflicts t));
         g ← check_registry t;
         guarded g
           (closing_version_ids ← on_db (pregenerate_closing_version_ids t);
            commit ← on_db (locked it crc32 ptr_eq map_ptr_eq config pre_anchor_hooks t env closing_version_ids);
            _ ← with_registry (commit_guard g);
            _ ← on_db (with_visibility (Visibility.register_commit (tx_id t)));
            mret commit))
  | Preparing => fun '(d, reg) => ((abort t d, reg), Err (ETransaction InvalidState))
  | _ => on_db (lift (Err (ETransaction InvalidState)))
  end.
End Commit.
End Constr.
