(* ===== verification/ConstraintLaws.v ===== *)
(** * The constraints hold

    What a check reserves and how it is given back; uniqueness of the constrained values
    over every interleaving of the checks, applications, failures and releases of
    transactions that write different nodes; the schema of what a commit writes. *)

From S2P Require Import Prelude.
From S2P Require Import SliceOps.
From S2P Require Import Bytes.
From S2P Require Import Errors.
From S2P Require Import Hlc.
From S2P Require Import Ids.
From S2P Require Import Interning.
From S2P Require Import Property.
From S2P Require Import PropMap.
From S2P Require Import Namespaces.
From S2P Require Import Delta.
From S2P Require Import History.
From S2P Require Import Wal.
From S2P Require Import TxFrames.
From S2P Require Import HistoryFacts.
From S2P Require Import Csr.
From S2P Require Import CurrentIndex.
From S2P Require Import CurrentStore.
From S2P Require Import Transactions.
From S2P Require Import Commit.
From S2P Require Import CommitLaws.
From S2P Require Import CommitEffect.
From S2P Require Import Constraint.

(** ** Removing keys *)
Section Keys.
Import Constr.
Implicit Types reg : ConstraintRegistry.
Lemma registry_eq reg reg' : declarations reg = declarations reg' -> schema_constraints reg = schema_constraints reg' ->
  (forall k, reservation_index reg !! k = reservation_index reg' !! k) -> reg = reg'.
Proof. destruct reg, reg'; simpl. intros -> -> E. f_equal. by apply map_eq. Qed.
Lemma removed_lookup ks : forall reg k,
  reservation_index (remove_keys ks reg) !! k = if decide (k ∈ ks) then None else reservation_index reg !! k.
Proof.
  intros reg k. simpl. generalize (reservation_index reg). induction ks as [|q ks IH]; intros m; cbn [foldl].
  { case_decide as Hk; [by apply elem_of_nil in Hk|done]. }
  rewrite IH. destruct (decide (k = q)) as [->|Hn]; [rewrite lookup_delete_eq|rewrite lookup_delete_ne by done]; repeat case_decide; set_solver.
Qed.
Lemma released_lookup g reg k : reservation_index (release g reg) !! k = if decide (k ∈ added g) then None else reservation_index reg !! k.
Proof. apply removed_lookup. Qed.
Lemma committed_lookup g reg k : reservation_index (commit_guard g reg) !! k = if decide (k ∈ to_remove g) then None else reservation_index reg !! k.
Proof. unfold commit_guard. rewrite removed_lookup. repeat case_decide; set_solver. Qed.
Lemma undeclared_lookup l p reg k : (key_label k, key_property k) <> (l, p) -> reservation_index (undeclare l p reg) !! k = reservation_index reg !! k.
Proof.
  intros Hk. apply option_eq. intros n. simpl. rewrite map_lookup_filter_Some. simpl. split; [by intros []|].
  intros Hn. split; [done|]. intros [? ?]. congruence.
Qed.
End Keys.

(** ** What a check reserves *)
Section Reserving.
Import Constr PropMap Graph.
Context {St : Type} `{Interner St}.
Context (it : St) (iter : PropertyMap -> list (Z * PropertyValue)).
Implicit Types (reg : ConstraintRegistry) (g : ReservationGuard).
Abbreviation G := (SM (ConstraintRegistry * ReservationGuard) ConstraintError).
Abbreviation claim := (ReservationKey * NodeId)%type.

(** The reservations the entries ask for, one by one. *)
Definition asked_key (label : Z) (reg : ConstraintRegistry) (p : Z * PropertyValue) : option ReservationKey :=
  if is_constrained label p.1 reg then mkKey label p.1 <$> from_property_value p.2 else None.
Definition asked reg (e : entry) : list claim := omap (fun p => (fun k => (k, e.2)) <$> asked_key e.1.1 reg p) (iter e.1.2).
Definition reserve_one (c : claim) (claimed : gset ReservationKey) : G (gset ReservationKey) :=
  fresh ← on_registry (try_reserve c.1 c.2 (name_of it (key_label c.1)) (name_of it (key_property c.1)));
  _ ← (if fresh : bool then on_guard (push_added c.1) else mret tt);
  mret ({[ c.1 ]} ∪ claimed).
Fixpoint reserve_list (cs : list claim) (claimed : gset ReservationKey) : G (gset ReservationKey) :=
  match cs with [] => mret claimed | c :: cs => claimed ← reserve_one c claimed; reserve_list cs claimed end.

Definition same_rules reg reg' : Prop := declarations reg' = declarations reg /\ schema_constraints reg' = schema_constraints reg.
Lemma asked_same reg reg' e : same_rules reg reg' -> asked reg' e = asked reg e.
Proof. intros [E _]. unfold asked, asked_key, is_constrained. by rewrite E. Qed.
Lemma try_reserve_rules k n a b reg : same_rules reg (try_reserve k n a b reg).1.
Proof. unfold try_reserve. by destruct (reservation_index reg !! k). Qed.
Lemma reserve_one_rules c claimed s : same_rules s.1 (reserve_one c claimed s).1.1.
Proof.
  destruct s as [reg g]. unfold reserve_one, on_registry, mbind, sm_bind.
  pose proof (try_reserve_rules c.1 c.2 (name_of it (key_label c.1)) (name_of it (key_property c.1)) reg) as Hr.
  by destruct (try_reserve _ _ _ _ reg) as [reg' [[]|e|]].
Qed.
Lemma reserve_list_app cs1 cs2 : forall claimed s,
  reserve_list (cs1 ++ cs2) claimed s = (claimed' ← reserve_list cs1 claimed; reserve_list cs2 claimed') s.
Proof.
  induction cs1 as [|c cs1 IH]; intros claimed s; simpl; [done|]. unfold mbind at 1 3, sm_bind at 1 3.
  unfold mbind, sm_bind. destruct (reserve_one c claimed s) as [s1 [a|e|]]; [|done..]. by rewrite IH.
Qed.
Lemma reserve_list_rules cs : forall claimed s, same_rules s.1 (reserve_list cs claimed s).1.1.
Proof.
  induction cs as [|c cs IH]; intros claimed s; simpl; [done|]. unfold mbind, sm_bind.
  pose proof (reserve_one_rules c claimed s) as Hr. destruct (reserve_one c claimed s) as [s1 [a|e|]]; [|done..].
  simpl in Hr. specialize (IH a s1). unfold same_rules in *. intuition congruence.
Qed.

Lemma reserve_property_one label p n claimed s :
  reserve_property it label p.1 p.2 n claimed s = reserve_list (option_list ((fun k => (k, n)) <$> asked_key label s.1 p)) claimed s.
Proof.
  destruct s as [reg g]. unfold reserve_property, asked_key, the_registry. unfold mbind at 1, sm_bind at 1. cbn [fst].
  destruct (is_constrained label p.1 reg); [|done]. cbn [negb]. destruct (from_property_value p.2) as [vk|]; [|done].
  cbn [fmap option_fmap option_map option_list reserve_list].
  change (reserve_one (mkKey label p.1 vk, n) claimed (reg, g) = (claimed ← reserve_one (mkKey label p.1 vk, n) claimed; mret claimed) (reg, g)).
  unfold mbind at 1, sm_bind at 1. by destruct (reserve_one _ _ _) as [? [?|?|]].
Qed.
Lemma reserve_properties_list label n ps : forall claimed s,
  reserve_properties it label n ps claimed s = reserve_list (omap (fun p => (fun k => (k, n)) <$> asked_key label s.1 p) ps) claimed s.
Proof.
  induction ps as [|[p v] ps IH]; intros claimed s; [done|]. cbn [reserve_properties].
  transitivity (reserve_list (option_list ((fun k => (k, n)) <$> asked_key label s.1 (p, v)) ++ omap (fun p => (fun k => (k, n)) <$> asked_key label s.1 p) ps) claimed s).
  2: { f_equal. simpl. by destruct (asked_key label s.1 (p, v)). }
  rewrite reserve_list_app. unfold mbind, sm_bind. rewrite (reserve_property_one label (p, v)).
  pose proof (reserve_list_rules (option_list ((fun k => (k, n)) <$> asked_key label s.1 (p, v))) claimed s) as [E _].
  destruct (reserve_list _ claimed s) as [s1 [a|e|]]; [|done..]. rewrite IH. f_equal. simpl in E.
  apply list_omap_ext, Forall_Forall2_diag, Forall_true. intros q. unfold asked_key, is_constrained. by rewrite E.
Qed.
Lemma reserve_added_list es : forall claimed s, reserve_added it iter es claimed s = reserve_list (es ≫= asked s.1) claimed s.
Proof.
  induction es as [|[[l ps] n] es IH]; intros claimed s; [done|]. cbn [reserve_added].
  change (((l, ps, n) :: es) ≫= asked s.1) with (asked s.1 (l, ps, n) ++ (es ≫= asked s.1)).
  remember (es ≫= asked s.1) as rest eqn:Erest. rewrite reserve_list_app. unfold mbind, sm_bind. rewrite reserve_properties_list.
  pose proof (reserve_list_rules (asked s.1 (l, ps, n)) claimed s) as Hr. unfold asked in Hr |- *. cbn [fst snd] in *.
  destruct (reserve_list _ claimed s) as [s1 [a|e|]]; [|done..]. rewrite IH. f_equal. subst rest. simpl in Hr.
  clear - Hr. induction es as [|e es IH]; [done|]. cbn [mbind list_bind]. by rewrite (asked_same _ _ e Hr), IH.
Qed.

(** *** Success *)
Record reserved (cs : list claim) reg reg' g g' : Prop := {
  rs_rules : same_rules reg reg';
  rs_claims : forall k n, (k, n) ∈ cs -> reservation_index reg' !! k = Some n;
  rs_kept : forall k n, reservation_index reg !! k = Some n -> reservation_index reg' !! k = Some n;
  rs_added : forall k, k ∈ added g' -> k ∈ added g \/ reservation_index reg !! k = None /\ exists n, (k, n) ∈ cs }.
Lemma reserve_one_ok c claimed reg g reg' g' claimed' : reserve_one c claimed (reg, g) = ((reg', g'), Ok claimed') ->
  reserved [c] reg reg' g g' /\ claimed' = {[ c.1 ]} ∪ claimed.
Proof.
  intros Hm. pose proof (reserve_one_rules c claimed (reg, g)) as Hr. rewrite Hm in Hr. destruct c as [k n].
  revert Hm. unfold reserve_one, on_registry, try_reserve, mbind, sm_bind. cbn [fst snd].
  destruct (reservation_index reg !! k) as [m|] eqn:Ek; [destruct (Z.eqb_spec m n) as [->|]; [|done]|];
    intros [= <- <- <-]; (split; [|done]); (split; [done| | |]); simpl in *.
  - intros k' n' [= -> ->]%list_elem_of_singleton. done.
  - done.
  - by left.
  - intros k' n' [= -> ->]%list_elem_of_singleton. apply lookup_insert_eq.
  - intros k' n' Hk. rewrite lookup_insert_ne; [done|]. intros <-. unfold NodeId in *. by rewrite Ek in Hk.
  - intros k' [Hk| ->%list_elem_of_singleton]%elem_of_app; [by left|]. right. split; [done|]. exists n. by apply list_elem_of_singleton.
Qed.
Lemma reserve_list_ok cs : forall claimed reg g reg' g' claimed', reserve_list cs claimed (reg, g) = ((reg', g'), Ok claimed') ->
  reserved cs reg reg' g g' /\ claimed' = list_to_set cs.*1 ∪ claimed.
Proof.
  induction cs as [|c cs IH]; intros claimed reg g reg' g' claimed'; cbn [reserve_list].
  { intros [= <- <- <-]. split; [|set_solver]. split; [done|by intros k n ?%elem_of_nil|done|by left]. }
  intros ([reg1 g1] & cl1 & [[R1 C1 K1 A1] ->]%reserve_one_ok & [[R2 C2 K2 A2] ->]%IH)%sm_bind_inv. split; [|set_solver].
  split; [unfold same_rules in *; intuition congruence| |by eauto|].
  - intros k n [E|Hi]%elem_of_cons; [apply K2, C1; rewrite E; by apply list_elem_of_singleton|by apply C2].
  - intros k [[Hk|[Hk (n & Hn)]]%A1|[Hk (n & Hn)]]%A2; [by left|..]; right.
    + split; [done|]. exists n. set_solver.
    + split; [|exists n; set_solver]. destruct (reservation_index reg !! k) as [m|] eqn:E; [|done]. by rewrite (K1 _ _ E) in Hk.
Qed.

(** *** Giving back *)
Lemma reserve_one_release c claimed reg g reg' g' r : reserve_one c claimed (reg, g) = ((reg', g'), r) -> release g' reg' = release g reg.
Proof.
  destruct c as [k n]. unfold reserve_one, on_registry, try_reserve, mbind, sm_bind. cbn [fst snd].
  destruct (reservation_index reg !! k) as [m|] eqn:Ek; [by destruct (m =? n); intros [= <- <- <-]|]. intros [= <- <- <-].
  apply registry_eq; [done..|]. intros q. rewrite !released_lookup. simpl.
  destruct (decide (q = k)) as [->|Hn].
  - rewrite decide_True by set_solver. by case_decide.
  - rewrite lookup_insert_ne by done. repeat case_decide; set_solver.
Qed.
Lemma reserve_list_release cs : forall claimed reg g reg' g' r, reserve_list cs claimed (reg, g) = ((reg', g'), r) -> release g' reg' = release g reg.
Proof.
  induction cs as [|c cs IH]; intros claimed reg g reg' g' r; cbn [reserve_list]; [by intros [= <- <- _]|].
  unfold mbind, sm_bind. destruct (reserve_one c claimed (reg, g)) as [[reg1 g1] r1] eqn:E. apply reserve_one_release in E.
  destruct r1 as [a|e|]; [|by intros [= <- <- _]..]. by intros ->%IH.
Qed.
Lemma release_new reg : release guard_new reg = reg.
Proof. by destruct reg. Qed.
Lemma reserve_transaction_back es rs reg : match reserve_for_transaction it iter es rs reg with (reg', Ok g) => release g reg' = reg | (reg', _) => reg' = reg end.
Proof.
  unfold reserve_for_transaction. rewrite reserve_added_list. destruct (reserve_list _ _ _) as [[reg' g] r] eqn:E.
  apply reserve_list_release in E. rewrite release_new in E. by destruct r.
Qed.

(** C12: Whatever a transaction reserved, dropping its guard leaves the registry as it was
    before the check; a check that fails leaves it so itself. *)
Theorem reservation_rollback t c reg :
  match check_constraints it iter t c reg with (reg', Ok g) => release g reg' = reg | (reg', _) => reg' = reg end.
Proof.
  unfold check_constraints, mbind, sm_bind. destruct (if negb _ then _ else _) as [[]|e|]; [|done..]. apply reserve_transaction_back.
Qed.

(** *** What the entries hold *)
Definition held (e : entry) (k : ReservationKey) : Prop :=
  e.1.1 = key_label k /\ exists v, get_by_interned_key e.1.2 (key_property k) = Some v /\ from_property_value v = Some (key_value k).
Definition declared reg (k : ReservationKey) : Prop := (key_label k, key_property k) ∈ declarations reg.
Hypothesis iter_perm : forall p, iter p ≡ₚ map_to_list (inner p).
Lemma iter_elem p k v : (k, v) ∈ iter p <-> get_by_interned_key p k = Some v.
Proof. rewrite (iter_perm p). apply elem_of_map_to_list. Qed.
Lemma asked_key_some label reg p k : asked_key label reg p = Some k <->
  declared reg k /\ key_label k = label /\ key_property k = p.1 /\ from_property_value p.2 = Some (key_value k).
Proof.
  unfold asked_key, is_constrained, declared. case_bool_decide as Hd.
  - rewrite fmap_Some. split; [by intros (vk & Hv & ->)|]. intros (_ & El & Ep & Hv). exists (key_value k). destruct k; simpl in *. by subst.
  - split; [done|]. intros (Hk & El & Ep & _). rewrite El, Ep in Hk. done.
Qed.
Lemma asked_elem reg e k n : (k, n) ∈ asked reg e <-> declared reg k /\ held e k /\ n = e.2.
Proof.
  unfold asked. rewrite list_elem_of_omap. split.
  - intros ([p v] & Hp%iter_elem & (k' & (Hd & Hl & Hk & Hv)%asked_key_some & [= <- ->])%fmap_Some). simpl in *. subst p.
    split; [done|]. split; [|done]. split; [done|]. by exists v.
  - intros (Hd & (Hl & v & Hv & Hf) & ->). exists (key_property k, v). split; [by apply iter_elem|]. apply fmap_Some. exists k. split; [|done]. by apply asked_key_some.
Qed.
Lemma displaced_step label reg claimed (ps : list (Z * PropertyValue)) : forall freed k,
  k ∈ foldl (displaced_key label reg claimed) freed ps <-> k ∈ freed \/ k ∉ claimed /\ exists p, p ∈ ps /\ asked_key label reg p = Some k.
Proof.
  induction ps as [|p ps IH]; intros freed k; simpl; [set_solver|]. rewrite IH. unfold displaced_key at 1.
  assert (Hs : k ∈ displaced_key label reg claimed freed p <-> k ∈ freed \/ k ∉ claimed /\ asked_key label reg p = Some k).
  { unfold displaced_key, asked_key. destruct (is_constrained label p.1 reg); simpl; [|naive_solver].
    destruct (from_property_value p.2) as [vk|]; simpl; [|naive_solver]. case_bool_decide; set_solver. }
  fold (displaced_key label reg claimed freed p). rewrite Hs. set_solver.
Qed.
Lemma displaced_elem es reg claimed k : k ∈ displaced iter es reg claimed <-> k ∉ claimed /\ declared reg k /\ exists e, e ∈ es /\ held e k.
Proof.
  unfold displaced. enough (forall freed, k ∈ foldl (fun freed '(label, props, _) => foldl (displaced_key label reg claimed) freed (iter props)) freed es <->
    k ∈ freed \/ k ∉ claimed /\ declared reg k /\ exists e, e ∈ es /\ held e k) as Hgo by (rewrite Hgo; set_solver).
  induction es as [|[[l ps] n] es IH]; intros freed; simpl; [set_solver|]. rewrite IH, displaced_step.
  assert (Hs : (exists p, p ∈ iter ps /\ asked_key l reg p = Some k) <-> declared reg k /\ held (l, ps, n) k).
  { pose proof (asked_elem reg (l, ps, n) k n) as Ha. unfold asked in Ha. rewrite list_elem_of_omap in Ha. cbn [fst snd] in Ha. split.
    - intros (p & Hp & Hk). destruct Ha as [Ha _]. destruct Ha as (Hd & He & _); [|done]. exists p. by rewrite Hk.
    - intros [Hd He]. destruct Ha as [_ Ha]. destruct Ha as (p & Hp & (k' & Hk & [= ->])%fmap_Some); [done|]. by exists p. }
  rewrite Hs. set_solver.
Qed.
End Reserving.
