(* ===== verification/ConstraintSafety.v ===== *)
(** * Uniqueness, whatever the interleaving

    The checks, applications, failures and releases of transactions as steps, with the
    switches of the constraints; the invariant that every constrained value a live node
    holds is reserved by it; the schema of what a commit writes. *)

From S2P Require Import Prelude.
From S2P Require Import SliceOps.
From S2P Require Import Bytes.
From S2P Require Import Errors.
From S2P Require Import Hlc.
From S2P Require Import Ids.
From S2P Require Import Interning.
From S2P Require Import Property.
From S2P Require Import PropMap.
From S2P Require Import Namespaces.
From S2P Require Import Delta.
From S2P Require Import History.
From S2P Require Import Wal.
From S2P Require Import TxFrames.
From S2P Require Import HistoryFacts.
From S2P Require Import Csr.
From S2P Require Import CurrentIndex.
From S2P Require Import CurrentStore.
From S2P Require Import Transactions.
From S2P Require Import Commit.
From S2P Require Import CommitLaws.
From S2P Require Import CommitEffect.
From S2P Require Import Constraint.
From S2P Require Import ConstraintLaws.

(** ** Who holds what *)
Section Holders.
Import Constr PropMap Graph CurIdx WriteBuf Tx.
Abbreviation node_map := (gmap NodeId Node).
Implicit Types (m : node_map) (reg : ConstraintRegistry) (t : WriteTransaction).

Definition holds m (k : ReservationKey) (n : NodeId) : Prop := exists x, m !! n = Some x /\ held (entry_of x) k.
Definition covered m reg : Prop := forall k n, declared reg k -> holds m k n -> reservation_index reg !! k = Some n.
Definition keyed m : Prop := forall n x, m !! n = Some x -> n_id x = n.
(** What a transaction writes, and the values it puts on nodes. *)
Definition writes t (n : NodeId) : Prop := exists w, w ∈ operations (buffer t) /\ node_id w = Some n.
Definition puts t (k : ReservationKey) (n : NodeId) : Prop := exists e, e ∈ omap added_entry (operations (buffer t)) /\ held e k /\ n = e.2.
Lemma puts_writes t k n : puts t k n -> writes t n.
Proof. intros (e & (w & Hw & He)%list_elem_of_omap & _ & ->). exists w. split; [done|]. by destruct w; simplify_eq/=. Qed.

(** No update of the transaction was for a time before the head of its node. *)
Definition in_place t m : Prop := forall n v l p vf pr x,
  last_write node_id n (operations (buffer t)) = Some (UpdateNode n v l p vf pr) -> m !! n = Some x -> n_label x = l /\ n_properties x = p.

Lemma effect_nodes `{Interner St} (it : St) sort t c (d d' : Db.Db) : effect it sort t c d d' -> keyed (nodes (graph d)) -> in_place t (nodes (graph d')) ->
  keyed (nodes (graph d')) /\ forall k n, holds (nodes (graph d')) k n -> holds (nodes (graph d)) k n /\ ~ writes t n \/ puts t k n.
Proof.
  intros (_ & Hn & _) Hk Hp. split.
  - intros n x Hx. specialize (Hn n). cbv zeta in Hn. destruct (last_write node_id n (operations (buffer t))) as [w|] eqn:El.
    2: { apply Hk. etrans; [symmetry; exact Hn|exact Hx]. }
    apply last_write_in in El as [_ Ew]. destruct w; simplify_eq/=; try (pose proof (eq_trans (eq_sym Hx) Hn); simplify_eq/=; done).
    destruct Hn as (l' & p' & v' & Hn & _). pose proof (eq_trans (eq_sym Hx) Hn). by simplify_eq.
  - intros k n (x & Hx & He). specialize (Hn n). cbv zeta in Hn. destruct (last_write node_id n (operations (buffer t))) as [w|] eqn:El.
    + right. pose proof El as [Hin Ew]%last_write_in. destruct w as [n' v l p vf pr| |n' v l p vf pr| | | | |]; simplify_eq/=;
        try (pose proof (eq_trans (eq_sym Hx) Hn); simplify_eq/=; done).
      * pose proof (eq_trans (eq_sym Hx) Hn). simplify_eq. exists (l, p, n). split; [|done]. apply list_elem_of_omap. eexists; split; [exact Hin|done].
      * destruct (Hp _ _ _ _ _ _ _ El Hx) as [<- <-]. exists (n_label x, n_properties x, n). split; [|by split].
        apply list_elem_of_omap. eexists; split; [exact Hin|done].
    + left. split; [exists x; split; [etrans; [symmetry; exact Hn|exact Hx]|exact He]|]. intros (w & Hw & Ew). by eapply last_write_none in El.
Qed.
End Holders.

(** ** What is rebuilt from the nodes *)
Section Rebuilding.
Import Constr PropMap Graph CurIdx.
Context {St : Type} `{Interner St}.
Implicit Types (reg : ConstraintRegistry) (c : CurStore.CurrentStorage).
Abbreviation node_map := (gmap NodeId Node).

(** *** Enabling *)
Definition value_at (label prop : Z) (x : Node) : option ValueKey :=
  if n_label x =? label then get_by_interned_key (n_properties x) prop ≫= from_property_value else None.
Definition matching (label prop : Z) (vk : ValueKey) (xs : list Node) : list NodeId := n_id <$> filter (fun x => value_at label prop x = Some vk) xs.
Lemma matching_cons label prop vk x xs :
  matching label prop vk (x :: xs) = (if decide (value_at label prop x = Some vk) then [n_id x] else []) ++ matching label prop vk xs.
Proof. unfold matching. rewrite filter_cons. by case_decide. Qed.
Lemma scan_values_seen label prop a b xs : forall seen seen', scan_values label prop a b xs seen = Ok seen' ->
  forall vk, default [] (seen' !! vk) = default [] (seen !! vk) ++ matching label prop vk xs.
Proof.
  induction xs as [|x xs IH]; intros seen seen'; cbn [scan_values].
  { intros [= <-] vk. by rewrite app_nil_r. }
  intros Hs vk. rewrite matching_cons.
  assert (Hv : value_at label prop x = None /\ scan_values label prop a b xs seen = Ok seen' \/
    exists q, value_at label prop x = Some q /\ scan_values label prop a b xs (push_seen q (n_id x) seen) = Ok seen').
  { unfold value_at. destruct (n_label x =? label); [|by left]. cbn [negb] in Hs.
    destruct (get_by_interned_key (n_properties x) prop) as [v|]; [|by left]. cbn [mbind option_bind].
    destruct v; try done; [by left|..]; right; by eexists. }
  destruct Hv as [[-> Hq]|(q & -> & Hq)]; rewrite (IH _ _ Hq); [done|].
  unfold push_seen. case_decide as Eq.
  - simplify_eq. rewrite lookup_insert_eq. simpl. by rewrite <- app_assoc.
  - rewrite lookup_insert_ne by congruence. done.
Qed.
Lemma no_duplicates label prop a b xs u vk : check_no_duplicates xs label prop a b = Ok u -> (length (matching label prop vk xs) < 2)%nat.
Proof.
  unfold check_no_duplicates. intros (seen & Hs & Hf)%bind_ok. rewrite <- (app_nil_l (matching _ _ _ _)).
  pose proof (scan_values_seen _ _ _ _ _ _ _ Hs vk) as E. rewrite lookup_empty in E. cbn [default] in E. simpl in E |- *. rewrite <- E.
  destruct (List.find _ _) as [[??]|] eqn:F in Hf; [done|]. destruct (seen !! vk) as [ids|] eqn:Ek; simpl; [|lia].
  apply elem_of_map_to_list, list_elem_of_In in Ek. pose proof (List.find_none _ _ F _ Ek) as Hn. cbn [snd] in Hn. by apply Nat.leb_gt in Hn.
Qed.
Lemma rebuild_lookup label prop xs : forall reg, same_rules reg (rebuild_from_nodes xs label prop reg) /\
  forall k, reservation_index (rebuild_from_nodes xs label prop reg) !! k =
    if decide ((key_label k, key_property k) = (label, prop)) then
      match last (matching label prop (key_value k) xs) with Some n => Some n | None => reservation_index reg !! k end
    else reservation_index reg !! k.
Proof.
  unfold rebuild_from_nodes. induction xs as [|x xs IH]; intros reg; cbn [foldl].
  { split; [done|]. intros k. by case_decide. }
  destruct (IH (rebuild_node label prop reg x)) as [Hr Hk].
  assert (Hn : same_rules reg (rebuild_node label prop reg x) /\ forall k, reservation_index (rebuild_node label prop reg x) !! k =
    if decide ((key_label k, key_property k) = (label, prop) /\ value_at label prop x = Some (key_value k)) then Some (n_id x) else reservation_index reg !! k).
  { assert (Hv : value_at label prop x = None /\ rebuild_node label prop reg x = reg \/
      exists vk, value_at label prop x = Some vk /\ rebuild_node label prop reg x = set_index (<[mkKey label prop vk := n_id x]> (reservation_index reg)) reg).
    { unfold value_at, rebuild_node. destruct (n_label x =? label); [|by left]. cbn [negb].
      destruct (get_by_interned_key _ _ ≫= from_property_value) as [vk|]; [right; by exists vk|by left]. }
    destruct Hv as [[-> ->]|(vk & -> & ->)]; [split; [done|]; intros k; rewrite decide_False; [done|naive_solver]|].
    split; [done|]. intros k. simpl. destruct (decide (k = mkKey label prop vk)) as [->|Hne]; [by rewrite lookup_insert_eq, decide_True by done|].
    rewrite lookup_insert_ne by done. rewrite decide_False; [done|]. intros [[= El Ep] [= Ev]]. apply Hne. destruct k; simpl in *; congruence. }
  destruct Hn as [Hr1 Hk1]. split; [unfold same_rules in *; intuition congruence|].
  intros k. rewrite Hk, Hk1, matching_cons. case_decide as E.
  2: { by rewrite decide_False by naive_solver. }
  rewrite last_app. destruct (last (matching _ _ _ xs)); [done|]. case_decide as E2; case_decide; naive_solver.
Qed.
Lemma get_by_label_elem (c : CurStore.CurrentStorage) i label l x : i_get_id i label = Some l ->
  x ∈ CurStore.get_nodes_by_label i label c <-> (exists n, nodes (CurStore.indexes c) !! n = Some x) /\ n_label x = l.
Proof.
  intros Hl. unfold CurStore.get_nodes_by_label. rewrite Hl, list_elem_of_filter. rewrite list_elem_of_fmap. split.
  - intros (E & [n y] & -> & Hx%elem_of_map_to_list). split; [by exists n|done].
  - intros [(n & Hn) E]. split; [done|]. exists (n, x). split; [done|]. by apply elem_of_map_to_list.
Qed.
Lemma held_value x k : held (entry_of x) k <-> value_at (key_label k) (key_property k) x = Some (key_value k).
Proof.
  unfold held, value_at. simpl. split.
  - intros (-> & v & Hv & Hf). by rewrite Z.eqb_refl, Hv.
  - destruct (Z.eqb_spec (n_label x) (key_label k)) as [E|]; [|done]. intros (v & Hv & Hf)%bind_Some. split; [done|]. by exists v.
Qed.
Lemma rebuilt_covers c i label l prop a b u reg : i_get_id i label = Some l -> keyed (nodes (CurStore.indexes c)) ->
  check_no_duplicates (CurStore.get_nodes_by_label i label c) l prop a b = Ok u ->
  covered (nodes (CurStore.indexes c)) reg ->
  covered (nodes (CurStore.indexes c)) (declare l prop (rebuild_from_nodes (CurStore.get_nodes_by_label i label c) l prop reg)).
Proof.
  intros Hl Hkey Hu Hcov k n Hd Hh. set (xs := CurStore.get_nodes_by_label i label c) in *.
  destruct (rebuild_lookup l prop xs reg) as [[Er _] Hk]. change (reservation_index (declare l prop ?r)) with (reservation_index r). rewrite Hk.
  case_decide as E.
  - injection E as El Ep. destruct Hh as (x & Hx & Hv%held_value). pose proof (no_duplicates _ _ _ _ _ _ (key_value k) Hu) as Hlen.
    assert (Hin : n ∈ matching l prop (key_value k) xs).
    { unfold matching. apply list_elem_of_fmap. exists x. split; [symmetry; by apply Hkey|]. apply list_elem_of_filter. rewrite <- El, <- Ep. split; [done|].
      apply (get_by_label_elem c i label l x Hl). split; [by exists n|]. revert Hv. unfold value_at. destruct (Z.eqb_spec (n_label x) (key_label k)); [congruence|done]. }
    destruct (matching l prop (key_value k) xs) as [|m [|? ?]]; simpl in *; [by apply elem_of_nil in Hin| |lia]. apply list_elem_of_singleton in Hin. by subst.
  - apply Hcov; [|done]. unfold declared in *. simpl in Hd. rewrite Er in Hd. set_solver.
Qed.
Lemma enable_covers persisted i i' label prop c reg reg' r : i_wf i -> keyed (nodes (CurStore.indexes c)) -> covered (nodes (CurStore.indexes c)) reg ->
  enable_unique_constraint persisted c label prop (i, reg) = ((i', reg'), r) -> covered (nodes (CurStore.indexes c)) reg'.
Proof.
  intros Wf Hkey Hcov. unfold enable_unique_constraint, scan_and_reserve, mbind, sm_bind.
  destruct (i_intern i label) as [i1 [l|e|]] eqn:E1; [|by intros [= _ <- _]..].
  destruct (i_intern i1 prop) as [i2 [p|e|]] eqn:E2; [|by intros [= _ <- _]..].
  destruct (check_no_duplicates _ _ _ _ _) as [u|e|] eqn:Eu; [|by intros [= _ <- _]..].
  assert (Hl : i_get_id i2 label = Some l).
  { pose proof (i_intern_wf _ _ _ _ Wf E1) as W1. apply i_get_id_iff; [by eapply i_intern_wf|].
    apply (i_intern_stable _ _ _ _ _ _ W1 E2). by apply (i_intern_ok _ _ _ _ Wf E1). }
  pose proof (rebuilt_covers c i2 label l p _ _ _ reg Hl Hkey Eu Hcov) as Hnew.
  unfold lift. destruct persisted; [by intros [= _ <- _]|..]; intros [= _ <- _];
    intros k n Hd; apply (Hnew k n), elem_of_union_r, Hd.
Qed.

(** *** The restart *)
Definition ddl_on (l p : Z) (e : Wal.WalEntry) : bool :=
  match Wal.operation e with
  | Wal.DeclareUniqueConstraint l' p' | Wal.DropUniqueConstraint l' p' => (l' =? l) && (p' =? p)
  | _ => false
  end.
(** The last word of the log on a pair. *)
Definition last_word (l p : Z) (entries : list Wal.WalEntry) : option bool :=
  (fun e => match Wal.operation e with Wal.DeclareUniqueConstraint _ _ => true | _ => false end) <$> last (List.filter (ddl_on l p) entries).
Lemma last_word_snoc l p entries e : last_word l p (entries ++ [e]) =
  if ddl_on l p e then Some (match Wal.operation e with Wal.DeclareUniqueConstraint _ _ => true | _ => false end) else last_word l p entries.
Proof. unfold last_word. rewrite List.filter_app. simpl. destruct (ddl_on l p e); [by rewrite last_snoc|by rewrite app_nil_r]. Qed.
Lemma declared_last entries reg l p : (l, p) ∈ declarations (apply_constraint_declarations entries reg) <->
  match last_word l p entries with Some b => b = true | None => (l, p) ∈ declarations reg end.
Proof.
  induction entries as [|e entries IH] using rev_ind; [done|]. unfold apply_constraint_declarations in *. rewrite foldl_app, last_word_snoc. cbn [foldl].
  unfold apply_declaration at 1, ddl_on. destruct (Wal.operation e) as [| | | | | | | | |l' p'|l' p'| |]; try exact IH; simpl;
    destruct (Z.eqb_spec l' l) as [->|]; simpl; [destruct (Z.eqb_spec p' p) as [->|]| |destruct (Z.eqb_spec p' p) as [->|]|]; set_solver.
Qed.
Definition at_most_one (m : node_map) reg : Prop := forall k n n', declared reg k -> holds m k n -> holds m k n' -> n = n'.
Lemma matching_holds c i a l p vk n : i_get_id i a = Some l -> keyed (nodes (CurStore.indexes c)) ->
  n ∈ matching l p vk (CurStore.get_nodes_by_label i a c) <-> holds (nodes (CurStore.indexes c)) (mkKey l p vk) n.
Proof.
  intros Hl Hkey. unfold matching, holds. rewrite list_elem_of_fmap. split.
  - intros (x & -> & [Hv [[m Hm] _]%(get_by_label_elem c i a l x Hl)]%list_elem_of_filter). exists x. rewrite (Hkey _ _ Hm). split; [done|]. by apply held_value.
  - intros (x & Hx & Hv). exists x. split; [symmetry; by apply Hkey|]. apply list_elem_of_filter. split; [by apply held_value in Hv|].
    apply (get_by_label_elem c i a l x Hl). split; [by exists n|by destruct Hv].
Qed.
Lemma rebuild_right c i a l p reg k n : i_get_id i a = Some l -> keyed (nodes (CurStore.indexes c)) -> at_most_one (nodes (CurStore.indexes c)) reg ->
  declared reg k -> holds (nodes (CurStore.indexes c)) k n -> reservation_index reg !! k = Some n \/ (key_label k, key_property k) = (l, p) ->
  reservation_index (rebuild_from_nodes (CurStore.get_nodes_by_label i a c) l p reg) !! k = Some n.
Proof.
  intros Hl Hkey Hone Hd Hh Hor. destruct (rebuild_lookup l p (CurStore.get_nodes_by_label i a c) reg) as [_ ->]. case_decide as E; [|by destruct Hor].
  injection E as El Ep. assert (Hm : forall n', n' ∈ matching l p (key_value k) (CurStore.get_nodes_by_label i a c) <-> holds (nodes (CurStore.indexes c)) k n').
  { intros n'. rewrite (matching_holds c i a l p _ n' Hl Hkey), <- El, <- Ep. by destruct k. }
  destruct (last _) as [n'|] eqn:Elast.
  - f_equal. apply (Hone k n' n Hd); [|done]. apply Hm. apply last_Some in Elast as [? ->]. set_solver.
  - apply last_None in Elast. apply Hm in Hh. rewrite Elast in Hh. by apply elem_of_nil in Hh.
Qed.

(** C10: After a restart the constraints are those the log declares last, and if no two live
    nodes hold the same value of a declared pair, every value they hold is reserved by
    its holder again: the state from which uniqueness is kept. *)
Theorem restart_covers i c entries : i_wf i -> keyed (nodes (CurStore.indexes c)) ->
  let declared_reg := apply_constraint_declarations entries Constr.new in
  let reg := rebuild_reservations i c declared_reg in
  (forall l p, (l, p) ∈ declarations declared_reg -> is_Some (i_resolve i l) /\ is_Some (i_resolve i p)) ->
  at_most_one (nodes (CurStore.indexes c)) declared_reg ->
  (forall l p, is_constrained l p reg = bool_decide (last_word l p entries = Some true)) /\ covered (nodes (CurStore.indexes c)) reg.
Proof.
  intros Wf Hkey reg0 reg Hres Hone.
  assert (Hgo : forall ps r, (forall a b, (a, b) ∈ ps -> exists l p, i_resolve i l = Some a /\ i_resolve i p = Some b) ->
    same_rules reg0 r -> let r' := foldl (rebuild_listed i c) r ps in same_rules reg0 r' /\
    forall k n, declared reg0 k -> holds (nodes (CurStore.indexes c)) k n ->
      reservation_index r !! k = Some n \/ (exists a b, (a, b) ∈ ps /\ i_resolve i (key_label k) = Some a /\ i_resolve i (key_property k) = Some b) ->
      reservation_index r' !! k = Some n).
  { induction ps as [|[a b] ps IH]; intros r Hps Hr; cbn [foldl]; [split; [done|]; intros k n _ _ [?|(? & ? & ?%elem_of_nil & _)]; done|].
    destruct (Hps a b) as (l & p & Ha%(i_get_id_iff _ _ _ Wf) & Hb%(i_get_id_iff _ _ _ Wf)); [by left|].
    assert (Es : rebuild_listed i c r (a, b) = rebuild_from_nodes (CurStore.get_nodes_by_label i a c) l p r) by (unfold rebuild_listed; cbn [fst snd]; by rewrite Ha, Hb).
    rewrite Es. destruct (rebuild_lookup l p (CurStore.get_nodes_by_label i a c) r) as [Hr1 _].
    destruct (IH (rebuild_from_nodes (CurStore.get_nodes_by_label i a c) l p r)) as [Hr2 Hk]; [by intros ???; apply Hps; right|unfold same_rules in *; intuition congruence|].
    split; [done|]. intros k n Hd Hh Hor. apply Hk; [done..|].
    destruct Hr as [Ed _]. assert (Hd' : declared r k) by (unfold declared; by rewrite Ed).
    assert (Hone' : at_most_one (nodes (CurStore.indexes c)) r) by (intros k' ? ? Hd1; apply Hone; unfold declared in *; by rewrite <- Ed).
    destruct Hor as [Hold|(a' & b' & [[= -> ->]|Hin]%elem_of_cons & Hka & Hkb)].
    - left. by apply (rebuild_right c i a l p r k n Ha); auto.
    - left. apply (rebuild_right c i a l p r k n Ha); [done..|]. right. apply (i_get_id_iff _ _ _ Wf) in Hka, Hkb. congruence.
    - right. by exists a', b'. }
  destruct (Hgo (list_unique i reg0) reg0) as [[Ed _] Hk]; [|done|].
  { intros a b ([l p] & _ & (a0 & Ha & (b0 & Hb & [= -> ->])%bind_Some)%bind_Some)%list_elem_of_omap. by exists l, p. }
  fold (rebuild_reservations i c reg0) in Ed, Hk. fold reg in Ed, Hk. split.
  - intros l p. unfold is_constrained. rewrite Ed. subst reg0. apply bool_decide_ext. rewrite declared_last. destruct (last_word l p entries); [naive_solver|set_solver].
  - intros k n Hd Hh. unfold declared in Hd. rewrite Ed in Hd. apply Hk; [done..|]. right.
    destruct (Hres _ _ Hd) as [[a Ha] [b Hb]]. exists a, b. split; [|done]. unfold list_unique. apply list_elem_of_omap.
    exists (key_label k, key_property k). split; [by apply elem_of_elements|]. simpl. by rewrite Ha, Hb.
Qed.
End Rebuilding.

(** ** The steps *)
Section Interleaved.
Import Constr PropMap Graph CurIdx WriteBuf Tx.
Context {St : Type} `{Interner St}.
Context (it : St) (sort : list Csr.row -> list Csr.row) (iter : PropertyMap -> list (Z * PropertyValue)).
Context (crc32 : bytes -> Z) (ptr_eq : PropertyValue -> PropertyValue -> bool) (map_ptr_eq : PropertyMap -> PropertyMap -> bool).
Context (config : History.Config) (pre_anchor_hooks : Z -> HybridTimestamp -> PropertyMap -> option Z).
Hypothesis iter_perm : forall p, iter p ≡ₚ map_to_list (inner p).
Abbreviation locked := (Commit.locked it crc32 ptr_eq map_ptr_eq config pre_anchor_hooks).
Abbreviation live d := (nodes (graph d)).
Abbreviation node_map := (gmap NodeId Node).
Implicit Types (reg : ConstraintRegistry) (g : ReservationGuard) (d : Db.Db).

(** A transaction that was checked, with its guard; whether it has been applied. *)
Record Flight := mkFlight { f_tx : WriteTransaction; f_guard : ReservationGuard; f_applied : bool }.
Record World := mkWorld { w_db : Db.Db; w_registry : ConstraintRegistry; w_flights : gmap Z Flight }.
Implicit Types fs : gmap Z Flight.

Definition apart t fs : Prop := forall i f n, fs !! i = Some f -> writes t n -> ~ writes (f_tx f) n.

(** Transactions in flight write different nodes; a constraint is enabled when none is
    in flight, and disabled at any time. *)
Inductive step : World -> World -> Prop :=
  | S_check i t d reg fs reg' g : check_constraints it iter t (Db.current d) reg = (reg', Ok g) -> fs !! i = None -> apart t fs ->
      step (mkWorld d reg fs) (mkWorld d reg' (<[i := mkFlight t g false]> fs))
  | S_refuse t d reg fs reg' e : check_constraints it iter t (Db.current d) reg = (reg', Err e) -> step (mkWorld d reg fs) (mkWorld d reg' fs)
  | S_apply i t g env ids d d' c reg fs : fs !! i = Some (mkFlight t g false) -> locked t env ids d = (d', Ok c) -> in_place t (live d') ->
      step (mkWorld d reg fs) (mkWorld d' reg (<[i := mkFlight t g true]> fs))
  | S_drop i t g d reg fs : fs !! i = Some (mkFlight t g false) -> step (mkWorld d reg fs) (mkWorld d (release g reg) (delete i fs))
  | S_commit i t g d reg fs : fs !! i = Some (mkFlight t g true) -> step (mkWorld d reg fs) (mkWorld d (commit_guard g reg) (delete i fs))
  | S_enable persisted i i' label prop d reg reg' r : i_wf i ->
      enable_unique_constraint persisted (Db.current d) label prop (i, reg) = ((i', reg'), r) ->
      step (mkWorld d reg ∅) (mkWorld d reg' ∅)
  | S_disable persisted i label prop d reg fs reg' r : disable_unique_constraint persisted i label prop reg = (reg', r) ->
      step (mkWorld d reg fs) (mkWorld d reg' fs)
  | S_other d d' reg fs : live d' = live d -> step (mkWorld d reg fs) (mkWorld d' reg fs).

(** *** The invariant *)
Definition owned reg t (k : ReservationKey) : Prop := exists n, reservation_index reg !! k = Some n /\ writes t n.
Record flight_ok (m : node_map) reg (f : Flight) : Prop := {
  fo_puts : f_applied f = false -> forall k n, declared reg k -> puts (f_tx f) k n -> reservation_index reg !! k = Some n;
  fo_added : f_applied f = false -> forall k, k ∈ added (f_guard f) -> declared reg k -> owned reg (f_tx f) k /\ forall n, ~ holds m k n;
  fo_removed : forall k, k ∈ to_remove (f_guard f) -> declared reg k ->
    owned reg (f_tx f) k /\ (forall n, ~ puts (f_tx f) k n) /\ (f_applied f = true -> forall n, ~ holds m k n) }.
Record consistent (w : World) : Prop := {
  cs_keyed : keyed (live (w_db w));
  cs_covered : covered (live (w_db w)) (w_registry w);
  cs_apart : forall i j f f' n, w_flights w !! i = Some f -> w_flights w !! j = Some f' -> i <> j -> writes (f_tx f) n -> ~ writes (f_tx f') n;
  cs_flights : forall i f, w_flights w !! i = Some f -> flight_ok (live (w_db w)) (w_registry w) f }.

Lemma flight_stays m m' reg reg' f : flight_ok m reg f -> declarations reg' ⊆ declarations reg ->
  (forall k n, declared reg' k -> reservation_index reg !! k = Some n -> writes (f_tx f) n -> reservation_index reg' !! k = Some n) ->
  (forall k n, declared reg' k -> owned reg (f_tx f) k -> holds m' k n -> holds m k n) -> flight_ok m' reg' f.
Proof.
  intros [F1 F2 F3] Hd Hi Hh. assert (Hdec : forall k, declared reg' k -> declared reg k) by (intros k; apply Hd).
  assert (Hown : forall k, declared reg' k -> owned reg (f_tx f) k -> owned reg' (f_tx f) k) by (intros k Hk (n & Hn & Hw); exists n; auto).
  split.
  - intros Ha k n Hk Hp. apply Hi; [done|by apply F1; auto|by eapply puts_writes].
  - intros Ha k Hk Hdk. destruct (F2 Ha k Hk (Hdec k Hdk)) as [Ho Hn]. split; [by apply Hown|]. intros n Hn'. by apply (Hn n), Hh.
  - intros k Hk Hdk. destruct (F3 k Hk (Hdec k Hdk)) as (Ho & Hn & Hl). split; [by apply Hown|]. split; [done|].
    intros Ha n Hn'. by apply (Hl Ha n), Hh.
Qed.

(** *** A check *)
Lemma removed_entry_holds (c : CurStore.CurrentStorage) (ws : list BufferedWrite) e k : e ∈ omap (removed_entry c) ws -> held e k ->
  exists n, holds (nodes (CurStore.indexes c)) k n /\ exists w, w ∈ ws /\ node_id w = Some n.
Proof.
  intros (w & Hw & He)%list_elem_of_omap Hk. assert (exists n x, node_id w = Some n /\ nodes (CurStore.indexes c) !! n = Some x /\ e = entry_of x) as (n & x & En & Ex & ->).
  { destruct w; simplify_eq/=; unfold CurStore.get_node, CurStore.found, CurIdx.get_node in He;
      destruct (nodes (CurStore.indexes c) !! _) as [x|] eqn:Ex; simplify_eq/=; eexists _, x; (split; [done|]); (split; [exact Ex|done]). }
  exists n. split; [by exists x|by exists w].
Qed.
Lemma check_ok t d reg reg' g : check_constraints it iter t (Db.current d) reg = (reg', Ok g) -> covered (live d) reg ->
  same_rules reg reg' /\ (forall k n, reservation_index reg !! k = Some n -> reservation_index reg' !! k = Some n) /\ flight_ok (live d) reg' (mkFlight t g false).
Proof.
  unfold check_constraints. intros (reg0 & [] & [= <- _] & Hr)%sm_bind_inv Hcov. revert Hr. unfold reserve_for_transaction.
  rewrite reserve_added_list. set (ws := operations (buffer t)). set (cs := omap added_entry ws ≫= asked iter (reg, guard_new).1).
  destruct (reserve_list it cs ∅ (reg, guard_new)) as [[reg1 g1] [cl|e|]] eqn:E; [|done..]. intros [= <- <-].
  apply reserve_list_ok in E as [[R1 C1 K1 A1] ->].
  assert (Hdec : forall k, declared reg1 k <-> declared reg k) by (intros k; unfold declared; by rewrite (proj1 R1)).
  assert (Hcs : forall k n, (k, n) ∈ cs <-> declared reg k /\ puts t k n).
  { intros k n. subst cs. rewrite list_elem_of_bind. setoid_rewrite (asked_elem iter iter_perm). unfold puts. naive_solver. }
  split; [done|]. split; [exact K1|]. split; cbn [f_tx f_guard f_applied added to_remove].
  - intros _ k n Hk Hp. apply C1, Hcs. by rewrite <- Hdec.
  - intros _ k Hk Hd. destruct (A1 k Hk) as [?%elem_of_nil|[Hnone (n & Hn)]]; [done|]. split.
    + exists n. split; [by apply C1|]. apply Hcs in Hn as [_ Hp]. by eapply puts_writes.
    + intros n' Hh. apply Hdec in Hd. by rewrite (Hcov k n' Hd Hh) in Hnone.
  - intros k (Hcl & Hd & e & He & Hk)%(displaced_elem iter iter_perm) _. apply Hdec in Hd.
    destruct (removed_entry_holds _ _ _ _ He Hk) as (n & Hh & Hw). split; [exists n; split; [apply K1, Hcov; done|exact Hw]|]. split; [|done].
    intros n' Hp. apply Hcl. apply elem_of_union_l, elem_of_list_to_set, list_elem_of_fmap. exists (k, n'). split; [done|]. by apply Hcs.
Qed.

(** *** Every step *)
Lemma undeclare_rest l p reg k : declared (undeclare l p reg) k -> declared reg k /\ reservation_index (undeclare l p reg) !! k = reservation_index reg !! k.
Proof. unfold declared. simpl. intros [Hd Hn]%elem_of_difference. split; [done|]. apply undeclared_lookup. set_solver. Qed.
Lemma others_stay i t g reg (R : ReservationKey -> Prop) `{!forall k, Decision (R k)} reg' m fs j f :
  declarations reg' = declarations reg -> (forall k, reservation_index reg' !! k = if decide (R k) then None else reservation_index reg !! k) ->
  (forall k, R k -> declared reg k -> owned reg t k) ->
  (forall i j f f' n, fs !! i = Some f -> fs !! j = Some f' -> i <> j -> writes (f_tx f) n -> ~ writes (f_tx f') n) ->
  fs !! i = Some (mkFlight t g (f_applied (default f (fs !! i)))) -> fs !! j = Some f -> i <> j -> flight_ok m reg f -> flight_ok m reg' f.
Proof.
  intros Ed Hi Ho Ha Ei Ej Hne Hf. apply (flight_stays m m reg); [done|by rewrite Ed| |done].
  intros k n Hd Hk Hw. rewrite Hi. case_decide as HR; [|done]. unfold declared in Hd. rewrite Ed in Hd.
  destruct (Ho k HR Hd) as (n' & Hn' & Hw'). simplify_eq. by destruct (Ha _ _ _ _ n Ei Ej Hne Hw').
Qed.

Lemma step_consistent w w' : step w w' -> consistent w -> consistent w'.
Proof.
  intros [] [K C A F]; cbn [w_db w_registry w_flights] in *.
  - destruct (check_ok _ _ _ _ _ H0 C) as ([Ed _] & Hk & Hnew).
    assert (Hcov : covered (live d) reg') by (intros k n Hd Hh; apply Hk, C; [unfold declared in *; by rewrite <- Ed|done]).
    split; cbn [w_db w_registry w_flights]; [done|done| |].
    + intros j j' f f' n [[<- <-]|[Hj Hf]]%lookup_insert_Some [[<- <-]|[Hj' Hf']]%lookup_insert_Some Hne Hw; [done|..].
      * by apply (H2 j' f' n).
      * intros Hw'. by apply (H2 j f n Hf Hw').
      * by apply (A j j' f f' n).
    + intros j f [[<- <-]|[Hj Hf]]%lookup_insert_Some; [done|]. apply (flight_stays (live d) (live d) reg); [by eapply F|by rewrite Ed|by auto|done].
  - pose proof (reservation_rollback it iter t (Db.current d) reg) as Hr. rewrite H0 in Hr. subst. by split.
  - pose proof (F _ _ H0) as [F1 F2 F3]. cbn [f_tx f_guard f_applied] in *. specialize (F1 eq_refl).
    apply (locked_effect it sort crc32 ptr_eq map_ptr_eq config pre_anchor_hooks) in H1.
    destruct (effect_nodes it sort t c d d' H1 K H2) as [K' Hh]. split; cbn [w_db w_registry w_flights]; [done|..].
    + intros k n Hd [[Hk _]|Hp]%Hh; [by apply C|by apply F1].
    + assert (Hsame : forall j f, <[i:=mkFlight t g true]> fs !! j = Some f -> exists f0, fs !! j = Some f0 /\ f_tx f0 = f_tx f).
      { intros j f [[<- <-]|[Hj Hf]]%lookup_insert_Some; eexists; split; [exact H0|done|exact Hf|done]. }
      intros j j' f f' n (f0 & Hf & <-)%Hsame (f0' & Hf' & <-)%Hsame. by apply (A j j' f0 f0' n).
    + intros j f [[<- <-]|[Hj Hf]]%lookup_insert_Some.
      * split; cbn [f_tx f_guard f_applied]; [done|done|]. intros k Hk Hd. destruct (F3 k Hk Hd) as ((n & Hn & Hw) & Hp & _).
        split; [by exists n|]. split; [done|]. intros _ n' [[Hk' Hw']|Hp']%Hh; [|by apply (Hp n')].
        apply (C k n' Hd) in Hk'. by simplify_eq.
      * apply (flight_stays (live d) (live d') reg); [by eapply F|done|done|].
        intros k n Hd (n' & Hn' & Hw') [[Hk' _]|Hp']%Hh; [done|]. pose proof (F1 k n Hd Hp') as Hn. simplify_eq.
        destruct (A _ _ _ _ n' H0 Hf Hj); [|done]. by eapply puts_writes.
  - pose proof (F _ _ H0) as [F1 F2 F3]. cbn [f_tx f_guard f_applied] in *. specialize (F2 eq_refl).
    split; cbn [w_db w_registry w_flights]; [done| | |].
    + intros k n Hd Hh. rewrite released_lookup. case_decide as Hk; [by destruct (F2 k Hk Hd) as [_ Hn]; destruct (Hn n)|by apply C].
    + intros j j' f f' n [_ Hf]%lookup_delete_Some [_ Hf']%lookup_delete_Some. by apply (A j j' f f' n).
    + intros j f [Hj Hf]%lookup_delete_Some. apply (others_stay i t g reg (fun k => k ∈ added g) _ (live d) fs j f); try done.
      * apply released_lookup.
      * intros k Hk Hd. by apply F2.
      * by rewrite H0.
      * by eapply F.
  - pose proof (F _ _ H0) as [F1 F2 F3]. cbn [f_tx f_guard f_applied] in *.
    split; cbn [w_db w_registry w_flights]; [done| | |].
    + intros k n Hd Hh. rewrite committed_lookup. case_decide as Hk; [by destruct (F3 k Hk Hd) as (_ & _ & Hn); destruct (Hn eq_refl n)|by apply C].
    + intros j j' f f' n [_ Hf]%lookup_delete_Some [_ Hf']%lookup_delete_Some. by apply (A j j' f f' n).
    + intros j f [Hj Hf]%lookup_delete_Some. apply (others_stay i t g reg (fun k => k ∈ to_remove g) _ (live d) fs j f); try done.
      * apply committed_lookup.
      * intros k Hk Hd. by apply F3.
      * by rewrite H0.
      * by eapply F.
  - split; cbn [w_db w_registry w_flights]; [done| |done|done]. by eapply enable_covers.
  - assert (Hc : reg' = reg \/ exists l p, reg' = undeclare l p reg).
    { revert H0. unfold disable_unique_constraint. destruct (i_get_id i label) as [l|]; [|intros [= <- _]; by left].
      destruct (i_get_id i prop) as [p|]; [|intros [= <- _]; by left]. unfold lift, mbind, sm_bind.
      destruct persisted; intros [= <- _]; [right; by exists l, p|by left..]. }
    destruct Hc as [->|(l & p & ->)]; [by split|]. split; cbn [w_db w_registry w_flights]; [done| |done|].
    + intros k n [Hd Hi]%undeclare_rest Hh. rewrite Hi. by apply C.
    + intros j f Hf. apply (flight_stays (live d) (live d) reg); [by eapply F|set_solver| |done].
      intros k n [Hd Hi]%undeclare_rest Hk _. by rewrite Hi.
  - split; cbn [w_db w_registry w_flights]; rewrite ?H0; done.
Qed.


(** *** The commit of one transaction *)
Abbreviation commit_constrained := (commit_constrained it iter crc32 ptr_eq map_ptr_eq config pre_anchor_hooks).
Lemma on_db_inv {A} (m : SM Db.Db Error A) d reg s a : Constr.on_db m (d, reg) = (s, Ok a) -> exists d', m d = (d', Ok a) /\ s = (d', reg).
Proof. unfold Constr.on_db. destruct (m d) as [d' r]. intros [= <- ->]. by exists d'. Qed.
Lemma commit_constrained_inv t env d reg d' reg' c : commit_constrained t env (d, reg) = ((d', reg'), Ok c) ->
  exists reg1 g ids d0 d1, check_constraints it iter t (Db.current d) reg = (reg1, Ok g) /\ Db.current d0 = Db.current d /\
    locked t env ids d0 = (d1, Ok c) /\ Db.current d' = Db.current d1 /\ reg' = commit_guard g reg1.
Proof.
  unfold Constr.commit_constrained. destruct (state t); try done. unfold drop_tx_unless_ok.
  destruct ((_ ← Constr.on_db (Commit.guard (Commit.validate t)); _) (d, reg)) as [[d2 reg2] [c2|e|]] eqn:E; try done. intros [= <- <- <-].
  apply sm_bind_inv in E as (s1 & [] & (da & [= <- Hv] & ->)%on_db_inv & E).
  apply sm_bind_inv in E as (s2 & [] & (db & [= <- Hdc] & ->)%on_db_inv & E).
  apply sm_bind_inv in E as ([d3 reg3] & g & Hg & E).
  unfold check_registry in Hg. destruct (check_constraints it iter t (Db.current d) reg) as [reg1 r1] eqn:Hch. injection Hg as <- <- Hr. apply map_err_ok in Hr as ->.
  unfold guarded in E. match type of E with match ?x with _ => _ end = _ => destruct x as [[d4 reg4] [c4|e|]] eqn:E4 end; try done. injection E as <- <- <-.
  apply sm_bind_inv in E4 as (s5 & ids & (d0 & Hids & ->)%on_db_inv & E4).
  apply sm_bind_inv in E4 as (s6 & c6 & (d1 & Hl & ->)%on_db_inv & E4).
  apply sm_bind_inv in E4 as (s7 & [] & [= <-] & E4). apply sm_bind_inv in E4 as (s8 & [] & (d8 & [= <-] & ->)%on_db_inv & [= <- <- <-]).
  exists reg1, g, ids, d0, d1. split_and!; try done.
  assert (Hp : Commit.prepare t d = (d0, Ok ids)).
  { unfold Commit.prepare, mbind, sm_bind, Commit.guard. by rewrite Hv, Hdc. }
  pose proof (prepare_same t d) as [(Hc & _) _]. by rewrite Hp in Hc.
Qed.

(** A commit that succeeds is a check, an application and a release. *)
Lemma commit_steps t env d reg d' reg' c : commit_constrained t env (d, reg) = ((d', reg'), Ok c) -> in_place t (live d') ->
  rtc step (mkWorld d reg ∅) (mkWorld d' reg' ∅).
Proof.
  intros (reg1 & g & ids & d0 & d1 & Hch & E0 & Hl & E1 & ->)%commit_constrained_inv Hp.
  eapply rtc_l; [apply (S_check 0 t d reg ∅ reg1 g Hch); [done|by intros ??? ?]|].
  eapply rtc_l; [apply (S_other d d0); unfold graph; by rewrite E0|].
  eapply rtc_l; [eapply (S_apply 0 t g env ids d0 d1 c); [apply lookup_insert_eq|exact Hl|]|].
  { unfold graph in *. by rewrite <- E1. }
  eapply rtc_l; [eapply (S_commit 0 t g); apply lookup_insert_eq|].
  eapply rtc_l; [apply (S_other d1 d'); unfold graph; by rewrite E1|]. rewrite !delete_insert_eq. apply rtc_refl.
Qed.

Lemma check_idle t d reg : declarations reg = ∅ -> schema_constraints reg = ∅ -> check_constraints it iter t (Db.current d) reg = (reg, Ok guard_new).
Proof.
  intros Hd Hs. assert (Hno : forall k, ~ declared reg k) by (intros k; unfold declared; rewrite Hd; set_solver).
  assert (He : schema_constraints_empty reg = true) by (by apply bool_decide_eq_true_2).
  unfold check_constraints. unfold mbind at 1, sm_bind at 1. cbv beta. rewrite He. cbn [negb].
  unfold reserve_for_transaction. rewrite reserve_added_list.
  destruct (omap added_entry (operations (buffer t)) ≫= asked iter (reg, guard_new).1) as [|[k n] cs] eqn:E.
  - cbn [reserve_list mret]. unfold mret, sm_ret. f_equal. f_equal. unfold guard_new. f_equal.
    apply set_eq. intros k. split; [|by intros ?%not_elem_of_empty]. by intros (_ & ?%Hno & _)%(displaced_elem iter iter_perm).
  - exfalso. assert (Hin : (k, n) ∈ omap added_entry (operations (buffer t)) ≫= asked iter (reg, guard_new).1) by (rewrite E; apply list_elem_of_here).
    apply list_elem_of_bind in Hin as (e & Hk & _). apply (asked_elem iter iter_perm) in Hk as (Hk & _). by apply Hno in Hk.
Qed.
Lemma commit_new reg : commit_guard guard_new reg = reg.
Proof. by apply registry_eq; [..|intros k; rewrite committed_lookup; case_decide; [set_solver|]]. Qed.

(** Without a declared constraint, a commit with a registry is the commit without one,
    whatever it returns, and leaves the registry as it is. *)
Theorem unconstrained_commit t env d reg : declarations reg = ∅ -> schema_constraints reg = ∅ ->
  commit_constrained t env (d, reg) =
    let '(d', r) := Commit.commit_with_timestamp it crc32 ptr_eq map_ptr_eq config pre_anchor_hooks t env d in ((d', reg), r).
Proof.
  intros Hd Hs. unfold Constr.commit_constrained, Commit.commit_with_timestamp. destruct (state t); try done.
  unfold drop_tx_unless_ok, Commit.drop_unless_ok, Commit.prepare, guarded, mbind, sm_bind, Constr.on_db, Commit.guard. cbn [fst snd].
  destruct (Commit.validate t (Db.current d)) as [[]|e|]; try done.
  destruct (Commit.detect_conflicts t (Db.current d)) as [[]|e|]; try done.
  unfold check_registry. rewrite (check_idle t d reg Hd Hs). cbn [map_err].
  destruct (Commit.pregenerate_closing_version_ids t d) as [d1 [ids|e|]]; try (by rewrite release_new).
  destruct (locked t _ ids d1) as [d2 [c|e|]]; try (by rewrite release_new).
  cbn. by rewrite commit_new.
Qed.

(** *** The schema *)
Definition conforms (k : EntityKind) (label : Z) (p : PropertyMap) reg : Prop :=
  forall cs, schema_constraints_for k label reg = Some cs -> evaluate_conformance it cs p = [].
Lemma check_properties_ok k label p cs : forall found keys, check_properties it k label p cs found = Ok keys ->
  exists more, keys = found ++ more /\ (evaluate_conformance it cs p = [] <-> more = []).
Proof.
  induction cs as [|c cs IH]; intros found keys; cbn [check_properties]; [intros [= <-]; exists []; by rewrite app_nil_r|].
  unfold evaluate_conformance. simpl. destruct (check_property c _) as [|reason|]; [apply IH| |done].
  intros (more & -> & _)%IH. exists (name_of it (property c) :: more). by rewrite <- app_assoc.
Qed.
Lemma conforms_nothing cs p : evaluate_conformance it cs p = [] ->
  forall k label found, check_properties it k label p cs found = Ok found.
Proof.
  induction cs as [|c cs IH]; [done|]. unfold evaluate_conformance. simpl. destruct (check_property c _); done.
Qed.
(** The check of a write and the scan of a declaration decide the same. *)
Lemma validators_agree k label p reg : check_entity it k label p reg = Ok tt <-> conforms k label p reg.
Proof.
  unfold check_entity, conforms. destruct (schema_constraints_for k label reg) as [cs|]; [|naive_solver]. split.
  - intros (keys & Hk & Hn)%bind_ok cs' [= <-]. apply check_properties_ok in Hk as (more & -> & E). simpl in Hn. destruct more; [by apply E|done].
  - intros Hc. by rewrite (conforms_nothing _ _ (Hc cs eq_refl)).
Qed.
Definition described (w : BufferedWrite) : option (EntityKind * Z * PropertyMap) :=
  match w with
  | CreateNode _ _ l p _ _ | UpdateNode _ _ l p _ _ => Some (KNode, l, p)
  | CreateEdge _ _ _ _ l p _ _ | UpdateEdge _ _ _ _ l p _ _ => Some (KEdge, l, p)
  | _ => None
  end.
Lemma check_writes_ok reg ws : check_writes it reg ws = Ok tt -> forall w k l p, w ∈ ws -> described w = Some (k, l, p) -> conforms k l p reg.
Proof.
  induction ws as [|w0 ws IH]; cbn [check_writes]; [by intros _ w ? ? ? ?%elem_of_nil|]. intros ([] & Hw & Hr)%bind_ok w k l p [->|Hi]%elem_of_cons Hd; [|by eapply IH].
  apply validators_agree. destruct w0; simplify_eq/=; done.
Qed.


End Interleaved.
