(* ===== verification/ConstraintSchema.v ===== *)
(** * The schema constraints, stored: [src/core/constraint.rs] and [src/db/schema_constraint.rs]

    The string-keyed form of the schema constraints, in which they are listed, backed up
    and written to a sidecar file; their enabling and dropping. *)

From S2P Require Import Prelude.
From S2P Require Import SliceOps.
From S2P Require Import Bytes.
From S2P Require Import Errors.
From S2P Require Import Ids.
From S2P Require Import Interning.
From S2P Require Import Property.
From S2P Require Import PropMap.
From S2P Require Import Namespaces.
From S2P Require Import CurrentIndex.
From S2P Require Import CurrentStore.
From S2P Require Import HistoryFacts.
From S2P Require Import Constraint.

Module Schema.
Import Constr Graph.

Record PropertyConstraintDescriptor := mkPropertyDescriptor {
  d_property : bytes;
  d_declared_type : option DeclaredType;
  d_required : bool;
  d_nullable : bool }.
Record SchemaConstraintDescriptor := mkDescriptor {
  d_entity_kind : string;
  d_label : bytes;
  d_properties : list PropertyConstraintDescriptor }.

(** [str::cmp] *)
Fixpoint bytes_leb (a b : bytes) : bool :=
  match a, b with
  | [], _ => true
  | _ :: _, [] => false
  | x :: a, y :: b => if Z.eqb (byte.unsigned x) (byte.unsigned y) then bytes_leb a b else Z.ltb (byte.unsigned x) (byte.unsigned y)
  end.
Definition descriptor_leb (a b : SchemaConstraintDescriptor) : bool :=
  if String.eqb (d_entity_kind a) (d_entity_kind b) then bytes_leb (d_label a) (d_label b) else String.leb (d_entity_kind a) (d_entity_kind b).

Section Stored.
Context {St : Type} `{Interner St}.

Definition export_property (it : St) (c : PropertyConstraint) : option PropertyConstraintDescriptor :=
  p ← i_resolve it (property c); Some (mkPropertyDescriptor p (declared_type c) (required c) (nullable c)).
Definition export_entry (it : St) (e : EntityKind * Z * list PropertyConstraint) : option SchemaConstraintDescriptor :=
  label ← i_resolve it e.1.2; Some (mkDescriptor (as_str e.1.1) label (omap (export_property it) e.2)).
Definition export_schema_constraints (it : St) (reg : ConstraintRegistry) : list SchemaConstraintDescriptor :=
  Sort.sort_by descriptor_leb (omap (export_entry it) (map_to_list (schema_constraints reg))).

(** The declared pairs by name, in order. *)
Definition pair_leb (a b : bytes * bytes) : bool := if bool_decide (a.1 = b.1) then bytes_leb a.2 b.2 else bytes_leb a.1 b.1.
Definition export_unique_constraints (it : St) (reg : ConstraintRegistry) : list (bytes * bytes) := Sort.sort_by pair_leb (list_unique it reg).

(** What cannot be interned is left out. *)
Fixpoint import_properties (it : St) (ps : list PropertyConstraintDescriptor) : St * list PropertyConstraint :=
  match ps with
  | [] => (it, [])
  | p :: ps =>
      match i_intern it (d_property p) with
      | (it, Ok prop_id) =>
          let '(it, cs) := import_properties it ps in (it, mkConstraint prop_id (d_declared_type p) (d_required p) (d_nullable p) :: cs)
      | (it, _) => import_properties it ps
      end
  end.
Fixpoint import_descriptors (it : St) (ds : list SchemaConstraintDescriptor) (reg : ConstraintRegistry) : St * ConstraintRegistry :=
  match ds with
  | [] => (it, reg)
  | d :: ds =>
      let kind := if String.eqb (d_entity_kind d) "edge" then KEdge else KNode in
      match i_intern it (d_label d) with
      | (it, Ok label_id) =>
          let '(it, cs) := import_properties it (d_properties d) in
          import_descriptors it ds (declare_schema_constraints kind label_id cs reg)
      | (it, _) => import_descriptors it ds reg
      end
  end.
Definition import_schema_constraints (it : St) (ds : list SchemaConstraintDescriptor) (reg : ConstraintRegistry) : St * ConstraintRegistry :=
  import_descriptors it ds (set_schema ∅ reg).

(** [load_sidecar]; [loaded]: what decoding the file gives, with the format version.  A
    file that is missing, undecodable or of another version leaves the registry alone. *)
Definition SIDECAR_VERSION : Z := 1.
Definition load_sidecar (it : St) (loaded : option (Z * list SchemaConstraintDescriptor)) (reg : ConstraintRegistry) : St * ConstraintRegistry :=
  match loaded with
  | Some (version, constraints) =>
      if negb (version =? SIDECAR_VERSION) then (it, reg) else import_schema_constraints it constraints reg
  | None => (it, reg)
  end.

(** ** Enabling and dropping *)
Record PropertySpec := mkSpec { s_property : bytes; s_declared_type : option DeclaredType; s_required : bool; s_nullable : option bool }.
(** The counts of [ConformanceReport]. *)
Record ConformanceReport := mkReport { total_checked : Z; total_non_conforming : Z }.
Definition reports_conforms (r : ConformanceReport) : bool := total_non_conforming r =? 0.

Definition record_entity (it : St) (cs : list PropertyConstraint) (r : ConformanceReport) (p : PropMap.PropertyMap) : ConformanceReport :=
  mkReport (total_checked r + 1) (match evaluate_conformance it cs p with [] => total_non_conforming r | _ => total_non_conforming r + 1 end).
Definition scan_conformance (it : St) (c : CurStore.CurrentStorage) (k : EntityKind) (label : bytes) (label_id : Z) (cs : list PropertyConstraint) : ConformanceReport :=
  foldl (record_entity it cs) (mkReport 0 0)
    (match k with
     | KNode => n_properties <$> CurStore.get_nodes_by_label it label c
     | KEdge => e_properties <$> filter (fun e => e_label e = label_id) (snd <$> map_to_list (CurIdx.edges (CurStore.indexes c)))
     end).

Fixpoint intern_specs (it : St) (specs : list PropertySpec) (default_nullable : bool) :
    St * res Error (list PropertyConstraint * list PropertyConstraintDescriptor) :=
  match specs with
  | [] => (it, Ok ([], []))
  | s :: specs =>
      match i_intern it (s_property s) with
      | (it, Ok prop_id) =>
          let nullable := default default_nullable (s_nullable s) in
          match intern_specs it specs default_nullable with
          | (it, Ok (cs, ds)) =>
              (it, Ok (mkConstraint prop_id (s_declared_type s) (s_required s) nullable :: cs,
                       mkPropertyDescriptor (s_property s) (s_declared_type s) (s_required s) nullable :: ds))
          | (it, Err e) => (it, Err e)
          | (it, Panic) => (it, Panic)
          end
      | (it, Err e) => (it, Err e)
      | (it, Panic) => (it, Panic)
      end
  end.
Definition same_target (label : bytes) (k : EntityKind) (d : SchemaConstraintDescriptor) : bool :=
  bool_decide (d_label d = label) && String.eqb (d_entity_kind d) (as_str k).

(** [saved]: what writing the sidecar answers. *)
Variable saved : list SchemaConstraintDescriptor -> res Error unit.
Abbreviation State := (St * ConstraintRegistry)%type.
Definition enable_schema_constraints (c : CurStore.CurrentStorage) (k : EntityKind) (label : bytes) (specs : list PropertySpec)
    (default_nullable dry_run : bool) : SM State Error ConformanceReport := fun '(it, reg) =>
  match i_intern it label with
  | (it, Ok label_id) =>
      match intern_specs it specs default_nullable with
      | (it, Ok (constraints, descriptors)) =>
          let report := scan_conformance it c k label label_id constraints in
          if dry_run then ((it, reg), Ok report)
          else if negb (reports_conforms report) then ((it, reg), Err (EConstraint (NonConformingOnEnable (as_str k) label (total_non_conforming report))))
          else
            let target := List.filter (fun d => negb (same_target label k d)) (export_schema_constraints it reg) ++ [mkDescriptor (as_str k) label descriptors] in
            match saved target with
            | Ok _ => ((it, declare_schema_constraints k label_id constraints reg), Ok report)
            | Err e => ((it, reg), Err e)
            | Panic => ((it, reg), Panic)
            end
      | (it, Err e) => ((it, reg), Err e)
      | (it, Panic) => ((it, reg), Panic)
      end
  | (it, Err e) => ((it, reg), Err e)
  | (it, Panic) => ((it, reg), Panic)
  end.
Definition drop_schema_constraint (it : St) (k : EntityKind) (label : bytes) : SM ConstraintRegistry Error bool := fun reg =>
  match i_get_id it label with
  | None => (reg, Ok false)
  | Some label_id =>
      match schema_constraints_for k label_id reg with
      | None => (reg, Ok false)
      | Some _ =>
          match saved (List.filter (fun d => negb (same_target label k d)) (export_schema_constraints it reg)) with
          | Ok _ => let '(reg, b) := drop_schema_constraints k label_id reg in (reg, Ok b)
          | Err e => (reg, Err e)
          | Panic => (reg, Panic)
          end
      end
  end.
End Stored.
End Schema.

(** ** What is stored is what is loaded *)
Section RoundTrip.
Import Constr Schema.
Context {St : Type} `{Interner St}.
Implicit Types reg : ConstraintRegistry.

(** Every name of the schema resolves, as every id that was interned does. *)
Definition named (it : St) reg : Prop := forall k label cs, schema_constraints reg !! (k, label) = Some cs ->
  is_Some (i_resolve it label) /\ Forall (fun c => is_Some (i_resolve it (property c))) cs.

Lemma import_exported_properties it cs : i_wf it -> Forall (fun c => is_Some (i_resolve it (property c))) cs ->
  import_properties it (omap (export_property it) cs) = (it, cs).
Proof.
  intros Wf. induction 1 as [|c cs [p Hp] _ IH]; [done|].
  assert (Ec : export_property it c = Some (mkPropertyDescriptor p (declared_type c) (required c) (nullable c))) by (unfold export_property; by rewrite Hp).
  change (omap (export_property it) (c :: cs)) with (match export_property it c with Some d => d :: omap (export_property it) cs | None => omap (export_property it) cs end).
  rewrite Ec. cbn [import_properties d_property]. rewrite (i_intern_known _ _ _ Wf Hp), IH. by destruct c.
Qed.
Lemma import_exported it (es : list (EntityKind * Z * list PropertyConstraint)) : i_wf it ->
  forall ds reg, ds ≡ₚ omap (export_entry it) es -> NoDup es.*1 ->
  (forall e, e ∈ es -> is_Some (i_resolve it e.1.2) /\ Forall (fun c => is_Some (i_resolve it (property c))) e.2) ->
  import_descriptors it ds reg = (it, set_schema (list_to_map es ∪ schema_constraints reg) reg).
Proof.
  intros Wf ds. revert es. induction ds as [|d ds IH]; intros es reg Hp Hnd Hres.
  - assert (es = []) as ->.
    { destruct es as [|e es]; [done|]. exfalso. destruct (Hres e) as [[l Hl] _]; [by left|].
      apply Permutation_nil_l in Hp || apply Permutation_nil in Hp. simpl in Hp. unfold export_entry in Hp at 1. by rewrite Hl in Hp. }
    simpl. rewrite (left_id_L ∅ (∪)). by destruct reg.
  - assert (Hd : d ∈ omap (export_entry it) es) by (rewrite <- Hp; by left).
    apply list_elem_of_omap in Hd as ([[k l] cs] & Hin & Hd).
    destruct (Hres _ Hin) as [[nm Hl] Hcs]. unfold export_entry in Hd. cbn [fst snd] in *. rewrite Hl in Hd. simpl in Hd. injection Hd as <-.
    apply list_elem_of_split in Hin as (es1 & es2 & ->).
    cbn [import_descriptors d_label d_entity_kind d_properties]. rewrite (i_intern_known _ _ _ Wf Hl), (import_exported_properties _ _ Wf Hcs).
    assert ((if String.eqb (as_str k) "edge" then KEdge else KNode) = k) as -> by by destruct k.
    rewrite (IH (es1 ++ es2)).
    + unfold declare_schema_constraints, set_schema. cbn [declarations reservation_index schema_constraints]. f_equal. f_equal.
      rewrite fmap_app in Hnd. apply NoDup_app in Hnd as (N1 & Hdis & N2). apply NoDup_cons in N2 as [Hni N2].
      rewrite !list_to_map_app. cbn [list_to_map foldr]. simpl list_to_map.
      rewrite <- !(assoc_L (∪)). f_equal. rewrite <- insert_union_l, <- insert_union_r; [done|].
      apply not_elem_of_list_to_map_1. done.
    + rewrite omap_app in Hp |- *. simpl in Hp. unfold export_entry in Hp at 2. cbn [fst snd] in Hp. rewrite Hl in Hp. simpl in Hp.
      rewrite <- Permutation_middle in Hp. by apply Permutation_cons_inv in Hp.
    + rewrite fmap_app in Hnd |- *. simpl in Hnd. apply NoDup_app in Hnd as (N1 & Hdis & [Hni N2]%NoDup_cons).
      apply NoDup_app. split; [done|]. split; [|done]. intros x Hx Hx2. apply (Hdis x Hx). by right.
    + intros e He. apply Hres. apply elem_of_app in He as [?|?]; apply elem_of_app; [by left|right; by right].
Qed.

(** Listing the schema constraints and loading the list back, in whatever order it is
    sorted and whatever the registry had before, gives the same constraints and interns
    nothing new. *)
Theorem schema_reload it reg reg0 : i_wf it -> named it reg ->
  load_sidecar it (Some (SIDECAR_VERSION, export_schema_constraints it reg)) reg0 = (it, set_schema (schema_constraints reg) reg0).
Proof.
  intros Wf Hn. unfold load_sidecar. cbn [negb Z.eqb SIDECAR_VERSION Pos.eqb]. unfold import_schema_constraints.
  rewrite (import_exported it (map_to_list (schema_constraints reg)) Wf).
  - rewrite list_to_map_to_list. cbn [schema_constraints set_schema]. by rewrite (right_id_L ∅ (∪)).
  - apply sort_by_perm.
  - apply NoDup_fst_map_to_list.
  - intros [[k l] cs] He%elem_of_map_to_list. by apply (Hn k).
Qed.
End RoundTrip.
