(* ===== verification/ConstraintRuns.v ===== *)
(** * Runs of the constraints

    Concrete transactions, evaluated: where uniqueness is lost or a value stays blocked,
    and runs at which the theorems apply. *)

From S2P Require Import Prelude.
From S2P Require Import SliceOps.
From S2P Require Import Bytes.
From S2P Require Import Errors.
From S2P Require Import Hlc.
From S2P Require Import Temporal.
From S2P Require Import Ids.
From S2P Require Import Interning.
From S2P Require Import Property.
From S2P Require Import PropMap.
From S2P Require Import Namespaces.
From S2P Require Import Provenance.
From S2P Require Import Delta.
From S2P Require Import History.
From S2P Require Import Slices.
From S2P Require Import HistoryFacts.
From S2P Require Import TxFrames.
From S2P Require Import TemporalIndex.
From S2P Require Import Csr.
From S2P Require Import CurrentIndex.
From S2P Require Import CurrentLaws.
From S2P Require Import CurrentStore.
From S2P Require Import IndexedHistory.
From S2P Require Import Transactions.
From S2P Require Import Commit.
From S2P Require Import CommitLaws.
From S2P Require Import CommitEffect.
From S2P Require Import CommitSafety.
From S2P Require Import CommitHeads.
From S2P Require Import CommitBuffers.
From S2P Require Import CommitRaces.
From S2P Require Import CommitRuns.
From S2P Require Import Wal.
From S2P Require Import Constraint.
From S2P Require Import ConstraintLaws.
From S2P Require Import ConstraintSafety.
From S2P Require Import ConstraintSchema.

Module ConstraintRuns.
Import Constr PropMap Tx WriteBuf Graph CurIdx CommitRuns.

Abbreviation world := (Db.Db * ConstraintRegistry)%type.
Abbreviation check t d reg := (check_constraints i1 iter t (Db.current d) reg).
Abbreviation commit_at w t s := (commit_constrained i1 iter crc0 no_ptr no_map_ptr History.default_config no_hooks t (env w) s).
(** The property [a] with a value, and its uniqueness for persons. *)
Definition with_a (v : PropertyValue) : PropertyMap :=
  match try_insert (from_map PropMap.new) (lit "a") v i1 with (_, Ok b) => PropMap.build b | _ => PropMap.new end.
Definition person : Z := Eval vm_compute in default 0 (i_get_id i1 (lit "Person")).
Definition key_a : Z := Eval vm_compute in default 0 (i_get_id i1 (lit "a")).
Definition slot (z : Z) : ReservationKey := mkKey person key_a (VInt z).
Definition unique_a : ConstraintRegistry := (enable_unique_constraint (Ok tt) (Db.current d0) (lit "Person") (lit "a") (i1, Constr.new)).1.2.

(** A transaction begun at [w]; its commit a thousand microseconds later. *)
Definition opened {A} (tau : TxId) (w : Z) (m : SM Session Error A) (d : Db.Db) : Session := then_ m (start tau w i1 d).
Definition run_tx {A} (tau : TxId) (w : Z) (m : SM Session Error A) (s : world) : world * res Error HybridTimestamp :=
  let o := opened tau w m s.1 in commit_at (w + 1000) (tx o) (db o, s.2).
Definition create (w z : Z) := create_node_with_options iter (us w) (lit "Person") (with_a (PInt z)) default_options.
Definition update (w z : Z) (o : WriteRequestOptions) := update_node_with_options iter (us w) 0 (with_a (PInt z)) o.
Definition value_of (d : Db.Db) (n : NodeId) : option PropertyValue := nodes (graph d) !! n ≫= fun x => get_by_interned_key (n_properties x) key_a.

(** A person with the value 1. *)
Definition w1 : world := (run_tx 1 1000 (create 1000 1) (d0, unique_a)).1.
(** An update of the present to 2; an update of the past to 3. *)
Definition w2 : world := (run_tx 2 3000 (update 3000 2 default_options) w1).1.
Definition w3 : world := (run_tx 3 5000 (update 5000 3 (mkOptions (Some (us 2500)) None None)) w2).1.
Definition w4 : world := (run_tx 4 7000 (create 7000 2) w3).1.


(** Two updates of a person to the same value, both checked; the first is given up. *)
Definition u1 : Session := opened 2 3000 (update 3000 2 default_options) w1.1.
Definition u2 : Session := opened 3 3000 (update 3000 2 default_options) (db u1).
Definition guard_of (r : ConstraintRegistry * res ConstraintError ReservationGuard) : ReservationGuard := match r.2 with Ok g => g | _ => guard_new end.
Definition q1 := check (tx u1) (db u2) w1.2.
Definition q2 := check (tx u2) (db u2) q1.1.
Definition dropped : ConstraintRegistry := release (guard_of q1) q2.1.
Definition e1 := locks (tx u2) 4000 i1 [] (db u2).
Definition after : world := (e1.1, commit_guard (guard_of q2) dropped).
Definition w5 : world := (run_tx 4 7000 (create 7000 2) after).1.
(** A reservation that two transactions share goes with the first that fails: it is noted in
    the guard of the one that made it only.  The other commits a value that is reserved by
    nobody, and a second node takes it. *)
Theorem shared_reservation_lost :
  is_ok q1.2 = true /\ is_ok q2.2 = true /\ added (guard_of q2) = [] /\ e1.2 = Ok (us 4000) /\
  value_of after.1 0 = Some (PInt 2) /\ reservation_index after.2 !! slot 2 = None /\
  (run_tx 4 7000 (create 7000 2) after).2 = Ok (us 8000) /\ value_of w5.1 0 = Some (PInt 2) /\ value_of w5.1 1 = Some (PInt 2).
Proof. vm_compute. split_and!; reflexivity. Qed.

(** A constraint that is being enabled while a person with a value that is already taken is
    committed: the scan has passed, the declaration has not been made. *)
Definition bare : world := (run_tx 1 1000 (create 1000 1) (d0, Constr.new)).1.
Definition scanned := scan_and_reserve (Db.current bare.1) (lit "Person") (lit "a") (i1, bare.2).
Definition raced : world := (run_tx 2 3000 (create 3000 1) (bare.1, scanned.1.2)).1.
(** Nothing stops a transaction between the scan and the declaration: the constraint is
    enabled over two live nodes that share a value. *)
Theorem enabling_races :
  is_ok scanned.2 = true /\ (run_tx 2 3000 (create 3000 1) (bare.1, scanned.1.2)).2 = Ok (us 4000) /\
  is_constrained person key_a (declare person key_a raced.2) = true /\
  value_of raced.1 0 = Some (PInt 1) /\ value_of raced.1 1 = Some (PInt 1).
Proof. vm_compute. split_and!; reflexivity. Qed.

(** A person retracted; a person updated twice in one transaction. *)
Definition retracted : world := (run_tx 2 3000 (retract_node_with_provenance (us 3000) 0 (us 3500) None) w1).1.
Definition twice : SM Session Error unit := _ ← update 3000 2 default_options; update 3000 3 default_options.
Definition updated : world := (run_tx 2 3000 twice w1).1.
(** A value that no live node holds stays blocked, until the process restarts: a retraction
    does not give up what its node had reserved, and a transaction reserves every value
    it buffers, also those it has itself replaced. *)
Theorem blocked_values :
  nodes (graph retracted.1) !! 0 = None /\
  (run_tx 3 5000 (create 5000 1) retracted).2 = Err (EConstraint (UniqueViolation (lit "Person") (lit "a") 0)) /\
  value_of updated.1 0 = Some (PInt 3) /\
  (run_tx 3 5000 (create 5000 2) updated).2 = Err (EConstraint (UniqueViolation (lit "Person") (lit "a") 0)).
Proof. vm_compute. split_and!; reflexivity. Qed.

(** The two zeros are equal values and different keys. *)
Definition minus_zero : Z := 2 ^ 63.
Theorem zeros_differ :
  Property.partial_eq no_ptr (PFloat 0) (PFloat minus_zero) = Some true /\ from_property_value (PFloat 0) <> from_property_value (PFloat minus_zero).
Proof. vm_compute. by split. Qed.

(** ** Where the theorems apply *)
Lemma iter_perm p : iter p ≡ₚ map_to_list (inner p).
Proof. done. Qed.
Definition in_place_now (m : gmap NodeId Node) (w : BufferedWrite) : Prop :=
  match w with
  | UpdateNode n _ l p _ _ => match m !! n with Some x => n_label x = l /\ n_properties x = p | None => True end
  | _ => True
  end.
Lemma in_place_now_ok t m : Forall (in_place_now m) (operations (buffer t)) -> in_place t m.
Proof.
  intros Hall n v l p vf pr x [Hin _]%last_write_in Hx. rewrite Forall_forall in Hall. apply Hall in Hin. simpl in Hin. unfold NodeId in *. by rewrite Hx in Hin.
Qed.
Abbreviation step := (ConstraintSafety.step i1 iter crc0 no_ptr no_map_ptr History.default_config no_hooks).
Lemma run_steps {A} tau w (m : SM Session Error A) s s' c : run_tx tau w m s = (s', Ok c) ->
  nodes (graph (db (opened tau w m s.1))) = nodes (graph s.1) -> Forall (in_place_now (nodes (graph s'.1))) (operations (buffer (tx (opened tau w m s.1)))) ->
  rtc step (mkWorld s.1 s.2 ∅) (mkWorld s'.1 s'.2 ∅).
Proof.
  destruct s' as [d' reg']. intros Hr Hn Hp%in_place_now_ok. eapply rtc_l; [apply S_other, Hn|].
  by apply (commit_steps i1 iter crc0 no_ptr no_map_ptr History.default_config no_hooks (tx (opened tau w m s.1)) (env (w + 1000)) _ _ _ _ c).
Qed.

(** A schema: persons have an integer [a]. *)
Definition typed : ConstraintRegistry := declare_schema_constraints KNode person [mkConstraint key_a (Some TInteger) true false] Constr.new.
Lemma unconstrained_commit_witness : (run_tx 1 1000 (create 1000 1) (d0, Constr.new)).2 = Ok (us 2000) /\
  (commits (tx (opened 1 1000 (create 1000 1) d0)) (1000 + 1000) i1 (db (opened 1 1000 (create 1000 1) d0))).2 = Ok (us 2000).
Proof.
  pose proof (unconstrained_commit i1 iter crc0 no_ptr no_map_ptr History.default_config no_hooks iter_perm
    (tx (opened 1 1000 (create 1000 1) d0)) (env (1000 + 1000)) (db (opened 1 1000 (create 1000 1) d0)) Constr.new eq_refl eq_refl) as E.
  assert (H0 : (run_tx 1 1000 (create 1000 1) (d0, Constr.new)).2 = Ok (us 2000)) by (vm_compute; reflexivity). split; [exact H0|].
  unfold run_tx in H0. cbv zeta in H0. cbn [fst snd] in H0. rewrite E in H0. clear E. revert H0.
  by destruct (Commit.commit_with_timestamp _ _ _ _ _ _ _ _ _) as [d r].
Defined.

Lemma i1_ok : i_wf i1.
Proof.
  change i1 with (Interning.intern_all (Interning.with_max_capacity 100) (lit <$> ["Person"; "knows"; "a"; "b"]%string)).
  apply intern_all_spec; [by apply with_max_capacity_wf|refine (bool_decide_eq_true_1 _ _); vm_compute; reflexivity|done|by vm_compute].
Qed.
Lemma schema_reload_witness : Schema.load_sidecar i1 (Some (1, Schema.export_schema_constraints i1 typed)) Constr.new = (i1, typed) /\
  Schema.d_label <$> Schema.export_schema_constraints i1 typed = [lit "Person"].
Proof.
  split; [|vm_compute; reflexivity]. refine (schema_reload i1 typed Constr.new i1_ok _).
  intros k l cs Hs. apply elem_of_map_to_list in Hs.
  assert (E : map_to_list (schema_constraints typed) = [((KNode, person), [mkConstraint key_a (Some TInteger) true false])]) by (vm_compute; reflexivity).
  rewrite E in Hs. apply list_elem_of_singleton in Hs as [= -> -> ->]. split; [eexists; vm_compute; reflexivity|].
  constructor; [eexists; vm_compute; reflexivity|constructor].
Defined.

(** The person of the two updates, after a restart; the constraint was declared, dropped and
    declared again. *)
Definition ddl (l : Z) (op : Wal.WalOperation) : Wal.WalEntry := Wal.mkEntry l (us 0) op 0 false None.
Definition ddls : list Wal.WalEntry :=
  [ddl 1 (Wal.DeclareUniqueConstraint person key_a); ddl 2 (Wal.DropUniqueConstraint person key_a); ddl 3 (Wal.DeclareUniqueConstraint person key_a)].
Lemma restart_covers_witness : reservation_index (rebuild_reservations i1 (Db.current w2.1) (apply_constraint_declarations ddls Constr.new)) !! slot 2 = Some 0.
Proof.
  assert (Hall : Forall (fun p => p.1 = 0 /\ n_id p.2 = p.1) (map_to_list (nodes (graph w2.1)))) by (vm_compute; repeat constructor).
  rewrite Forall_forall in Hall.
  assert (Hone : forall n x, nodes (graph w2.1) !! n = Some x -> n = 0 /\ n_id x = n).
  { intros n x Hx%elem_of_map_to_list. by apply (Hall (n, x)). }
  destruct (restart_covers i1 (Db.current w2.1) ddls i1_ok) as [_ Hc].
  - intros n x Hx. by apply Hone.
  - intros l p Hd. assert (E : elements (declarations (apply_constraint_declarations ddls Constr.new)) = [(person, key_a)]) by (vm_compute; reflexivity).
    apply elem_of_elements in Hd. rewrite E in Hd. apply list_elem_of_singleton in Hd as [= -> ->]. split; eexists; vm_compute; reflexivity.
  - intros k n n' _ (x & Hx & _) (y & Hy & _). apply Hone in Hx as [-> _], Hy as [-> _]. done.
  - apply Hc; [unfold declared; refine (bool_decide_eq_true_1 _ _); vm_compute; reflexivity|].
    eexists. split; [vm_compute; reflexivity|]. split; [reflexivity|]. exists (PInt 2). split; vm_compute; reflexivity.
Defined.
End ConstraintRuns.
