(* ===== verification/Replay.v ===== *)
(** * Replay: [src/storage/recovery.rs], the resolved operations applied to the stores

    [replay_entries_into_storage]: the operations that [TxFrames] resolved from the log
    are applied, one by one, to the current and the historical storage; a version id that
    the log does not carry is synthesized from a counter.  The temporal index is not
    wired during the replay and is rebuilt from the versions afterwards
    ([rebuild_temporal_index_from_versions]). *)

From S2P Require Import Prelude.
From S2P Require Import SliceOps.
From S2P Require Import Bytes.
From S2P Require Import Errors.
From S2P Require Import Hlc.
From S2P Require Import Temporal.
From S2P Require Import Ids.
From S2P Require Import Interning.
From S2P Require Import Property.
From S2P Require Import PropMap.
From S2P Require Import Namespaces.
From S2P Require Import Provenance.
From S2P Require Import Delta.
From S2P Require Import History.
From S2P Require Import Slices.
From S2P Require Import Wal.
From S2P Require Import TxFrames.
From S2P Require Import TemporalIndex.
From S2P Require Import CurrentIndex.
From S2P Require Import CurrentStore.

Module Replay.
Import Graph PropMap Prov.

(** The storages the replay fills, and what it keeps track of. *)
Record Recovered := mkRecovered {
  current : CurStore.CurrentStorage;
  node_history : History.Store unit;
  edge_history : History.Store (NodeId * NodeId);
  next_version_id : Z;
  max_node_id : option Z;
  max_edge_id : option Z }.

Definition RECOVERY_TX_ID : TxId := 0.

(** The identifiers of the replay start at what the version generator gave. *)
Definition start (c : CurStore.CurrentStorage) (nh : History.Store unit) (eh : History.Store (NodeId * NodeId)) (next : Z) : Recovered :=
  mkRecovered c nh eh next None None.

Definition set_current c r := mkRecovered c (node_history r) (edge_history r) (next_version_id r) (max_node_id r) (max_edge_id r).
Definition set_node_history h r := mkRecovered (current r) h (edge_history r) (next_version_id r) (max_node_id r) (max_edge_id r).
Definition set_edge_history h r := mkRecovered (current r) (node_history r) h (next_version_id r) (max_node_id r) (max_edge_id r).
Definition set_next n r := mkRecovered (current r) (node_history r) (edge_history r) n (max_node_id r) (max_edge_id r).
Definition set_max_node m r := mkRecovered (current r) (node_history r) (edge_history r) (next_version_id r) m (max_edge_id r).
Definition set_max_edge m r := mkRecovered (current r) (node_history r) (edge_history r) (next_version_id r) (max_node_id r) m.

Abbreviation M := (SM Recovered Error).
Definition get : M Recovered := fun r => (r, Ok r).
Definition modify (f : Recovered -> Recovered) : M unit := fun r => (f r, Ok tt).
Definition on_current {A} (m : SM CurStore.CurrentStorage Error A) : M A := fun r =>
  let '(c, a) := m (current r) in (set_current c r, a).
Definition on_nodes {A} (m : SM (History.Store unit) Error A) : M A := fun r =>
  let '(h, a) := m (node_history r) in (set_node_history h r, a).
Definition on_edges {A} (m : SM (History.Store (NodeId * NodeId)) Error A) : M A := fun r =>
  let '(h, a) := m (edge_history r) in (set_edge_history h r, a).

(** ** Synthesized version ids *)
Definition u64_saturating_add (a b : Z) : Z := saturate 0 u64_max (a + b).
Definition bump (id : VersionId) : M unit := modify (fun r => set_next (Id.bump_next_version_id (next_version_id r) id) r).
Definition mint_structural_version_id : M VersionId :=
  r ← get;
  id ← lift (map_err EStorage (Id.structural (next_version_id r)));
  _ ← modify (set_next (u64_saturating_add (next_version_id r) 1));
  mret id.
(** [VersionId::new(next_version_id)] *)
Definition synthesize : M VersionId := r ← get; lift (map_err EStorage (Id.new_version (next_version_id r))).
Definition mint_if {A} (o : option A) : M (option VersionId) :=
  match o with Some _ => id ← mint_structural_version_id; mret (Some id) | None => mret None end.
(** The id a deletion logged, or a synthesized one. *)
Definition logged_or_synthesized (logged : option VersionId) : M VersionId :=
  id ← match logged with Some id => mret id | None => synthesize end;
  _ ← bump id;
  mret id.

(** [max_node_id], [max_edge_id] *)
Definition maximum (m : option Z) (id : Z) : option Z := Some (match m with Some c => Z.max c id | None => id end).

Section Heads.
Context {X : Type}.
Implicit Types s : History.Store X.

(** A head whose valid time is open: the entity is alive in the history. *)
Definition valid_open s (vid : VersionId) : bool :=
  match History.versions s !! vid with Some v => Range.is_current (valid_time (History.temporal v)) | None => false end.
Definition live_head s (e : Z) : option VersionId :=
  match History.version_heads s !! e with Some vid => if valid_open s vid then Some vid else None | None => None end.

(** The id under which a creation is applied: what a store that already has it uses. *)
Definition created_version s (e : Z) (in_current : option VersionId) : option VersionId :=
  match live_head s e, in_current with
  | Some vid, _ => Some vid
  | None, Some v => match History.versions s !! v with None => Some v | Some _ => None end
  | None, None => None
  end.
Definition retracted_from s (e : Z) (commit : HybridTimestamp) : HybridTimestamp :=
  match History.version_heads s !! e ≫= fun vid => History.versions s !! vid with
  | Some v => Temporal.start (valid_time (History.temporal v))
  | None => commit
  end.
Definition close_head (head : option VersionId) (commit : HybridTimestamp) : SM (History.Store X) Error unit :=
  match head with Some vid => History.close_version_transaction_time vid commit | None => mret tt end.
End Heads.

Section Ops.
Context {St : Type} `{Interner St}.
Variable it : St.
Variable ptr_eq : PropertyValue -> PropertyValue -> bool.
Variable map_ptr_eq : PropertyMap -> PropertyMap -> bool.
Variable config : History.Config.
Variable pre_anchor_hooks : Z -> HybridTimestamp -> PropertyMap -> option Z.

(** [live_structural_node_head] / [live_structural_edge_head] *)
Definition live_structural_head {X} (e : Z) : SM (History.Store X) Error (option (VersionId * Z * PropertyMap)) := fun s =>
  match History.version_heads s !! e with
  | None => (s, Ok None)
  | Some head =>
      match History.versions s !! head with
      | Some v =>
          if Id.is_structural head && BiTemporal.is_current (History.temporal v)
          then (p ← History.reconstruct it config head; mret (Some (head, History.label v, p))) s
          else (s, Ok None)
      | None => (s, Ok None)
      end
  end.

(** The label, the end points and the properties that a closing version repeats: from
    the current entity, else from the live head; none if the history is closed already. *)
Definition closing_payload {X} (e : Z) (in_current : option (Z * X * PropertyMap)) : SM (History.Store X) Error (option (Z * X * PropertyMap)) := fun s =>
  match in_current, live_head s e with
  | Some p, Some _ => (s, Ok (Some p))
  | Some p, None => (s, Ok (match History.version_heads s !! e with None => Some p | Some _ => None end))
  | None, Some vid =>
      match History.versions s !! vid with
      | Some v => (p ← History.reconstruct it config vid; mret (Some (History.label v, History.ends v, p))) s
      | None => (s, Ok None)
      end
  | None, None => (s, Ok None)
  end.

Abbreviation add := (History.add_version_with_provenance it ptr_eq map_ptr_eq config pre_anchor_hooks).
Abbreviation add_retracted := (History.add_retracted_version_with_provenance it ptr_eq map_ptr_eq config pre_anchor_hooks).
Abbreviation apply_update := (Slices.apply_update it ptr_eq map_ptr_eq config pre_anchor_hooks).

Definition create_node (id : NodeId) (label : Z) (properties : PropertyMap) (valid_from : HybridTimestamp) (prov : option Provenance)
    (commit : HybridTimestamp) : M unit :=
  _ ← modify (fun r => set_max_node (maximum (max_node_id r) id) r);
  r ← get;
  let current_node := CurIdx.get_node id (CurStore.indexes (current r)) in
  let h := node_history r in
  match current_node, live_head h id with
  | Some _, Some _ => mret tt
  | _, live =>
      version_id ← match created_version h id (n_current_version <$> current_node) with Some v => mret v | None => synthesize end;
      _ ← bump version_id;
      _ ← match current_node with
          | None => on_current (CurStore.insert_node_direct it (mkNode id label properties version_id (meta_new RECOVERY_TX_ID commit)))
          | Some _ => mret tt
          end;
      match live with
      | None =>
          _ ← on_nodes (close_head (History.version_heads h !! id) commit);
          on_nodes (add id version_id valid_from commit label tt properties false prov)
      | Some _ => mret tt
      end
  end.
Definition create_edge (id : EdgeId) (source target : NodeId) (label : Z) (properties : PropertyMap) (valid_from : HybridTimestamp)
    (prov : option Provenance) (commit : HybridTimestamp) : M unit :=
  _ ← modify (fun r => set_max_edge (maximum (max_edge_id r) id) r);
  r ← get;
  let current_edge := CurIdx.get_edge id (CurStore.indexes (current r)) in
  let h := edge_history r in
  match current_edge, live_head h id with
  | Some _, Some _ => mret tt
  | _, live =>
      version_id ← match created_version h id (e_current_version <$> current_edge) with Some v => mret v | None => synthesize end;
      _ ← bump version_id;
      _ ← match current_edge with
          | None => on_current (CurStore.insert_edge_direct it (mkEdge id label source target properties version_id (meta_new RECOVERY_TX_ID commit)))
          | Some _ => mret tt
          end;
      match live with
      | None =>
          _ ← on_edges (close_head (History.version_heads h !! id) commit);
          on_edges (add id version_id valid_from commit label (source, target) properties false prov)
      | Some _ => mret tt
      end
  end.

(** The update of the history, skipped when the version is there already; gives the
    state of the open head when a backfill re-asserted it. *)
Definition update_history {X} (on : forall A, SM (History.Store X) Error A -> M A) (view : Recovered -> History.Store X)
    (id : Z) (version_id : VersionId) (label : Z) (ends : X) (properties : PropertyMap) (valid_from : HybridTimestamp)
    (prov : option Provenance) (commit : HybridTimestamp) : M (option (VersionId * Z * PropertyMap)) :=
  r ← get;
  match History.versions (view r) !! version_id with
  | None =>
      let plan := Slices.plan_entity_update (view r) id valid_from in
      carry_id ← mint_if (Slices.carry_from plan);
      reassert_id ← mint_if (Slices.reassert plan);
      applied ← on _ (apply_update id plan valid_from commit version_id label ends properties prov carry_id reassert_id);
      mret (Slices.reasserted applied)
  | Some _ => on _ (live_structural_head id)
  end.

Definition update_node (id : NodeId) (version_id : VersionId) (label : Z) (properties : PropertyMap) (valid_from : HybridTimestamp)
    (prov : option Provenance) (commit : HybridTimestamp) : M unit :=
  _ ← bump version_id;
  current_state ← update_history (@on_nodes) node_history id version_id label tt properties valid_from prov commit;
  let metadata := meta_new RECOVERY_TX_ID commit in
  on_current (CurStore.update_node_direct it
    (match current_state with
     | Some (head_id, head_label, head_properties) => mkNode id head_label head_properties head_id metadata
     | None => mkNode id label properties version_id metadata
     end)).
Definition update_edge (id : EdgeId) (version_id : VersionId) (label : Z) (properties : PropertyMap) (valid_from : HybridTimestamp)
    (prov : option Provenance) (commit : HybridTimestamp) : M unit :=
  _ ← bump version_id;
  r ← get;
  edge ← lift (CurStore.get_edge id (current r));
  current_state ← update_history (@on_edges) edge_history id version_id label (e_source edge, e_target edge) properties valid_from prov commit;
  let metadata := meta_new RECOVERY_TX_ID commit in
  on_current (CurStore.update_edge_direct it
    (match current_state with
     | Some (head_id, head_label, head_properties) => mkEdge id head_label (e_source edge) (e_target edge) head_properties head_id metadata
     | None => mkEdge id label (e_source edge) (e_target edge) properties version_id metadata
     end)).

(** The historical half of a deletion and of a retraction. *)
Definition close_history {X} (on : forall A, SM (History.Store X) Error A -> M A) (view : Recovered -> History.Store X)
    (id : Z) (in_current : option (Z * X * PropertyMap)) (logged : option VersionId)
    (append : VersionId -> HybridTimestamp -> Z * X * PropertyMap -> SM (History.Store X) Error unit)
    (close : option VersionId -> SM (History.Store X) Error unit) (commit : HybridTimestamp) : M unit :=
  r ← get;
  payload ← on _ (closing_payload id in_current);
  match payload with
  | Some p =>
      let valid_from := retracted_from (view r) id commit in
      _ ← on _ (close (History.version_heads (view r) !! id));
      vid ← logged_or_synthesized logged;
      on _ (append vid valid_from p)
  | None => mret tt
  end.

(** [close_all_node_slices], when there is a head *)
Definition close_slices {X} (id : Z) (commit : HybridTimestamp) (head : option VersionId) : SM (History.Store X) Error unit :=
  match head with Some _ => Slices.close_all_slices id commit | None => mret tt end.

Definition payload_of_node (n : Node) : Z * unit * PropertyMap := (n_label n, tt, n_properties n).
Definition payload_of_edge (e : Edge) : Z * (NodeId * NodeId) * PropertyMap := (e_label e, (e_source e, e_target e), e_properties e).

Definition remove_node (id : NodeId) (node : option Node) : M unit :=
  match node with Some _ => on_current (CurStore.delete_node_direct it id) | None => mret tt end.
Definition remove_edge (id : EdgeId) (edge : option Edge) : M unit :=
  match edge with Some _ => on_current (CurStore.delete_edge_direct it id) | None => mret tt end.

Definition delete_node (id : NodeId) (valid_from : HybridTimestamp) (logged : option VersionId) (prov : option Provenance)
    (commit : HybridTimestamp) : M unit :=
  r ← get;
  let node := CurIdx.get_node id (CurStore.indexes (current r)) in
  _ ← close_history (@on_nodes) node_history id (payload_of_node <$> node) logged
        (fun vid _ '(label, ends, properties) => add id vid valid_from commit label ends properties true prov)
        (close_slices id commit) commit;
  remove_node id node.
Definition delete_edge (id : EdgeId) (valid_from : HybridTimestamp) (logged : option VersionId) (prov : option Provenance)
    (commit : HybridTimestamp) : M unit :=
  r ← get;
  let edge := CurIdx.get_edge id (CurStore.indexes (current r)) in
  _ ← close_history (@on_edges) edge_history id (payload_of_edge <$> edge) logged
        (fun vid _ '(label, ends, properties) => add id vid valid_from commit label ends properties true prov)
        (close_slices id commit) commit;
  remove_edge id edge.
Definition retract_node (id : NodeId) (valid_to : HybridTimestamp) (logged : option VersionId) (prov : option Provenance)
    (commit : HybridTimestamp) : M unit :=
  r ← get;
  let node := CurIdx.get_node id (CurStore.indexes (current r)) in
  _ ← close_history (@on_nodes) node_history id (payload_of_node <$> node) logged
        (fun vid valid_from '(label, ends, properties) => add_retracted id vid valid_from valid_to commit label ends properties prov)
        (fun head => close_head head commit) commit;
  remove_node id node.
Definition retract_edge (id : EdgeId) (valid_to : HybridTimestamp) (logged : option VersionId) (prov : option Provenance)
    (commit : HybridTimestamp) : M unit :=
  r ← get;
  let edge := CurIdx.get_edge id (CurStore.indexes (current r)) in
  _ ← close_history (@on_edges) edge_history id (payload_of_edge <$> edge) logged
        (fun vid valid_from '(label, ends, properties) => add_retracted id vid valid_from valid_to commit label ends properties prov)
        (fun head => close_head head commit) commit;
  remove_edge id edge.

(** One resolved operation.  Without a constraint registry the declarations do nothing. *)
Definition replay_operation (op : Wal.WalOperation) (commit : HybridTimestamp) : M unit :=
  match op with
  | Wal.CreateNode n l p vf pr => create_node n l p vf pr commit
  | Wal.CreateEdge e s t l p vf pr => create_edge e s t l p vf pr commit
  | Wal.UpdateNode n v l p vf pr => update_node n v l p vf pr commit
  | Wal.UpdateEdge e v l p vf pr => update_edge e v l p vf pr commit
  | Wal.DeleteNode n vf v pr => delete_node n vf v pr commit
  | Wal.DeleteEdge e vf v pr => delete_edge e vf v pr commit
  | Wal.RetractNode n vt v pr => retract_node n vt v pr commit
  | Wal.RetractEdge e vt v pr => retract_edge e vt v pr commit
  | Wal.Checkpoint _ _ | Wal.DeclareUniqueConstraint _ _ | Wal.DropUniqueConstraint _ _ | Wal.BeginTx _ | Wal.CommitTx _ _ _ => mret tt
  end.
Fixpoint replay_operations (ops : list (Wal.WalOperation * HybridTimestamp)) : M unit :=
  match ops with
  | [] => mret tt
  | (op, commit) :: ops => _ ← replay_operation op commit; replay_operations ops
  end.

(** [replay_entries_into_storage] *)
Definition replay_entries (entries : list Wal.WalEntry) : M unit :=
  replay_operations (Frames.resolve_transaction_frames entries).
End Ops.

(** ** Afterwards: the temporal index, in the order in which the map is iterated *)
Definition index_versions {X} (ent : Z -> EntityId) (vs : list (VersionId * History.Version X)) (ix : TIdx.TemporalIndexes) : TIdx.TemporalIndexes :=
  foldl (fun ix p => (TIdx.insert_version (ent (History.entity p.2)) p.1 (History.temporal p.2) ix).1) ix vs.
Definition rebuild_temporal_index_from_versions (r : Recovered) (ix : TIdx.TemporalIndexes) : TIdx.TemporalIndexes :=
  index_versions EEdge (map_to_list (History.versions (edge_history r)))
    (index_versions ENode (map_to_list (History.versions (node_history r))) ix).
End Replay.
