(* ===== verification/Renaming.v ===== *)
(** * Renaming the versions of a history

    Nothing the historical store does depends on which numbers name its versions, only on
    which are equal and which carry the structural tag.  [ren_store] renames every version
    of a store; every operation of [History] and [Slices] commutes with it. *)

From S2P Require Import Prelude.
From S2P Require Import Bytes.
From S2P Require Import Errors.
From S2P Require Import Hlc.
From S2P Require Import Temporal.
From S2P Require Import Ids.
From S2P Require Import Interning.
From S2P Require Import Property.
From S2P Require Import PropMap.
From S2P Require Import Provenance.
From S2P Require Import Delta.
From S2P Require Import History.
From S2P Require Import Slices.

(** ** Outcomes up to a map of the values; which error it is does not matter *)
Definition same_out {E A B} (f : A -> B) (r : res E A) (r' : res E B) : Prop :=
  match r, r' with
  | Ok a, Ok b => b = f a
  | Err _, Err _ => True
  | Panic, Panic => True
  | _, _ => False
  end.
Lemma same_out_bind {E A B C D} (f : A -> B) (g : C -> D) (r : res E A) r' (k : A -> res E C) (k' : B -> res E D) :
  same_out f r r' -> (forall a, same_out g (k a) (k' (f a))) -> same_out g (r ≫= k) (r' ≫= k').
Proof. destruct r, r'; simpl; try done. intros -> Hk. apply Hk. Qed.
Lemma same_out_id {E A} (r : res E A) : same_out (fun a => a) r r.
Proof. by destruct r. Qed.
Lemma same_out_eq {E A} (r r' : res E A) : r = r' -> same_out (fun a => a) r r'.
Proof. intros ->. apply same_out_id. Qed.
Lemma same_out_map_err {E F A B} (h : E -> F) (f : A -> B) r r' : same_out f r r' -> same_out f (map_err h r) (map_err h r').
Proof. by destruct r, r'. Qed.
Lemma same_out_ok {E A B} (f : A -> B) (r : res E A) r' a : same_out f r r' -> r = Ok a -> r' = Ok (f a).
Proof. intros Hs ->. destruct r'; simpl in Hs; by simplify_eq. Qed.

Lemma map_filter_inj (f : VersionId -> VersionId) `{!Inj (=) (=) f} (v : VersionId) (l : list VersionId) :
  filter (fun w => w <> f v) (List.map f l) = List.map f (filter (fun w => w <> v) l).
Proof.
  induction l as [|x l IH]; [done|]. simpl. rewrite !filter_cons. destruct (decide (x = v)) as [->|Hn].
  - do 2 (rewrite decide_False by tauto). apply IH.
  - rewrite !decide_True by (try done; by intros ?%(inj f)). simpl. by rewrite IH.
Qed.
Lemma elem_map_inj (f : VersionId -> VersionId) `{!Inj (=) (=) f} (v : VersionId) (l : list VersionId) : f v ∈ List.map f l <-> v ∈ l.
Proof. split; [|apply (list_elem_of_fmap_2 f)]. intros (w & E & Hw)%(list_elem_of_fmap f). by apply (inj f) in E as ->. Qed.

Section Renaming.
Import PropMap Prov Delta History Slices.
Context {X : Type} (rho : VersionId -> VersionId) `{!Inj (=) (=) rho}.
Hypothesis rho_tag : forall v, Id.is_structural (rho v) = Id.is_structural v.
Implicit Types (s : Store X) (v : Version X).

Definition ren_version v : Version X :=
  mkVersion X (rho (id v)) (entity v) (temporal v) (label v) (ends v) (data v) (commit_timestamp v)
    (rho <$> next_version v) (rho <$> prev_version v) (provenance v).
Definition ren_store s : Store X :=
  mkStore X (ren_version <$> kmap rho (versions s)) (rho <$> version_heads s) (version_counts s) (List.map rho <$> open_slices s)
    (structural_counts s) (versions_since_anchor s) (cached_anchor_count s) (cached_delta_count s)
    (kmap rho (property_cache s)) (kmap rho (anchor_cache s)) (snapshot_policies s).

Lemma ren_lookup s vid : versions (ren_store s) !! rho vid = ren_version <$> versions s !! vid.
Proof. simpl. by rewrite lookup_fmap, lookup_kmap. Qed.
Lemma ren_head s e : version_heads (ren_store s) !! e = rho <$> version_heads s !! e.
Proof. simpl. by rewrite lookup_fmap. Qed.
Lemma ren_slices s e : node_open_slices (ren_store s) e = List.map rho (node_open_slices s e).
Proof. unfold node_open_slices. simpl. rewrite lookup_fmap. by destruct (_ !! e). Qed.
Lemma ren_insert s vid v :
  <[rho vid := ren_version v]> (versions (ren_store s)) = ren_version <$> kmap rho (<[vid := v]> (versions s)).
Proof. simpl. by rewrite kmap_insert, fmap_insert. Qed.
Lemma ren_empty : ren_store (empty_store X) = empty_store X.
Proof. unfold ren_store, empty_store. simpl. by rewrite !kmap_empty, !fmap_empty. Qed.

(** ** Programs that commute with the renaming *)
Definition renames {A B} (f : A -> B) (m : SM (Store X) Error A) (m' : SM (Store X) Error B) : Prop :=
  forall s, (m' (ren_store s)).1 = ren_store (m s).1 /\ same_out f (m s).2 (m' (ren_store s)).2.

Lemma renames_bind {A B C D} (f : A -> B) (g : C -> D) (m : SM _ Error A) m' (k : A -> SM _ Error C) (k' : B -> SM _ Error D) :
  renames f m m' -> (forall a, renames g (k a) (k' (f a))) -> renames g (m ≫= k) (m' ≫= k').
Proof.
  intros Hm Hk s. destruct (Hm s) as [H1 H2]. unfold mbind, sm_bind.
  destruct (m s) as [s1 [a|e|]], (m' (ren_store s)) as [s2 [b|e'|]]; simpl in *; subst; try done. apply Hk.
Qed.
Lemma renames_ret {A B} (f : A -> B) a b : b = f a -> renames f (mret a) (mret b).
Proof. intros -> s. by split. Qed.
Lemma renames_lift {A B} (f : A -> B) r r' : same_out f r r' -> renames f (lift r) (lift r').
Proof. intros Hr s. by split. Qed.
Lemma renames_get : renames ren_store get_store get_store.
Proof. intros s. by split. Qed.
Lemma renames_ok {A B} (f : A -> B) m m' s s1 a : renames f m m' -> m s = (s1, Ok a) -> m' (ren_store s) = (ren_store s1, Ok (f a)).
Proof.
  intros Hm Hs. destruct (Hm s) as [H1 H2]. rewrite Hs in H1, H2. simpl in *.
  destruct (m' (ren_store s)) as [s2 [b|e|]]; simpl in *; by simplify_eq.
Qed.

Section Ops.
Context {St : Type} `{Interner St}.
Context (it : St) (ptr_eq : PropertyValue -> PropertyValue -> bool) (map_ptr_eq : PropertyMap -> PropertyMap -> bool).
Context (config : Config) (pre_anchor_hooks : Z -> HybridTimestamp -> PropertyMap -> option Z).
Abbreviation reconstruct := (History.reconstruct it config).

Lemma collect_chain_renames n s vid first :
  same_out (List.map ren_version) (collect_chain n s vid first) (collect_chain n (ren_store s) (rho vid) first).
Proof.
  revert vid first. induction n as [|n IH]; intros vid first; [done|]. cbn [collect_chain]. rewrite ren_lookup.
  destruct (versions s !! vid) as [v|]; simpl; [|by destruct first]. destruct (is_anchor (data v)); [done|].
  destruct (prev_version v) as [p|]; simpl; [|done]. apply (same_out_bind (List.map ren_version)); [apply IH|done].
Qed.
Lemma apply_deltas_renames (vs : list (Version X)) p : apply_deltas it (List.map ren_version vs) p = apply_deltas it vs p.
Proof. revert p. induction vs as [|v vs IH]; intros p; [done|]. simpl. destruct (data v); [done|]. apply IH. Qed.
Lemma iterative_renames s vid :
  same_out (fun p => p) (reconstruct_iterative it config s vid) (reconstruct_iterative it config (ren_store s) (rho vid)).
Proof.
  unfold reconstruct_iterative. apply (same_out_bind (List.map ren_version)); [apply collect_chain_renames|]. intros chain.
  rewrite <- map_rev. destruct (rev chain) as [|a ds]; simpl; [done|]. destruct (data a); [|done].
  rewrite apply_deltas_renames. apply same_out_id.
Qed.
Lemma reconstruct_renames vid : renames (fun p => p) (reconstruct vid) (reconstruct (rho vid)).
Proof.
  intros s. unfold History.reconstruct. simpl property_cache. simpl anchor_cache. rewrite !lookup_kmap by apply _.
  destruct (property_cache s !! vid); [by split|]. destruct (anchor_cache s !! vid).
  { split; [|done]. unfold ren_store, set_caches. simpl. by rewrite kmap_insert. }
  pose proof (iterative_renames s vid) as Hi.
  destruct (reconstruct_iterative it config s vid), (reconstruct_iterative it config (ren_store s) (rho vid)); simpl in *; try done.
  subst. split; [|done]. unfold ren_store, set_caches. simpl. by rewrite kmap_insert.
Qed.

Lemma track_renames e vid s : track_slice_if_open e (rho vid) (ren_store s) = ren_store (track_slice_if_open e vid s).
Proof.
  unfold track_slice_if_open. rewrite ren_lookup. destruct (versions s !! vid) as [v|]; [|done]. simpl.
  destruct (is_open_slice (temporal v)); [|done]. simpl. rewrite lookup_fmap. unfold ren_store, set_open_slices. simpl. f_equal.
  rewrite fmap_insert. f_equal. destruct (open_slices s !! e) as [l|]; simpl; [|done]. destruct (decide (vid ∈ l)) as [Hl|Hl].
  - rewrite (bool_decide_eq_true_2 (vid ∈ l)), bool_decide_eq_true_2 by (try done; by apply elem_map_inj). done.
  - rewrite (bool_decide_eq_false_2 (vid ∈ l)), bool_decide_eq_false_2 by (try done; by rewrite elem_map_inj). by rewrite map_app.
Qed.
Lemma untrack_renames e vid s : untrack_slice e (rho vid) (ren_store s) = ren_store (untrack_slice e vid s).
Proof.
  unfold untrack_slice, set_open_slices, ren_store. simpl. f_equal. unfold untrack. rewrite lookup_fmap.
  destruct (open_slices s !! e) as [l|]; simpl; [|done]. rewrite map_filter_inj by apply _.
  destruct (filter _ l); simpl; [by rewrite fmap_delete|by rewrite fmap_insert].
Qed.
Lemma set_versions_renames vid v s :
  set_versions (<[rho vid := ren_version v]> (versions (ren_store s))) (ren_store s) = ren_store (set_versions (<[vid := v]> (versions s)) s).
Proof. unfold set_versions. rewrite ren_insert. done. Qed.

Lemma close_previous_renames prev vid t :
  (close_previous_version_intervals (ren_version prev) (rho vid) t).1 = ren_version (close_previous_version_intervals prev vid t).1 /\
  (close_previous_version_intervals (ren_version prev) (rho vid) t).2 = (close_previous_version_intervals prev vid t).2.
Proof. unfold close_previous_version_intervals. simpl. case_match; [|done]. by destruct (BiTemporal.close_transaction_time _ _). Qed.

Lemma create_renames e vid t lbl en props prev :
  renames ren_version (create_version it ptr_eq map_ptr_eq config e vid t lbl en props prev)
    (create_version it ptr_eq map_ptr_eq config e (rho vid) t lbl en props (rho <$> prev)).
Proof.
  intros s. unfold create_version. destruct prev as [p|]; simpl fmap; cbv beta iota; [|by split]. rewrite ren_lookup.
  destruct (versions s !! p) as [v|]; simpl fmap; cbv beta iota; [|by split]. simpl versions_since_anchor. case_match; [by split|].
  apply (renames_bind (fun p => p)); [apply reconstruct_renames|]. intros old s0. by split.
Qed.
Lemma hooks_renames s t props v :
  run_hooks pre_anchor_hooks (ren_store s) t props (ren_version v) = ren_version (run_hooks pre_anchor_hooks s t props v).
Proof. unfold run_hooks. simpl. case_match; [|done]. by case_match. Qed.
Lemma link_renames e vid t prev :
  renames (fun u => u) (link_previous e vid t prev) (link_previous (X := X) e (rho vid) t (rho <$> prev)).
Proof.
  intros s. unfold link_previous. destruct prev as [p|]; simpl fmap; cbv beta iota; [|by split]. rewrite ren_lookup.
  destruct (versions s !! p) as [v|]; simpl fmap; cbv beta iota; [|by split]. destruct (close_previous_renames v vid t) as [H1 H2].
  destruct (close_previous_version_intervals v vid t) as [v1 r1], (close_previous_version_intervals (ren_version v) (rho vid) t) as [v2 r2].
  cbn [fst snd] in *. subst v2 r2. rewrite (set_versions_renames p v1 s). destruct r1; cbn [fst snd]; (split; [|done]); [apply track_renames|done..].
Qed.
Lemma store_renames e vid v props s : store_version e (rho vid) (ren_version v) props (ren_store s) = ren_store (store_version e vid v props s).
Proof.
  unfold store_version. rewrite ren_insert, rho_tag. unfold ren_store. simpl. f_equal; [by rewrite fmap_insert|by rewrite kmap_insert|].
  destruct (is_anchor (data v)); [|done]. by rewrite kmap_insert.
Qed.

Abbreviation add := (add_version_with_interval it ptr_eq map_ptr_eq config pre_anchor_hooks).
Lemma add_renames e vid t lbl en props prov : renames (fun u => u) (add e vid t lbl en props prov) (add e (rho vid) t lbl en props prov).
Proof.
  intros s. unfold add_version_with_interval. rewrite rho_tag, ren_head. change (logical_version_count (ren_store s) e) with (logical_version_count s e).
  destruct (_ && _); [by split|]. set (prev := version_heads s !! e).
  refine (renames_bind ren_version (fun u => u) _ _ _ _ (create_renames _ _ _ _ _ _ prev) _ s). clearbody prev. clear s. intros v s. cbv zeta.
  change (with_provenance prov (ren_version v)) with (ren_version (with_provenance prov v)). rewrite hooks_renames.
  generalize (run_hooks pre_anchor_hooks s t props (with_provenance prov v)). intros w.
  refine (renames_bind (fun u => u) (fun u => u) _ _ _ _ (link_renames _ _ _ prev) _ s). clear s. intros u s.
  split; [|done]. apply store_renames.
Qed.
Lemma add_provenance_renames e vid vf tx lbl en props b prov :
  renames (fun u => u) (add_version_with_provenance it ptr_eq map_ptr_eq config pre_anchor_hooks e vid vf tx lbl en props b prov)
    (add_version_with_provenance it ptr_eq map_ptr_eq config pre_anchor_hooks e (rho vid) vf tx lbl en props b prov).
Proof. do 2 (apply (renames_bind (fun t => t)); [apply renames_lift, same_out_id|intros ?]). apply add_renames. Qed.
Lemma add_retracted_renames e vid vf vt tx lbl en props prov :
  renames (fun u => u) (add_retracted_version_with_provenance it ptr_eq map_ptr_eq config pre_anchor_hooks e vid vf vt tx lbl en props prov)
    (add_retracted_version_with_provenance it ptr_eq map_ptr_eq config pre_anchor_hooks e (rho vid) vf vt tx lbl en props prov).
Proof. do 2 (apply (renames_bind (fun t => t)); [apply renames_lift, same_out_id|intros ?]). apply add_renames. Qed.
Lemma close_renames vid c : renames (fun u => u) (close_version_transaction_time vid c) (close_version_transaction_time (X := X) (rho vid) c).
Proof.
  intros s. unfold close_version_transaction_time. rewrite ren_lookup. destruct (versions s !! vid) as [v|]; simpl fmap; cbv beta iota; [|by split].
  change (temporal (ren_version v)) with (temporal v). destruct (BiTemporal.close_transaction_time (temporal v) c) as [t|e|]; [|by split..].
  split; [|done]. cbn [fst].
  change (with_temporal t (ren_version v)) with (ren_version (with_temporal t v)).
  rewrite set_versions_renames. apply untrack_renames.
Qed.

(** ** Update plans *)
Definition ren_slice (sl : VersionId * BiTemporalInterval) : VersionId * BiTemporalInterval := (rho sl.1, sl.2).
Definition ren_plan (p : UpdatePlan) : UpdatePlan := mkPlan (rho <$> predecessor p) (carry_from p) (new_valid_to p) (rho <$> reassert p).

Lemma slice_of_renames s vid : slice_of (ren_store s) (rho vid) = ren_slice <$> slice_of s vid.
Proof. unfold slice_of. rewrite ren_lookup. by destruct (versions s !! vid). Qed.
Lemma omap_renames s l : omap (slice_of (ren_store s)) (List.map rho l) = List.map ren_slice (omap (slice_of s) l).
Proof. induction l as [|vid l IH]; [done|]. csimpl. rewrite slice_of_renames. destruct (slice_of s vid); csimpl; by rewrite IH. Qed.
Lemma plan_loop_renames l vf n : plan_loop (List.map ren_slice l) vf n = (ren_slice <$> (plan_loop l vf n).1, (plan_loop l vf n).2).
Proof. revert n. induction l as [|[vid t] l IH]; intros n; [done|]. simpl. repeat case_match; simpl; try done; apply IH. Qed.
Lemma plan_update_renames h l vf : plan_update (ren_slice <$> h) (List.map ren_slice l) vf = ren_plan (plan_update h l vf).
Proof.
  unfold plan_update.
  set (hs := match h with Some (_, t) => if is_open_slice t then h else None | None => None end).
  assert (Hh : match ren_slice <$> h with Some (_, t) => if is_open_slice t then ren_slice <$> h else None | None => None end = ren_slice <$> hs).
  { subst hs. destruct h as [[vid t]|]; simpl; [|done]. by destruct (is_open_slice t). }
  rewrite Hh. clearbody hs. clear Hh.
  set (fast := match hs with Some (_, t) => if Range.contains (valid_time t) vf then hs else None | None => None end).
  assert (Hf : match ren_slice <$> hs with Some (_, t) => if Range.contains (valid_time t) vf then ren_slice <$> hs else None | None => None end = ren_slice <$> fast).
  { subst fast. destruct hs as [[vid t]|]; simpl; [|done]. by destruct (Range.contains _ _). }
  rewrite Hf. clearbody fast. clear Hf.
  set (pn := match fast with Some _ => (fast, None) | None => plan_loop (option_list hs ++ l) vf None end).
  assert (Hp : match ren_slice <$> fast with Some _ => (ren_slice <$> fast, None)
               | None => plan_loop (option_list (ren_slice <$> hs) ++ List.map ren_slice l) vf None end = (ren_slice <$> pn.1, pn.2)).
  { subst pn. destruct fast; simpl; [done|]. replace (option_list (ren_slice <$> hs) ++ List.map ren_slice l) with (List.map ren_slice (option_list hs ++ l)).
    - rewrite plan_loop_renames. by destruct (plan_loop _ _ _).
    - rewrite map_app. by destruct hs. }
  rewrite Hp. clearbody pn. clear Hp. destruct pn as [pred next]. simpl. unfold ren_plan. simpl. f_equal.
  - by destruct pred.
  - destruct pred as [[vid t]|]; simpl; [|done]. by case_match.
  - destruct pred as [[vid t]|]; done.
  - destruct hs as [[w u]|]; [|destruct pred as [[vid t]|]; simpl; [by destruct (negb _)|by destruct next]].
    assert (Hb : bool_decide (fst <$> (ren_slice <$> pred) = Some (rho w)) = bool_decide (fst <$> pred = Some w)).
    { apply bool_decide_ext. destruct pred as [[vid t]|]; simpl; [|done]. split; [by intros [= ?%(inj rho)]; f_equal|by intros [= ->]]. }
    simpl. rewrite Hb. destruct pred as [[vid t]|]; simpl; [destruct (negb _)|destruct next]; try done; by destruct (_ && _).
Qed.
Lemma plan_renames s e vf : plan_entity_update (ren_store s) e vf = ren_plan (plan_entity_update s e vf).
Proof.
  unfold plan_entity_update. rewrite ren_slices, omap_renames, ren_head, <- plan_update_renames. f_equal.
  destruct (version_heads s !! e); simpl; [apply slice_of_renames|done].
Qed.

(** ** Updates *)
Definition ren_payload (p : payload) : payload := (rho p.1.1.1.1, p.1.1.1.2, p.1.1.2, p.1.2, p.2).
Definition ren_state (r : VersionId * Z * PropertyMap) : VersionId * Z * PropertyMap := (rho r.1.1, r.1.2, r.2).
Definition ren_applied (a : AppliedUpdate) : AppliedUpdate := mkApplied (List.map ren_slice (appended a)) (ren_state <$> reasserted a).

Lemma version_renames s vid (err err' : Error) : same_out ren_version (ok_or (versions s !! vid) err) (ok_or (versions (ren_store s) !! rho vid) err').
Proof. rewrite ren_lookup. by destruct (versions s !! vid). Qed.
Lemma require_renames (o : option VersionId) : same_out rho (require_id o) (require_id (rho <$> o)).
Proof. by destruct o. Qed.
Lemma gather_carry_renames plan o :
  renames (fmap ren_payload) (gather_carry it config plan o) (gather_carry it config (ren_plan plan) (rho <$> o)).
Proof.
  unfold gather_carry. simpl predecessor. simpl carry_from. destruct (predecessor plan) as [p|]; simpl fmap; cbv beta iota; [|by apply renames_ret].
  destruct (carry_from plan) as [from|]; [|by apply renames_ret]. apply (renames_bind ren_store); [apply renames_get|intros s].
  apply (renames_bind ren_version); [apply renames_lift, version_renames|intros v].
  apply (renames_bind (fun p => p)); [apply reconstruct_renames|intros props].
  apply (renames_bind rho); [apply renames_lift, require_renames|intros i]. by apply renames_ret.
Qed.
Lemma gather_reassert_renames plan o :
  renames (fmap ren_payload) (gather_reassert it config plan o) (gather_reassert it config (ren_plan plan) (rho <$> o)).
Proof.
  unfold gather_reassert. simpl reassert. destruct (reassert plan) as [h|]; simpl fmap; cbv beta iota; [|by apply renames_ret].
  apply (renames_bind ren_store); [apply renames_get|intros s].
  apply (renames_bind ren_version); [apply renames_lift, version_renames|intros v].
  apply (renames_bind (fun p => p)); [apply reconstruct_renames|intros props].
  apply (renames_bind rho); [apply renames_lift, require_renames|intros i]. by apply renames_ret.
Qed.
Lemma close_recorded_renames l c : renames (fun u => u) (close_recorded (X := X) l c) (close_recorded (List.map rho l) c).
Proof.
  induction l as [|vid l IH]; [by apply renames_ret|]. simpl. apply (renames_bind ren_store); [apply renames_get|intros s].
  apply (renames_bind (fun u => u)); [|done]. rewrite ren_lookup. destruct (versions s !! vid) as [v|]; simpl fmap; cbv beta iota; [|by apply renames_ret].
  change (temporal (ren_version v)) with (temporal v). destruct (BiTemporal.is_currently_recorded _); [apply close_renames|by apply renames_ret].
Qed.
Lemma superseded_renames s e plan : superseded (ren_store s) e (ren_plan plan) = List.map rho (superseded s e plan).
Proof.
  unfold superseded. rewrite !map_app, ren_head. simpl. destruct (predecessor plan), (reassert plan); simpl; try done.
  by destruct (version_heads s !! e).
Qed.
Lemma append_carry_renames e vf c en carry :
  renames (List.map ren_slice) (append_carry it ptr_eq map_ptr_eq config pre_anchor_hooks e vf c en carry)
    (append_carry it ptr_eq map_ptr_eq config pre_anchor_hooks e vf c en (ren_payload <$> carry)).
Proof.
  destruct carry as [[[[[i from] l] p] prov]|]; [|by apply renames_ret].
  do 2 (apply (renames_bind (fun t => t)); [apply renames_lift, same_out_id|intros ?]).
  apply (renames_bind (fun u => u)); [apply add_renames|intros u]. by apply renames_ret.
Qed.
Lemma append_new_renames e plan vf c vid l en p prov :
  renames (List.map ren_slice) (append_new it ptr_eq map_ptr_eq config pre_anchor_hooks e plan vf c vid l en p prov)
    (append_new it ptr_eq map_ptr_eq config pre_anchor_hooks e (ren_plan plan) vf c (rho vid) l en p prov).
Proof.
  do 2 (apply (renames_bind (fun t => t)); [apply renames_lift, same_out_id|intros ?]).
  apply (renames_bind (fun u => u)); [apply add_renames|intros u]. by apply renames_ret.
Qed.
Lemma append_reassert_renames e c en re :
  renames (fun r => (List.map ren_slice r.1, ren_state <$> r.2)) (append_reassert it ptr_eq map_ptr_eq config pre_anchor_hooks e c en re)
    (append_reassert it ptr_eq map_ptr_eq config pre_anchor_hooks e c en (ren_payload <$> re)).
Proof.
  destruct re as [[[[[i from] l] p] prov]|]; [|by apply renames_ret].
  apply (renames_bind (fun t => t)); [apply renames_lift, same_out_id|intros ?].
  apply (renames_bind (fun u => u)); [apply add_renames|intros u]. by apply renames_ret.
Qed.
Lemma update_renames e plan vf c vid l en p prov o1 o2 :
  renames ren_applied (apply_update it ptr_eq map_ptr_eq config pre_anchor_hooks e plan vf c vid l en p prov o1 o2)
    (apply_update it ptr_eq map_ptr_eq config pre_anchor_hooks e (ren_plan plan) vf c (rho vid) l en p prov (rho <$> o1) (rho <$> o2)).
Proof.
  unfold apply_update. apply (renames_bind ren_store); [apply renames_get|intros s].
  apply (renames_bind (fun u => u)); [apply renames_lift, same_out_id|intros _].
  apply (renames_bind (fmap ren_payload)); [apply gather_carry_renames|intros carry].
  apply (renames_bind (fmap ren_payload)); [apply gather_reassert_renames|intros re].
  apply (renames_bind ren_store); [apply renames_get|intros s2].
  apply (renames_bind (fun u => u)); [rewrite superseded_renames; apply close_recorded_renames|intros _].
  apply (renames_bind (List.map ren_slice)); [apply append_carry_renames|intros a1].
  apply (renames_bind (List.map ren_slice)); [apply append_new_renames|intros a2].
  apply (renames_bind (fun r => (List.map ren_slice r.1, ren_state <$> r.2))); [apply append_reassert_renames|intros [a3 r]].
  apply renames_ret. unfold ren_applied. simpl. by rewrite !map_app.
Qed.
Lemma close_all_renames e c : renames (fun u => u) (close_all_slices (X := X) e c) (close_all_slices e c).
Proof.
  unfold close_all_slices. apply (renames_bind ren_store); [apply renames_get|intros s]. rewrite ren_slices, ren_head.
  replace (List.map rho (node_open_slices s e) ++ option_list (rho <$> version_heads s !! e))
    with (List.map rho (node_open_slices s e ++ option_list (version_heads s !! e))); [apply close_recorded_renames|].
  rewrite map_app. by destruct (version_heads s !! e).
Qed.

(** ** Point-in-time reads *)
Lemma find_loop_renames n s vid vt tt : find_loop n (ren_store s) (rho vid) vt tt = rho <$> find_loop n s vid vt tt.
Proof.
  revert vid. induction n as [|n IH]; intros vid; [done|]. cbn [find_loop]. rewrite ren_lookup.
  destruct (versions s !! vid) as [v|]; simpl fmap; cbv beta iota; [|done]. change (temporal (ren_version v)) with (temporal v).
  destruct (BiTemporal.is_visible_at _ _ _); [done|]. simpl. destruct (prev_version v); simpl; [apply IH|done].
Qed.
Lemma find_renames s e vt tt : find_version_at_time (ren_store s) e vt tt = rho <$> find_version_at_time s e vt tt.
Proof.
  unfold find_version_at_time. rewrite ren_head. destruct (version_heads s !! e) as [h|]; simpl fmap; cbv beta iota; [|done].
  replace (size (versions (ren_store s))) with (size (versions s)); [apply find_loop_renames|].
  simpl. by rewrite map_size_fmap, <- !length_map_to_list, map_to_list_kmap, length_fmap.
Qed.
Definition ren_read (r : Z * X * PropertyMap * VersionId) : Z * X * PropertyMap * VersionId := (r.1, rho r.2).
Lemma entity_at_time_renames nf e vt tt : renames ren_read (entity_at_time it config nf e vt tt) (entity_at_time it config nf e vt tt).
Proof.
  intros s. unfold entity_at_time. rewrite find_renames. destruct (find_version_at_time s e vt tt) as [vid|]; simpl fmap; cbv beta iota; [|by split].
  rewrite ren_lookup. destruct (versions s !! vid) as [v|]; simpl fmap; cbv beta iota; [|by split].
  refine (renames_bind (fun p => p) ren_read _ _ _ _ (reconstruct_renames vid) _ s). intros p. by apply renames_ret.
Qed.
End Ops.
End Renaming.
