(* ===== verification/HistoryHeads.v ===== *)
(** * The heads of a history

    What an operation on one entity of the historical store leaves at the head of that
    entity, and that it leaves the heads of all others alone. *)

From S2P Require Import Prelude.
From S2P Require Import Bytes.
From S2P Require Import Errors.
From S2P Require Import Hlc.
From S2P Require Import Temporal.
From S2P Require Import Ids.
From S2P Require Import Interning.
From S2P Require Import Property.
From S2P Require Import PropMap.
From S2P Require Import Provenance.
From S2P Require Import Delta.
From S2P Require Import History.
From S2P Require Import Slices.
From S2P Require Import HistoryFacts.
From S2P Require Import Chains.
From S2P Require Import Beliefs.

Section Heads.
Import PropMap Prov Delta History Slices.
Context {St : Type} `{Interner St} {X : Type}.
Context (it : St) (ptr_eq : PropertyValue -> PropertyValue -> bool) (map_ptr_eq : PropertyMap -> PropertyMap -> bool).
Context (config : Config) (pre_anchor_hooks : Z -> HybridTimestamp -> PropertyMap -> option Z).
Implicit Types (s : Store X) (v : Version X).
Abbreviation reconstruct := (History.reconstruct it config).
Abbreviation add := (add_version_with_interval it ptr_eq map_ptr_eq config pre_anchor_hooks).

(** The interval of the head. *)
Definition head_state s (e : Z) : option BiTemporalInterval := version_heads s !! e ≫= fun h => temporal <$> versions s !! h.

(** Heads and open slices are versions of their entity. *)
Record owned s : Prop := {
  ow_head : forall e h, version_heads s !! e = Some h -> exists v, versions s !! h = Some v /\ entity v = e;
  ow_open : forall e j, j ∈ node_open_slices s e -> exists v, versions s !! j = Some v /\ entity v = e }.
Definition mine (e : Z) (ids : list VersionId) s : Prop := forall i v, i ∈ ids -> versions s !! i = Some v -> entity v = e.

(** An operation on [e] that may write the versions [ids]. *)
Definition touches (e : Z) (ids : list VersionId) s s' : Prop :=
  owned s -> mine e ids s -> owned s' /\ mine e ids s' /\
    (forall i, is_Some (versions s' !! i) -> is_Some (versions s !! i) \/ i ∈ ids) /\
    forall e', e' <> e -> head_state s' e' = head_state s e'.
#[export] Instance touches_refl e ids : Reflexive (touches e ids).
Proof. intros s O M. split_and!; auto. Qed.
#[export] Instance touches_trans e ids : Transitive (touches e ids).
Proof.
  intros s1 s2 s3 T1 T2 O M. destruct (T1 O M) as (O2 & M2 & D1 & F1). destruct (T2 O2 M2) as (O3 & M3 & D2 & F2).
  split_and!; [done..| |intros e' Hn; by rewrite F2, F1]. intros i Hi. destruct (D2 i Hi) as [Hi'|]; [by apply D1|by right].
Qed.

Lemma touches_same e ids s s' : versions s' = versions s -> version_heads s' = version_heads s -> open_slices s' = open_slices s -> touches e ids s s'.
Proof.
  intros Ev Eh Eo [H1 H2] M. unfold head_state, mine, node_open_slices in *. split_and!.
  - split; unfold node_open_slices; rewrite ?Ev, ?Eh, ?Eo; done.
  - by rewrite Ev.
  - intros i. rewrite Ev. by left.
  - intros e' _. by rewrite Ev, Eh.
Qed.
(** A version of [e] is replaced. *)
Lemma touches_replace e ids s s' vid v v' :
  versions s !! vid = Some v -> entity v = e -> entity v' = e -> versions s' = <[vid := v']> (versions s) -> version_heads s' = version_heads s ->
  (forall e' j, j ∈ node_open_slices s' e' -> j ∈ node_open_slices s e' \/ (e' = e /\ j = vid)) -> touches e ids s s'.
Proof.
  intros Hv Hev Hev' Ev Eh Ho [H1 H2] M. split_and!.
  - split.
    + intros e' h. rewrite Eh, Ev. intros (w & Hw & He)%H1. destruct (decide (h = vid)) as [->|].
      * rewrite lookup_insert_eq. exists v'. split; [done|]. congruence.
      * rewrite lookup_insert_ne by done. eauto.
    + intros e' j Hj. rewrite Ev. destruct (decide (j = vid)) as [->|].
      * rewrite lookup_insert_eq. exists v'. split; [done|]. destruct (Ho _ _ Hj) as [Hj'|[-> _]]; [|done].
        apply H2 in Hj' as (w & Hw & <-). congruence.
      * rewrite lookup_insert_ne by done. destruct (Ho _ _ Hj) as [Hj'|[_ ->]]; [|done]. by apply H2.
  - intros i w Hi. rewrite Ev. destruct (decide (i = vid)) as [->|]; [rewrite lookup_insert_eq; by intros [= <-]|].
    rewrite lookup_insert_ne by done. by apply M.
  - intros i. rewrite Ev. destruct (decide (i = vid)) as [->|]; [by left|]. rewrite lookup_insert_ne by done. by left.
  - intros e' Hne. unfold head_state. rewrite Eh, Ev. destruct (version_heads s !! e') as [h|] eqn:E; [|done]. simpl.
    apply H1 in E as (w & Hw & He). rewrite lookup_insert_ne; [done|]. intros ->. congruence.
Qed.

Lemma reconstruct_touches e ids vid : moves (touches e ids) (reconstruct vid).
Proof. intros s. destruct (reconstruct_state it config vid s) as [->|(p & _ & ->)]; [done|by apply touches_same]. Qed.

Lemma track_spec e vid s :
  versions (track_slice_if_open e vid s) = versions s /\ version_heads (track_slice_if_open e vid s) = version_heads s /\
  forall e' j, j ∈ node_open_slices (track_slice_if_open e vid s) e' -> j ∈ node_open_slices s e' \/ (e' = e /\ j = vid).
Proof.
  unfold track_slice_if_open. destruct (versions s !! vid) as [v|]; [|by split_and!; auto]. destruct (is_open_slice (temporal v)); [|by split_and!; auto].
  split_and!; [done..|]. intros e' j. unfold node_open_slices. simpl. destruct (decide (e' = e)) as [->|]; [|rewrite lookup_insert_ne by done; by left].
  rewrite lookup_insert_eq. simpl. case_bool_decide; [by left|]. rewrite elem_of_app, list_elem_of_singleton. naive_solver.
Qed.
Lemma close_previous_entity prev vid t prev' r : close_previous_version_intervals (X := X) prev vid t = (prev', r) -> entity prev' = entity prev.
Proof. intros Hc. by apply link_evolves in Hc as []. Qed.

Lemma link_touches e vid t s ids : touches e ids s (link_previous e vid t (version_heads s !! e) s).1.
Proof.
  unfold link_previous. destruct (version_heads s !! e) as [p|] eqn:Ep; [|done].
  destruct (versions s !! p) as [v|] eqn:Ev; [|done]. intros O. pose proof O as [H1 _]. destruct (H1 _ _ Ep) as (w & Hw & He).
  assert (w = v) as -> by congruence.
  destruct (close_previous_version_intervals v vid t) as [v' r] eqn:Ec. apply close_previous_entity in Ec. revert O.
  set (s1 := set_versions (<[p := v']> (versions s)) s). destruct (track_spec e p s1) as (T1 & T2 & T3).
  enough (touches e ids s (match r with Ok _ => track_slice_if_open e p s1 | _ => s1 end)) by (by destruct r).
  apply (touches_replace e ids s _ p v v'); [done|done|congruence|destruct r; done|destruct r; done|].
  intros e' j. destruct r; [apply T3|by left..].
Qed.
Lemma store_touches e vid v props s ids : vid ∈ ids -> entity v = e -> touches e ids s (store_version e vid v props s).
Proof.
  intros Hin He [H1 H2] M. split_and!.
  - split.
    + intros e' h. simpl. destruct (decide (e' = e)) as [->|].
      * rewrite lookup_insert_eq. intros [= <-]. rewrite lookup_insert_eq. eauto.
      * rewrite lookup_insert_ne by done. intros (w & Hw & He')%H1. rewrite lookup_insert_ne; [eauto|].
        intros <-. apply M in Hw; [congruence|done].
    + intros e' j Hj. simpl. apply H2 in Hj as (w & Hw & Hw'). destruct (decide (j = vid)) as [->|].
      * rewrite lookup_insert_eq. exists v. split; [done|]. rewrite He, <- Hw'. symmetry. by eapply M.
      * rewrite lookup_insert_ne by done. eauto.
  - intros i w Hi. simpl. destruct (decide (i = vid)) as [->|]; [rewrite lookup_insert_eq; by intros [= <-]|].
    rewrite lookup_insert_ne by done. by apply M.
  - intros i. simpl. destruct (decide (i = vid)) as [->|]; [by right|]. rewrite lookup_insert_ne by done. by left.
  - intros e' Hne. unfold head_state. simpl. rewrite lookup_insert_ne by done. destruct (version_heads s !! e') as [h|] eqn:E; [|done]. simpl.
    apply H1 in E as (w & Hw & He'). rewrite lookup_insert_ne; [done|]. intros <-. apply M in Hw; [congruence|done].
Qed.

(** *** Appending *)
Lemma create_touches e ids e0 vid t l en p prev : moves (touches e ids) (create_version it ptr_eq map_ptr_eq config e0 vid t l en p prev).
Proof.
  intros s. unfold create_version. destruct prev as [q|]; [|by apply touches_same]. destruct (versions s !! q); [|done].
  case_goal; [by apply touches_same|]. apply (moves_bind (touches e ids)); [apply reconstruct_touches|].
  intros old s1. by apply touches_same.
Qed.
(** An append that succeeds leaves its interval at the head. *)
Lemma add_touches e ids vid t l en p prov s s' r :
  vid ∈ ids -> add e vid t l en p prov s = (s', r) -> touches e ids s s' /\ forall u, r = Ok u -> head_state s' e = Some t.
Proof.
  intros Hin. unfold add_version_with_interval. case_goal; [by intros [= <- <-]|]. unfold mbind, sm_bind.
  pose proof (create_touches e ids e vid t l en p (version_heads s !! e) s) as T1.
  destruct (create_version _ _ _ _ _ _ _ _ _ _ _ _) as [s1 [v|er|]] eqn:Ec; [|by intros [= <- <-]..].
  pose proof (create_stays it config ptr_eq map_ptr_eq (tx_start t) e vid t l en p (version_heads s !! e) s) as [_ Eh]. rewrite Ec in Eh. simpl in Eh, T1.
  apply create_fields in Ec as (E1 & E2 & E3 & _).
  pose proof (run_hooks_fields pre_anchor_hooks s1 t p (with_provenance prov v)) as (F1 & F2 & F3 & _). rewrite <- Eh.
  set (v1 := run_hooks _ _ _ _ _) in *.
  pose proof (link_touches e vid t s1 ids) as T2. destruct (link_previous e vid t (version_heads s1 !! e) s1) as [s2 [u|er|]]; simpl in T2;
    intros [= <- <-]; (split; [etrans; [exact T1|]|]); try done.
  - etrans; [exact T2|]. apply store_touches; [done|]. by rewrite F2.
  - intros _ _. unfold head_state. simpl. rewrite lookup_insert_eq. simpl. rewrite lookup_insert_eq. simpl. rewrite F3. simpl. by rewrite E3.
Qed.
Lemma add_moves e ids vid t l en p prov : vid ∈ ids -> moves (touches e ids) (add e vid t l en p prov).
Proof. intros Hin s. destruct (add e vid t l en p prov s) as [s' r] eqn:E. by apply (add_touches e ids) in E as [T _]. Qed.

(** *** Closing *)
Lemma close_touches e ids vid c : vid ∈ ids -> moves (touches e ids) (close_version_transaction_time (X := X) vid c).
Proof.
  intros Hin s O M. revert O M. unfold close_version_transaction_time. destruct (versions s !! vid) as [v|] eqn:Ev; [|by apply (touches_refl e ids)].
  destruct (BiTemporal.close_transaction_time (temporal v) c) as [t|er|]; [|by apply (touches_refl e ids)..]. intros O M. pose proof (M _ _ Hin Ev) as He.
  revert O M. apply (touches_replace e ids s _ vid v (with_temporal t v)); try done.
  intros e' j. simpl. unfold node_open_slices, untrack_slice, untrack. simpl. destruct (open_slices s !! entity v) as [l|] eqn:El; [|by left].
  case_bool_decide; simpl; (destruct (decide (e' = entity v)) as [->|];
    [rewrite ?lookup_delete_eq, ?lookup_insert_eq, ?El; simpl|by rewrite ?lookup_delete_ne, ?lookup_insert_ne by done; left]).
  - intros Hj. by apply elem_of_nil in Hj.
  - intros [_ Hj]%list_elem_of_filter. by left.
Qed.
Lemma close_recorded_touches e ids l c : l ⊆ ids -> moves (touches e ids) (close_recorded (X := X) l c).
Proof.
  clear pre_anchor_hooks. intros Hl. induction l as [|vid l IH]; [by apply moves_ret; apply _|]. cbn [close_recorded]. apply (moves_bind (touches e ids)); [by intros s; apply touches_refl|intros s].
  apply (moves_bind (touches e ids)); [|intros _; apply IH; set_solver].
  destruct (match versions s !! vid with Some v => _ | None => false end); [apply close_touches; set_solver|by apply moves_ret; apply _].
Qed.
Lemma slices_mine e s : owned s -> mine e (node_open_slices s e ++ option_list (version_heads s !! e)) s.
Proof.
  intros [H1 H2] i v [Hi|Hi]%elem_of_app Hv.
  - apply H2 in Hi as (w & Hw & He). congruence.
  - destruct (version_heads s !! e) as [h|] eqn:E; [|by apply elem_of_nil in Hi]. apply list_elem_of_singleton in Hi as ->.
    apply H1 in E as (w & Hw & He). congruence.
Qed.
Lemma slices_known e s i : owned s -> i ∈ node_open_slices s e ++ option_list (version_heads s !! e) -> is_Some (versions s !! i).
Proof.
  intros [H1 H2] [Hi|Hi]%elem_of_app; [apply H2 in Hi as (w & -> & _); by eexists|].
  destruct (version_heads s !! e) as [h|] eqn:E; [|by apply elem_of_nil in Hi]. apply list_elem_of_singleton in Hi as ->.
  apply H1 in E as (w & -> & _). by eexists.
Qed.
Lemma close_all_touches e ids c : moves (touches e ids) (close_all_slices (X := X) e c).
Proof.
  clear pre_anchor_hooks. intros s O M. unfold close_all_slices, mbind, sm_bind. simpl. set (l := node_open_slices s e ++ _).
  destruct (close_recorded_touches e (ids ++ l) l c ltac:(set_solver) s O) as (O' & M' & D & F).
  { intros i v [Hi|Hi]%elem_of_app Hv; [by eapply M|]. by eapply slices_mine. }
  split_and!; [done| | |done]; [intros i v Hi; apply M'; set_solver|]. intros i Hi.
  destruct (D i Hi) as [|[|Hl]%elem_of_app]; [by left|by right|left]. by apply slices_known in Hl.
Qed.

(** *** An entity that is alive: its head is recorded and valid for good *)
Definition alive s (e : Z) : Prop :=
  exists a b, head_state s e = Some (mkInterval (mkRange a TIMESTAMP_MAX) (mkRange b TIMESTAMP_MAX)) /\ (a < TIMESTAMP_MAX)%ts.

Lemma plan_loop_in l vf n x : (plan_loop l vf n).1 = Some x -> x ∈ l.
Proof.
  revert n. induction l as [|[i t] l IH]; intros n; [done|]. simpl. repeat case_goal; intros Hx; try (right; by eapply IH).
  injection Hx as <-. by left.
Qed.
(** The update of a live entity leaves its head valid for good: the new version, or the
    old head asserted again. *)
Lemma plan_update_alive (h : VersionId) (t : BiTemporalInterval) l vf :
  is_open_slice t = true -> (forall u, (h, u) ∈ (h, t) :: l -> Range.is_current (valid_time u) = true) -> let p := plan_update (Some (h, t)) l vf in
  match new_valid_to p with Some _ => is_Some (reassert p) | None => reassert p = None end.
Proof.
  intros Ho Hl. assert (Hc : Range.is_current (valid_time t) = true) by (apply Hl; left).
  unfold plan_update. rewrite Ho.
  set (fast := match Some (h, t) with Some (_, t) => if Range.contains (valid_time t) vf then Some (h, t) else None | None => None end).
  set (pn := match fast with Some _ => (fast, None) | None => plan_loop _ vf None end).
  assert (Hp : forall x, pn.1 = Some x -> x ∈ (h, t) :: l).
  { unfold pn, fast. intros x. destruct (Range.contains (valid_time t) vf); [intros [= <-]; by left|]. apply (plan_loop_in ((h, t) :: l)). }
  destruct pn as [[[pv pt]|] next]; simpl in *.
  - destruct (Range.is_current (valid_time pt)) eqn:Ep; simpl; [done|]. rewrite Hc, bool_decide_eq_false_2; [by eexists|].
    intros [= ->]. rewrite (Hl pt) in Ep; [done|]. by apply Hp.
  - destruct next; simpl; [|done]. rewrite Hc. by eexists.
Qed.
Lemma plan_alive s e vf : alive s e -> let p := plan_entity_update s e vf in
  match new_valid_to p with Some _ => is_Some (reassert p) | None => reassert p = None end.
Proof.
  intros (a & b & Hh & Ha). unfold head_state in Hh. destruct (version_heads s !! e) as [h|] eqn:E; [|done]. simpl in Hh.
  destruct (versions s !! h) as [v|] eqn:Ev; [|done]. injection Hh as Ht.
  unfold plan_entity_update. rewrite E. cbn [mbind option_bind].
  assert (slice_of s h = Some (h, temporal v)) as -> by (unfold slice_of; by rewrite Ev). apply plan_update_alive; rewrite Ht.
  - apply andb_true_iff. split; [by apply (ts_eqb_eq TIMESTAMP_MAX)|by apply ts_ltb_lt].
  - intros t [[= ->]|Hi]%elem_of_cons; [by apply (ts_eqb_eq TIMESTAMP_MAX)|].
    apply list_elem_of_omap in Hi as (i & _ & Hi). unfold slice_of in Hi. destruct (versions s !! i) as [w|] eqn:Ew; [|done].
    injection Hi as -> <-. assert (w = v) as -> by congruence. rewrite Ht. by apply (ts_eqb_eq TIMESTAMP_MAX).
Qed.

(** *** Updates *)
Lemma gather_carry_touches e ids plan o : moves (touches e ids) (gather_carry (X := X) it config plan o).
Proof.
  unfold gather_carry. destruct (predecessor plan), (carry_from plan); try (by apply moves_ret; apply _).
  repeat (apply (moves_bind (touches e ids)); [|intros ?]); first [by apply moves_ret; apply _|by apply moves_lift; apply _|apply reconstruct_touches|by intros ?; apply touches_refl].
Qed.
Lemma gather_reassert_touches e ids plan o : moves (touches e ids) (gather_reassert (X := X) it config plan o).
Proof.
  unfold gather_reassert. destruct (reassert plan); [|by apply moves_ret; apply _].
  repeat (apply (moves_bind (touches e ids)); [|intros ?]); first [by apply moves_ret; apply _|by apply moves_lift; apply _|apply reconstruct_touches|by intros ?; apply touches_refl].
Qed.

Lemma plan_update_ids (head : option slice) l vf :
  (forall i, reassert (plan_update head l vf) = Some i -> fst <$> head = Some i) /\
  (forall i, predecessor (plan_update head l vf) = Some i -> fst <$> head = Some i \/ i ∈ List.map fst l).
Proof.
  unfold plan_update. set (hs := match head with Some (_, t) => if is_open_slice t then head else None | None => None end).
  assert (Hh : forall x, hs = Some x -> head = Some x).
  { unfold hs. destruct head as [[i t]|]; [|done]. by case_goal. }
  clearbody hs. set (fast := match hs with Some (_, t) => if Range.contains (valid_time t) vf then hs else None | None => None end).
  assert (Hf : forall x, fast = Some x -> head = Some x).
  { unfold fast. destruct hs as [[i t]|]; [|done]. case_goal; [apply Hh|done]. }
  clearbody fast. set (pn := match fast with Some _ => (fast, None) | None => plan_loop (option_list hs ++ l) vf None end).
  assert (Hp : forall x, pn.1 = Some x -> head = Some x \/ x ∈ l).
  { unfold pn. intros x. destruct fast as [y|]; [intros [= <-]; left; by apply Hf|].
    intros [Hx|Hx]%plan_loop_in%elem_of_app; [|by right]. destruct hs as [y|]; [|by apply elem_of_nil in Hx].
    apply list_elem_of_singleton in Hx as ->. left. by apply Hh. }
  destruct pn as [pred next]. simpl in *. split; intros i.
  - destruct hs as [[w u]|]; [|by repeat case_match]. rewrite (Hh _ eq_refl). repeat case_match; intros; simplify_eq; done.
  - destruct pred as [[w u]|]; simpl; [|done]. intros [= ->]. destruct (Hp _ eq_refl) as [->|Hin]; [by left|]. right.
    apply list_elem_of_fmap. by exists (i, u).
Qed.
Lemma slice_of_id s i sl : slice_of s i = Some sl -> sl.1 = i.
Proof. unfold slice_of. destruct (versions s !! i); [|done]. by intros [= <-]. Qed.
Lemma plan_ids s e vf : let p := plan_entity_update s e vf in
  (forall i, reassert p = Some i -> version_heads s !! e = Some i) /\
  superseded s e p ⊆ node_open_slices s e ++ option_list (version_heads s !! e).
Proof.
  intros p. destruct (plan_update_ids (version_heads s !! e ≫= slice_of s) (omap (slice_of s) (node_open_slices s e)) vf) as [Hr Hp]. fold p in Hr, Hp.
  assert (Hh : forall i, fst <$> (version_heads s !! e ≫= slice_of s) = Some i -> version_heads s !! e = Some i).
  { intros i. destruct (version_heads s !! e) as [h|]; [|done]. simpl. destruct (slice_of s h) as [sl|] eqn:E; [|done].
    apply slice_of_id in E as <-. done. }
  split; [intros i Hi; by apply Hh, Hr|]. unfold superseded. intros i. rewrite !elem_of_app. intros [Hi|[Hi|Hi]].
  - destruct (predecessor p) as [q|] eqn:Eq; [|by apply elem_of_nil in Hi]. apply list_elem_of_singleton in Hi as ->.
    destruct (Hp q Eq) as [E%Hh|(sl & -> & (j & Hj & E)%list_elem_of_omap)%list_elem_of_fmap].
    + rewrite E. right. by left.
    + apply slice_of_id in E as ->. by left.
  - destruct (reassert p) as [q|] eqn:Eq; [|by apply elem_of_nil in Hi]. apply list_elem_of_singleton in Hi as ->.
    rewrite (Hh q (Hr q Eq)). right. by left.
  - case_match; [by right|by apply elem_of_nil in Hi].
Qed.

Abbreviation append_carry := (Slices.append_carry it ptr_eq map_ptr_eq config pre_anchor_hooks).
Abbreviation append_new := (Slices.append_new it ptr_eq map_ptr_eq config pre_anchor_hooks).
Abbreviation append_reassert := (Slices.append_reassert it ptr_eq map_ptr_eq config pre_anchor_hooks).
Abbreviation forever a c := (mkInterval (mkRange a TIMESTAMP_MAX) (mkRange c TIMESTAMP_MAX)).

Lemma append_carry_touches e ids vf c en carry : (forall pl, carry = Some pl -> payload_id pl ∈ ids) -> moves (touches e ids) (append_carry e vf c en carry).
Proof.
  intros Hin. destruct carry as [[[[[i from] l] p] prov]|]; [|by apply moves_ret; apply _].
  do 2 (apply (moves_bind (touches e ids)); [by apply moves_lift; apply _|intros ?]).
  apply (moves_bind (touches e ids)); [apply add_moves; by apply (Hin _ eq_refl)|intros ?; by apply moves_ret; apply _].
Qed.
Lemma append_new_touches e ids plan vf c vid l en p prov s s' a :
  vid ∈ ids -> append_new e plan vf c vid l en p prov s = (s', Ok a) ->
  touches e ids s s' /\ (new_valid_to plan = None -> head_state s' e = Some (forever vf c)).
Proof.
  intros Hin. unfold Slices.append_new. intros (s1 & t & [= <- Ht] & (s2 & t2 & [= <- Ht2] & (s3 & u & Ha & [= <- _])%sm_bind_inv)%sm_bind_inv)%sm_bind_inv.
  apply (add_touches e ids) in Ha as [T Hh]; [|done]. split; [done|]. intros E. rewrite E in Ht2. injection Ht2 as <-.
  apply temporal_err_ok, with_valid_time_ok in Ht as ->. by eapply Hh.
Qed.
Lemma append_reassert_touches e ids c en re s s' a :
  (forall pl, re = Some pl -> payload_id pl ∈ ids) -> append_reassert e c en re s = (s', Ok a) ->
  touches e ids s s' /\ match re with None => s' = s | Some pl => head_state s' e = Some (forever pl.1.1.1.2 c) end.
Proof.
  intros Hin. unfold Slices.append_reassert. destruct re as [[[[[i from] l] p] prov]|]; [|by intros [= <- _]].
  intros (s1 & t & [= <- Ht] & (s3 & u & Ha & [= <- _])%sm_bind_inv)%sm_bind_inv.
  apply (add_touches e ids) in Ha as [T Hh]; [|by apply (Hin _ eq_refl)]. split; [done|].
  apply temporal_err_ok, with_valid_time_ok in Ht as ->. by eapply Hh.
Qed.

Lemma update_alive e vf c vid l en p prov o1 o2 s s' a :
  let plan := plan_entity_update s e vf in let ids := vid :: option_list o1 ++ option_list o2 in
  owned s -> mine e ids s -> (vf < TIMESTAMP_MAX)%ts -> alive s e ->
  apply_update it ptr_eq map_ptr_eq config pre_anchor_hooks e plan vf c vid l en p prov o1 o2 s = (s', Ok a) ->
  owned s' /\ (forall i, is_Some (versions s' !! i) -> is_Some (versions s !! i) \/ i ∈ ids) /\
  (forall e', e' <> e -> head_state s' e' = head_state s e') /\ alive s' e.
Proof.
  intros plan ids O M Hvf Ha Hu. pose proof (plan_alive s e vf Ha) as Hplan. cbv zeta in Hplan. fold plan in Hplan.
  destruct (plan_ids s e vf) as [Hre Hsup]. fold plan in Hre, Hsup.
  set (all := ids ++ node_open_slices s e ++ option_list (version_heads s !! e)).
  assert (Ma : mine e all s).
  { intros i v [Hi|Hi]%elem_of_app; [by apply M|]. by apply slices_mine. }
  unfold apply_update in Hu.
  apply sm_bind_inv in Hu as (s0 & s00 & [= <- <-] & Hu). apply sm_bind_inv in Hu as (s1 & [] & [= <- _] & Hu).
  apply sm_bind_inv in Hu as (s2 & carry & Hc & Hu). apply sm_bind_inv in Hu as (s3 & re & Hr & Hu).
  apply sm_bind_inv in Hu as (s4 & s44 & [= <- <-] & Hu). apply sm_bind_inv in Hu as (s5 & [] & Hcl & Hu).
  apply sm_bind_inv in Hu as (s6 & a1 & H1 & Hu). apply sm_bind_inv in Hu as (s7 & a2 & H2 & Hu).
  apply sm_bind_inv in Hu as (s8 & [a3 r] & H3 & [= <- <-]).
  assert (Ic : forall pl, carry = Some pl -> payload_id pl ∈ all).
  { intros pl ->. apply (gather_carry_id it config) in Hc as ->. unfold all, ids. set_solver. }
  assert (Ir : forall pl, re = Some pl -> payload_id pl ∈ all).
  { intros pl ->. apply (gather_reassert_id it config) in Hr as ->. unfold all, ids. set_solver. }
  apply gather_carry_ok in Hc as [F1 _]. apply gather_reassert_ok in Hr as [F2 Hr].
  assert (F : same_facts it config s s3) by (by etrans).
  assert (Hs : superseded s3 e plan ⊆ all).
  { unfold all. unfold superseded. rewrite (sf_heads _ _ _ _ F). fold (superseded s e plan). set_solver. }
  assert (T : touches e all s s6).
  { transitivity s3; [apply touches_same; apply F|]. transitivity s5.
    - pose proof (close_recorded_touches e all _ c Hs s3) as T. by rewrite Hcl in T.
    - pose proof (append_carry_touches e all vf c en carry Ic s5) as T. by rewrite H1 in T. }
  apply (append_new_touches e all) in H2 as [T2 Hnew]; [|unfold all, ids; set_solver].
  apply (append_reassert_touches e all) in H3 as [T3 Hlast]; [|done].
  assert (T' : touches e all s s8) by (etrans; [exact T|etrans; [exact T2|exact T3]]). destruct (T' O Ma) as (O8 & M8 & D8 & E8).
  split; [done|]. split.
  { intros i Hi. destruct (D8 i Hi) as [|[|Hl]%elem_of_app]; [by left|by right|left]. by eapply slices_known. }
  split; [done|].
  destruct (reassert plan) as [h|] eqn:Er.
  - destruct Hr as (pl & vh & Hvh & -> & (i & w & q & _ & _ & _ & ->)). simpl in Hlast.
    destruct Ha as (a0 & b0 & Hh & Hlt). exists a0, c. split; [|done]. rewrite Hlast. unfold head_state in Hh.
    rewrite (Hre h eq_refl) in Hh. simpl in Hh. rewrite (sf_versions _ _ _ _ F1) in Hvh.
    rewrite Hvh in Hh. injection Hh as ->. done.
  - subst re. simpl in Hlast. subst s8. exists vf, c. split; [|done]. apply Hnew. destruct (new_valid_to plan); [|done]. by destruct Hplan.
Qed.

(** *** Creations, deletions, retractions *)
Lemma add_provenance_touches e ids vid vf c l en p b prov s s' u :
  vid ∈ ids -> add_version_with_provenance it ptr_eq map_ptr_eq config pre_anchor_hooks e vid vf c l en p b prov s = (s', Ok u) ->
  touches e ids s s' /\ head_state s' e = Some (mkInterval (mkRange vf (if b then vf else TIMESTAMP_MAX)) (mkRange c TIMESTAMP_MAX)).
Proof.
  intros Hin (s1 & t & [= <- Ht] & (s2 & t2 & [= <- Ht2] & Ha)%sm_bind_inv)%sm_bind_inv.
  apply (add_touches e ids) in Ha as [T Hh]; [|done]. split; [done|]. rewrite (Hh u eq_refl). f_equal.
  apply temporal_err_ok, with_valid_time_ok in Ht as ->. destruct b; [|by simplify_eq].
  by apply temporal_err_ok, close_valid_time_ok in Ht2 as ->.
Qed.
Lemma add_retracted_touches e ids vid vf vt c l en p prov s s' u :
  vid ∈ ids -> add_retracted_version_with_provenance it ptr_eq map_ptr_eq config pre_anchor_hooks e vid vf vt c l en p prov s = (s', Ok u) ->
  touches e ids s s' /\ head_state s' e = Some (mkInterval (mkRange vf vt) (mkRange c TIMESTAMP_MAX)).
Proof.
  intros Hin (s1 & t & [= <- Ht] & (s2 & t2 & [= <- Ht2] & Ha)%sm_bind_inv)%sm_bind_inv.
  apply (add_touches e ids) in Ha as [T Hh]; [|done]. split; [done|]. rewrite (Hh u eq_refl). f_equal.
  apply temporal_err_ok, with_valid_time_ok in Ht as ->. by apply temporal_err_ok, close_valid_time_ok in Ht2 as ->.
Qed.
End Heads.
