(* ===== verification/ReplayIds.v ===== *)
(** * The version ids of a replay

    A replay takes the version ids the log carries and makes up the others: those of
    creations and those of the structural versions of an update.  An [Event] is a version
    id a live write used, by where a replay takes its counterpart from; [renumber] follows
    the counter of the replay over a sequence of events and pairs every live id with the
    one the replay uses. *)

From S2P Require Import Prelude.
From S2P Require Import Errors.
From S2P Require Import Ids.

(** What the log does not carry ([Created], [Minted]) and what it does ([Logged]). *)
Inductive Event := Created (v : VersionId) | Logged (v : VersionId) | Minted (v : VersionId).
Definition event_id (e : Event) : VersionId := match e with Created v | Logged v | Minted v => v end.

(** The id of the replay, and its counter afterwards. *)
Definition renumber_event (next : Z) (e : Event) : option (VersionId * Z) :=
  match e with
  | Created v => if (next <? 2 ^ 62) && negb (Id.is_structural v) then Some (next, next + 1) else None
  | Logged v => if (0 <=? v) && (v <? 2 ^ 62) then Some (v, Z.max next (v + 1)) else None
  | Minted v => if (next <? 2 ^ 62) && Id.is_structural v then Some (Z.lor next Id.STRUCTURAL_VERSION_TAG, next + 1) else None
  end.
Fixpoint renumber (next : Z) (evs : list Event) : option (list (VersionId * VersionId) * Z) :=
  match evs with
  | [] => Some ([], next)
  | e :: evs =>
      '(v, next) ← renumber_event next e;
      '(ps, next) ← renumber next evs;
      Some ((event_id e, v) :: ps, next)
  end.

(** ** The ids of the replay are tagged as the live ones and below its counter *)
Lemma tag_strip n : 0 <= n < 2 ^ 62 ->
  Id.is_structural n = false /\ Id.is_structural (Z.lor n Id.STRUCTURAL_VERSION_TAG) = true /\
  Id.strip_structural_tag (Z.lor n Id.STRUCTURAL_VERSION_TAG) = n /\ Id.structural n = Ok (Z.lor n Id.STRUCTURAL_VERSION_TAG).
Proof.
  intros Hn. assert (Ht : Z.testbit n 62 = false).
  { destruct (decide (n = 0)) as [->|]; [done|]. apply Z.bits_above_log2; [lia|]. apply Z.log2_lt_pow2; lia. }
  assert (Hs : Id.structural n = Ok (Z.lor n Id.STRUCTURAL_VERSION_TAG)).
  { unfold Id.structural, Id.new_version. rewrite strip_small by done. case_goal; [|done]. bool_to_prop. exfalso.
    assert (Z.lor n Id.STRUCTURAL_VERSION_TAG < 2 ^ 63); [|mlia]. apply Z.log2_lt_cancel. rewrite Z.log2_lor by (lia || (unfold Id.STRUCTURAL_VERSION_TAG; change (Z.shiftl 1 62) with (2 ^ 62); lia)).
    change (Z.log2 Id.STRUCTURAL_VERSION_TAG) with 62. rewrite (Z.log2_pow2 63) by lia. apply Z.max_lub_lt; [|lia]. destruct (decide (n = 0)) as [->|]; [done|]. assert (Z.log2 n < 62); [|lia]. apply Z.log2_lt_pow2; lia. }
  apply structural_spec in Hs as Hv; [|mlia]. destruct Hv as (H1 & H2 & _). rewrite (strip_small n) in H2 by done.
  split_and!; [by rewrite is_structural_testbit|done..].
Qed.
Lemma renumber_event_inv next e v n' : 0 <= next -> renumber_event next e = Some (v, n') ->
  next <= n' /\ Id.strip_structural_tag v < n' /\ Id.is_structural (event_id e) = Id.is_structural v.
Proof.
  intros H0. unfold renumber_event. destruct e as [w|w|w]; simpl; case_goal; try done; intros [= <- <-]; bool_to_prop.
  - rewrite strip_small by lia. split_and!; [lia..|]. destruct (tag_strip next) as [-> _]; [lia|]. congruence.
  - rewrite strip_small by lia. split_and!; [lia..|done].
  - destruct (tag_strip next) as (_ & Ht & -> & _); [lia|]. split_and!; [lia..|congruence].
Qed.
Lemma renumber_cons next e evs ps n' : renumber next (e :: evs) = Some (ps, n') ->
  exists v n1 ps1, renumber_event next e = Some (v, n1) /\ renumber n1 evs = Some (ps1, n') /\ ps = (event_id e, v) :: ps1.
Proof. simpl. intros ([v n1] & H1 & ([ps1 n2] & H2 & [= <- <-])%bind_Some)%bind_Some. by exists v, n1, ps1. Qed.
Lemma renumber_spec evs : forall next ps n', 0 <= next -> renumber next evs = Some (ps, n') ->
  next <= n' /\ List.map fst ps = List.map event_id evs /\
  Forall (fun p => Id.strip_structural_tag p.2 < n' /\ Id.is_structural p.1 = Id.is_structural p.2) ps.
Proof.
  induction evs as [|e evs IH]; intros next ps n' H0; [intros [= <- <-]; split_and!; [done..|constructor]|].
  intros (v & n1 & ps1 & He & Hr & ->)%renumber_cons. apply renumber_event_inv in He as (Hn & Hv & Ht); [|done].
  apply IH in Hr as (H1 & H2 & H3); [|lia]. split_and!; [lia|by simpl; rewrite H2|]. constructor; [simpl; split; [lia|done]|done].
Qed.

(** ** The renaming of the live ids into those of the replay *)
Definition swap (x y z : VersionId) : VersionId := if decide (z = x :> Z) then y else if decide (z = y :> Z) then x else z.
Lemma swap_inj x y : Inj (=) (=) (swap x y).
Proof. intros z w. unfold swap. repeat case_decide; congruence. Qed.
Lemma swap_tag x y z : Id.is_structural x = Id.is_structural y -> Id.is_structural (swap x y z) = Id.is_structural z.
Proof. intros E. unfold swap. repeat case_decide; congruence. Qed.

Lemma renaming_exists (ps : list (VersionId * VersionId)) :
  NoDup (List.map fst ps) -> NoDup (List.map snd ps) -> Forall (fun p => Id.is_structural p.1 = Id.is_structural p.2) ps ->
  exists rho : VersionId -> VersionId, Inj (=) (=) rho /\ (forall v, Id.is_structural (rho v) = Id.is_structural v) /\ Forall (fun p => rho p.1 = p.2) ps.
Proof.
  induction ps as [|[a b] ps IH]; simpl; intros H1 H2 H3.
  { exists (fun v => v). split_and!; [by intros ??|done|constructor]. }
  apply NoDup_cons in H1 as [Ha H1], H2 as [Hb H2]. apply Forall_cons in H3 as [Hab H3]. simpl in Hab.
  destruct (IH H1 H2 H3) as (rho & Hi & Ht & Hp). exists (fun v => swap (rho a) b (rho v)). split_and!.
  - intros v w E. by apply swap_inj, Hi in E.
  - intros v. rewrite swap_tag; [done|]. by rewrite Ht.
  - constructor; simpl; [unfold swap; by rewrite decide_True|]. apply Forall_forall. intros p Hin. rewrite Forall_forall in Hp.
    rewrite (Hp p Hin). unfold swap. rewrite !decide_False; [done|..]; intros E.
    + apply Hb. rewrite <- E. by apply (list_elem_of_fmap_2 snd).
    + rewrite <- (Hp p Hin) in E. apply Hi in E. apply Ha. rewrite <- E. by apply (list_elem_of_fmap_2 fst).
Qed.

(** The counter runs over the events as [rho] renames them. *)
Definition numbered (rho : VersionId -> VersionId) (next : Z) (evs : list Event) (next' : Z) : Prop :=
  exists ps, renumber next evs = Some (ps, next') /\ Forall (fun p => rho p.1 = p.2) ps.
Lemma numbered_nil rho n n' : numbered rho n [] n' -> n' = n.
Proof. by intros (ps & [= <- <-] & _). Qed.
Lemma numbered_cons rho n e evs n' : numbered rho n (e :: evs) n' ->
  exists n1, renumber_event n e = Some (rho (event_id e), n1) /\ numbered rho n1 evs n'.
Proof. intros (ps & (v & n1 & ps1 & He & Hr & ->)%renumber_cons & [Hv Hf]%Forall_cons). simpl in Hv. subst v. exists n1. split; [done|]. by exists ps1. Qed.
Lemma numbered_app rho n e1 e2 n' : numbered rho n (e1 ++ e2) n' -> exists n1, numbered rho n e1 n1 /\ numbered rho n1 e2 n'.
Proof.
  revert n. induction e1 as [|e e1 IH]; intros n; simpl; [intros Hn; exists n; split; [by exists []|done]|].
  intros (n1 & He & (n2 & (ps & H1 & Hf) & H2)%IH)%numbered_cons. exists n2. split; [|done]. exists ((event_id e, rho (event_id e)) :: ps).
  split; [|by constructor]. simpl. by rewrite He; simpl; rewrite H1.
Qed.
Lemma numbered_le rho n evs n' : 0 <= n -> numbered rho n evs n' -> n <= n'.
Proof. intros H0 (ps & Hr & _). by apply renumber_spec in Hr as [? _]. Qed.
