(* ===== verification/ReplayLive.v ===== *)
(** * What a write does to the live stores

    Each buffered write that [apply.rs] applies, as the operations it makes on the history of
    its entity and on the maps of the live graph; the generator it takes structural version
    ids from, and the temporal index, apart. *)

From S2P Require Import Prelude.
From S2P Require Import SliceOps.
From S2P Require Import Bytes.
From S2P Require Import Errors.
From S2P Require Import Hlc.
From S2P Require Import Temporal.
From S2P Require Import Ids.
From S2P Require Import Interning.
From S2P Require Import Property.
From S2P Require Import PropMap.
From S2P Require Import Namespaces.
From S2P Require Import Provenance.
From S2P Require Import Delta.
From S2P Require Import History.
From S2P Require Import Slices.
From S2P Require Import HistoryFacts.
From S2P Require Import Wal.
From S2P Require Import TxFrames.
From S2P Require Import TemporalIndex.
From S2P Require Import CurrentIndex.
From S2P Require Import CurrentStore.
From S2P Require Import IndexedHistory.
From S2P Require Import IndexedLaws.
From S2P Require Import Transactions.
From S2P Require Import Commit.
From S2P Require Import CommitLaws.
From S2P Require Import CommitEffect.
From S2P Require Import Replay.

Section Live.
Import Commit Tx WriteBuf Graph CurIdx.
Context {St : Type} `{Interner St}.
Context (it : St) (ptr_eq : PropertyValue -> PropertyValue -> bool) (map_ptr_eq : PropMap.PropertyMap -> PropMap.PropertyMap -> bool).
Context (config : History.Config) (pre_anchor_hooks : Z -> HybridTimestamp -> PropMap.PropertyMap -> option Z).
Abbreviation apply_single_write := (apply_single_write it ptr_eq map_ptr_eq config pre_anchor_hooks).
Abbreviation add := (History.add_version_with_provenance it ptr_eq map_ptr_eq config pre_anchor_hooks).
Abbreviation add_retracted := (History.add_retracted_version_with_provenance it ptr_eq map_ptr_eq config pre_anchor_hooks).
Abbreviation update := (Slices.apply_update it ptr_eq map_ptr_eq config pre_anchor_hooks).
Abbreviation nh := Db.node_history.
Abbreviation eh := Db.edge_history.
Abbreviation gen d := (Id.next_id (Db.version_id_gen d)).

(** A step of the history of nodes or of edges, and of the live graph. *)
Record nodes_done {A} (m : SM (History.Store unit) Error A) (a : A) d d' : Prop := {
  ns_do : m (nh d) = (nh d', Ok a); ns_current : Db.current d' = Db.current d; ns_edges : eh d' = eh d; ns_gen : gen d' = gen d }.
Record edges_done {A} (m : SM (History.Store (NodeId * NodeId)) Error A) (a : A) d d' : Prop := {
  es_do : m (eh d) = (eh d', Ok a); es_current : Db.current d' = Db.current d; es_nodes : nh d' = nh d; es_gen : gen d' = gen d }.

Lemma on_nodes_done {A} (m : SM _ Error A) m0 d d' a : shadows m m0 -> Db.on_nodes m d = (d', Ok a) -> nodes_done m0 a d d'.
Proof.
  intros Hs. unfold Db.on_nodes. destruct (Hs (nh d) (Db.temporal_indexes d)) as [ix ->]. intros [= <- Hr].
  split; [|done..]. simpl. rewrite <- Hr. by destruct (m0 (nh d)).
Qed.
Lemma on_edges_done {A} (m : SM _ Error A) m0 d d' a : shadows m m0 -> Db.on_edges m d = (d', Ok a) -> edges_done m0 a d d'.
Proof.
  intros Hs. unfold Db.on_edges. destruct (Hs (eh d) (Db.temporal_indexes d)) as [ix ->]. intros [= <- Hr].
  split; [|done..]. simpl. rewrite <- Hr. by destruct (m0 (eh d)).
Qed.
Lemma index_store {X} e vs (s : History.Store X) ix : (index_appended e vs (s, ix)).1.1 = s.
Proof.
  revert ix. induction vs as [|[v t] vs IH]; intros ix; [done|]. simpl. unfold mbind, sm_bind.
  destruct (TIdx.insert_version e v t ix) as [ix' [u|er|]]; [apply IH|done..].
Qed.
Lemma index_nodes_done e vs d d' u : Db.on_nodes (index_appended e vs) d = (d', Ok u) -> nodes_done (mret tt) tt d d'.
Proof.
  unfold Db.on_nodes. pose proof (index_store e vs (nh d) (Db.temporal_indexes d)) as Hs.
  destruct (index_appended _ _ _) as [[s ix] r]. simpl in Hs. subst s. by intros [= <- ->].
Qed.
Lemma index_edges_done e vs d d' u : Db.on_edges (index_appended e vs) d = (d', Ok u) -> edges_done (mret tt) tt d d'.
Proof.
  unfold Db.on_edges. pose proof (index_store e vs (eh d) (Db.temporal_indexes d)) as Hs.
  destruct (index_appended _ _ _) as [[s ix] r]. simpl in Hs. subst s. by intros [= <- ->].
Qed.

(** A step that moves the live graph only. *)
Definition graph_step (ns : gmap NodeId Node -> gmap NodeId Node) (es : gmap EdgeId Edge -> gmap EdgeId Edge) d d' : Prop :=
  nodes (graph d') = ns (nodes (graph d)) /\ edges (graph d') = es (edges (graph d)) /\ nh d' = nh d /\ eh d' = eh d /\ gen d' = gen d.
Lemma on_current_rest {A} (m : SM _ Error A) d d' r : Db.on_current m d = (d', r) -> nh d' = nh d /\ eh d' = eh d /\ gen d' = gen d.
Proof. unfold Db.on_current. destruct (m _). by intros [= <- _]. Qed.
Lemma insert_node_graph n d d' u : Db.on_current (CurStore.insert_node_direct it n) d = (d', Ok u) -> graph_step (insert (n_id n) n) id d d'.
Proof.
  intros E. pose proof (on_current_rest _ _ _ _ E) as (R1 & R2 & R3). apply insert_node_step in E.
  destruct (insert_node_maps it n (graph d)). unfold graph_step. rewrite E. done.
Qed.
Lemma insert_edge_graph x d d' u : Db.on_current (CurStore.insert_edge_direct it x) d = (d', Ok u) -> graph_step id (insert (e_id x) x) d d'.
Proof.
  intros E. pose proof (on_current_rest _ _ _ _ E) as (R1 & R2 & R3). apply insert_edge_step in E.
  destruct (insert_edge_maps it x (graph d)). unfold graph_step. rewrite E. done.
Qed.
Lemma delete_node_graph n d d' u : Db.on_current (CurStore.delete_node_direct it n) d = (d', Ok u) -> graph_step (delete n) id d d'.
Proof.
  intros E. pose proof (on_current_rest _ _ _ _ E) as (R1 & R2 & R3). apply delete_node_step in E.
  destruct (remove_node_maps it n (graph d)). unfold graph_step. rewrite E. done.
Qed.
Lemma delete_edge_graph n d d' u : Db.on_current (CurStore.delete_edge_direct it n) d = (d', Ok u) -> graph_step id (delete n) d d'.
Proof.
  intros E. pose proof (on_current_rest _ _ _ _ E) as (R1 & R2 & R3). apply delete_edge_step in E.
  destruct (remove_edge_maps it n (graph d)). unfold graph_step. rewrite E. done.
Qed.

(** The structural ids an update takes from the generator. *)
Definition minted (g : Z) (o1 o2 : option VersionId) (plan : Slices.UpdatePlan) (g' : Z) : Prop :=
  exists g1, match Slices.carry_from plan with
             | Some _ => exists i, o1 = Some i /\ Id.structural g = Ok i /\ g <= MAX_VALID_ID /\ g1 = u64_wrapping_add g 1
             | None => o1 = None /\ g1 = g end /\
             match Slices.reassert plan with
             | Some _ => exists i, o2 = Some i /\ Id.structural g1 = Ok i /\ g1 <= MAX_VALID_ID /\ g' = u64_wrapping_add g1 1
             | None => o2 = None /\ g' = g1 end.

Definition wrote_nodes {A} (m : SM (History.Store unit) Error A) (a : A) (f : gmap NodeId Node -> gmap NodeId Node) d d' : Prop :=
  m (nh d) = (nh d', Ok a) /\ eh d' = eh d /\ nodes (graph d') = f (nodes (graph d)) /\ edges (graph d') = edges (graph d).
Definition wrote_edges {A} (m : SM (History.Store (NodeId * NodeId)) Error A) (a : A) (f : gmap EdgeId Edge -> gmap EdgeId Edge) d d' : Prop :=
  m (eh d) = (eh d', Ok a) /\ nh d' = nh d /\ edges (graph d') = f (edges (graph d)) /\ nodes (graph d') = nodes (graph d).

Lemma structural_id_step d d' i : structural_id d = (d', Ok i) ->
  Id.structural (gen d) = Ok i /\ gen d <= MAX_VALID_ID /\ gen d' = u64_wrapping_add (gen d) 1 /\
  Db.current d' = Db.current d /\ nh d' = nh d /\ eh d' = eh d.
Proof.
  unfold structural_id, Db.next_version_id, Id.next, mbind, sm_bind. case_goal; [done|]. simpl. intros [= <- Hi]. bool_to_prop.
  destruct (Id.structural _); simplify_eq/=. by split_and!.
Qed.
Lemma when_some_step {A} (o : option A) d d' r : when_some o d = (d', Ok r) ->
  Db.current d' = Db.current d /\ nh d' = nh d /\ eh d' = eh d /\
  match o with Some _ => exists i, r = Some i /\ Id.structural (gen d) = Ok i /\ gen d <= MAX_VALID_ID /\ gen d' = u64_wrapping_add (gen d) 1
          | None => r = None /\ gen d' = gen d end.
Proof.
  destruct o as [x|]; simpl; [|by intros [= <- <-]].
  intros (d1 & i & (? & ? & ? & ? & ? & ?)%structural_id_step & [= <- <-])%sm_bind_inv. split_and!; try done. by exists i.
Qed.
Lemma allocate_step plan d d' o1 o2 : allocate_structural_ids plan d = (d', Ok (o1, o2)) ->
  minted (gen d) o1 o2 plan (gen d') /\ Db.current d' = Db.current d /\ nh d' = nh d /\ eh d' = eh d.
Proof.
  unfold allocate_structural_ids. intros Hm. apply sm_bind_inv in Hm as (d1 & o & H1 & Hm). apply sm_bind_inv in Hm as (d2 & o' & H2 & [= <- <- <-]).
  apply when_some_step in H1 as (C1 & N1 & E1 & M1), H2 as (C2 & N2 & E2 & M2). split; [|by rewrite C2, N2, E2].
  exists (gen d1). split; [|done]. by destruct (Slices.carry_from plan).
Qed.

Lemma shadows_close_head {X} ent head c : shadows (X := X) (close_head ent head c) (Replay.close_head head c).
Proof. destruct head; [apply shadows_close|apply shadows_ret]. Qed.
Lemma graph_current d d' : Db.current d' = Db.current d -> graph d' = graph d.
Proof. unfold graph. by intros ->. Qed.
#[local] Arguments index_appended : simpl never.
#[local] Arguments Db.on_nodes : simpl never.
#[local] Arguments Db.on_edges : simpl never.
(** Turns each step of a write into what it does, and composes them. *)
Ltac live_steps := split_binds; repeat match goal with
  | H : Db.get_db _ = (_, Ok _) |- _ => injection H as <- <-
  | H : allocate_structural_ids _ _ = (_, Ok _) |- _ => apply allocate_step in H as (? & ? & ? & ?)
  | H : Db.on_nodes (index_appended _ _) _ = _ |- _ => apply index_nodes_done in H as [[= ?] ? ? ?]
  | H : Db.on_edges (index_appended _ _) _ = _ |- _ => apply index_edges_done in H as [[= ?] ? ? ?]
  | H : Db.on_nodes (IxHist.add_version_with_provenance _ _ _ _ _ _ _ _ _ _ _ _ _ _ _) _ = _ |- _ => eapply on_nodes_done in H as []; [|apply shadows_add_provenance]
  | H : Db.on_edges (IxHist.add_version_with_provenance _ _ _ _ _ _ _ _ _ _ _ _ _ _ _) _ = _ |- _ => eapply on_edges_done in H as []; [|apply shadows_add_provenance]
  | H : Db.on_nodes (IxHist.add_retracted_version_with_provenance _ _ _ _ _ _ _ _ _ _ _ _ _ _ _) _ = _ |- _ => eapply on_nodes_done in H as []; [|apply shadows_add_retracted]
  | H : Db.on_edges (IxHist.add_retracted_version_with_provenance _ _ _ _ _ _ _ _ _ _ _ _ _ _ _) _ = _ |- _ => eapply on_edges_done in H as []; [|apply shadows_add_retracted]
  | H : Db.on_nodes (IxHist.apply_update _ _ _ _ _ _ _ _ _ _ _ _ _ _ _ _ _) _ = _ |- _ => eapply on_nodes_done in H as []; [|apply shadows_update]
  | H : Db.on_edges (IxHist.apply_update _ _ _ _ _ _ _ _ _ _ _ _ _ _ _ _ _) _ = _ |- _ => eapply on_edges_done in H as []; [|apply shadows_update]
  | H : Db.on_nodes (IxHist.close_all_slices _ _ _) _ = _ |- _ => eapply on_nodes_done in H as []; [|apply shadows_close_all]
  | H : Db.on_edges (IxHist.close_all_slices _ _ _) _ = _ |- _ => eapply on_edges_done in H as []; [|apply shadows_close_all]
  | H : Db.on_nodes (close_head _ _ _) _ = _ |- _ => eapply on_nodes_done in H as []; [|apply shadows_close_head]
  | H : Db.on_edges (close_head _ _ _) _ = _ |- _ => eapply on_edges_done in H as []; [|apply shadows_close_head]
  | H : Db.on_current (CurStore.insert_node_direct _ _) _ = _ |- _ => apply insert_node_graph in H as (? & ? & ? & ? & ?)
  | H : Db.on_current (CurStore.update_node_direct _ _) _ = _ |- _ => apply insert_node_graph in H as (? & ? & ? & ? & ?)
  | H : Db.on_current (CurStore.insert_edge_direct _ _) _ = _ |- _ => apply insert_edge_graph in H as (? & ? & ? & ? & ?)
  | H : Db.on_current (CurStore.update_edge_direct _ _) _ = _ |- _ => apply insert_edge_graph in H as (? & ? & ? & ? & ?)
  | H : Db.on_current (CurStore.delete_node_direct _ _) _ = _ |- _ => apply delete_node_graph in H as (? & ? & ? & ? & ?)
  | H : Db.on_current (CurStore.delete_edge_direct _ _) _ = _ |- _ => apply delete_edge_graph in H as (? & ? & ? & ? & ?)
  end.
Ltac same_parts := repeat match goal with
  | E : Db.current ?d' = Db.current ?d |- _ => apply graph_current in E
  end; unfold id in *; cbn [n_id e_id] in *; repeat match goal with u : unit |- _ => destruct u end; congruence.

Lemma create_node_live t n v l p vf pr c ids d d' ids' :
  apply_single_write t (CreateNode n v l p vf pr) c ids d = (d', Ok ids') ->
  wrote_nodes (add n v vf c l tt p false pr) tt (insert n (mkNode n l p v (uncommitted (tx_id t)))) d d' /\ gen d' = gen d /\ ids' = ids.
Proof.
  cbn [Commit.apply_single_write]. unfold apply_node_write. intros Hm. live_steps. unfold wrote_nodes. split_and!; try same_parts.
Qed.

Definition updated_node t (id : NodeId) (version_id : VersionId) (label : Z) (properties : PropMap.PropertyMap) (a : Slices.AppliedUpdate) : Node :=
  match Slices.reasserted a with
  | Some (head_id, head_label, head_properties) => mkNode id head_label head_properties head_id (uncommitted (tx_id t))
  | None => mkNode id label properties version_id (uncommitted (tx_id t))
  end.
Definition updated_edge t (id : EdgeId) (source target : NodeId) (version_id : VersionId) (label : Z) (properties : PropMap.PropertyMap) (a : Slices.AppliedUpdate) : Edge :=
  match Slices.reasserted a with
  | Some (head_id, head_label, head_properties) => mkEdge id head_label source target head_properties head_id (uncommitted (tx_id t))
  | None => mkEdge id label source target properties version_id (uncommitted (tx_id t))
  end.

Lemma create_edge_live t e v x y l p vf pr c ids d d' ids' :
  apply_single_write t (CreateEdge e v x y l p vf pr) c ids d = (d', Ok ids') ->
  wrote_edges (add e v vf c l (x, y) p false pr) tt (insert e (mkEdge e l x y p v (uncommitted (tx_id t)))) d d' /\ gen d' = gen d /\ ids' = ids.
Proof.
  cbn [Commit.apply_single_write]. unfold apply_edge_write. intros Hm. live_steps. unfold wrote_edges. split_and!; try same_parts.
Qed.
Lemma update_node_live t n v l p vf pr c ids d d' ids' :
  apply_single_write t (UpdateNode n v l p vf pr) c ids d = (d', Ok ids') ->
  exists o1 o2 a, let plan := Slices.plan_entity_update (nh d) n vf in
    minted (gen d) o1 o2 plan (gen d') /\ ids' = ids /\
    wrote_nodes (update n plan vf c v l tt p pr o1 o2) a (insert n (updated_node t n v l p a)) d d'.
Proof.
  cbn [Commit.apply_single_write]. unfold apply_node_write, updated_node. intros Hm. live_steps.
  match goal with Hs : Slices.apply_update _ _ _ _ _ _ _ _ _ _ _ _ _ _ ?o1 ?o2 _ = (_, Ok ?a) |- _ => exists o1, o2, a; destruct (Slices.reasserted a) as [[[hi hl] hp]|] end;
    cbv zeta; unfold wrote_nodes; split_and!; try same_parts.
Qed.
Lemma update_edge_live t e v x y l p vf pr c ids d d' ids' :
  apply_single_write t (UpdateEdge e v x y l p vf pr) c ids d = (d', Ok ids') ->
  exists o1 o2 a, let plan := Slices.plan_entity_update (eh d) e vf in
    minted (gen d) o1 o2 plan (gen d') /\ ids' = ids /\
    wrote_edges (update e plan vf c v l (x, y) p pr o1 o2) a (insert e (updated_edge t e x y v l p a)) d d'.
Proof.
  cbn [Commit.apply_single_write]. unfold apply_edge_write, updated_edge. intros Hm. live_steps.
  match goal with Hs : Slices.apply_update _ _ _ _ _ _ _ _ _ _ _ _ _ _ ?o1 ?o2 _ = (_, Ok ?a) |- _ => exists o1, o2, a; destruct (Slices.reasserted a) as [[[hi hl] hp]|] end;
    cbv zeta; unfold wrote_edges; split_and!; try same_parts.
Qed.

Lemma sm_bind_run {S A B} (m : SM S Error A) (k : A -> SM S Error B) s s1 s2 a b :
  m s = (s1, Ok a) -> k a s1 = (s2, Ok b) -> (m ≫= k) s = (s2, Ok b).
Proof. unfold mbind, sm_bind. by intros ->. Qed.
Lemma next_tombstone_ok ids i ids' : next_tombstone ids = Ok (i, ids') -> ids = i :: ids'.
Proof. destruct ids; simpl; [done|]. by intros [= -> ->]. Qed.
Lemma current_node_ok (n : NodeId) c x : CurStore.get_node n c = Ok x -> nodes (CurStore.indexes c) !! n = Some x.
Proof. unfold CurStore.get_node, CurIdx.get_node. by destruct (_ !! _); simpl; intros; simplify_eq. Qed.
Lemma current_edge_ok (n : EdgeId) c x : CurStore.get_edge n c = Ok x -> edges (CurStore.indexes c) !! n = Some x.
Proof. unfold CurStore.get_edge, CurIdx.get_edge. by destruct (_ !! _); simpl; intros; simplify_eq. Qed.

Definition close_and_add {X} (e : Z) (c : HybridTimestamp) (append : SM (History.Store X) Error unit) : SM (History.Store X) Error unit :=
  _ ← Slices.close_all_slices e c; append.
Definition close_and_retract {X} (e : Z) (c : HybridTimestamp) (append : HybridTimestamp -> SM (History.Store X) Error unit) : SM (History.Store X) Error unit := fun s =>
  (_ ← Replay.close_head (History.version_heads s !! e) c; append (retracted_from s e c)) s.

Ltac closing := match goal with Ht : next_tombstone _ = _ |- _ => apply next_tombstone_ok in Ht end;
  match goal with Hg : CurStore.get_node _ _ = _ |- _ => apply current_node_ok in Hg | Hg : CurStore.get_edge _ _ = _ |- _ => apply current_edge_ok in Hg end;
  match goal with |- context [wrote_nodes] => unfold wrote_nodes | |- context [wrote_edges] => unfold wrote_edges end;
  do 2 eexists; split_and!; [eassumption|eassumption|same_parts| |same_parts..];
  repeat match goal with u : unit |- _ => destruct u end; eapply sm_bind_run; [eassumption|etrans; [eassumption|]; f_equal; congruence].
Lemma delete_node_live t n vf pr c ids d d' ids' :
  apply_single_write t (DeleteNode n vf pr) c ids d = (d', Ok ids') ->
  exists x i, nodes (graph d) !! n = Some x /\ ids = i :: ids' /\ gen d' = gen d /\
    wrote_nodes (close_and_add n c (add n i vf c (n_label x) tt (n_properties x) true pr)) tt (delete n) d d'.
Proof. cbn [Commit.apply_single_write]. unfold apply_node_delete, close_and_add. intros Hm. live_steps. closing. Qed.
Lemma delete_edge_live t e vf pr c ids d d' ids' :
  apply_single_write t (DeleteEdge e vf pr) c ids d = (d', Ok ids') ->
  exists x i, edges (graph d) !! e = Some x /\ ids = i :: ids' /\ gen d' = gen d /\
    wrote_edges (close_and_add e c (add e i vf c (e_label x) (e_source x, e_target x) (e_properties x) true pr)) tt (delete e) d d'.
Proof. cbn [Commit.apply_single_write]. unfold apply_edge_delete, close_and_add. intros Hm. live_steps. closing. Qed.
Lemma retract_node_live t n vt pr c ids d d' ids' :
  apply_single_write t (RetractNode n vt pr) c ids d = (d', Ok ids') ->
  exists x i, nodes (graph d) !! n = Some x /\ ids = i :: ids' /\ gen d' = gen d /\
    wrote_nodes (close_and_retract n c (fun vf => add_retracted n i vf vt c (n_label x) tt (n_properties x) pr)) tt (delete n) d d'.
Proof. cbn [Commit.apply_single_write]. unfold apply_node_retract, close_and_retract. intros Hm. live_steps. closing. Qed.
Lemma retract_edge_live t e vt pr c ids d d' ids' :
  apply_single_write t (RetractEdge e vt pr) c ids d = (d', Ok ids') ->
  exists x i, edges (graph d) !! e = Some x /\ ids = i :: ids' /\ gen d' = gen d /\
    wrote_edges (close_and_retract e c (fun vf => add_retracted e i vf vt c (e_label x) (e_source x, e_target x) (e_properties x) pr)) tt (delete e) d d'.
Proof. cbn [Commit.apply_single_write]. unfold apply_edge_retract, close_and_retract. intros Hm. live_steps. closing. Qed.
End Live.
