(* ===== verification/ReplaySteps.v ===== *)
(** * What one step of the replay does

    Each step of [recovery.rs] on a history that is the live one under a renaming of the
    versions: given that the live step succeeded and that the renaming agrees with the
    counter of the replay, the step of the replay succeeds and leaves the renamed result. *)

From S2P Require Import Prelude.
From S2P Require Import SliceOps.
From S2P Require Import Bytes.
From S2P Require Import Errors.
From S2P Require Import Hlc.
From S2P Require Import Temporal.
From S2P Require Import Ids.
From S2P Require Import Interning.
From S2P Require Import Property.
From S2P Require Import PropMap.
From S2P Require Import Provenance.
From S2P Require Import Delta.
From S2P Require Import History.
From S2P Require Import Slices.
From S2P Require Import CurrentIndex.
From S2P Require Import CurrentStore.
From S2P Require Import IndexedHistory.
From S2P Require Import Transactions.
From S2P Require Import Commit.
From S2P Require Import Replay.
From S2P Require Import Renaming.
From S2P Require Import HistoryHeads.
From S2P Require Import ReplayIds.
From S2P Require Import ReplayLive.

Section Steps.
Import Replay.
Context {St : Type} `{Interner St}.
Context (it : St) (ptr_eq : PropertyValue -> PropertyValue -> bool) (map_ptr_eq : PropMap.PropertyMap -> PropMap.PropertyMap -> bool).
Context (config : History.Config) (pre_anchor_hooks : Z -> HybridTimestamp -> PropMap.PropertyMap -> option Z).
Context (rho : VersionId -> VersionId) `{!Inj (=) (=) rho}.
Hypothesis rho_tag : forall v, Id.is_structural (rho v) = Id.is_structural v.
Abbreviation update := (Slices.apply_update it ptr_eq map_ptr_eq config pre_anchor_hooks).

(** ** Ids *)
Lemma set_next_same r : set_next (next_version_id r) r = r.
Proof. by destruct r. Qed.
Lemma saturating_small n : 0 <= n < 2 ^ 62 -> u64_saturating_add n 1 = n + 1.
Proof. intros Hn. unfold u64_saturating_add. apply saturate_id. mlia. Qed.
Lemma synthesize_ok r v n' : 0 <= next_version_id r -> numbered rho (next_version_id r) [Created v] n' ->
  synthesize r = (r, Ok (rho v)) /\ n' = next_version_id r + 1 /\ 0 <= rho v < 2 ^ 62 /\ rho v = next_version_id r.
Proof.
  intros H0 (n1 & He & ->%numbered_nil)%numbered_cons. revert He; simpl; case_goal; [|done]; intros He. injection He as Hv <-. bool_to_prop.
  rewrite <- Hv. split_and!; try (done || lia). unfold synthesize, mbind, sm_bind, lift. simpl. unfold Id.new_version. case_goal; [|done]. mlia.
Qed.
Lemma bump_ok r id : 0 <= id < 2 ^ 62 -> bump id r = (set_next (Z.max (next_version_id r) (id + 1)) r, Ok tt).
Proof.
  intros Hid. unfold bump, modify. do 2 f_equal. unfold Id.bump_next_version_id. rewrite strip_small by lia. mlia.
Qed.
Lemma logged_inv r i n' : 0 <= next_version_id r -> numbered rho (next_version_id r) [Logged i] n' ->
  rho i = i /\ 0 <= i < 2 ^ 62 /\ n' = Z.max (next_version_id r) (i + 1).
Proof.
  intros H0 (n1 & He & ->%numbered_nil)%numbered_cons. revert He; simpl; case_goal; [|done]; intros He. injection He as Hv <-. bool_to_prop. split_and!; (done || lia).
Qed.

(** The events of the structural versions that a plan calls for. *)
Definition tagged (g : Z) : VersionId := match Id.structural g with Ok i => i | _ => 0 end.
Definition structural_event {A} (o : option A) (g : Z) : list Event * Z :=
  match o with Some _ => ([Minted (tagged g)], u64_wrapping_add g 1) | None => ([], g) end.
Definition structural_events (plan : Slices.UpdatePlan) (g : Z) : list Event :=
  let '(es, g) := structural_event (Slices.carry_from plan) g in es ++ (structural_event (Slices.reassert plan) g).1.

Lemma mint_if_ok {A} (o : option A) (oid : option VersionId) g r n' :
  match o with Some _ => exists i, oid = Some i /\ Id.structural g = Ok i | None => oid = None end ->
  0 <= next_version_id r -> numbered rho (next_version_id r) (structural_event o g).1 n' ->
  mint_if o r = (set_next n' r, Ok (rho <$> oid)).
Proof.
  intros Ho H0. destruct o as [a|]; simpl.
  - destruct Ho as (i & -> & Hi). unfold tagged. rewrite Hi. intros (n1 & He & ->%numbered_nil)%numbered_cons. revert He; simpl.
    case_goal; [|done]; intros He. injection He as Hv <-. bool_to_prop. unfold mint_structural_version_id, mbind, sm_bind, lift, get. simpl.
    destruct (tag_strip (next_version_id r)) as (_ & _ & _ & ->); [lia|]. simpl. rewrite saturating_small by lia. by rewrite <- Hv.
  - subst oid. intros ->%numbered_nil. by rewrite set_next_same.
Qed.

(** ** The two histories *)
Section On.
Context {X : Type} (on : forall A, SM (History.Store X) Error A -> M A).
Context (view : Recovered -> History.Store X) (put : History.Store X -> Recovered -> Recovered).
Hypothesis on_ok : forall A (m : SM (History.Store X) Error A) r h a, m (view r) = (h, Ok a) -> on A m r = (put h r, Ok a).
Hypothesis view_next : forall n r, view (set_next n r) = view r.
Hypothesis view_put : forall h r, view (put h r) = h.
Hypothesis put_view : forall r, put (view r) r = r.
Hypothesis put_next : forall h r, next_version_id (put h r) = next_version_id r.
Implicit Types s : History.Store X.

Lemma update_history_ok s s' a (e : Z) v l en p vf pr c o1 o2 g g' r n' :
  let plan := Slices.plan_entity_update s e vf in
  view r = ren_store rho s -> History.versions s !! v = None -> rho v = v -> minted g o1 o2 plan g' ->
  0 <= next_version_id r -> numbered rho (next_version_id r) (structural_events plan g) n' ->
  update e plan vf c v l en p pr o1 o2 s = (s', Ok a) ->
  update_history it ptr_eq map_ptr_eq config pre_anchor_hooks on view e v l en p vf pr c r
    = (put (ren_store rho s') (set_next n' r), Ok (ren_state rho <$> Slices.reasserted a)).
Proof.
  intros plan Hv Hf Hrv (g1 & M1 & M2) H0. unfold structural_events.
  assert (Hg : g1 = (structural_event (Slices.carry_from plan) g).2) by (destruct (Slices.carry_from plan); naive_solver).
  destruct (structural_event (Slices.carry_from plan) g) as [es g1'] eqn:Ee. simpl in Hg. subst g1'. intros (n1 & N1 & N2)%numbered_app Hu.
  unfold update_history. unfold get, mbind at 1, sm_bind at 1. rewrite Hv, <- Hrv, ren_lookup, Hf by apply _. simpl fmap. cbv beta iota.
  rewrite plan_renames by done. fold plan. change (Slices.carry_from (ren_plan rho plan)) with (Slices.carry_from plan).
  eapply sm_bind_run; [apply (mint_if_ok _ o1 g); [by destruct (Slices.carry_from plan); naive_solver|done|by rewrite Ee]|].
  eapply sm_bind_run.
  { change (Slices.reassert (ren_plan rho plan)) with (rho <$> Slices.reassert plan). apply (mint_if_ok _ o2 g1).
    - destruct (Slices.reassert plan); simpl; naive_solver.
    - simpl. apply numbered_le in N1; [lia|done].
    - by destruct (Slices.reassert plan). }
  eapply sm_bind_run; [apply on_ok; rewrite !view_next, Hv; eapply (renames_ok rho (ren_applied rho)); [by apply update_renames|exact Hu]|reflexivity].
Qed.
Lemma live_head_renames s e : live_head (ren_store rho s) e = rho <$> live_head s e.
Proof.
  unfold live_head, valid_open. rewrite ren_head. destruct (History.version_heads s !! e) as [h|]; simpl fmap; cbv beta iota; [|done].
  rewrite ren_lookup by apply _. destruct (History.versions s !! h) as [w|]; simpl fmap; cbv beta iota; [|done].
  change (History.temporal (ren_version rho w)) with (History.temporal w). by destruct (Range.is_current _).
Qed.
Lemma alive_head s e : alive s e -> exists h, History.version_heads s !! e = Some h /\ live_head s e = Some h.
Proof.
  intros (a & b & Hh & _). unfold head_state in Hh. destruct (History.version_heads s !! e) as [h|] eqn:E; [|done]. simpl in Hh.
  exists h. split; [done|]. unfold live_head, valid_open. rewrite E. destruct (History.versions s !! h) as [w|]; [|done]. injection Hh as ->.
  cbn [valid_time]. assert (Range.is_current (mkRange a TIMESTAMP_MAX) = true) as -> by (by apply (ts_eqb_eq TIMESTAMP_MAX)). done.
Qed.
Lemma retracted_from_renames s e c : Replay.retracted_from (ren_store rho s) e c = Commit.retracted_from s e c.
Proof.
  unfold Replay.retracted_from, Commit.retracted_from, Tx.head_interval, IxHist.get_current_version, IxHist.get_version.
  rewrite ren_head. destruct (History.version_heads s !! e) as [h|]; [|done]. cbn [fmap option_fmap option_map mbind option_bind].
  rewrite ren_lookup by apply _. by destruct (History.versions s !! h).
Qed.
Lemma close_history_ok s s1 s' (e : Z) payload i append close c r n' u :
  view r = ren_store rho s -> alive s e -> 0 <= next_version_id r -> numbered rho (next_version_id r) [Logged i] n' ->
  close (rho <$> History.version_heads s !! e) (ren_store rho s) = (s1, Ok u) ->
  append i (Commit.retracted_from s e c) payload s1 = (s', Ok tt) ->
  close_history it config on view e (Some payload) (Some i) append close c r = (put s' (set_next n' (put s1 r)), Ok tt).
Proof.
  intros Hv (h & Hh & Hl)%alive_head H0 (Hr & Hi & ->)%logged_inv Hc Ha; [|done]. unfold close_history. unfold get, mbind at 1, sm_bind at 1.
  eapply sm_bind_run.
  { apply on_ok. unfold closing_payload. by rewrite Hv, live_head_renames, Hl. }
  cbv beta iota zeta. rewrite <- Hv, put_view, Hv, ren_head, retracted_from_renames.
  eapply sm_bind_run; [apply on_ok; by rewrite Hv|]. eapply sm_bind_run.
  { unfold logged_or_synthesized. eapply sm_bind_run; [done|]. eapply sm_bind_run; [by apply bump_ok|]. by rewrite put_next. }
  apply on_ok. by rewrite view_next, view_put.
Qed.
End On.
End Steps.
