(* ===== verification/ReplaySound.v ===== *)
(** * What the live histories keep while writes are applied

    Every node and every edge of the live graph is alive in its history, and the versions
    of the histories are those the writes so far have used: what the guards of the replay
    rely on to recognize an operation that is still to be applied. *)

From S2P Require Import Prelude.
From S2P Require Import Errors.
From S2P Require Import Hlc.
From S2P Require Import Temporal.
From S2P Require Import Ids.
From S2P Require Import Interning.
From S2P Require Import Property.
From S2P Require Import PropMap.
From S2P Require Import Provenance.
From S2P Require Import Delta.
From S2P Require Import History.
From S2P Require Import Slices.
From S2P Require Import Commit.
From S2P Require Import Replay.
From S2P Require Import HistoryFacts.
From S2P Require Import HistoryHeads.
From S2P Require Import ReplayLive.

Section Sound.
Import PropMap Prov History Slices.
Context {St : Type} `{Interner St} {X A : Type}.
Context (it : St) (ptr_eq : PropertyValue -> PropertyValue -> bool) (map_ptr_eq : PropertyMap -> PropertyMap -> bool).
Context (config : Config) (pre_anchor_hooks : Z -> HybridTimestamp -> PropertyMap -> option Z).
Implicit Types (s : Store X) (m : gmap Z A) (seen ids : list VersionId).
Abbreviation add := (add_version_with_provenance it ptr_eq map_ptr_eq config pre_anchor_hooks).
Abbreviation add_retracted := (add_retracted_version_with_provenance it ptr_eq map_ptr_eq config pre_anchor_hooks).
Abbreviation update := (apply_update it ptr_eq map_ptr_eq config pre_anchor_hooks).

(** [m]: what the live graph holds; [seen]: the versions used so far. *)
Record sound seen s m : Prop := {
  so_owned : owned s;
  so_alive : forall e, is_Some (m !! e) -> alive s e;
  so_known : forall i, is_Some (versions s !! i) -> i ∈ seen }.

Lemma sound_empty seen : sound seen (empty_store X) (∅ : gmap Z A).
Proof.
  split; [split|..]; simpl; intros *; rewrite ?lookup_empty; try done; [|by intros []..].
  unfold node_open_slices. simpl. rewrite lookup_empty. by intros ?%elem_of_nil.
Qed.
Lemma sound_weaken seen seen' s m : sound seen s m -> seen ⊆ seen' -> sound seen' s m.
Proof. intros [H1 H2 H3] Hs. split; [done..|]. intros i Hi. by apply Hs, H3. Qed.
Lemma unseen_mine seen s m e ids : sound seen s m -> (forall i, i ∈ ids -> i ∉ seen) -> mine e ids s.
Proof. intros [_ _ Hk] Hn i v Hi Hv. destruct (Hn i Hi). apply Hk. by exists v. Qed.

(** What a step on one entity leaves of it. *)
Lemma sound_step seen s s' m m' ids (e : Z) :
  sound seen s m -> owned s' -> (forall i, is_Some (versions s' !! i) -> is_Some (versions s !! i) \/ i ∈ ids) ->
  (forall e', e' <> e -> head_state s' e' = head_state s e') -> (forall e', e' <> e -> m' !! e' = m !! e') ->
  (is_Some (m' !! e) -> alive s' e) -> sound (seen ++ ids) s' m'.
Proof.
  intros [_ Ha Hk] O D F Hm He. split; [done| |].
  - intros e' Hs. destruct (decide (e' = e)) as [->|Hne]; [by apply He|]. rewrite Hm in Hs by done. apply Ha in Hs.
    unfold alive. by rewrite F.
  - intros i Hi. apply elem_of_app. destruct (D i Hi) as [Hi'|Hi']; [left; by apply Hk|by right].
Qed.

Lemma create_sound seen s s' m (e : Z) v vf c l en p pr x :
  sound seen s m -> v ∉ seen -> (vf < TIMESTAMP_MAX)%ts -> add e v vf c l en p false pr s = (s', Ok tt) ->
  sound (seen ++ [v]) s' (<[e := x]> m).
Proof.
  intros S Hv Hvf Ha. apply (add_provenance_touches it ptr_eq map_ptr_eq config pre_anchor_hooks e [v]) in Ha as [T Hh]; [|by left].
  destruct (T (so_owned _ _ _ S)) as (O & _ & D & F); [eapply unseen_mine; [done|]; by intros i ->%list_elem_of_singleton|].
  apply (sound_step seen s s' m _ [v] e); try done; [intros; by rewrite lookup_insert_ne|]. intros _. by exists vf, c.
Qed.
Lemma update_sound seen s s' m (e : Z) v vf c l en p pr o1 o2 a x :
  let ids := v :: option_list o1 ++ option_list o2 in
  sound seen s m -> is_Some (m !! e) -> (forall i, i ∈ ids -> i ∉ seen) -> (vf < TIMESTAMP_MAX)%ts ->
  update e (plan_entity_update s e vf) vf c v l en p pr o1 o2 s = (s', Ok a) -> sound (seen ++ ids) s' (<[e := x]> m).
Proof.
  intros ids S He Hn Hvf Hu. apply update_alive in Hu as (O & D & F & Ha); try done; [|apply S|eapply unseen_mine; [exact S|exact Hn]|by apply S].
  apply (sound_step seen s s' m _ ids e); try done. intros; by rewrite lookup_insert_ne.
Qed.
Lemma delete_sound seen s s' m (e : Z) i vf c l en p pr :
  sound seen s m -> i ∉ seen -> close_and_add e c (add e i vf c l en p true pr) s = (s', Ok tt) -> sound (seen ++ [i]) s' (delete e m).
Proof.
  intros S Hi (s1 & u & Hc & Ha)%sm_bind_inv.
  pose proof (close_all_touches e [i] c s) as T1. rewrite Hc in T1. simpl in T1.
  apply (add_provenance_touches it ptr_eq map_ptr_eq config pre_anchor_hooks e [i]) in Ha as [T2 _]; [|by left].
  assert (T : touches e [i] s s') by (etrans; [exact T1|exact T2]). destruct (T (so_owned _ _ _ S)) as (O & _ & D & F); [eapply unseen_mine; [done|]; by intros j ->%list_elem_of_singleton|].
  apply (sound_step seen s s' m _ [i] e); try done; [intros; by rewrite lookup_delete_ne|]. rewrite lookup_delete_eq. by intros [].
Qed.
Lemma retract_sound seen s s' m (e : Z) i vt c l en p pr :
  sound seen s m -> i ∉ seen -> close_and_retract e c (fun vf => add_retracted e i vf vt c l en p pr) s = (s', Ok tt) ->
  sound (seen ++ [i]) s' (delete e m).
Proof.
  intros S Hi (s1 & u & Hc & Ha)%sm_bind_inv. pose proof (so_owned _ _ _ S) as O0. pose proof O0 as [O1 _].
  set (ids := i :: option_list (version_heads s !! e)).
  assert (T1 : touches e ids s s1).
  { unfold Replay.close_head in Hc. destruct (version_heads s !! e) as [h|]; [|injection Hc as <- _; reflexivity].
    pose proof (close_touches e ids h c ltac:(unfold ids; set_solver) s) as T. by rewrite Hc in T. }
  apply (add_retracted_touches it ptr_eq map_ptr_eq config pre_anchor_hooks e ids) in Ha as [T2 _]; [|unfold ids; set_solver].
  assert (T : touches e ids s s') by (etrans; [exact T1|exact T2]). destruct (T O0) as (O & _ & D & F).
  { intros j w [->|Hj]%elem_of_cons Hw; [destruct Hi; apply S; by exists w|].
    destruct (version_heads s !! e) as [h|] eqn:E; [|by apply elem_of_nil in Hj]. apply list_elem_of_singleton in Hj as ->.
    apply O1 in E as (w' & Hw' & He). congruence. }
  apply (sound_step seen s s' m _ [i] e); try done.
  - intros j Hj. destruct (D j Hj) as [|[->|Hj']%elem_of_cons]; [by left|right; set_solver|left].
    destruct (version_heads s !! e) as [h|] eqn:E; [|by apply elem_of_nil in Hj']. apply list_elem_of_singleton in Hj' as ->.
    apply O1 in E as (w' & Hw' & _). by exists w'.
  - intros; by rewrite lookup_delete_ne.
  - rewrite lookup_delete_eq. by intros [].
Qed.
End Sound.
