(* ===== verification/ReplayLaws.v ===== *)
(** * Replay rebuilds what was committed

    The replay of a log of committed transactions against the live database that wrote it:
    both apply the same operations to their stores, and the version ids the log does not
    carry are renamed.  If the replay's counter never passes an id that is still to be read
    from the log, the recovered database is the live one, renamed. *)

From S2P Require Import Prelude.
From S2P Require Import SliceOps.
From S2P Require Import Bytes.
From S2P Require Import Errors.
From S2P Require Import Hlc.
From S2P Require Import Temporal.
From S2P Require Import Ids.
From S2P Require Import Interning.
From S2P Require Import Property.
From S2P Require Import PropMap.
From S2P Require Import Namespaces.
From S2P Require Import Provenance.
From S2P Require Import Delta.
From S2P Require Import History.
From S2P Require Import Slices.
From S2P Require Import HistoryFacts.
From S2P Require Import Wal.
From S2P Require Import TxFrames.
From S2P Require Import TemporalIndex.
From S2P Require Import Csr.
From S2P Require Import CurrentIndex.
From S2P Require Import CurrentLaws.
From S2P Require Import CurrentStore.
From S2P Require Import IndexedHistory.
From S2P Require Import IndexedLaws.
From S2P Require Import Transactions.
From S2P Require Import Commit.
From S2P Require Import CommitLaws.
From S2P Require Import CommitEffect.
From S2P Require Import Replay.
From S2P Require Import Renaming.
From S2P Require Import HistoryHeads.
From S2P Require Import ReplayIds.
From S2P Require Import ReplayLive.
From S2P Require Import ReplaySteps.
From S2P Require Import ReplaySound.

(** ** What the writes of a transaction are to the log *)
Section Writes.
Import Commit WriteBuf Graph CurIdx.
Context {St : Type} `{Interner St}.
Context (it : St) (ptr_eq : PropertyValue -> PropertyValue -> bool) (map_ptr_eq : PropMap.PropertyMap -> PropMap.PropertyMap -> bool).
Context (config : History.Config) (pre_anchor_hooks : Z -> HybridTimestamp -> PropMap.PropertyMap -> option Z).
Abbreviation apply_single_write := (apply_single_write it ptr_eq map_ptr_eq config pre_anchor_hooks).
Abbreviation nh := Db.node_history.
Abbreviation eh := Db.edge_history.
Abbreviation gen d := (Id.next_id (Db.version_id_gen d)).

(** The operation logged for a write; [ids] are the ids left for the closings. *)
Definition logged_operation (w : BufferedWrite) (ids : list VersionId) : Wal.WalOperation :=
  match w with
  | DeleteNode n vf pr => Wal.DeleteNode n vf (head ids) pr
  | DeleteEdge e vf pr => Wal.DeleteEdge e vf (head ids) pr
  | RetractNode n vt pr => Wal.RetractNode n vt (head ids) pr
  | RetractEdge e vt pr => Wal.RetractEdge e vt (head ids) pr
  | w => to_wal w
  end.
(** The version ids it uses. *)
Definition write_events (w : BufferedWrite) (ids : list VersionId) (d : Db.Db) : list Event :=
  match w with
  | CreateNode _ v _ _ _ _ | CreateEdge _ v _ _ _ _ _ _ => [Created v]
  | UpdateNode n v _ _ vf _ => Logged v :: structural_events (Slices.plan_entity_update (nh d) n vf) (gen d)
  | UpdateEdge e v _ _ _ _ vf _ => Logged v :: structural_events (Slices.plan_entity_update (eh d) e vf) (gen d)
  | DeleteNode _ _ _ | DeleteEdge _ _ _ | RetractNode _ _ _ | RetractEdge _ _ _ => List.map Logged (option_list (head ids))
  end.
(** Creations are of ids never used before, updates of what is there and of its end
    points, and valid times before the end of time: what buffering a write checks. *)
Definition regular (w : BufferedWrite) (d : Db.Db) : bool :=
  match w with
  | CreateNode n _ _ _ vf _ => bool_decide (nodes (graph d) !! n = None) && bool_decide (History.version_heads (nh d) !! n = None) && ts_ltb vf TIMESTAMP_MAX
  | CreateEdge e _ _ _ _ _ vf _ => bool_decide (edges (graph d) !! e = None) && bool_decide (History.version_heads (eh d) !! e = None) && ts_ltb vf TIMESTAMP_MAX
  | UpdateNode n _ _ _ vf _ => bool_decide (is_Some (nodes (graph d) !! n)) && ts_ltb vf TIMESTAMP_MAX
  | UpdateEdge e _ x y _ _ vf _ => bool_decide ((fun z => (e_source z, e_target z)) <$> edges (graph d) !! e = Some (x, y)) && ts_ltb vf TIMESTAMP_MAX
  | _ => true
  end.

(** The same for a sequence of writes, each in the state the earlier ones left. *)
Fixpoint batch_events t (ws : list BufferedWrite) (c : HybridTimestamp) (ids : list VersionId) (d : Db.Db) : list Event :=
  match ws with
  | [] => []
  | w :: ws => write_events w ids d ++ match apply_single_write t w c ids d with (d', Ok ids') => batch_events t ws c ids' d' | _ => [] end
  end.
Fixpoint all_regular t (ws : list BufferedWrite) (c : HybridTimestamp) (ids : list VersionId) (d : Db.Db) : bool :=
  match ws with
  | [] => true
  | w :: ws => regular w d && match apply_single_write t w c ids d with (d', Ok ids') => all_regular t ws c ids' d' | _ => true end
  end.
End Writes.

(** ** One write, live and replayed *)
Section Simulation.
Import Commit WriteBuf Graph CurIdx Replay.
Context {St : Type} `{Interner St}.
Context (it : St) (ptr_eq : PropertyValue -> PropertyValue -> bool) (map_ptr_eq : PropMap.PropertyMap -> PropMap.PropertyMap -> bool).
Context (config : History.Config) (pre_anchor_hooks : Z -> HybridTimestamp -> PropMap.PropertyMap -> option Z).
Context (rho : VersionId -> VersionId) `{!Inj (=) (=) rho}.
Hypothesis rho_tag : forall v, Id.is_structural (rho v) = Id.is_structural v.
Abbreviation nh := Db.node_history.
Abbreviation eh := Db.edge_history.
Abbreviation gen d := (Id.next_id (Db.version_id_gen d)).
Abbreviation add := (History.add_version_with_provenance it ptr_eq map_ptr_eq config pre_anchor_hooks).
Abbreviation add_retracted := (History.add_retracted_version_with_provenance it ptr_eq map_ptr_eq config pre_anchor_hooks).
Abbreviation update := (Slices.apply_update it ptr_eq map_ptr_eq config pre_anchor_hooks).
Abbreviation ren := (ren_store rho).

(** A node of the live graph as the replay writes it: by the recovery transaction; the
    live node gets its commit timestamp when the whole transaction is applied. *)
Definition ren_node (c : HybridTimestamp) (x : Node) : Node :=
  mkNode (n_id x) (n_label x) (n_properties x) (rho (n_current_version x)) (meta_new RECOVERY_TX_ID (default c (commit_timestamp (n_metadata x)))).
Definition ren_edge (c : HybridTimestamp) (x : Edge) : Edge :=
  mkEdge (e_id x) (e_label x) (e_source x) (e_target x) (e_properties x) (rho (e_current_version x))
    (meta_new RECOVERY_TX_ID (default c (commit_timestamp (e_metadata x)))).

Record matches (c : HybridTimestamp) (d : Db.Db) (r : Recovered) (next : Z) : Prop := {
  mt_nodes : nodes (CurStore.indexes (current r)) = ren_node c <$> nodes (graph d);
  mt_edges : edges (CurStore.indexes (current r)) = ren_edge c <$> edges (graph d);
  mt_nh : node_history r = ren (nh d);
  mt_eh : edge_history r = ren (eh d);
  mt_next : next_version_id r = next }.

(** The writes to the current storage *)
Definition set_indexes ix r := set_current (CurStore.set_indexes ix (current r)) r.
Lemma insert_node_ok n r : on_current (CurStore.insert_node_direct it n) r = (set_indexes (CurIdx.insert_node it n (CurStore.indexes (current r))) r, Ok tt).
Proof. done. Qed.
Lemma insert_edge_ok n r : on_current (CurStore.insert_edge_direct it n) r = (set_indexes (CurIdx.insert_edge it n (CurStore.indexes (current r))) r, Ok tt).
Proof. done. Qed.
Lemma remove_node_ok (n : NodeId) r x : nodes (CurStore.indexes (current r)) !! n = Some x ->
  Replay.remove_node it n (Some x) r = (set_indexes (CurIdx.remove_node it n (CurStore.indexes (current r))).1 r, Ok tt).
Proof.
  intros Hx. unfold Replay.remove_node, on_current, CurStore.delete_node_direct, CurStore.delete_node, mbind, sm_bind.
  unfold CurIdx.remove_node. rewrite Hx. by destruct (Ns.intern_namespace _ _).
Qed.
Lemma remove_edge_ok (n : EdgeId) r x : edges (CurStore.indexes (current r)) !! n = Some x ->
  Replay.remove_edge it n (Some x) r = (set_indexes (CurIdx.remove_edge it n (CurStore.indexes (current r))).1 r, Ok tt).
Proof.
  intros Hx. unfold Replay.remove_edge, on_current, CurStore.delete_edge_direct, CurStore.delete_edge, mbind, sm_bind.
  unfold CurIdx.remove_edge. rewrite Hx. by destruct (Ns.intern_namespace _ _).
Qed.
Lemma on_nodes_ok {A} (m : SM _ Error A) r h a : m (node_history r) = (h, Ok a) -> on_nodes m r = (set_node_history h r, Ok a).
Proof. unfold on_nodes. by intros ->. Qed.
Lemma on_edges_ok {A} (m : SM _ Error A) r h a : m (edge_history r) = (h, Ok a) -> on_edges m r = (set_edge_history h r, Ok a).
Proof. unfold on_edges. by intros ->. Qed.

Lemma get_node_matches c d r next (n : NodeId) o : matches c d r next -> nodes (graph d) !! n = o ->
  CurIdx.get_node n (CurStore.indexes (current r)) = ren_node c <$> o.
Proof. intros [M1 _ _ _ _] <-. unfold CurIdx.get_node. rewrite M1. apply lookup_fmap. Qed.
Lemma get_edge_matches c d r next (n : EdgeId) o : matches c d r next -> edges (graph d) !! n = o ->
  CurIdx.get_edge n (CurStore.indexes (current r)) = ren_edge c <$> o.
Proof. intros [_ M2 _ _ _] <-. unfold CurIdx.get_edge. rewrite M2. apply lookup_fmap. Qed.

(** What a write leaves, given what it wrote to the maps and the history. *)
Lemma matches_insert_node c d d' r r' next next' x :
  matches c d r next -> nodes (graph d') = insert (n_id x) x (nodes (graph d)) -> edges (graph d') = edges (graph d) -> eh d' = eh d ->
  CurStore.indexes (current r') = CurIdx.insert_node it (ren_node c x) (CurStore.indexes (current r)) ->
  node_history r' = ren (nh d') -> edge_history r' = edge_history r -> next_version_id r' = next' -> matches c d' r' next'.
Proof.
  intros [M1 M2 M3 M4 _] En Eg Ee Ei Eh Ee' Ex. destruct (insert_node_maps it (ren_node c x) (CurStore.indexes (current r))) as [I1 I2].
  split; [..|done]; [|by rewrite Ei, I2, Eg|done|by rewrite Ee', Ee].
  rewrite Ei, I1, En, M1. symmetry. apply (fmap_insert (ren_node c)).
Qed.
Lemma matches_insert_edge c d d' r r' next next' x :
  matches c d r next -> edges (graph d') = insert (e_id x) x (edges (graph d)) -> nodes (graph d') = nodes (graph d) -> nh d' = nh d ->
  CurStore.indexes (current r') = CurIdx.insert_edge it (ren_edge c x) (CurStore.indexes (current r)) ->
  edge_history r' = ren (eh d') -> node_history r' = node_history r -> next_version_id r' = next' -> matches c d' r' next'.
Proof.
  intros [M1 M2 M3 M4 _] En Eg Ee Ei Eh Ee' Ex. destruct (insert_edge_maps it (ren_edge c x) (CurStore.indexes (current r))) as [I1 I2].
  split; [..|done]; [by rewrite Ei, I1, Eg| |by rewrite Ee', Ee|done].
  rewrite Ei, I2, En, M2. symmetry. apply (fmap_insert (ren_edge c)).
Qed.
Lemma matches_remove_node c d d' r r' next next' (n : NodeId) :
  matches c d r next -> nodes (graph d') = delete n (nodes (graph d)) -> edges (graph d') = edges (graph d) -> eh d' = eh d ->
  CurStore.indexes (current r') = (CurIdx.remove_node it n (CurStore.indexes (current r))).1 ->
  node_history r' = ren (nh d') -> edge_history r' = edge_history r -> next_version_id r' = next' -> matches c d' r' next'.
Proof.
  intros [M1 M2 M3 M4 _] En Eg Ee Ei Eh Ee' Ex. destruct (remove_node_maps it n (CurStore.indexes (current r))) as [I1 I2].
  split; [..|done]; [|by rewrite Ei, I2, Eg|done|by rewrite Ee', Ee].
  rewrite Ei, I1, En, M1. symmetry. apply (fmap_delete (ren_node c)).
Qed.
Lemma matches_remove_edge c d d' r r' next next' (n : EdgeId) :
  matches c d r next -> edges (graph d') = delete n (edges (graph d)) -> nodes (graph d') = nodes (graph d) -> nh d' = nh d ->
  CurStore.indexes (current r') = (CurIdx.remove_edge it n (CurStore.indexes (current r))).1 ->
  edge_history r' = ren (eh d') -> node_history r' = node_history r -> next_version_id r' = next' -> matches c d' r' next'.
Proof.
  intros [M1 M2 M3 M4 _] En Eg Ee Ei Eh Ee' Ex. destruct (remove_edge_maps it n (CurStore.indexes (current r))) as [I1 I2].
  split; [..|done]; [by rewrite Ei, I1, Eg| |by rewrite Ee', Ee|done].
  rewrite Ei, I2, En, M2. symmetry. apply (fmap_delete (ren_edge c)).
Qed.

Lemma no_head {X} (s : History.Store X) e : History.version_heads s !! e = None -> live_head (ren s) e = None /\ History.version_heads (ren s) !! e = None.
Proof. intros Hh. rewrite (live_head_renames rho), ren_head. unfold live_head. by rewrite Hh. Qed.

Lemma create_node_sim t n v l p vf pr c d d' r next next' :
  wrote_nodes (add n v vf c l tt p false pr) tt (insert n (mkNode n l p v (uncommitted (Tx.tx_id t)))) d d' ->
  nodes (graph d) !! n = None -> History.version_heads (nh d) !! n = None ->
  matches c d r next -> 0 <= next -> numbered rho next [Created v] next' ->
  exists r', create_node it ptr_eq map_ptr_eq config pre_anchor_hooks n l p vf pr c r = (r', Ok tt) /\ matches c d' r' next'.
Proof.
  intros (Ha & Ee & En & Eg) Hn Hh M H0 N. pose proof (mt_next _ _ _ _ M) as Enext. rewrite <- Enext in H0, N.
  set (r1 := set_max_node (maximum (max_node_id r) n) r).
  destruct (synthesize_ok rho r1 v next' H0 N) as (Hs & En' & Hr & Hr').
  destruct (no_head (nh d) n Hh) as [Hl Hh'].
  set (x := mkNode n l p v (uncommitted (Tx.tx_id t))).
  exists (set_node_history (ren (nh d')) (set_indexes (CurIdx.insert_node it (ren_node c x) (CurStore.indexes (current r))) (set_next (Z.max (next_version_id r1) (rho v + 1)) r1))). split.
  - unfold create_node. eapply sm_bind_run; [done|]. unfold get, mbind at 1, sm_bind at 1. cbv beta zeta. fold r1.
    change (CurStore.indexes (current r1)) with (CurStore.indexes (current r)). rewrite (get_node_matches c d r next n _ M Hn).
    change (node_history r1) with (node_history r). rewrite (mt_nh _ _ _ _ M). unfold created_version, NodeId. rewrite Hl, Hh'. cbn [fmap option_fmap option_map].
    eapply sm_bind_run; [exact Hs|]. eapply sm_bind_run; [by apply bump_ok|]. eapply sm_bind_run; [apply insert_node_ok|].
    eapply sm_bind_run; [apply on_nodes_ok; done|]. apply on_nodes_ok.
    eapply (renames_ok rho (fun u => u)) in Ha; [|by apply add_provenance_renames].
    etrans; [|exact Ha]. f_equal. exact (mt_nh _ _ _ _ M).
  - apply (matches_insert_node c d d' r _ next _ x M); try done. simpl. change (next_version_id r1) with (next_version_id r) in *. lia.
Qed.
Lemma create_edge_sim t e v x y l p vf pr c d d' r next next' :
  wrote_edges (add e v vf c l (x, y) p false pr) tt (insert e (mkEdge e l x y p v (uncommitted (Tx.tx_id t)))) d d' ->
  edges (graph d) !! e = None -> History.version_heads (eh d) !! e = None ->
  matches c d r next -> 0 <= next -> numbered rho next [Created v] next' ->
  exists r', create_edge it ptr_eq map_ptr_eq config pre_anchor_hooks e x y l p vf pr c r = (r', Ok tt) /\ matches c d' r' next'.
Proof.
  intros (Ha & Ee & En & Eg) Hn Hh M H0 N. pose proof (mt_next _ _ _ _ M) as Enext. rewrite <- Enext in H0, N.
  set (r1 := set_max_edge (maximum (max_edge_id r) e) r).
  destruct (synthesize_ok rho r1 v next' H0 N) as (Hs & En' & Hr & Hr').
  destruct (no_head (eh d) e Hh) as [Hl Hh'].
  set (z := mkEdge e l x y p v (uncommitted (Tx.tx_id t))).
  exists (set_edge_history (ren (eh d')) (set_indexes (CurIdx.insert_edge it (ren_edge c z) (CurStore.indexes (current r))) (set_next (Z.max (next_version_id r1) (rho v + 1)) r1))). split.
  - unfold create_edge. eapply sm_bind_run; [done|]. unfold get, mbind at 1, sm_bind at 1. cbv beta zeta. fold r1.
    change (CurStore.indexes (current r1)) with (CurStore.indexes (current r)). rewrite (get_edge_matches c d r next e _ M Hn).
    change (edge_history r1) with (edge_history r). rewrite (mt_eh _ _ _ _ M). unfold created_version, EdgeId. rewrite Hl, Hh'. cbn [fmap option_fmap option_map].
    eapply sm_bind_run; [exact Hs|]. eapply sm_bind_run; [by apply bump_ok|]. eapply sm_bind_run; [apply insert_edge_ok|].
    eapply sm_bind_run; [apply on_edges_ok; done|]. apply on_edges_ok.
    eapply (renames_ok rho (fun u => u)) in Ha; [|by apply add_provenance_renames].
    etrans; [|exact Ha]. f_equal. exact (mt_eh _ _ _ _ M).
  - apply (matches_insert_edge c d d' r _ next _ z M); try done. simpl. change (next_version_id r1) with (next_version_id r) in *. lia.
Qed.

Lemma numbered_update r next v es n' : next_version_id r = next -> 0 <= next -> numbered rho next (Logged v :: es) n' ->
  bump v r = (set_next (Z.max next (v + 1)) r, Ok tt) /\ rho v = v /\ 0 <= v /\ numbered rho (Z.max next (v + 1)) es n'.
Proof.
  intros <- H0 (n1 & N1 & N2)%(numbered_app rho _ [Logged v]). apply logged_inv in N1 as (Hr & Hv & ->); [|done].
  split_and!; [by apply bump_ok|done|lia|done].
Qed.
Lemma update_node_sim t n v l p vf pr c o1 o2 a g' d d' r next next' :
  let plan := Slices.plan_entity_update (nh d) n vf in
  minted (Id.next_id (Db.version_id_gen d)) o1 o2 plan g' ->
  wrote_nodes (update n plan vf c v l tt p pr o1 o2) a (insert n (updated_node t n v l p a)) d d' ->
  History.versions (nh d) !! v = None ->
  matches c d r next -> 0 <= next -> numbered rho next (Logged v :: structural_events plan (Id.next_id (Db.version_id_gen d))) next' ->
  exists r', update_node it ptr_eq map_ptr_eq config pre_anchor_hooks n v l p vf pr c r = (r', Ok tt) /\ matches c d' r' next'.
Proof.
  intros plan Hm (Ha & Ee & En & Eg) Hv M H0 N.
  destruct (numbered_update r next v _ next' (mt_next _ _ _ _ M) H0 N) as (Hb & Hr & Hv0 & N2).
  set (x := updated_node t n v l p a).
  set (r2 := set_node_history (ren (nh d')) (set_next next' (set_next (Z.max next (v + 1)) r))).
  exists (set_indexes (CurIdx.insert_node it (ren_node c x) (CurStore.indexes (current r2))) r2). split.
  - unfold update_node. eapply sm_bind_run; [exact Hb|]. eapply sm_bind_run.
    { eapply (update_history_ok it ptr_eq map_ptr_eq config pre_anchor_hooks rho rho_tag (@on_nodes) node_history set_node_history (@on_nodes_ok));
        [done|exact (mt_nh _ _ _ _ M)|exact Hv|exact Hr|exact Hm|simpl; lia|exact N2|exact Ha]. }
    cbv beta zeta. etrans; [|apply (insert_node_ok (ren_node c x) r2)]. subst x. unfold updated_node.
    destruct (Slices.reasserted a) as [[[hi hl] hp]|]; [done|]. unfold ren_node. simpl. by rewrite Hr.
  - apply (matches_insert_node c d d' r _ next _ x M); try done. rewrite En. unfold x, updated_node.
    by destruct (Slices.reasserted a) as [[[hi hl] hp]|].
Qed.
Lemma update_edge_sim t e v x y l p vf pr c o1 o2 a g' d d' r next next' z :
  let plan := Slices.plan_entity_update (eh d) e vf in
  minted (Id.next_id (Db.version_id_gen d)) o1 o2 plan g' ->
  wrote_edges (update e plan vf c v l (x, y) p pr o1 o2) a (insert e (updated_edge t e x y v l p a)) d d' ->
  edges (graph d) !! e = Some z -> e_source z = x -> e_target z = y ->
  History.versions (eh d) !! v = None ->
  matches c d r next -> 0 <= next -> numbered rho next (Logged v :: structural_events plan (Id.next_id (Db.version_id_gen d))) next' ->
  exists r', update_edge it ptr_eq map_ptr_eq config pre_anchor_hooks e v l p vf pr c r = (r', Ok tt) /\ matches c d' r' next'.
Proof.
  intros plan Hm (Ha & Ee & En & Eg) Hz <- <- Hv M H0 N.
  destruct (numbered_update r next v _ next' (mt_next _ _ _ _ M) H0 N) as (Hb & Hr & Hv0 & N2).
  set (u := updated_edge t e (e_source z) (e_target z) v l p a).
  set (r2 := set_edge_history (ren (eh d')) (set_next next' (set_next (Z.max next (v + 1)) r))).
  exists (set_indexes (CurIdx.insert_edge it (ren_edge c u) (CurStore.indexes (current r2))) r2). split.
  - unfold update_edge. eapply sm_bind_run; [exact Hb|]. unfold get, mbind at 1, sm_bind at 1.
    eapply sm_bind_run; [unfold lift, CurStore.get_edge; simpl current; rewrite (get_edge_matches c d r next e _ M Hz); done|].
    eapply sm_bind_run.
    { eapply (update_history_ok it ptr_eq map_ptr_eq config pre_anchor_hooks rho rho_tag (@on_edges) edge_history set_edge_history (@on_edges_ok));
        [done|exact (mt_eh _ _ _ _ M)|exact Hv|exact Hr|exact Hm|simpl; lia|exact N2|exact Ha]. }
    cbv beta zeta. etrans; [|apply (insert_edge_ok (ren_edge c u) r2)]. subst u. unfold updated_edge.
    destruct (Slices.reasserted a) as [[[hi hl] hp]|]; [done|]. unfold ren_edge. simpl. by rewrite Hr.
  - apply (matches_insert_edge c d d' r _ next _ u M); try done. rewrite En. unfold u, updated_edge.
    by destruct (Slices.reasserted a) as [[[hi hl] hp]|].
Qed.
Lemma close_head_renames {X} (o : option VersionId) c :
  renames rho (fun u => u) (close_head (X := X) o c) (close_head (rho <$> o) c).
Proof. destruct o; simpl; [by apply close_renames|by apply renames_ret]. Qed.

Lemma delete_node_sim (n : NodeId) i vf pr c d d' r next next' x :
  wrote_nodes (close_and_add n c (add n i vf c (n_label x) tt (n_properties x) true pr)) tt (delete n) d d' ->
  nodes (graph d) !! n = Some x -> alive (nh d) n ->
  matches c d r next -> 0 <= next -> numbered rho next [Logged i] next' ->
  exists r', delete_node it ptr_eq map_ptr_eq config pre_anchor_hooks n vf (Some i) pr c r = (r', Ok tt) /\ matches c d' r' next'.
Proof.
  intros ((s1 & u & Hc & Ha)%sm_bind_inv & Ee & En & Eg) Hx Hal M H0 N. pose proof (mt_next _ _ _ _ M) as Enext. rewrite <- Enext in H0, N.
  pose proof (logged_inv rho r i next' H0 N) as (Hr & Hi & _).
  eapply (renames_ok rho (fun u => u)) in Hc; [|by apply close_all_renames].
  eapply (renames_ok rho (fun u => u)) in Ha; [|by apply add_provenance_renames]. rewrite Hr in Ha.
  set (r2 := set_node_history (ren (nh d')) (set_next next' (set_node_history (ren s1) r))).
  exists (set_indexes (CurIdx.remove_node it n (CurStore.indexes (current r2))).1 r2). split.
  - pose proof (get_node_matches c d r next n _ M Hx) as Hg. unfold delete_node. unfold get, mbind at 1, sm_bind at 1. cbv beta zeta. rewrite Hg.
    eapply sm_bind_run; [|apply remove_node_ok; exact Hg].
    eapply (close_history_ok it config rho (@on_nodes) node_history set_node_history (@on_nodes_ok)); [done|done|by intros []|done|exact (mt_nh _ _ _ _ M)|exact Hal|exact H0|exact N| |exact Ha].
    destruct (alive_head _ _ Hal) as (h & Hh & _). rewrite Hh. exact Hc.
  - apply (matches_remove_node c d d' r _ next _ n M); done.
Qed.
Lemma retract_node_sim (n : NodeId) i vt pr c d d' r next next' x :
  wrote_nodes (close_and_retract n c (fun vf => add_retracted n i vf vt c (n_label x) tt (n_properties x) pr)) tt (delete n) d d' ->
  nodes (graph d) !! n = Some x -> alive (nh d) n ->
  matches c d r next -> 0 <= next -> numbered rho next [Logged i] next' ->
  exists r', retract_node it ptr_eq map_ptr_eq config pre_anchor_hooks n vt (Some i) pr c r = (r', Ok tt) /\ matches c d' r' next'.
Proof.
  intros ((s1 & u & Hc & Ha)%sm_bind_inv & Ee & En & Eg) Hx Hal M H0 N. pose proof (mt_next _ _ _ _ M) as Enext. rewrite <- Enext in H0, N.
  pose proof (logged_inv rho r i next' H0 N) as (Hr & Hi & _).
  eapply (renames_ok rho (fun u => u)) in Hc; [|by apply close_head_renames].
  eapply (renames_ok rho (fun u => u)) in Ha; [|by apply add_retracted_renames]. rewrite Hr in Ha.
  set (r2 := set_node_history (ren (nh d')) (set_next next' (set_node_history (ren s1) r))).
  exists (set_indexes (CurIdx.remove_node it n (CurStore.indexes (current r2))).1 r2). split.
  - pose proof (get_node_matches c d r next n _ M Hx) as Hg. unfold retract_node. unfold get, mbind at 1, sm_bind at 1. cbv beta zeta. rewrite Hg.
    eapply sm_bind_run; [|apply remove_node_ok; exact Hg].
    eapply (close_history_ok it config rho (@on_nodes) node_history set_node_history (@on_nodes_ok)); [done|done|by intros []|done|exact (mt_nh _ _ _ _ M)|exact Hal|exact H0|exact N|exact Hc|exact Ha].
  - apply (matches_remove_node c d d' r _ next _ n M); done.
Qed.

Lemma delete_edge_sim (e : EdgeId) i vf pr c d d' r next next' x :
  wrote_edges (close_and_add e c (add e i vf c (e_label x) (e_source x, e_target x) (e_properties x) true pr)) tt (delete e) d d' ->
  edges (graph d) !! e = Some x -> alive (eh d) e ->
  matches c d r next -> 0 <= next -> numbered rho next [Logged i] next' ->
  exists r', delete_edge it ptr_eq map_ptr_eq config pre_anchor_hooks e vf (Some i) pr c r = (r', Ok tt) /\ matches c d' r' next'.
Proof.
  intros ((s1 & u & Hc & Ha)%sm_bind_inv & Ee & En & Eg) Hx Hal M H0 N. pose proof (mt_next _ _ _ _ M) as Enext. rewrite <- Enext in H0, N.
  pose proof (logged_inv rho r i next' H0 N) as (Hr & Hi & _).
  eapply (renames_ok rho (fun u => u)) in Hc; [|by apply close_all_renames].
  eapply (renames_ok rho (fun u => u)) in Ha; [|by apply add_provenance_renames]. rewrite Hr in Ha.
  set (r2 := set_edge_history (ren (eh d')) (set_next next' (set_edge_history (ren s1) r))).
  exists (set_indexes (CurIdx.remove_edge it e (CurStore.indexes (current r2))).1 r2). split.
  - pose proof (get_edge_matches c d r next e _ M Hx) as Hg. unfold delete_edge. unfold get, mbind at 1, sm_bind at 1. cbv beta zeta. rewrite Hg.
    eapply sm_bind_run; [|apply remove_edge_ok; exact Hg].
    eapply (close_history_ok it config rho (@on_edges) edge_history set_edge_history (@on_edges_ok)); [done|done|by intros []|done|exact (mt_eh _ _ _ _ M)|exact Hal|exact H0|exact N| |exact Ha].
    destruct (alive_head _ _ Hal) as (h & Hh & _). rewrite Hh. exact Hc.
  - apply (matches_remove_edge c d d' r _ next _ e M); done.
Qed.
Lemma retract_edge_sim (e : EdgeId) i vt pr c d d' r next next' x :
  wrote_edges (close_and_retract e c (fun vf => add_retracted e i vf vt c (e_label x) (e_source x, e_target x) (e_properties x) pr)) tt (delete e) d d' ->
  edges (graph d) !! e = Some x -> alive (eh d) e ->
  matches c d r next -> 0 <= next -> numbered rho next [Logged i] next' ->
  exists r', retract_edge it ptr_eq map_ptr_eq config pre_anchor_hooks e vt (Some i) pr c r = (r', Ok tt) /\ matches c d' r' next'.
Proof.
  intros ((s1 & u & Hc & Ha)%sm_bind_inv & Ee & En & Eg) Hx Hal M H0 N. pose proof (mt_next _ _ _ _ M) as Enext. rewrite <- Enext in H0, N.
  pose proof (logged_inv rho r i next' H0 N) as (Hr & Hi & _).
  eapply (renames_ok rho (fun u => u)) in Hc; [|by apply close_head_renames].
  eapply (renames_ok rho (fun u => u)) in Ha; [|by apply add_retracted_renames]. rewrite Hr in Ha.
  set (r2 := set_edge_history (ren (eh d')) (set_next next' (set_edge_history (ren s1) r))).
  exists (set_indexes (CurIdx.remove_edge it e (CurStore.indexes (current r2))).1 r2). split.
  - pose proof (get_edge_matches c d r next e _ M Hx) as Hg. unfold retract_edge. unfold get, mbind at 1, sm_bind at 1. cbv beta zeta. rewrite Hg.
    eapply sm_bind_run; [|apply remove_edge_ok; exact Hg].
    eapply (close_history_ok it config rho (@on_edges) edge_history set_edge_history (@on_edges_ok)); [done|done|by intros []|done|exact (mt_eh _ _ _ _ M)|exact Hal|exact H0|exact N|exact Hc|exact Ha].
  - apply (matches_remove_edge c d d' r _ next _ e M); done.
Qed.

(** *** Any write *)
Definition sound_db (seen : list VersionId) (d : Db.Db) : Prop := sound seen (nh d) (nodes (graph d)) /\ sound seen (eh d) (edges (graph d)).
Abbreviation fresh seen evs := (forall v, v ∈ List.map event_id evs -> v ∉ seen).

Lemma structural_event_ids {A} (o : option A) g oid :
  match o with Some _ => exists i, oid = Some i /\ Id.structural g = Ok i | None => oid = None end ->
  List.map event_id (structural_event o g).1 = option_list oid.
Proof. destruct o; simpl; [|by intros ->]. intros (i & -> & Hi). unfold tagged. by rewrite Hi. Qed.
Lemma structural_ids plan g o1 o2 g' : minted g o1 o2 plan g' ->
  List.map event_id (structural_events plan g) = option_list o1 ++ option_list o2.
Proof.
  intros (g1 & M1 & M2). unfold structural_events. pose proof (structural_event_ids (Slices.carry_from plan) g o1) as E1.
  pose proof (structural_event_ids (Slices.reassert plan) g1 o2) as E2.
  assert (g1 = (structural_event (Slices.carry_from plan) g).2) as -> by (destruct (Slices.carry_from plan); naive_solver).
  destruct (structural_event (Slices.carry_from plan) g) as [es g1]. simpl in *. rewrite map_app. f_equal.
  - apply E1. destruct (Slices.carry_from plan); naive_solver.
  - apply E2. destruct (Slices.reassert plan); naive_solver.
Qed.
Lemma sound_nodes {A} (m : SM _ Error A) a f seen ids d d' :
  wrote_nodes m a f d d' -> sound (seen ++ ids) (nh d') (f (nodes (graph d))) -> sound_db seen d -> sound_db (seen ++ ids) d'.
Proof. intros (_ & Ee & En & Eg) S [_ S2]. split; [by rewrite En|rewrite Ee, Eg]. eapply sound_weaken; [exact S2|set_solver]. Qed.
Lemma sound_edges {A} (m : SM _ Error A) a f seen ids d d' :
  wrote_edges m a f d d' -> sound (seen ++ ids) (eh d') (f (edges (graph d))) -> sound_db seen d -> sound_db (seen ++ ids) d'.
Proof. intros (_ & Ee & En & Eg) S [S1 _]. split; [rewrite Ee, Eg|by rewrite En]. eapply sound_weaken; [exact S1|set_solver]. Qed.
Lemma fresh_version {X A} seen (s : History.Store X) (m : gmap Z A) v : sound seen s m -> v ∉ seen -> History.versions s !! v = None.
Proof. intros [_ _ Hk] Hv. apply eq_None_not_Some. intros Hs. by apply Hv, Hk. Qed.

Lemma write_sound t w c ids d d' ids' seen :
  Commit.apply_single_write it ptr_eq map_ptr_eq config pre_anchor_hooks t w c ids d = (d', Ok ids') ->
  regular w d = true -> sound_db seen d -> fresh seen (write_events w ids d) ->
  sound_db (seen ++ List.map event_id (write_events w ids d)) d'.
Proof.
  intros Hw Hreg S F. pose proof S as [S1 S2]. destruct w; simpl in Hreg; repeat (apply andb_true_iff in Hreg as [Hreg ?]);
    repeat match goal with Hb : bool_decide _ = true |- _ => apply bool_decide_eq_true_1 in Hb end.
  - apply create_node_live in Hw as (Hw & _ & _). eapply sound_nodes; [exact Hw| |done]. destruct Hw as (Ha & _).
    eapply create_sound; [exact S1|apply F; by left|by apply ts_ltb_lt|exact Ha].
  - apply create_edge_live in Hw as (Hw & _ & _). eapply sound_edges; [exact Hw| |done]. destruct Hw as (Ha & _).
    eapply create_sound; [exact S2|apply F; by left|by apply ts_ltb_lt|exact Ha].
  - apply update_node_live in Hw as (o1 & o2 & a & Hm & _ & Hw). simpl in F |- *. rewrite (structural_ids _ _ _ _ _ Hm) in F |- *.
    eapply sound_nodes; [exact Hw| |done]. destruct Hw as (Ha & _). eapply update_sound; [exact S1|done|exact F|by apply ts_ltb_lt|exact Ha].
  - apply update_edge_live in Hw as (o1 & o2 & a & Hm & _ & Hw). simpl in F |- *. rewrite (structural_ids _ _ _ _ _ Hm) in F |- *.
    eapply sound_edges; [exact Hw| |done]. destruct Hw as (Ha & _).
    eapply update_sound; [exact S2|by eapply fmap_is_Some, mk_is_Some|exact F|by apply ts_ltb_lt|exact Ha].
  - apply delete_node_live in Hw as (x & i & Hx & -> & _ & Hw). eapply sound_nodes; [exact Hw| |done]. destruct Hw as (Ha & _).
    eapply delete_sound; [exact S1|apply F; by left|exact Ha].
  - apply delete_edge_live in Hw as (x & i & Hx & -> & _ & Hw). eapply sound_edges; [exact Hw| |done]. destruct Hw as (Ha & _).
    eapply delete_sound; [exact S2|apply F; by left|exact Ha].
  - apply retract_node_live in Hw as (x & i & Hx & -> & _ & Hw). eapply sound_nodes; [exact Hw| |done]. destruct Hw as (Ha & _).
    eapply retract_sound; [exact S1|apply F; by left|exact Ha].
  - apply retract_edge_live in Hw as (x & i & Hx & -> & _ & Hw). eapply sound_edges; [exact Hw| |done]. destruct Hw as (Ha & _).
    eapply retract_sound; [exact S2|apply F; by left|exact Ha].
Qed.

Lemma write_sim t w c ids d d' ids' seen r next next' :
  Commit.apply_single_write it ptr_eq map_ptr_eq config pre_anchor_hooks t w c ids d = (d', Ok ids') ->
  regular w d = true -> sound_db seen d -> fresh seen (write_events w ids d) ->
  matches c d r next -> 0 <= next -> numbered rho next (write_events w ids d) next' ->
  exists r', replay_operation it ptr_eq map_ptr_eq config pre_anchor_hooks (logged_operation w ids) c r = (r', Ok tt) /\ matches c d' r' next'.
Proof.
  intros Hw Hreg [S1 S2] F M H0 N. destruct w; simpl in Hreg; repeat (apply andb_true_iff in Hreg as [Hreg ?]);
    repeat match goal with Hb : bool_decide _ = true |- _ => apply bool_decide_eq_true_1 in Hb end.
  - apply create_node_live in Hw as (Hw & _ & _). by eapply create_node_sim.
  - apply create_edge_live in Hw as (Hw & _ & _). by eapply create_edge_sim.
  - apply update_node_live in Hw as (o1 & o2 & a & Hm & _ & Hw). eapply update_node_sim; try done. eapply fresh_version; [exact S1|apply F; by left].
  - apply update_edge_live in Hw as (o1 & o2 & a & Hm & _ & Hw).
    match goal with E : _ <$> _ = Some _ |- _ => apply fmap_Some in E as (z & Hz & [= -> ->]) end.
    eapply update_edge_sim; try done. eapply fresh_version; [exact S2|apply F; by left].
  - apply delete_node_live in Hw as (x & i & Hx & -> & _ & Hw). eapply delete_node_sim; try done. apply S1. by exists x.
  - apply delete_edge_live in Hw as (x & i & Hx & -> & _ & Hw). eapply delete_edge_sim; try done. apply S2. by exists x.
  - apply retract_node_live in Hw as (x & i & Hx & -> & _ & Hw). eapply retract_node_sim; try done. apply S1. by exists x.
  - apply retract_edge_live in Hw as (x & i & Hx & -> & _ & Hw). eapply retract_edge_sim; try done. apply S2. by exists x.
Qed.
Lemma write_stamped t w c ids d d' ids' ws :
  Commit.apply_single_write it ptr_eq map_ptr_eq config pre_anchor_hooks t w c ids d = (d', Ok ids') ->
  TxLog.stamp_ops (w :: ws) ids = logged_operation w ids :: TxLog.stamp_ops ws ids'.
Proof.
  destruct w; intros Hw; simpl.
  - by apply create_node_live in Hw as (_ & _ & ->).
  - by apply create_edge_live in Hw as (_ & _ & ->).
  - by apply update_node_live in Hw as (o1 & o2 & a & _ & -> & _).
  - by apply update_edge_live in Hw as (o1 & o2 & a & _ & -> & _).
  - by apply delete_node_live in Hw as (x & i & _ & -> & _ & _).
  - by apply delete_edge_live in Hw as (x & i & _ & -> & _ & _).
  - by apply retract_node_live in Hw as (x & i & _ & -> & _ & _).
  - by apply retract_edge_live in Hw as (x & i & _ & -> & _ & _).
Qed.

(** *** The writes of a transaction *)
Abbreviation apply_writes := (Commit.apply_writes it ptr_eq map_ptr_eq config pre_anchor_hooks).
Abbreviation events := (batch_events it ptr_eq map_ptr_eq config pre_anchor_hooks).
Abbreviation regular_writes := (all_regular it ptr_eq map_ptr_eq config pre_anchor_hooks).
Abbreviation replay := (replay_operations it ptr_eq map_ptr_eq config pre_anchor_hooks).

Lemma replay_app l1 l2 r r1 r2 : replay l1 r = (r1, Ok tt) -> replay l2 r1 = (r2, Ok tt) -> replay (l1 ++ l2) r = (r2, Ok tt).
Proof.
  revert r. induction l1 as [|[op c] l1 IH]; intros r; simpl; [by intros [= ->]|].
  intros (r' & u & H1 & H2)%sm_bind_inv H3. eapply sm_bind_run; [exact H1|]. by apply IH.
Qed.
Lemma writes_sim t c ws : forall ids d d' seen r next next',
  let evs := events t ws c ids d in
  apply_writes t ws c ids d = (d', Ok tt) -> regular_writes t ws c ids d = true ->
  sound_db seen d -> NoDup (List.map event_id evs) -> fresh seen evs ->
  matches c d r next -> 0 <= next -> numbered rho next evs next' ->
  sound_db (seen ++ List.map event_id evs) d' /\
  exists r', replay (frame_effect (TxLog.stamp_ops ws ids) c) r = (r', Ok tt) /\ matches c d' r' next'.
Proof.
  induction ws as [|w ws IH]; intros ids d d' seen r next next' evs; subst evs; cbn [Commit.apply_writes batch_events all_regular].
  { intros [-> _]%ret_inv _ S _ _ M _ ->%numbered_nil. simpl. rewrite app_nil_r. split; [done|]. by exists r. }
  intros (d1 & ids1 & Hw & Hws)%sm_bind_inv Hreg S Hnd F M H0 N. rewrite Hw in Hreg, Hnd, F, N |- *. apply andb_true_iff in Hreg as [Hr Hrs].
  rewrite map_app in Hnd, F |- *. apply NoDup_app in Hnd as (_ & Hdis & Hnd). apply numbered_app in N as (n1 & N1 & N2).
  assert (F1 : fresh seen (write_events w ids d)) by (intros v Hv; apply F; set_solver).
  destruct (write_sim t w c ids d d1 ids1 seen r next n1 Hw Hr S F1 M H0 N1) as (r1 & R1 & M1).
  pose proof (write_sound t w c ids d d1 ids1 seen Hw Hr S F1) as S1.
  destruct (IH ids1 d1 d' (seen ++ List.map event_id (write_events w ids d)) r1 n1 next' Hws Hrs S1 Hnd) as (S2 & r2 & R2 & M2); try done.
  - intros v Hv [Hs|Hs]%elem_of_app; [|by destruct (Hdis v)]. revert Hs. apply F. set_solver.
  - apply numbered_le in N1; [lia|done].
  - rewrite (write_stamped _ _ _ _ _ _ _ ws Hw), app_assoc. split; [done|]. exists r2. split; [|done].
    simpl. eapply sm_bind_run; [exact R1|exact R2].
Qed.

(** *** The commit timestamp, set when all are applied *)
Import GraphSpec.
Definition stamped (d : Db.Db) : Prop :=
  (forall n x, nodes (graph d) !! n = Some x -> is_Some (commit_timestamp (n_metadata x))) /\
  (forall e x, edges (graph d) !! e = Some x -> is_Some (commit_timestamp (e_metadata x))).

(** An entity the transaction did not touch, or wrote and then stamped. *)
Definition stamped_after {A} (meta : A -> option HybridTimestamp) (stamp : A -> A) (x0 x1 x2 : option A) : Prop :=
  x2 = x1 /\ (x1 = x0 \/ x1 = None) \/ x2 = stamp <$> x1 /\ forall y, x1 = Some y -> meta y = None.
Lemma node_stamped t c g ws os (k : NodeId) : Forall2 (written t) ws os ->
  stamped_after (fun x => commit_timestamp (n_metadata x)) (stamp_node c) (g_nodes g !! k) (g_nodes (run_spec g os) !! k)
    (g_nodes (run_spec (run_spec g os) (omap (stamp_of c) ws)) !! k).
Proof.
  intros Hos. pose proof (last_left g_nodes node_id node_left t (fun g w o k => node_step g t w o k) g ws os k Hos) as Hl.
  destruct (stamps_left g_nodes node_id (stamp_node c) (fun k => StampNode k c) c (node_stamp c) ltac:(done) (run_spec g os) ws k) as [[Hr Hw]|[Hr Hw]].
  - left. split; [exact Hr|]. destruct (last_write node_id k ws) as [w|] eqn:El; [right|by left].
    apply last_write_in in El as [Hin Hk]. specialize (Hw w Hin). destruct Hl as (o & Ho & E). etrans; [exact E|]. destruct Ho; simplify_eq/=; done.
  - right. split; [exact Hr|]. destruct (last_write node_id k ws) as [w|] eqn:El; [|done].
    destruct Hl as (o & Ho & E). intros y Hy. assert (El' : node_left o = Some y) by (etrans; [symmetry; exact E|exact Hy]). destruct Ho; simplify_eq/=; done.
Qed.
Lemma edge_stamped t c g ws os (k : EdgeId) : Forall2 (written t) ws os ->
  stamped_after (fun x => commit_timestamp (e_metadata x)) (stamp_edge c) (g_edges g !! k) (g_edges (run_spec g os) !! k)
    (g_edges (run_spec (run_spec g os) (omap (stamp_of c) ws)) !! k).
Proof.
  intros Hos. pose proof (last_left g_edges edge_key edge_left t (fun g w o k => edge_step g t w o k) g ws os k Hos) as Hl.
  destruct (stamps_left g_edges edge_key (stamp_edge c) (fun k => StampEdge k c) c (edge_stamp c) ltac:(done) (run_spec g os) ws k) as [[Hr Hw]|[Hr Hw]].
  - left. split; [exact Hr|]. destruct (last_write edge_key k ws) as [w|] eqn:El; [right|by left].
    apply last_write_in in El as [Hin Hk]. specialize (Hw w Hin). destruct Hl as (o & Ho & E). etrans; [exact E|]. unfold edge_key in Hk. destruct Ho; simplify_eq/=; done.
  - right. split; [exact Hr|]. destruct (last_write edge_key k ws) as [w|] eqn:El; [|done].
    destruct Hl as (o & Ho & E). intros y Hy. assert (El' : edge_left o = Some y) by (etrans; [symmetry; exact E|exact Hy]). destruct Ho; simplify_eq/=; done.
Qed.
Lemma finalize_maps t c ids d0 d1 d2 :
  apply_writes t (operations (Tx.buffer t)) c ids d0 = (d1, Ok tt) -> finalize_current_commit_timestamps t c d1 = (d2, Ok tt) ->
  (forall n, stamped_after (fun x => commit_timestamp (n_metadata x)) (stamp_node c) (nodes (graph d0) !! n) (nodes (graph d1) !! n) (nodes (graph d2) !! n)) /\
  (forall e, stamped_after (fun x => commit_timestamp (e_metadata x)) (stamp_edge c) (edges (graph d0) !! e) (edges (graph d1) !! e) (edges (graph d2) !! e)).
Proof.
  intros Ha Hf. apply (writes_written it (fun l => l)) in Ha as (os & Hos & Hr). apply (finalize_run it (fun l => l)) in Hf.
  set (g0 := mkGraph (nodes (graph d0)) (edges (graph d0)) ∅ ∅).
  pose proof (run_maps it (fun l => l) os g0 _ _ ltac:(done) Hr) as [En1 Ee1].
  pose proof (run_maps it (fun l => l) _ _ _ _ ltac:(done) Hf) as [En2 Ee2]. split.
  - intros n. rewrite En2, En1. change (nodes (graph d0)) with (g_nodes g0). by apply (node_stamped t).
  - intros e. rewrite Ee2, Ee1. change (edges (graph d0)) with (g_edges g0). by apply (edge_stamped t).
Qed.

Lemma stamped_ren {A B} (meta : A -> option HybridTimestamp) (stamp : A -> A) (f : HybridTimestamp -> A -> B) c c' x0 x1 x2 :
  stamped_after meta stamp x0 x1 x2 -> (forall y, x0 = Some y -> is_Some (meta y)) -> (forall y, meta (stamp y) = Some c) ->
  (forall y, is_Some (meta y) -> f c y = f c' y) -> (forall y, meta y = None -> f c y = f c' (stamp y)) ->
  f c <$> x1 = f c' <$> x2 /\ forall y, x2 = Some y -> is_Some (meta y).
Proof.
  intros [[-> [-> | ->]]|[-> Hn]] H0 Hm Hs Hf.
  - split; [|done]. destruct x0 as [y|]; [|done]. simpl. by rewrite Hs by (by apply H0).
  - done.
  - split; [destruct x1 as [y|]; [|done]; simpl; by rewrite Hf by (by apply Hn)|]. intros y (z & Hz & ->)%fmap_Some. rewrite Hm. by eexists.
Qed.
Lemma ren_node_stamped c c' x : is_Some (commit_timestamp (n_metadata x)) -> ren_node c x = ren_node c' x.
Proof. unfold ren_node. by intros [t ->]. Qed.
Lemma ren_edge_stamped c c' x : is_Some (commit_timestamp (e_metadata x)) -> ren_edge c x = ren_edge c' x.
Proof. unfold ren_edge. by intros [t ->]. Qed.

Lemma finalize_matches t c c' ids d0 d1 d2 r next :
  apply_writes t (operations (Tx.buffer t)) c ids d0 = (d1, Ok tt) -> finalize_current_commit_timestamps t c d1 = (d2, Ok tt) ->
  stamped d0 -> matches c d1 r next -> matches c' d2 r next /\ stamped d2 /\ nh d2 = nh d1 /\ eh d2 = eh d1.
Proof.
  intros Ha Hf [T1 T2] [M1 M2 M3 M4 M5]. destruct (finalize_maps t c ids d0 d1 d2 Ha Hf) as [F1 F2].
  assert (Hh : nh d2 = nh d1 /\ eh d2 = eh d1) by (by unfold finalize_current_commit_timestamps in Hf; apply on_current_rest in Hf as (? & ? & _)). destruct Hh as [Hn He].
  assert (N : forall n, ren_node c <$> nodes (graph d1) !! n = ren_node c' <$> nodes (graph d2) !! n /\
                forall y, nodes (graph d2) !! n = Some y -> is_Some (commit_timestamp (n_metadata y))).
  { intros n. eapply stamped_ren; [exact (F1 n)|apply T1|done|by apply ren_node_stamped|]. intros y Hy. unfold ren_node. simpl. by rewrite Hy. }
  assert (E : forall n, ren_edge c <$> edges (graph d1) !! n = ren_edge c' <$> edges (graph d2) !! n /\
                forall y, edges (graph d2) !! n = Some y -> is_Some (commit_timestamp (e_metadata y))).
  { intros n. eapply stamped_ren; [exact (F2 n)|apply T2|done|by apply ren_edge_stamped|]. intros y Hy. unfold ren_edge. simpl. by rewrite Hy. }
  split; [|split; [split; [apply N|apply E]|done]]. split; [| |by rewrite Hn|by rewrite He|done].
  - rewrite M1. apply map_eq. intros n. etrans; [apply lookup_fmap|]. etrans; [apply (N n)|]. symmetry. apply lookup_fmap.
  - rewrite M2. apply map_eq. intros n. etrans; [apply lookup_fmap|]. etrans; [apply (E n)|]. symmetry. apply lookup_fmap.
Qed.
Lemma sound_present {X A} seen (s : History.Store X) (m m' : gmap Z A) :
  sound seen s m -> (forall e, is_Some (m' !! e) -> is_Some (m !! e)) -> sound seen s m'.
Proof. intros [S1 S2 S3] Hm. split; [done| |done]. intros e He. by apply S2, Hm. Qed.
Lemma stamped_present {A} (meta : A -> option HybridTimestamp) stamp x0 x1 x2 : stamped_after meta stamp x0 x1 x2 -> is_Some x2 -> is_Some x1.
Proof. intros [[-> _]|[-> _]]; [done|]. apply fmap_is_Some. Qed.
Lemma finalize_sound t c ids d0 d1 d2 seen :
  apply_writes t (operations (Tx.buffer t)) c ids d0 = (d1, Ok tt) -> finalize_current_commit_timestamps t c d1 = (d2, Ok tt) ->
  sound_db seen d1 -> sound_db seen d2.
Proof.
  intros Ha Hf [S1 S2]. destruct (finalize_maps t c ids d0 d1 d2 Ha Hf) as [F1 F2].
  unfold finalize_current_commit_timestamps in Hf. apply on_current_rest in Hf as (Hn & He & _). unfold sound_db. rewrite Hn, He.
  split; (eapply sound_present; [eassumption|]); intros k; eapply stamped_present; [apply F1|apply F2].
Qed.
End Simulation.

(** ** Runs of commits *)
Section Runs.
Import Commit WriteBuf Graph CurIdx Replay.
Context {St : Type} `{Interner St}.
Context (it : St) (crc32 : bytes -> Z) (ptr_eq : PropertyValue -> PropertyValue -> bool) (map_ptr_eq : PropMap.PropertyMap -> PropMap.PropertyMap -> bool).
Context (config : History.Config) (pre_anchor_hooks : Z -> HybridTimestamp -> PropMap.PropertyMap -> option Z).
Abbreviation nh := Db.node_history.
Abbreviation eh := Db.edge_history.
Abbreviation locked := (locked it crc32 ptr_eq map_ptr_eq config pre_anchor_hooks).
Abbreviation replay := (replay_operations it ptr_eq map_ptr_eq config pre_anchor_hooks).

(** What runs under the commit lock, up to the log and from there. *)
Definition log_phase (t : Tx.WriteTransaction) (env : Environment) (ids : list VersionId) : Commit.M HybridTimestamp :=
  commit ← advance_clock env; _ ← guards it t commit; _ ← log_operations it crc32 t env commit ids; mret commit.
Definition store_phase (t : Tx.WriteTransaction) (commit : HybridTimestamp) (ids : list VersionId) : Commit.M unit :=
  _ ← apply_changes it ptr_eq map_ptr_eq config pre_anchor_hooks t commit ids; finalize_current_commit_timestamps t commit.
Lemma log_stores t env ids d d1 c : log_phase t env ids d = (d1, Ok c) -> same_stores d d1.
Proof.
  unfold log_phase. intros (d2 & c2 & Ha & (d3 & u & Hg & (d4 & [] & Hl & [-> ->]%ret_inv)%sm_bind_inv)%sm_bind_inv)%sm_bind_inv.
  pose proof (advance_current env d) as S1. rewrite Ha in S1. pose proof (guards_same it t c2 d2) as S2. rewrite Hg in S2. simpl in S1, S2. subst d3.
  pose proof (log_current it crc32 t env c2 ids d2) as S3. rewrite Hl in S3. simpl in S3. etrans; [exact S1|exact S3].
Qed.
Lemma locked_phases t env ids d d1 d' c c' : locked t env ids d = (d', Ok c) -> log_phase t env ids d = (d1, Ok c') ->
  c' = c /\ store_phase t c ids d1 = (d', Ok tt).
Proof.
  unfold Commit.locked, log_phase. intros (d2 & c2 & Ha & (d3 & [] & Hg & (d4 & [] & Hl & Hs)%sm_bind_inv)%sm_bind_inv)%sm_bind_inv Hlog.
  rewrite (sm_bind_run _ _ _ _ _ _ _ Ha (sm_bind_run _ _ _ _ _ _ _ Hg (sm_bind_run _ _ _ _ _ _ _ Hl eq_refl))) in Hlog. injection Hlog as <- <-.
  apply sm_bind_inv in Hs as (d5 & [] & Hap & (d6 & [] & Hf & [-> ->]%ret_inv)%sm_bind_inv). split; [done|]. by eapply sm_bind_run.
Qed.

(** A database as a sequence of commits left it, with their frames in the log and the
    version ids they used.  Between two commits anything may happen that leaves the
    stores alone: transactions begin, buffer, are checked, fail, abort. *)
Inductive committed_run : list item -> list Event -> Db.Db -> Prop :=
  | run_empty i max_versions : committed_run [] [] (Db.empty i max_versions)
  | run_commit items evs d d0 d1 d2 t env ids c base now :
      let ws := operations (Tx.buffer t) in
      committed_run items evs d -> same_stores d d0 ->
      locked t env ids d0 = (d2, Ok c) -> log_phase t env ids d0 = (d1, Ok c) ->
      all_regular it ptr_eq map_ptr_eq config pre_anchor_hooks t ws c ids d1 = true ->
      committed_run (items ++ [Txn base now (Tx.tx_id t) ws c ids (length ws + 2)])
        (evs ++ batch_events it ptr_eq map_ptr_eq config pre_anchor_hooks t ws c ids d1) d2.

(** The recovered database against the live one: every node and edge, in every version,
    under renamed versions and written by the recovery transaction; every point-in-time
    read the same. *)
Definition recovered_node (rho : VersionId -> VersionId) (x : Node) : Node :=
  mkNode (n_id x) (n_label x) (n_properties x) (rho (n_current_version x)) (mkMeta RECOVERY_TX_ID (commit_timestamp (n_metadata x))).
Definition recovered_edge (rho : VersionId -> VersionId) (x : Edge) : Edge :=
  mkEdge (e_id x) (e_label x) (e_source x) (e_target x) (e_properties x) (rho (e_current_version x)) (mkMeta RECOVERY_TX_ID (commit_timestamp (e_metadata x))).
Record rebuilt (rho : VersionId -> VersionId) (d : Db.Db) (r : Recovered) : Prop := {
  rb_nodes : nodes (CurStore.indexes (current r)) = recovered_node rho <$> nodes (graph d);
  rb_edges : edges (CurStore.indexes (current r)) = recovered_edge rho <$> edges (graph d);
  rb_node_history : node_history r = ren_store rho (nh d);
  rb_edge_history : edge_history r = ren_store rho (eh d);
  rb_read_node : forall n vt tt, same_out (ren_read rho) (History.get_node_at_time it config n vt tt (nh d)).2
                                   (History.get_node_at_time it config n vt tt (node_history r)).2;
  rb_read_edge : forall e vt tt, same_out (ren_read rho) (History.get_edge_at_time it config e vt tt (eh d)).2
                                   (History.get_edge_at_time it config e vt tt (edge_history r)).2 }.

Lemma matches_rebuilt rho `{!Inj (=) (=) rho} (rho_tag : forall v, Id.is_structural (rho v) = Id.is_structural v) d r next c :
  matches rho c d r next -> stamped d -> rebuilt rho d r.
Proof.
  intros [M1 M2 M3 M4 M5] [T1 T2]. split; [| |done|done| |].
  - rewrite M1. apply map_fmap_ext. intros n x Hx. unfold ren_node, recovered_node, meta_new. by destruct (T1 n x Hx) as [s ->].
  - rewrite M2. apply map_fmap_ext. intros n x Hx. unfold ren_edge, recovered_edge, meta_new. by destruct (T2 n x Hx) as [s ->].
  - intros n vt tt. rewrite M3. apply (entity_at_time_renames rho it config (EStorage (NodeNotFound n)) n vt tt (nh d)).
  - intros e vt tt. rewrite M4. apply (entity_at_time_renames rho it config (EStorage (EdgeNotFound e)) e vt tt (eh d)).
Qed.
Lemma stores_same d d0 : same_stores d d0 -> graph d0 = graph d /\ nh d0 = nh d /\ eh d0 = eh d.
Proof. intros (Hc & -> & -> & _). split; [|done]. unfold graph. by rewrite Hc. Qed.
Lemma matches_stores rho c d d0 r next : graph d0 = graph d /\ nh d0 = nh d /\ eh d0 = eh d -> matches rho c d r next -> matches rho c d0 r next.
Proof. intros (Hg & Hn & He) [M1 M2 M3 M4 M5]. split; by rewrite ?Hg, ?Hn, ?He. Qed.

Lemma run_sim rho `{!Inj (=) (=) rho} (rho_tag : forall v, Id.is_structural (rho v) = Id.is_structural v) i items evs d :
  committed_run items evs d -> NoDup (List.map event_id evs) -> forall n, numbered rho 0 evs n ->
  sound_db (List.map event_id evs) d /\ stamped d /\ 0 <= n /\
  exists r, replay (log_effect items) (start (CurStore.new i) (History.empty_store unit) (History.empty_store (NodeId * NodeId)) 0) = (r, Ok tt) /\
    forall c, matches rho c d r n.
Proof.
  induction 1 as [i0 mx|items evs d d0 d1 d2 t env ids c base now ws Hrun IH Hs Hl Hlog Hreg]; intros Hnd n N.
  { apply numbered_nil in N as ->. split; [split; apply sound_empty|]. split; [split; intros k x; simpl; by rewrite lookup_empty|]. split; [done|].
    eexists. split; [done|]. intros c. split; simpl; by rewrite ?fmap_empty, ?ren_empty. }
  rewrite map_app in Hnd |- *. apply NoDup_app in Hnd as (Hn1 & Hdis & Hn2). apply numbered_app in N as (n1 & N1 & N2).
  destruct (IH Hn1 n1 N1) as (S & T & H0 & r & R & M).
  apply log_stores in Hlog as Hs1. destruct (locked_phases _ _ _ _ _ _ _ _ Hl Hlog) as [_ Hst].
  apply sm_bind_inv in Hst as (d3 & [] & Ha%apply_changes_writes & Hf).
  assert (E : graph d1 = graph d /\ nh d1 = nh d /\ eh d1 = eh d) by (apply stores_same; etrans; [exact Hs|exact Hs1]).
  assert (S1 : sound_db (List.map event_id evs) d1) by (unfold sound_db; destruct E as (-> & -> & ->); done).
  assert (T1 : stamped d1) by (unfold stamped; destruct E as (-> & _); done).
  destruct (writes_sim it ptr_eq map_ptr_eq config pre_anchor_hooks rho rho_tag t c ws ids d1 d3 _ r n1 n Ha Hreg S1 Hn2) as (S3 & r3 & R3 & M3); try done.
  { intros v Hv Hv'. by apply (Hdis v). } { by eapply matches_stores. }
  assert (Hfin : forall c', matches rho c' d2 r3 n /\ stamped d2 /\ nh d2 = nh d3 /\ eh d2 = eh d3)
    by (intros c'; by eapply (finalize_matches it ptr_eq map_ptr_eq config pre_anchor_hooks rho t c)).
  assert (T2 : stamped d2) by (by destruct (Hfin c) as (_ & ? & _)).
  split; [by eapply finalize_sound|split; [done|split; [apply numbered_le in N2; [lia|done]|]]].
  exists r3. split; [|by intros c'; apply Hfin]. unfold log_effect. rewrite map_app, concat_app. eapply replay_app; [exact R|].
  simpl. rewrite Nat.ltb_irrefl, app_nil_r. exact R3.
Qed.

End Runs.
