(* ===== verification/ReplayAgain.v ===== *)
(** * Replaying an operation again

    A snapshot may hold the effect of an operation that the log still has: replay applies
    it to a state in which it is applied already.  Applied again at once, an operation
    changes nothing. *)

From S2P Require Import Prelude.
From S2P Require Import SliceOps.
From S2P Require Import Bytes.
From S2P Require Import Errors.
From S2P Require Import Hlc.
From S2P Require Import Temporal.
From S2P Require Import Ids.
From S2P Require Import Interning.
From S2P Require Import Property.
From S2P Require Import PropMap.
From S2P Require Import Namespaces.
From S2P Require Import Provenance.
From S2P Require Import Delta.
From S2P Require Import History.
From S2P Require Import Slices.
From S2P Require Import HistoryFacts.
From S2P Require Import Beliefs.
From S2P Require Import Wal.
From S2P Require Import CurrentIndex.
From S2P Require Import CurrentStore.
From S2P Require Import CommitEffect.
From S2P Require Import Replay.
From S2P Require Import HistoryHeads.
From S2P Require Import ReplayLive.
From S2P Require Import ReplayLaws.

(** ** The latest version *)
Section Latest.
Import PropMap Prov Delta History Slices.
Context {St : Type} `{Interner St} {X : Type}.
Context (it : St) (ptr_eq : PropertyValue -> PropertyValue -> bool) (map_ptr_eq : PropertyMap -> PropertyMap -> bool).
Context (config : Config) (pre_anchor_hooks : Z -> HybridTimestamp -> PropertyMap -> option Z).
Implicit Types (s : Store X).
Abbreviation reconstruct := (History.reconstruct it config).
Abbreviation add := (add_version_with_interval it ptr_eq map_ptr_eq config pre_anchor_hooks).

Record latest s (e : Z) (vid : VersionId) (t : BiTemporalInterval) (l : Z) (p : PropertyMap) : Prop := {
  la_head : version_heads s !! e = Some vid;
  la_version : exists w, versions s !! vid = Some w /\ temporal w = t /\ label w = l;
  la_cache : property_cache s !! vid = Some p }.
Definition keeps s s' : Prop := forall i, is_Some (versions s !! i) -> is_Some (versions s' !! i).
Lemma keeps_insert s s' vid v : versions s' = <[vid := v]> (versions s) -> keeps s s'.
Proof. intros E i Hi. rewrite E. destruct (decide (i = vid)) as [->|]; [by rewrite lookup_insert_eq|by rewrite lookup_insert_ne]. Qed.
Lemma link_keeps e vid t prev s : keeps s (link_previous e vid t prev s).1.
Proof.
  unfold link_previous. destruct prev as [p|]; [|by intros ?]. destruct (versions s !! p) as [v|]; [|by intros ?].
  destruct (close_previous_version_intervals v vid t) as [v' r]. destruct (track_spec pre_anchor_hooks e p (set_versions (<[p := v']> (versions s)) s)) as (T & _ & _).
  destruct r; cbn [fst]; apply (keeps_insert s _ p v'); [by rewrite T|done..].
Qed.
Lemma reconstruct_versions vid s : versions (reconstruct vid s).1 = versions s.
Proof. by destruct (reconstruct_state it config vid s) as [->|(p & _ & ->)]. Qed.
Lemma create_versions e vid t l en p prev s : versions (create_version it ptr_eq map_ptr_eq config e vid t l en p prev s).1 = versions s.
Proof.
  unfold create_version. destruct prev as [q|]; [|done]. destruct (versions s !! q); [|done]. case_goal; [done|].
  pose proof (reconstruct_versions q s) as Hr. unfold mbind, sm_bind. by destruct (reconstruct q s) as [s1 [a|er|]].
Qed.
Lemma add_latest e vid t l en p prov s s' u : add e vid t l en p prov s = (s', Ok u) -> latest s' e vid t l p /\ keeps s s'.
Proof.
  unfold add_version_with_interval. case_goal; [done|]. unfold mbind, sm_bind.
  destruct (create_version _ _ _ _ _ _ _ _ _ _ _ _) as [s1 [v|er|]] eqn:Ec; [|done..].
  pose proof (create_versions e vid t l en p (version_heads s !! e) s) as Ev. rewrite Ec in Ev. simpl in Ev.
  apply create_fields in Ec as (_ & _ & E3 & E4 & _).
  pose proof (run_hooks_fields pre_anchor_hooks s1 t p (with_provenance prov v)) as (_ & _ & F3 & F4 & _).
  set (v1 := run_hooks _ _ _ _ _) in *.
  pose proof (link_keeps e vid t (version_heads s !! e) s1) as K. destruct (link_previous e vid t (version_heads s !! e) s1) as [s2 [u2|er|]]; [|done..].
  intros [= <- <-]. split.
  - split; simpl; rewrite ?lookup_insert_eq; [done| |done]. exists v1. split; [done|]. split; [rewrite F3; exact E3|rewrite F4; exact E4].
  - intros i Hi. rewrite <- Ev in Hi. apply K in Hi. by apply (keeps_insert s2 (store_version e vid v1 p s2) vid v1).
Qed.

(** What an update leaves: its version, and at the head either that one or the old head
    asserted again. *)
Lemma update_latest e plan vf c vid l en p pr o1 o2 s s' a :
  apply_update it ptr_eq map_ptr_eq config pre_anchor_hooks e plan vf c vid l en p pr o1 o2 s = (s', Ok a) ->
  is_Some (versions s' !! vid) /\
  match reasserted a with
  | Some (h, hl, hp) => o2 = Some h /\ exists from, latest s' e h (mkInterval (mkRange from TIMESTAMP_MAX) (mkRange c TIMESTAMP_MAX)) hl hp
  | None => version_heads s' !! e = Some vid
  end.
Proof.
  unfold apply_update. intros Hu.
  apply sm_bind_inv in Hu as (s0 & s00 & [= <- <-] & Hu). apply sm_bind_inv in Hu as (s1 & [] & [= <- _] & Hu).
  apply sm_bind_inv in Hu as (s2 & carry & Hc & Hu). apply sm_bind_inv in Hu as (s3 & re & Hr & Hu).
  apply sm_bind_inv in Hu as (s4 & s44 & [= <- <-] & Hu). apply sm_bind_inv in Hu as (s5 & [] & Hcl & Hu).
  apply sm_bind_inv in Hu as (s6 & a1 & H1 & Hu). apply sm_bind_inv in Hu as (s7 & a2 & H2 & Hu).
  apply sm_bind_inv in Hu as (s8 & [a3 r] & H3 & [= <- <-]). simpl.
  unfold append_new in H2. apply sm_bind_inv in H2 as (s9 & t & [= <- Ht] & H2). apply sm_bind_inv in H2 as (s10 & t2 & [= <- Ht2] & H2).
  apply sm_bind_inv in H2 as (s11 & u & Ha%add_latest & [= <- _]). destruct Ha as [[L1 (w & Hw & _) L3] _].
  unfold append_reassert in H3. destruct re as [[[[[h from] hl] hp] hpr]|]; [|injection H3 as <- _ <-; split; [by exists w|done]].
  apply sm_bind_inv in H3 as (s12 & t3 & [= <- Ht3] & H3). apply sm_bind_inv in H3 as (s13 & u3 & Hb%add_latest & [= <- _ <-]).
  destruct Hb as [L K]. split; [apply K; by exists w|]. split.
  - by apply (gather_reassert_id it config) in Hr.
  - exists from. apply temporal_err_ok, with_valid_time_ok in Ht3 as ->. done.
Qed.
Lemma reconstruct_again vid s s' p : reconstruct vid s = (s', Ok p) -> reconstruct vid s' = (s', Ok p) /\
  versions s' = versions s /\ version_heads s' = version_heads s.
Proof.
  intros Hr. assert (Hp : property_cache s' !! vid = Some p /\ versions s' = versions s /\ version_heads s' = version_heads s).
  { revert Hr. unfold History.reconstruct. destruct (property_cache s !! vid) as [q|] eqn:E; [by intros [= <- <-]|].
    destruct (anchor_cache s !! vid); [intros [= <- <-]; simpl; by rewrite lookup_insert_eq|].
    destruct (reconstruct_iterative it config s vid); [|done..]. intros [= <- <-]; simpl; by rewrite lookup_insert_eq. }
  destruct Hp as (Hp & Ev & Eh). split; [|done]. unfold History.reconstruct. by rewrite Hp.
Qed.
End Latest.

(** ** An operation, again *)
Section Again.
Import Graph CurIdx Replay.
Context {St : Type} `{Interner St}.
Context (it : St) (ptr_eq : PropertyValue -> PropertyValue -> bool) (map_ptr_eq : PropMap.PropertyMap -> PropMap.PropertyMap -> bool).
Context (config : History.Config) (pre_anchor_hooks : Z -> HybridTimestamp -> PropMap.PropertyMap -> option Z).
Abbreviation replay_operation := (replay_operation it ptr_eq map_ptr_eq config pre_anchor_hooks).
Abbreviation graph_of r := (CurStore.indexes (current r)).

(** Nothing is changed but the counters. *)
Record settled (r r' : Recovered) : Prop := {
  st_nodes : nodes (graph_of r') = nodes (graph_of r);
  st_edges : edges (graph_of r') = edges (graph_of r);
  st_node_history : node_history r' = node_history r;
  st_edge_history : edge_history r' = edge_history r }.
Lemma settled_refl r : settled r r.
Proof. done. Qed.

Lemma live_of_head {X} (s : History.Store X) e i : head_state s e = Some i ->
  live_head s e = if Range.is_current (valid_time i) then History.version_heads s !! e else None.
Proof.
  unfold head_state, live_head, valid_open. destruct (History.version_heads s !! e) as [h|]; [|done]. simpl.
  destruct (History.versions s !! h) as [w|]; [|done]. simpl. by intros [= ->].
Qed.
Lemma head_is_some {X} (s : History.Store X) e i : head_state s e = Some i -> is_Some (History.version_heads s !! e).
Proof. unfold head_state. destruct (History.version_heads s !! e); [by eexists|done]. Qed.
Lemma forever_current a : Range.is_current (mkRange a TIMESTAMP_MAX) = true.
Proof. by apply (ts_eqb_eq TIMESTAMP_MAX). Qed.
Lemma until_current a b : b <> TIMESTAMP_MAX -> Range.is_current (mkRange a b) = false.
Proof. intros Hb. unfold Range.is_current. simpl. destruct (ts_eqb b TIMESTAMP_MAX) eqn:E; [|done]. by apply ts_eqb_eq in E. Qed.

Abbreviation add := (History.add_version_with_provenance it ptr_eq map_ptr_eq config pre_anchor_hooks).
Abbreviation add_retracted := (History.add_retracted_version_with_provenance it ptr_eq map_ptr_eq config pre_anchor_hooks).
Lemma created_live {X} e vid vf c l (en : X) p pr s s' u : add e vid vf c l en p false pr s = (s', Ok u) -> is_Some (live_head s' e).
Proof.
  intros Ha. apply (add_provenance_touches it ptr_eq map_ptr_eq config pre_anchor_hooks e [vid]) in Ha as [_ Hh]; [|by left].
  rewrite (live_of_head _ _ _ Hh). cbn [valid_time]. rewrite forever_current. by eapply head_is_some.
Qed.
Lemma deleted_live {X} e vid vf c l (en : X) p pr s s' u : vf <> TIMESTAMP_MAX -> add e vid vf c l en p true pr s = (s', Ok u) -> live_head s' e = None.
Proof.
  intros Hvf Ha. apply (add_provenance_touches it ptr_eq map_ptr_eq config pre_anchor_hooks e [vid]) in Ha as [_ Hh]; [|by left].
  rewrite (live_of_head _ _ _ Hh). cbn [valid_time]. by rewrite until_current.
Qed.
Lemma retracted_live {X} e vid vf vt c l (en : X) p pr s s' u : vt <> TIMESTAMP_MAX -> add_retracted e vid vf vt c l en p pr s = (s', Ok u) -> live_head s' e = None.
Proof.
  intros Hvf Ha. apply (add_retracted_touches it ptr_eq map_ptr_eq config pre_anchor_hooks e [vid]) in Ha as [_ Hh]; [|by left].
  rewrite (live_of_head _ _ _ Hh). cbn [valid_time]. by rewrite until_current.
Qed.

Lemma nodes_ran {A} (m : SM _ Error A) r r' a : on_nodes m r = (r', Ok a) -> exists h, m (node_history r) = (h, Ok a) /\ r' = set_node_history h r.
Proof. unfold on_nodes. destruct (m (node_history r)) as [h o]. intros [= <- ->]. by exists h. Qed.
Lemma edges_ran {A} (m : SM _ Error A) r r' a : on_edges m r = (r', Ok a) -> exists h, m (edge_history r) = (h, Ok a) /\ r' = set_edge_history h r.
Proof. unfold on_edges. destruct (m (edge_history r)) as [h o]. intros [= <- ->]. by exists h. Qed.

Lemma node_inserted (x : Node) r r' u o : o = get_node (n_id x) (graph_of r) ->
  match o with None => on_current (CurStore.insert_node_direct it x) | Some _ => mret tt end r = (r', Ok u) ->
  is_Some (get_node (n_id x) (graph_of r')) /\ node_history r' = node_history r.
Proof.
  intros ->. destruct (get_node (n_id x) (graph_of r)) as [y|] eqn:E; [intros [= <- _]; by rewrite E|]. intros [= <- _]. simpl.
  split; [|done]. unfold get_node. destruct (insert_node_maps it x (graph_of r)) as [I1 I2].
  rewrite I1. exists x. apply lookup_insert_eq.
Qed.
Lemma edge_inserted (x : Edge) r r' u o : o = get_edge (e_id x) (graph_of r) ->
  match o with None => on_current (CurStore.insert_edge_direct it x) | Some _ => mret tt end r = (r', Ok u) ->
  is_Some (get_edge (e_id x) (graph_of r')) /\ edge_history r' = edge_history r.
Proof.
  intros ->. destruct (get_edge (e_id x) (graph_of r)) as [y|] eqn:E; [intros [= <- _]; by rewrite E|]. intros [= <- _]. simpl.
  split; [|done]. unfold get_edge. destruct (insert_edge_maps it x (graph_of r)) as [I1 I2].
  rewrite I2. exists x. apply lookup_insert_eq.
Qed.

Lemma version_chosen (o : option VersionId) r r' v : match o with Some v => mret v | None => synthesize end r = (r', Ok v) -> r' = r.
Proof. destruct o; [by intros [-> _]%ret_inv|]. unfold synthesize. by intros (r0 & ? & [= <- <-] & [-> _]%lift_inv)%sm_bind_inv. Qed.
Lemma create_node_done n l p vf pr c r r1 : create_node it ptr_eq map_ptr_eq config pre_anchor_hooks n l p vf pr c r = (r1, Ok tt) ->
  is_Some (get_node n (graph_of r1)) /\ is_Some (live_head (node_history r1) n).
Proof.
  unfold create_node. intros (r0 & u & [= <- <-] & (r00 & ? & [= <- <-] & Hm)%sm_bind_inv)%sm_bind_inv. cbv zeta in Hm.
  set (r0 := set_max_node _ r) in *.
  enough (forall o live, o = get_node n (graph_of r0) -> live = live_head (node_history r0) n ->
    (v ← match created_version (node_history r0) n (n_current_version <$> o) with Some v => mret v | None => synthesize end;
     _ ← bump v;
     _ ← match o with None => on_current (CurStore.insert_node_direct it (mkNode n l p v (meta_new RECOVERY_TX_ID c))) | Some _ => mret tt end;
     match live with
     | None => _ ← on_nodes (close_head (History.version_heads (node_history r0) !! n) c); on_nodes (add n v vf c l tt p false pr)
     | Some _ => mret tt
     end) r0 = (r1, Ok tt) -> is_Some (get_node n (graph_of r1)) /\ is_Some (live_head (node_history r1) n)) as Hgo.
  { destruct (get_node n (graph_of r0)) as [x|] eqn:En; destruct (live_head (node_history r0) n) as [h|] eqn:El; [|by apply (Hgo _ _ eq_refl eq_refl)..].
    injection Hm as <-. by rewrite En, El. }
  clear Hm. intros o live Ho Hl (r2 & v & ->%version_chosen & (r3 & [] & [= <-] & (r4 & [] & Hi & Hm)%sm_bind_inv)%sm_bind_inv)%sm_bind_inv.
  apply (node_inserted (mkNode n l p v (meta_new RECOVERY_TX_ID c)) _ _ _ o) in Hi as [Hp Hh]; [|exact Ho]. destruct live as [h|].
  - injection Hm as <-. split; [exact Hp|]. exists h. etrans; [|symmetry; exact Hl]. by rewrite Hh.
  - apply sm_bind_inv in Hm as (r5 & [] & (h5 & _ & ->)%nodes_ran & (h6 & Ha & ->)%nodes_ran). split; [exact Hp|]. by eapply created_live.
Qed.
Lemma create_edge_done e x y l p vf pr c r r1 : create_edge it ptr_eq map_ptr_eq config pre_anchor_hooks e x y l p vf pr c r = (r1, Ok tt) ->
  is_Some (get_edge e (graph_of r1)) /\ is_Some (live_head (edge_history r1) e).
Proof.
  unfold create_edge. intros (r0 & u & [= <- <-] & (r00 & ? & [= <- <-] & Hm)%sm_bind_inv)%sm_bind_inv. cbv zeta in Hm.
  set (r0 := set_max_edge _ r) in *.
  enough (forall o live, o = get_edge e (graph_of r0) -> live = live_head (edge_history r0) e ->
    (v ← match created_version (edge_history r0) e (e_current_version <$> o) with Some v => mret v | None => synthesize end;
     _ ← bump v;
     _ ← match o with None => on_current (CurStore.insert_edge_direct it (mkEdge e l x y p v (meta_new RECOVERY_TX_ID c))) | Some _ => mret tt end;
     match live with
     | None => _ ← on_edges (close_head (History.version_heads (edge_history r0) !! e) c); on_edges (add e v vf c l (x, y) p false pr)
     | Some _ => mret tt
     end) r0 = (r1, Ok tt) -> is_Some (get_edge e (graph_of r1)) /\ is_Some (live_head (edge_history r1) e)) as Hgo.
  { destruct (get_edge e (graph_of r0)) as [z|] eqn:En; destruct (live_head (edge_history r0) e) as [h|] eqn:El; [|by apply (Hgo _ _ eq_refl eq_refl)..].
    injection Hm as <-. by rewrite En, El. }
  clear Hm. intros o live Ho Hl (r2 & v & ->%version_chosen & (r3 & [] & [= <-] & (r4 & [] & Hi & Hm)%sm_bind_inv)%sm_bind_inv)%sm_bind_inv.
  apply (edge_inserted (mkEdge e l x y p v (meta_new RECOVERY_TX_ID c)) _ _ _ o) in Hi as [Hp Hh]; [|exact Ho]. destruct live as [h|].
  - injection Hm as <-. split; [exact Hp|]. exists h. etrans; [|symmetry; exact Hl]. by rewrite Hh.
  - apply sm_bind_inv in Hm as (r5 & [] & (h5 & _ & ->)%edges_ran & (h6 & Ha & ->)%edges_ran). split; [exact Hp|]. by eapply created_live.
Qed.
Lemma create_node_again n l p vf pr c r r1 : create_node it ptr_eq map_ptr_eq config pre_anchor_hooks n l p vf pr c r = (r1, Ok tt) ->
  exists r2, create_node it ptr_eq map_ptr_eq config pre_anchor_hooks n l p vf pr c r1 = (r2, Ok tt) /\ settled r1 r2.
Proof.
  intros [[z Hz] [h Hh]]%create_node_done. exists (set_max_node (maximum (max_node_id r1) n) r1). split; [|done].
  unfold create_node. eapply sm_bind_run; [done|]. unfold get, mbind at 1, sm_bind at 1. cbv zeta. cbn [current node_history set_max_node]. by rewrite Hz, Hh.
Qed.
Lemma create_edge_again e x y l p vf pr c r r1 : create_edge it ptr_eq map_ptr_eq config pre_anchor_hooks e x y l p vf pr c r = (r1, Ok tt) ->
  exists r2, create_edge it ptr_eq map_ptr_eq config pre_anchor_hooks e x y l p vf pr c r1 = (r2, Ok tt) /\ settled r1 r2.
Proof.
  intros [[z Hz] [h Hh]]%create_edge_done. exists (set_max_edge (maximum (max_edge_id r1) e) r1). split; [|done].
  unfold create_edge. eapply sm_bind_run; [done|]. unfold get, mbind at 1, sm_bind at 1. cbv zeta. cbn [current edge_history set_max_edge]. by rewrite Hz, Hh.
Qed.

(** *** Closings *)
Section On.
Context {X : Type} (on : forall A, SM (History.Store X) Error A -> M A) (view : Recovered -> History.Store X) (put : History.Store X -> Recovered -> Recovered).
Arguments on {A}.
Hypothesis on_inv : forall A (m : SM (History.Store X) Error A) r r' a, on m r = (r', Ok a) -> exists h, m (view r) = (h, Ok a) /\ r' = put h r.
Hypothesis on_ok : forall A (m : SM (History.Store X) Error A) r h a, m (view r) = (h, Ok a) -> on m r = (put h r, Ok a).
Hypothesis view_put : forall h r, view (put h r) = h.
Hypothesis put_current : forall h r, current (put h r) = current r.
Hypothesis put_view : forall r, put (view r) r = r.
Hypothesis next_current : forall n r, current (set_next n r) = current r.

Lemma closing_none (e : Z) p (s s' : History.Store X) : closing_payload it config e p s = (s', Ok None) -> s' = s /\ live_head s e = None.
Proof.
  unfold closing_payload. destruct p as [p|], (live_head s e) as [h|] eqn:El; [done|by intros [= <- _]| |by intros [= <-]].
  destruct (History.versions s !! h) as [w|] eqn:Ew; [by intros (s1 & q & _ & [_ ?]%ret_inv)%sm_bind_inv|]. exfalso.
  revert El. unfold live_head. destruct (History.version_heads s !! e) as [h'|]; [|done].
  unfold valid_open. case_match; [|done]. case_match; [|done]. congruence.
Qed.

Lemma close_history_done (e : Z) p logged append close c r r1 :
  (forall vid vf q s s', append vid vf q s = (s', Ok tt) -> live_head s' e = None) ->
  close_history it config (@on) view e p logged append close c r = (r1, Ok tt) ->
  live_head (view r1) e = None /\ current r1 = current r.
Proof.
  unfold close_history. intros Happ (r0 & ? & [= <- <-] & (r2 & o & (h & Hc & ->)%on_inv & Hm)%sm_bind_inv)%sm_bind_inv.
  destruct o as [q|].
  - cbv zeta in Hm. apply sm_bind_inv in Hm as (r3 & [] & (h3 & _ & ->)%on_inv & (r4 & vid & Hv & (h5 & Ha & ->)%on_inv)%sm_bind_inv).
    split; [rewrite view_put; by eapply Happ|]. rewrite put_current.
    unfold logged_or_synthesized in Hv. apply sm_bind_inv in Hv as (r5 & v & E & (r6 & [] & [= <-] & [-> _]%ret_inv)%sm_bind_inv).
    apply version_chosen in E as ->. rewrite next_current, !put_current. done.
  - apply ret_inv in Hm as [-> _]. apply closing_none in Hc as [-> El]. rewrite view_put, put_current. done.
Qed.
Lemma close_history_idle (e : Z) logged append close c r : live_head (view r) e = None ->
  close_history it config (@on) view e None logged append close c r = (r, Ok tt).
Proof.
  intros El. unfold close_history. apply (sm_bind_run _ _ r r r r tt); [done|].
  apply (sm_bind_run _ _ r (put (view r) r) r None tt); [|by rewrite put_view].
  apply on_ok. unfold closing_payload. by rewrite El.
Qed.
End On.

Lemma node_removed n r r' u : remove_node it n (get_node n (graph_of r)) r = (r', Ok u) -> get_node n (graph_of r') = None /\ node_history r' = node_history r.
Proof.
  destruct (get_node n (graph_of r)) as [x|] eqn:E; [|by intros [= <- _]]. rewrite (remove_node_ok it n r x E). intros [= <- _]. simpl.
  split; [|done]. unfold get_node. rewrite (proj1 (remove_node_maps it n (graph_of r))). apply lookup_delete_eq.
Qed.
Lemma edge_removed n r r' u : remove_edge it n (get_edge n (graph_of r)) r = (r', Ok u) -> get_edge n (graph_of r') = None /\ edge_history r' = edge_history r.
Proof.
  destruct (get_edge n (graph_of r)) as [x|] eqn:E; [|by intros [= <- _]]. rewrite (remove_edge_ok it n r x E). intros [= <- _]. simpl.
  split; [|done]. unfold get_edge. rewrite (proj2 (remove_edge_maps it n (graph_of r))). apply lookup_delete_eq.
Qed.

(** A closing that went through leaves nothing to close. *)
Lemma close_node_again (n : NodeId) logged append close c r r1 :
  (forall vid vf q s s', append vid vf q s = (s', Ok tt) -> live_head s' n = None) ->
  let closing := fun r : Recovered =>
    (r0 ← get;
     let node := get_node n (graph_of r0) in
     _ ← close_history it config (@on_nodes) node_history n (payload_of_node <$> node) logged append close c;
     remove_node it n node) r in
  closing r = (r1, Ok tt) -> exists r2, closing r1 = (r2, Ok tt) /\ settled r1 r2.
Proof.
  intros Ha closing (r0 & ? & [= <- <-] & (r2 & [] & Hc & Hr)%sm_bind_inv)%sm_bind_inv.
  apply (close_history_done (@on_nodes) node_history set_node_history (@nodes_ran)) in Hc as [El Ec]; [|done..].
  rewrite <- Ec in Hr. apply node_removed in Hr as [En Eh]. rewrite <- Eh in El. exists r1. split; [|apply settled_refl].
  unfold closing. eapply sm_bind_run; [done|]. cbv zeta. rewrite En. eapply sm_bind_run; [|done].
  apply (close_history_idle (@on_nodes) node_history set_node_history (@on_nodes_ok)); [by intros []|exact El].
Qed.
Lemma close_edge_again (e : EdgeId) logged append close c r r1 :
  (forall vid vf q s s', append vid vf q s = (s', Ok tt) -> live_head s' e = None) ->
  let closing := fun r : Recovered =>
    (r0 ← get;
     let edge := get_edge e (graph_of r0) in
     _ ← close_history it config (@on_edges) edge_history e (payload_of_edge <$> edge) logged append close c;
     remove_edge it e edge) r in
  closing r = (r1, Ok tt) -> exists r2, closing r1 = (r2, Ok tt) /\ settled r1 r2.
Proof.
  intros Ha closing (r0 & ? & [= <- <-] & (r2 & [] & Hc & Hr)%sm_bind_inv)%sm_bind_inv.
  apply (close_history_done (@on_edges) edge_history set_edge_history (@edges_ran)) in Hc as [El Ec]; [|done..].
  rewrite <- Ec in Hr. apply edge_removed in Hr as [En Eh]. rewrite <- Eh in El. exists r1. split; [|apply settled_refl].
  unfold closing. eapply sm_bind_run; [done|]. cbv zeta. rewrite En. eapply sm_bind_run; [|done].
  apply (close_history_idle (@on_edges) edge_history set_edge_history (@on_edges_ok)); [by intros []|exact El].
Qed.

(** *** Updates *)
Lemma minted_structural r r' i : mint_structural_version_id r = (r', Ok i) -> Id.is_structural i = true.
Proof.
  unfold mint_structural_version_id. intros (r0 & ? & [= <- <-] & (r2 & v & [_ Hv%map_err_ok]%lift_inv & (r3 & [] & _ & [_ ->]%ret_inv)%sm_bind_inv)%sm_bind_inv)%sm_bind_inv.
  revert Hv. unfold Id.structural, Id.new_version. case_match; [done|]. intros [= <-]. rewrite Ids.is_structural_testbit, Z.lor_spec. apply orb_true_r.
Qed.
Lemma minted_if {A} (o : option A) r r' i : mint_if o r = (r', Ok (Some i)) -> Id.is_structural i = true.
Proof. unfold mint_if. destruct o; [|done]. by intros (r1 & v & Hm%minted_structural & [= _ <-])%sm_bind_inv. Qed.

(** What an update reads of the history, once it holds the version. *)
Lemma structural_head_again {X} e (s s' : History.Store X) o : live_structural_head it config e s = (s', Ok o) ->
  live_structural_head it config e s' = (s', Ok o) /\ History.versions s' = History.versions s.
Proof.
  unfold live_structural_head. destruct (History.version_heads s !! e) as [h|] eqn:Eh; [|intros [= <- <-]; by rewrite Eh].
  destruct (History.versions s !! h) as [w|] eqn:Ew; [|intros [= <- <-]; by rewrite Eh, Ew].
  destruct (_ && _) eqn:Eb; [|intros [= <- <-]; by rewrite Eh, Ew, Eb].
  intros (s1 & q & Hr & [= <- <-])%sm_bind_inv. apply reconstruct_again in Hr as (Hr & Ev & Ehd). rewrite Ehd, Eh, Ev, Ew, Eb.
  split; [|done]. by apply (sm_bind_run _ _ _ _ _ _ _ Hr).
Qed.
Lemma latest_again {X} e (s : History.Store X) h a c l p : Id.is_structural h = true ->
  latest s e h (mkInterval (mkRange a TIMESTAMP_MAX) (mkRange c TIMESTAMP_MAX)) l p ->
  live_structural_head it config e s = (s, Ok (Some (h, l, p))).
Proof.
  intros Hs [Lh (w & Lw & Et & El) Lc]. unfold live_structural_head. rewrite Lh, Lw, Hs, Et.
  change (BiTemporal.is_current _) with true. cbn [andb]. eapply sm_bind_run; [unfold History.reconstruct; by rewrite Lc|by rewrite El].
Qed.

Section OnUpdate.
Context {X : Type} (on : forall A, SM (History.Store X) Error A -> M A) (view : Recovered -> History.Store X) (put : History.Store X -> Recovered -> Recovered).
Arguments on {A}.
Hypothesis on_inv : forall A (m : SM (History.Store X) Error A) r r' a, on m r = (r', Ok a) -> exists h, m (view r) = (h, Ok a) /\ r' = put h r.
Hypothesis on_ok : forall A (m : SM (History.Store X) Error A) r h a, m (view r) = (h, Ok a) -> on m r = (put h r, Ok a).
Hypothesis view_put : forall h r, view (put h r) = h.
Hypothesis put_view : forall r, put (view r) r = r.

Lemma update_history_again (e : Z) v l en p vf pr c r r1 o : Id.is_structural v = false ->
  update_history it ptr_eq map_ptr_eq config pre_anchor_hooks (@on) view e v l en p vf pr c r = (r1, Ok o) ->
  is_Some (History.versions (view r1) !! v) /\ live_structural_head it config e (view r1) = (view r1, Ok o).
Proof.
  intros Hv. unfold update_history. intros (r0 & ? & [= <- <-] & Hm)%sm_bind_inv. destruct (History.versions (view r) !! v) as [w|] eqn:Ew.
  - apply on_inv in Hm as (h & [Hm Ev]%structural_head_again & ->). rewrite view_put, Ev, Ew. split; [by eexists|done].
  - cbv zeta in Hm. apply sm_bind_inv in Hm as (r2 & o1 & _ & (r3 & o2 & Ho & (r4 & a & (h & Hu%update_latest & ->)%on_inv & [-> ->]%ret_inv)%sm_bind_inv)%sm_bind_inv).
    rewrite view_put. destruct Hu as [Hp Hu]. split; [done|]. destruct (Slices.reasserted a) as [[[h' hl] hp]|].
    + destruct Hu as (-> & from & L). eapply latest_again; [by eapply minted_if|exact L].
    + destruct Hp as [w Hw]. unfold live_structural_head. by rewrite Hu, Hw, Hv.
Qed.
Lemma update_history_idle (e : Z) v l en p vf pr c r o : is_Some (History.versions (view r) !! v) ->
  live_structural_head it config e (view r) = (view r, Ok o) ->
  update_history it ptr_eq map_ptr_eq config pre_anchor_hooks (@on) view e v l en p vf pr c r = (r, Ok o).
Proof.
  intros [w Hw] Hm. unfold update_history. apply (sm_bind_run _ _ r r r r o); [done|]. rewrite Hw.
  rewrite <- (put_view r) at 2. by apply on_ok.
Qed.
End OnUpdate.

(** What an update writes to the current storage. *)
Definition updated_node (o : option (VersionId * Z * PropMap.PropertyMap)) n l p v c : Node :=
  match o with Some (h, hl, hp) => mkNode n hl hp h (meta_new RECOVERY_TX_ID c) | None => mkNode n l p v (meta_new RECOVERY_TX_ID c) end.
Definition updated_edge (o : option (VersionId * Z * PropMap.PropertyMap)) e l x y p v c : Edge :=
  match o with Some (h, hl, hp) => mkEdge e hl x y hp h (meta_new RECOVERY_TX_ID c) | None => mkEdge e l x y p v (meta_new RECOVERY_TX_ID c) end.
Lemma updated_node_id o n l p v c : n_id (updated_node o n l p v c) = n.
Proof. by destruct o as [[[??]?]|]. Qed.
Lemma updated_edge_id o e l x y p v c : let z := updated_edge o e l x y p v c in e_id z = e /\ e_source z = x /\ e_target z = y.
Proof. by destruct o as [[[??]?]|]. Qed.

Lemma update_node_again n v l p vf pr c r r1 : Id.is_structural v = false ->
  update_node it ptr_eq map_ptr_eq config pre_anchor_hooks n v l p vf pr c r = (r1, Ok tt) ->
  exists r2, update_node it ptr_eq map_ptr_eq config pre_anchor_hooks n v l p vf pr c r1 = (r2, Ok tt) /\ settled r1 r2.
Proof.
  unfold update_node at 1. intros Hv (r2 & ? & [= <- _] & (r3 & o & Hu & Hi)%sm_bind_inv)%sm_bind_inv.
  apply (update_history_again (@on_nodes) node_history set_node_history (@nodes_ran)) in Hu as [Hp Hs]; [|done..].
  change (on_current (CurStore.insert_node_direct it (updated_node o n l p v c)) r3 = (r1, Ok tt)) in Hi. pose proof (updated_node_id o n l p v c) as Hx.
  set (y := updated_node o n l p v c) in *. rewrite insert_node_ok in Hi. injection Hi as <-.
  set (r1 := set_indexes _ r3). set (r4 := set_next (Id.bump_next_version_id (next_version_id r1) v) r1).
  exists (set_indexes (CurIdx.insert_node it y (graph_of r4)) r4). split.
  - unfold update_node. apply (sm_bind_run _ _ _ r4 _ tt); [done|]. apply (sm_bind_run _ _ _ r4 _ o); [|done].
    apply (update_history_idle (@on_nodes) node_history set_node_history (@on_nodes_ok)); [by intros []|exact Hp|exact Hs].
  - split; [| |done..]; simpl.
    + rewrite !(proj1 (insert_node_maps _ _ _)). by rewrite insert_insert_eq.
    + by rewrite !(proj2 (insert_node_maps _ _ _)).
Qed.
Lemma update_edge_again e v l p vf pr c r r1 : Id.is_structural v = false ->
  update_edge it ptr_eq map_ptr_eq config pre_anchor_hooks e v l p vf pr c r = (r1, Ok tt) ->
  exists r2, update_edge it ptr_eq map_ptr_eq config pre_anchor_hooks e v l p vf pr c r1 = (r2, Ok tt) /\ settled r1 r2.
Proof.
  unfold update_edge at 1. intros Hv (r2 & ? & [= <- _] & (r20 & ? & [= <- <-] & (r30 & z & [-> _]%lift_inv & (r3 & o & Hu & Hi)%sm_bind_inv)%sm_bind_inv)%sm_bind_inv)%sm_bind_inv.
  apply (update_history_again (@on_edges) edge_history set_edge_history (@edges_ran)) in Hu as [Hp Hs]; [|done..].
  change (on_current (CurStore.insert_edge_direct it (updated_edge o e l (e_source z) (e_target z) p v c)) r3 = (r1, Ok tt)) in Hi.
  pose proof (updated_edge_id o e l (e_source z) (e_target z) p v c) as (Hx & Hxs & Hxt).
  set (y := updated_edge o e l _ _ p v c) in *. rewrite insert_edge_ok in Hi. injection Hi as <-.
  set (r1 := set_indexes _ r3). set (r4 := set_next (Id.bump_next_version_id (next_version_id r1) v) r1).
  exists (set_indexes (CurIdx.insert_edge it y (graph_of r4)) r4). split.
  - unfold update_edge. apply (sm_bind_run _ _ _ r4 _ tt); [done|]. apply (sm_bind_run _ _ _ r4 _ r4); [done|].
    apply (sm_bind_run _ _ _ r4 _ y).
    { unfold lift. f_equal. unfold CurStore.get_edge, CurStore.found, get_edge. simpl. rewrite (proj2 (insert_edge_maps _ _ _)), Hx.
      change (insert e) with (insert (M := gmap EdgeId Edge) e). by rewrite lookup_insert_eq. }
    rewrite Hxs, Hxt. apply (sm_bind_run _ _ _ r4 _ o); [|done].
    apply (update_history_idle (@on_edges) edge_history set_edge_history (@on_edges_ok)); [by intros []|exact Hp|exact Hs].
  - split; [| |done..]; simpl.
    + by rewrite !(proj1 (insert_edge_maps _ _ _)).
    + rewrite !(proj2 (insert_edge_maps _ _ _)). by rewrite insert_insert_eq.
Qed.

(** What a commit logs: an update carries the id of its version, which is not structural,
    and a deletion or a retraction ends the validity. *)
Definition plain (op : Wal.WalOperation) : Prop :=
  match op with
  | Wal.UpdateNode _ v _ _ _ _ | Wal.UpdateEdge _ v _ _ _ _ => Id.is_structural v = false
  | Wal.DeleteNode _ t _ _ | Wal.DeleteEdge _ t _ _ | Wal.RetractNode _ t _ _ | Wal.RetractEdge _ t _ _ => t <> TIMESTAMP_MAX
  | _ => True
  end.

(** C3: an operation that was replayed changes nothing when it is replayed again at once,
    whatever the stores held before: it succeeds, and the nodes, the edges and both
    histories, the property caches included, stay as they are. *)
Theorem replay_boundary_idempotent op c r r1 : plain op -> replay_operation op c r = (r1, Ok tt) ->
  exists r2, replay_operation op c r1 = (r2, Ok tt) /\ settled r1 r2.
Proof.
  destruct op; simpl; intros Hp; try (intros [= <-]; by exists r).
  - apply create_node_again.
  - apply create_edge_again.
  - by apply update_node_again.
  - by apply update_edge_again.
  - apply close_node_again. intros vid t [[lb en] ps] s s'. by apply deleted_live.
  - apply close_edge_again. intros vid t [[lb en] ps] s s'. by apply deleted_live.
  - apply close_node_again. intros vid t [[lb en] ps] s s'. by apply retracted_live.
  - apply close_edge_again. intros vid t [[lb en] ps] s s'. by apply retracted_live.
Qed.
End Again.
