(* ===== verification/ReplayRuns.v ===== *)
(** * Runs of the replay

    Concrete logs, evaluated: where the replay does not rebuild what was committed, and a
    run at which the theorem that it does applies. *)

From S2P Require Import Prelude.
From S2P Require Import SliceOps.
From S2P Require Import Bytes.
From S2P Require Import Errors.
From S2P Require Import Hlc.
From S2P Require Import Temporal.
From S2P Require Import Ids.
From S2P Require Import Interning.
From S2P Require Import Property.
From S2P Require Import PropMap.
From S2P Require Import Namespaces.
From S2P Require Import Provenance.
From S2P Require Import Delta.
From S2P Require Import History.
From S2P Require Import Slices.
From S2P Require Import HistoryFacts.
From S2P Require Import Wal.
From S2P Require Import WalRead.
From S2P Require Import WalReplay.
From S2P Require Import TxFrames.
From S2P Require Import TemporalIndex.
From S2P Require Import Csr.
From S2P Require Import CurrentIndex.
From S2P Require Import CurrentLaws.
From S2P Require Import CurrentStore.
From S2P Require Import IndexedHistory.
From S2P Require Import Transactions.
From S2P Require Import Commit.
From S2P Require Import CommitLaws.
From S2P Require Import CommitEffect.
From S2P Require Import CommitRuns.
From S2P Require Import Replay.
From S2P Require Import Renaming.
From S2P Require Import HistoryHeads.
From S2P Require Import ReplayIds.
From S2P Require Import ReplayLive.
From S2P Require Import ReplaySteps.
From S2P Require Import ReplaySound.
From S2P Require Import ReplayLaws.
From S2P Require Import ReplayAgain.

Module ReplayRuns.
Import PropMap Commit Tx WriteBuf Graph CurIdx CommitRuns.

(** A transaction, committed at [w], and its frame in the log. *)
Definition commit_at (w : Z) (s : Session) : Db.Db := (commits (tx s) w (interner s) (db s)).1.
Definition committed_at (w : Z) (s : Session) : bool := match (commits (tx s) w (interner s) (db s)).2 with Ok c => bool_decide (c = us w) | _ => false end.
Definition frame_of (w : Z) (s : Session) : list item :=
  match prepare (tx s) (db s) with
  | (_, Ok ids) => let ws := operations (buffer (tx s)) in [Txn 0 [] (tx_id (tx s)) ws (us w) ids (length ws + 2)]
  | _ => []
  end.
Definition fresh_start : Replay.Recovered := Replay.start (CurStore.new Ns.interner_new) (History.empty_store unit) (History.empty_store (NodeId * NodeId)) 0.
Definition replayed (i : Interning.StringInterner) (items : list item) : Replay.Recovered * res Error unit :=
  Replay.replay_operations i no_ptr no_map_ptr History.default_config no_hooks (log_effect items) fresh_start.
(** The properties of a node at a point in both times. *)
Definition read_at (i : Interning.StringInterner) (h : History.Store unit) (n : NodeId) (w : Z) : option PropertyMap :=
  match (History.get_node_at_time i History.default_config n (us w) (us w) h).2 with Ok (_, _, p, _) => Some p | _ => None end.

(** One node; deleted, and another created, in one transaction; the other updated, or
    deleted. *)
Definition sa : Session := Eval vm_compute in then_ (create_node_with_options iter (us 1000) (lit "Person") pa default_options) (start 1 1000 i1 d0).
Definition e1 : Db.Db := Eval vm_compute in commit_at 2000 sa.
Definition sb : Session := Eval vm_compute in
  then_ (create_node_with_options iter (us 3000) (lit "Person") pa default_options)
    (then_ (delete_node_with_options (us 3000) 0 default_options) (start 2 3000 (interner sa) e1)).
Definition e2 : Db.Db := Eval vm_compute in commit_at 4000 sb.
Definition sc : Session := Eval vm_compute in then_ (update_node_with_options iter (us 5000) 1 pb default_options) (start 3 5000 (interner sb) e2).
Definition e3 : Db.Db := Eval vm_compute in commit_at 6000 sc.
Definition sd : Session := Eval vm_compute in then_ (delete_node_with_options (us 5000) 1 default_options) (start 3 5000 (interner sb) e2).
Definition e4 : Db.Db := Eval vm_compute in commit_at 6000 sd.
Definition se : Session := Eval vm_compute in then_ (delete_node_with_options (us 3000) 0 default_options) (start 2 3000 (interner sa) e1).
Definition closed_log : list item := Eval vm_compute in frame_of 2000 sa ++ frame_of 4000 se.
Definition updated_log : list item := Eval vm_compute in frame_of 2000 sa ++ frame_of 4000 sb ++ frame_of 6000 sc.
Definition deleted_log : list item := Eval vm_compute in frame_of 2000 sa ++ frame_of 4000 sb ++ frame_of 6000 sd.


(** If the other node is deleted instead, its tombstone takes the place of its creation:
    the history no longer knows that it existed. *)
Theorem replay_erases_creation :
  let r := (replayed (interner sd) deleted_log).1 in
  committed_at 6000 sd = true /\ (replayed (interner sd) deleted_log).2 = Ok tt /\
  read_at (interner sd) (Db.node_history e4) 1 5000 = Some pa /\ read_at (interner sd) (Replay.node_history r) 1 5000 = None.
Proof. vm_compute. split_and!; reflexivity. Qed.


(** ** A run that is rebuilt *)

(** Two persons and an edge; one person updated; the same updated for an earlier time, so
    that its head is asserted again, and the edge deleted; a third person. *)
Definition at_time (w : Z) : WriteRequestOptions := mkOptions (Some (us w)) None None.
Definition f1 : Db.Db := Eval vm_compute in (commits (tx s1) 2000 i1 (db s1)).1.
Definition s2 : Session := Eval vm_compute in then_ (update_node_with_options iter (us 3000) 0 pa default_options) (start 2 3000 i1 f1).
Definition f2 : Db.Db := Eval vm_compute in (commits (tx s2) 4000 i1 (db s2)).1.
Definition s3 : Session := Eval vm_compute in
  then_ (delete_edge_with_options (us 5000) 0 default_options)
    (then_ (update_node_with_options iter (us 5000) 0 pb (at_time 2500)) (start 3 5000 i1 f2)).
Definition f3 : Db.Db := Eval vm_compute in (commits (tx s3) 6000 i1 (db s3)).1.
Definition s4 : Session := Eval vm_compute in then_ (create_node_with_options iter (us 7000) (lit "Person") pa default_options) (start 4 7000 i1 f3).

Abbreviation run := (committed_run i1 crc0 no_ptr no_map_ptr History.default_config no_hooks).
(** What a commit adds to a run: its frame, from [base], and the versions it uses. *)
Definition prepared (s : Session) : Db.Db * list VersionId := match prepare (tx s) (db s) with (d, Ok ids) => (d, ids) | (d, _) => (d, []) end.
Definition run_item (base : Z) (w : Z) (s : Session) : item :=
  let ws := operations (buffer (tx s)) in Txn base (repeat (us w) (length ws + 2)) (tx_id (tx s)) ws (us w) (prepared s).2 (length ws + 2).
Definition run_events (w : Z) (s : Session) : list Event :=
  let '(d, ids) := prepared s in
  batch_events i1 no_ptr no_map_ptr History.default_config no_hooks (tx s) (operations (buffer (tx s))) (us w) ids (log_phase i1 crc0 (tx s) (env w) ids d).1.
Definition run_items : list item := Eval vm_compute in [run_item 1 2000 s1; run_item 6 4000 s2; run_item 9 6000 s3; run_item 13 8000 s4].
Definition run_used : list Event := Eval vm_compute in run_events 2000 s1 ++ run_events 4000 s2 ++ run_events 6000 s3 ++ run_events 8000 s4.
(** What is under the lock leaves; the registration of the commit follows. *)
Definition stored (w : Z) (s : Session) : Db.Db := (locks (tx s) w i1 (prepared s).2 (prepared s).1).1.
Definition g1 : Db.Db := Eval vm_compute in stored 2000 s1.
Definition g2 : Db.Db := Eval vm_compute in stored 4000 s2.
Definition g3 : Db.Db := Eval vm_compute in stored 6000 s3.
Definition g4 : Db.Db := Eval vm_compute in stored 8000 s4.
Lemma commit_runs items evs d s w base d' items' evs' :
  run items evs d -> same_stores d (prepared s).1 ->
  locks (tx s) w i1 (prepared s).2 (prepared s).1 = (d', Ok (us w)) ->
  (log_phase i1 crc0 (tx s) (env w) (prepared s).2 (prepared s).1).2 = Ok (us w) ->
  all_regular i1 no_ptr no_map_ptr History.default_config no_hooks (tx s) (operations (buffer (tx s))) (us w) (prepared s).2
    (log_phase i1 crc0 (tx s) (env w) (prepared s).2 (prepared s).1).1 = true ->
  items ++ [run_item base w s] = items' -> evs ++ run_events w s = evs' -> run items' evs' d'.
Proof.
  intros Hr Hs Hl Hp Hreg <- <-. unfold run_item, run_events. destruct (prepared s) as [d0 ids]. cbn [fst snd] in *.
  destruct (log_phase i1 crc0 (tx s) (env w) ids d0) as [d1 c] eqn:E. cbn [fst snd] in *. subst c.
  by eapply (run_commit i1 crc0 no_ptr no_map_ptr History.default_config no_hooks items evs d d0).
Qed.
Lemma run_g4 : run run_items run_used g4.
Proof.
  eapply (commit_runs (take 3 run_items) (take 9 run_used) g3 s4 8000 13 g4); [|by vm_compute..].
  eapply (commit_runs (take 2 run_items) (take 5 run_used) g2 s3 6000 9 g3); [|by vm_compute..].
  eapply (commit_runs (take 1 run_items) (take 3 run_used) g1 s2 4000 6 g2); [|by vm_compute..].
  eapply (commit_runs [] [] d0 s1 2000 1 g1); [apply run_empty|by vm_compute..].
Qed.
(** The log of the run, as it is read back; node 2 was created as version 9. *)
Definition run_entries : list Wal.WalEntry := List.map (rec_entry crc0 i1 WalRead.WAL_VERSION_STRING_LABELS) (log_records run_items).

(** The update of the past that asserts the head again, replayed and replayed again. *)
Definition logged : list (Wal.WalOperation * HybridTimestamp) := Eval vm_compute in log_effect run_items.
Definition backfill : Wal.WalOperation * HybridTimestamp := Eval vm_compute in default (Wal.BeginTx 0, us 0) (logged !! 4%nat).
Abbreviation replay := (Replay.replay_operations i1 no_ptr no_map_ptr History.default_config no_hooks).
Definition before_backfill : Replay.Recovered := Eval vm_compute in (replay (take 4 logged) fresh_start).1.
Definition after_backfill : Replay.Recovered := Eval vm_compute in (replay [backfill] before_backfill).1.
Lemma replay_boundary_idempotent_witness : exists r,
  Replay.replay_operation i1 no_ptr no_map_ptr History.default_config no_hooks backfill.1 backfill.2 after_backfill = (r, Ok tt) /\
  settled after_backfill r /\ (Id.is_structural <$> History.version_heads (Replay.node_history r) !! 0) = Some true.
Proof.
  destruct (replay_boundary_idempotent i1 no_ptr no_map_ptr History.default_config no_hooks backfill.1 backfill.2 before_backfill after_backfill)
    as (r & Hr & Hs).
  - vm_compute. reflexivity.
  - vm_compute. reflexivity.
  - exists r. split; [exact Hr|]. split; [exact Hs|]. rewrite (st_node_history _ _ Hs). vm_compute. reflexivity.
Defined.
End ReplayRuns.
